(* ===== verification/_CoqProject ===== *)
-Q . S2P
Prelude.v
DataOutput.v
DataInput.v
Codec.v
InputSafety.v
SerializationProps.v
Membership.v
Version.v
VersionProps.v
MapEntry.v
MapSegment.v
SegmentInvariant.v
SegmentOps.v
SegmentProps.v
SegmentFindings.v
ConcurrentEntriesMap.v
EntriesMapProps.v
EventId.v
EventIdProps.v
LRUList.v
LRUListProps.v
LRUEntriesMap.v
LRUMapProps.v
OverflowProps.v
LocalRegion.v
RegionSpec.v
RegionProps.v
EvictionController.v
Cacheable.v
CacheableWire.v
CacheableRead.v
CacheableProps.v
CacheableType.v
