(* ===== verification/Prelude.v ===== *)
(** * Geode native client: a verification library (root file, header to be
    completed below). *)

From Stdlib Require Export ZArith Lia.
From stdpp Require Export base numbers list gmap strings.

#[global] Open Scope Z_scope.

(** ** Machine integers *)

(** Conversion to an unsigned [w]-bit integer: C++ reduces modulo [2^w]. *)
Definition uwrap (w z : Z) : Z := z mod 2 ^ w.

(** Conversion to a signed [w]-bit two's-complement integer. *)
Definition swrap (w z : Z) : Z := (z + 2 ^ (w - 1)) mod 2 ^ w - 2 ^ (w - 1).

Definition u8 : Z → Z := uwrap 8.
Definition u16 : Z → Z := uwrap 16.
Definition u32 : Z → Z := uwrap 32.
Definition u64 : Z → Z := uwrap 64.
Definition i8 : Z → Z := swrap 8.
Definition i16 : Z → Z := swrap 16.
Definition i32 : Z → Z := swrap 32.
Definition i64 : Z → Z := swrap 64.

Definition in_u (w z : Z) : Prop := 0 ≤ z < 2 ^ w.
Definition in_s (w z : Z) : Prop := - 2 ^ (w - 1) ≤ z < 2 ^ (w - 1).

(** ** Outcomes: a value, a C++ exception, or undefined behaviour *)

Inductive exn : Type :=
  | OutOfRangeException
  | IllegalStateException
  | IllegalArgumentException
  | FatalInternalException
  | BadWeakPtr
  | BadArrayNewLength
  | DiskException
  | LengthError
  | RegionDestroyedException.

#[global] Instance exn_eq_dec : EqDecision exn.
Proof. solve_decision. Defined.

Inductive outcome (A : Type) : Type :=
  | Ok (a : A)
  | Throw (e : exn)
  | UB.
Arguments Ok {A} a.
Arguments Throw {A} e.
Arguments UB {A}.

(** Stateful code that may throw: the state reached when the exception leaves
    the function is kept, as C++ keeps the mutations made before the throw. *)
Definition M (S A : Type) : Type := S → outcome A * S.

Definition ret {S A} (a : A) : M S A := λ s, (Ok a, s).
Definition throw {S A} (e : exn) : M S A := λ s, (Throw e, s).
Definition undefined {S A} : M S A := λ s, (UB, s).
Definition get {S} : M S S := λ s, (Ok s, s).
Definition put {S} (s' : S) : M S unit := λ _, (Ok tt, s').
Definition modify {S} (f : S → S) : M S unit := λ s, (Ok tt, f s).

Definition bind {S A B} (m : M S A) (k : A → M S B) : M S B := λ s,
  match m s with
  | (Ok a, s') => k a s'
  | (Throw e, s') => (Throw e, s')
  | (UB, s') => (UB, s')
  end.

(** Run code on a component of the state. *)
Definition zoom {S T A} (view : S → T) (update : T → S → S) (m : M T A) : M S A :=
  λ s, let (r, t) := m (view s) in (r, update t s).

Declare Scope geode_scope.
Delimit Scope geode_scope with geode.
Notation "'let!' x ':=' m 'in' k" := (bind m (λ x, k))
  (at level 10, x pattern, m at level 100, k at level 200,
   format "'[v' 'let!'  x  ':='  m  'in' '/' k ']'") : geode_scope.
Notation "m ;! k" := (bind m (λ _, k))
  (at level 100, k at level 200, right associativity) : geode_scope.
#[global] Open Scope geode_scope.

(** ** Automation *)

Create HintDb geode discriminated.

(** Case analysis on the next scrutinee of a [match] or [if] in the goal,
    keeping the equation. *)
Ltac split_match :=
  match goal with
  | |- context [match ?x with _ => _ end] =>
      lazymatch x with
      | context [match _ with _ => _ end] => fail
      | _ => destruct x eqn:?
      end
  end.

(** Close arithmetic goals that mention the wrap-around functions and powers
    of two at constant widths. *)
Ltac unfold_widths :=
  unfold u8, u16, u32, u64, i8, i16, i32, i64, uwrap, swrap, in_u, in_s in *;
  change (2 ^ 8) with 256 in *; change (2 ^ (8 - 1)) with 128 in *;
  change (2 ^ 16) with 65536 in *; change (2 ^ (16 - 1)) with 32768 in *;
  change (2 ^ 32) with 4294967296 in *;
  change (2 ^ (32 - 1)) with 2147483648 in *;
  change (2 ^ 64) with 18446744073709551616 in *;
  change (2 ^ (64 - 1)) with 9223372036854775808 in *.

Ltac width_lia := unfold_widths; try lia; Z.div_mod_to_equations; lia.

(** ** The monad *)

Lemma bind_Ok {S A B} (m : M S A) (k : A → M S B) s a s' :
  m s = (Ok a, s') → bind m k s = k a s'.
Proof. unfold bind. by intros ->. Qed.

Lemma bind_ret {S A B} (a : A) (k : A → M S B) s : bind (ret a) k s = k a s.
Proof. done. Qed.

Lemma bind_get {S B} (k : S → M S B) s : bind get k s = k s s.
Proof. done. Qed.

Lemma bind_assoc {S A B C} (m : M S A) (f : A → M S B) (g : B → M S C) s :
  bind (bind m f) g s = bind m (λ a, bind (f a) g) s.
Proof. unfold bind. by destruct (m s) as [[] ?]. Qed.

Lemma bind_inv_Ok {S A B} (m : M S A) (k : A → M S B) s b s' :
  bind m k s = (Ok b, s') →
  ∃ a s1, m s = (Ok a, s1) ∧ k a s1 = (Ok b, s').
Proof. unfold bind. destruct (m s) as [[a| |] s1]; naive_solver. Qed.

(** ** Wrap-around *)

Lemma uwrap_range w z : 0 ≤ w → 0 ≤ uwrap w z < 2 ^ w.
Proof. intros. apply Z.mod_pos_bound. by apply Z.pow_pos_nonneg. Qed.

Lemma uwrap_id w z : in_u w z → uwrap w z = z.
Proof. intros. by apply Z.mod_small. Qed.

Lemma swrap_id w z : 0 < w → in_s w z → swrap w z = z.
Proof.
  unfold swrap, in_s. intros Hw Hz.
  assert (2 ^ w = 2 * 2 ^ (w - 1)) as E.
  { rewrite <- Z.pow_succ_r by lia. f_equal. lia. }
  rewrite Z.mod_small; lia.
Qed.

Lemma swrap_range w z : 0 < w → in_s w (swrap w z).
Proof.
  unfold swrap, in_s. intros Hw.
  assert (2 ^ w = 2 * 2 ^ (w - 1)) as E.
  { rewrite <- Z.pow_succ_r by lia. f_equal. lia. }
  pose proof (Z.mod_pos_bound (z + 2 ^ (w - 1)) (2 ^ w)).
  assert (0 < 2 ^ (w - 1)) by (apply Z.pow_pos_nonneg; lia). lia.
Qed.

(** Reading back a signed value through its unsigned representation. *)
Lemma swrap_uwrap w z : 0 < w → swrap w (uwrap w z) = swrap w z.
Proof.
  intros Hw. unfold swrap, uwrap.
  rewrite Z.add_mod_idemp_l; [done|]. apply Z.pow_nonzero; lia.
Qed.

Lemma swrap_uwrap_id w z : 0 < w → in_s w z → swrap w (uwrap w z) = z.
Proof. intros. rewrite swrap_uwrap by done. by apply swrap_id. Qed.

Lemma uwrap_uwrap_le v w z : 0 ≤ v ≤ w → uwrap v (uwrap w z) = uwrap v z.
Proof.
  intros. unfold uwrap. apply Z.mod_mod_divide.
  exists (2 ^ (w - v)). rewrite <- Z.pow_add_r by lia. f_equal. lia.
Qed.

(** A byte appended below an already shifted accumulator: [|] is [+]. *)
Lemma lor_shiftl_low a b n :
  0 ≤ n → 0 ≤ b < 2 ^ n → Z.lor (Z.shiftl a n) b = a * 2 ^ n + b.
Proof.
  intros Hn Hb.
  assert (Z.land (Z.shiftl a n) b = 0) as Hdisj.
  { apply Z.bits_inj'. intros i Hi. rewrite Z.land_spec, Z.bits_0.
    destruct (Z.lt_ge_cases i n).
    - by rewrite Z.shiftl_spec_low.
    - rewrite <- (Z.mod_small b (2 ^ n)) by done.
      by rewrite Z.mod_pow2_bits_high, andb_false_r. }
  rewrite <- Z.lxor_lor, <- Z.add_nocarry_lxor by done.
  by rewrite Z.shiftl_mul_pow2.
Qed.

(** A bit mask of low bits is a remainder. *)
Lemma land_ones' a n : 0 ≤ n → Z.land a (2 ^ n - 1) = a mod 2 ^ n.
Proof.
  intros. rewrite <- Z.land_ones by done. f_equal.
  rewrite Z.ones_equiv. lia.
Qed.

(** Finite checks: a boolean predicate that evaluates to [true] on every
    integer below a bound. *)
Lemma forallb_range (P : Z → bool) n :
  forallb P (seqZ 0 n) = true → ∀ t, 0 ≤ t < n → P t = true.
Proof.
  rewrite forallb_forall. intros Hall t Ht. apply Hall.
  apply list_elem_of_In, elem_of_seqZ. lia.
Qed.

(** ** Big-endian byte strings *)

(** Big-endian encoding of the low [8 * n] bits. *)
Fixpoint be (n : nat) (v : Z) : list Z :=
  match n with
  | O => []
  | S n' => be n' (v / 256) ++ [v mod 256]
  end.

Lemma length_be n v : length (be n v) = n.
Proof.
  revert v. induction n; intros; simpl; [done|].
  rewrite length_app, IHn. simpl. lia.
Qed.

Lemma be_uwrap n w v : w = 8 * Z.of_nat n → be n (uwrap w v) = be n v.
Proof.
  intros ->. revert v. unfold uwrap. induction n as [|n IH]; intros v; [done|].
  simpl be. replace (8 * Z.of_nat (S n)) with (8 + 8 * Z.of_nat n) by lia.
  rewrite Z.pow_add_r by lia. change (2 ^ 8) with 256. f_equal.
  - rewrite <- (IH (v / 256)). f_equal.
    rewrite Z.rem_mul_r by (try apply Z.pow_nonzero; lia).
    rewrite Z.mul_comm, Z.div_add by lia.
    rewrite (Z.div_small (v mod 256)) by (apply Z.mod_pos_bound; lia). done.
  - f_equal. rewrite Z.rem_mul_r by (try apply Z.pow_nonzero; lia).
    rewrite Z.mul_comm, Z.mod_add by lia. by apply Z.mod_mod.
Qed.
