(* ===== verification/DataOutput.v ===== *)
(** * The serialization buffer [DataOutput]

    Models src/src/cppcache/include/geode/DataOutput.hpp and
    src/src/cppcache/src/DataOutput.cpp: the growing byte buffer every message
    and every serialized object is written to, its capacity management, the
    thread-local pool the buffers come from, and the writers for integers,
    array lengths, byte arrays and strings.

    The allocation [m_bytes] is a list of bytes of its real length, the cursor
    [m_buf] an offset into it; a store outside the allocation is [UB].  C
    strings are the list of elements that can be read from the pointer on, so
    that running over the end of a string is [UB] as well. *)

From S2P Require Import Prelude.

(** What a fresh block of memory holds is the allocator's choice. *)
Class Allocator := { fresh : nat → Z }.

Section DataOutput.
Context `{Allocator}.

Record DataOutput := mkDataOutput {
  do_bytes : list Z;
  do_buf : Z;
  do_size : Z;
  do_haveBigBuffer : bool;
  do_bigBufferLock : Z
}.

Definition m_highWaterMark : Z := 50 * 1024 * 1024.
Definition m_lowWaterMark : Z := 8192.

(** ** Memory *)

Definition allocate (from n : nat) : list Z := fresh <$> seq from n.

(** [realloc]: the common prefix is kept, new cells are unspecified. *)
Definition realloc (l : list Z) (n : Z) : list Z :=
  take (Z.to_nat n) l ++ allocate (length l) (Z.to_nat n - length l).

Definition set_buf (b : Z) (o : DataOutput) : DataOutput :=
  mkDataOutput (do_bytes o) b (do_size o) (do_haveBigBuffer o)
    (do_bigBufferLock o).

(** [memcpy (m_buf, bs, |bs|); m_buf += |bs|]. *)
Definition store (bs : list Z) : M DataOutput unit := λ o,
  if (0 <=? do_buf o) &&
     (do_buf o + Z.of_nat (length bs) <=? Z.of_nat (length (do_bytes o)))
  then (Ok tt,
        mkDataOutput (list_inserts (Z.to_nat (do_buf o)) bs (do_bytes o))
          (do_buf o + Z.of_nat (length bs)) (do_size o)
          (do_haveBigBuffer o) (do_bigBufferLock o))
  else (UB, o).

(** Reading [n] elements from a pointer. *)
Definition loadN (n : Z) (mem : list Z) : M DataOutput (list Z) :=
  if n <=? Z.of_nat (length mem) then ret (take (Z.to_nat n) mem)
  else undefined.

(** ** Capacity *)

Definition acquireLock (o : DataOutput) : DataOutput :=
  mkDataOutput (do_bytes o) (do_buf o) (do_size o) (do_haveBigBuffer o)
    (do_bigBufferLock o + 1).

Definition releaseLock (o : DataOutput) : DataOutput :=
  mkDataOutput (do_bytes o) (do_buf o) (do_size o) (do_haveBigBuffer o)
    (do_bigBufferLock o - 1).

Definition set_big (b : bool) (o : DataOutput) : DataOutput :=
  mkDataOutput (do_bytes o) (do_buf o) (do_size o) b (do_bigBufferLock o).

Definition ensureCapacity (size : Z) : M DataOutput unit := λ o,
  let offset := u32 (do_buf o) in
  if u32 (do_size o - offset) <? size then
    let newSize := u32 (do_size o * 2 + 8192 * (size / 8192)) in
    let o := if (m_highWaterMark <=? newSize) && negb (do_haveBigBuffer o)
             then set_big true (acquireLock o) else o in
    (Ok tt, mkDataOutput (realloc (do_bytes o) newSize) offset newSize
              (do_haveBigBuffer o) (do_bigBufferLock o))
  else (Ok tt, o).

Definition do_reset : M DataOutput unit := λ o,
  let o := if do_haveBigBuffer o
           then releaseLock (set_big false
                  (mkDataOutput (allocate 0 (Z.to_nat m_lowWaterMark))
                     (do_buf o) m_lowWaterMark (do_haveBigBuffer o)
                     (do_bigBufferLock o)))
           else o in
  (Ok tt, set_buf 0 o).

Definition do_advanceCursor (offset : Z) : M DataOutput unit :=
  ensureCapacity offset ;!
  modify (λ o, set_buf (do_buf o + offset) o).

Definition do_rewindCursor (offset : Z) : M DataOutput unit :=
  modify (λ o, set_buf (do_buf o - offset) o).

Definition updateValueAtPos (offset value : Z) : M DataOutput unit := λ o,
  if offset <? Z.of_nat (length (do_bytes o))
  then (Ok tt, mkDataOutput (<[Z.to_nat offset := value]> (do_bytes o))
                 (do_buf o) (do_size o) (do_haveBigBuffer o)
                 (do_bigBufferLock o))
  else (UB, o).

Definition getBufferLength (o : DataOutput) : Z := u32 (do_buf o).

Definition getRemainingBufferLength (o : DataOutput) : Z :=
  u32 (do_size o - getBufferLength o).

(** [getBuffer(&rsize)]: the bytes a sender takes out of the buffer. *)
Definition getBuffer (o : DataOutput) : list Z :=
  take (Z.to_nat (getBufferLength o)) (do_bytes o).

(** ** The thread-local buffer pool *)

Record BufferDesc := mkBufferDesc { bd_buf : list Z; bd_size : Z }.

(** [TSSDataOutput::getBuffer] over the vector [m_buffers], whose back is the
    head of the list. *)
Definition tss_getBuffer (m_buffers : list BufferDesc)
    : BufferDesc * list BufferDesc :=
  match m_buffers with
  | desc :: rest => (desc, rest)
  | [] => (mkBufferDesc (allocate 0 (Z.to_nat 8192)) 8192, [])
  end.

Definition tss_poolBuffer (buf : list Z) (size : Z)
    (m_buffers : list BufferDesc) : list BufferDesc :=
  mkBufferDesc buf size :: m_buffers.

(** The constructor and destructor of [DataOutput]. *)
Definition newDataOutput (lock : Z) (pool : list BufferDesc)
    : DataOutput * list BufferDesc :=
  let (desc, pool') := tss_getBuffer pool in
  (mkDataOutput (bd_buf desc) 0 (bd_size desc) false lock, pool').

Definition deleteDataOutput (o : DataOutput) (pool : list BufferDesc)
    : list BufferDesc :=
  let o' := (do_reset o).2 in
  tss_poolBuffer (do_bytes o') (do_size o') pool.

(** ** Bytes and integers *)

Definition writeNoCheck (value : Z) : M DataOutput unit := store [u8 value].

Definition write_u8 (value : Z) : M DataOutput unit :=
  ensureCapacity 1 ;! writeNoCheck value.

Definition write_i8 (value : Z) : M DataOutput unit := write_u8 (u8 value).

Definition writeBoolean (value : bool) : M DataOutput unit :=
  write_u8 (if value then 1 else 0).

Definition writeInt_u16 (value : Z) : M DataOutput unit :=
  ensureCapacity 2 ;!
  store [u8 (Z.shiftr value 8)] ;!
  store [u8 value].

Definition writeChar (value : Z) : M DataOutput unit :=
  ensureCapacity 2 ;!
  store [u8 (Z.shiftr value 8)] ;!
  store [u8 value].

Definition writeInt_u32 (value : Z) : M DataOutput unit :=
  ensureCapacity 4 ;!
  store [u8 (Z.shiftr value 24)] ;!
  store [u8 (Z.shiftr value 16)] ;!
  store [u8 (Z.shiftr value 8)] ;!
  store [u8 value].

(** The [sizeof(long) == 8] branch, then the branch of 32-bit targets. *)
Definition writeInt_u64 (long_is_8 : bool) (value : Z) : M DataOutput unit :=
  ensureCapacity 8 ;!
  if long_is_8 then
    store [u8 (Z.shiftr value 56)] ;!
    store [u8 (Z.shiftr value 48)] ;!
    store [u8 (Z.shiftr value 40)] ;!
    store [u8 (Z.shiftr value 32)] ;!
    store [u8 (Z.shiftr value 24)] ;!
    store [u8 (Z.shiftr value 16)] ;!
    store [u8 (Z.shiftr value 8)] ;!
    store [u8 value]
  else
    let hword := u32 (Z.shiftr value 32) in
    store [u8 (Z.shiftr hword 24)] ;!
    store [u8 (Z.shiftr hword 16)] ;!
    store [u8 (Z.shiftr hword 8)] ;!
    store [u8 hword] ;!
    let hword := u32 value in
    store [u8 (Z.shiftr hword 24)] ;!
    store [u8 (Z.shiftr hword 16)] ;!
    store [u8 (Z.shiftr hword 8)] ;!
    store [u8 hword].

Definition writeInt_i16 (value : Z) : M DataOutput unit :=
  writeInt_u16 (u16 value).
Definition writeInt_i32 (value : Z) : M DataOutput unit :=
  writeInt_u32 (u32 value).
Definition writeInt_i64 (value : Z) : M DataOutput unit :=
  writeInt_u64 true (u64 value).

(** [writeFloat] and [writeDouble] write the representation of the IEEE value
    (the [union] of the source), which is what the model is given. *)
Definition writeFloat (bits : Z) : M DataOutput unit := writeInt_u32 bits.
Definition writeDouble (bits : Z) : M DataOutput unit := writeInt_u64 true bits.

Definition writeArrayLen (len : Z) : M DataOutput unit :=
  if len =? -1 then write_i8 (-1)
  else if len <=? 252 then write_u8 (u8 len)
  else if len <=? 65535 then write_i8 (-2) ;! writeInt_u16 (u16 len)
  else write_i8 (-3) ;! writeInt_i32 len.

(** ** Byte arrays *)

(** [len + 5] is computed in [int32_t]. *)
Definition writeBytes (bytes : option (list Z)) (len : Z)
    : M DataOutput unit :=
  if 0 <=? len then
    (if len + 5 <? 2 ^ 31 then ensureCapacity (len + 5) else undefined) ;!
    writeArrayLen (match bytes with None => 0 | Some _ => len end) ;!
    match bytes with
    | Some mem =>
        if 0 <? len then let! bs := loadN len mem in store (u8 <$> bs)
        else ret tt
    | None => ret tt
    end
  else write_i8 (-1).

Definition writeBytesOnly (mem : list Z) (len : Z) : M DataOutput unit :=
  ensureCapacity len ;!
  let! bs := loadN len mem in
  store (u8 <$> bs).

(** ** Strings *)

(** [strlen]/[wcslen]: the index of the first zero element. *)
Fixpoint strlen (mem : list Z) : option Z :=
  match mem with
  | [] => None
  | c :: mem' => if c =? 0 then Some 0 else (λ n, n + 1) <$> strlen mem'
  end.

Definition lift {S A} (x : option A) : M S A :=
  match x with Some a => ret a | None => undefined end.

(** A length argument of 0 asks for the complete string. *)
Definition stringLength (mem : list Z) (length : Z) : M DataOutput Z :=
  if length =? 0 then (let! n := lift (strlen mem) in ret (u32 n))
  else ret length.

Definition writeASCII (value : option (list Z)) (length : Z)
    : M DataOutput unit :=
  match value with
  | Some mem =>
      let! length := stringLength mem length in
      let len := u16 (if 65535 <? length then 65535 else length) in
      writeInt_u16 len ;!
      writeBytesOnly mem len
  | None => writeInt_u16 0
  end.

Definition writeASCIIHuge (value : option (list Z)) (length : Z)
    : M DataOutput unit :=
  match value with
  | Some mem =>
      let! length := stringLength mem length in
      writeInt_u32 length ;!
      writeBytesOnly mem length
  | None => writeInt_u32 0
  end.

(** Bytes one character takes in modified UTF-8: [char] and [wchar_t]. *)
Definition encodedLength_char (val encodedLen : Z) : Z :=
  if (val =? 0) || negb (Z.land val 128 =? 0) then encodedLen + 2
  else encodedLen + 1.

Definition encodedLength_wchar (val encodedLen : Z) : Z :=
  if val =? 0 then encodedLen + 2
  else if val <? 128 then encodedLen + 1
  else if val <? 2048 then encodedLen + 2
  else encodedLen + 3.

Section EncodedLength.
Variable step : Z → Z → Z.

Fixpoint encodedLength_nul (mem : list Z) (encodedLen : Z) : option Z :=
  match mem with
  | [] => None
  | c :: mem' =>
      if c =? 0 then Some encodedLen
      else encodedLength_nul mem' (step c encodedLen)
  end.

Fixpoint encodedLength_upto (n : nat) (mem : list Z) (encodedLen : Z)
    : option Z :=
  match n, mem with
  | O, _ => Some encodedLen
  | S _, [] => None
  | S n', c :: mem' => encodedLength_upto n' mem' (step c encodedLen)
  end.
End EncodedLength.

Definition getEncodedLength_char (mem : list Z) (length : Z) : option Z :=
  if length =? 0 then encodedLength_nul encodedLength_char mem 0
  else encodedLength_upto encodedLength_char (Z.to_nat length) mem 0.

Definition getEncodedLength_wchar (mem : list Z) (length : Z) : option Z :=
  if length =? 0 then encodedLength_nul encodedLength_wchar mem 0
  else encodedLength_upto encodedLength_wchar (Z.to_nat length) mem 0.

Definition encodeChar_char (value : Z) : M DataOutput unit :=
  let tmp := u8 value in
  if (tmp =? 0) || negb (Z.land tmp 128 =? 0) then
    store [u8 (Z.lor 192 (Z.shiftr (Z.land tmp 192) 6))] ;!
    store [u8 (Z.lor 128 (Z.land tmp 63))]
  else store [tmp].

Definition encodeChar_wchar (value : Z) : M DataOutput unit :=
  let c := u16 value in
  if c =? 0 then store [192] ;! store [128]
  else if c <? 128 then store [u8 c]
  else if c <? 2048 then
    store [u8 (Z.lor 192 (Z.shiftr c 6))] ;!
    store [u8 (Z.lor 128 (Z.land c 63))]
  else
    store [u8 (Z.lor 224 (Z.shiftr c 12))] ;!
    store [u8 (Z.lor 128 (Z.land (Z.shiftr c 6) 63))] ;!
    store [u8 (Z.lor 128 (Z.land c 63))].

(** [while (m_buf < end) encodeChar( *value++ );] *)
Fixpoint encodeLoop (encodeChar : Z → M DataOutput unit) (end_ : Z)
    (value : list Z) : M DataOutput unit :=
  let! o := get in
  if do_buf o <? end_ then
    match value with
    | [] => undefined
    | c :: value' => encodeChar c ;! encodeLoop encodeChar end_ value'
    end
  else ret tt.

Definition clampCursor (end_ : Z) : M DataOutput unit :=
  modify (λ o, if end_ <? do_buf o then set_buf end_ o else o).

Definition writeUTF_with (getEncodedLength : list Z → Z → option Z)
    (encodeChar : Z → M DataOutput unit)
    (value : option (list Z)) (length : Z) : M DataOutput unit :=
  match value with
  | Some mem =>
      let! len := lift (getEncodedLength mem (i32 length)) in
      let encodedLen := u16 (if 65535 <? len then 65535 else len) in
      writeInt_u16 encodedLen ;!
      ensureCapacity encodedLen ;!
      let! o := get in
      let end_ := do_buf o + encodedLen in
      encodeLoop encodeChar end_ mem ;!
      clampCursor end_
  | None => writeInt_u16 0
  end.

Definition writeUTF_char := writeUTF_with getEncodedLength_char encodeChar_char.
Definition writeUTF_wchar :=
  writeUTF_with getEncodedLength_wchar encodeChar_wchar.

Definition writeFullUTF (value : option (list Z)) (length : Z)
    : M DataOutput unit :=
  match value with
  | Some mem =>
      let! encodedLen := lift (getEncodedLength_char mem (i32 length)) in
      writeInt_i32 encodedLen ;!
      ensureCapacity (u32 encodedLen) ;!
      write_i8 0 ;!
      let! o := get in
      let end_ := do_buf o + encodedLen in
      encodeLoop encodeChar_char end_ mem ;!
      clampCursor end_
  | None => writeInt_u16 0
  end.

(** [for (pos = 0; pos < length; pos++) { hi; lo }] *)
Fixpoint writeCharPairs (pair : Z → list Z) (n : nat) (value : list Z)
    : M DataOutput unit :=
  match n, value with
  | O, _ => ret tt
  | S _, [] => undefined
  | S n', c :: value' =>
      store (take 1 (pair c)) ;! store (drop 1 (pair c)) ;!
      writeCharPairs pair n' value'
  end.

Definition charPair (c : Z) : list Z := [0; u8 c].
Definition wcharPair (c : Z) : list Z :=
  let item := u16 c in
  [u8 (Z.shiftr (Z.land item 65280) 8); u8 (Z.land item 255)].

Definition writeUTFHuge_with (pair : Z → list Z) (value : option (list Z))
    (length : Z) : M DataOutput unit :=
  match value with
  | Some mem =>
      let! length := stringLength mem length in
      writeInt_u32 length ;!
      ensureCapacity (u32 (length * 2)) ;!
      writeCharPairs pair (Z.to_nat length) mem
  | None => writeInt_u32 0
  end.

Definition writeUTFHuge_char := writeUTFHuge_with charPair.
Definition writeUTFHuge_wchar := writeUTFHuge_with wcharPair.

End DataOutput.

Arguments allocate {_} _ _ : simpl never.
Arguments Z.to_nat _ : simpl never.

(** ** The abstract view: an append-only byte log *)

(** Well-formedness: [m_size] is the size of the allocation and at least the
    pool's 8192, the cursor is inside it, and the big-buffer lock is held
    exactly when [m_haveBigBuffer] says so. *)
Record do_wf (o : DataOutput) : Prop := {
  wf_alloc : Z.of_nat (length (do_bytes o)) = do_size o;
  wf_min : 8192 ≤ do_size o;
  wf_max : do_size o < 2 ^ 32;
  wf_cursor : 0 ≤ do_buf o ≤ do_size o;
  wf_lock : do_bigBufferLock o = if do_haveBigBuffer o then 1 else 0
}.

(** What has been written: the bytes below the cursor. *)
Definition written (o : DataOutput) : list Z :=
  take (Z.to_nat (do_buf o)) (do_bytes o).

(** The size up to which the 32-bit size computation cannot wrap around:
    the buffer at most doubles plus the requested size. *)
Definition maxMessage : Z := 2 ^ 30.

(** [m] stores exactly [bs] into space already ensured. *)
Definition stores (m : M DataOutput unit) (bs : list Z) : Prop := ∀ o,
  do_wf o → do_buf o + Z.of_nat (length bs) ≤ do_size o →
  ∃ o', m o = (Ok tt, o') ∧ do_wf o' ∧ written o' = written o ++ bs ∧
        do_size o' = do_size o.

(** [m] appends exactly [bs], growing the buffer as needed. *)
Definition appends (m : M DataOutput unit) (bs : list Z) : Prop := ∀ o,
  do_wf o → do_buf o + Z.of_nat (length bs) ≤ maxMessage →
  ∃ o', m o = (Ok tt, o') ∧ do_wf o' ∧ written o' = written o ++ bs ∧
        do_size o ≤ do_size o'.

Section Lemmas.
Context `{Allocator}.

Lemma length_allocate from n : length (allocate from n) = n.
Proof. unfold allocate. by rewrite length_fmap, length_seq. Qed.

Lemma length_realloc l n : 0 ≤ n → Z.of_nat (length (realloc l n)) = n.
Proof.
  intros. unfold realloc. rewrite length_app, length_take, length_allocate.
  lia.
Qed.

Lemma take_realloc l n k :
  (k ≤ length l)%nat → Z.of_nat k ≤ n → take k (realloc l n) = take k l.
Proof.
  intros. unfold realloc.
  rewrite take_app_le by (rewrite length_take; lia).
  rewrite take_take. f_equal. lia.
Qed.

Lemma length_written o : do_wf o → Z.of_nat (length (written o)) = do_buf o.
Proof.
  intros [? ? ? ? ?]. unfold written. rewrite length_take. lia.
Qed.

(** The cursor follows the log. *)
Lemma written_app_buf o o' bs :
  do_wf o → do_wf o' → written o' = written o ++ bs →
  do_buf o' = do_buf o + Z.of_nat (length bs).
Proof.
  intros Hw Hw' E.
  rewrite <- (length_written o), <- (length_written o') by done.
  rewrite E, length_app. lia.
Qed.

Lemma ensureCapacity_spec size o :
  do_wf o → 0 ≤ size → do_buf o + size ≤ maxMessage + 8 →
  ∃ o', ensureCapacity size o = (Ok tt, o') ∧ do_wf o' ∧
        written o' = written o ∧ do_buf o' = do_buf o ∧
        do_buf o' + size ≤ do_size o' ∧ do_size o ≤ do_size o'.
Proof.
  intros Hw Hs Hmax. pose proof Hw as [Ha Hmin Hlt Hc Hl].
  unfold maxMessage in Hmax. unfold ensureCapacity.
  assert (u32 (do_buf o) = do_buf o) as -> by (apply uwrap_id; split; lia).
  assert (u32 (do_size o - do_buf o) = do_size o - do_buf o) as ->
    by (apply uwrap_id; split; lia).
  destruct (Z.ltb_spec (do_size o - do_buf o) size) as [E|E];
    [|eauto 10 with lia].
  set (grown := do_size o * 2 + 8192 * (size / 8192)).
  assert (size < 8192 * (size / 8192) + 8192 ∧ 8192 * (size / 8192) ≤ size)
    by (Z.div_mod_to_equations; lia).
  assert (u32 grown = grown) as ->
    by (apply uwrap_id; unfold grown; split; lia).
  set (o1 := if (_ : bool) then set_big true (acquireLock o) else o).
  assert (do_bytes o1 = do_bytes o ∧
          do_bigBufferLock o1 = if do_haveBigBuffer o1 then 1 else 0)
    as [Hb1 Hl1].
  { unfold o1. destruct (m_highWaterMark <=? grown), (do_haveBigBuffer o) eqn:Hh;
      simpl; rewrite ?Hh; split; try done; lia. }
  eexists. split; [done|]. rewrite Hb1. simpl. repeat split; simpl;
    unfold written; simpl; try lia; try done.
  - rewrite length_realloc; [done|unfold grown; lia].
  - apply take_realloc; unfold grown; lia.
Qed.

Lemma store_stores bs : stores (store bs) bs.
Proof.
  intros o Hw Hroom. pose proof Hw as [Ha Hmin Hlt Hc Hl]. unfold store.
  rewrite (proj2 (Z.leb_le 0 _)), (proj2 (Z.leb_le _ _)) by lia.
  eexists. split; [done|]. split_and!; [constructor| |]; simpl; try lia; try done.
  - by rewrite length_inserts.
  - unfold written; simpl.
    apply list_eq. intros i.
    destruct (decide (i < Z.to_nat (do_buf o))%nat).
    + rewrite lookup_take_lt by lia.
      rewrite list_lookup_inserts_lt by lia.
      rewrite lookup_app_l by (rewrite length_take; lia).
      by rewrite lookup_take_lt by lia.
    + rewrite lookup_app_r by (rewrite length_take; lia).
      rewrite length_take.
      destruct (decide (i < Z.to_nat (do_buf o) + length bs)%nat).
      * rewrite lookup_take_lt by lia.
        rewrite list_lookup_inserts by lia. f_equal. lia.
      * rewrite lookup_take_ge by lia. symmetry. apply lookup_ge_None. lia.
Qed.

Lemma stores_bind m1 m2 bs1 bs2 :
  stores m1 bs1 → stores m2 bs2 → stores (m1 ;! m2) (bs1 ++ bs2).
Proof.
  intros H1 H2 o Hw Hr. rewrite length_app in Hr.
  destruct (H1 o Hw) as (o1 & E1 & Hw1 & Hwr1 & Hs1); [lia|].
  pose proof (written_app_buf _ _ _ Hw Hw1 Hwr1).
  destruct (H2 o1 Hw1) as (o2 & E2 & Hw2 & Hwr2 & Hs2); [lia|].
  exists o2. rewrite (bind_Ok _ _ _ _ _ E1). split_and!; try done; [|lia].
  by rewrite Hwr2, Hwr1, app_assoc.
Qed.

Lemma stores_ret : stores (ret tt) [].
Proof. intros o Hw _. exists o. by rewrite app_nil_r. Qed.

Lemma appends_bind m1 m2 bs1 bs2 :
  appends m1 bs1 → appends m2 bs2 → appends (m1 ;! m2) (bs1 ++ bs2).
Proof.
  intros H1 H2 o Hw Hr. rewrite length_app in Hr.
  destruct (H1 o Hw) as (o1 & E1 & Hw1 & Hwr1 & Hs1); [lia|].
  pose proof (written_app_buf _ _ _ Hw Hw1 Hwr1).
  destruct (H2 o1 Hw1) as (o2 & E2 & Hw2 & Hwr2 & Hs2); [lia|].
  exists o2. rewrite (bind_Ok _ _ _ _ _ E1). split_and!; try done; [|lia].
  by rewrite Hwr2, Hwr1, app_assoc.
Qed.

Lemma appends_ret : appends (ret tt) [].
Proof. intros o Hw _. exists o. by rewrite app_nil_r. Qed.

(** Reserving at least the room that is then filled.  A slack of 8 bytes may
    be asked for, as [writeBytes] does. *)
Lemma ensure_stores_slack size m bs :
  stores m bs → Z.of_nat (length bs) ≤ size ≤ Z.of_nat (length bs) + 8 →
  appends (ensureCapacity size ;! m) bs.
Proof.
  intros Hm Hs o Hw Hmax.
  destruct (ensureCapacity_spec size o)
    as (o1 & E1 & Hw1 & Hwr1 & Hb1 & Hr1 & Hs1); [done|lia|lia|].
  destruct (Hm o1) as (o2 & E2 & Hw2 & Hwr2 & Hs2); [done|lia|].
  exists o2. rewrite (bind_Ok _ _ _ _ _ E1), Hwr2, Hwr1.
  split_and!; try done; lia.
Qed.

Lemma ensure_stores m bs :
  stores m bs → appends (ensureCapacity (Z.of_nat (length bs)) ;! m) bs.
Proof. intros. apply ensure_stores_slack; [done|lia]. Qed.

(** An extra reservation is harmless. *)
Lemma ensure_appends size m bs :
  appends m bs → 0 ≤ size ≤ Z.of_nat (length bs) + 8 →
  appends (ensureCapacity size ;! m) bs.
Proof.
  intros Hm Hs o Hw Hmax.
  destruct (ensureCapacity_spec size o)
    as (o1 & E1 & Hw1 & Hwr1 & Hb1 & Hr1 & Hs1); [done|lia|lia|].
  destruct (Hm o1) as (o2 & E2 & Hw2 & Hwr2 & Hs2); [done|lia|].
  exists o2. rewrite (bind_Ok _ _ _ _ _ E1), Hwr2, Hwr1.
  split_and!; try done; lia.
Qed.
End Lemmas.

(** ** What each writer appends *)

Definition arrayLenBytes (len : Z) : list Z :=
  if len =? -1 then [255]
  else if len <=? 252 then [len mod 256]
  else if len <=? 65535 then 254 :: be 2 len
  else 253 :: be 4 len.

(** Modified UTF-8 of one character of a [char] and of a [wchar_t] string. *)
Definition utf_char (c : Z) : list Z :=
  let t := u8 c in
  if (t =? 0) || (128 <=? t) then [192 + t / 64; 128 + t mod 64] else [t].

Definition utf_wchar (c : Z) : list Z :=
  let t := u16 c in
  if t =? 0 then [192; 128]
  else if t <? 128 then [t]
  else if t <? 2048 then [192 + t / 64; 128 + t mod 64]
  else [224 + t / 4096; 128 + (t / 64) mod 64; 128 + t mod 64].

Section Writers.
Context `{Allocator}.

Lemma stores_cons b m bs :
  stores m bs → stores (store [b] ;! m) (b :: bs).
Proof. intros. by apply (stores_bind _ _ [b]), H0; apply store_stores. Qed.

Lemma stores_last b : stores (store [b]) [b].
Proof. apply store_stores. Qed.
End Writers.

#[export] Hint Resolve stores_cons stores_last stores_ret appends_ret
  appends_bind : geode.

(** Prove [appends (ensureCapacity n ;! stores...) bs]: reserve, store, and
    compare the bytes. *)
Ltac solve_writer :=
  match goal with
  | |- appends (ensureCapacity ?n ;! ?m) ?bs =>
      let H := fresh in
      eassert (stores m _) as H by eauto 12 with geode;
      eapply ensure_stores in H; simpl length in H;
      match type of H with
      | appends _ ?bs' => replace bs with bs'; [exact H|]
      end
  end.

Section Writers2.
Context `{Allocator}.

Lemma appends_write_u8 v : appends (write_u8 v) [v mod 256].
Proof. unfold write_u8, writeNoCheck. by solve_writer. Qed.

Lemma appends_write_i8 v : appends (write_i8 v) [v mod 256].
Proof.
  unfold write_i8. rewrite <- (Z.mod_mod v 256) by lia. apply appends_write_u8.
Qed.

Lemma appends_writeBoolean b : appends (writeBoolean b) [if b then 1 else 0].
Proof.
  destruct b; unfold writeBoolean;
    [apply (appends_write_u8 1)|apply (appends_write_u8 0)].
Qed.

Ltac be_eq := simpl be; rewrite ?app_nil_l; simpl app;
  rewrite ?Z.div_div by lia; unfold u8, uwrap;
  rewrite ?Z.shiftr_div_pow2 by lia; done.

Lemma appends_writeInt_u16 v : appends (writeInt_u16 v) (be 2 v).
Proof. unfold writeInt_u16. solve_writer. be_eq. Qed.

Lemma appends_writeChar v : appends (writeChar v) (be 2 v).
Proof. unfold writeChar. solve_writer. be_eq. Qed.

Lemma appends_writeInt_u32 v : appends (writeInt_u32 v) (be 4 v).
Proof. unfold writeInt_u32. solve_writer. be_eq. Qed.

Lemma appends_writeInt_u64 v : appends (writeInt_u64 true v) (be 8 v).
Proof. unfold writeInt_u64. solve_writer. be_eq. Qed.

Lemma appends_writeInt_u64_32bit v : appends (writeInt_u64 false v) (be 8 v).
Proof.
  unfold writeInt_u64. cbv zeta. solve_writer.
  rewrite <- (be_uwrap 8 64 v) by done. simpl be. simpl app.
  unfold u8, u32, uwrap. rewrite ?Z.shiftr_div_pow2 by lia.
  rewrite ?Z.div_div by lia.
  repeat (apply (f_equal2 cons); [Z.div_mod_to_equations; lia|]). done.
Qed.

Lemma appends_writeInt_i16 v : appends (writeInt_i16 v) (be 2 v).
Proof.
  unfold writeInt_i16, u16. rewrite <- (be_uwrap 2 16 v) by done.
  apply appends_writeInt_u16.
Qed.

Lemma appends_writeInt_i32 v : appends (writeInt_i32 v) (be 4 v).
Proof.
  unfold writeInt_i32, u32. rewrite <- (be_uwrap 4 32 v) by done.
  apply appends_writeInt_u32.
Qed.

Lemma appends_writeInt_i64 v : appends (writeInt_i64 v) (be 8 v).
Proof.
  unfold writeInt_i64, u64. rewrite <- (be_uwrap 8 64 v) by done.
  apply appends_writeInt_u64.
Qed.

Lemma appends_writeArrayLen len : appends (writeArrayLen len) (arrayLenBytes len).
Proof.
  unfold writeArrayLen, arrayLenBytes. repeat case_match.
  - apply (appends_write_i8 (-1)).
  - rewrite <- Z.mod_mod by lia. apply appends_write_u8.
  - apply (appends_bind _ _ [254]); [apply (appends_write_i8 (-2))|].
    unfold u16. rewrite <- (be_uwrap 2 16 len) by done.
    apply appends_writeInt_u16.
  - apply (appends_bind _ _ [253]); [apply (appends_write_i8 (-3))|].
    apply appends_writeInt_i32.
Qed.

Lemma length_arrayLenBytes len :
  (1 ≤ length (arrayLenBytes len) ≤ 5)%nat.
Proof.
  unfold arrayLenBytes. repeat case_match; cbn [length];
    rewrite ?length_be; lia.
Qed.

(** ** Byte arrays *)

Lemma appends_writeBytesOnly mem len :
  0 ≤ len ≤ Z.of_nat (length mem) →
  appends (writeBytesOnly mem len) (u8 <$> take (Z.to_nat len) mem).
Proof.
  intros Hl. unfold writeBytesOnly.
  apply ensure_stores_slack; [|rewrite length_fmap, length_take; lia].
  intros o Hw Hr. unfold loadN. rewrite (proj2 (Z.leb_le _ _)) by lia.
  rewrite bind_ret. by apply store_stores.
Qed.

(** The bytes of an array: its length, then the elements; a null pointer
    counts as an empty array and a negative length as a null array. *)
Definition bytesBytes (bytes : option (list Z)) (len : Z) : list Z :=
  if 0 <=? len then
    match bytes with
    | Some mem => arrayLenBytes len ++ (u8 <$> take (Z.to_nat len) mem)
    | None => arrayLenBytes 0
    end
  else [255].

(** A reservation made in advance, then a checked write, then unchecked
    stores that rely on the reservation. *)
Lemma appends_reserved size m1 m2 bs1 bs2 :
  appends m1 bs1 → stores m2 bs2 →
  Z.of_nat (length (bs1 ++ bs2)) ≤ size ≤ Z.of_nat (length (bs1 ++ bs2)) + 8 →
  appends (ensureCapacity size ;! m1 ;! m2) (bs1 ++ bs2).
Proof.
  intros H1 H2 Hs o Hw Hmax. rewrite length_app in *.
  destruct (ensureCapacity_spec size o)
    as (o0 & E0 & Hw0 & Hwr0 & Hb0 & Hr0 & Hs0); [done|lia|lia|].
  destruct (H1 o0 Hw0) as (o1 & E1 & Hw1 & Hwr1 & Hs1); [lia|].
  pose proof (written_app_buf _ _ _ Hw0 Hw1 Hwr1).
  destruct (H2 o1 Hw1) as (o2 & E2 & Hw2 & Hwr2 & Hs2); [lia|].
  exists o2. rewrite (bind_Ok _ _ _ _ _ E0), (bind_Ok _ _ _ _ _ E1).
  rewrite Hwr2, Hwr1, Hwr0, app_assoc. split_and!; try done; lia.
Qed.

Lemma appends_writeBytes mem len :
  len ≤ Z.of_nat (length mem) → len ≤ maxMessage →
  appends (writeBytes (Some mem) len) (bytesBytes (Some mem) len).
Proof.
  intros Hmem Hmax. unfold writeBytes, bytesBytes.
  destruct (Z.leb_spec 0 len) as [Hl|Hl]; [|apply (appends_write_i8 (-1))].
  rewrite (proj2 (Z.ltb_lt _ _)) by (unfold maxMessage in Hmax; lia).
  pose proof (length_arrayLenBytes len).
  apply appends_reserved; [by apply appends_writeArrayLen| |].
  - intros o Hw Hr. unfold loadN. rewrite (proj2 (Z.leb_le _ _)) by lia.
    destruct (Z.ltb_spec 0 len) as [|]; [by apply store_stores|].
    assert (len = 0) as -> by lia. by apply stores_ret.
  - rewrite length_app, length_fmap, length_take. lia.
Qed.

(** ** Strings *)

Lemma strlen_app s rest :
  Forall (λ c, c ≠ 0) s → strlen (s ++ 0 :: rest) = Some (Z.of_nat (length s)).
Proof.
  induction 1 as [|c s Hc Hs IH]; simpl; [done|].
  rewrite (proj2 (Z.eqb_neq _ _)), IH by done. simpl. f_equal. lia.
Qed.

(** The characters a string argument denotes: [length] elements when it is
    given, the elements before the terminator when it is 0. *)
Definition denotes (mem : list Z) (length : Z) (s : list Z) : Prop :=
  ∃ rest, (length = 0 ∧ mem = s ++ 0 :: rest ∧ Forall (λ c, c ≠ 0) s) ∨
          (length = Z.of_nat (List.length s) ∧ 0 < length ∧ mem = s ++ rest).

Lemma stringLength_denotes mem length s o :
  denotes mem length s → Z.of_nat (List.length s) < 2 ^ 32 →
  stringLength mem length o = (Ok (Z.of_nat (List.length s)), o).
Proof.
  intros (rest & [(-> & -> & Hs)|(-> & Hp & ->)]) Hl; unfold stringLength.
  - simpl. rewrite strlen_app by done. simpl. unfold bind, ret.
    do 2 f_equal. apply uwrap_id. split; lia.
  - by rewrite (proj2 (Z.eqb_neq _ _)) by lia.
Qed.

Lemma denotes_prefix mem length s :
  denotes mem length s → ∃ rest, mem = s ++ rest.
Proof. intros (rest & [(_ & -> & _)|(_ & _ & ->)]); eauto. Qed.

Lemma appends_writeBytesOnly_prefix s rest :
  appends (writeBytesOnly (s ++ rest) (Z.of_nat (length s))) (u8 <$> s).
Proof.
  replace (u8 <$> s) with (u8 <$> take (Z.to_nat (Z.of_nat (length s))) (s ++ rest)).
  - apply appends_writeBytesOnly. rewrite length_app. lia.
  - by rewrite Nat2Z.id, take_app_length.
Qed.

Lemma appends_pure {A} (m : M DataOutput A) (a : A) k bs :
  (∀ o, m o = (Ok a, o)) → appends (k a) bs → appends (bind m k) bs.
Proof. intros Hm Hk o Hw Hb. rewrite (bind_Ok _ _ _ _ _ (Hm o)). eauto. Qed.

Lemma appends_writeASCII mem len s :
  denotes mem len s → Z.of_nat (length s) ≤ 65535 →
  appends (writeASCII (Some mem) len)
    (be 2 (Z.of_nat (length s)) ++ (u8 <$> s)).
Proof.
  intros Hd Hl. unfold writeASCII.
  eapply appends_pure;
    [intros; apply stringLength_denotes; [done|lia]|].
  cbv beta zeta. rewrite (proj2 (Z.ltb_ge _ _)) by lia.
  replace (u16 (Z.of_nat (length s))) with (Z.of_nat (length s))
    by (symmetry; apply uwrap_id; split; lia).
  destruct (denotes_prefix _ _ _ Hd) as [rest ->].
  apply appends_bind; [apply appends_writeInt_u16|].
  apply appends_writeBytesOnly_prefix.
Qed.

Lemma appends_writeASCIIHuge mem len s :
  denotes mem len s → Z.of_nat (length s) < 2 ^ 32 →
  appends (writeASCIIHuge (Some mem) len)
    (be 4 (Z.of_nat (length s)) ++ (u8 <$> s)).
Proof.
  intros Hd Hl. unfold writeASCIIHuge.
  eapply appends_pure; [intros; by apply stringLength_denotes|].
  destruct (denotes_prefix _ _ _ Hd) as [rest ->].
  apply appends_bind; [apply appends_writeInt_u32|].
  apply appends_writeBytesOnly_prefix.
Qed.

Lemma lor_lead k q : k = 128 ∨ k = 192 → 0 ≤ q < 64 → Z.lor k q = k + q.
Proof.
  intros Hk Hq. apply Z.eqb_eq.
  assert (forallb (λ q, (Z.lor 128 q =? 128 + q) && (Z.lor 192 q =? 192 + q))
            (seqZ 0 64) = true) as Hall by (vm_compute; done).
  apply (forallb_range _ _ Hall), andb_true_iff in Hq.
  destruct Hk as [-> | ->]; apply Hq.
Qed.

Lemma lor_lead3 q : 0 ≤ q < 16 → Z.lor 224 q = 224 + q.
Proof.
  intros Hq. apply Z.eqb_eq.
  assert (forallb (λ q, Z.lor 224 q =? 224 + q) (seqZ 0 16) = true) as Hall
    by (vm_compute; done).
  by apply (forallb_range _ _ Hall) in Hq.
Qed.

Lemma stores_encodeChar_char c : stores (encodeChar_char c) (utf_char c).
Proof.
  unfold encodeChar_char, utf_char.
  assert (0 ≤ u8 c < 256) as Ht by (apply (uwrap_range 8); lia).
  generalize dependent (u8 c). intros t Ht.
  set (bytes := λ t,
    if (t =? 0) || negb (Z.land t 128 =? 0)
    then [u8 (Z.lor 192 (Z.shiftr (Z.land t 192) 6));
          u8 (Z.lor 128 (Z.land t 63))] else [t]).
  replace (if _ : bool then _ else _) with (bytes t).
  - unfold bytes. case_match; eauto with geode.
  - assert (forallb (λ t, bool_decide (bytes t =
      if (t =? 0) || (128 <=? t) then [192 + t / 64; 128 + t mod 64] else [t]))
      (seqZ 0 256) = true) as Hall by (vm_compute; done).
    apply (forallb_range _ _ Hall) in Ht. by apply bool_decide_eq_true in Ht.
Qed.

Lemma stores_encodeChar_wchar c : stores (encodeChar_wchar c) (utf_wchar c).
Proof.
  unfold encodeChar_wchar, utf_wchar.
  assert (0 ≤ u16 c < 65536) as Ht by (apply (uwrap_range 16); lia).
  generalize dependent (u16 c). intros t Ht.
  rewrite ?Z.shiftr_div_pow2 by lia.
  change 63 with (2 ^ 6 - 1). rewrite ?land_ones' by lia.
  change (2 ^ 6) with 64. change (2 ^ 12) with 4096.
  destruct (Z.eqb_spec t 0); [eauto with geode|].
  destruct (Z.ltb_spec t 128).
  { unfold u8. rewrite uwrap_id by (split; lia). eauto with geode. }
  destruct (Z.ltb_spec t 2048).
  - rewrite !lor_lead
      by (lia || (Z.div_mod_to_equations; lia)).
    unfold u8. rewrite !uwrap_id
      by (split; [|change (2 ^ 8) with 256]; Z.div_mod_to_equations; lia).
    eauto with geode.
  - rewrite lor_lead3, !lor_lead
      by (lia || (Z.div_mod_to_equations; lia)).
    unfold u8. rewrite !uwrap_id
      by (split; [|change (2 ^ 8) with 256]; Z.div_mod_to_equations; lia).
    eauto with geode.
Qed.

(** The encoding loop writes the characters up to the computed end and stops
    there, whatever follows them in memory. *)
Lemma encodeLoop_spec (enc : Z → M DataOutput unit) (utf : Z → list Z) s rest end_ o :
  (∀ c, stores (enc c) (utf c)) → (∀ c, utf c ≠ []) →
  do_wf o → end_ = do_buf o + Z.of_nat (length (flat_map utf s)) → end_ ≤ do_size o →
  ∃ o', encodeLoop enc end_ (s ++ rest) o = (Ok tt, o') ∧ do_wf o' ∧
        written o' = written o ++ (flat_map utf s) ∧ do_size o' = do_size o.
Proof.
  intros Henc Hne. revert o. induction s as [|c s IH]; intros o Hw Hend Hroom.
  - exists o. simpl in Hend. rewrite app_nil_r.
    split_and!; try done. destruct rest; simpl; rewrite bind_get;
      by rewrite (proj2 (Z.ltb_ge _ _)) by lia.
  - simpl in *. rewrite length_app in Hend.
    assert (0 < Z.of_nat (length (utf c))).
    { specialize (Hne c). destruct (utf c); [done|simpl; lia]. }
    rewrite bind_get, (proj2 (Z.ltb_lt _ _)) by lia.
    destruct (Henc c o Hw) as (o1 & E1 & Hw1 & Hwr1 & Hs1); [lia|].
    pose proof (written_app_buf _ _ _ Hw Hw1 Hwr1).
    destruct (IH o1 Hw1) as (o2 & E2 & Hw2 & Hwr2 & Hs2); [lia|lia|].
    exists o2. rewrite (bind_Ok _ _ _ _ _ E1), Hwr2, Hwr1, app_assoc.
    split_and!; try done; lia.
Qed.

Lemma encodedLength_char_spec c acc :
  0 ≤ c < 256 →
  encodedLength_char c acc = acc + Z.of_nat (length (utf_char c)).
Proof.
  intros Hc. unfold encodedLength_char, utf_char, u8.
  rewrite uwrap_id by done.
  assert (forallb (λ t, eqb (negb (Z.land t 128 =? 0)) (128 <=? t))
    (seqZ 0 256) = true) as Hall by (vm_compute; done).
  apply (forallb_range _ _ Hall), eqb_prop in Hc. rewrite Hc.
  by case_match.
Qed.

Lemma encodedLength_wchar_spec c acc :
  0 ≤ c < 65536 →
  encodedLength_wchar c acc = acc + Z.of_nat (length (utf_wchar c)).
Proof.
  intros Hc. unfold encodedLength_wchar, utf_wchar, u16.
  rewrite uwrap_id by done. by repeat case_match.
Qed.

Lemma getEncodedLength_spec step (utf : Z → list Z) (ok : Z → Prop) mem len s :
  (∀ c acc, ok c → step c acc = acc + Z.of_nat (length (utf c))) →
  denotes mem len s → Forall ok s →
  (if len =? 0 then encodedLength_nul step mem 0
   else encodedLength_upto step (Z.to_nat len) mem 0) =
  Some (Z.of_nat (length (flat_map utf s))).
Proof.
  intros Hstep (rest & Hd) Hok.
  enough (∀ acc, (if len =? 0 then encodedLength_nul step mem acc
     else encodedLength_upto step (Z.to_nat len) mem acc) =
     Some (acc + Z.of_nat (length (flat_map utf s)))) as -> by done.
  destruct Hd as [(-> & -> & Hs)|(-> & Hp & ->)]; simpl.
  - induction Hok as [|c s Hc Hok IH]; intros acc; simpl;
      [f_equal; lia|].
    inversion_clear Hs. rewrite (proj2 (Z.eqb_neq _ _)) by done.
    rewrite IH, Hstep, length_app by done. f_equal. lia.
  - rewrite (proj2 (Z.eqb_neq _ _)), Nat2Z.id by lia. clear Hp.
    induction Hok as [|c s Hc Hok IH]; intros acc; simpl; [f_equal; lia|].
    rewrite IH, Hstep, length_app by done. f_equal. lia.
Qed.

(** [writeUTF] of a string whose encoding fits 65535 bytes. *)
Lemma appends_writeUTF_with gel enc (utf : Z → list Z) mem len s :
  (∀ c, stores (enc c) (utf c)) → (∀ c, utf c ≠ []) →
  denotes mem len s → in_s 32 len →
  gel mem len = Some (Z.of_nat (length (flat_map utf s))) →
  Z.of_nat (length (flat_map utf s)) ≤ 65535 →
  appends (writeUTF_with gel enc (Some mem) len)
    (be 2 (Z.of_nat (length (flat_map utf s))) ++ flat_map utf s).
Proof.
  intros Henc Hne Hd Hlen Hgel Hfit. unfold writeUTF_with.
  set (n := Z.of_nat (length (flat_map utf s))) in *.
  assert (i32 len = len) as -> by (by apply swrap_id).
  rewrite Hgel. apply (appends_pure _ n); [done|]. cbv zeta.
  rewrite (proj2 (Z.ltb_ge _ _)) by done.
  replace (u16 n) with n by (symmetry; apply uwrap_id; split; lia).
  apply appends_bind; [apply appends_writeInt_u16|].
  apply ensure_stores_slack; [|lia]. intros o Hw Hr. rewrite bind_get.
  destruct (denotes_prefix _ _ _ Hd) as [rest ->].
  destruct (encodeLoop_spec enc utf s rest (do_buf o + n) o)
    as (o1 & E1 & Hw1 & Hwr1 & Hs1); [done..|].
  exists o1. rewrite (bind_Ok _ _ _ _ _ E1).
  pose proof (written_app_buf _ _ _ Hw Hw1 Hwr1).
  unfold clampCursor, modify.
  by rewrite (proj2 (Z.ltb_ge _ _)) by lia.
Qed.

Lemma appends_writeUTF_char mem len s :
  denotes mem len s → in_s 32 len → Forall (λ c, 0 ≤ c < 256) s →
  Z.of_nat (length (flat_map utf_char s)) ≤ 65535 →
  appends (writeUTF_char (Some mem) len)
    (be 2 (Z.of_nat (length (flat_map utf_char s))) ++ flat_map utf_char s).
Proof.
  intros Hd Hl Hs Hfit. apply appends_writeUTF_with; try done.
  - apply stores_encodeChar_char.
  - intros c. unfold utf_char. by case_match.
  - eapply getEncodedLength_spec; [|done..]. apply encodedLength_char_spec.
Qed.

Lemma appends_writeUTF_wchar mem len s :
  denotes mem len s → in_s 32 len → Forall (λ c, 0 ≤ c < 65536) s →
  Z.of_nat (length (flat_map utf_wchar s)) ≤ 65535 →
  appends (writeUTF_wchar (Some mem) len)
    (be 2 (Z.of_nat (length (flat_map utf_wchar s))) ++ flat_map utf_wchar s).
Proof.
  intros Hd Hl Hs Hfit. apply appends_writeUTF_with; try done.
  - apply stores_encodeChar_wchar.
  - intros c. unfold utf_wchar. by repeat case_match.
  - eapply getEncodedLength_spec; [|done..]. apply encodedLength_wchar_spec.
Qed.

Lemma stores_writeCharPairs (pair : Z → list Z) s rest :
  stores (writeCharPairs pair (length s) (s ++ rest)) (flat_map pair s).
Proof.
  induction s as [|c s IH]; [apply stores_ret|].
  cbn [writeCharPairs length app flat_map].
  replace (pair c ++ flat_map pair s)
    with (take 1 (pair c) ++ drop 1 (pair c) ++ flat_map pair s)
    by (by rewrite app_assoc, take_drop).
  repeat (apply stores_bind; [apply store_stores|]). done.
Qed.

Lemma wcharPair_be c : wcharPair c = be 2 (u16 c).
Proof.
  unfold wcharPair. simpl be. simpl app.
  assert (0 ≤ u16 c < 65536) as Ht by (apply (uwrap_range 16); lia).
  generalize dependent (u16 c). intros t Ht.
  change 255 with (2 ^ 8 - 1). rewrite land_ones' by lia.
  assert (Z.land t 65280 = t / 256 * 256) as ->.
  { change 65280 with (Z.shiftl (2 ^ 8 - 1) 8).
    apply Z.bits_inj'. intros i Hi.
    rewrite Z.land_spec, <- (Z.shiftl_mul_pow2 _ 8), <- (Z.shiftr_div_pow2 _ 8) by lia.
    rewrite !Z.shiftl_spec by done.
    destruct (Z.lt_ge_cases i 8).
    { rewrite !(Z.testbit_neg_r _ (i - 8)) by lia. by rewrite andb_false_r. }
    rewrite Z.shiftr_spec by lia. replace (i - 8 + 8) with i by lia.
    change (2 ^ 8 - 1) with (Z.ones 8).
    destruct (Z.lt_ge_cases (i - 8) 8).
    - by rewrite Z.ones_spec_low, andb_true_r by lia.
    - rewrite Z.ones_spec_high, andb_false_r by lia. symmetry.
      rewrite <- (Z.mod_small t (2 ^ 16)) by lia.
      by apply Z.mod_pow2_bits_high; lia. }
  rewrite Z.shiftr_div_pow2, Z.div_mul by lia.
  unfold u8, uwrap. by rewrite Z.mod_mod by lia.
Qed.

Lemma appends_writeUTFHuge_with (pair : Z → list Z) mem len s :
  denotes mem len s → (∀ c, length (pair c) = 2%nat) →
  Z.of_nat (length s) < 2 ^ 31 →
  appends (writeUTFHuge_with pair (Some mem) len)
    (be 4 (Z.of_nat (length s)) ++ flat_map pair s).
Proof.
  intros Hd Hp Hl. unfold writeUTFHuge_with.
  eapply appends_pure; [intros; apply stringLength_denotes; [done|lia]|].
  destruct (denotes_prefix _ _ _ Hd) as [rest ->]. cbv beta.
  apply appends_bind; [apply appends_writeInt_u32|].
  rewrite Nat2Z.id. apply ensure_stores_slack.
  - apply stores_writeCharPairs.
  - assert (length (flat_map pair s) = (2 * length s)%nat) as ->.
    { clear -Hp. induction s; [done|]. simpl.
      rewrite length_app, Hp, IHs. lia. }
    unfold u32. rewrite uwrap_id by (split; lia). lia.
Qed.

(** ** Life cycle *)

Definition desc_wf (d : BufferDesc) : Prop :=
  Z.of_nat (length (bd_buf d)) = bd_size d ∧ 8192 ≤ bd_size d < 2 ^ 32.

Lemma do_reset_spec o :
  do_wf o → ∃ o', do_reset o = (Ok tt, o') ∧ do_wf o' ∧ written o' = [] ∧
    do_bigBufferLock o' = 0.
Proof.
  intros [Ha Hmin Hlt Hc Hl]. unfold do_reset. eexists. split; [done|].
  destruct (do_haveBigBuffer o) eqn:Hh; simpl; split_and!; simpl; try done.
  - split; simpl; try lia; done.
  - lia.
  - split; simpl; rewrite ?Hh; lia.
Qed.
End Writers2.
