(* ===== verification/DataInput.v ===== *)
(** * The deserialization cursor [DataInput]

    Models src/src/cppcache/include/geode/DataInput.hpp: a cursor over a
    received byte array, its bounds check, and the readers for integers, array
    lengths, variable-length integers, byte arrays and strings.

    [di_head] is the memory the buffer pointer gives access to, [di_buf] the
    cursor as an offset into it and [di_length] the field [m_bufLength] the
    bounds check uses.  A load outside [di_head] is [UB]. *)

From S2P Require Import Prelude.

Record DataInput := mkDataInput {
  di_head : list Z;
  di_buf : Z;
  di_length : Z
}.

(** The constructor [DataInput(buffer, len)]. *)
Definition newDataInput (buffer : list Z) (len : Z) : DataInput :=
  mkDataInput buffer 0 len.

Definition seek (p : Z) (i : DataInput) : DataInput :=
  mkDataInput (di_head i) p (di_length i).

(** [*(m_buf++)] *)
Definition fetch : M DataInput Z := λ i,
  match (if 0 <=? di_buf i then di_head i !! Z.to_nat (di_buf i) else None) with
  | Some b => (Ok b, seek (di_buf i + 1) i)
  | None => (UB, i)
  end.

(** [memcpy(dst, m_buf, n); m_buf += n] *)
Definition fetchN (n : Z) : M DataInput (list Z) := λ i,
  if (0 <=? di_buf i) && (di_buf i + n <=? Z.of_nat (length (di_head i)))
  then (Ok (take (Z.to_nat n) (drop (Z.to_nat (di_buf i)) (di_head i))),
        seek (di_buf i + n) i)
  else (UB, i).

(** The argument is an [int32_t]: callers that hold a [uint32_t] convert. *)
Definition checkBufferSize (size : Z) : M DataInput unit := λ i,
  if di_length i - di_buf i <? i32 size then (Throw OutOfRangeException, i)
  else (Ok tt, i).

(** ** Cursor *)

Definition getBytesRead (i : DataInput) : Z := i32 (di_buf i).
Definition getBytesRemaining (i : DataInput) : Z :=
  i32 (di_length i - getBytesRead i).
Definition di_advanceCursor (offset : Z) : M DataInput unit :=
  modify (λ i, seek (di_buf i + offset) i).
Definition di_rewindCursor (offset : Z) : M DataInput unit :=
  modify (λ i, seek (di_buf i - offset) i).
Definition di_reset (offset : Z) : M DataInput unit := modify (seek offset).

(** ** Bytes and integers *)

Definition read_u8 : M DataInput Z :=
  checkBufferSize 1 ;! fetch.

Definition read_i8 : M DataInput Z :=
  checkBufferSize 1 ;! let! b := fetch in ret (i8 b).

Definition readBoolean : M DataInput bool :=
  checkBufferSize 1 ;! let! b := fetch in ret (b =? 1).

Definition readInt_u16 : M DataInput Z :=
  checkBufferSize 2 ;!
  let! tmp := fetch in
  let! b := fetch in
  ret (u16 (Z.lor (Z.shiftl tmp 8) b)).

Definition shift_in (tmp : Z) (wrap : Z → Z) : M DataInput Z :=
  let! b := fetch in ret (Z.lor (wrap (Z.shiftl tmp 8)) b).

Definition readInt_u32 : M DataInput Z :=
  checkBufferSize 4 ;!
  let! tmp := fetch in
  let! tmp := shift_in tmp u32 in
  let! tmp := shift_in tmp u32 in
  shift_in tmp u32.

Definition readInt_u64 (long_is_8 : bool) : M DataInput Z :=
  checkBufferSize 8 ;!
  if long_is_8 then
    let! tmp := fetch in
    let! tmp := shift_in tmp u64 in
    let! tmp := shift_in tmp u64 in
    let! tmp := shift_in tmp u64 in
    let! tmp := shift_in tmp u64 in
    let! tmp := shift_in tmp u64 in
    let! tmp := shift_in tmp u64 in
    shift_in tmp u64
  else
    let! hword := fetch in
    let! hword := shift_in hword u32 in
    let! hword := shift_in hword u32 in
    let! tmp := shift_in hword u32 in
    let! hword := fetch in
    let! hword := shift_in hword u32 in
    let! hword := shift_in hword u32 in
    let! hword := shift_in hword u32 in
    ret (Z.lor (u64 (Z.shiftl tmp 32)) hword).

Definition readInt_i16 : M DataInput Z :=
  checkBufferSize 2 ;! let! v := readInt_u16 in ret (i16 v).
Definition readInt_i32 : M DataInput Z :=
  checkBufferSize 4 ;! let! v := readInt_u32 in ret (i32 v).
Definition readInt_i64 : M DataInput Z :=
  checkBufferSize 8 ;! let! v := readInt_u64 true in ret (i64 v).

Definition readFloat : M DataInput Z := checkBufferSize 4 ;! readInt_u32.
Definition readDouble : M DataInput Z := checkBufferSize 8 ;! readInt_u64 true.

Definition readArrayLen : M DataInput Z :=
  let! code := read_u8 in
  if code =? 255 then ret (-1)
  else if 252 <? code then
    if code =? 254 then readInt_u16
    else if code =? 253 then let! val := readInt_u32 in ret (i32 val)
    else throw IllegalStateException
  else ret code.

(** [while (shift < 64) { ...; shift += 7; }]: ten iterations at most, which is
    the fuel given by [readUnsignedVL]. *)
Fixpoint readUnsignedVL_loop (fuel : nat) (shift result : Z) : M DataInput Z :=
  match fuel with
  | O => throw IllegalStateException
  | S fuel =>
      if shift <? 64 then
        let! b := read_i8 in
        let result :=
          Z.lor result (i64 (Z.shiftl (Z.land b 127) shift)) in
        if Z.land b 128 =? 0 then ret result
        else readUnsignedVL_loop fuel (shift + 7) result
      else throw IllegalStateException
  end.

Definition readUnsignedVL : M DataInput Z := readUnsignedVL_loop 11 0 0.

(** ** Byte arrays *)

(** [len] is a [uint32_t]. *)
Definition readBytesOnly (len : Z) : M DataInput (list Z) :=
  if 0 <? len then checkBufferSize len ;! fetchN len else ret [].

(** The array and the length the source returns by reference; [None] is the
    null pointer it returns for an empty or null array. *)
Definition readBytes : M DataInput (option (list Z) * Z) :=
  let! length := readArrayLen in
  if 0 <? length then
    checkBufferSize length ;!
    let! bs := fetchN length in ret (Some bs, length)
  else ret (None, length).

(** ** Strings *)

Definition readASCII : M DataInput (list Z) :=
  let! length := readInt_u16 in
  checkBufferSize length ;!
  readBytesOnly length.

(** [new char[length + 1]] with [length + 1] in [uint32_t], then
    [str[length] = 0]: out of bounds when the sum wraps to 0. *)
Definition readASCIIHuge : M DataInput (list Z) :=
  let! length := readInt_u32 in
  let! bs := readBytesOnly length in
  if length <? u32 (length + 1) then ret bs else undefined.

(** [getDecodedLength]: the characters of [length] bytes by their lead bytes;
    a character cut off by the end is not counted. *)
Fixpoint getDecodedLength (fuel : nat) (value : list Z) (length decodedLen : Z)
    : option Z :=
  if 0 <? length then
    match fuel, value with
    | S fuel, b :: value' =>
        let k := Z.shiftr (Z.land b 255) 5 in
        let step := if k =? 6 then 1 else if k =? 7 then 2 else 0 in
        getDecodedLength fuel (drop (Z.to_nat step) value')
          (length - 1 - step) (decodedLen + 1)
    | _, _ => None
    end
  else Some (if length <? 0 then decodedLen - 1 else decodedLen).

(** [decodeChar(char* str)]: no bounds check. *)
Definition decodeChar_char : M DataInput Z :=
  let! bt := fetch in
  if negb (Z.land bt 128 =? 0) then
    if negb (Z.land bt 32 =? 0) then
      let! b2 := fetch in
      let! b3 := fetch in
      ret (u8 (Z.lor
        (u8 (Z.lor (Z.shiftl (Z.land bt 15) 12) (Z.shiftl (Z.land b2 63) 6)))
        (Z.land b3 63)))
    else
      let! b2 := fetch in
      ret (u8 (Z.lor (Z.shiftl (Z.land bt 31) 6) (Z.land b2 63)))
  else ret bt.

(** [decodeChar(wchar_t* str)] *)
Definition decodeChar_wchar : M DataInput Z :=
  let! b := fetch in
  let b := Z.land b 255 in
  let k := Z.shiftr b 5 in
  if k =? 6 then
    let y := Z.land b 31 in
    let! x := fetch in
    ret (Z.lor (Z.shiftl y 6) (Z.land x 63))
  else if k =? 7 then
    let z := Z.land b 15 in
    let! y := fetch in
    let! x := fetch in
    ret (Z.lor (Z.lor (Z.shiftl z 12) (Z.shiftl (Z.land y 63) 6)) (Z.land x 63))
  else ret (Z.land b 127).

(** [for (i = 0; i < n; i++) body]: the values read, in order. *)
Fixpoint repeatRead {A} (n : nat) (body : M DataInput A) : M DataInput (list A) :=
  match n with
  | O => ret []
  | S n' =>
      let! a := body in
      let! l := repeatRead n' body in
      ret (a :: l)
  end.

Definition readUTF_with (decodeChar : M DataInput Z) : M DataInput (list Z) :=
  let! length := readInt_u16 in
  checkBufferSize length ;!
  let! i := get in
  match getDecodedLength (Z.to_nat length)
          (drop (Z.to_nat (di_buf i)) (di_head i)) length 0 with
  | Some n => repeatRead (Z.to_nat (u16 n)) decodeChar
  | None => undefined
  end.

Definition readUTF_char : M DataInput (list Z) := readUTF_with decodeChar_char.
Definition readUTF_wchar : M DataInput (list Z) := readUTF_with decodeChar_wchar.

Definition readUTFNoLen (decodedLen : Z) : M DataInput (list Z) :=
  repeatRead (Z.to_nat decodedLen) decodeChar_wchar.

(** [new T[length + 1]] with [length + 1] computed in [uint32_t]: the stores of
    the loop are in bounds unless the sum wraps to 0. *)
Definition allocated (length : Z) : bool := length <? u32 (length + 1).

Definition storeChar (length c : Z) : M DataInput Z :=
  if allocated length then ret c else undefined.

Definition readUTFHuge_char : M DataInput (list Z) :=
  let! length := readInt_u32 in
  repeatRead (Z.to_nat length)
    (read_i8 ;! let! item := read_i8 in storeChar length (u8 item)).

Definition readUTFHuge_wchar : M DataInput (list Z) :=
  let! length := readInt_u32 in
  repeatRead (Z.to_nat length)
    (let! hibyte := read_u8 in
     let! lobyte := read_u8 in
     storeChar length (Z.lor (Z.shiftl hibyte 8) lobyte)).

(** ** Arrays and type-tagged strings *)

(** The template [readObject(mType** value, int32_t& length)], instantiated for
    the element types by the [read...Array] functions; [None] when the source
    leaves the caller's pointer alone. *)
Definition readObjectArray {A} (readElement : M DataInput A)
    : M DataInput (option (list A) * Z) :=
  let! arrayLen := readArrayLen in
  if 0 <? arrayLen then
    let! l := repeatRead (Z.to_nat arrayLen) readElement in
    ret (Some l, arrayLen)
  else ret (None, arrayLen).

Definition readPdxChar : M DataInput Z :=
  let! val := readInt_i16 in ret (i8 val).

Definition readCharArray := readObjectArray readPdxChar.
Definition readWideCharArray := readObjectArray readInt_u16.
Definition readBooleanArray := readObjectArray readBoolean.
Definition readByteArray := readObjectArray read_i8.
Definition readShortArray := readObjectArray readInt_i16.
Definition readIntArray := readObjectArray readInt_i32.
Definition readLongArray := readObjectArray readInt_i64.
Definition readFloatArray := readObjectArray readFloat.
Definition readDoubleArray := readObjectArray readDouble.

(** [GeodeTypeIds::IdValues], the values the string readers dispatch on. *)
Definition id_NullObj : Z := 41.
Definition id_CacheableString : Z := 42.
Definition id_CacheableNullString : Z := 69.
Definition id_CacheableASCIIString : Z := 87.
Definition id_CacheableASCIIStringHuge : Z := 88.
Definition id_CacheableStringHuge : Z := 89.

Definition readString : M DataInput (option (list Z)) :=
  let! typeId := read_i8 in
  if typeId =? id_CacheableNullString then ret None
  else if (typeId =? id_CacheableASCIIString) || (typeId =? id_CacheableString)
  then let! s := readASCII in ret (Some s)
  else if (typeId =? id_CacheableASCIIStringHuge) ||
          (typeId =? id_CacheableStringHuge)
  then let! s := readASCIIHuge in ret (Some s)
  else throw IllegalArgumentException.

Definition readWideString : M DataInput (option (list Z)) :=
  let! typeId := read_i8 in
  if typeId =? id_CacheableNullString then ret None
  else if (typeId =? id_CacheableASCIIString) || (typeId =? id_CacheableString)
  then let! s := readUTF_wchar in ret (Some s)
  else if (typeId =? id_CacheableASCIIStringHuge) ||
          (typeId =? id_CacheableStringHuge)
  then let! s := readUTFHuge_wchar in ret (Some s)
  else throw IllegalArgumentException.

(** [new T[arrLen]] with a negative [arrLen] throws. *)
Definition readNewArray {A} (readElement : M DataInput A)
    : M DataInput (option (list A) * Z) :=
  let! arrLen := readArrayLen in
  if arrLen =? -1 then ret (None, arrLen)
  else if arrLen <? 0 then throw BadArrayNewLength
  else
    let! l := repeatRead (Z.to_nat arrLen) readElement in
    ret (Some l, arrLen).

Definition readStringArray := readNewArray readString.
Definition readWideStringArray := readNewArray readWideString.
Definition readArrayOfByteArrays := readNewArray readBytes.

Definition readNativeBool : M DataInput bool := read_i8 ;! readBoolean.
Definition readNativeInt32 : M DataInput Z := read_i8 ;! readInt_i32.

(** ** The abstract view: a stream of unread bytes *)

(** The buffer length is the length of the memory, fits [int32_t], and the
    cursor is inside. *)
Record di_wf (i : DataInput) : Prop := {
  di_wf_length : di_length i = Z.of_nat (length (di_head i));
  di_wf_cursor : 0 ≤ di_buf i ≤ di_length i;
  di_wf_max : di_length i < 2 ^ 31
}.

Definition unread (i : DataInput) : list Z :=
  drop (Z.to_nat (di_buf i)) (di_head i).

(** [r] consumes exactly the bytes [bs] and returns [v]. *)
Definition reads {A} (r : M DataInput A) (bs : list Z) (v : A) : Prop :=
  ∀ i rest, di_wf i → unread i = bs ++ rest →
  r i = (Ok v, seek (di_buf i + Z.of_nat (length bs)) i).

Lemma unread_length i :
  di_wf i → Z.of_nat (length (unread i)) = di_length i - di_buf i.
Proof.
  intros [Hl Hc Hm]. unfold unread. rewrite length_drop. lia.
Qed.

Lemma unread_seek i bs rest :
  di_wf i → unread i = bs ++ rest →
  di_wf (seek (di_buf i + Z.of_nat (length bs)) i) ∧
  unread (seek (di_buf i + Z.of_nat (length bs)) i) = rest.
Proof.
  intros Hw E. pose proof (unread_length i Hw) as Hlen.
  rewrite E, length_app in Hlen. destruct Hw as [Hl Hc Hm].
  split; [split; simpl; lia|]. unfold unread in *. simpl.
  rewrite Z2Nat.inj_add, Nat2Z.id by lia.
  rewrite <- drop_drop, E. apply drop_app_length.
Qed.

Lemma seek_seek p q i : seek p (seek q i) = seek p i.
Proof. done. Qed.

Lemma reads_ret {A} (a : A) : reads (ret a) [] a.
Proof.
  intros [h b l] rest Hw E. unfold ret, seek; simpl.
  by rewrite Z.add_0_r.
Qed.

Lemma reads_bind {A B} (m : M DataInput A) (k : A → M DataInput B) bs1 bs2 a b :
  reads m bs1 a → reads (k a) bs2 b → reads (bind m k) (bs1 ++ bs2) b.
Proof.
  intros Hm Hk i rest Hw E. rewrite <- app_assoc in E.
  rewrite (bind_Ok _ _ _ _ _ (Hm i _ Hw E)).
  destruct (unread_seek i bs1 _ Hw E) as [Hw1 E1].
  rewrite (Hk _ _ Hw1 E1), seek_seek, length_app. simpl. do 2 f_equal. lia.
Qed.

Lemma reads_fetch b : reads fetch [b] b.
Proof.
  intros i rest Hw E. unfold fetch. rewrite (proj2 (Z.leb_le _ _))
    by (destruct Hw; lia).
  unfold unread in E. rewrite <- (Nat.add_0_r (Z.to_nat _)), <- lookup_drop, E.
  done.
Qed.

Lemma reads_fetchN bs n : n = Z.of_nat (length bs) → reads (fetchN n) bs bs.
Proof.
  intros -> i rest Hw E. pose proof (unread_length i Hw) as Hlen.
  rewrite E, length_app in Hlen. unfold fetchN.
  destruct Hw as [Hl Hc Hm]. rewrite !(proj2 (Z.leb_le _ _)) by lia. simpl.
  unfold unread in E. by rewrite E, Nat2Z.id, take_app_length.
Qed.

(** The bounds check passes when the bytes are there. *)
Lemma reads_check {A} n (m : M DataInput A) bs v :
  n ≤ Z.of_nat (length bs) → - 2 ^ 31 ≤ n →
  reads m bs v → reads (checkBufferSize n ;! m) bs v.
Proof.
  intros Hn Hn0 Hm i rest Hw E. pose proof (unread_length i Hw) as Hlen.
  rewrite E, length_app in Hlen. pose proof Hw as [Hl Hc Hmax].
  rewrite (bind_Ok _ _ i tt i); [by eapply Hm|].
  unfold checkBufferSize, i32. rewrite swrap_id by (unfold in_s; simpl; lia).
  by rewrite (proj2 (Z.ltb_ge _ _)) by lia.
Qed.

Lemma reads_cons {A} b (k : Z → M DataInput A) bs v :
  reads (k b) bs v → reads (bind fetch k) (b :: bs) v.
Proof. apply (reads_bind fetch k [b]), reads_fetch. Qed.

Lemma reads_pure {A B} (m : M DataInput A) (f : A → B) bs v :
  reads m bs v → reads (let! x := m in ret (f x)) bs (f v).
Proof.
  intros Hm. rewrite <- (app_nil_r bs). eapply reads_bind; [done|apply reads_ret].
Qed.

Lemma reads_map {A B} (m : M DataInput A) (f : A → B) bs v w :
  reads m bs v → f v = w → reads (let! x := m in ret (f x)) bs w.
Proof. intros Hm <-. by apply reads_pure. Qed.

Lemma shift_in_val w tmp b :
  8 ≤ w → in_u (w - 8) tmp → in_u 8 b →
  Z.lor (uwrap w (Z.shiftl tmp 8)) b = tmp * 256 + b.
Proof.
  intros Hw Ht Hb. unfold in_u in *.
  assert (2 ^ w = 2 ^ (w - 8) * 2 ^ 8) as Hp.
  { rewrite <- Z.pow_add_r by lia. f_equal. lia. }
  rewrite uwrap_id; [by apply (lor_shiftl_low tmp b 8)|].
  unfold in_u. rewrite Z.shiftl_mul_pow2, Hp by lia.
  split; [lia|]. apply Z.mul_lt_mono_pos_r; lia.
Qed.

Lemma reads_shift_in w tmp b :
  8 ≤ w → in_u (w - 8) tmp → in_u 8 b →
  reads (shift_in tmp (uwrap w)) [b] (tmp * 256 + b).
Proof.
  intros. unfold shift_in. rewrite <- (shift_in_val w) by done.
  apply reads_cons, reads_ret.
Qed.
