(* ===== verification/Codec.v ===== *)
(** * What [DataOutput] writes, [DataInput] reads back

    The interface between the two halves of serialization: a [WireCodec] is a
    writer and a reader that agree on an encoding.  The primitive types of
    DataOutput.hpp and DataInput.hpp are its instances; composite codecs are
    built with [codec_pair] and [codec_map]; [codec_roundtrip] turns any
    instance into a statement about the two buffers. *)

From S2P Require Import Prelude DataOutput DataInput.

Class WireCodec `{Allocator} {A} (w : A → M DataOutput unit) (r : M DataInput A)
    (enc : A → list Z) (dom : A → Prop) : Prop := {
  codec_writes a : dom a → appends (w a) (enc a);
  codec_reads a : dom a → reads r (enc a) a
}.

(** ** Reading the primitive encodings *)

Lemma be_Horner v : v = v / 256 * 256 + v mod 256.
Proof. rewrite Z.mul_comm. apply Z.div_mod. lia. Qed.

Lemma in_u8_mod v : in_u 8 (v mod 256).
Proof. apply Z.mod_pos_bound. lia. Qed.

#[export] Hint Resolve in_u8_mod : geode.

Lemma in_u_div w v : 8 ≤ w → in_u w v → in_u (w - 8) (v / 256).
Proof.
  unfold in_u. intros Hw Hv.
  assert (2 ^ w = 256 * 2 ^ (w - 8)) as Hp.
  { change 256 with (2 ^ 8). rewrite <- Z.pow_add_r by lia. f_equal. lia. }
  split; [apply Z.div_pos; lia|]. apply Z.div_lt_upper_bound; lia.
Qed.

Lemma reads_byte b : reads read_u8 [b] b.
Proof. apply reads_check; [simpl; lia..|]. apply reads_fetch. Qed.

Lemma reads_u8 v : in_u 8 v → reads read_u8 [v mod 256] v.
Proof. intros Hv. rewrite Z.mod_small by done. apply reads_byte. Qed.

Lemma reads_i8 v : in_s 8 v → reads read_i8 [v mod 256] v.
Proof.
  intros Hv. unfold read_i8. apply reads_check; [simpl; lia..|].
  rewrite <- (swrap_uwrap_id 8 v) at 2 by done. apply reads_pure, reads_fetch.
Qed.

Lemma reads_boolean (b : bool) : reads readBoolean [if b then 1 else 0] b.
Proof.
  unfold readBoolean. destruct b; (apply reads_check; [simpl; lia..|]).
  - apply (reads_pure fetch (λ x : Z, (x =? 1)%Z) [1] 1), reads_fetch.
  - apply (reads_pure fetch (λ x : Z, (x =? 1)%Z) [0] 0), reads_fetch.
Qed.

Lemma reads_u16 v : in_u 16 v → reads readInt_u16 (be 2 v) v.
Proof.
  intros Hv. unfold readInt_u16. apply reads_check; [simpl; lia..|].
  simpl be. simpl app. do 2 apply reads_cons.
  replace v with (u16 (Z.lor (Z.shiftl ((v / 256) mod 256) 8) (v mod 256)))
    at 3; [apply reads_ret|].
  rewrite (lor_shiftl_low _ _ 8) by (try apply in_u8_mod; lia).
  unfold u16. rewrite uwrap_id; width_lia.
Qed.

(** The Horner steps of the unrolled readers. *)
Lemma reads_be_step w tmp v bs {A} (k : Z → M DataInput A) x :
  8 ≤ w → in_u w v → tmp = v / 256 →
  reads (k v) bs x →
  reads (bind (shift_in tmp (uwrap w)) k) (v mod 256 :: bs) x.
Proof.
  intros Hw Hv -> Hk. apply (reads_bind _ _ [_] _ v); [|done].
  rewrite (be_Horner v) at 3. apply reads_shift_in; [done| |apply in_u8_mod].
  by apply in_u_div.
Qed.

Lemma in_u_weaken v w z : 0 ≤ v ≤ w → in_u v z → in_u w z.
Proof.
  unfold in_u. intros. assert (2 ^ v ≤ 2 ^ w) by (apply Z.pow_le_mono_r; lia).
  lia.
Qed.

Lemma reads_be_last w tmp v :
  8 ≤ w → in_u w v → tmp = v / 256 →
  reads (shift_in tmp (uwrap w)) [v mod 256] v.
Proof.
  intros Hw Hv ->. rewrite (be_Horner v) at 3.
  apply reads_shift_in; [done| |apply in_u8_mod]. by apply in_u_div.
Qed.

(** Four bytes read by the unrolled 32-bit sequence. *)
Lemma reads_word v :
  in_u 32 v →
  reads (let! tmp := fetch in
         let! tmp := shift_in tmp u32 in
         let! tmp := shift_in tmp u32 in
         shift_in tmp u32) (be 4 v) v.
Proof.
  intros Hv. simpl be. apply reads_cons.
  pose proof (in_u_div 32 v ltac:(lia) Hv) as H1.
  pose proof (in_u_div 24 _ ltac:(lia) H1) as H2.
  pose proof (in_u_div 16 _ ltac:(lia) H2) as H3.
  rewrite (Z.mod_small (v / 256 / 256 / 256)) by done.
  apply reads_be_step; [lia|by eapply in_u_weaken, H2|done|].
  apply reads_be_step; [lia|by eapply in_u_weaken, H1|done|].
  by apply reads_be_last.
Qed.

Lemma reads_u32 v : in_u 32 v → reads readInt_u32 (be 4 v) v.
Proof.
  intros Hv. unfold readInt_u32.
  apply reads_check; [rewrite length_be; lia|lia|]. by apply reads_word.
Qed.

Lemma reads_u64 v : in_u 64 v → reads (readInt_u64 true) (be 8 v) v.
Proof.
  intros Hv. unfold readInt_u64. apply reads_check; [rewrite length_be; lia|lia|].
  simpl be. apply reads_cons.
  pose proof (in_u_div 64 v ltac:(lia) Hv) as H1.
  pose proof (in_u_div 56 _ ltac:(lia) H1) as H2.
  pose proof (in_u_div 48 _ ltac:(lia) H2) as H3.
  pose proof (in_u_div 40 _ ltac:(lia) H3) as H4.
  pose proof (in_u_div 32 _ ltac:(lia) H4) as H5.
  pose proof (in_u_div 24 _ ltac:(lia) H5) as H6.
  pose proof (in_u_div 16 _ ltac:(lia) H6) as H7.
  rewrite (Z.mod_small (v / 256 / 256 / 256 / 256 / 256 / 256 / 256)) by done.
  apply reads_be_step; [lia|by eapply in_u_weaken, H6|done|].
  apply reads_be_step; [lia|by eapply in_u_weaken, H5|done|].
  apply reads_be_step; [lia|by eapply in_u_weaken, H4|done|].
  apply reads_be_step; [lia|by eapply in_u_weaken, H3|done|].
  apply reads_be_step; [lia|by eapply in_u_weaken, H2|done|].
  apply reads_be_step; [lia|by eapply in_u_weaken, H1|done|].
  by apply reads_be_last.
Qed.

Lemma reads_u64_32bit v : in_u 64 v → reads (readInt_u64 false) (be 8 v) v.
Proof.
  intros Hv. unfold readInt_u64. apply reads_check; [rewrite length_be; lia|lia|].
  set (h := v / 256 / 256 / 256 / 256).
  set (l := v mod 2 ^ 32).
  assert (in_u 32 h) as Hh by
    (unfold h; rewrite !Z.div_div by lia; width_lia).
  assert (in_u 32 l) as Hl by (apply Z.mod_pos_bound; lia).
  assert (be 8 v = be 4 h ++ be 4 l) as ->.
  { unfold l. fold (uwrap 32 v). by rewrite be_uwrap by done. }
  pose proof (in_u_div 32 h ltac:(lia) Hh) as H1.
  pose proof (in_u_div 24 _ ltac:(lia) H1) as H2.
  pose proof (in_u_div 16 _ ltac:(lia) H2) as H3.
  pose proof (in_u_div 32 l ltac:(lia) Hl) as L1.
  pose proof (in_u_div 24 _ ltac:(lia) L1) as L2.
  pose proof (in_u_div 16 _ ltac:(lia) L2) as L3.
  simpl be. simpl app. apply reads_cons.
  rewrite (Z.mod_small (h / 256 / 256 / 256)) by done.
  apply reads_be_step; [lia|by eapply in_u_weaken, H2|done|].
  apply reads_be_step; [lia|by eapply in_u_weaken, H1|done|].
  apply reads_be_step; [lia|done|done|]. apply reads_cons.
  rewrite (Z.mod_small (l / 256 / 256 / 256)) by done.
  apply reads_be_step; [lia|by eapply in_u_weaken, L2|done|].
  apply reads_be_step; [lia|by eapply in_u_weaken, L1|done|].
  apply reads_be_step; [lia|done|done|].
  enough (v = Z.lor (u64 (Z.shiftl h 32)) l) as Hval
    by (rewrite Hval at 1; apply reads_ret).
  unfold u64. rewrite uwrap_id
    by (rewrite Z.shiftl_mul_pow2 by lia; unfold in_u in *; lia).
  rewrite lor_shiftl_low by (done || lia). unfold h, l.
  rewrite !Z.div_div by lia. pose proof (Z.div_mod v (2 ^ 32)).
  change (256 * (256 * (256 * 256))) with (2 ^ 32).
  change (256 * 256 * 256 * 256) with (2 ^ 32). lia.
Qed.

Lemma reads_signed w n r v :
  0 < w → w = 8 * Z.of_nat n → w ≤ 64 →
  (∀ v, in_u w v → reads r (be n v) v) → in_s w v →
  reads (checkBufferSize (Z.of_nat n) ;! let! x := r in ret (swrap w x)) (be n v) v.
Proof.
  intros Hw Hn Hmax Hr Hv. apply reads_check; [rewrite length_be; lia|lia|].
  rewrite <- (be_uwrap n w) by done.
  rewrite <- (swrap_uwrap_id w v) at 2 by done.
  apply reads_pure, Hr. apply uwrap_range. lia.
Qed.

Lemma reads_i16 v : in_s 16 v → reads readInt_i16 (be 2 v) v.
Proof. apply (reads_signed 16 2); [done..|]. apply reads_u16. Qed.
Lemma reads_i32 v : in_s 32 v → reads readInt_i32 (be 4 v) v.
Proof. apply (reads_signed 32 4); [done..|]. apply reads_u32. Qed.
Lemma reads_i64 v : in_s 64 v → reads readInt_i64 (be 8 v) v.
Proof. apply (reads_signed 64 8); [done..|]. apply reads_u64. Qed.

Lemma reads_arrayLen len :
  -1 ≤ len < 2 ^ 31 → reads readArrayLen (arrayLenBytes len) len.
Proof.
  intros Hl. unfold readArrayLen, arrayLenBytes.
  destruct (Z.eqb_spec len (-1)) as [->|].
  { apply (reads_bind _ _ [255] [] 255); [apply (reads_u8 255); done|].
    apply reads_ret. }
  destruct (Z.leb_spec len 252).
  { apply (reads_bind _ _ [_] [] len); [apply reads_u8; split; lia|].
    rewrite (proj2 (Z.eqb_neq _ _)), (proj2 (Z.ltb_ge _ _)) by lia.
    apply reads_ret. }
  destruct (Z.leb_spec len 65535).
  - apply (reads_bind _ _ [254] _ 254); [apply (reads_u8 254); done|].
    apply reads_u16. split; lia.
  - apply (reads_bind _ _ [253] _ 253); [apply (reads_u8 253); done|].
    apply (reads_map readInt_u32 i32 _ len); [apply reads_u32; split; lia|].
    apply swrap_id; [done|split; lia].
Qed.

(** ** Byte arrays and ASCII strings *)

Lemma fmap_u8_id bs : Forall (in_u 8) bs → u8 <$> bs = bs.
Proof.
  induction 1 as [|b bs Hb Hbs IH]; [done|]. rewrite fmap_cons, IH.
  unfold u8. by rewrite uwrap_id.
Qed.

Lemma reads_bytesOnly bs n :
  n = Z.of_nat (length bs) → reads (readBytesOnly n) bs bs.
Proof.
  intros ->. unfold readBytesOnly. destruct (Z.ltb_spec 0 (Z.of_nat (length bs))).
  - apply reads_check; [lia|lia|]. by apply reads_fetchN.
  - destruct bs; [apply reads_ret|simpl in *; lia].
Qed.

Lemma reads_bytes bs :
  Z.of_nat (length bs) < 2 ^ 31 →
  reads readBytes (arrayLenBytes (Z.of_nat (length bs)) ++ bs)
    (if bs is [] then None else Some bs, Z.of_nat (length bs)).
Proof.
  intros Hl. unfold readBytes.
  eapply reads_bind; [apply reads_arrayLen; lia|]. cbv beta.
  destruct bs as [|b bs]; [apply reads_ret|].
  rewrite (proj2 (Z.ltb_lt _ _)) by (simpl; lia).
  apply reads_check; [lia|lia|].
  apply (reads_pure _ (λ x, (Some x, _))). by apply reads_fetchN.
Qed.

Lemma reads_ASCII s :
  Z.of_nat (length s) ≤ 65535 →
  reads readASCII (be 2 (Z.of_nat (length s)) ++ s) s.
Proof.
  intros Hl. unfold readASCII.
  eapply reads_bind; [apply reads_u16; split; lia|]. cbv beta.
  apply reads_check; [lia|lia|]. by apply reads_bytesOnly.
Qed.

Lemma reads_ASCIIHuge s :
  Z.of_nat (length s) < 2 ^ 31 →
  reads readASCIIHuge (be 4 (Z.of_nat (length s)) ++ s) s.
Proof.
  intros Hl. unfold readASCIIHuge.
  eapply reads_bind; [apply reads_u32; split; lia|]. cbv beta.
  rewrite <- (app_nil_r s) at 2.
  eapply reads_bind; [by apply reads_bytesOnly|]. cbv beta.
  unfold u32. rewrite uwrap_id by (split; lia).
  rewrite (proj2 (Z.ltb_lt _ _)) by lia. apply reads_ret.
Qed.

(** ** Modified UTF-8 *)

Definition leadStep (b : Z) : Z :=
  let k := Z.shiftr (Z.land b 255) 5 in
  if k =? 6 then 1 else if k =? 7 then 2 else 0.

(** The lead byte of every character tells the number of bytes that follow. *)
Definition selfDelimiting (utf : Z → list Z) (c : Z) : Prop :=
  ∃ b t, utf c = b :: t ∧ leadStep b = Z.of_nat (length t).

Lemma leadStep_val b :
  0 ≤ b < 240 → leadStep b = if b <? 192 then 0 else if b <? 224 then 1 else 2.
Proof.
  intros Hb. apply Z.eqb_eq.
  assert (forallb (λ b, leadStep b =?
     if b <? 192 then 0 else if b <? 224 then 1 else 2) (seqZ 0 240) = true)
    as Hall by (vm_compute; done).
  by apply (forallb_range _ _ Hall).
Qed.

Lemma utf_char_delimiting c : selfDelimiting utf_char c.
Proof.
  unfold selfDelimiting, utf_char.
  assert (0 ≤ u8 c < 256) as Ht by (apply (uwrap_range 8); lia).
  generalize dependent (u8 c). intros t Ht. case_match eqn:E.
  - do 2 eexists. split; [done|]. simpl. rewrite leadStep_val
      by (Z.div_mod_to_equations; lia).
    rewrite (proj2 (Z.ltb_ge _ _)), (proj2 (Z.ltb_lt _ _))
      by (Z.div_mod_to_equations; lia). done.
  - do 2 eexists. split; [done|]. simpl. rewrite leadStep_val by lia.
    by rewrite (proj2 (Z.ltb_lt _ _)) by lia.
Qed.

Lemma utf_wchar_delimiting c : selfDelimiting utf_wchar c.
Proof.
  unfold selfDelimiting, utf_wchar.
  assert (0 ≤ u16 c < 65536) as Ht by (apply (uwrap_range 16); lia).
  generalize dependent (u16 c). intros t Ht.
  repeat case_match; (do 2 eexists; split; [done|]; simpl); [done|..];
    rewrite leadStep_val by (Z.div_mod_to_equations; lia);
    repeat first [rewrite (proj2 (Z.ltb_lt _ _)) by (Z.div_mod_to_equations; lia)
      |rewrite (proj2 (Z.ltb_ge _ _)) by (Z.div_mod_to_equations; lia)]; done.
Qed.

Lemma getDecodedLength_spec (utf : Z → list Z) s rest fuel acc :
  (∀ c, selfDelimiting utf c) → (length (flat_map utf s) ≤ fuel)%nat →
  getDecodedLength fuel (flat_map utf s ++ rest)
    (Z.of_nat (length (flat_map utf s))) acc =
  Some (acc + Z.of_nat (length s)).
Proof.
  intros Hd. revert fuel acc.
  induction s as [|c s IH]; intros fuel acc Hf.
  { destruct fuel; simpl; f_equal; lia. }
  cbn [flat_map] in *. destruct (Hd c) as (b & t & E & Hstep). rewrite E in *.
  cbn [app length] in *. rewrite length_app in *.
  destruct fuel as [|fuel]; [lia|]. cbn [getDecodedLength].
  rewrite (proj2 (Z.ltb_lt _ _)) by lia. cbv zeta.
  fold (leadStep b). rewrite Hstep, Nat2Z.id, <- app_assoc, drop_app_length.
  replace (Z.of_nat (S (length t + length (flat_map utf s))) - 1 -
           Z.of_nat (length t)) with (Z.of_nat (length (flat_map utf s))) by lia.
  rewrite IH by lia. f_equal. lia.
Qed.

Lemma flat_map_le (utf : Z → list Z) :
  (∀ c, selfDelimiting utf c) →
  ∀ s, (length s ≤ length (flat_map utf s))%nat.
Proof.
  intros Hd s. induction s as [|c s IH]; simpl; [lia|].
  destruct (Hd c) as (b & t & -> & _). rewrite length_app. simpl. lia.
Qed.

Lemma reads_repeat {A} (body : M DataInput A) (enc : A → list Z) s :
  Forall (λ a, reads body (enc a) a) s →
  reads (repeatRead (length s) body) (flat_map enc s) s.
Proof.
  induction 1 as [|a s Ha Hs IH]; simpl; [apply reads_ret|].
  eapply reads_bind; [done|]. by apply (reads_pure _ (cons a)).
Qed.

Lemma reads_UTF_with decode (utf : Z → list Z) s :
  (∀ c, selfDelimiting utf c) → Forall (λ c, reads decode (utf c) c) s →
  Z.of_nat (length (flat_map utf s)) ≤ 65535 →
  reads (readUTF_with decode)
    (be 2 (Z.of_nat (length (flat_map utf s))) ++ flat_map utf s) s.
Proof.
  intros Hd Hdec Hfit. unfold readUTF_with.
  eapply reads_bind; [apply reads_u16; split; lia|]. cbv beta.
  apply reads_check; [lia|lia|]. intros i rest Hw E. rewrite bind_get.
  fold (unread i). rewrite E, Nat2Z.id, getDecodedLength_spec by done.
  pose proof (flat_map_le utf Hd s).
  unfold u16. rewrite uwrap_id by (split; lia).
  rewrite Z.add_0_l, Nat2Z.id. by eapply reads_repeat.
Qed.

Lemma land_lead b :
  (192 ≤ b < 224 → Z.land (Z.land b 255) 31 = b - 192 ∧ Z.land b 31 = b - 192) ∧
  (224 ≤ b < 240 → Z.land (Z.land b 255) 15 = b - 224) ∧
  (0 ≤ b < 128 → Z.land (Z.land b 255) 127 = b ∧ Z.land b 128 = 0) ∧
  (128 ≤ b < 192 → Z.land b 63 = b - 128) ∧
  (192 ≤ b < 224 → Z.land b 128 = 128 ∧ Z.land b 32 = 0).
Proof.
  assert (forallb (λ b,
    implb ((192 <=? b) && (b <? 224)) ((Z.land (Z.land b 255) 31 =? b - 192) &&
      (Z.land b 31 =? b - 192)) &&
    implb ((224 <=? b) && (b <? 240)) (Z.land (Z.land b 255) 15 =? b - 224) &&
    implb ((0 <=? b) && (b <? 128)) ((Z.land (Z.land b 255) 127 =? b) &&
      (Z.land b 128 =? 0)) &&
    implb ((128 <=? b) && (b <? 192)) (Z.land b 63 =? b - 128) &&
    implb ((192 <=? b) && (b <? 224)) ((Z.land b 128 =? 128) &&
      (Z.land b 32 =? 0))) (seqZ 0 256) = true) as Hall by (vm_compute; done).
  pose proof (forallb_range _ _ Hall b) as Hb. cbv beta in Hb.
  destruct (decide (0 ≤ b < 256)) as [Hr|Hr]; [specialize (Hb Hr)|lia].
  split_and!; intros Hr'; lia.
Qed.

Lemma lor_shiftl_digit a x : 0 ≤ x < 64 → Z.lor (Z.shiftl a 6) x = a * 64 + x.
Proof. intros. by apply (lor_shiftl_low a x 6). Qed.

Lemma land_continuation x : 0 ≤ x < 64 → Z.land (128 + x) 63 = x.
Proof. intros. destruct (land_lead (128 + x)) as (_ & _ & _ & Hc & _). lia. Qed.

Lemma reads_decodeChar_char c :
  in_u 8 c → reads decodeChar_char (utf_char c) c.
Proof.
  intros Hc. unfold decodeChar_char, utf_char, u8. rewrite uwrap_id by done.
  unfold in_u in Hc. change (2 ^ 8) with 256 in Hc. case_match eqn:E.
  - apply reads_cons.
    destruct (land_lead (192 + c / 64)) as (H1 & _ & _ & _ & H5).
    destruct H5 as [-> ->]; [Z.div_mod_to_equations; lia|]. simpl.
    destruct H1 as [_ ->]; [Z.div_mod_to_equations; lia|].
    apply reads_cons. rewrite land_continuation, lor_shiftl_digit
      by (apply Z.mod_pos_bound; lia).
    replace (uwrap 8 _) with c; [apply reads_ret|].
    rewrite uwrap_id; unfold in_u; Z.div_mod_to_equations; lia.
  - apply reads_cons. destruct (land_lead c) as (_ & _ & H3 & _).
    destruct H3 as [_ ->]; [lia|]. apply reads_ret.
Qed.

Lemma reads_decodeChar_wchar c :
  in_u 16 c → reads decodeChar_wchar (utf_wchar c) c.
Proof.
  intros Hc. unfold decodeChar_wchar, utf_wchar, u16. rewrite uwrap_id by done.
  unfold in_u in Hc. change (2 ^ 16) with 65536 in Hc.
  repeat case_match.
  - assert (c = 0) as -> by lia. apply reads_cons, reads_cons, reads_ret.
  - apply reads_cons. destruct (land_lead c) as (_ & _ & H3 & _).
    pose proof (leadStep_val c ltac:(lia)) as Hk. unfold leadStep in Hk.
    rewrite (proj2 (Z.ltb_lt c 192)) in Hk by lia.
    destruct H3 as [-> _]; [lia|]. cbv zeta in *.
    destruct (_ =? 6); [done|]. destruct (_ =? 7); [done|]. apply reads_ret.
  - set (b := 192 + c / 64).
    assert (192 ≤ b < 224) as Hb by (unfold b; Z.div_mod_to_equations; lia).
    apply reads_cons. destruct (land_lead b) as (H4 & _).
    pose proof (leadStep_val b ltac:(lia)) as Hk. unfold leadStep in Hk.
    rewrite (proj2 (Z.ltb_ge b 192)), (proj2 (Z.ltb_lt b 224)) in Hk by lia.
    destruct H4 as [-> _]; [done|]. cbv zeta in *.
    destruct (_ =? 6); [|by destruct (_ =? 7)].
    apply reads_cons. rewrite land_continuation, lor_shiftl_digit
      by (apply Z.mod_pos_bound; lia).
    replace (_ * 64 + _) with c; [apply reads_ret|].
    unfold b. Z.div_mod_to_equations; lia.
  - set (b := 224 + c / 4096).
    assert (224 ≤ b < 240) as Hb by (unfold b; Z.div_mod_to_equations; lia).
    apply reads_cons. destruct (land_lead b) as (_ & H4 & _).
    pose proof (leadStep_val b ltac:(lia)) as Hk. unfold leadStep in Hk.
    rewrite (proj2 (Z.ltb_ge b 192)), (proj2 (Z.ltb_ge b 224)) in Hk by lia.
    rewrite H4 by done. cbv zeta in *.
    destruct (_ =? 6); [done|]. destruct (_ =? 7); [|done].
    do 2 apply reads_cons.
    rewrite !land_continuation by (apply Z.mod_pos_bound; lia).
    replace (Z.shiftl (b - 224) 12) with (Z.shiftl (Z.shiftl (b - 224) 6) 6)
      by (by rewrite Z.shiftl_shiftl).
    rewrite <- Z.shiftl_lor, !lor_shiftl_digit by (apply Z.mod_pos_bound; lia).
    replace (_ * 64 + _) with c; [apply reads_ret|].
    unfold b. Z.div_mod_to_equations; lia.
Qed.

(** ** The instances *)

Section Instances.
Context `{Allocator}.

#[export] Instance codec_u8 :
  WireCodec write_u8 read_u8 (λ v, [v mod 256]) (in_u 8).
Proof. split; [intros; apply appends_write_u8|apply reads_u8]. Qed.

#[export] Instance codec_i8 :
  WireCodec write_i8 read_i8 (λ v, [v mod 256]) (in_s 8).
Proof. split; [intros; apply appends_write_i8|apply reads_i8]. Qed.

#[export] Instance codec_boolean :
  WireCodec writeBoolean readBoolean (λ b : bool, [if b then 1 else 0])
    (λ _, True).
Proof.
  split; intros; [apply appends_writeBoolean|apply reads_boolean].
Qed.

#[export] Instance codec_u16 :
  WireCodec writeInt_u16 readInt_u16 (be 2) (in_u 16).
Proof. split; [intros; apply appends_writeInt_u16|apply reads_u16]. Qed.

#[export] Instance codec_u32 :
  WireCodec writeInt_u32 readInt_u32 (be 4) (in_u 32).
Proof. split; [intros; apply appends_writeInt_u32|apply reads_u32]. Qed.

(** The two branches on [sizeof(long)] interoperate. *)
#[export] Instance codec_u64 bw br :
  WireCodec (writeInt_u64 bw) (readInt_u64 br) (be 8) (in_u 64).
Proof.
  split.
  - intros v _. destruct bw;
      [apply appends_writeInt_u64|apply appends_writeInt_u64_32bit].
  - destruct br; [apply reads_u64|apply reads_u64_32bit].
Qed.

#[export] Instance codec_i16 :
  WireCodec writeInt_i16 readInt_i16 (be 2) (in_s 16).
Proof. split; [intros; apply appends_writeInt_i16|apply reads_i16]. Qed.

#[export] Instance codec_i32 :
  WireCodec writeInt_i32 readInt_i32 (be 4) (in_s 32).
Proof. split; [intros; apply appends_writeInt_i32|apply reads_i32]. Qed.

#[export] Instance codec_i64 :
  WireCodec writeInt_i64 readInt_i64 (be 8) (in_s 64).
Proof. split; [intros; apply appends_writeInt_i64|apply reads_i64]. Qed.

#[export] Instance codec_arrayLen :
  WireCodec writeArrayLen readArrayLen arrayLenBytes (λ n, -1 ≤ n < 2 ^ 31).
Proof. split; [intros; apply appends_writeArrayLen|apply reads_arrayLen]. Qed.

(** A zero-terminated copy of the string and its length, as [CacheableString]
    passes them. *)
Definition cstring (s : list Z) : option (list Z) := Some (s ++ [0]).

Lemma denotes_cstring s : denotes (s ++ [0]) (Z.of_nat (length s)) s.
Proof.
  destruct s as [|c s].
  - exists []. left. done.
  - exists [0]. right. split_and!; [done|simpl; lia|done].
Qed.

#[export] Instance codec_ASCII :
  WireCodec (λ s, writeASCII (cstring s) (Z.of_nat (length s))) readASCII
    (λ s, be 2 (Z.of_nat (length s)) ++ s)
    (λ s, Forall (in_u 8) s ∧ Z.of_nat (length s) ≤ 65535).
Proof.
  split; intros s [Hs Hl].
  - pose proof (appends_writeASCII _ _ _ (denotes_cstring s) Hl) as Hw.
    by rewrite fmap_u8_id in Hw.
  - by apply reads_ASCII.
Qed.

#[export] Instance codec_ASCIIHuge :
  WireCodec (λ s, writeASCIIHuge (cstring s) (Z.of_nat (length s)))
    readASCIIHuge (λ s, be 4 (Z.of_nat (length s)) ++ s)
    (λ s, Forall (in_u 8) s ∧ Z.of_nat (length s) < 2 ^ 31).
Proof.
  split; intros s [Hs Hl].
  - pose proof (appends_writeASCIIHuge _ _ _ (denotes_cstring s)) as Hw.
    rewrite fmap_u8_id in Hw by done. apply Hw. lia.
  - by apply reads_ASCIIHuge.
Qed.

#[export] Instance codec_UTF_char :
  WireCodec (λ s, writeUTF_char (cstring s) (Z.of_nat (length s))) readUTF_char
    (λ s, be 2 (Z.of_nat (length (flat_map utf_char s))) ++ flat_map utf_char s)
    (λ s, Forall (in_u 8) s ∧
          Z.of_nat (length (flat_map utf_char s)) ≤ 65535).
Proof.
  split; intros s [Hs Hl].
  - apply appends_writeUTF_char; [apply denotes_cstring| |done|done].
    pose proof (flat_map_le utf_char utf_char_delimiting s). split; lia.
  - apply reads_UTF_with; [apply utf_char_delimiting| |done].
    eapply Forall_impl; [done|]. apply reads_decodeChar_char.
Qed.

#[export] Instance codec_UTF_wchar :
  WireCodec (λ s, writeUTF_wchar (cstring s) (Z.of_nat (length s))) readUTF_wchar
    (λ s, be 2 (Z.of_nat (length (flat_map utf_wchar s))) ++ flat_map utf_wchar s)
    (λ s, Forall (in_u 16) s ∧
          Z.of_nat (length (flat_map utf_wchar s)) ≤ 65535).
Proof.
  split; intros s [Hs Hl].
  - apply appends_writeUTF_wchar; [apply denotes_cstring| |done|done].
    pose proof (flat_map_le utf_wchar utf_wchar_delimiting s). split; lia.
  - apply reads_UTF_with; [apply utf_wchar_delimiting| |done].
    eapply Forall_impl; [done|]. apply reads_decodeChar_wchar.
Qed.

#[export] Instance codec_UTFHuge_wchar :
  WireCodec (λ s, writeUTFHuge_wchar (cstring s) (Z.of_nat (length s)))
    readUTFHuge_wchar
    (λ s, be 4 (Z.of_nat (length s)) ++ flat_map wcharPair s)
    (λ s, Forall (in_u 16) s ∧ Z.of_nat (length s) < 2 ^ 31).
Proof.
  split; intros s [Hs Hl].
  - apply appends_writeUTFHuge_with; [apply denotes_cstring|done|done].
  - unfold readUTFHuge_wchar. eapply reads_bind; [apply reads_u32; split; lia|].
    cbv beta. rewrite Nat2Z.id at 1. apply reads_repeat.
    eapply Forall_impl; [done|]. intros c Hc. rewrite wcharPair_be.
    unfold u16. rewrite uwrap_id by done. simpl be. simpl app.
    apply (reads_bind _ _ [_] _ ((c / 256) mod 256));
      [|apply (reads_bind _ _ [_] [] (c mod 256))].
    + apply reads_byte.
    + apply reads_byte.
    + rewrite (lor_shiftl_low _ _ 8) by (try apply in_u8_mod; lia).
      unfold storeChar, allocated, u32. rewrite uwrap_id by (split; lia).
      rewrite (proj2 (Z.ltb_lt _ _)) by lia.
      replace (_ * 2 ^ 8 + _) with c; [apply reads_ret|].
      unfold in_u in Hc. Z.div_mod_to_equations; lia.
Qed.

(** ** Composition *)

Lemma codec_pair {A B} wa ra ea da wb rb eb db
    `{!@WireCodec _ A wa ra ea da} `{!@WireCodec _ B wb rb eb db} :
  WireCodec (λ '(a, b), wa a ;! wb b)
    (let! a := ra in let! b := rb in ret (a, b))
    (λ '(a, b), ea a ++ eb b) (λ '(a, b), da a ∧ db b).
Proof.
  split; intros [a b] [Ha Hb].
  - apply appends_bind; by apply codec_writes.
  - eapply reads_bind; [by apply codec_reads|].
    by apply (reads_pure _ (pair a)), codec_reads.
Qed.

(** The buffer a writer fills, given to a reader positioned where the writer
    started, yields the value and is consumed to its end. *)
Lemma written_reads_back {A} (w : M DataOutput unit) (r : M DataInput A) bs a o :
  appends w bs → reads r bs a →
  do_wf o → do_buf o + Z.of_nat (length bs) ≤ maxMessage →
  ∃ o', w o = (Ok tt, o') ∧ do_wf o' ∧
    getBuffer o' = written o ++ bs ∧
    let i := mkDataInput (getBuffer o') (do_buf o) (getBufferLength o') in
    r i = (Ok a, seek (getBufferLength o') i).
Proof.
  intros Hww Hr Hw Hmax.
  destruct (Hww o Hw Hmax) as (o' & E & Hw' & Hwr & _).
  pose proof (written_app_buf _ _ _ Hw Hw' Hwr) as Hb.
  pose proof Hw as [_ _ _ Hc _]. unfold maxMessage in Hmax.
  assert (getBufferLength o' = do_buf o') as El
    by (apply uwrap_id; split; lia).
  assert (getBuffer o' = written o ++ bs) as Eg
    by (unfold getBuffer; by rewrite El).
  exists o'. split_and!; [done..|]. rewrite El. cbv zeta.
  pose proof (length_written o Hw) as Hlen.
  rewrite (Hr _ []).
  - by rewrite Hb.
  - split; simpl; rewrite ?Eg, ?length_app; lia.
  - unfold unread. simpl. rewrite Eg, app_nil_r, <- Hlen, Nat2Z.id.
    apply drop_app_length.
Qed.

Lemma codec_roundtrip {A} w r enc dom `{!@WireCodec _ A w r enc dom} (a : A) o :
  dom a → do_wf o → do_buf o + Z.of_nat (length (enc a)) ≤ maxMessage →
  ∃ o', w a o = (Ok tt, o') ∧ do_wf o' ∧
    getBuffer o' = written o ++ enc a ∧
    let i := mkDataInput (getBuffer o') (do_buf o) (getBufferLength o') in
    r i = (Ok a, seek (getBufferLength o') i).
Proof.
  intros Ha. apply written_reads_back; [by apply codec_writes|by apply codec_reads].
Qed.
End Instances.
