(* ===== verification/InputSafety.v ===== *)
(** * Reading untrusted bytes

    [DataInput] parses what a server sent.  A reader is [safe] when, on every
    well-formed input, it either returns with the cursor still inside the
    buffer or throws; it never loads a byte outside the buffer.  The readers for
    which that fails are left out: the [char] version of [readUTF],
    [readBytesOnly] and [readASCIIHuge] with a length of 2^31 or more, the
    [readUTFHuge] pair with a length of 2^32 - 1, and the string readers that
    dispatch to them. *)

From S2P Require Import Prelude DataInput Codec.

Definition safe {A} (r : M DataInput A) : Prop := ∀ i,
  di_wf i → Forall (in_u 8) (di_head i) →
  match r i with
  | (Ok _, i') => di_wf i' ∧ di_head i' = di_head i ∧ di_buf i ≤ di_buf i'
  | (Throw _, i') => di_wf i' ∧ di_head i' = di_head i ∧ di_buf i ≤ di_buf i'
  | (UB, _) => False
  end.

(** With [n] bytes left, [r] returns and advances by [n]. *)
Definition consumes {A} (n : Z) (r : M DataInput A) : Prop := ∀ i, di_wf i →
  n ≤ di_length i - di_buf i →
  ∃ a, r i = (Ok a, seek (di_buf i + n) i).

Lemma safe_ret {A} (a : A) : safe (ret a).
Proof. intros i Hi Hb. simpl. split_and!; [done..|lia]. Qed.

Lemma safe_throw {A} e : safe (throw (A:=A) e).
Proof. intros i Hi Hb. simpl. split_and!; [done..|lia]. Qed.

(** Sequencing, with what is known of the value of the first reader. *)
Lemma safe_bind_post {A B} (P : A → Prop) (m : M DataInput A)
    (k : A → M DataInput B) :
  safe m →
  (∀ i a i', Forall (in_u 8) (di_head i) → m i = (Ok a, i') → P a) →
  (∀ a, P a → safe (k a)) → safe (bind m k).
Proof.
  intros Hm HP Hk i Hi Hby. specialize (Hm i Hi Hby). unfold bind.
  destruct (m i) as [[a|e|] i1] eqn:E; [|done|done].
  specialize (Hk a (HP _ _ _ Hby E)).
  destruct Hm as (Hi1 & Eh & Hb). rewrite <- Eh in Hby.
  specialize (Hk i1 Hi1 Hby).
  destruct (k a i1) as [[b|e|] i2]; [..|done];
    destruct Hk as (? & ? & ?); split_and!; try done; try congruence; lia.
Qed.

Lemma safe_bind {A B} (m : M DataInput A) (k : A → M DataInput B) :
  safe m → (∀ a, safe (k a)) → safe (bind m k).
Proof. intros Hm Hk. by apply (safe_bind_post (λ _, True)). Qed.

Lemma safe_if {A} (b : bool) (m1 m2 : M DataInput A) :
  safe m1 → safe m2 → safe (if b then m1 else m2).
Proof. by destruct b. Qed.

Lemma consumes_ret {A} (a : A) : consumes 0 (ret a).
Proof.
  intros i Hi _. exists a. unfold ret, seek. destruct i; simpl.
  by rewrite Z.add_0_r.
Qed.

Lemma consumes_fetch : consumes 1 fetch.
Proof.
  intros i Hi Hn. pose proof (unread_length i Hi) as Hl.
  destruct (unread i) as [|b rest] eqn:E; [simpl in Hl; lia|].
  exists b. by apply (reads_fetch b i rest).
Qed.

Lemma consumes_bind {A B} n1 n2 (m : M DataInput A) (k : A → M DataInput B) :
  0 ≤ n1 → 0 ≤ n2 → consumes n1 m → (∀ a, consumes n2 (k a)) →
  consumes (n1 + n2) (bind m k).
Proof.
  intros H1 H2 Hm Hk i Hi Hn. destruct (Hm i Hi) as [a Ea]; [lia|].
  rewrite (bind_Ok _ _ _ _ _ Ea).
  destruct (Hk a (seek (di_buf i + n1) i)) as [b Eb];
    [destruct Hi; split; simpl; lia|simpl; lia|].
  exists b. rewrite Eb, seek_seek. simpl. by rewrite Z.add_assoc.
Qed.

Lemma consumes_map {A B} n (m : M DataInput A) (f : A → B) :
  0 ≤ n → consumes n m → consumes n (let! x := m in ret (f x)).
Proof.
  intros Hn Hm. rewrite <- (Z.add_0_r n).
  apply consumes_bind; [lia|lia|done|intros; apply consumes_ret].
Qed.

(** The bounds check in front of a reader of fixed size makes it safe. *)
Lemma safe_check {A} n (r : M DataInput A) :
  in_s 32 n → consumes (Z.max 0 n) r → safe (checkBufferSize n ;! r).
Proof.
  intros Hn Hr i Hi _. unfold bind, checkBufferSize, i32.
  rewrite swrap_id by done. pose proof Hi as [Hl Hc Hm].
  destruct (Z.ltb_spec (di_length i - di_buf i) n); simpl.
  { split_and!; [done..|lia]. }
  destruct (Hr i Hi) as [a Ea]; [lia|]. rewrite Ea. simpl.
  split_and!; [|done|lia]. split; simpl; lia.
Qed.

Create HintDb reader discriminated.
#[export] Hint Resolve safe_ret safe_throw safe_if consumes_ret consumes_fetch
  : reader.
Lemma consumes_shift_in tmp w : consumes 1 (shift_in tmp w).
Proof. apply consumes_map; [lia|apply consumes_fetch]. Qed.

Lemma consumes_step {A B} n (m : M DataInput A) (k : A → M DataInput B) :
  1 ≤ n → consumes 1 m → (∀ a, consumes (n - 1) (k a)) → consumes n (bind m k).
Proof.
  intros Hn Hm Hk. replace n with (1 + (n - 1)) by lia.
  apply consumes_bind; [lia|lia|done|done].
Qed.

(** A straight line of byte fetches. *)
Ltac solve_consumes :=
  lazymatch goal with
  | |- consumes ?n (ret _) => replace n with 0 by lia; apply consumes_ret
  | |- consumes ?n fetch => replace n with 1 by lia; apply consumes_fetch
  | |- consumes ?n (shift_in _ _) =>
      replace n with 1 by lia; apply consumes_shift_in
  | |- consumes _ (bind _ _) =>
      apply consumes_step; [lia|solve_consumes|intros; solve_consumes]
  | |- consumes _ (if ?b then _ else _) => destruct b; solve_consumes
  end.

Ltac solve_fixed := apply safe_check; [split; lia|]; solve_consumes.

Lemma safe_read_u8 : safe read_u8. Proof. unfold read_u8. solve_fixed. Qed.
Lemma safe_read_i8 : safe read_i8. Proof. unfold read_i8. solve_fixed. Qed.
Lemma safe_readBoolean : safe readBoolean.
Proof. unfold readBoolean. solve_fixed. Qed.
Lemma safe_readInt_u16 : safe readInt_u16.
Proof. unfold readInt_u16. solve_fixed. Qed.
Lemma safe_readInt_u32 : safe readInt_u32.
Proof. unfold readInt_u32. solve_fixed. Qed.
Lemma safe_readInt_u64 b : safe (readInt_u64 b).
Proof. unfold readInt_u64. solve_fixed. Qed.

Lemma checkBufferSize_keeps n i :
  (checkBufferSize n i).2 = i.
Proof. unfold checkBufferSize. by case_match. Qed.

(** Repeating a check before a safe reader stays safe. *)
Lemma safe_recheck {A} n (r : M DataInput A) :
  safe r → safe (checkBufferSize n ;! r).
Proof.
  intros Hr i Hi Hb. unfold bind. pose proof (checkBufferSize_keeps n i) as E.
  unfold checkBufferSize in *. destruct (_ <? _).
  - simpl. split_and!; [done..|lia].
  - by apply Hr.
Qed.

Lemma safe_map {A B} (m : M DataInput A) (f : A → B) :
  safe m → safe (let! x := m in ret (f x)).
Proof. intros. apply safe_bind; [done|]. intros. apply safe_ret. Qed.

Lemma safe_readInt_i16 : safe readInt_i16.
Proof. apply safe_recheck, safe_map, safe_readInt_u16. Qed.
Lemma safe_readInt_i32 : safe readInt_i32.
Proof. apply safe_recheck, safe_map, safe_readInt_u32. Qed.
Lemma safe_readInt_i64 : safe readInt_i64.
Proof. apply safe_recheck, safe_map, safe_readInt_u64. Qed.
Lemma safe_readFloat : safe readFloat.
Proof. apply safe_recheck, safe_readInt_u32. Qed.
Lemma safe_readDouble : safe readDouble.
Proof. apply safe_recheck, safe_readInt_u64. Qed.

#[export] Hint Resolve safe_read_u8 safe_read_i8 safe_readBoolean
  safe_readInt_u16 safe_readInt_u32 safe_readInt_u64 safe_readInt_i16
  safe_readInt_i32 safe_readInt_i64 safe_readFloat safe_readDouble
  : reader.

(** Decompose a reader along its binds and tests. *)
Ltac solve_safe :=
  repeat first
    [ solve [eauto with reader]
    | apply safe_bind; [|intros ?]
    | apply safe_if
    | progress cbv zeta ].

Lemma safe_readArrayLen : safe readArrayLen.
Proof. unfold readArrayLen. solve_safe. Qed.

Lemma safe_readUnsignedVL : safe readUnsignedVL.
Proof.
  unfold readUnsignedVL. generalize 0 at 1. generalize 0. generalize 11%nat.
  induction n as [|fuel IH]; intros result shift; simpl; solve_safe.
Qed.

Lemma consumes_fetchN n : 0 ≤ n → consumes n (fetchN n).
Proof.
  intros Hn i Hi Hr. destruct Hi as [Hl Hc Hm]. eexists. unfold fetchN.
  by rewrite !(proj2 (Z.leb_le _ _)) by lia.
Qed.

(** Byte arrays: the length must be representable in [int32_t]. *)
Lemma safe_readBytesOnly len : len < 2 ^ 31 → safe (readBytesOnly len).
Proof.
  intros Hl. unfold readBytesOnly. destruct (Z.ltb_spec 0 len); [|apply safe_ret].
  apply safe_check; [split; lia|]. rewrite Z.max_r by lia.
  apply consumes_fetchN. lia.
Qed.

Lemma read_u8_byte i b i' :
  Forall (in_u 8) (di_head i) → read_u8 i = (Ok b, i') → in_u 8 b.
Proof.
  intros Hb E. unfold read_u8 in E. apply bind_inv_Ok in E as (? & i0 & E0 & E).
  pose proof (checkBufferSize_keeps 1 i) as Ei0. rewrite E0 in Ei0.
  simpl in Ei0. subst i0. unfold fetch in E. destruct (_ <=? _); [|done].
  destruct (_ !! _) eqn:El; [|done]. simplify_eq.
  by eapply Forall_lookup_1.
Qed.

Lemma readInt_u16_range i n i' : readInt_u16 i = (Ok n, i') → in_u 16 n.
Proof.
  intros E. unfold readInt_u16 in E.
  do 3 apply bind_inv_Ok in E as (? & ? & ? & E).
  unfold ret in E. simplify_eq. by apply uwrap_range.
Qed.

Lemma readArrayLen_range i n i' :
  Forall (in_u 8) (di_head i) → readArrayLen i = (Ok n, i') → n < 2 ^ 31.
Proof.
  intros Hb E. unfold readArrayLen in E.
  apply bind_inv_Ok in E as (code & i1 & E1 & E2).
  apply read_u8_byte in E1 as [Hc0 Hc1]; [|done].
  change (2 ^ 8) with 256 in Hc1.
  repeat case_match; try (unfold ret in E2; simplify_eq; lia).
  - apply readInt_u16_range in E2 as [_ ?]. lia.
  - apply bind_inv_Ok in E2 as (v & ? & ? & E2). unfold ret in E2. simplify_eq.
    pose proof (swrap_range 32 v) as Hr. unfold in_s in Hr. unfold i32. lia.
Qed.

Lemma safe_readBytes : safe readBytes.
Proof.
  apply (safe_bind_post (λ n, n < 2 ^ 31));
    [apply safe_readArrayLen|apply readArrayLen_range|intros n Hn].
  destruct (Z.ltb_spec 0 n); [|apply safe_ret].
  apply safe_check; [split; lia|]. rewrite Z.max_r by lia.
  apply consumes_map; [lia|]. apply consumes_fetchN. lia.
Qed.

Lemma safe_repeat {A} n (body : M DataInput A) : safe body → safe (repeatRead n body).
Proof. intros. induction n; simpl; solve_safe. Qed.
#[local] Hint Resolve safe_repeat safe_readBytes safe_readArrayLen : reader.

Lemma safe_readObjectArray {A} (r : M DataInput A) :
  safe r → safe (readObjectArray r).
Proof. intros. unfold readObjectArray. solve_safe. Qed.

Lemma safe_readNewArray {A} (r : M DataInput A) : safe r → safe (readNewArray r).
Proof. intros. unfold readNewArray. solve_safe. Qed.

Lemma safe_readASCII : safe readASCII.
Proof.
  apply (safe_bind_post (in_u 16)); [apply safe_readInt_u16| |intros n [_ Hn]].
  { intros i n i' _. apply readInt_u16_range. }
  apply safe_recheck, safe_readBytesOnly. lia.
Qed.

(** ** Wide-character UTF *)

(** [decodeChar(wchar_t* str)] consumes the lead byte and what it announces. *)
Lemma decodeChar_wchar_spec i b rest :
  di_wf i → unread i = b :: rest → leadStep b ≤ Z.of_nat (length rest) →
  ∃ c, decodeChar_wchar i = (Ok c, seek (di_buf i + (1 + leadStep b)) i).
Proof.
  intros Hi E Hl. pose proof (unread_length i Hi) as Hlen. rewrite E in Hlen.
  cbn [length] in Hlen. unfold decodeChar_wchar.
  rewrite (bind_Ok _ _ _ _ _ (reads_fetch b i rest Hi E)). simpl length.
  destruct (unread_seek i [b] rest Hi E) as [Hi1 _]. simpl length in Hi1.
  unfold leadStep in *. cbv zeta in *.
  set (i1 := seek (di_buf i + Z.of_nat 1) i) in *.
  assert (∀ {A} n (r : M DataInput A), consumes n r → 0 ≤ n →
    n ≤ Z.of_nat (length rest) →
    ∃ a, r i1 = (Ok a, seek (di_buf i + (1 + n)) i)) as Hgo.
  { intros A n r Hr Hn0 Hn. destruct (Hr i1 Hi1) as [a Ea]; [simpl; lia|].
    exists a. rewrite Ea. unfold i1. rewrite seek_seek. simpl.
    do 2 f_equal. lia. }
  destruct (_ =? 6); [apply Hgo; [solve_consumes|lia..]|].
  destruct (_ =? 7); [apply Hgo; [solve_consumes|lia..]|].
  apply Hgo; [solve_consumes|lia..].
Qed.

Lemma leadStep_range b : 0 ≤ leadStep b ≤ 2.
Proof. unfold leadStep. repeat case_match; lia. Qed.

(** Counting by lead bytes and decoding agree: the characters counted in
    [length] bytes are decoded without leaving those bytes. *)
Lemma decode_counted fuel i length acc :
  di_wf i → 0 ≤ length ≤ di_length i - di_buf i → length ≤ Z.of_nat fuel →
  ∃ n l i', getDecodedLength fuel (unread i) length acc = Some n ∧
    acc ≤ n ≤ acc + length ∧
    repeatRead (Z.to_nat (n - acc)) decodeChar_wchar i = (Ok l, i') ∧
    di_wf i' ∧ di_head i' = di_head i ∧
    di_buf i ≤ di_buf i' ≤ di_buf i + length.
Proof.
  revert i length acc. induction fuel as [|fuel IH]; intros i len acc Hi Hlen Hf.
  { exists acc, [], i. assert (len = 0) as -> by lia. rewrite Z.sub_diag.
    simpl. split_and!; try done; lia. }
  cbn [getDecodedLength]. destruct (Z.ltb_spec 0 len) as [Hp|Hp].
  2: { exists acc, [], i. assert (len = 0) as -> by lia. rewrite Z.sub_diag.
    simpl. split_and!; try done; lia. }
  pose proof (unread_length i Hi) as Hul.
  destruct (unread i) as [|b rest] eqn:E; [simpl in Hul; lia|].
  cbn [List.length] in Hul. fold (leadStep b). cbv zeta.
  pose proof (leadStep_range b) as Hs.
  destruct (Z.lt_ge_cases (len - 1 - leadStep b) 0) as [Hcut|Hin].
  { exists acc, [], i. rewrite Z.sub_diag. split_and!; try done; try lia.
    destruct fuel; cbn [getDecodedLength];
      rewrite (proj2 (Z.ltb_ge 0 _)) by lia;
      rewrite (proj2 (Z.ltb_lt _ 0)) by lia; f_equal; lia. }
  destruct (decodeChar_wchar_spec i b rest Hi E) as [c Ec]; [lia|].
  set (i1 := seek (di_buf i + (1 + leadStep b)) i) in *.
  assert (di_wf i1) as Hi1 by (destruct Hi; split; simpl; lia).
  assert (unread i1 = drop (Z.to_nat (leadStep b)) rest) as E1.
  { unfold unread in *. simpl. rewrite Z2Nat.inj_add by (destruct Hi; lia).
    rewrite <- drop_drop, E, Z2Nat.inj_add by lia. done. }
  destruct (IH i1 (len - 1 - leadStep b) (acc + 1)) as
    (n & l & i2 & Hn & Hr & Hl & Hi2 & Hh & Hc); [done|simpl; lia|lia|].
  rewrite E1 in Hn. exists n, (c :: l), i2. split; [done|]. split; [lia|].
  replace (Z.to_nat (n - acc)) with (S (Z.to_nat (n - (acc + 1)))) by lia.
  cbn [repeatRead]. rewrite (bind_Ok _ _ _ _ _ Ec), (bind_Ok _ _ _ _ _ Hl).
  simpl in Hc. split_and!; try done; lia.
Qed.

Lemma safe_readUTF_wchar : safe readUTF_wchar.
Proof.
  apply (safe_bind_post (in_u 16)); [apply safe_readInt_u16| |intros n [Hn0 Hn]].
  { intros i n i' _. apply readInt_u16_range. }
  intros i Hi Hb. unfold bind at 1, checkBufferSize, i32.
  rewrite swrap_id by (done || split; lia).
  destruct (Z.ltb_spec (di_length i - di_buf i) n).
  { split_and!; [done..|lia]. }
  rewrite bind_get. fold (unread i).
  destruct (decode_counted (Z.to_nat n) i n 0) as
    (k & l & i' & -> & Hk & Hl & Hi' & Hh & Hc); [done|lia|lia|].
  unfold u16. rewrite uwrap_id by (split; lia).
  rewrite Z.sub_0_r in Hl. rewrite Hl. split_and!; [done..|lia].
Qed.
