(* ===== verification/SerializationProps.v ===== *)
(** * Properties of serialization

    The statements about DataOutput.hpp and DataInput.hpp the rest of the
    client relies on: what is written is read back, writing never leaves the
    buffer, untrusted input never makes the checked readers leave theirs, and
    the places where the code does not have these properties. *)

From S2P Require Import Prelude DataOutput DataInput Codec InputSafety.

(** ** Messages: sequences of primitive values *)

Inductive wireValue : Type :=
  | WU8 (v : Z) | WI8 (v : Z) | WBool (b : bool)
  | WU16 (v : Z) | WI16 (v : Z) | WU32 (v : Z) | WI32 (v : Z)
  | WU64 (v : Z) | WI64 (v : Z) | WArrayLen (n : Z)
  | WASCII (s : list Z) | WASCIIHuge (s : list Z)
  | WUTF (s : list Z) | WWideUTF (s : list Z) | WWideUTFHuge (s : list Z).

Section Messages.
Context `{Allocator}.

Definition writeValue (v : wireValue) : M DataOutput unit :=
  match v with
  | WU8 v => write_u8 v
  | WI8 v => write_i8 v
  | WBool b => writeBoolean b
  | WU16 v => writeInt_u16 v
  | WI16 v => writeInt_i16 v
  | WU32 v => writeInt_u32 v
  | WI32 v => writeInt_i32 v
  | WU64 v => writeInt_u64 true v
  | WI64 v => writeInt_i64 v
  | WArrayLen n => writeArrayLen n
  | WASCII s => writeASCII (cstring s) (Z.of_nat (length s))
  | WASCIIHuge s => writeASCIIHuge (cstring s) (Z.of_nat (length s))
  | WUTF s => writeUTF_char (cstring s) (Z.of_nat (length s))
  | WWideUTF s => writeUTF_wchar (cstring s) (Z.of_nat (length s))
  | WWideUTFHuge s => writeUTFHuge_wchar (cstring s) (Z.of_nat (length s))
  end.

(** Reading a value of the same kind as [v]. *)
Definition readLike (v : wireValue) : M DataInput wireValue :=
  match v with
  | WU8 _ => let! x := read_u8 in ret (WU8 x)
  | WI8 _ => let! x := read_i8 in ret (WI8 x)
  | WBool _ => let! x := readBoolean in ret (WBool x)
  | WU16 _ => let! x := readInt_u16 in ret (WU16 x)
  | WI16 _ => let! x := readInt_i16 in ret (WI16 x)
  | WU32 _ => let! x := readInt_u32 in ret (WU32 x)
  | WI32 _ => let! x := readInt_i32 in ret (WI32 x)
  | WU64 _ => let! x := readInt_u64 true in ret (WU64 x)
  | WI64 _ => let! x := readInt_i64 in ret (WI64 x)
  | WArrayLen _ => let! x := readArrayLen in ret (WArrayLen x)
  | WASCII _ => let! x := readASCII in ret (WASCII x)
  | WASCIIHuge _ => let! x := readASCIIHuge in ret (WASCIIHuge x)
  | WUTF _ => let! x := readUTF_char in ret (WUTF x)
  | WWideUTF _ => let! x := readUTF_wchar in ret (WWideUTF x)
  | WWideUTFHuge _ => let! x := readUTFHuge_wchar in ret (WWideUTFHuge x)
  end.

Definition encodeValue (v : wireValue) : list Z :=
  match v with
  | WU8 v | WI8 v => [v mod 256]
  | WBool b => [if b then 1 else 0]
  | WU16 v | WI16 v => be 2 v
  | WU32 v | WI32 v => be 4 v
  | WU64 v | WI64 v => be 8 v
  | WArrayLen n => arrayLenBytes n
  | WASCII s => be 2 (Z.of_nat (length s)) ++ s
  | WASCIIHuge s => be 4 (Z.of_nat (length s)) ++ s
  | WUTF s =>
      be 2 (Z.of_nat (length (flat_map utf_char s))) ++ flat_map utf_char s
  | WWideUTF s =>
      be 2 (Z.of_nat (length (flat_map utf_wchar s))) ++ flat_map utf_wchar s
  | WWideUTFHuge s => be 4 (Z.of_nat (length s)) ++ flat_map wcharPair s
  end.

(** The values of the C++ parameter types; string lengths as documented. *)
Definition validValue (v : wireValue) : Prop :=
  match v with
  | WU8 v => in_u 8 v
  | WI8 v => in_s 8 v
  | WBool _ => True
  | WU16 v => in_u 16 v
  | WI16 v => in_s 16 v
  | WU32 v => in_u 32 v
  | WI32 v => in_s 32 v
  | WU64 v => in_u 64 v
  | WI64 v => in_s 64 v
  | WArrayLen n => -1 ≤ n < 2 ^ 31
  | WASCII s => Forall (in_u 8) s ∧ Z.of_nat (length s) ≤ 65535
  | WASCIIHuge s => Forall (in_u 8) s ∧ Z.of_nat (length s) < 2 ^ 31
  | WUTF s => Forall (in_u 8) s ∧
      Z.of_nat (length (flat_map utf_char s)) ≤ 65535
  | WWideUTF s => Forall (in_u 16) s ∧
      Z.of_nat (length (flat_map utf_wchar s)) ≤ 65535
  | WWideUTFHuge s => Forall (in_u 16) s ∧ Z.of_nat (length s) < 2 ^ 31
  end.

Fixpoint writeAll (vs : list wireValue) : M DataOutput unit :=
  match vs with
  | [] => ret tt
  | v :: vs' => writeValue v ;! writeAll vs'
  end.

Fixpoint readAll (vs : list wireValue) : M DataInput (list wireValue) :=
  match vs with
  | [] => ret []
  | v :: vs' =>
      let! x := readLike v in
      let! xs := readAll vs' in
      ret (x :: xs)
  end.

Lemma value_writes v : validValue v → appends (writeValue v) (encodeValue v).
Proof.
  destruct v; intros Hv; cbn [writeValue encodeValue validValue] in *.
  - apply (@codec_writes _ _ _ _ _ _ codec_u8 _ Hv).
  - apply (@codec_writes _ _ _ _ _ _ codec_i8 _ Hv).
  - apply (@codec_writes _ _ _ _ _ _ codec_boolean _ Hv).
  - apply (@codec_writes _ _ _ _ _ _ codec_u16 _ Hv).
  - apply (@codec_writes _ _ _ _ _ _ codec_i16 _ Hv).
  - apply (@codec_writes _ _ _ _ _ _ codec_u32 _ Hv).
  - apply (@codec_writes _ _ _ _ _ _ codec_i32 _ Hv).
  - apply (@codec_writes _ _ _ _ _ _ (codec_u64 true true) _ Hv).
  - apply (@codec_writes _ _ _ _ _ _ codec_i64 _ Hv).
  - apply (@codec_writes _ _ _ _ _ _ codec_arrayLen _ Hv).
  - apply (@codec_writes _ _ _ _ _ _ codec_ASCII _ Hv).
  - apply (@codec_writes _ _ _ _ _ _ codec_ASCIIHuge _ Hv).
  - apply (@codec_writes _ _ _ _ _ _ codec_UTF_char _ Hv).
  - apply (@codec_writes _ _ _ _ _ _ codec_UTF_wchar _ Hv).
  - apply (@codec_writes _ _ _ _ _ _ codec_UTFHuge_wchar _ Hv).
Qed.

Lemma value_reads v : validValue v → reads (readLike v) (encodeValue v) v.
Proof.
  destruct v; intros Hv; cbn [readLike encodeValue validValue] in *;
    (eapply reads_map; [|done]).
  - apply (@codec_reads _ _ _ _ _ _ codec_u8 _ Hv).
  - apply (@codec_reads _ _ _ _ _ _ codec_i8 _ Hv).
  - apply (@codec_reads _ _ _ _ _ _ codec_boolean _ Hv).
  - apply (@codec_reads _ _ _ _ _ _ codec_u16 _ Hv).
  - apply (@codec_reads _ _ _ _ _ _ codec_i16 _ Hv).
  - apply (@codec_reads _ _ _ _ _ _ codec_u32 _ Hv).
  - apply (@codec_reads _ _ _ _ _ _ codec_i32 _ Hv).
  - apply (@codec_reads _ _ _ _ _ _ (codec_u64 true true) _ Hv).
  - apply (@codec_reads _ _ _ _ _ _ codec_i64 _ Hv).
  - apply (@codec_reads _ _ _ _ _ _ codec_arrayLen _ Hv).
  - apply (@codec_reads _ _ _ _ _ _ codec_ASCII _ Hv).
  - apply (@codec_reads _ _ _ _ _ _ codec_ASCIIHuge _ Hv).
  - apply (@codec_reads _ _ _ _ _ _ codec_UTF_char _ Hv).
  - apply (@codec_reads _ _ _ _ _ _ codec_UTF_wchar _ Hv).
  - apply (@codec_reads _ _ _ _ _ _ codec_UTFHuge_wchar _ Hv).
Qed.
End Messages.

Section MessageLemmas.
Context `{Allocator}.

Lemma all_writes vs :
  Forall validValue vs → appends (writeAll vs) (flat_map encodeValue vs).
Proof.
  induction 1; simpl; [apply appends_ret|].
  apply appends_bind; [by apply value_writes|done].
Qed.

Lemma all_reads vs :
  Forall validValue vs → reads (readAll vs) (flat_map encodeValue vs) vs.
Proof.
  induction 1 as [|v vs Hv Hvs IH]; simpl; [apply reads_ret|].
  eapply reads_bind; [by apply value_reads|]. by apply (reads_pure _ (cons v)).
Qed.

Lemma codec_message vs0 :
  WireCodec (λ _, writeAll vs0) (readAll vs0) (λ vs, flat_map encodeValue vs)
    (λ vs, vs = vs0 ∧ Forall validValue vs).
Proof.
  split; intros vs [-> Hv]; [by apply all_writes|by apply all_reads].
Qed.

(** C1: a sequence of primitive values written to a [DataOutput] in any state
    is read back, value by value, from the bytes [getBuffer] returns, and the
    reader ends exactly where the writer ended; writing succeeds, keeps what
    was written before, and keeps the buffer well formed. *)
Theorem wire_roundtrip vs o :
  Forall validValue vs → do_wf o →
  do_buf o + Z.of_nat (length (flat_map encodeValue vs)) ≤ maxMessage →
  ∃ o', writeAll vs o = (Ok tt, o') ∧ do_wf o' ∧
    getBuffer o' = written o ++ flat_map encodeValue vs ∧
    let i := mkDataInput (getBuffer o') (do_buf o) (getBufferLength o') in
    readAll vs i = (Ok vs, seek (getBufferLength o') i).
Proof.
  intros Hv Hw Hm.
  apply (@codec_roundtrip _ _ _ _ _ _ (codec_message vs)); [done|done|done].
Qed.

(** C14: [ensureCapacity] makes room: for every well-formed buffer and every
    request below the 1 GiB message bound it returns with at least [size] free
    bytes, the written bytes and the cursor untouched, the allocation size and
    [m_size] in agreement and the big-buffer lock held exactly once when the
    buffer is big. *)
Theorem ensureCapacity_makes_room size o :
  do_wf o → 0 ≤ size → do_buf o + size ≤ maxMessage →
  ∃ o', ensureCapacity size o = (Ok tt, o') ∧ do_wf o' ∧
    written o' = written o ∧ do_buf o' = do_buf o ∧
    size ≤ getRemainingBufferLength o'.
Proof.
  intros Hw Hs Hm.
  destruct (ensureCapacity_spec size o) as (o' & E & Hw' & Hwr & Hb & Hr & _);
    [done|done|lia|].
  exists o'. split_and!; try done.
  unfold getRemainingBufferLength, getBufferLength, u32.
  pose proof Hw' as [_ ? ? ? _].
  rewrite (uwrap_id 32 (do_buf o')) by (split; lia).
  rewrite uwrap_id by (split; lia). lia.
Qed.

End MessageLemmas.

(** ** Untrusted input *)

Definition discard {A} (r : M DataInput A) : M DataInput unit := r ;! ret tt.

(** The readers whose bounds check covers every byte they load. *)
Definition checkedReaders : list (M DataInput unit) :=
  [ discard read_u8; discard read_i8; discard readBoolean;
    discard readInt_u16; discard readInt_u32;
    discard (readInt_u64 true); discard (readInt_u64 false);
    discard readInt_i16; discard readInt_i32; discard readInt_i64;
    discard readFloat; discard readDouble; discard readArrayLen;
    discard readUnsignedVL; discard readBytes; discard readASCII;
    discard readUTF_wchar; discard readCharArray; discard readWideCharArray;
    discard readBooleanArray; discard readByteArray; discard readShortArray;
    discard readIntArray; discard readLongArray; discard readFloatArray;
    discard readDoubleArray; discard readArrayOfByteArrays;
    discard readNativeBool; discard readNativeInt32 ].

Lemma safe_discard {A} (r : M DataInput A) : safe r → safe (discard r).
Proof. intros. apply safe_bind; [done|]. intros. apply safe_ret. Qed.

Lemma safe_readPdxChar : safe readPdxChar.
Proof. unfold readPdxChar. solve_safe. Qed.

#[local] Hint Resolve safe_readArrayLen safe_readUnsignedVL safe_readBytes
  safe_readASCII safe_readUTF_wchar safe_readPdxChar safe_readObjectArray safe_readNewArray
  : reader.

Lemma checkedReaders_safe : Forall safe checkedReaders.
Proof.
  unfold checkedReaders, readCharArray, readWideCharArray, readBooleanArray,
    readByteArray, readShortArray, readIntArray, readLongArray, readFloatArray,
    readDoubleArray, readArrayOfByteArrays, readNativeBool, readNativeInt32.
  repeat (constructor; [apply safe_discard; solve_safe|]). constructor.
Qed.

(** C8: on arbitrary bytes, each of these readers either returns, with the
    cursor moved forward and still inside the buffer, or throws; none of them
    loads a byte outside the buffer. *)
Theorem untrusted_input_safe r i :
  r ∈ checkedReaders → di_wf i → Forall (in_u 8) (di_head i) →
  ∃ res i', r i = (res, i') ∧ res ≠ UB ∧ di_head i' = di_head i ∧
    di_buf i ≤ di_buf i' ≤ di_length i'.
Proof.
  intros Hr Hi Hb. pose proof checkedReaders_safe as Hs.
  rewrite Forall_forall in Hs. specialize (Hs r Hr).
  unfold safe in Hs. specialize (Hs i Hi Hb).
  destruct (r i) as [[[]|e|] i'] eqn:E; simpl in Hs; [| |done];
    destruct Hs as (Hi' & ? & ?); destruct Hi' as [_ ? _];
    do 2 eexists; (split; [done|]); split_and!; try done; lia.
Qed.

(** ** Where the bounds checks do not reach *)

(** The bound check of [readBytesOnly] takes an [int32_t]: when the length
    field of [readASCIIHuge] is 2^31 or more the check passes, whatever the
    buffer holds, and the copy runs out of the buffer. *)
Theorem readASCIIHuge_unchecked n i rest :
  2 ^ 31 ≤ n < 2 ^ 32 → di_wf i → unread i = be 4 n ++ rest →
  (readASCIIHuge i).1 = UB.
Proof.
  intros Hn Hi E. unfold readASCIIHuge.
  rewrite (bind_Ok _ _ _ _ _ (reads_u32 n ltac:(split; lia) i rest Hi E)).
  destruct (unread_seek i (be 4 n) rest Hi E) as [[Hl Hc Hm] _].
  set (i1 := seek _ i) in *. unfold readBytesOnly.
  rewrite (proj2 (Z.ltb_lt 0 n)) by lia. unfold bind at 1. unfold bind at 1.
  unfold checkBufferSize.
  assert (i32 n = n - 2 ^ 32) as -> by width_lia.
  rewrite (proj2 (Z.ltb_ge _ _)) by lia. unfold fetchN.
  by rewrite (proj2 (Z.leb_gt (di_buf i1 + n) _)), andb_false_r by lia.
Qed.

(** [readUTF(char** )] counts characters like the wide version but decodes
    differently: on a stray continuation byte at the end of the string the
    decoder loads bytes past the checked length, here past the buffer. *)
Theorem readUTF_char_overread b i :
  128 ≤ b < 192 → di_wf i → unread i = be 2 1 ++ [b] →
  (readUTF_char i).1 = UB.
Proof.
  intros Hb Hi E. unfold readUTF_char, readUTF_with.
  rewrite (bind_Ok _ _ _ _ _ (reads_u16 1 ltac:(split; lia) i [b] Hi E)).
  destruct (unread_seek i (be 2 1) [b] Hi E) as [Hi1 E1].
  set (i1 := seek _ i) in *. pose proof (unread_length i1 Hi1) as Hl.
  rewrite E1 in Hl. cbn [length] in Hl.
  assert (∀ {A} (k : M DataInput A), bind (checkBufferSize 1) (λ _, k) i1 = k i1)
    as ->.
  { intros A k. unfold bind, checkBufferSize. change (i32 1) with 1.
    by rewrite (proj2 (Z.ltb_ge _ _)) by lia. }
  rewrite bind_get. fold (unread i1). rewrite E1.
  assert (getDecodedLength (Z.to_nat 1) [b] 1 0 = Some 1) as ->.
  { change (Z.to_nat 1) with 1%nat. cbn [getDecodedLength]. cbv zeta.
    change (0 <? 1) with true. cbv iota. fold (leadStep b). rewrite leadStep_val by lia.
    by rewrite (proj2 (Z.ltb_lt b 192)) by lia. }
  change (Z.to_nat (u16 1)) with 1%nat. cbn [repeatRead]. unfold decodeChar_char.
  rewrite bind_assoc, (bind_Ok _ _ _ _ _ (reads_fetch b i1 [] Hi1 E1)).
  destruct (unread_seek i1 [b] [] Hi1 E1) as [Hi2 E2].
  set (i2 := seek _ i1) in *.
  assert (negb (Z.land b 128 =? 0) = true) as ->.
  { assert (forallb (λ b, implb (128 <=? b) (negb (Z.land b 128 =? 0)))
      (seqZ 0 192) = true) as Hall by (vm_compute; done).
    pose proof (forallb_range _ _ Hall b ltac:(lia)) as Hx. cbv beta in Hx.
    by rewrite (proj2 (Z.leb_le _ _)) in Hx by lia. }
  assert (∀ {A} (k : Z → M DataInput A), (bind fetch k i2).1 = UB) as Hub.
  { intros A k. unfold bind, fetch. pose proof (unread_length i2 Hi2) as Hl2.
    rewrite E2 in Hl2. destruct Hi2 as [Hh2 Hc2 _].
    rewrite (proj2 (Z.leb_le _ _)) by lia.
    by rewrite lookup_ge_None_2 by (cbn [length] in Hl2; lia). }
  destruct (negb (Z.land b 32 =? 0)); rewrite bind_assoc; apply Hub.
Qed.

(** [ensureCapacity] returns at once when there is room. *)
Lemma ensureCapacity_room `{Allocator} n o :
  do_wf o → do_buf o + n ≤ do_size o → ensureCapacity n o = (Ok tt, o).
Proof.
  intros [Ha Hmin Hlt Hc Hl] Hr. unfold ensureCapacity, u32.
  rewrite (uwrap_id 32 (do_buf o)) by (split; lia).
  rewrite uwrap_id by (split; lia).
  by rewrite (proj2 (Z.ltb_ge _ _)) by lia.
Qed.

(** A store at the end of the allocation is out of bounds. *)
Lemma store_full b o :
  do_wf o → do_buf o = do_size o → store [b] o = (UB, o).
Proof.
  intros [Ha Hmin Hlt Hc Hl] E. unfold store. simpl length.
  by rewrite (proj2 (Z.leb_gt _ (Z.of_nat (length (do_bytes o))))),
    andb_false_r by lia.
Qed.

(** One-byte characters, by enumeration. *)
Lemma ascii_one_byte c :
  0 < c < 128 →
  (c =? 0) || negb (Z.land c 128 =? 0) = false ∧ u8 c = c.
Proof.
  intros Hc. split; [|apply uwrap_id; split; lia].
  assert (forallb (λ c, implb (0 <? c)
    (negb ((c =? 0) || negb (Z.land c 128 =? 0)))) (seqZ 0 128) = true) as Hall
    by (vm_compute; done).
  pose proof (forallb_range _ _ Hall c ltac:(lia)) as Hx. cbv beta in Hx.
  rewrite (proj2 (Z.ltb_lt _ _)) in Hx by lia. by apply negb_true_iff in Hx.
Qed.

(** [writeFullUTF] reserves the encoded length and then writes one more
    byte, a zero before the characters: with exactly five bytes left in the
    buffer a one-character string makes it store past the allocation. *)
Theorem writeFullUTF_overflow `{Allocator} c o :
  0 < c < 128 → do_wf o → do_buf o = do_size o - 5 →
  (writeFullUTF (cstring [c]) 1 o).1 = UB.
Proof.
  intros Hc Hw Hb. destruct (ascii_one_byte c Hc) as [E1 Eu].
  unfold writeFullUTF, cstring. simpl app.
  assert (getEncodedLength_char [c; 0] (i32 1) = Some 1) as ->.
  { unfold getEncodedLength_char, encodedLength_char. change (i32 1) with 1.
    change (1 =? 0) with false. change (Z.to_nat 1) with 1%nat.
    cbn [encodedLength_upto]. by rewrite E1. }
  cbn [lift]. rewrite bind_ret. unfold writeInt_i32, writeInt_u32.
  rewrite !bind_assoc, (bind_Ok _ _ _ _ _ (ensureCapacity_room 4 o Hw ltac:(lia))).
  pose proof (stores_cons (u8 (u32 1 ≫ 24)) _ _ (stores_cons (u8 (u32 1 ≫ 16)) _ _
    (stores_cons (u8 (u32 1 ≫ 8)) _ _ (stores_last (u8 (u32 1)))))) as Hst.
  destruct (Hst o Hw ltac:(simpl; lia)) as (o1 & Es & Hw1 & Hwr & Hsz).
  pose proof (written_app_buf _ _ _ Hw Hw1 Hwr) as Hb1. simpl length in Hb1.
  rewrite (bind_Ok _ _ _ _ _ Es).
  rewrite (bind_Ok _ _ _ _ _ (ensureCapacity_room (u32 1) o1 Hw1
    ltac:(change (u32 1) with 1; lia))).
  unfold write_i8, write_u8, writeNoCheck.
  rewrite !bind_assoc, (bind_Ok _ _ _ _ _ (ensureCapacity_room 1 o1 Hw1 ltac:(lia))).
  destruct (stores_last (u8 (u8 0)) o1 Hw1 ltac:(simpl; lia))
    as (o2 & Es2 & Hw2 & Hwr2 & Hsz2).
  pose proof (written_app_buf _ _ _ Hw1 Hw2 Hwr2) as Hb2. simpl length in Hb2.
  rewrite (bind_Ok _ _ _ _ _ Es2), bind_get. cbn [encodeLoop].
  rewrite !bind_assoc, bind_get.
  rewrite (proj2 (Z.ltb_lt (do_buf o2) _)) by lia.
  unfold encodeChar_char. cbv zeta. rewrite Eu, E1. unfold bind.
  by rewrite (store_full c o2 Hw2 ltac:(lia)).
Qed.

(** ** The properties at concrete inputs *)

#[local] Instance zeroAllocator : Allocator := {| fresh := λ _, 0 |}.

(** The buffer of a new [DataOutput], with the cursor at [pos]. *)
Definition outputAt (pos : Z) : DataOutput :=
  mkDataOutput (replicate (Z.to_nat 8192) 0) pos 8192 false 0.

Lemma outputAt_wf pos : 0 ≤ pos ≤ 8192 → do_wf (outputAt pos).
Proof. intros. by split; simpl; try lia. Qed.

Definition inputOf (bs : list Z) : DataInput :=
  mkDataInput bs 0 (Z.of_nat (length bs)).

Lemma inputOf_wf bs : Z.of_nat (length bs) < 2 ^ 31 → di_wf (inputOf bs).
Proof. intros. split; simpl; lia. Qed.

Definition sampleMessage : list wireValue :=
  [WU8 200; WI32 (-5); WArrayLen 253; WUTF [72; 0; 233]; WWideUTF [2047; 2048];
   WI64 (- 2 ^ 63); WBool true].

Lemma sampleMessage_valid : Forall validValue sampleMessage.
Proof.
  repeat constructor; simpl; try (unfold in_u, in_s); try lia; repeat constructor;
    unfold in_u; lia.
Qed.

Lemma wire_roundtrip_witness :
  ∃ o', writeAll sampleMessage (outputAt 3) = (Ok tt, o') ∧ do_wf o' ∧
    getBuffer o' = written (outputAt 3) ++ flat_map encodeValue sampleMessage ∧
    let i := mkDataInput (getBuffer o') (do_buf (outputAt 3)) (getBufferLength o') in
    readAll sampleMessage i = (Ok sampleMessage, seek (getBufferLength o') i).
Proof.
  apply (wire_roundtrip sampleMessage (outputAt 3)).
  - apply sampleMessage_valid.
  - apply outputAt_wf; lia.
  - vm_compute. discriminate.
Defined.

Lemma ensureCapacity_makes_room_witness :
  ∃ o', ensureCapacity 100000 (outputAt 8000) = (Ok tt, o') ∧ do_wf o' ∧
    written o' = written (outputAt 8000) ∧ do_buf o' = do_buf (outputAt 8000) ∧
    100000 ≤ getRemainingBufferLength o'.
Proof.
  apply (ensureCapacity_makes_room 100000 (outputAt 8000));
    [apply outputAt_wf; lia|lia|vm_compute; discriminate].
Defined.


Lemma untrusted_input_safe_witness :
  ∃ res i', discard readUTF_wchar (inputOf [0; 2; 255; 0]) = (res, i') ∧
    res ≠ UB ∧ di_head i' = di_head (inputOf [0; 2; 255; 0]) ∧
    di_buf (inputOf [0; 2; 255; 0]) ≤ di_buf i' ≤ di_length i'.
Proof.
  apply (untrusted_input_safe (discard readUTF_wchar) (inputOf [0; 2; 255; 0])).
  - unfold checkedReaders. do 16 apply list_elem_of_further. left.
  - apply inputOf_wf. simpl. lia.
  - repeat constructor; unfold in_u; lia.
Defined.

Lemma readASCIIHuge_unchecked_witness :
  (readASCIIHuge (inputOf [128; 0; 0; 0; 65])).1 = UB.
Proof.
  apply (readASCIIHuge_unchecked (2 ^ 31) _ [65]);
    [lia|apply inputOf_wf; simpl; lia|reflexivity].
Defined.

Lemma readUTF_char_overread_witness :
  (readUTF_char (inputOf [0; 1; 130])).1 = UB.
Proof.
  apply (readUTF_char_overread 130);
    [lia|apply inputOf_wf; simpl; lia|reflexivity].
Defined.

Lemma writeFullUTF_overflow_witness :
  (writeFullUTF (cstring [65]) 1 (outputAt 8187)).1 = UB.
Proof.
  apply (writeFullUTF_overflow 65); [lia|apply outputAt_wf; lia|reflexivity].
Defined.
