(* ===== verification/Membership.v ===== *)
(** * Members of the distributed system

    Models ClientProxyMembershipID.cpp/.hpp, DiskStoreId.hpp/.cpp and
    MemberListForVersionStamp.cpp: the identity of the member that made a
    change, as it is read from the wire, written to the wire, named by a hash
    key, ordered by [compareTo], and numbered by the list the version stamps
    refer to.

    [ACE_OS::itoa] and the deserialization of a [CacheableString] object are
    parameters of the model. *)

From S2P Require Import Prelude DataOutput DataInput.

(** The platform layer: [itoa value radix]. *)
Class Platform := { itoa : Z → Z → list Z }.

(** [input.readObject(CacheableStringPtr)], through the type registry: the
    outer [None] is a null object, the inner one a null [asChar()]. *)
Class StringObjects :=
  { readCacheableString : M DataInput (option (option (list Z))) }.

(** ** C strings *)

(** The characters of a NUL-terminated string; [None] when it runs out of the
    memory it points to. *)
Definition c_str (mem : list Z) : option (list Z) :=
  (λ n, take (Z.to_nat n) mem) <$> strlen mem.

(** Passing a [const char*] to a [std::string] operation. *)
Definition charsOf {S} (p : option (list Z)) : M S (list Z) :=
  match p with Some mem => lift (c_str mem) | None => undefined end.

Definition isspace (c : Z) : bool := (c =? 32) || ((9 <=? c) && (c <=? 13)).
Definition isdigit (c : Z) : bool := (48 <=? c) && (c <=? 57).

Fixpoint atoi_digits (mem : list Z) (acc : Z) : Z :=
  match mem with
  | c :: mem' => if isdigit c then atoi_digits mem' (acc * 10 + (c - 48)) else acc
  | [] => acc
  end.

(** [atoi]; a value that is not an [int] is undefined. *)
Fixpoint atoi (s : list Z) : option Z :=
  match s with
  | c :: s' =>
      if isspace c then atoi s'
      else
        let n := if c =? 45 then - atoi_digits s' 0
                 else if c =? 43 then atoi_digits s' 0
                 else atoi_digits s 0 in
        if (- 2 ^ 31 <=? n) && (n <? 2 ^ 31) then Some n else None
  | [] => Some 0
  end.

(** [std::string::compare]: the difference at the first position where the
    strings differ, else the difference of the lengths clamped to [int]. *)
Fixpoint string_compare (a b : list Z) : Z :=
  match a, b with
  | x :: a', y :: b' => if x =? y then string_compare a' b' else x - y
  | _, _ =>
      Z.max (- 2 ^ 31) (Z.min (2 ^ 31 - 1)
        (Z.of_nat (length a) - Z.of_nat (length b)))
  end.

(** A colon. *)
Definition colon : list Z := [58].

(** ** ClientProxyMembershipID *)

Definition ADDRSIZE : Z := 4.
Definition DCPORT : Z := 12334.
Definition ROLEARRLENGTH : Z := 0.
Definition VERSION_MASK : Z := 8.
Definition TOKEN_ORDINAL : Z := -1.
Definition LONER_DM_TYPE : Z := 13.
Definition SCHAR_MAX : Z := 127.
Definition id_FixedIDByte : Z := 1.
Definition id_InternalDistributedMember : Z := 92.
Definition Version_ordinal : Z := 45.

Record ClientProxyMembershipID := mkMember {
  m_memIDStr : list Z;
  m_clientID : list Z;
  m_dsname : list Z;
  m_hostPort : Z;
  m_hostAddr : option (list Z);
  m_hostAddrLen : Z;
  m_uniqueTag : list Z;
  m_hashKey : list Z;
  m_hostAddrLocalMem : bool;
  m_vmViewId : Z
}.

Definition emptyMember : ClientProxyMembershipID :=
  mkMember [] [] [] 0 None 0 [] [] false 0.

(** [DSMemberForVersionStamp]: the two kinds of members. *)
Inductive DSMember : Type :=
  | ClientMember (c : ClientProxyMembershipID)
  | DiskStoreId (mostSig leastSig : Z).

Section Membership.
Context `{Allocator} `{Platform} `{StringObjects}.

Definition writeVersion (ordinal : Z) : M DataOutput unit :=
  if ordinal <=? SCHAR_MAX then write_i8 (i8 ordinal)
  else write_i8 TOKEN_ORDINAL ;! writeInt_i16 ordinal.

Definition readVersion (flags : Z) : M DataInput unit :=
  if negb (Z.land flags VERSION_MASK =? 0) then
    let! ordinal := read_i8 in
    if negb (ordinal =? TOKEN_ORDINAL) then ret tt
    else readInt_i16 ;! ret tt
  else ret tt.

(** Skip unused UUID (16) and weight (0). *)
Definition readAdditionalData : M DataInput unit := di_advanceCursor 17.

(** [memcpy(&temp, hostAddr, 4)] on a little-endian machine. *)
Definition le32 (bs : list Z) : Z :=
  match bs with
  | [a; b; c; d] => a + 256 * (b + 256 * (c + 256 * d))
  | _ => 0
  end.

(** [(":" hex)*] over the address bytes. *)
Fixpoint hashAddr (addr : list Z) : list Z :=
  match addr with
  | [] => []
  | a :: addr' => colon ++ itoa a 16 ++ hashAddr addr'
  end.

Definition hashKeyOf (addr : list Z) (hostPort : Z) (dsname uniqueTag : list Z)
    (vmViewId : Z) : list Z :=
  hashAddr addr ++ colon ++ itoa (i32 hostPort) 10 ++ colon ++ dsname ++ colon ++
  (if negb (Z.of_nat (length uniqueTag) =? 0) then uniqueTag
   else colon ++ itoa (i32 vmViewId) 10).

(** The bytes of the member as the server parses them. *)
Definition writeMemberID (synch_counter : Z) (hostname : option (list Z))
    (hostAddr : list Z) (durableClientId : option (list Z))
    (durableClntTimeOut dcPort vPID vmkind splitBrainFlag : Z)
    (dsname uniqueTag : option (list Z)) : M DataOutput unit :=
  write_i8 id_FixedIDByte ;!
  write_i8 id_InternalDistributedMember ;!
  writeArrayLen ADDRSIZE ;!
  let! temp := loadN 4 hostAddr in
  writeInt_i32 (i32 (le32 temp)) ;!
  writeInt_i32 synch_counter ;!
  write_i8 id_CacheableASCIIString ;!
  writeASCII hostname 0 ;!
  write_i8 splitBrainFlag ;!
  writeInt_i32 dcPort ;!
  writeInt_i32 vPID ;!
  write_i8 vmkind ;!
  writeArrayLen ROLEARRLENGTH ;!
  write_i8 id_CacheableASCIIString ;!
  writeASCII dsname 0 ;!
  write_i8 id_CacheableASCIIString ;!
  writeASCII uniqueTag 0 ;!
  match durableClientId with
  | Some _ =>
      if negb (durableClntTimeOut =? 0) then
        write_i8 id_CacheableASCIIString ;!
        writeASCII durableClientId 0 ;!
        writeInt_i32 (i32 durableClntTimeOut)
      else ret tt
  | None => ret tt
  end ;!
  writeVersion Version_ordinal.

(** [initObjectVars] on the object [this]; the state is its local
    [DataOutput]. *)
Definition initObjectVars (synch_counter : Z) (this : ClientProxyMembershipID)
    (hostname : option (list Z)) (hostAddr : list Z) (hostAddrLen : Z)
    (hostAddrLocalMem : bool) (hostPort : Z) (durableClientId : option (list Z))
    (durableClntTimeOut dcPort vPID vmkind splitBrainFlag : Z)
    (dsname uniqueTag : option (list Z)) (vmViewId : Z)
    : M DataOutput ClientProxyMembershipID :=
  let! m_dsname' :=
    match dsname with None => ret [] | Some _ => charsOf dsname end in
  let! m_uniqueTag' :=
    match uniqueTag with None => ret [] | Some _ => charsOf uniqueTag end in
  writeMemberID synch_counter hostname hostAddr durableClientId
    durableClntTimeOut dcPort vPID vmkind splitBrainFlag dsname uniqueTag ;!
  let! m_memID := get in
  let! host := charsOf hostname in
  let! addr := loadN hostAddrLen hostAddr in
  ret (mkMember
    (m_memIDStr this ++ getBuffer m_memID)
    (m_clientID this ++ host ++ [40] ++ itoa vPID 10 ++
      [58; 108; 111; 110; 101; 114; 41; 58] ++ itoa synch_counter 10 ++
      colon ++ m_uniqueTag' ++ colon ++ m_dsname')
    m_dsname' hostPort (Some hostAddr) hostAddrLen m_uniqueTag'
    (m_hashKey this ++ hashKeyOf addr hostPort m_dsname' m_uniqueTag' vmViewId)
    hostAddrLocalMem vmViewId).

(** Run code with its own local [DataOutput]. *)
Definition withOutput {A} (o : DataOutput) (m : M DataOutput A)
    : M DataInput A := λ i,
  match m o with
  | (Ok a, _) => (Ok a, i)
  | (Throw e, _) => (Throw e, i)
  | (UB, _) => (UB, i)
  end.

(** [new uint8_t[len]] followed by [readBytesOnly(hostAddr, len)]. *)
Definition readHostAddr (len : Z) : M DataInput (list Z) :=
  if len <? 0 then throw BadArrayNewLength else readBytesOnly (u32 len).

(** [str->asChar()] on a deserialized string object. *)
Definition asChar (p : option (option (list Z))) : M DataInput (option (list Z)) :=
  match p with Some q => ret q | None => undefined end.

Definition readEssentialData (synch_counter : Z) (o : DataOutput)
    (this : ClientProxyMembershipID) : M DataInput ClientProxyMembershipID :=
  let! len := readArrayLen in
  let! hostAddr := readHostAddr len in
  let! hostPort := readInt_i32 in
  let! flag := read_u8 in
  let! vmKind := read_i8 in
  if vmKind =? LONER_DM_TYPE then
    let! uniqueTag := readCacheableString in
    let! dsName := readCacheableString in
    let! ds := asChar dsName in
    let! tag := asChar uniqueTag in
    let! this' := withOutput o (initObjectVars synch_counter this (Some [0])
      hostAddr len true (u32 hostPort) (Some [0]) 0 DCPORT 0 vmKind 0 ds tag 0) in
    readAdditionalData ;!
    ret this'
  else
    let! vmViewIdstr := readCacheableString in
    let! str := asChar vmViewIdstr in
    let! chars := charsOf str in
    let! vmViewId := lift (atoi chars) in
    let! dsName := readCacheableString in
    let! ds := asChar dsName in
    let! this' := withOutput o (initObjectVars synch_counter this (Some [0])
      hostAddr len true (u32 hostPort) (Some [0]) 0 DCPORT 0 vmKind 0 ds None
      (u32 vmViewId)) in
    readAdditionalData ;!
    ret this'.

(** The address comparison loop, over this object's length only. *)
Fixpoint compareAddr (n : nat) (my other : list Z) : outcome Z :=
  match n with
  | O => Ok 0
  | S n' =>
      match my, other with
      | a :: my', b :: other' =>
          if a <? b then Ok (-1) else if b <? a then Ok 1
          else compareAddr n' my' other'
      | _, _ => UB
      end
  end.

Definition compareTags (this other : ClientProxyMembershipID) : Z :=
  match m_uniqueTag this, m_uniqueTag other with
  | [], [] =>
      if m_vmViewId this <? m_vmViewId other then -1
      else if m_vmViewId other <? m_vmViewId this then 1 else 0
  | [], _ => -1
  | _, [] => 1
  | a, b => i16 (string_compare a b)
  end.

Definition compareTo_client (this other : ClientProxyMembershipID) : outcome Z :=
  if m_hostPort this <? m_hostPort other then Ok (-1)
  else if m_hostPort other <? m_hostPort this then Ok 1
  else
    match m_hostAddr this, m_hostAddr other with
    | None, None => Ok 0
    | None, _ => Ok (-1)
    | _, None => Ok 1
    | Some myAddr, Some otherAddr =>
        match compareAddr (Z.to_nat (m_hostAddrLen this)) myAddr otherAddr with
        | Ok 0 => Ok (compareTags this other)
        | r => r
        end
    end.

(** [int64_t] subtraction; overflow is undefined. *)
Definition sub_i64 (a b : Z) : outcome Z :=
  if (- 2 ^ 63 <=? a - b) && (a - b <? 2 ^ 63) then Ok (a - b) else UB.

Definition compareTo_disk (mostSig leastSig otherMost otherLeast : Z)
    : outcome Z :=
  match sub_i64 mostSig otherMost with
  | Ok result =>
      match (if result =? 0 then sub_i64 leastSig otherLeast else Ok result) with
      | Ok result =>
          if result <? 0 then Ok (-1) else if 0 <? result then Ok 1 else Ok 0
      | r => r
      end
  | r => r
  end.

(** The virtual [compareTo]; [same] is [this == &other].  Each class casts the
    argument to its own type. *)
Definition compareTo (same : bool) (this other : DSMember) : outcome Z :=
  match this, other with
  | ClientMember a, ClientMember b =>
      if same then Ok 0 else compareTo_client a b
  | DiskStoreId m l, DiskStoreId m' l' => compareTo_disk m l m' l'
  | _, _ => UB
  end.

(** [%PRIx64] of an [int64_t]. *)
Fixpoint hexDigits (fuel : nat) (v : Z) : list Z :=
  match fuel with
  | O => []
  | S fuel' =>
      (if v <? 16 then [] else hexDigits fuel' (v / 16)) ++
      [if v mod 16 <? 10 then 48 + v mod 16 else 87 + v mod 16]
  end.

Definition PRIx64 (v : Z) : list Z := hexDigits 16 (u64 v).

Definition getHashKey (m : DSMember) : list Z :=
  match m with
  | ClientMember c => m_hashKey c
  | DiskStoreId mostSig leastSig => PRIx64 mostSig ++ [95] ++ PRIx64 leastSig
  end.

Definition DiskStoreId_fromData : M DataInput DSMember :=
  let! mostSig := readInt_i64 in
  let! leastSig := readInt_i64 in
  ret (DiskStoreId mostSig leastSig).

(** ** MemberListForVersionStamp *)

(** [m_members1] by number, [m_members2] by hash key with the number it was
    stored under, and the counter. *)
Record MemberList := mkMemberList {
  m_members1 : gmap Z DSMember;
  m_members2 : gmap (list Z) (DSMember * Z);
  m_memberCounter : Z
}.

Definition newMemberList : MemberList := mkMemberList ∅ ∅ 0.

Definition ml_add (member : DSMember) (l : MemberList) : Z * MemberList :=
  match m_members2 l !! getHashKey member with
  | Some (_, identifier) => (identifier, l)
  | None =>
      let counter := u32 (m_memberCounter l + 1) in
      (u16 counter,
       mkMemberList (<[counter := member]> (m_members1 l))
         (<[getHashKey member := (member, u16 counter)]> (m_members2 l)) counter)
  end.

Definition getDSMember (memberId : Z) (l : MemberList) : option DSMember :=
  m_members1 l !! memberId.
End Membership.

(** ** Ordering of members *)

Section Ordering.
Context `{Allocator} `{Platform}.

(** What [initObjectVars] establishes, plus tags short enough that the
    [int16_t] result of [compareTo] keeps the sign of the comparison. *)
Record member_wf (c : ClientProxyMembershipID) : Prop := {
  wf_addrLen : 0 ≤ m_hostAddrLen c;
  wf_addr : ∀ a, m_hostAddr c = Some a → m_hostAddrLen c ≤ Z.of_nat (length a);
  wf_tag : Z.of_nat (length (m_uniqueTag c)) < 2 ^ 15;
  wf_tagBytes : Forall (in_u 8) (m_uniqueTag c)
}.

Lemma string_compare_range a b :
  Z.of_nat (length a) < 2 ^ 15 → Z.of_nat (length b) < 2 ^ 15 →
  Forall (in_u 8) a → Forall (in_u 8) b → in_s 16 (string_compare a b).
Proof.
  intros Ha Hb Fa Fb. revert b Hb Fb.
  induction Fa as [|x a Hx Fa IH]; intros b Hb Fb; destruct Fb as [|y b Hy Fb];
    cbn [string_compare length] in *; unfold in_s, in_u in *; try lia.
  destruct (x =? y); [apply IH; lia || done|lia].
Qed.

Lemma string_compare_antisym a b : string_compare b a = - string_compare a b
  ∨ 2 ^ 15 ≤ Z.of_nat (length a) ∨ 2 ^ 15 ≤ Z.of_nat (length b).
Proof.
  revert b. induction a as [|x a IH]; intros [|y b]; cbn [string_compare length];
    try lia.
  rewrite (Z.eqb_sym y x). destruct (Z.eqb_spec x y); [|lia].
  destruct (IH b) as [?|?]; [by left|lia].
Qed.

Lemma string_compare_zero a b :
  Z.of_nat (length a) < 2 ^ 15 → Z.of_nat (length b) < 2 ^ 15 →
  string_compare a b = 0 ↔ a = b.
Proof.
  revert b. induction a as [|x a IH]; intros [|y b] Ha Hb;
    cbn [string_compare length] in *; try (split; [lia|done]); [done|].
  destruct (Z.eqb_spec x y) as [->|Hn].
  - rewrite IH by lia. split; [by intros ->|by intros [=]].
  - split; [lia|]. intros [=]. congruence.
Qed.

Lemma compareAddr_spec n a b :
  (n ≤ length a)%nat → (n ≤ length b)%nat →
  ∃ c, compareAddr n a b = Ok c ∧ compareAddr n b a = Ok (- c) ∧
    (c = 0 ↔ take n a = take n b) ∧ -1 ≤ c ≤ 1.
Proof.
  revert a b. induction n as [|n IH]; intros a b Ha Hb.
  { exists 0. split_and!; try done. }
  destruct a as [|x a]; [simpl in Ha; lia|].
  destruct b as [|y b]; [simpl in Hb; lia|]. cbn [compareAddr take].
  destruct (Z.ltb_spec x y).
  { exists (-1). rewrite (proj2 (Z.ltb_ge y x)) by lia.
    split_and!; try done. split; [lia|]. intros [= -> _]. lia. }
  destruct (Z.ltb_spec y x).
  { exists 1. split_and!; try done. split; [lia|]. intros [= -> _]. lia. }
  assert (x = y) as -> by lia.
  destruct (IH a b) as (c & E1 & E2 & E3 & E4); [simpl in *; lia..|].
  exists c. split_and!; try done; try lia. rewrite E3.
  split; [by intros ->|by intros [=]].
Qed.

(** What [compareTo] looks at. *)
Definition sameIdentity (a b : ClientProxyMembershipID) : Prop :=
  m_hostPort a = m_hostPort b ∧
  take (Z.to_nat (m_hostAddrLen a)) <$> m_hostAddr a =
    take (Z.to_nat (m_hostAddrLen a)) <$> m_hostAddr b ∧
  (m_hostAddr a = None ∨
   (m_uniqueTag a = m_uniqueTag b ∧
    (m_uniqueTag a = [] → m_vmViewId a = m_vmViewId b))).

Lemma compareTags_spec a b :
  member_wf a → member_wf b →
  compareTags b a = - compareTags a b ∧
  (compareTags a b = 0 ↔ m_uniqueTag a = m_uniqueTag b ∧
    (m_uniqueTag a = [] → m_vmViewId a = m_vmViewId b)).
Proof.
  intros [_ _ Ha Fa] [_ _ Hb Fb]. unfold compareTags.
  pose proof (string_compare_range _ _ Ha Hb Fa Fb) as Hr.
  pose proof (string_compare_range _ _ Hb Ha Fb Fa) as Hr'.
  pose proof (string_compare_zero _ _ Ha Hb) as Hz.
  destruct (string_compare_antisym (m_uniqueTag a) (m_uniqueTag b)) as [E|[?|?]];
    [|lia..].
  destruct (m_uniqueTag a) as [|x ta], (m_uniqueTag b) as [|y tb].
  - destruct (Z.ltb_spec (m_vmViewId a) (m_vmViewId b));
      destruct (Z.ltb_spec (m_vmViewId b) (m_vmViewId a)); naive_solver lia.
  - naive_solver lia.
  - naive_solver lia.
  - unfold i16. rewrite !swrap_id by done. rewrite E, Hz. naive_solver lia.
Qed.

(** [compareTo] is total and antisymmetric on members with addresses of one
    length, and 0 exactly on members with the same identity. *)
Lemma compareTo_client_spec a b :
  member_wf a → member_wf b → m_hostAddrLen a = m_hostAddrLen b →
  ∃ c, compareTo_client a b = Ok c ∧ compareTo_client b a = Ok (- c) ∧
    (c = 0 ↔ sameIdentity a b).
Proof.
  intros Ha Hb El. unfold compareTo_client, sameIdentity.
  destruct (Z.ltb_spec (m_hostPort a) (m_hostPort b)).
  { exists (-1). rewrite (proj2 (Z.ltb_ge (m_hostPort b) _)) by lia.
    split_and!; try done. split; [lia|]. intros (? & _). lia. }
  destruct (Z.ltb_spec (m_hostPort b) (m_hostPort a)).
  { exists 1. split_and!; try done. split; [lia|]. intros (? & _). lia. }
  assert (m_hostPort a = m_hostPort b) as Ep by lia.
  destruct (compareTags_spec a b Ha Hb) as [Ht1 Ht2].
  destruct Ha as [Hal Haa _ _], Hb as [Hbl Hba _ _].
  destruct (m_hostAddr a) as [ma|], (m_hostAddr b) as [mb|].
  - rewrite <- El. destruct (compareAddr_spec (Z.to_nat (m_hostAddrLen a)) ma mb)
      as (c & -> & -> & E & Hc).
    { specialize (Haa ma eq_refl). lia. }
    { specialize (Hba mb eq_refl). lia. }
    destruct (Z.eq_dec c 0) as [->|Hn].
    + exists (compareTags a b). simpl. rewrite Ht1. split_and!; try done.
      rewrite Ht2. simpl. split.
      * intros ?. split_and!; [done|f_equal; by apply E|by right].
      * intros (_ & _ & [?|?]); done.
    + exists c. assert (c = -1 ∨ c = 1) as [-> | ->] by lia; split_and!; try done;
        (split; [lia|]); intros (_ & E' & _); simpl in E'; simplify_eq;
        by apply E in E'.
  - exists 1. naive_solver.
  - exists (-1). naive_solver.
  - exists 0. split_and!; try done. naive_solver.
Qed.
(** Transitivity, strict as soon as one of the two steps is. *)
Lemma string_compare_trans a b c :
  Z.of_nat (length a) < 2 ^ 15 → Z.of_nat (length b) < 2 ^ 15 →
  Z.of_nat (length c) < 2 ^ 15 →
  string_compare a b ≤ 0 → string_compare b c ≤ 0 →
  string_compare a c ≤ 0 ∧
  (string_compare a c = 0 → string_compare a b = 0 ∧ string_compare b c = 0).
Proof.
  revert b c. induction a as [|x a IH]; intros [|y b] [|z c] Ha Hb Hc;
    cbn [string_compare length] in *; try lia.
  destruct (Z.eqb_spec x y) as [->|]; destruct (Z.eqb_spec y z) as [->|];
    repeat case_match; intros; try lia; apply IH; lia.
Qed.

Lemma compareAddr_trans n a b c r1 r2 r3 :
  compareAddr n a b = Ok r1 → compareAddr n b c = Ok r2 →
  compareAddr n a c = Ok r3 → r1 ≤ 0 → r2 ≤ 0 →
  r3 ≤ 0 ∧ (r3 = 0 → r1 = 0 ∧ r2 = 0).
Proof.
  revert a b c. induction n as [|n IH]; intros [|x a] [|y b] [|z c]; simpl;
    try (intros; simplify_eq; lia); try done.
  repeat case_match; intros; simplify_eq; try lia; by eapply IH.
Qed.

Lemma compareTags_trans a b c :
  member_wf a → member_wf b → member_wf c →
  compareTags a b ≤ 0 → compareTags b c ≤ 0 →
  compareTags a c ≤ 0 ∧ (compareTags a c = 0 → compareTags a b = 0 ∧ compareTags b c = 0).
Proof.
  intros [_ _ Ha Fa] [_ _ Hb Fb] [_ _ Hc Fc]. unfold compareTags, i16.
  pose proof (string_compare_trans _ _ _ Ha Hb Hc) as Ht.
  pose proof (string_compare_range _ _ Ha Hb Fa Fb).
  pose proof (string_compare_range _ _ Hb Hc Fb Fc).
  pose proof (string_compare_range _ _ Ha Hc Fa Fc).
  destruct (m_uniqueTag a), (m_uniqueTag b), (m_uniqueTag c); try lia.
  - destruct (Z.ltb_spec (m_vmViewId a) (m_vmViewId b)), (Z.ltb_spec (m_vmViewId b) (m_vmViewId a)),
      (Z.ltb_spec (m_vmViewId b) (m_vmViewId c)), (Z.ltb_spec (m_vmViewId c) (m_vmViewId b)),
      (Z.ltb_spec (m_vmViewId a) (m_vmViewId c)), (Z.ltb_spec (m_vmViewId c) (m_vmViewId a)); lia.
  - by rewrite !swrap_id by done.
Qed.

Lemma compareTo_client_trans a b c r1 r2 r3 :
  member_wf a → member_wf b → member_wf c →
  m_hostAddrLen a = m_hostAddrLen b → m_hostAddrLen b = m_hostAddrLen c →
  compareTo_client a b = Ok r1 → compareTo_client b c = Ok r2 →
  compareTo_client a c = Ok r3 → r1 < 0 → r2 < 0 → r3 < 0.
Proof.
  intros Ha Hb Hc E1 E2. unfold compareTo_client. rewrite <- E1.
  pose proof (compareTags_trans a b c Ha Hb Hc) as Ht.
  destruct (Z.ltb_spec (m_hostPort a) (m_hostPort b)),
    (Z.ltb_spec (m_hostPort b) (m_hostPort a)),
    (Z.ltb_spec (m_hostPort b) (m_hostPort c)),
    (Z.ltb_spec (m_hostPort c) (m_hostPort b)),
    (Z.ltb_spec (m_hostPort a) (m_hostPort c)),
    (Z.ltb_spec (m_hostPort c) (m_hostPort a)); try lia; intros; simplify_eq;
    try lia.
  destruct (m_hostAddr a) as [ma|], (m_hostAddr b) as [mb|],
    (m_hostAddr c) as [mc|]; simplify_eq; try lia.
  destruct (compareAddr _ ma mb) as [x| |] eqn:Eab; simplify_eq.
  destruct (compareAddr _ mb mc) as [y| |] eqn:Ebc; simplify_eq.
  destruct (compareAddr _ ma mc) as [z| |] eqn:Eac; simplify_eq.
  pose proof (compareAddr_trans _ _ _ _ _ _ _ Eab Ebc Eac) as Hz.
  destruct x, y, z; simplify_eq; lia.
Qed.
End Ordering.

(** ** The member list *)

Record ml_wf (l : MemberList) : Prop := {
  ml_counter : 0 ≤ m_memberCounter l < 2 ^ 16;
  ml_by_id : ∀ id m, m_members1 l !! id = Some m →
    1 ≤ id ≤ m_memberCounter l ∧ m_members2 l !! getHashKey m = Some (m, id);
  ml_by_key : ∀ k m id, m_members2 l !! k = Some (m, id) →
    k = getHashKey m ∧ m_members1 l !! id = Some m
}.

Lemma newMemberList_wf : ml_wf newMemberList.
Proof.
  split; simpl; [lia|..]; intros; rewrite lookup_empty in *; done.
Qed.

Lemma ml_add_wf m l :
  ml_wf l → m_memberCounter l < 65535 → ml_wf (ml_add m l).2.
Proof.
  intros [Hc Hid Hkey] Hlt. unfold ml_add.
  destruct (m_members2 l !! getHashKey m) as [[m0 id0]|] eqn:E; [by split|].
  assert (u32 (m_memberCounter l + 1) = m_memberCounter l + 1) as ->
    by (apply uwrap_id; split; lia).
  assert (u16 (m_memberCounter l + 1) = m_memberCounter l + 1) as ->
    by (apply uwrap_id; split; lia).
  split; cbn [m_members1 m_members2 m_memberCounter snd]; [lia|..].
  - intros id m1 [[<- <-]|[Hne Hl]]%lookup_insert_Some.
    + rewrite lookup_insert_eq. split; [lia|done].
    + apply Hid in Hl as [? Hl]. split; [lia|].
      rewrite lookup_insert_ne; [done|]. intros Ek. rewrite Ek, Hl in E. done.
  - intros k m1 id [[<- [= <- <-]]|[Hne Hl]]%lookup_insert_Some.
    + by rewrite lookup_insert_eq.
    + apply Hkey in Hl as [? Hl]. split; [done|]. rewrite lookup_insert_ne; [done|].
      apply Hid in Hl as [? _]. lia.
Qed.

(** [add] returns a number under which the list knows the member's identity,
    and never renumbers a member. *)
Lemma ml_add_lookup m l :
  ml_wf l → m_memberCounter l < 65535 →
  let (id, l') := ml_add m l in
  id ≠ 0 ∧
  (∃ m', getDSMember id l' = Some m' ∧ getHashKey m' = getHashKey m ∧
     (m_members2 l !! getHashKey m = None → m' = m)) ∧
  ∀ id0 m0, getDSMember id0 l = Some m0 → getDSMember id0 l' = Some m0.
Proof.
  intros [Hc Hid Hkey] Hlt. unfold ml_add, getDSMember.
  destruct (m_members2 l !! getHashKey m) as [[m0 id0]|] eqn:E.
  - apply Hkey in E as [E Hl]. split_and!; [|by exists m0|done].
    apply Hid in Hl as [? _]. lia.
  - assert (u32 (m_memberCounter l + 1) = m_memberCounter l + 1) as ->
      by (apply uwrap_id; split; lia).
    assert (u16 (m_memberCounter l + 1) = m_memberCounter l + 1) as ->
      by (apply uwrap_id; split; lia).
    cbn [m_members1]. split_and!; [lia| |].
    + exists m. by rewrite lookup_insert_eq.
    + intros id1 m1 Hl. rewrite lookup_insert_ne; [done|].
      apply Hid in Hl as [? _]. lia.
Qed.
