(* ===== verification/Version.v ===== *)
(** * Version tags, version stamps and conflict detection

    Models VersionTag.cpp/.hpp, DiskVersionTag.hpp, VersionStamp.cpp/.hpp: the
    version information that comes with every server update, the stamp kept
    on a cached entry, and the check that decides whether an update is newer
    than what the cache holds.  Also the error codes of geode_base.hpp, which
    the cache operations return. *)

From S2P Require Import Prelude DataOutput DataInput Membership.

(** ** Error codes *)

Inductive GfErrType : Type :=
  | GF_NOERR
  | GF_CACHE_ILLEGAL_ARGUMENT_EXCEPTION
  | GF_CACHE_ILLEGAL_STATE_EXCEPTION
  | GF_CACHE_ENTRY_DESTROYED_EXCEPTION
  | GF_CACHE_CONCURRENT_MODIFICATION_EXCEPTION
  | GF_CACHE_ENTRY_NOT_FOUND
  | GF_CACHE_ENTRY_EXISTS
  | GF_CACHE_ENTRY_UPDATED
  | GF_INVALID_DELTA
  | GF_ENOENT
  | GF_DISKFULL
  | GF_EUNDEF
  | GF_NOTSUP
  | GF_CACHE_REGION_DESTROYED_EXCEPTION
  | GF_CACHEWRITER_ERROR
  | GF_CACHE_LISTENER_EXCEPTION
  | GF_CACHE_LOADER_EXCEPTION
  | GF_SERVER (code : Z).

#[global] Instance GfErrType_eq_dec : EqDecision GfErrType.
Proof. solve_decision. Defined.

(** ** Version tags *)

Record VersionTag := mkVersionTag {
  vt_bits : Z;
  vt_entryVersion : Z;
  vt_regionVersionHighBytes : Z;
  vt_regionVersionLowBytes : Z;
  vt_internalMemId : Z;
  vt_previousMemId : Z;
  vt_timeStamp : Z
}.

Definition newVersionTag : VersionTag := mkVersionTag 0 0 0 0 0 0 0.

Definition HAS_MEMBER_ID : Z := 1.
Definition HAS_PREVIOUS_MEMBER_ID : Z := 2.
Definition VERSION_TWO_BYTES : Z := 4.
Definition DUPLICATE_MEMBER_IDS : Z := 8.
Definition HAS_RVV_HIGH_BYTE : Z := 16.

Definition hasFlag (flags bit : Z) : bool := negb (Z.land flags bit =? 0).

Definition replaceNullMemberId (memId : Z) (t : VersionTag) : VersionTag :=
  mkVersionTag (vt_bits t) (vt_entryVersion t) (vt_regionVersionHighBytes t)
    (vt_regionVersionLowBytes t)
    (if vt_internalMemId t =? 0 then memId else vt_internalMemId t)
    (if vt_previousMemId t =? 0 then memId else vt_previousMemId t)
    (vt_timeStamp t).

(** The state of deserialization: the input and the member list of the cache. *)
Record TagInput := mkTagInput { ti_input : DataInput; ti_members : MemberList }.

Definition fromInput {A} (m : M DataInput A) : M TagInput A := λ s,
  let (r, i) := m (ti_input s) in (r, mkTagInput i (ti_members s)).

Definition addMember (m : DSMember) : M TagInput Z := λ s,
  let (id, l) := ml_add m (ti_members s) in (Ok id, mkTagInput (ti_input s) l).

(** [VersionTag::toData] and [DiskStoreId::toData]. *)
Definition VersionTag_toData {A} : M DataOutput A := throw IllegalStateException.

Section VersionTag.
(** [ClientProxyMembershipID::readEssentialData] for [VersionTag],
    [DiskStoreId::fromData] for [DiskVersionTag]. *)
Variable readMember : M DataInput DSMember.

(** [readMembers], returning the new [m_internalMemId] and
    [m_previousMemId]. *)
Definition readMembers (flags : Z) (t : VersionTag) : M TagInput (Z * Z) :=
  let! internalMemId :=
    if hasFlag flags HAS_MEMBER_ID then
      let! m := fromInput readMember in addMember m
    else ret (vt_internalMemId t) in
  let! previousMemId :=
    if hasFlag flags HAS_PREVIOUS_MEMBER_ID then
      if hasFlag flags DUPLICATE_MEMBER_IDS then ret internalMemId
      else let! m := fromInput readMember in addMember m
    else ret (vt_previousMemId t) in
  ret (internalMemId, previousMemId).

Definition VersionTag_fromData (t : VersionTag) : M TagInput VersionTag :=
  let! flags := fromInput readInt_u16 in
  let! bits := fromInput readInt_u16 in
  let! distributedSystemId := fromInput read_i8 in
  let! entryVersion :=
    if hasFlag flags VERSION_TWO_BYTES then
      let! tempVar := fromInput readInt_i16 in ret (Z.land tempVar 65535)
    else
      let! v := fromInput readInt_i32 in ret (i32 (Z.land v 4294967295)) in
  let! high :=
    if hasFlag flags HAS_RVV_HIGH_BYTE then fromInput readInt_i16
    else ret (vt_regionVersionHighBytes t) in
  let! low := fromInput readInt_i32 in
  let! timeStamp := fromInput readUnsignedVL in
  let! ids := readMembers flags t in
  ret (mkVersionTag bits entryVersion high low ids.1 ids.2 timeStamp).
End VersionTag.

(** ** Version stamps *)

Record VersionStamp := mkVersionStamp {
  vs_memberID : Z;
  vs_entryVersionHighByte : Z;
  vs_entryVersionLowBytes : Z;
  vs_regionVersionHighBytes : Z;
  vs_regionVersionLowBytes : Z
}.

Definition newVersionStamp : VersionStamp := mkVersionStamp 0 0 0 0 0.

(** [setVersions(VersionTagPtr)] *)
Definition setVersions (t : VersionTag) : VersionStamp :=
  let eVersion := vt_entryVersion t in
  mkVersionStamp (vt_internalMemId t)
    (u8 (Z.shiftr (Z.land eVersion 16711680) 16))
    (u16 (Z.land eVersion 65535))
    (u16 (vt_regionVersionHighBytes t))
    (u32 (vt_regionVersionLowBytes t)).

Definition getEntryVersion (s : VersionStamp) : Z :=
  Z.lor (Z.shiftl (vs_entryVersionHighByte s) 16) (vs_entryVersionLowBytes s).

Definition getRegionVersion (s : VersionStamp) : Z :=
  Z.lor (Z.shiftl (vs_regionVersionHighBytes s) 32) (vs_regionVersionLowBytes s).

(** What the checks use of the region and the cache: the member list, the
    conflated-events statistic, and the pool whose delta-failure statistic is
    updated, if the region has one. *)
Record VersionEnv := mkVersionEnv {
  ve_memberList : MemberList;
  ve_conflatedEvents : Z;
  ve_deltaFailures : option Z
}.

Definition updateNotificationStats_failure (e : VersionEnv) : VersionEnv :=
  mkVersionEnv (ve_memberList e) (ve_conflatedEvents e)
    ((λ n, n + 1) <$> ve_deltaFailures e).

Definition incConflatedEvents (e : VersionEnv) : VersionEnv :=
  mkVersionEnv (ve_memberList e) (ve_conflatedEvents e + 1) (ve_deltaFailures e).

(** [a->compareTo(b)] on the members numbered [ida] and [idb]: the list holds
    one object per number. *)
Definition compareMembers (ida idb : Z) (a b : DSMember) : M VersionEnv Z :=
  λ e, (compareTo (ida =? idb) a b, e).

Definition checkForDeltaConflict (s : VersionStamp) (stampVersion tagVersion : Z)
    (tag : VersionTag) : M VersionEnv GfErrType :=
  let! e := get in
  let invalid := modify updateNotificationStats_failure ;! ret GF_INVALID_DELTA in
  if negb (tagVersion =? stampVersion + 1) then invalid
  else
    match getDSMember (vs_memberID s) (ve_memberList e) with
    | None => invalid
    | Some stampID =>
        match getDSMember (vt_previousMemId tag) (ve_memberList e) with
        | None => invalid
        | Some tagID =>
            let! c := compareMembers (vt_previousMemId tag) (vs_memberID s)
                        tagID stampID in
            if negb (c =? 0) then invalid else ret GF_NOERR
        end
    end.

(** The versions compared, after the wrap-around correction. *)
Definition rolledVersions (stampVersion tagVersion : Z) : Z * Z :=
  if negb (stampVersion =? 0) then
    let difference := tagVersion - stampVersion in
    if (65536 <? difference) || (difference <? -65536) then
      let temp := 4294967296 in
      if difference <? 0 then (stampVersion, tagVersion + temp)
      else (stampVersion + temp, tagVersion)
    else (stampVersion, tagVersion)
  else (stampVersion, tagVersion).

Definition stampAbsent (s : VersionStamp) : bool :=
  (getEntryVersion s =? 0) && (getRegionVersion s =? 0) && (vs_memberID s =? 0).

Definition tagAbsent (t : VersionTag) : bool :=
  (vt_entryVersion t =? 0) && (vt_regionVersionHighBytes t =? 0) &&
  (vt_regionVersionLowBytes t =? 0) && (vt_internalMemId t =? 0).

Definition conflict : M VersionEnv GfErrType :=
  modify incConflatedEvents ;! ret GF_CACHE_CONCURRENT_MODIFICATION_EXCEPTION.

Definition checkForConflict (s : VersionStamp) (tag : VersionTag)
    (deltaCheck : bool) : M VersionEnv GfErrType :=
  if stampAbsent s then ret GF_NOERR
  else if tagAbsent tag then ret GF_NOERR
  else
    let '(stampVersion, tagVersion) :=
      rolledVersions (Z.land (getEntryVersion s) 4294967295)
        (Z.land (vt_entryVersion tag) 4294967295) in
    let! err :=
      if deltaCheck then checkForDeltaConflict s stampVersion tagVersion tag
      else ret GF_NOERR in
    if negb (bool_decide (err = GF_NOERR)) then ret err
    else if (stampVersion =? 0) || (stampVersion <? tagVersion) then ret GF_NOERR
    else if tagVersion <? stampVersion then conflict
    else
      let! e := get in
      match getDSMember (vs_memberID s) (ve_memberList e) with
      | None => ret GF_CACHE_ILLEGAL_STATE_EXCEPTION
      | Some stampID =>
          match getDSMember (vt_internalMemId tag) (ve_memberList e) with
          | None => ret GF_CACHE_ILLEGAL_STATE_EXCEPTION
          | Some tagID =>
              let! compare := compareMembers (vs_memberID s)
                                (vt_internalMemId tag) stampID tagID in
              if compare <? 0 then ret GF_NOERR
              else if 0 <? compare then conflict
              else ret GF_NOERR
          end
      end.

Definition processVersionTag (s : VersionStamp) (tag : option VersionTag)
    (deltaCheck : bool) : M VersionEnv GfErrType :=
  match tag with
  | None => ret GF_CACHE_ILLEGAL_STATE_EXCEPTION
  | Some t => checkForConflict s t deltaCheck
  end.

(** ** Stamps keep the low 24 bits of the entry version *)

Lemma shiftr_land_byte2 v : Z.shiftr (Z.land v 16711680) 16 = (v / 65536) mod 256.
Proof.
  rewrite Z.shiftr_land. change (Z.shiftr 16711680 16) with (2 ^ 8 - 1).
  rewrite land_ones' by lia. by rewrite Z.shiftr_div_pow2 by lia.
Qed.

Lemma land_u32 v : Z.land v 4294967295 = v mod 2 ^ 32.
Proof. change 4294967295 with (2 ^ 32 - 1). by apply land_ones'. Qed.

Lemma getEntryVersion_setVersions t :
  getEntryVersion (setVersions t) = vt_entryVersion t mod 2 ^ 24.
Proof.
  unfold getEntryVersion, setVersions. cbn -[Z.pow].
  rewrite shiftr_land_byte2. change 65535 with (2 ^ 16 - 1).
  rewrite land_ones' by lia. unfold u8, u16, uwrap.
  change (2 ^ 8) with 256. change (2 ^ 16) with 65536.
  rewrite !Z.mod_mod by lia.
  rewrite lor_shiftl_low by (try apply Z.mod_pos_bound; lia).
  change (2 ^ 16) with 65536. change (2 ^ 24) with (65536 * 256).
  rewrite (Z.rem_mul_r _ 65536 256) by lia. lia.
Qed.

Lemma getRegionVersion_setVersions t :
  getRegionVersion (setVersions t) =
  u16 (vt_regionVersionHighBytes t) * 2 ^ 32 + u32 (vt_regionVersionLowBytes t).
Proof.
  unfold getRegionVersion, setVersions. cbn -[Z.pow].
  apply lor_shiftl_low; [lia|]. by apply uwrap_range.
Qed.

(** ** Which of two versions is newer *)

(** Entry versions are 24-bit counters: [v] is newer than [w] when it is at
    most 2^16 steps ahead on the circle. *)
Definition newer (v w : Z) : Prop := 0 < (v - w) mod 2 ^ 24 ≤ 65536.

Lemma rolledVersions_newer s t :
  0 < s < 2 ^ 24 → 0 ≤ t < 2 ^ 24 → newer t s →
  let '(s', t') := rolledVersions s t in s' = s ∧ s' < t'.
Proof.
  unfold newer, rolledVersions. intros Hs Ht Hn.
  rewrite (proj2 (Z.eqb_neq s 0)) by lia. cbn [negb]. cbv zeta.
  assert (0 < t - s ≤ 65536 ∨ t - s < -65536) as [Hd|Hd]
    by (Z.div_mod_to_equations; lia).
  - rewrite (proj2 (Z.ltb_ge 65536 _)), (proj2 (Z.ltb_ge _ (-65536))) by lia.
    simpl. lia.
  - rewrite (proj2 (Z.ltb_lt _ (-65536))), orb_true_r by lia.
    rewrite (proj2 (Z.ltb_lt _ 0)) by lia. lia.
Qed.

Lemma rolledVersions_older s t :
  0 < s < 2 ^ 24 → 0 ≤ t < 2 ^ 24 → newer s t →
  let '(s', t') := rolledVersions s t in 0 < s' ∧ t' < s'.
Proof.
  unfold newer, rolledVersions. intros Hs Ht Hn.
  rewrite (proj2 (Z.eqb_neq s 0)) by lia. cbn [negb]. cbv zeta.
  assert (-65536 ≤ t - s < 0 ∨ 65536 < t - s) as [Hd|Hd]
    by (Z.div_mod_to_equations; lia).
  - rewrite (proj2 (Z.ltb_ge 65536 _)), (proj2 (Z.ltb_ge _ (-65536))) by lia.
    simpl. lia.
  - rewrite (proj2 (Z.ltb_lt 65536 _)) by lia.
    rewrite (proj2 (Z.ltb_ge _ 0)) by lia. simpl. lia.
Qed.

Lemma rolledVersions_same s : rolledVersions s s = (s, s).
Proof. unfold rolledVersions. by rewrite Z.sub_diag; destruct (s =? 0). Qed.

(** A stamp or tag with a member is present. *)
Lemma stamp_present s : vs_memberID s ≠ 0 → stampAbsent s = false.
Proof.
  intros. unfold stampAbsent. rewrite (proj2 (Z.eqb_neq (vs_memberID s) 0)) by done.
  by rewrite andb_false_r.
Qed.

Lemma tag_present t : vt_internalMemId t ≠ 0 → tagAbsent t = false.
Proof.
  intros. unfold tagAbsent.
  rewrite (proj2 (Z.eqb_neq (vt_internalMemId t) 0)) by done.
  by rewrite andb_false_r.
Qed.

Section Check.
Variables (s : VersionStamp) (t : VersionTag) (e : VersionEnv).
Hypothesis (Hs : vs_memberID s ≠ 0) (Hsv : 0 < getEntryVersion s < 2 ^ 24).
Hypothesis (Ht : vt_internalMemId t ≠ 0) (Htv : 0 ≤ vt_entryVersion t < 2 ^ 24).

Lemma check_unfold :
  checkForConflict s t false e =
  (let '(stampVersion, tagVersion) :=
     rolledVersions (getEntryVersion s) (vt_entryVersion t) in
   if (stampVersion =? 0) || (stampVersion <? tagVersion) then (Ok GF_NOERR, e)
   else if tagVersion <? stampVersion then conflict e
   else
     match getDSMember (vs_memberID s) (ve_memberList e),
           getDSMember (vt_internalMemId t) (ve_memberList e) with
     | Some stampID, Some tagID =>
         match compareTo (vs_memberID s =? vt_internalMemId t) stampID tagID with
         | Ok c => if 0 <? c then conflict e else (Ok GF_NOERR, e)
         | Throw x => (Throw x, e)
         | UB => (UB, e)
         end
     | _, _ => (Ok GF_CACHE_ILLEGAL_STATE_EXCEPTION, e)
     end).
Proof.
  unfold checkForConflict. rewrite stamp_present, tag_present by done.
  rewrite !land_u32, !Z.mod_small by lia.
  destruct (rolledVersions _ _) as [s' t']. rewrite bind_ret. simpl.
  destruct (_ || _); [done|]. destruct (t' <? s'); [done|].
  rewrite bind_get. destruct (getDSMember _ _); [|done].
  destruct (getDSMember _ _); [|done]. unfold bind, compareMembers.
  destruct (compareTo _ _ _) as [c| |]; try done.
  destruct (Z.ltb_spec c 0), (Z.ltb_spec 0 c); done || lia.
Qed.

Lemma check_newer :
  newer (vt_entryVersion t) (getEntryVersion s) →
  checkForConflict s t false e = (Ok GF_NOERR, e).
Proof.
  intros Hn. rewrite check_unfold. pose proof (rolledVersions_newer _ _ Hsv Htv Hn).
  destruct (rolledVersions _ _) as [s' t'].
  by rewrite (proj2 (Z.ltb_lt s' t')), orb_true_r by lia.
Qed.

Lemma check_older :
  newer (getEntryVersion s) (vt_entryVersion t) →
  checkForConflict s t false e =
  (Ok GF_CACHE_CONCURRENT_MODIFICATION_EXCEPTION, incConflatedEvents e).
Proof.
  intros Hn. rewrite check_unfold. pose proof (rolledVersions_older _ _ Hsv Htv Hn).
  destruct (rolledVersions _ _) as [s' t'].
  rewrite (proj2 (Z.eqb_neq s' 0)), (proj2 (Z.ltb_ge s' t')) by lia. simpl.
  by rewrite (proj2 (Z.ltb_lt t' s')) by lia.
Qed.

(** Same version: the larger member wins, and a member may repeat itself. *)
Lemma check_same stampID tagID c :
  vt_entryVersion t = getEntryVersion s →
  getDSMember (vs_memberID s) (ve_memberList e) = Some stampID →
  getDSMember (vt_internalMemId t) (ve_memberList e) = Some tagID →
  compareTo (vs_memberID s =? vt_internalMemId t) stampID tagID = Ok c →
  checkForConflict s t false e =
  if 0 <? c then (Ok GF_CACHE_CONCURRENT_MODIFICATION_EXCEPTION, incConflatedEvents e)
  else (Ok GF_NOERR, e).
Proof.
  intros Ev Es Et Ec. rewrite check_unfold, Ev, rolledVersions_same, Es, Et, Ec.
  rewrite (proj2 (Z.eqb_neq (getEntryVersion s) 0)), Z.ltb_irrefl by lia. done.
Qed.
End Check.

(** What the version check may answer. *)
Definition verdict (err : GfErrType) : Prop :=
  err = GF_NOERR ∨ err = GF_CACHE_CONCURRENT_MODIFICATION_EXCEPTION ∨
  err = GF_CACHE_ILLEGAL_STATE_EXCEPTION.

Lemma processVersionTag_verdict s tag e err e' :
  processVersionTag s tag false e = (Ok err, e') → verdict err.
Proof.
  unfold processVersionTag, verdict. destruct tag as [t|]; [|by intros [=]; auto].
  unfold checkForConflict. destruct (stampAbsent s); [by intros [=]; auto|].
  destruct (tagAbsent t); [by intros [=]; auto|].
  destruct (rolledVersions _ _) as [sv tv]. rewrite bind_ret.
  rewrite (bool_decide_eq_true_2 (GF_NOERR = GF_NOERR)) by done. cbn [negb].
  destruct (_ || _); [by intros [=]; auto|]. destruct (tv <? sv); [by intros [=]; auto|].
  rewrite bind_get. destruct (getDSMember _ _); [|by intros [=]; auto].
  destruct (getDSMember _ _); [|by intros [=]; auto].
  unfold bind, compareMembers. destruct (compareTo _ _ _) as [c| |]; [|done..].
  destruct (c <? 0); [by intros [=]; auto|]. destruct (0 <? c); by intros [=]; auto.
Qed.

(** An update that is accepted without a delta leaves no trace in the
    environment. *)
Lemma processVersionTag_noerr s tag e e' :
  processVersionTag s tag false e = (Ok GF_NOERR, e') → e' = e.
Proof.
  unfold processVersionTag. destruct tag as [t|]; [|done]. unfold checkForConflict.
  destruct (stampAbsent s); [by intros [=]|]. destruct (tagAbsent t); [by intros [=]|].
  destruct (rolledVersions _ _) as [sv tv]. rewrite bind_ret.
  rewrite (bool_decide_eq_true_2 (GF_NOERR = GF_NOERR)) by done. cbn [negb].
  destruct (_ || _); [by intros [=]|]. destruct (tv <? sv); [done|]. rewrite bind_get.
  destruct (getDSMember _ _); [|done]. destruct (getDSMember _ _); [|done].
  unfold bind, compareMembers. destruct (compareTo _ _ _) as [c| |]; [|done..].
  destruct (c <? 0); [by intros [=]|]. destruct (0 <? c); [done|by intros [=]].
Qed.
