(* ===== verification/VersionProps.v ===== *)
(** * Properties of members, version tags and conflict detection *)

From S2P Require Import Prelude DataOutput DataInput Codec Membership Version.

(** ** The wire format of a member *)

Section MemberWire.
Context `{Allocator} `{Platform} `{StringObjects}.

(** A C string with the characters [s]. *)
Definition cstrOf (s : list Z) : list Z := s ++ [0].
Definition ascii (s : list Z) : Prop :=
  Forall (λ c, c ≠ 0) s ∧ Forall (in_u 8) s ∧ Z.of_nat (length s) ≤ 65535.

Lemma c_str_cstrOf s : ascii s → c_str (cstrOf s) = Some s.
Proof.
  intros (Hz & _ & _). unfold c_str, cstrOf.
  assert (strlen (s ++ [0]) = Some (Z.of_nat (length s))) as ->.
  { induction Hz as [|c s Hc Hz IH]; [done|]. cbn [strlen app].
    rewrite (proj2 (Z.eqb_neq c 0)), IH by done. simpl. f_equal. lia. }
  simpl. rewrite Nat2Z.id. by rewrite take_app_length.
Qed.

Lemma charsOf_cstrOf {S} s (st : S) :
  ascii s → charsOf (Some (cstrOf s)) st = (Ok s, st).
Proof. intros Hs. unfold charsOf. by rewrite c_str_cstrOf. Qed.

Definition asciiBytes (s : list Z) : list Z := be 2 (Z.of_nat (length s)) ++ s.

Lemma appends_ascii s :
  ascii s → appends (writeASCII (Some (cstrOf s)) 0) (asciiBytes s).
Proof.
  intros (Hz & Hb & Hl). pose proof (appends_writeASCII (cstrOf s) 0 s) as Hw.
  rewrite fmap_u8_id in Hw by done. apply Hw; [|done]. exists []. by left.
Qed.

(** The encoding of a member as the server parses it: the fixed class id, the
    first four address bytes as an integer, the synchronisation counter, and
    the other fields in order. *)
Definition memberBytes (synch_counter : Z) (hostname addr4 : list Z)
    (durable : option (list Z * Z)) (dcPort vPID vmkind splitBrainFlag : Z)
    (dsname : list Z) (uniqueTag : option (list Z)) : list Z :=
  [1; 92; 4] ++ be 4 (le32 addr4) ++ be 4 synch_counter ++
  [87] ++ asciiBytes hostname ++ [splitBrainFlag mod 256] ++
  be 4 dcPort ++ be 4 vPID ++ [vmkind mod 256; 0] ++
  [87] ++ asciiBytes dsname ++
  [87] ++ asciiBytes (default [] uniqueTag) ++
  match durable with
  | Some (id, timeout) => [87] ++ asciiBytes id ++ be 4 timeout
  | None => []
  end ++ [45].

Definition tagOk (t : option (list Z)) : Prop :=
  match t with Some s => ascii s | None => True end.

Lemma appends_tag t :
  tagOk t →
  appends (writeASCII (cstrOf <$> t) 0) (asciiBytes (default [] t)).
Proof.
  destruct t as [s|]; simpl; [by apply appends_ascii|]. intros _.
  apply (appends_writeInt_u16 0).
Qed.

Lemma appends_loadN {A} n mem (k : list Z → M DataOutput A) o :
  n ≤ Z.of_nat (length mem) →
  bind (loadN n mem) k o = k (take (Z.to_nat n) mem) o.
Proof.
  intros Hn. unfold loadN. by rewrite (proj2 (Z.leb_le _ _)) by done.
Qed.

Lemma be_i32 v : be 4 (i32 v) = be 4 v.
Proof.
  rewrite <- (be_uwrap 4 32 v), <- (be_uwrap 4 32 (i32 v)) by done. f_equal.
  width_lia.
Qed.

Lemma be_i16 v : be 2 (i16 v) = be 2 v.
Proof.
  rewrite <- (be_uwrap 2 16 v), <- (be_uwrap 2 16 (i16 v)) by done. f_equal.
  width_lia.
Qed.

(** The writer of members that are not durable. *)
Lemma appends_writeMemberID sc host addr dcPort vPID vmkind flag ds tag :
  ascii host → ascii ds → tagOk tag → 4 ≤ Z.of_nat (length addr) →
  appends
    (writeMemberID sc (Some (cstrOf host)) addr (Some [0]) 0 dcPort vPID vmkind
       flag (Some (cstrOf ds)) (cstrOf <$> tag))
    (memberBytes sc host (take 4 addr) None dcPort vPID vmkind flag ds tag).
Proof.
  intros Hh Hd Ht Ha. unfold writeMemberID, memberBytes.
  change [1; 92; 4] with ([1] ++ [92] ++ [4]). rewrite <- !app_assoc.
  apply appends_bind; [apply (appends_write_i8 1)|].
  apply appends_bind; [apply (appends_write_i8 92)|].
  apply appends_bind; [apply (appends_writeArrayLen 4)|].
  intros o. rewrite appends_loadN by done. revert o.
  change (Z.to_nat 4) with 4%nat. fold (appends
    (writeInt_i32 (i32 (le32 (take 4 addr))))).
  apply appends_bind; [rewrite <- be_i32; apply appends_writeInt_i32|].
  apply appends_bind; [apply appends_writeInt_i32|].
  apply appends_bind; [apply (appends_write_i8 87)|].
  apply appends_bind; [by apply appends_ascii|].
  apply appends_bind; [apply appends_write_i8|].
  apply appends_bind; [apply appends_writeInt_i32|].
  apply appends_bind; [apply appends_writeInt_i32|].
  change [vmkind mod 256; 0] with ([vmkind mod 256] ++ [0]).
  rewrite <- !app_assoc.
  apply appends_bind; [apply appends_write_i8|].
  apply appends_bind; [apply (appends_writeArrayLen 0)|].
  apply appends_bind; [apply (appends_write_i8 87)|].
  apply appends_bind; [by apply appends_ascii|].
  apply appends_bind; [apply (appends_write_i8 87)|].
  apply appends_bind; [by apply appends_tag|].
  apply appends_bind; [apply appends_ret|apply (appends_write_i8 45)].
Qed.

Lemma initObjectVars_spec sc host addr port dcPort vPID vmkind flag ds tag view o :
  ascii host → ascii ds → tagOk tag → 4 ≤ Z.of_nat (length addr) →
  do_wf o → do_buf o = 0 →
  ∃ o',
    initObjectVars sc emptyMember (Some (cstrOf host)) addr
      (Z.of_nat (length addr)) true port (Some [0]) 0 dcPort vPID vmkind flag
      (Some (cstrOf ds)) (cstrOf <$> tag) view o =
    (Ok (mkMember
       (memberBytes sc host (take 4 addr) None dcPort vPID vmkind flag ds tag)
       (host ++ [40] ++ itoa vPID 10 ++ [58; 108; 111; 110; 101; 114; 41; 58] ++
         itoa sc 10 ++ colon ++ default [] tag ++ colon ++ ds)
       ds port (Some addr) (Z.of_nat (length addr)) (default [] tag)
       (hashKeyOf addr port ds (default [] tag) view) true view), o').
Proof.
  intros Hh Hd Ht Ha Hw Hb.
  pose proof (appends_writeMemberID sc host addr dcPort vPID vmkind flag ds tag
    Hh Hd Ht Ha o Hw) as Hm.
  destruct Hm as (o1 & E1 & Hw1 & Hwr & _).
  { unfold memberBytes, asciiBytes. rewrite Hb. unfold maxMessage.
    destruct Hh as (_ & _ & ?), Hd as (_ & _ & ?).
    assert (Z.of_nat (length (default [] tag)) ≤ 65535)
      by (destruct tag; simpl in *; [apply Ht|lia]).
    rewrite !length_app, !length_be. simpl length. lia. }
  exists o1. unfold initObjectVars.
  rewrite (bind_Ok _ _ _ _ _ (charsOf_cstrOf ds o Hd)).
  assert ((match cstrOf <$> tag with
           | Some _ => charsOf (cstrOf <$> tag) | None => ret [] end) o =
          (Ok (default [] tag), o)) as Et.
  { destruct tag as [t|]; [by apply charsOf_cstrOf|done]. }
  rewrite (bind_Ok _ _ _ _ _ Et), (bind_Ok _ _ _ _ _ E1), bind_get.
  rewrite (bind_Ok _ _ _ _ _ (charsOf_cstrOf host o1 Hh)).
  rewrite appends_loadN, Nat2Z.id, take_ge by lia.
  unfold ret. do 2 f_equal. simpl. f_equal.
  - fold (written o1) in *. unfold getBuffer, getBufferLength, u32.
    rewrite uwrap_id by (destruct Hw1; split; lia). fold (written o1).
    rewrite Hwr. unfold written. by rewrite Hb.
Qed.

Lemma reads_withOutput {A} o (m : M DataOutput A) a o' :
  m o = (Ok a, o') → reads (withOutput o m) [] a.
Proof.
  intros E [h b l] rest Hi _. unfold withOutput. rewrite E. unfold seek. simpl.
  by rewrite Z.add_0_r.
Qed.

Lemma reads_additional bs : length bs = 17%nat → reads readAdditionalData bs tt.
Proof. intros E i rest Hi _. unfold readAdditionalData. by rewrite E. Qed.

Lemma reads_asChar p : reads (asChar (Some p)) [] p.
Proof. apply reads_ret. Qed.

Lemma reads_hostAddr addr :
  Z.of_nat (length addr) < 2 ^ 31 →
  reads (readHostAddr (Z.of_nat (length addr))) addr addr.
Proof.
  intros Hl. unfold readHostAddr. rewrite (proj2 (Z.ltb_ge _ _)) by lia.
  unfold u32. rewrite uwrap_id by (split; lia). by apply reads_bytesOnly.
Qed.

(** C21: a member is read from the wire: from the encoding of a loner member
    (a client), [readEssentialData] builds the member with its address, port,
    name and tag, whose hash key is made of exactly these, whose own wire form
    is the documented one, and stops behind the trailing UUID and weight. *)
Theorem readEssentialData_loner sc o addr port flag ds tag dsObj tagObj trailer :
  do_wf o → do_buf o = 0 →
  4 ≤ Z.of_nat (length addr) < 2 ^ 31 → in_s 32 port → in_u 8 flag →
  ascii ds → ascii tag → length trailer = 17%nat →
  reads readCacheableString dsObj (Some (Some (cstrOf ds))) →
  reads readCacheableString tagObj (Some (Some (cstrOf tag))) →
  ∃ c,
    reads (readEssentialData sc o emptyMember)
      (arrayLenBytes (Z.of_nat (length addr)) ++ addr ++ be 4 port ++
       [flag mod 256] ++ [LONER_DM_TYPE mod 256] ++ tagObj ++ dsObj ++ trailer) c ∧
    m_hostAddr c = Some addr ∧ m_hostAddrLen c = Z.of_nat (length addr) ∧
    m_hostPort c = u32 port ∧ m_dsname c = ds ∧ m_uniqueTag c = tag ∧
    m_hashKey c = hashKeyOf addr (u32 port) ds tag 0 ∧
    m_memIDStr c =
      memberBytes sc [] (take 4 addr) None DCPORT 0 LONER_DM_TYPE 0 ds (Some tag).
Proof.
  intros Hw Hb [Ha4 Ha31] Hp Hf Hds Htag Htr Rds Rtag.
  destruct (initObjectVars_spec sc [] addr (u32 port) DCPORT 0 LONER_DM_TYPE 0 ds
    (Some tag) 0 o) as (o' & E); [repeat constructor; simpl; lia|done..|].
  eexists. split.
  - unfold readEssentialData.
    eapply reads_bind; [apply reads_arrayLen; lia|].
    eapply reads_bind; [by apply reads_hostAddr|].
    eapply reads_bind; [by apply reads_i32|].
    eapply reads_bind; [by apply reads_u8|].
    eapply reads_bind; [by apply (reads_i8 LONER_DM_TYPE)|].
    change (LONER_DM_TYPE =? LONER_DM_TYPE) with true. cbv iota.
    eapply reads_bind; [done|]. eapply reads_bind; [done|].
    rewrite <- (app_nil_l trailer). eapply reads_bind; [apply reads_asChar|].
    rewrite <- (app_nil_l trailer). eapply reads_bind; [apply reads_asChar|].
    rewrite <- (app_nil_l trailer).
    eapply reads_bind; [by eapply reads_withOutput|].
    rewrite <- (app_nil_r trailer).
    eapply reads_bind; [by apply reads_additional|]. apply reads_ret.
  - done.
Qed.
End MemberWire.

(** ** The order of members *)

(** C22: [compareTo] orders the client members with addresses of one length
    totally: comparing the other way round flips the sign, 0 means the same
    port, address and tag (or view id), and the order is transitive. *)
Theorem member_order a b c :
  member_wf a → member_wf b → member_wf c →
  m_hostAddrLen a = m_hostAddrLen b → m_hostAddrLen b = m_hostAddrLen c →
  ∃ ab bc ac,
    compareTo false (ClientMember a) (ClientMember b) = Ok ab ∧
    compareTo false (ClientMember b) (ClientMember a) = Ok (- ab) ∧
    (ab = 0 ↔ sameIdentity a b) ∧
    compareTo false (ClientMember b) (ClientMember c) = Ok bc ∧
    compareTo false (ClientMember a) (ClientMember c) = Ok ac ∧
    (ab < 0 → bc < 0 → ac < 0).
Proof.
  intros Ha Hb Hc E1 E2. simpl.
  destruct (compareTo_client_spec a b Ha Hb E1) as (ab & Eab & Eba & Hab).
  destruct (compareTo_client_spec b c Hb Hc E2) as (bc & Ebc & _).
  destruct (compareTo_client_spec a c Ha Hc) as (ac & Eac & _); [congruence|].
  exists ab, bc, ac. split_and!; try done.
  intros. by eapply (compareTo_client_trans a b c).
Qed.

(** The difference of two disk store ids is computed in [int64_t]: for ids
    whose most significant words are 2^63 or more apart, which random UUIDs
    often are, the comparison overflows, which is undefined. *)
Theorem disk_compare_overflow m l m' l' :
  in_s 64 m → in_s 64 m' → 2 ^ 63 ≤ m - m' →
  compareTo false (DiskStoreId m l) (DiskStoreId m' l') = UB.
Proof.
  intros Hm Hm' Hd. unfold compareTo, compareTo_disk, sub_i64.
  by rewrite (proj2 (Z.ltb_ge (m - m') (2 ^ 63))), andb_false_r by lia.
Qed.

(** C18: numbering of members: starting from the empty list, [add] keeps the
    two maps of the list inverse to each other, gives a member a non-zero
    number under which a member with the same hash key is found (the member
    itself when it is new), keeps all earlier numbers, and gives different
    numbers to different hash keys, up to 65535 members. *)
Theorem member_numbering m l :
  ml_wf l → m_memberCounter l < 65535 →
  ml_wf newMemberList ∧
  let (id, l') := ml_add m l in
  ml_wf l' ∧ id ≠ 0 ∧
  (∃ m', getDSMember id l' = Some m' ∧ getHashKey m' = getHashKey m ∧
     (m_members2 l !! getHashKey m = None → m' = m)) ∧
  (∀ id0 m0, getDSMember id0 l = Some m0 → getDSMember id0 l' = Some m0) ∧
  (∀ id0 m0, getDSMember id0 l = Some m0 → getHashKey m0 ≠ getHashKey m →
     id0 ≠ id).
Proof.
  intros Hw Hlt. split; [apply newMemberList_wf|].
  pose proof (ml_add_wf m l Hw Hlt) as Hw'.
  pose proof (ml_add_lookup m l Hw Hlt) as Hl.
  destruct (ml_add m l) as [id l']. destruct Hl as (Hid & (m' & E & Ek & En) & Hold).
  split_and!; try done; [by exists m'|].
  intros id0 m0 E0 Hne ->. apply Hold in E0. rewrite E in E0. simplify_eq.
Qed.

(** The 65536th member is given the number 0, the number of no member:
    the counter has 32 bits, the number 16. *)
Theorem member_65536_unnumbered m l :
  ml_wf l → m_memberCounter l = 65535 → m_members2 l !! getHashKey m = None →
  let (id, l') := ml_add m l in id = 0 ∧ getDSMember id l' = None.
Proof.
  intros [Hc Hid Hkey] Hn E. unfold ml_add. rewrite E, Hn.
  change (u16 (u32 (65535 + 1))) with 0. split; [done|]. unfold getDSMember.
  cbn [m_members1]. rewrite lookup_insert_ne by done.
  destruct (m_members1 l !! 0) eqn:E0; [|done]. apply Hid in E0 as [? _]. lia.
Qed.

(** ** Conflict detection *)

(** C10: the conflict check orders the 24-bit entry versions on the circle:
    against a stamp, a tag at most 2^16 steps ahead is applied, a tag at most
    2^16 steps behind is rejected as a concurrent modification and counted,
    wrap-around included; with equal versions the larger member wins and a
    member may repeat its own version. *)
Theorem conflict_order s t e :
  vs_memberID s ≠ 0 → 0 < getEntryVersion s < 2 ^ 24 →
  vt_internalMemId t ≠ 0 → 0 ≤ vt_entryVersion t < 2 ^ 24 →
  (newer (vt_entryVersion t) (getEntryVersion s) →
   processVersionTag s (Some t) false e = (Ok GF_NOERR, e)) ∧
  (newer (getEntryVersion s) (vt_entryVersion t) →
   processVersionTag s (Some t) false e =
   (Ok GF_CACHE_CONCURRENT_MODIFICATION_EXCEPTION, incConflatedEvents e)) ∧
  (∀ a b c, vt_entryVersion t = getEntryVersion s →
   getDSMember (vs_memberID s) (ve_memberList e) = Some a →
   getDSMember (vt_internalMemId t) (ve_memberList e) = Some b →
   compareTo (vs_memberID s =? vt_internalMemId t) a b = Ok c →
   processVersionTag s (Some t) false e =
   if 0 <? c then
     (Ok GF_CACHE_CONCURRENT_MODIFICATION_EXCEPTION, incConflatedEvents e)
   else (Ok GF_NOERR, e)).
Proof.
  intros Hs Hsv Ht Htv. unfold processVersionTag. split_and!.
  - by apply check_newer.
  - by apply check_older.
  - intros. by eapply check_same.
Qed.

(** Applying an update to the stamp of an entry. *)
Definition applyTag (e : VersionEnv) (s : VersionStamp) (t : VersionTag)
    : VersionStamp :=
  match processVersionTag s (Some t) false e with
  | (Ok GF_NOERR, _) => setVersions t
  | _ => s
  end.

(** A tag as a server sends it: a 24-bit version other than 0, a member. *)
Definition tag_wf (t : VersionTag) : Prop :=
  0 < vt_entryVersion t < 2 ^ 24 ∧ vt_internalMemId t ≠ 0.

Lemma setVersions_member t : vs_memberID (setVersions t) = vt_internalMemId t.
Proof. done. Qed.

Lemma setVersions_version t :
  tag_wf t → getEntryVersion (setVersions t) = vt_entryVersion t.
Proof.
  intros [Hv _]. rewrite getEntryVersion_setVersions. apply Z.mod_small. lia.
Qed.

(** The two tags come from different members that [compareTo] tells apart, or
    from one member that numbers its changes. *)
Definition comparable (e : VersionEnv) (t1 t2 : VersionTag) : Prop :=
  (vt_internalMemId t1 = vt_internalMemId t2 ∧ setVersions t1 = setVersions t2) ∨
  ∃ a b, vt_internalMemId t1 ≠ vt_internalMemId t2 ∧
    getDSMember (vt_internalMemId t1) (ve_memberList e) = Some (ClientMember a) ∧
    getDSMember (vt_internalMemId t2) (ve_memberList e) = Some (ClientMember b) ∧
    member_wf a ∧ member_wf b ∧ m_hostAddrLen a = m_hostAddrLen b ∧
    ¬ sameIdentity a b.

Section Converge.
Variables (e : VersionEnv) (t1 t2 : VersionTag).
Hypothesis (H1 : tag_wf t1) (H2 : tag_wf t2).

Lemma applyTag_newer :
  newer (vt_entryVersion t2) (vt_entryVersion t1) →
  applyTag e (setVersions t1) t2 = setVersions t2.
Proof.
  intros Hn. unfold applyTag, processVersionTag.
  rewrite check_newer; [done|..]; rewrite ?setVersions_version; try done;
    destruct H1, H2; try done; lia.
Qed.

Lemma applyTag_older :
  newer (vt_entryVersion t1) (vt_entryVersion t2) →
  applyTag e (setVersions t1) t2 = setVersions t1.
Proof.
  intros Hn. unfold applyTag, processVersionTag.
  rewrite check_older; [done|..]; rewrite ?setVersions_version; try done;
    destruct H1, H2; try done; lia.
Qed.

Lemma applyTag_same a b c :
  vt_entryVersion t1 = vt_entryVersion t2 →
  vt_internalMemId t1 ≠ vt_internalMemId t2 →
  getDSMember (vt_internalMemId t1) (ve_memberList e) = Some (ClientMember a) →
  getDSMember (vt_internalMemId t2) (ve_memberList e) = Some (ClientMember b) →
  compareTo_client a b = Ok c →
  applyTag e (setVersions t1) t2 =
  if 0 <? c then setVersions t1 else setVersions t2.
Proof.
  intros Ev Hne E1 E2 Ec. unfold applyTag, processVersionTag.
  rewrite (check_same (setVersions t1) t2 e) with
    (stampID := ClientMember a) (tagID := ClientMember b) (c := c);
    rewrite ?setVersions_version, ?setVersions_member; try done;
    try (destruct H1, H2; done || lia).
  - by destruct (0 <? c).
  - by rewrite (proj2 (Z.eqb_neq _ _)).
Qed.
End Converge.



(** C32: the correction for wrap-around adds 2^32, the range of an [int32_t],
    while a stamp keeps 24 bits: a delta for the version after 2^24 - 1 is
    never recognised as the successor and the full value is asked for. *)
Theorem delta_rollover_rejected s t e :
  vs_memberID s ≠ 0 → getEntryVersion s = 2 ^ 24 - 1 →
  vt_internalMemId t ≠ 0 → vt_entryVersion t = 0 →
  processVersionTag s (Some t) true e =
  (Ok GF_INVALID_DELTA, updateNotificationStats_failure e).
Proof.
  intros Hs Hsv Ht Htv. unfold processVersionTag, checkForConflict.
  by rewrite stamp_present, tag_present, Hsv, Htv by done.
Qed.

(** ** Parsing a version tag *)

Section TagWire.
Variable readMember : M DataInput DSMember.

(** What a server puts into a version tag. *)
Record tagFields := mkTagFields {
  tf_bits : Z;
  tf_dsid : Z;
  tf_version : Z;
  tf_twoBytes : bool;
  tf_high : option Z;
  tf_low : Z;
  tf_timeBytes : list Z;
  tf_time : Z;
  tf_member : option (list Z * DSMember);
  tf_previous : option (option (list Z * DSMember))
}.

Definition flagIf (b : bool) (bit : Z) : Z := if b then bit else 0.

Definition tagFlags (f : tagFields) : Z :=
  flagIf (bool_decide (is_Some (tf_member f))) HAS_MEMBER_ID +
  flagIf (bool_decide (is_Some (tf_previous f))) HAS_PREVIOUS_MEMBER_ID +
  flagIf (tf_twoBytes f) VERSION_TWO_BYTES +
  flagIf (match tf_previous f with Some None => true | _ => false end)
    DUPLICATE_MEMBER_IDS +
  flagIf (bool_decide (is_Some (tf_high f))) HAS_RVV_HIGH_BYTE.

Definition tagBytes (f : tagFields) : list Z :=
  be 2 (tagFlags f) ++ be 2 (tf_bits f) ++ [tf_dsid f mod 256] ++
  (if tf_twoBytes f then be 2 (tf_version f) else be 4 (tf_version f)) ++
  match tf_high f with Some h => be 2 h | None => [] end ++
  be 4 (tf_low f) ++ tf_timeBytes f ++
  match tf_member f with Some (bs, _) => bs | None => [] end ++
  match tf_previous f with Some (Some (bs, _)) => bs | _ => [] end.

Definition tagFields_wf (f : tagFields) : Prop :=
  in_u 16 (tf_bits f) ∧ in_s 8 (tf_dsid f) ∧
  (if tf_twoBytes f then in_u 16 (tf_version f) else in_s 32 (tf_version f)) ∧
  (∀ h, tf_high f = Some h → in_s 16 h) ∧ in_s 32 (tf_low f) ∧
  reads readUnsignedVL (tf_timeBytes f) (tf_time f) ∧
  (∀ bs m, tf_member f = Some (bs, m) → reads readMember bs m) ∧
  (∀ bs m, tf_previous f = Some (Some (bs, m)) → reads readMember bs m).

(** The numbers the list gives to the members of the tag. *)
Definition tagMembers (f : tagFields) (l : MemberList) : Z * Z * MemberList :=
  let '(int, l1) :=
    match tf_member f with Some (_, m) => ml_add m l | None => (0, l) end in
  let '(prev, l2) :=
    match tf_previous f with
    | Some (Some (_, m)) => ml_add m l1
    | Some None => (int, l1)
    | None => (0, l1)
    end in
  (int, prev, l2).

(** [r] reads [bs] and transforms the member list as [g] does. *)
Definition treads {A} (r : M TagInput A) (bs : list Z)
    (g : MemberList → A * MemberList) : Prop := ∀ i rest l,
  di_wf i → unread i = bs ++ rest →
  r (mkTagInput i l) =
  (Ok (g l).1, mkTagInput (seek (di_buf i + Z.of_nat (length bs)) i) (g l).2).

Lemma treads_input {A} (r : M DataInput A) bs a :
  reads r bs a → treads (fromInput r) bs (λ l, (a, l)).
Proof. intros Hr i rest l Hi E. unfold fromInput. simpl. by rewrite (Hr i rest). Qed.

Lemma treads_bind {A B} (m : M TagInput A) (k : A → M TagInput B) bs1 bs2 g1 g2 :
  treads m bs1 g1 → (∀ l, treads (k (g1 l).1) bs2 (g2 l)) →
  treads (bind m k) (bs1 ++ bs2) (λ l, g2 l (g1 l).2).
Proof.
  intros Hm Hk i rest l Hi E. rewrite <- app_assoc in E.
  rewrite (bind_Ok _ _ _ _ _ (Hm i _ l Hi E)).
  destruct (unread_seek i bs1 _ Hi E) as [Hi1 E1].
  rewrite (Hk l _ rest _ Hi1 E1). do 2 f_equal. unfold seek. simpl.
  f_equal. rewrite length_app. lia.
Qed.

(** Sequencing after a reader that leaves the member list alone. *)
Lemma treads_seq {A B} (m : M TagInput A) (k : A → M TagInput B) bs1 bs2 a g :
  treads m bs1 (λ l, (a, l)) → treads (k a) bs2 g → treads (bind m k) (bs1 ++ bs2) g.
Proof. intros Hm Hk. by apply (treads_bind m k bs1 bs2 _ (λ _, g) Hm). Qed.

Lemma treads_ret {A} (a : A) : treads (ret a) [] (λ l, (a, l)).
Proof.
  intros [h b n] rest l Hi E. unfold ret, seek. simpl. by rewrite Z.add_0_r.
Qed.

Lemma treads_map {A B} (m : M TagInput A) (f : A → B) bs a :
  treads m bs (λ l, (a, l)) → treads (let! x := m in ret (f x)) bs (λ l, (f a, l)).
Proof.
  intros Hm. rewrite <- (app_nil_r bs). by eapply treads_seq, treads_ret.
Qed.

Lemma treads_member bs m :
  reads readMember bs m →
  treads (let! m := fromInput readMember in addMember m) bs (λ l, ml_add m l).
Proof.
  intros Hr. rewrite <- (app_nil_r bs). eapply treads_seq; [by apply treads_input|].
  intros [h b n] rest l Hi E. unfold addMember, seek. simpl. rewrite Z.add_0_r.
  by destruct (ml_add m l).
Qed.

Lemma hasFlag_tagFlags f :
  hasFlag (tagFlags f) HAS_MEMBER_ID = bool_decide (is_Some (tf_member f)) ∧
  hasFlag (tagFlags f) HAS_PREVIOUS_MEMBER_ID = bool_decide (is_Some (tf_previous f)) ∧
  hasFlag (tagFlags f) VERSION_TWO_BYTES = tf_twoBytes f ∧
  hasFlag (tagFlags f) DUPLICATE_MEMBER_IDS =
    (match tf_previous f with Some None => true | _ => false end) ∧
  hasFlag (tagFlags f) HAS_RVV_HIGH_BYTE = bool_decide (is_Some (tf_high f)) ∧
  in_u 16 (tagFlags f).
Proof.
  unfold tagFlags.
  destruct (tf_member f), (tf_previous f) as [[]|], (tf_twoBytes f), (tf_high f);
    split_and!; vm_compute; try done; split; congruence || done.
Qed.

Lemma readMembers_spec f :
  tagFields_wf f →
  treads (readMembers readMember (tagFlags f) newVersionTag)
    (match tf_member f with Some (bs, _) => bs | None => [] end ++
     match tf_previous f with Some (Some (bs, _)) => bs | _ => [] end)
    (λ l, ((tagMembers f l).1, (tagMembers f l).2)).
Proof.
  intros (_ & _ & _ & _ & _ & _ & Hm & Hp). unfold readMembers, tagMembers.
  destruct (hasFlag_tagFlags f) as (-> & -> & _ & -> & _ & _).
  set (g1 := λ l, match tf_member f with
                  | Some (_, m) => ml_add m l | None => (0, l) end).
  set (g2 := λ (int : Z) (l1 : MemberList), match tf_previous f with
    | Some (Some (_, m)) => ml_add m l1 | Some None => (int, l1)
    | None => (0, l1) end).
  assert (treads (let! p := (if bool_decide (is_Some (tf_member f)) then
      let! m := fromInput readMember in addMember m else ret 0) in
    let! q := (if bool_decide (is_Some (tf_previous f)) then
      if (match tf_previous f with Some None => true | _ => false end) then ret p
      else let! m := fromInput readMember in addMember m else ret 0) in
    ret (p, q))
    (match tf_member f with Some (bs, _) => bs | None => [] end ++
     match tf_previous f with Some (Some (bs, _)) => bs | _ => [] end ++ [])
    (λ l, (((g1 l).1, (g2 (g1 l).1 (g1 l).2).1), (g2 (g1 l).1 (g1 l).2).2)))
    as Hgo.
  { apply (treads_bind _ _ _ _ g1 (λ l0 l, (((g1 l0).1, (g2 (g1 l0).1 l).1),
      (g2 (g1 l0).1 l).2))).
    - unfold g1. destruct (tf_member f) as [[bs m]|]; simpl;
        [by eapply treads_member, Hm|apply treads_ret].
    - intros l0. apply (treads_bind _ _ _ _ (g2 (g1 l0).1)
        (λ l1 l, (((g1 l0).1, (g2 (g1 l0).1 l1).1), l))).
      + unfold g2. destruct (tf_previous f) as [[[bs m]|]|]; simpl;
          [by eapply treads_member, Hp|apply treads_ret|apply treads_ret].
      + intros l1. apply treads_ret. }
  rewrite app_nil_r in Hgo. intros i rest l Hi E.
  etransitivity; [exact (Hgo i rest l Hi E)|]. unfold g1, g2.
  destruct (tf_member f) as [[bs m]|]; [destruct (ml_add m l)|];
    destruct (tf_previous f) as [[[bs' m']|]|]; try done;
    simpl; by destruct (ml_add m' _).
Qed.

(** C20: a version tag is parsed from its wire form, for every combination of
    the flags: a two- or four-byte version, an optional high part of the region
    version, and members that are absent, given, or given once for both; the
    members are numbered by the member list. *)
Theorem tag_fromData f i rest l :
  tagFields_wf f → di_wf i → unread i = tagBytes f ++ rest →
  let '(int, prev, l') := tagMembers f l in
  VersionTag_fromData readMember newVersionTag (mkTagInput i l) =
  (Ok (mkVersionTag (tf_bits f) (tf_version f) (default 0 (tf_high f)) (tf_low f)
         int prev (tf_time f)),
   mkTagInput (seek (di_buf i + Z.of_nat (length (tagBytes f))) i) l').
Proof.
  intros Hf Hi E. pose proof Hf as (Hb & Hd & Hv & Hh & Hl & Ht & _).
  destruct (hasFlag_tagFlags f) as (_ & _ & F2 & _ & F4 & F5).
  pose proof (readMembers_spec f Hf) as Hmem.
  assert (treads (VersionTag_fromData readMember newVersionTag) (tagBytes f)
    (λ l, (mkVersionTag (tf_bits f) (tf_version f) (default 0 (tf_high f))
       (tf_low f) (tagMembers f l).1.1 (tagMembers f l).1.2 (tf_time f),
       (tagMembers f l).2))) as Hgo.
  { unfold VersionTag_fromData, tagBytes.
    eapply treads_seq; [by apply treads_input, reads_u16|].
    eapply treads_seq; [by apply treads_input, reads_u16|].
    eapply treads_seq; [by apply treads_input, reads_i8|].
    rewrite F2, F4. eapply (treads_seq _ _ _ _ (tf_version f)).
    { destruct (tf_twoBytes f).
      - assert (Z.land (i16 (tf_version f)) 65535 = tf_version f) as Ev.
        { change 65535 with (2 ^ 16 - 1). rewrite land_ones' by lia.
          clear - Hv. width_lia. }
        pose proof (treads_map (fromInput readInt_i16) (λ v, Z.land v 65535)
          (be 2 (tf_version f)) (i16 (tf_version f))) as Hmap.
        cbv beta in Hmap. rewrite Ev in Hmap. apply Hmap. apply treads_input. rewrite <- be_i16. apply reads_i16. by apply swrap_range.
      - assert (i32 (Z.land (tf_version f) 4294967295) = tf_version f) as Ev.
        { rewrite land_u32. by apply swrap_uwrap_id. }
        pose proof (treads_map (fromInput readInt_i32)
          (λ v, i32 (Z.land v 4294967295)) (be 4 (tf_version f)) (tf_version f))
          as Hmap. cbv beta in Hmap. rewrite Ev in Hmap. apply Hmap. by apply treads_input, reads_i32. }
    eapply (treads_seq _ _ _ _ (default 0 (tf_high f))).
    { destruct (tf_high f) as [h|]; simpl; [|apply treads_ret].
      by apply treads_input, reads_i16, Hh. }
    eapply treads_seq; [by apply treads_input, reads_i32|].
    eapply treads_seq; [by apply treads_input|].
    rewrite <- (app_nil_r (_ ++ _)). apply (treads_bind _ _ _ _ _
      (λ l0 l, (mkVersionTag (tf_bits f) (tf_version f) (default 0 (tf_high f))
       (tf_low f) (tagMembers f l0).1.1 (tagMembers f l0).1.2 (tf_time f), l)) Hmem).
    intros l0. apply treads_ret. }
  rewrite (Hgo i rest l Hi E). by destruct (tagMembers f l) as [[int prev] l'].
Qed.
End TagWire.

(** ** The properties at concrete inputs *)

#[local] Instance zeroAllocator : Allocator := {| fresh := λ _, 0 |}.

(** Digits of a non-negative number in a radix up to 16. *)
Definition sampleItoa (v radix : Z) : list Z :=
  if radix =? 16 then hexDigits 8 (u32 v) else PRIx64 (u32 v).
#[local] Instance samplePlatform : Platform := {| itoa := sampleItoa |}.

(** A registry that knows ASCII string objects. *)
#[local] Instance sampleStrings : StringObjects :=
  {| readCacheableString :=
       read_i8 ;! let! s := readASCII in ret (Some (Some (s ++ [0]))) |}.

Definition emptyOutput : DataOutput :=
  mkDataOutput (replicate (Z.to_nat 8192) 0) 0 8192 false 0.

Lemma emptyOutput_wf : do_wf emptyOutput.
Proof. by split; simpl; try lia. Qed.

Lemma sampleString_reads s :
  Z.of_nat (length s) ≤ 65535 →
  reads readCacheableString ([87] ++ asciiBytes s) (Some (Some (cstrOf s))).
Proof.
  intros Hs. apply (reads_bind read_i8 _ [87] _ 87).
  - apply (reads_i8 87). unfold in_s. lia.
  - apply (reads_map readASCII (λ s, Some (Some (s ++ [0]))) _ s); [|done].
    by apply reads_ASCII.
Qed.

Definition sampleMember (port : Z) : ClientProxyMembershipID :=
  mkMember [] [] [100] port (Some [10; 0; 0; 1]) 4 [116] [58; port] true 0.

Lemma sampleMember_wf port : member_wf (sampleMember port).
Proof.
  split; simpl; try lia; [by intros ? [= <-]|]. repeat constructor; unfold in_u; lia.
Qed.

Definition sampleMembers : MemberList :=
  (ml_add (ClientMember (sampleMember 2))
    (ml_add (ClientMember (sampleMember 1)) newMemberList).2).2.

Definition sampleEnv : VersionEnv := mkVersionEnv sampleMembers 0 (Some 0).

Definition sampleTag (version member : Z) : VersionTag :=
  mkVersionTag 0 version 0 7 member 1 0.

Lemma readEssentialData_loner_witness :
  ∃ c,
    reads (readEssentialData 2 emptyOutput emptyMember)
      (arrayLenBytes 4 ++ [10; 0; 0; 1] ++ be 4 40404 ++ [0 mod 256] ++
       [LONER_DM_TYPE mod 256] ++ ([87] ++ asciiBytes [116]) ++
       ([87] ++ asciiBytes [100; 115]) ++ replicate 17 0) c ∧
    m_hostAddr c = Some [10; 0; 0; 1] ∧ m_hostAddrLen c = 4 ∧
    m_hostPort c = u32 40404 ∧ m_dsname c = [100; 115] ∧ m_uniqueTag c = [116] ∧
    m_hashKey c = hashKeyOf [10; 0; 0; 1] (u32 40404) [100; 115] [116] 0 ∧
    m_memIDStr c = memberBytes 2 [] [10; 0; 0; 1] None DCPORT 0 LONER_DM_TYPE 0
      [100; 115] (Some [116]).
Proof.
  apply (readEssentialData_loner 2 emptyOutput [10; 0; 0; 1] 40404 0 [100; 115]
    [116]); first
    [ apply emptyOutput_wf
    | by apply sampleString_reads
    | done
    | unfold in_s, in_u; simpl; lia
    | repeat constructor; unfold in_u; simpl; lia ].
Defined.

Lemma member_order_witness :
  ∃ ab bc ac,
    compareTo false (ClientMember (sampleMember 1)) (ClientMember (sampleMember 2))
      = Ok ab ∧
    compareTo false (ClientMember (sampleMember 2)) (ClientMember (sampleMember 1))
      = Ok (- ab) ∧
    (ab = 0 ↔ sameIdentity (sampleMember 1) (sampleMember 2)) ∧
    compareTo false (ClientMember (sampleMember 2)) (ClientMember (sampleMember 3))
      = Ok bc ∧
    compareTo false (ClientMember (sampleMember 1)) (ClientMember (sampleMember 3))
      = Ok ac ∧
    (ab < 0 → bc < 0 → ac < 0).
Proof.
  apply (member_order (sampleMember 1) (sampleMember 2) (sampleMember 3));
    try apply sampleMember_wf; reflexivity.
Defined.

Lemma disk_compare_overflow_witness :
  compareTo false (DiskStoreId (2 ^ 62) 0) (DiskStoreId (- 2 ^ 62) 0) = UB.
Proof. apply disk_compare_overflow; unfold in_s; lia. Defined.

Lemma member_numbering_witness :
  ml_wf newMemberList ∧
  let (id, l') := ml_add (ClientMember (sampleMember 1)) newMemberList in
  ml_wf l' ∧ id ≠ 0 ∧
  (∃ m', getDSMember id l' = Some m' ∧
     getHashKey m' = getHashKey (ClientMember (sampleMember 1)) ∧
     (m_members2 newMemberList !! getHashKey (ClientMember (sampleMember 1)) = None →
      m' = ClientMember (sampleMember 1))) ∧
  (∀ id0 m0, getDSMember id0 newMemberList = Some m0 → getDSMember id0 l' = Some m0) ∧
  (∀ id0 m0, getDSMember id0 newMemberList = Some m0 →
     getHashKey m0 ≠ getHashKey (ClientMember (sampleMember 1)) → id0 ≠ id).
Proof.
  apply (member_numbering (ClientMember (sampleMember 1)) newMemberList);
    [apply newMemberList_wf|simpl; lia].
Defined.

(** A list whose counter has reached its last number. *)
Definition fullMembers : MemberList := mkMemberList ∅ ∅ 65535.

Lemma member_65536_unnumbered_witness :
  let (id, l') := ml_add (ClientMember (sampleMember 1)) fullMembers in
  id = 0 ∧ getDSMember id l' = None.
Proof.
  apply (member_65536_unnumbered (ClientMember (sampleMember 1)) fullMembers);
    [|reflexivity|reflexivity].
  split; simpl; [lia|..]; intros; rewrite lookup_empty in *; done.
Defined.

Lemma conflict_order_witness :
  processVersionTag (setVersions (sampleTag (2 ^ 24 - 1) 1))
    (Some (sampleTag 3 2)) false sampleEnv = (Ok GF_NOERR, sampleEnv).
Proof.
  apply (conflict_order (setVersions (sampleTag (2 ^ 24 - 1) 1)) (sampleTag 3 2)
    sampleEnv); vm_compute; repeat split; discriminate.
Defined.



Lemma delta_rollover_rejected_witness :
  processVersionTag (setVersions (sampleTag (2 ^ 24 - 1) 1)) (Some (sampleTag 0 2))
    true sampleEnv =
  (Ok GF_INVALID_DELTA, updateNotificationStats_failure sampleEnv).
Proof. apply delta_rollover_rejected; vm_compute; try done; discriminate. Defined.

Definition sampleFields : tagFields :=
  mkTagFields 1 0 40000 true (Some 2) 9 [5] 5
    (Some (be 8 1 ++ be 8 2, DiskStoreId 1 2)) (Some None).

Definition sampleTagInput : DataInput :=
  mkDataInput (tagBytes sampleFields) 0
    (Z.of_nat (length (tagBytes sampleFields))).

Lemma tag_fromData_witness :
  let '(int, prev, l') := tagMembers sampleFields newMemberList in
  VersionTag_fromData DiskStoreId_fromData newVersionTag
    (mkTagInput sampleTagInput newMemberList) =
  (Ok (mkVersionTag 1 40000 2 9 int prev 5),
   mkTagInput
     (seek (0 + Z.of_nat (length (tagBytes sampleFields))) sampleTagInput) l').
Proof.
  apply (tag_fromData DiskStoreId_fromData sampleFields sampleTagInput []
    newMemberList).
  - split_and!; try (unfold in_s, in_u; simpl; lia).
    + intros h [= <-]. unfold in_s. lia.
    + intros i rest Hi E. unfold readUnsignedVL. cbn [readUnsignedVL_loop].
      change (0 <? 64) with true. cbv iota.
      by rewrite (bind_Ok _ _ _ _ _ (reads_i8 5 ltac:(unfold in_s; lia) i rest Hi E)).
    + intros bs m [= <- <-].
      apply (reads_bind _ _ (be 8 1) (be 8 2) 1); [apply reads_i64; unfold in_s; lia|].
      eapply reads_map; [apply reads_i64; unfold in_s; lia|done].
    + by intros bs m [=].
  - split; simpl; lia.
  - symmetry. apply app_nil_r.
Defined.
