(* ===== verification/MapEntry.v ===== *)
(** * Cached entries and update tracking

    Models CacheableToken.hpp, MapEntry.hpp, MapEntryT.hpp, TrackedMapEntry.hpp
    and TrackedMapEntry.cpp: the object a cached value lives in, its version
    stamp, and the tracking of updates that arrive while an operation waits
    for the server.

    Entries are objects on a heap, because the map, the tombstone list and
    callers share them, and because tracking replaces an object in place: the
    tracking number and update count are template arguments of the class, and
    changing them constructs a new object over the old one with placement new.
    The [noInit] constructor used for this resets the base classes of the
    entry; the model follows it member by member. *)

From S2P Require Import Prelude Version.

(** [CacheableToken]: the singleton marker values, compared by address. *)
Inductive Token : Type := INVALID | DESTROYED | OVERFLOWED | TOMBSTONE.

#[global] Instance Token_eq_dec : EqDecision Token.
Proof. solve_decision. Defined.

(** The target of a [CacheablePtr]: a token or an application object. *)
Inductive Value : Type :=
  | VToken (t : Token)
  | VObject (loc : Z).

#[global] Instance Value_eq_dec : EqDecision Value.
Proof. solve_decision. Defined.

Notation CacheablePtr := (option Value).

Definition isInvalid (p : CacheablePtr) : bool :=
  bool_decide (p = Some (VToken INVALID)).
Definition isDestroyed (p : CacheablePtr) : bool :=
  bool_decide (p = Some (VToken DESTROYED)).
Definition isOverflowed (p : CacheablePtr) : bool :=
  bool_decide (p = Some (VToken OVERFLOWED)).
Definition isTombstone (p : CacheablePtr) : bool :=
  bool_decide (p = Some (VToken TOMBSTONE)).
Definition isToken (p : CacheablePtr) : bool :=
  isInvalid p || isDestroyed p || isOverflowed p || isTombstone p.

Definition GF_TRACK_MAX : Z := 4.
Definition GF_UPDATE_MAX : Z := 8.

Section MapEntry.
Context {K : Type}.

(** An entry of type [MapEntryT<TBase, NUM_TRACKERS, UPDATE_COUNT>]; [TBase] is
    [VersionedMapEntryImpl] when there is a stamp.  [me_weakThis] tells whether
    the [enable_shared_from_this] base refers to the owning pointer. *)
Record MapEntryImpl := mkImpl {
  me_value : CacheablePtr;
  me_key : option K;
  me_stamp : option VersionStamp;
  me_trackers : Z;
  me_updates : Z;
  me_weakThis : bool
}.

(** [MapEntry]: an entry, or a [TrackedMapEntry] wrapped around one. *)
Inductive MapEntry : Type :=
  | Impl (e : MapEntryImpl)
  | Tracked (m_entry m_trackingNumber m_updateCount : Z).

Record Heap := mkHeap { h_entries : gmap Z MapEntry; h_next : Z }.

Definition alloc (e : MapEntry) : M Heap Z := λ h,
  (Ok (h_next h), mkHeap (<[h_next h := e]> (h_entries h)) (h_next h + 1)).

Definition load (l : Z) : M Heap MapEntry := λ h,
  match h_entries h !! l with Some e => (Ok e, h) | None => (UB, h) end.

Definition storeEntry (l : Z) (e : MapEntry) : M Heap unit :=
  modify (λ h, mkHeap (<[l := e]> (h_entries h)) (h_next h)).

(** The [MapEntryImpl] interface; calling it on a wrapper cannot be written. *)
Definition loadImpl (l : Z) : M Heap MapEntryImpl :=
  let! e := load l in
  match e with Impl e => ret e | Tracked _ _ _ => undefined end.

(** [EntryFactory::newMapEntry] *)
Definition newMapEntry (concurrencyChecksEnabled : bool) (key : K) : M Heap Z :=
  alloc (Impl (mkImpl None (Some key)
    (if concurrencyChecksEnabled then Some newVersionStamp else None) 0 0 true)).

Definition getKeyI (l : Z) : M Heap (option K) :=
  let! e := loadImpl l in ret (me_key e).

Definition getValueI (l : Z) : M Heap CacheablePtr :=
  let! e := loadImpl l in
  ret (if isDestroyed (me_value e) then None else me_value e).

Definition setValueI (l : Z) (value : CacheablePtr) : M Heap unit :=
  let! e := loadImpl l in
  storeEntry l (Impl (mkImpl value (me_key e) (me_stamp e) (me_trackers e)
                        (me_updates e) (me_weakThis e))).

(** [shared_from_this()] *)
Definition sharedFromThis (l : Z) (e : MapEntryImpl) : M Heap Z :=
  if me_weakThis e then ret l else throw BadWeakPtr.

(** The virtual functions. *)
Definition getImplPtr (l : Z) : M Heap Z :=
  let! e := load l in
  match e with
  | Impl e => sharedFromThis l e
  | Tracked m_entry _ _ => ret m_entry
  end.

Definition getValue (l : Z) : M Heap CacheablePtr :=
  let! e := load l in
  match e with
  | Impl _ => getValueI l
  | Tracked m_entry _ _ => getValueI m_entry
  end.

Definition getKey (l : Z) : M Heap (option K) :=
  let! e := load l in
  match e with
  | Impl _ => getKeyI l
  | Tracked m_entry _ _ => getKeyI m_entry
  end.

Definition getVersionStamp (l : Z) : M Heap VersionStamp :=
  let! e := load l in
  match e with
  | Impl e =>
      match me_stamp e with
      | Some s => ret s
      | None => throw FatalInternalException
      end
  | Tracked _ _ _ => throw FatalInternalException
  end.

(** [getVersionStamp().setVersions(s)]: the stamp is a base of the entry. *)
Definition setVersionStamp (l : Z) (s : VersionStamp) : M Heap unit :=
  let! _ := getVersionStamp l in
  let! e := loadImpl l in
  storeEntry l (Impl (mkImpl (me_value e) (me_key e) (Some s) (me_trackers e)
                        (me_updates e) (me_weakThis e))).

(** [new (loc) MapEntryT<TBase, trackers, updates>(true)] *)
Definition placementNew (e : MapEntryImpl) (trackers updates : Z) : MapEntryImpl :=
  mkImpl None None ((λ _, newVersionStamp) <$> me_stamp e) trackers updates false.

(** [addTracker]: the entry to rebind, if any, and the update count. *)
Definition addTracker (l : Z) : M Heap (option Z * Z) :=
  let! e := load l in
  match e with
  | Impl e =>
      if me_trackers e =? GF_TRACK_MAX then
        let! this := sharedFromThis l e in
        let! newEntry := alloc (Tracked this (GF_TRACK_MAX + 1) (me_updates e)) in
        ret (Some newEntry, me_updates e)
      else
        storeEntry l (Impl (placementNew e (me_trackers e + 1) (me_updates e))) ;!
        ret (None, me_updates e)
  | Tracked m_entry n u => storeEntry l (Tracked m_entry (n + 1) u) ;! ret (None, u)
  end.

(** [removeTracker]: whether to rebind, and the remaining trackers. *)
Definition removeTracker (l : Z) : M Heap (bool * Z) :=
  let! e := load l in
  match e with
  | Impl e =>
      if me_trackers e =? 0 then ret (false, 0)
      else if me_trackers e =? 1 then
        storeEntry l (Impl (placementNew e 0 0)) ;! ret (false, 0)
      else
        storeEntry l (Impl (placementNew e (me_trackers e - 1) (me_updates e))) ;!
        ret (false, me_trackers e - 1)
  | Tracked m_entry n u =>
      let n := if 0 <? n then n - 1 else n in
      if n =? 0 then storeEntry l (Tracked m_entry n 0) ;! ret (true, 0)
      else storeEntry l (Tracked m_entry n u) ;! ret (false, n)
  end.

Definition incrementUpdateCount (l : Z) : M Heap (option Z * Z) :=
  let! e := load l in
  match e with
  | Impl e =>
      if me_updates e =? GF_UPDATE_MAX then
        let! this := sharedFromThis l e in
        let! newEntry := alloc (Tracked this (me_trackers e) (GF_UPDATE_MAX + 1)) in
        ret (Some newEntry, GF_UPDATE_MAX + 1)
      else if me_trackers e =? 0 then ret (None, me_updates e)
      else
        storeEntry l (Impl (placementNew e (me_trackers e) (me_updates e + 1))) ;!
        ret (None, me_updates e + 1)
  | Tracked m_entry n u =>
      storeEntry l (Tracked m_entry n (u + 1)) ;! ret (None, u + 1)
  end.

Definition getUpdateCount (l : Z) : M Heap Z :=
  let! e := load l in
  match e with Impl e => ret (me_updates e) | Tracked _ _ u => ret u end.

Definition getTrackingNumber (l : Z) : M Heap Z :=
  let! e := load l in
  match e with Impl e => ret (me_trackers e) | Tracked _ n _ => ret n end.
End MapEntry.

Arguments MapEntryImpl K : clear implicits.
Arguments MapEntry K : clear implicits.
Arguments Heap K : clear implicits.
