(* ===== verification/MapSegment.v ===== *)
(** * A segment of the entries map

    Models MapSegment.cpp/.hpp, TombstoneList.cpp/.hpp,
    TombstoneExpiryHandler.cpp and TableOfPrimes.hpp: the hash map from keys to
    entries, the operations the region performs on it, and the list of
    tombstones that remember destroyed entries until their timers expire.

    An operation holds the spin lock of the segment, so it is one step.  Its
    state is the segment and the [World] it shares with the other segments:
    the heap of entries, the application objects, the timer tasks, the version
    environment and the statistics.  References passed to an operation become
    arguments and results. *)

From S2P Require Import Prelude Membership Version MapEntry.

(** ** What the application and the platform provide *)

(** [CacheableKey]: virtual functions of the application's key class. *)
Class CacheableKey (K : Type) := {
  hashcode : K → Z;
  objectSize : K → Z
}.

(** [Delta]: which objects implement it, and [fromDelta], which reports whether
    it succeeded and leaves the object in some state; and the disk an entry may
    have been moved to. *)
Class Application (K O D : Type) := {
  isDelta : O → bool;
  fromDelta : D → O → bool * O;
  readDisk : K → CacheablePtr
}.

(** The timer queue chooses an id that no scheduled task has. *)
Class TaskIds := {
  newTaskId : gset Z → Z;
  newTaskId_fresh s : newTaskId s ∉ s;
  newTaskId_pos s : 0 ≤ newTaskId s
}.

(** ** Tables of primes *)

Definition g_primeTable : list Z :=
  [53; 97; 193; 389; 769; 1543; 3079; 6151; 12289; 24593; 49157; 98317; 196613;
   393241; 786433; 1572869; 3145739; 6291469; 12582917; 25165843; 50331653;
   100663319; 201326611; 402653189; 805306457; 1610612741; 3221225473].

Definition g_primeConcurTable : list Z :=
  [2; 3; 5; 7; 11; 13; 17; 19; 23; 29; 31; 37; 41; 43; 47; 53; 59; 61; 67; 71;
   73; 79; 83; 89; 97; 101; 103; 107; 109; 113; 127; 131; 137; 139; 149; 151;
   157; 163; 167; 173; 179; 181; 191; 193; 197; 199; 211; 223; 227; 229; 233;
   239; 241; 251].

Definition getPrime {S} (index : Z) : M S Z :=
  match g_primeTable !! Z.to_nat index with
  | Some p => ret p
  | None => throw OutOfRangeException
  end.

(** [std::lower_bound] on a sorted table, with the index. *)
Fixpoint lower_bound (table : list Z) (val i : Z) : option (Z * Z) :=
  match table with
  | [] => None
  | p :: table' => if p <? val then lower_bound table' val (i + 1) else Some (i, p)
  end.

Definition nextLargerPrime {S} (val : Z) : M S (Z * Z) :=
  match lower_bound g_primeTable val 0 with
  | Some r => ret r
  | None => throw OutOfRangeException
  end.

Definition nextLargerPrimeForConcurrency {S} (val : Z) : M S Z :=
  match lower_bound g_primeConcurTable val 0 with
  | Some (_, p) => ret p
  | None => throw OutOfRangeException
  end.

Definition getMaxPrimeForConcurrency : Z := default 0 (last g_primeConcurTable).

(** ** State *)

Record TombstoneEntry := mkTombstone {
  tb_entry : option Z;
  tb_creationTime : Z;
  tb_expiryTaskId : Z;
  tb_handler : Z
}.

(** What is fixed when the map is opened. *)
Record SegConfig := mkConfig {
  cf_concurrencyChecksEnabled : bool;
  cf_factoryConcurrencyChecks : bool;
  cf_cloningEnabled : bool;
  cf_tombstoneTimeoutInMSec : Z
}.

Section MapSegment.
Context {K O D : Type} `{EqDecision K, !Countable K}.
Context `{!CacheableKey K, !Application K O D, !TaskIds}.

Record World := mkWorld {
  w_heap : Heap K;
  w_objects : gmap Z O;
  w_nextObject : Z;
  w_tasks : gmap Z Z;
  w_handlers : gmap Z TombstoneEntry;
  w_nextHandler : Z;
  w_env : VersionEnv;
  w_processedDeltas : Z;
  w_tombstoneCount : Z;
  w_tombstoneSize : Z
}.

Record Segment := mkSegment {
  m_map : gmap K Z;
  m_primeIndex : Z;
  m_rehashCount : Z;
  m_destroyedKeys : gmap K Z;
  m_tombstoneMap : gmap K TombstoneEntry
}.

Record State := mkState { st_world : World; st_seg : Segment }.

Definition onHeap {A} : M (Heap K) A → M State A :=
  zoom (λ s, w_heap (st_world s)) (λ h s, let w := st_world s in
    mkState (mkWorld h (w_objects w) (w_nextObject w) (w_tasks w) (w_handlers w)
      (w_nextHandler w) (w_env w) (w_processedDeltas w) (w_tombstoneCount w)
      (w_tombstoneSize w)) (st_seg s)).

Definition onEnv {A} : M VersionEnv A → M State A :=
  zoom (λ s, w_env (st_world s)) (λ e s, let w := st_world s in
    mkState (mkWorld (w_heap w) (w_objects w) (w_nextObject w) (w_tasks w)
      (w_handlers w) (w_nextHandler w) e (w_processedDeltas w)
      (w_tombstoneCount w) (w_tombstoneSize w)) (st_seg s)).

Definition onSeg (f : Segment → Segment) : M State unit :=
  modify (λ s, mkState (st_world s) (f (st_seg s))).

(** ** The hash map *)

Definition set_map (m : gmap K Z) (s : Segment) : Segment :=
  mkSegment m (m_primeIndex s) (m_rehashCount s) (m_destroyedKeys s)
    (m_tombstoneMap s).

Definition find (key : K) : M State (option Z) :=
  let! s := get in ret (m_map (st_seg s) !! key).

(** ACE's [bind] keeps an existing binding. *)
Definition bindKey (key : K) (l : Z) : M State unit :=
  onSeg (λ s, match m_map s !! key with
              | Some _ => s
              | None => set_map (<[key := l]> (m_map s)) s
              end).

Definition rebind (key : K) (l : Z) : M State unit :=
  onSeg (λ s, set_map (<[key := l]> (m_map s)) s).

Definition unbind (key : K) : M State (option Z) :=
  let! s := get in
  onSeg (λ s, set_map (delete key (m_map s)) s) ;!
  ret (m_map (st_seg s) !! key).

(** [++m_primeIndex] happens before the table is consulted. *)
Definition rehash : M State unit :=
  onSeg (λ s, mkSegment (m_map s) (u32 (m_primeIndex s + 1)) (m_rehashCount s)
                (m_destroyedKeys s) (m_tombstoneMap s)) ;!
  let! s := get in
  let! newMapSize := getPrime (m_primeIndex (st_seg s)) in
  onSeg (λ s, mkSegment (m_map s) (m_primeIndex s) (u32 (m_rehashCount s + 1))
                (m_destroyedKeys s) (m_tombstoneMap s)).

(** The test at the start of [create] and [put]. *)
Definition rehashIfFull : M State unit :=
  let! s := get in
  let! mapSize := getPrime (m_primeIndex (st_seg s)) in
  if mapSize <? Z.of_nat (size (m_map (st_seg s))) * 75 / 100 then rehash
  else ret tt.

(** ** Timers *)

Definition set_timers (tasks : gmap Z Z) (handlers : gmap Z TombstoneEntry)
    (next : Z) : M State unit :=
  modify (λ s, let w := st_world s in
    mkState (mkWorld (w_heap w) (w_objects w) (w_nextObject w) tasks handlers next
      (w_env w) (w_processedDeltas w) (w_tombstoneCount w) (w_tombstoneSize w))
      (st_seg s)).

Definition cancelTask (id : Z) : M State unit :=
  let! s := get in
  set_timers (delete id (w_tasks (st_world s))) (w_handlers (st_world s))
    (w_nextHandler (st_world s)).

(** [delete handler]; a second delete is undefined. *)
Definition deleteHandler (h : Z) : M State unit :=
  let! s := get in
  match w_handlers (st_world s) !! h with
  | Some _ => set_timers (w_tasks (st_world s)) (delete h (w_handlers (st_world s)))
                (w_nextHandler (st_world s))
  | None => undefined
  end.

Definition setTombstoneEntry (h : Z) (t : TombstoneEntry) : M State unit :=
  let! s := get in
  set_timers (w_tasks (st_world s)) (<[h := t]> (w_handlers (st_world s)))
    (w_nextHandler (st_world s)).

(** ** The tombstone list *)

Definition SIZEOF_PTR : Z := 8.
Definition SIZEOF_TOMBSTONEOVERHEAD : Z :=
  (SIZEOF_PTR * 5 + 4) +
  ((SIZEOF_PTR + 4) * 4 + SIZEOF_PTR * 2 + (SIZEOF_PTR + 8 + 8)).

Definition tombstonesize (key : K) : Z :=
  i32 (objectSize key + SIZEOF_TOMBSTONEOVERHEAD).

Definition addTombstoneStats (n sz : Z) : M State unit :=
  modify (λ s, let w := st_world s in
    mkState (mkWorld (w_heap w) (w_objects w) (w_nextObject w) (w_tasks w)
      (w_handlers w) (w_nextHandler w) (w_env w) (w_processedDeltas w)
      (w_tombstoneCount w + n) (w_tombstoneSize w + sz)) (st_seg s)).

Definition set_tombstones (f : gmap K TombstoneEntry → gmap K TombstoneEntry)
    : M State unit :=
  onSeg (λ s, mkSegment (m_map s) (m_primeIndex s) (m_rehashCount s)
                (m_destroyedKeys s) (f (m_tombstoneMap s))).

(** [TombstoneList::getExpiryTask]: the handler and the id of its task. *)
Definition getExpiryTask (currTime : Z) : M State (Z * Z) :=
  let! s := get in
  let w := st_world s in
  let handler := w_nextHandler w in
  let id := newTaskId (dom (w_tasks w)) in
  set_timers (<[id := handler]> (w_tasks w))
    (<[handler := mkTombstone None currTime 0 handler]> (w_handlers w))
    (handler + 1) ;!
  ret (handler, id).

(** [TombstoneList::add] *)
Definition tombstoneAdd (entry handler taskid currTime : Z) : M State unit :=
  let t := mkTombstone (Some entry) currTime taskid handler in
  setTombstoneEntry handler t ;!
  let! key := onHeap (getKeyI entry) in
  match key with
  | None => undefined
  | Some key =>
      set_tombstones (insert key t) ;!
      addTombstoneStats 1 (tombstonesize key)
  end.

Definition tombstoneExists (key : K) : M State bool :=
  let! s := get in
  ret (bool_decide (is_Some (m_tombstoneMap (st_seg s) !! key))).

Definition eraseEntryFromTombstoneList (key : K) (cancelTask_ : bool)
    : M State unit :=
  let! s := get in
  match m_tombstoneMap (st_seg s) !! key with
  | None => ret tt
  | Some t =>
      (if cancelTask_ then
         cancelTask (tb_expiryTaskId t) ;! deleteHandler (tb_handler t)
       else ret tt) ;!
      addTombstoneStats (-1) (- tombstonesize key) ;!
      set_tombstones (delete key)
  end.

(** The task id, -1 if there is none, and the handler. *)
Definition eraseEntryFromTombstoneListWithoutCancelTask (key : K)
    : M State (Z * option Z) :=
  let! s := get in
  match m_tombstoneMap (st_seg s) !! key with
  | None => ret (-1, None)
  | Some t =>
      addTombstoneStats (-1) (- tombstonesize key) ;!
      set_tombstones (delete key) ;!
      ret (tb_expiryTaskId t, Some (tb_handler t))
  end.

Definition unguardedRemoveActualEntry (key : K) (cancelTask_ : bool)
    : M State bool :=
  eraseEntryFromTombstoneList key cancelTask_ ;!
  let! r := unbind key in
  ret (bool_decide (is_Some r)).

Definition unguardedRemoveActualEntryWithoutCancelTask (key : K)
    : M State (bool * (Z * option Z)) :=
  let! t := eraseEntryFromTombstoneListWithoutCancelTask key in
  let! r := unbind key in
  ret (bool_decide (is_Some r), t).

Definition removeActualEntry := unguardedRemoveActualEntry.

(** The end of [create] and [put], outside the spin lock. *)
Definition cancelRemoved (t : Z * option Z) : M State unit :=
  if negb (t.1 =? -1) then
    cancelTask t.1 ;!
    match t.2 with Some h => deleteHandler h | None => ret tt end
  else ret tt.

(** ** Operations *)

Variable cfg : SegConfig.

(** The segment's [incrementUpdateCount]. *)
Definition segIncrementUpdateCount (key : K) (entry : Z) : M State unit :=
  if cf_concurrencyChecksEnabled cfg then ret tt
  else
    let! r := onHeap (incrementUpdateCount entry) in
    match r.1 with
    | Some newEntry => rebind key newEntry
    | None => ret tt
    end.

(** The private [removeTrackerForEntry]. *)
Definition segRemoveTracker (key : K) (entry entryImpl : Z) : M State unit :=
  if cf_concurrencyChecksEnabled cfg then ret tt
  else
    let! trackerPair := onHeap (removeTracker entry) in
    let! value :=
      if trackerPair.2 <=? 0 then
        let! v := onHeap (getValueI entryImpl) in ret (Some v)
      else ret None in
    match value with
    | Some None => unbind key ;! ret tt
    | _ => if trackerPair.1 then rebind key entryImpl else ret tt
    end.

(** [putNoEntry]: the error and the new entry. *)
Definition putNoEntry (numDestroyTrackers : Z) (key : K) (newValue : CacheablePtr)
    (me : option Z) (updateCount destroyTracker : Z) (versionTag : option VersionTag)
    (versionStamp : option VersionStamp) : M State (GfErrType * option Z) :=
  let! s := get in
  let abort :=
    if cf_concurrencyChecksEnabled cfg then false
    else if 0 <=? updateCount then true
    else if (0 <? destroyTracker) && (0 <? numDestroyTrackers) then
      match m_destroyedKeys (st_seg s) !! key with
      | Some n => destroyTracker <? n
      | None => false
      end
    else false in
  if abort then ret (GF_CACHE_ENTRY_UPDATED, me)
  else
    let! newEntry := onHeap (newMapEntry (cf_factoryConcurrencyChecks cfg) key) in
    onHeap (setValueI newEntry newValue) ;!
    (if cf_concurrencyChecksEnabled cfg then
       match versionTag with
       | Some tag =>
           onHeap (setVersionStamp newEntry (setVersions tag))
       | None =>
           match versionStamp with
           | Some s => onHeap (setVersionStamp newEntry s)
           | None => ret tt
           end
       end
     else ret tt) ;!
    bindKey key newEntry ;!
    ret (GF_NOERR, Some newEntry).

Definition deltaStats (success : bool) : M State unit :=
  if success then
    modify (λ s, let w := st_world s in
      mkState (mkWorld (w_heap w) (w_objects w) (w_nextObject w) (w_tasks w)
        (w_handlers w) (w_nextHandler w) (w_env w)
        (w_processedDeltas w +
           match ve_deltaFailures (w_env w) with Some _ => 1 | None => 0 end)
        (w_tombstoneCount w) (w_tombstoneSize w)) (st_seg s))
  else onEnv (modify updateNotificationStats_failure).

Definition setObject (l : Z) (o : O) (next : Z) : M State unit :=
  modify (λ s, let w := st_world s in
    mkState (mkWorld (w_heap w) (<[l := o]> (w_objects w)) next (w_tasks w)
      (w_handlers w) (w_nextHandler w) (w_env w) (w_processedDeltas w)
      (w_tombstoneCount w) (w_tombstoneSize w)) (st_seg s)).

(** Apply a delta to the old value of an entry, on a clone or in place; the
    result is the new value, [None] when [fromDelta] failed.  A value that is
    not a [Delta] casts to a null pointer. *)
Definition applyDelta (entryImpl : Z) (oldValue : Value) (delta : D)
    : M State (option Value) :=
  let! s := get in
  match oldValue with
  | VToken _ => undefined
  | VObject l =>
      match w_objects (st_world s) !! l with
      | None => undefined
      | Some o =>
          if isDelta o then
            let target := if cf_cloningEnabled cfg then w_nextObject (st_world s)
                          else l in
            let next := if cf_cloningEnabled cfg then w_nextObject (st_world s) + 1
                        else w_nextObject (st_world s) in
            let (ok, o') := fromDelta delta o in
            setObject target o' next ;!
            if ok then
              deltaStats true ;!
              onHeap (setValueI entryImpl (Some (VObject target))) ;!
              ret (Some (VObject target))
            else ret None
          else undefined
      end
  end.

(** [putForTrackedEntry]: the error and the value of the caller's [newValue]
    afterwards. *)
Definition putForTrackedEntry (key : K) (newValue : CacheablePtr)
    (entry entryImpl updateCount : Z) (versionStamp : VersionStamp)
    (delta : option D) : M State (GfErrType * CacheablePtr) :=
  let failed := deltaStats false ;! ret None in
  if (updateCount <? 0) || cf_concurrencyChecksEnabled cfg then
    let! stored :=
      match delta with
      | Some d =>
          let! oldValue := onHeap (getValueI entryImpl) in
          match oldValue with
          | None => failed
          | Some (VToken OVERFLOWED) =>
              match readDisk key with
              | None => failed
              | Some v => applyDelta entryImpl v d
              end
          | Some (VToken _) => failed
          | Some v => applyDelta entryImpl v d
          end
      | None => onHeap (setValueI entryImpl newValue) ;! ret newValue
      end in
    match delta, stored with
    | Some _, None => ret (GF_INVALID_DELTA, newValue)
    | _, _ =>
        (if cf_concurrencyChecksEnabled cfg then
           eraseEntryFromTombstoneList key true ;!
           onHeap (setVersionStamp entryImpl versionStamp)
         else ret tt) ;!
        segIncrementUpdateCount key entry ;!
        ret (GF_NOERR, stored)
    end
  else
    let! count := onHeap (getUpdateCount entry) in
    if updateCount =? count then
      onHeap (setValueI entryImpl newValue) ;!
      segRemoveTracker key entry entryImpl ;!
      ret (GF_NOERR, newValue)
    else
      segRemoveTracker key entry entryImpl ;!
      ret (GF_CACHE_ENTRY_UPDATED, newValue).

(** The version check of an operation on an existing entry: an error, or the
    stamp to write. *)
Definition checkVersion (entry : Z) (versionTag : option VersionTag)
    (deltaCheck : bool) : M State (GfErrType * VersionStamp) :=
  if cf_concurrencyChecksEnabled cfg then
    let! stamp := onHeap (getVersionStamp entry) in
    match versionTag with
    | Some tag =>
        let! err := onEnv (processVersionTag stamp (Some tag) deltaCheck) in
        ret (err, setVersions tag)
    | None => ret (GF_NOERR, stamp)
    end
  else ret (GF_NOERR, newVersionStamp).

(** [create]: the error, [me] and [oldValue]. *)
Definition create (numDestroyTrackers : Z) (key : K) (newValue : CacheablePtr)
    (me : option Z) (oldValue : CacheablePtr) (updateCount destroyTracker : Z)
    (versionTag : option VersionTag)
    : M State (GfErrType * option Z * CacheablePtr) :=
  rehashIfFull ;!
  let! entry := find key in
  match entry with
  | None =>
      let! r := putNoEntry numDestroyTrackers key newValue me updateCount
                  destroyTracker versionTag None in
      ret (r.1, r.2, oldValue)
  | Some entry =>
      let! entryImpl := onHeap (getImplPtr entry) in
      let! oldValue := onHeap (getValueI entryImpl) in
      if bool_decide (oldValue = None) || isTombstone oldValue then
        let! v := checkVersion entry versionTag false in
        if negb (bool_decide (v.1 = GF_NOERR)) then ret (v.1, me, oldValue)
        else
          let! r :=
            if bool_decide (oldValue = None) then
              let! r := putForTrackedEntry key newValue entry entryImpl updateCount
                          v.2 None in
              ret (r.1, me, (-1, None))
            else
              let! t := unguardedRemoveActualEntryWithoutCancelTask key in
              let! r := putNoEntry numDestroyTrackers key newValue me updateCount
                          destroyTracker versionTag (Some v.2) in
              ret (r.1, r.2, t.2) in
          let me := if bool_decide (r.1.1 = GF_NOERR) then Some entryImpl
                    else r.1.2 in
          cancelRemoved r.2 ;!
          ret (r.1.1, me, None)
      else ret (GF_CACHE_ENTRY_EXISTS, me, oldValue)
  end.

(** [put]: the error, [me], [oldValue], [isUpdate] and the caller's
    [newValue]. *)
Definition put (numDestroyTrackers : Z) (key : K) (newValue : CacheablePtr)
    (me : option Z) (oldValue : CacheablePtr) (updateCount destroyTracker : Z)
    (isUpdate : bool) (versionTag : option VersionTag) (delta : option D)
    : M State (GfErrType * option Z * CacheablePtr * bool * CacheablePtr) :=
  rehashIfFull ;!
  let! entry := find key in
  match entry with
  | None =>
      match delta with
      | Some _ => ret (GF_INVALID_DELTA, me, oldValue, isUpdate, newValue)
      | None =>
          let! r := putNoEntry numDestroyTrackers key newValue me updateCount
                      destroyTracker versionTag None in
          ret (r.1, r.2, oldValue, false, newValue)
      end
  | Some entry =>
      let! entryImpl := onHeap (getImplPtr entry) in
      let! meOldValue := onHeap (getValueI entryImpl) in
      let! v := checkVersion entry versionTag
                  (match delta with Some _ => true | None => false end) in
      if negb (bool_decide (v.1 = GF_NOERR)) then
        ret (v.1, me, oldValue, isUpdate, newValue)
      else if isTombstone meOldValue then
        let! t := unguardedRemoveActualEntryWithoutCancelTask key in
        let! r := putNoEntry numDestroyTrackers key newValue me updateCount
                    destroyTracker versionTag (Some v.2) in
        cancelRemoved t.2 ;!
        ret (r.1, r.2, oldValue, false, newValue)
      else
        let! r := putForTrackedEntry key newValue entry entryImpl updateCount v.2
                    delta in
        if bool_decide (r.1 = GF_NOERR) then
          ret (r.1, Some entryImpl, meOldValue, bool_decide (is_Some meOldValue), r.2)
        else ret (r.1, me, oldValue, isUpdate, r.2)
  end.

(** [invalidate]: the error, [me], [oldValue] and [isTokenAdded]. *)
Definition invalidate (numDestroyTrackers : Z) (key : K) (me : option Z)
    (oldValue : CacheablePtr) (versionTag : option VersionTag)
    : M State (GfErrType * option Z * CacheablePtr * bool) :=
  let! entry := find key in
  match entry with
  | Some entry =>
      let! v := checkVersion entry versionTag false in
      if negb (bool_decide (v.1 = GF_NOERR)) then ret (v.1, me, oldValue, false)
      else
        let! entryImpl := onHeap (getImplPtr entry) in
        let! oldValue := onHeap (getValueI entryImpl) in
        if isTombstone oldValue then ret (GF_CACHE_ENTRY_NOT_FOUND, me, None, false)
        else
          onHeap (setValueI entryImpl (Some (VToken INVALID))) ;!
          (if cf_concurrencyChecksEnabled cfg
           then onHeap (setVersionStamp entryImpl v.2) else ret tt) ;!
          segIncrementUpdateCount key entry ;!
          ret (GF_NOERR, if bool_decide (is_Some oldValue) then Some entryImpl else me,
               oldValue, false)
  | None =>
      if cf_concurrencyChecksEnabled cfg then
        let! r := putNoEntry numDestroyTrackers key (Some (VToken INVALID)) me
                    (-1) (-1) versionTag None in
        if negb (bool_decide (r.1 = GF_NOERR)) then ret (r.1, r.2, oldValue, false)
        else ret (GF_CACHE_ENTRY_NOT_FOUND, r.2, oldValue, true)
      else ret (GF_CACHE_ENTRY_NOT_FOUND, me, oldValue, false)
  end.

(** The fields written by [removeWhenConcurrencyEnabled] besides its result. *)
Record RemoveOut := mkRemoveOut {
  ro_err : GfErrType;
  ro_oldValue : CacheablePtr;
  ro_me : option Z;
  ro_isEntryFound : bool;
  ro_expTaskSet : bool
}.

Definition removeWhenConcurrencyEnabled (numDestroyTrackers : Z) (key : K)
    (oldValue : CacheablePtr) (me : option Z) (updateCount : Z)
    (versionTag : option VersionTag) (afterRemote : bool)
    (expiryTaskID handler currTime : Z) : M State RemoveOut :=
  let! entry := find key in
  match entry with
  | Some entry =>
      let! stamp := onHeap (getVersionStamp entry) in
      let! v :=
        match versionTag with
        | Some tag =>
            let! impl := onHeap (getImplPtr entry) in
            let! err := onEnv (processVersionTag stamp (Some tag) false) in
            ret (err, setVersions tag)
        | None => ret (GF_NOERR, stamp)
        end in
      if negb (bool_decide (v.1 = GF_NOERR)) then
        ret (mkRemoveOut v.1 oldValue me true false)
      else
        let! entryImpl := onHeap (getImplPtr entry) in
        let! oldValue := onHeap (getValueI entryImpl) in
        let me := if bool_decide (is_Some oldValue) then Some entryImpl else me in
        let! r := putForTrackedEntry key (Some (VToken TOMBSTONE)) entry entryImpl
                    updateCount v.2 None in
        let! set :=
          if bool_decide (r.1 = GF_NOERR) then
            tombstoneAdd entryImpl handler expiryTaskID currTime ;! ret true
          else ret false in
        if isTombstone oldValue then
          ret (mkRemoveOut (if afterRemote then GF_NOERR else GF_CACHE_ENTRY_NOT_FOUND)
                 None me true set)
        else ret (mkRemoveOut r.1 oldValue me true set)
  | None =>
      let! set :=
        match versionTag with
        | Some _ =>
            let! r := putNoEntry numDestroyTrackers key (Some (VToken TOMBSTONE))
                        None (-1) 0 versionTag None in
            match r.2 with
            | Some mapEntry =>
                let! impl := onHeap (getImplPtr mapEntry) in
                tombstoneAdd impl handler expiryTaskID currTime ;! ret true
            | None => undefined
            end
        | None => ret false
        end in
      ret (mkRemoveOut (if afterRemote then GF_NOERR else GF_CACHE_ENTRY_NOT_FOUND)
             None me false set)
  end.

(** [remove]: the error, [oldValue], [me] and [isEntryFound]. *)
Definition remove (numDestroyTrackers currTime : Z) (key : K)
    (oldValue : CacheablePtr) (me : option Z) (updateCount : Z)
    (versionTag : option VersionTag) (afterRemote isEntryFound : bool)
    : M State (GfErrType * CacheablePtr * option Z * bool) :=
  if cf_concurrencyChecksEnabled cfg then
    let! t := getExpiryTask currTime in
    let! r := removeWhenConcurrencyEnabled numDestroyTrackers key oldValue me
                updateCount versionTag afterRemote t.2 t.1 currTime in
    (if negb (ro_expTaskSet r) then cancelTask t.2 ;! deleteHandler t.1
     else ret tt) ;!
    ret (ro_err r, ro_oldValue r, ro_me r, ro_isEntryFound r)
  else
    let! entry := unbind key in
    match entry with
    | None =>
        (if 0 <? numDestroyTrackers then
           onSeg (λ s, mkSegment (m_map s) (m_primeIndex s) (m_rehashCount s)
             (<[key := numDestroyTrackers + 1]> (m_destroyedKeys s))
             (m_tombstoneMap s))
         else ret tt) ;!
        ret (GF_CACHE_ENTRY_NOT_FOUND, None, me, isEntryFound)
    | Some entry =>
        let! count := onHeap (getUpdateCount entry) in
        if (0 <=? updateCount) && negb (updateCount =? count) then
          ret (GF_CACHE_ENTRY_UPDATED, oldValue, me, isEntryFound)
        else
          let! entryImpl := onHeap (getImplPtr entry) in
          let! oldValue := onHeap (getValueI entryImpl) in
          let oldValue := if isTombstone oldValue then None else oldValue in
          ret (GF_NOERR, oldValue,
               if bool_decide (is_Some oldValue) then Some entryImpl else me,
               isEntryFound)
    end.

(** [getEntry]: the entry and the value, or [None]. *)
Definition getEntry (key : K) : M State (option (Z * Value)) :=
  let! entry := find key in
  match entry with
  | None => ret None
  | Some entry =>
      let! mePtr := onHeap (getImplPtr entry) in
      let! value := onHeap (getValueI mePtr) in
      match value with
      | None => ret None
      | Some v => if isTombstone value then ret None else ret (Some (mePtr, v))
      end
  end.

Definition containsKey (key : K) : M State bool :=
  let! entry := find key in
  match entry with
  | None => ret false
  | Some entry =>
      let! mePtr := onHeap (getImplPtr entry) in
      let! value := onHeap (getValueI mePtr) in
      ret (negb (isTombstone value))
  end.

(** Loops over the map, in the order of its iterator. *)
Fixpoint forEach {A} (l : list (K * Z)) (body : K → Z → M State (option A))
    : M State (list A) :=
  match l with
  | [] => ret []
  | (k, e) :: l' =>
      let! a := body k e in
      let! rest := forEach l' body in
      ret (match a with Some a => a :: rest | None => rest end)
  end.

Definition overMap {A} (body : K → Z → M State (option A)) : M State (list A) :=
  let! s := get in forEach (map_to_list (m_map (st_seg s))) body.

Definition keys : M State (list K) :=
  overMap (λ k e,
    let! impl := onHeap (getImplPtr e) in
    let! value := onHeap (getValueI impl) in
    ret (if isTombstone value then None else Some k)).

(** [entries]: a region entry is a key and a value, null when invalid. *)
Definition entries : M State (list (option K * CacheablePtr)) :=
  overMap (λ k e,
    let! me := onHeap (getImplPtr e) in
    let! value := onHeap (getValueI me) in
    if bool_decide (is_Some value) && negb (isTombstone value) then
      let! key := onHeap (getKeyI me) in
      ret (Some (key, if isInvalid value then None else value))
    else ret None).

Definition values : M State (list CacheablePtr) :=
  overMap (λ k e,
    let! value := onHeap (getValue e) in
    let! entry := find k in
    match entry with
    | None => ret None
    | Some entry =>
        let! entryImpl := onHeap (getImplPtr entry) in
        if bool_decide (is_Some value) && negb (isInvalid value) &&
           negb (isDestroyed value) && negb (isTombstone value) then
          if isOverflowed value then
            let value := readDisk k in
            onHeap (setValueI entryImpl value) ;!
            ret (Some value)
          else ret (Some value)
        else ret None
    end).

(** ** Tracking *)

(** [addTrackerForEntry]: the update count, -1 when nothing is tracked, and
    [oldValue]. *)
Definition addTrackerForEntry (key : K) (oldValue : CacheablePtr)
    (addIfAbsent failIfPresent incUpdateCount : bool)
    : M State (Z * CacheablePtr) :=
  if cf_concurrencyChecksEnabled cfg then ret (-1, oldValue)
  else
    let track (entry : Z) (newEntry : option Z) : M State (option Z * Z) :=
      let! r := onHeap (addTracker entry) in
      let newEntry := match r.1 with Some e => Some e | None => newEntry end in
      if incUpdateCount then
        let! r := onHeap (incrementUpdateCount entry) in
        ret (match r.1 with Some e => Some e | None => newEntry end, r.2)
      else ret (newEntry, r.2) in
    let! entry := find key in
    match entry with
    | None =>
        if addIfAbsent then
          let! entryImpl := onHeap (newMapEntry (cf_factoryConcurrencyChecks cfg) key) in
          onHeap (setValueI entryImpl (Some (VToken DESTROYED))) ;!
          let! r := track entryImpl (Some entryImpl) in
          match r.1 with Some e => bindKey key e | None => ret tt end ;!
          ret (r.2, None)
        else ret (-1, None)
    | Some entry =>
        let! oldValue := onHeap (getValue entry) in
        if failIfPresent then ret (-1, oldValue)
        else
          let! r := track entry None in
          match r.1 with Some e => rebind key e | None => ret tt end ;!
          ret (r.2, oldValue)
    end.

Definition removeTrackerForEntry (key : K) : M State unit :=
  if cf_concurrencyChecksEnabled cfg then ret tt
  else
    let! entry := find key in
    match entry with
    | None => ret tt
    | Some entry =>
        let! impl := onHeap (getImplPtr entry) in
        segRemoveTracker key entry impl
    end.

(** The loop of [addTrackerForAllEntries]; [newEntry] is declared outside of it
    and keeps its value from one iteration to the next. *)
Fixpoint trackAll (l : list (K * Z)) (newEntry : option Z)
    (updateCounterMap : gmap K Z) : M State (gmap K Z) :=
  match l with
  | [] => ret updateCounterMap
  | (_, e) :: l' =>
      let! key := onHeap (getKey e) in
      let! r := onHeap (addTracker e) in
      let newEntry := match r.1 with Some e => Some e | None => newEntry end in
      match key with
      | None => undefined
      | Some key =>
          match newEntry with Some e => rebind key e | None => ret tt end ;!
          trackAll l' newEntry
            (match updateCounterMap !! key with
             | Some _ => updateCounterMap
             | None => <[key := r.2]> updateCounterMap
             end)
      end
  end.

Definition addTrackerForAllEntries (updateCounterMap : gmap K Z)
    : M State (gmap K Z) :=
  if cf_concurrencyChecksEnabled cfg then ret updateCounterMap
  else
    let! s := get in
    trackAll (map_to_list (m_map (st_seg s))) None updateCounterMap.

Definition removeDestroyTracking : M State unit :=
  if cf_concurrencyChecksEnabled cfg then ret tt
  else onSeg (λ s, mkSegment (m_map s) (m_primeIndex s) (m_rehashCount s) ∅
                     (m_tombstoneMap s)).

(** ** Reaping tombstones *)

(** The keys whose tombstones are not newer than what the server collected:
    [tobeDeleted] of [reapTombstones(gcVersions)]. *)
Fixpoint tobeDeleted (gcVersions : gmap Z Z) (l : list (K * TombstoneEntry))
    : M State (list K) :=
  match l with
  | [] => ret []
  | (key, t) :: l' =>
      match tb_entry t with
      | None => undefined
      | Some entry =>
          let! stamp := onHeap (getVersionStamp entry) in
          let! rest := tobeDeleted gcVersions l' in
          ret (match gcVersions !! vs_memberID stamp with
               | Some version =>
                   if getRegionVersion stamp <=? version then key :: rest else rest
               | None => rest
               end)
      end
  end.

Fixpoint unguardedRemoveAll (ks : list K) : M State unit :=
  match ks with
  | [] => ret tt
  | key :: ks' => unguardedRemoveActualEntry key true ;! unguardedRemoveAll ks'
  end.

Definition reapTombstones_versions (gcVersions : gmap Z Z) : M State unit :=
  let! s := get in
  let! ks := tobeDeleted gcVersions (map_to_list (m_tombstoneMap (st_seg s))) in
  unguardedRemoveAll ks.

Definition reapTombstones_keys (removedKeys : list K) : M State unit :=
  unguardedRemoveAll removedKeys.

(** [TombstoneExpiryHandler::handle_timeout] of [handler] at [current_time]:
    on expiry the actual entry is removed, and resetting the task to 0 makes
    the timer queue drop the task and its handler. *)
Definition handle_timeout (handler current_time : Z) : M State unit :=
  let! s := get in
  match w_handlers (st_world s) !! handler with
  | None => undefined
  | Some t =>
      match tb_entry t with
      | None => undefined
      | Some entry =>
          let! key := onHeap (getKeyI entry) in
          match key with
          | None => undefined
          | Some key =>
              let m_duration := u32 (cf_tombstoneTimeoutInMSec cfg / 1000) in
              let sec := current_time - tb_creationTime t - u32 (m_duration * 1000) in
              if 0 <=? sec then
                removeActualEntry key false ;!
                cancelTask (tb_expiryTaskId t) ;!
                deleteHandler handler
              else ret tt
          end
      end
  end.

(** [isTombstone]: the error, [me] and [result]. *)
Definition segIsTombstone (key : K) (me : option Z)
    : M State (GfErrType * option Z * bool) :=
  let! entry := find key in
  match entry with
  | None => ret (GF_NOERR, me, false)
  | Some entry =>
      let! mePtr := onHeap (getImplPtr entry) in
      let! value := onHeap (getValueI mePtr) in
      let! listed := tombstoneExists key in
      match value with
      | None => ret (GF_NOERR, me, false)
      | Some _ =>
          if isTombstone value then
            if listed then ret (GF_NOERR, Some mePtr, true)
            else ret (GF_CACHE_ILLEGAL_STATE_EXCEPTION, me, false)
          else
            if listed then ret (GF_CACHE_ILLEGAL_STATE_EXCEPTION, me, false)
            else ret (GF_NOERR, me, false)
      end
  end.

(** ** Life cycle *)

Definition open (size : Z) : M State unit :=
  let! r := nextLargerPrime size in
  onSeg (λ s, mkSegment ∅ r.1 (m_rehashCount s) (m_destroyedKeys s)
                (m_tombstoneMap s)).

Definition clear : M State unit := onSeg (set_map ∅).
End MapSegment.

Arguments World K O : clear implicits.
Arguments Segment K {_ _}.
Arguments State K O {_ _}.
