(* ===== verification/SegmentInvariant.v ===== *)
(** * The invariant of a segment with concurrency checks

    With concurrency checks enabled the map, the heap of entries, the tombstone
    list and the timer queue have to agree: a key is in the tombstone list
    exactly when its entry holds the tombstone token, and then its timer task
    and handler are alive.  The invariant is stated per key; an operation on
    one key re-establishes it there and leaves every other key alone, in this
    and in every other segment that shares the world. *)

From S2P Require Import Prelude Membership Version MapEntry MapSegment.

Section Invariant.
Context {K O D : Type} `{EqDecision K, !Countable K}.
Context `{!CacheableKey K, !Application K O D, !TaskIds}.

Implicit Types (w : World K O) (g : Segment K) (s : State K O).

Definition heapAt w (l : Z) : option (MapEntry K) := h_entries (w_heap w) !! l.

(** The entry a key is bound to. *)
Record entry_ok w (k : K) (l : Z) (e : MapEntryImpl K) : Prop := {
  eo_heap : heapAt w l = Some (Impl e);
  eo_key : me_key e = Some k;
  eo_this : me_weakThis e = true;
  eo_stamp : is_Some (me_stamp e);
  eo_live : is_Some (me_value e) ∧ me_value e ≠ Some (VToken DESTROYED)
}.

(** The tombstone list at a key. *)
Definition tomb_ok w g (k : K) (l : Z) (e : MapEntryImpl K) : Prop :=
  match m_tombstoneMap g !! k with
  | None => me_value e ≠ Some (VToken TOMBSTONE)
  | Some t =>
      me_value e = Some (VToken TOMBSTONE) ∧ tb_entry t = Some l ∧
      w_handlers w !! tb_handler t = Some t ∧
      w_tasks w !! tb_expiryTaskId t = Some (tb_handler t) ∧
      0 ≤ tb_expiryTaskId t
  end.

Definition key_ok w g (k : K) : Prop :=
  match m_map g !! k with
  | None => m_tombstoneMap g !! k = None
  | Some l => ∃ e, entry_ok w k l e ∧ tomb_ok w g k l e
  end.

(** Addresses not yet handed out are free. *)
Record world_ok w : Prop := {
  wo_heap : ∀ l, is_Some (heapAt w l) → l < h_next (w_heap w);
  wo_handlers : ∀ h, is_Some (w_handlers w !! h) → h < w_nextHandler w
}.

(** What the region sees of a key: its value, unless it is a tombstone. *)
Definition live w g (k : K) : CacheablePtr :=
  match m_map g !! k with
  | None => None
  | Some l =>
      match heapAt w l with
      | Some (Impl e) => if isTombstone (me_value e) then None else me_value e
      | _ => None
      end
  end.

(** An operation on [k] leaves the other keys alone. *)
Definition wframes (k : K) w w' : Prop := ∀ g k', k' ≠ k →
  key_ok w g k' → key_ok w' g k' ∧ live w' g k' = live w g k'.

Definition sframes (k : K) g g' : Prop := ∀ k', k' ≠ k →
  m_map g' !! k' = m_map g !! k' ∧ m_tombstoneMap g' !! k' = m_tombstoneMap g !! k'.

Lemma wframes_refl k w : wframes k w w.
Proof. done. Qed.

Lemma wframes_trans k w1 w2 w3 : wframes k w1 w2 → wframes k w2 w3 → wframes k w1 w3.
Proof.
  intros H12 H23 g k' Hk Hok. destruct (H12 g k' Hk Hok) as [Hok2 E2].
  destruct (H23 g k' Hk Hok2) as [Hok3 E3]. split; [done|congruence].
Qed.

Lemma sframes_refl k g : sframes k g g.
Proof. done. Qed.

Lemma sframes_trans k g1 g2 g3 : sframes k g1 g2 → sframes k g2 g3 → sframes k g1 g3.
Proof.
  intros H12 H23 k' Hk. destruct (H12 k' Hk), (H23 k' Hk). split; congruence.
Qed.

(** [key_ok] and [live] look at the segment only at their key. *)
Lemma key_ok_seg w g g' k :
  m_map g' !! k = m_map g !! k → m_tombstoneMap g' !! k = m_tombstoneMap g !! k →
  (key_ok w g k → key_ok w g' k) ∧ live w g' k = live w g k.
Proof. intros E1 E2. unfold key_ok, live, tomb_ok. by rewrite E1, E2. Qed.

(** A change of the world that no key notices. *)
Definition keeps w w' : Prop := ∀ g k,
  key_ok w g k → key_ok w' g k ∧ live w' g k = live w g k.

Lemma keeps_wframes k w w' : keeps w w' → wframes k w w'.
Proof. intros Hk g k' _. apply Hk. Qed.

Lemma keeps_intro w w' :
  (∀ k l e, entry_ok w k l e → heapAt w' l = Some (Impl e)) →
  (∀ k l e t, entry_ok w k l e → tb_entry t = Some l →
     w_handlers w !! tb_handler t = Some t →
     w_tasks w !! tb_expiryTaskId t = Some (tb_handler t) →
     w_handlers w' !! tb_handler t = Some t ∧
     w_tasks w' !! tb_expiryTaskId t = Some (tb_handler t)) →
  keeps w w'.
Proof.
  intros Hh Ht g k. unfold key_ok, live.
  destruct (m_map g !! k) as [l|]; [|done].
  intros (e & He & Hto). pose proof (Hh k l e He) as E'.
  rewrite E', (eo_heap _ _ _ _ He). split; [|done].
  exists e. split; [by destruct He; split|]. unfold tomb_ok in *.
  destruct (m_tombstoneMap g !! k) as [t|]; [|done].
  destruct Hto as (Hv & Hte & Hth & Htt & Hp).
  by destruct (Ht k l e t He Hte Hth Htt).
Qed.

(** A change of the world that keeps, for every other key, its entry, and if it
    is a tombstone its handler and task. *)
Lemma wframes_intro k w w' :
  (∀ k' l e, k' ≠ k → entry_ok w k' l e → heapAt w' l = Some (Impl e)) →
  (∀ k' l e t, k' ≠ k → entry_ok w k' l e → tb_entry t = Some l →
     w_handlers w !! tb_handler t = Some t →
     w_tasks w !! tb_expiryTaskId t = Some (tb_handler t) →
     w_handlers w' !! tb_handler t = Some t ∧
     w_tasks w' !! tb_expiryTaskId t = Some (tb_handler t)) →
  wframes k w w'.
Proof.
  intros Hh Ht g k' Hk. unfold key_ok, live.
  destruct (m_map g !! k') as [l|]; [|done].
  intros (e & He & Hto). pose proof (Hh k' l e Hk He) as E'.
  rewrite E', (eo_heap _ _ _ _ He). split; [|done].
  exists e. split; [by destruct He; split|]. unfold tomb_ok in *.
  destruct (m_tombstoneMap g !! k') as [t|]; [|done].
  destruct Hto as (Hv & Hte & Hth & Htt & Hp).
  by destruct (Ht k' l e t Hk He Hte Hth Htt).
Qed.

(** ** The building blocks of the operations, as functions on states *)

Definition set_heap (h : Heap K) w : World K O :=
  mkWorld h (w_objects w) (w_nextObject w) (w_tasks w) (w_handlers w)
    (w_nextHandler w) (w_env w) (w_processedDeltas w) (w_tombstoneCount w)
    (w_tombstoneSize w).

Definition updEntry (l : Z) (e : MapEntryImpl K) w : World K O :=
  set_heap (mkHeap (<[l := Impl e]> (h_entries (w_heap w))) (h_next (w_heap w))) w.

Definition newEntry (e : MapEntryImpl K) w : World K O :=
  set_heap (mkHeap (<[h_next (w_heap w) := Impl e]> (h_entries (w_heap w)))
    (h_next (w_heap w) + 1)) w.

Definition setTimers (tasks : gmap Z Z) (handlers : gmap Z TombstoneEntry)
    (next n sz : Z) w : World K O :=
  mkWorld (w_heap w) (w_objects w) (w_nextObject w) tasks handlers next (w_env w)
    (w_processedDeltas w) (w_tombstoneCount w + n) (w_tombstoneSize w + sz).

(** Drop the task and handler of tombstone [t]. *)
Definition dropTimer (t : TombstoneEntry) (n sz : Z) w : World K O :=
  setTimers (delete (tb_expiryTaskId t) (w_tasks w))
    (delete (tb_handler t) (w_handlers w)) (w_nextHandler w) n sz w.

Definition setTombs (f : gmap K TombstoneEntry → gmap K TombstoneEntry) g
    : Segment K :=
  mkSegment (m_map g) (m_primeIndex g) (m_rehashCount g) (m_destroyedKeys g)
    (f (m_tombstoneMap g)).

Lemma heapAt_updEntry l e w l' :
  heapAt (updEntry l e w) l' = if decide (l' = l) then Some (Impl e) else heapAt w l'.
Proof.
  unfold heapAt, updEntry. simpl. case_decide as E.
  - subst. by rewrite lookup_insert_eq.
  - by rewrite lookup_insert_ne.
Qed.

Lemma world_ok_updEntry l e w :
  world_ok w → is_Some (heapAt w l) → world_ok (updEntry l e w).
Proof.
  intros [Hh Hd] Hl. split; [|done]. intros l' Hl'.
  rewrite heapAt_updEntry in Hl'. case_decide as E; [subst|]; by apply Hh.
Qed.

Lemma wframes_updEntry k l e e' w :
  heapAt w l = Some (Impl e) → me_key e = Some k → wframes k w (updEntry l e' w).
Proof.
  intros Hl Hk. apply wframes_intro; [|done].
  intros k' l' e0 Hne He. rewrite heapAt_updEntry. case_decide as E.
  - subst. destruct He. congruence.
  - by destruct He.
Qed.

Lemma heapAt_newEntry_old e w l :
  world_ok w → is_Some (heapAt w l) → heapAt (newEntry e w) l = heapAt w l.
Proof.
  intros [Hh _] Hl. apply Hh in Hl. unfold heapAt, newEntry. simpl.
  rewrite lookup_insert_ne; [done|lia].
Qed.

Lemma heapAt_newEntry_new e w :
  heapAt (newEntry e w) (h_next (w_heap w)) = Some (Impl e).
Proof. unfold heapAt, newEntry. simpl. by rewrite lookup_insert_eq. Qed.

Lemma world_ok_newEntry e w : world_ok w → world_ok (newEntry e w).
Proof.
  intros [Hh Hd]. split; [|done]. intros l Hl. unfold heapAt, newEntry in *.
  simpl in *. destruct (decide (l = h_next (w_heap w))) as [->|Hne]; [lia|].
  rewrite lookup_insert_ne in Hl by done. apply Hh in Hl. lia.
Qed.

Lemma wframes_newEntry k e w : world_ok w → wframes k w (newEntry e w).
Proof.
  intros Hw. apply wframes_intro; [|done]. intros k' l e' _ [Hh _ _ _ _].
  by rewrite heapAt_newEntry_old by (rewrite ?Hh; eauto).
Qed.

Lemma world_ok_dropTimer t n sz w : world_ok w → world_ok (dropTimer t n sz w).
Proof.
  intros [Hh Hd]. split; [done|]. intros h. simpl. intros [? Hl].
  apply lookup_delete_Some in Hl as [_ Hl]. apply Hd. by exists x.
Qed.

(** Dropping the timer of a tombstone of [k], or of one not yet in a list. *)
Lemma wframes_dropTimer k t t0 n sz w :
  w_handlers w !! tb_handler t = Some t0 →
  w_tasks w !! tb_expiryTaskId t = Some (tb_handler t) →
  (∀ l e, tb_entry t0 = Some l → heapAt w l = Some (Impl e) → me_key e = Some k) →
  wframes k w (dropTimer t n sz w).
Proof.
  intros Hh Ht Hk. apply wframes_intro; [by intros k' l e _ []|].
  intros k' l e t' Hne [He Hke _ _ _] Hte Hth Htt. simpl.
  assert (tb_handler t' ≠ tb_handler t) as Hd.
  { intros E. rewrite E, Hh in Hth. simplify_eq.
    specialize (Hk l e Hte He). congruence. }
  rewrite !lookup_delete_ne; [done|..]; congruence.
Qed.

(** ** Running the steps of an operation *)

Section Run.
Variables (w : World K O) (g : Segment K) (l : Z) (e : MapEntryImpl K).
Hypothesis (He : heapAt w l = Some (Impl e)).

Definition withValue (v : CacheablePtr) (e : MapEntryImpl K) : MapEntryImpl K :=
  mkImpl v (me_key e) (me_stamp e) (me_trackers e) (me_updates e) (me_weakThis e).

Definition withStamp (st : VersionStamp) (e : MapEntryImpl K) : MapEntryImpl K :=
  mkImpl (me_value e) (me_key e) (Some st) (me_trackers e) (me_updates e)
    (me_weakThis e).

Lemma run_load : load l (w_heap w) = (Ok (Impl e), w_heap w).
Proof. unfold load. unfold heapAt in He. by rewrite He. Qed.

Lemma run_loadImpl : loadImpl l (w_heap w) = (Ok e, w_heap w).
Proof. unfold loadImpl. by rewrite (bind_Ok _ _ _ _ _ run_load). Qed.

(** A heap operation that only reads. *)
Lemma run_read {A} (m : M (Heap K) A) a :
  m (w_heap w) = (Ok a, w_heap w) → onHeap m (mkState w g) = (Ok a, mkState w g).
Proof. intros E. unfold onHeap, zoom. simpl. rewrite E. by destruct w. Qed.

Lemma run_getImplPtr :
  me_weakThis e = true → onHeap (getImplPtr l) (mkState w g) = (Ok l, mkState w g).
Proof.
  intros Ht. apply run_read. unfold getImplPtr.
  rewrite (bind_Ok _ _ _ _ _ run_load). unfold sharedFromThis. by rewrite Ht.
Qed.

Lemma run_getValueI :
  me_value e ≠ Some (VToken DESTROYED) →
  onHeap (getValueI l) (mkState w g) = (Ok (me_value e), mkState w g).
Proof.
  intros Hd. apply run_read. unfold getValueI.
  rewrite (bind_Ok _ _ _ _ _ run_loadImpl). unfold isDestroyed.
  by rewrite bool_decide_eq_false_2.
Qed.

Lemma run_getKeyI : onHeap (getKeyI l) (mkState w g) = (Ok (me_key e), mkState w g).
Proof.
  apply run_read. unfold getKeyI. by rewrite (bind_Ok _ _ _ _ _ run_loadImpl).
Qed.

Lemma run_getVersionStamp st :
  me_stamp e = Some st →
  onHeap (getVersionStamp l) (mkState w g) = (Ok st, mkState w g).
Proof.
  intros Hs. apply run_read. unfold getVersionStamp.
  rewrite (bind_Ok _ _ _ _ _ run_load). by rewrite Hs.
Qed.

Lemma run_setValueI v :
  onHeap (setValueI l v) (mkState w g) =
  (Ok tt, mkState (updEntry l (withValue v e) w) g).
Proof.
  unfold onHeap, zoom, setValueI. simpl. by rewrite (bind_Ok _ _ _ _ _ run_loadImpl).
Qed.

Lemma run_setVersionStamp st :
  is_Some (me_stamp e) →
  onHeap (setVersionStamp l st) (mkState w g) =
  (Ok tt, mkState (updEntry l (withStamp st e) w) g).
Proof.
  intros [s0 Hs]. unfold onHeap, zoom, setVersionStamp, getVersionStamp. simpl.
  rewrite bind_assoc, (bind_Ok _ _ _ _ _ run_load), Hs, bind_ret.
  by rewrite (bind_Ok _ _ _ _ _ run_loadImpl).
Qed.
End Run.

(** Erasing the tombstone of a key, with its timer. *)
Definition eraseW (k : K) g w : World K O :=
  match m_tombstoneMap g !! k with
  | Some t => dropTimer t (-1) (- tombstonesize k) w
  | None => w
  end.

Lemma run_erase k w g :
  (∀ t, m_tombstoneMap g !! k = Some t → is_Some (w_handlers w !! tb_handler t)) →
  eraseEntryFromTombstoneList k true (mkState w g) =
  (Ok tt, mkState (eraseW k g w)
            (match m_tombstoneMap g !! k with
             | Some _ => setTombs (delete k) g | None => g end)).
Proof.
  intros Hh. unfold eraseEntryFromTombstoneList, eraseW. rewrite bind_get. simpl.
  destruct (m_tombstoneMap g !! k) as [t|]; [|done].
  destruct (Hh t eq_refl) as [t' Ht']. unfold deleteHandler, cancelTask, bind. simpl.
  by rewrite Ht'.
Qed.

Lemma run_eraseWithoutCancel k w g :
  eraseEntryFromTombstoneListWithoutCancelTask k (mkState w g) =
  match m_tombstoneMap g !! k with
  | Some t =>
      (Ok (tb_expiryTaskId t, Some (tb_handler t)),
       mkState (setTimers (w_tasks w) (w_handlers w) (w_nextHandler w) (-1)
                  (- tombstonesize k) w) (setTombs (delete k) g))
  | None => (Ok (-1, None), mkState w g)
  end.
Proof.
  unfold eraseEntryFromTombstoneListWithoutCancelTask. rewrite bind_get. simpl.
  by destruct (m_tombstoneMap g !! k).
Qed.

Variable cfg : SegConfig.
Hypothesis Hcc : cf_concurrencyChecksEnabled cfg = true.
Hypothesis Hfc : cf_factoryConcurrencyChecks cfg = true.

Definition newImpl (k : K) (v : CacheablePtr) (st : VersionStamp) : MapEntryImpl K :=
  mkImpl v (Some k) (Some st) 0 0 true.

(** The stamp [putNoEntry] gives the new entry. *)
Definition stampFor (tag : option VersionTag) (stamp : option VersionStamp)
    : VersionStamp :=
  match tag with
  | Some t => setVersions t
  | None => default newVersionStamp stamp
  end.

Lemma updEntry_newEntry e1 e2 w :
  updEntry (h_next (w_heap w)) e2 (newEntry e1 w) = newEntry e2 w.
Proof. unfold updEntry, newEntry, set_heap. simpl. by rewrite insert_insert_eq. Qed.

Lemma updEntry_updEntry l e1 e2 w :
  updEntry l e2 (updEntry l e1 w) = updEntry l e2 w.
Proof. unfold updEntry, set_heap. simpl. by rewrite insert_insert_eq. Qed.

Lemma run_putNoEntry n k v me uc dt tag stamp w g :
  m_map g !! k = None →
  putNoEntry (O:=O) cfg n k v me uc dt tag stamp (mkState w g) =
  (Ok (GF_NOERR, Some (h_next (w_heap w))),
   mkState (newEntry (newImpl k v (stampFor tag stamp)) w)
     (set_map (<[k := h_next (w_heap w)]> (m_map g)) g)).
Proof.
  intros Hm. unfold putNoEntry. rewrite bind_get, Hcc. cbv zeta. simpl negb.
  assert (onHeap (newMapEntry (cf_factoryConcurrencyChecks cfg) k) (mkState w g) =
    (Ok (h_next (w_heap w)),
     mkState (newEntry (newImpl k None newVersionStamp) w) g)) as E1
    by (rewrite Hfc; done).
  rewrite (bind_Ok _ _ _ _ _ E1). clear E1.
  rewrite (bind_Ok _ _ _ _ _ (run_setValueI _ g _ _ (heapAt_newEntry_new _ w) v)).
  rewrite updEntry_newEntry.
  set (w1 := newEntry _ w).
  assert (∀ st, onHeap (setVersionStamp (h_next (w_heap w)) st) (mkState w1 g) =
    (Ok tt, mkState (newEntry (newImpl k v st) w) g)) as Hst.
  { intros st. unfold w1. rewrite (run_setVersionStamp _ g _ _ (heapAt_newEntry_new _ w))
      by (simpl; eauto). by rewrite updEntry_newEntry. }
  assert (bindKey k (h_next (w_heap w))
    (mkState (newEntry (newImpl k v (stampFor tag stamp)) w) g) =
    (Ok tt, mkState (newEntry (newImpl k v (stampFor tag stamp)) w)
      (set_map (<[k:=h_next (w_heap w)]> (m_map g)) g))) as Hb.
  { unfold bindKey, onSeg, modify. simpl. by rewrite Hm. }
  destruct tag as [t|]; [|destruct stamp as [st|]]; simpl stampFor in *.
  - by rewrite (bind_Ok _ _ _ _ _ (Hst _)), (bind_Ok _ _ _ _ _ Hb).
  - by rewrite (bind_Ok _ _ _ _ _ (Hst _)), (bind_Ok _ _ _ _ _ Hb).
  - by rewrite bind_ret, (bind_Ok _ _ _ _ _ Hb).
Qed.

Definition eraseG (k : K) g : Segment K :=
  match m_tombstoneMap g !! k with
  | Some _ => setTombs (delete k) g | None => g end.

Lemma run_putForTracked k v l e uc st w g :
  entry_ok w k l e → tomb_ok w g k l e →
  putForTrackedEntry (D:=D) cfg k v l l uc st None (mkState w g) =
  (Ok (GF_NOERR, v),
   mkState (updEntry l (withStamp st (withValue v e)) (eraseW k g w)) (eraseG k g)).
Proof.
  intros [He _ _ Hs _] Ht. unfold putForTrackedEntry. rewrite Hcc, orb_true_r.
  rewrite bind_assoc, (bind_Ok _ _ _ _ _ (run_setValueI _ g _ _ He v)), bind_ret.
  set (w1 := updEntry l (withValue v e) w).
  assert (∀ t, m_tombstoneMap g !! k = Some t → is_Some (w_handlers w1 !! tb_handler t))
    as Hh.
  { intros t E. unfold tomb_ok in Ht. rewrite E in Ht. destruct Ht as (_ & _ & Hh & _).
    eexists. exact Hh. }
  rewrite !bind_assoc, (bind_Ok _ _ _ _ _ (run_erase k w1 g Hh)).
  assert (heapAt (eraseW k g w1) l = Some (Impl (withValue v e))) as He1.
  { unfold eraseW, w1. destruct (m_tombstoneMap g !! k);
      change (heapAt (dropTimer _ _ _ ?x) l) with (heapAt x l);
      rewrite heapAt_updEntry; by rewrite decide_True. }
  rewrite (bind_Ok _ _ _ _ _ (run_setVersionStamp _ _ _ _ He1 st Hs)).
  unfold segIncrementUpdateCount. rewrite Hcc, bind_ret. unfold ret. do 2 f_equal.
  unfold eraseW, w1. destruct (m_tombstoneMap g !! k) as [t|];
    [|by rewrite updEntry_updEntry].
  unfold updEntry, dropTimer, setTimers, set_heap. simpl.
  by rewrite insert_insert_eq.
Qed.
End Invariant.

Arguments world_ok {K O} w.
