(* ===== verification/SegmentOps.v ===== *)
(** * What the operations of a segment do

    The operations of MapSegment.v with concurrency checks enabled, against the
    invariant of SegmentInvariant.v: each one returns, re-establishes the
    invariant at its key, leaves every other key alone, and changes what the
    region sees of its key as its error code says. *)

From S2P Require Import Prelude Membership Version MapEntry MapSegment.
From S2P Require Import SegmentInvariant.

Section Ops.
Context {K O D : Type} `{EqDecision K, !Countable K}.
Context `{!CacheableKey K, !Application K O D, !TaskIds}.
Implicit Types (w : World K O) (g : Segment K) (s : State K O).

Variable cfg : SegConfig.
Hypothesis Hcc : cf_concurrencyChecksEnabled cfg = true.
Hypothesis Hfc : cf_factoryConcurrencyChecks cfg = true.

Definition idx_ok g : Prop := 0 ≤ m_primeIndex g ≤ 26.

(** What an operation on [k] guarantees. *)
Record step_ok (k : K) (s s' : State K O) : Prop := {
  so_world : world_ok (st_world s');
  so_key : key_ok (st_world s') (st_seg s') k;
  so_wframe : wframes k (st_world s) (st_world s');
  so_sframe : sframes k (st_seg s) (st_seg s');
  so_idx : idx_ok (st_seg s')
}.

(** A value the region stores: an object or a token that is not a marker of the
    map itself. *)
Definition storable (v : Value) : Prop :=
  v ≠ VToken TOMBSTONE ∧ v ≠ VToken DESTROYED.

(** The version check of the tag returns, whatever the stamp. *)
Definition tagOk w (tag : option VersionTag) : Prop :=
  ∀ t st d, tag = Some t →
  ∃ err env', processVersionTag st (Some t) d (w_env w) = (Ok err, env').

Definition set_env (env : VersionEnv) w : World K O :=
  mkWorld (w_heap w) (w_objects w) (w_nextObject w) (w_tasks w) (w_handlers w)
    (w_nextHandler w) env (w_processedDeltas w) (w_tombstoneCount w)
    (w_tombstoneSize w).

(** ** Rehashing *)

Lemma primeTable_last p :
  g_primeTable !! 26%nat = Some p → p = 3221225473.
Proof. by intros [= <-]. Qed.

Lemma primeTable_lookup i : 0 ≤ i ≤ 26 → is_Some (g_primeTable !! Z.to_nat i).
Proof. intros. apply lookup_lt_is_Some_2. simpl. lia. Qed.

Lemma run_rehash w g :
  idx_ok g → Z.of_nat (size (m_map g)) < 2 ^ 32 →
  ∃ g1, rehashIfFull (mkState w g) = (Ok tt, mkState w g1) ∧
    m_map g1 = m_map g ∧ m_tombstoneMap g1 = m_tombstoneMap g ∧
    m_destroyedKeys g1 = m_destroyedKeys g ∧ idx_ok g1.
Proof.
  intros Hi Hs. unfold rehashIfFull. rewrite bind_get. simpl.
  destruct (primeTable_lookup _ Hi) as [p Hp]. unfold getPrime. rewrite Hp, bind_ret.
  destruct (Z.ltb_spec p (Z.of_nat (size (m_map g)) * 75 / 100)) as [Hlt|];
    [|by exists g].
  assert (m_primeIndex g ≠ 26) as Hne.
  { intros E. rewrite E in Hp. apply primeTable_last in Hp.
    Z.div_mod_to_equations. lia. }
  unfold rehash, onSeg, modify, bind, get. simpl.
  assert (u32 (m_primeIndex g + 1) = m_primeIndex g + 1) as ->.
  { apply uwrap_id. unfold idx_ok in Hi. split; lia. }
  unfold getPrime. destruct (primeTable_lookup (m_primeIndex g + 1)) as [p' ->].
  { unfold idx_ok in Hi. lia. }
  eexists. split; [done|]. split_and!; try done. unfold idx_ok in *. simpl. lia.
Qed.

(** ** Effects of the building blocks *)

Lemma live_entry w g k l e :
  m_map g !! k = Some l → entry_ok w k l e →
  live w g k = if isTombstone (me_value e) then None else me_value e.
Proof. intros Hm [He _ _ _ _]. unfold live. by rewrite Hm, He. Qed.

Lemma entry_ok_erase w g k l e k' :
  entry_ok w k l e → entry_ok (eraseW k' g w) k l e.
Proof. intros [He ? ? ? ?]. split; try done. unfold eraseW. by case_match. Qed.

Lemma world_ok_erase w g k : world_ok w → world_ok (eraseW k g w).
Proof. unfold eraseW. case_match; [apply world_ok_dropTimer|done]. Qed.

Lemma wframes_erase w g k l e :
  entry_ok w k l e → tomb_ok w g k l e → wframes k w (eraseW k g w).
Proof.
  intros [He Hk _ _ _] Ht. unfold eraseW, tomb_ok in *.
  destruct (m_tombstoneMap g !! k) as [t|]; [|done].
  destruct Ht as (_ & Hte & Hth & Htt & _).
  apply (wframes_dropTimer k t t); try done. intros. simplify_eq. congruence.
Qed.

Lemma sframes_erase k g : sframes k g (eraseG k g).
Proof.
  intros k' Hne. unfold eraseG. case_match; [|done]. simpl.
  by rewrite lookup_delete_ne.
Qed.

Lemma eraseG_tomb k g : m_tombstoneMap (eraseG k g) !! k = None.
Proof. unfold eraseG. case_match; [apply lookup_delete_eq|done]. Qed.

Lemma eraseG_map k g : m_map (eraseG k g) = m_map g.
Proof. unfold eraseG. by case_match. Qed.

Lemma eraseG_idx k g : idx_ok g → idx_ok (eraseG k g).
Proof. unfold eraseG. by case_match. Qed.

(** Storing [v] with stamp [st] in the entry of [k]. *)
Lemma overwrite_ok w g k l e v st :
  world_ok w → idx_ok g → m_map g !! k = Some l → entry_ok w k l e →
  tomb_ok w g k l e → storable v →
  let w' := updEntry l (withStamp st (withValue (Some v) e)) (eraseW k g w) in
  step_ok k (mkState w g) (mkState w' (eraseG k g)) ∧
  live w' (eraseG k g) k = Some v.
Proof.
  intros Hw Hi Hm He Ht [Hv1 Hv2] w'. pose proof He as [Hl Hk Hth Hs Hd].
  assert (entry_ok (eraseW k g w) k l e) as He' by by apply entry_ok_erase.
  assert (heapAt w' l = Some (Impl (withStamp st (withValue (Some v) e)))) as Hl'.
  { unfold w'. by rewrite heapAt_updEntry, decide_True. }
  split; [split|]; simpl.
  - apply world_ok_updEntry; [by apply world_ok_erase|].
    destruct He' as [-> _ _ _ _]. by eexists.
  - unfold key_ok. rewrite eraseG_map, Hm. eexists. split.
    + split; [exact Hl'|done|done|by eexists|]. simpl. split; [by eexists|congruence].
    + unfold tomb_ok. rewrite eraseG_tomb. simpl. congruence.
  - eapply wframes_trans; [by eapply wframes_erase|].
    eapply wframes_updEntry; [by destruct He'|done].
  - apply sframes_erase.
  - by apply eraseG_idx.
  - unfold live. rewrite eraseG_map, Hm, Hl'. simpl.
    unfold isTombstone. rewrite bool_decide_eq_false_2; [done|congruence].
Qed.

(** Binding [k] to a new entry. *)
Lemma insert_ok w g k v st :
  world_ok w → idx_ok g → m_map g !! k = None → m_tombstoneMap g !! k = None →
  storable v →
  let w' := newEntry (newImpl k (Some v) st) w in
  let g' := set_map (<[k := h_next (w_heap w)]> (m_map g)) g in
  step_ok k (mkState w g) (mkState w' g') ∧ live w' g' k = Some v.
Proof.
  intros Hw Hi Hm Ht [Hv1 Hv2] w' g'.
  assert (m_map g' !! k = Some (h_next (w_heap w))) as Hm'
    by apply lookup_insert_eq.
  split; [split|]; simpl.
  - by apply world_ok_newEntry.
  - unfold key_ok. rewrite Hm'. eexists. split.
    + split; [apply heapAt_newEntry_new|done|done|by eexists|]. simpl. split; [by eexists|congruence].
    + unfold tomb_ok. simpl. rewrite Ht. simpl. congruence.
  - by apply wframes_newEntry.
  - intros k' Hne. simpl. by rewrite lookup_insert_ne.
  - done.
  - unfold live. rewrite Hm'. unfold w'. rewrite heapAt_newEntry_new. simpl.
    unfold isTombstone. rewrite bool_decide_eq_false_2; [done|congruence].
Qed.

(** ** Replacing a tombstone *)

(** Statistics do not matter to the invariant. *)
Lemma wframes_stats k n sz w :
  wframes k w (setTimers (w_tasks w) (w_handlers w) (w_nextHandler w) n sz w).
Proof. apply wframes_intro; [by intros k' l e _ []|done]. Qed.

Lemma world_ok_stats n sz w :
  world_ok w → world_ok (setTimers (w_tasks w) (w_handlers w) (w_nextHandler w) n sz w).
Proof. by intros [? ?]. Qed.

Definition removedG (k : K) g : Segment K :=
  set_map (delete k (m_map g)) (setTombs (delete k) g).

Lemma run_removeWithoutCancel k w g l t :
  m_map g !! k = Some l → m_tombstoneMap g !! k = Some t →
  unguardedRemoveActualEntryWithoutCancelTask k (mkState w g) =
  (Ok (true, (tb_expiryTaskId t, Some (tb_handler t))),
   mkState (setTimers (w_tasks w) (w_handlers w) (w_nextHandler w) (-1)
              (- tombstonesize k) w) (removedG k g)).
Proof.
  intros Hm Ht. unfold unguardedRemoveActualEntryWithoutCancelTask.
  pose proof (run_eraseWithoutCancel k w g) as E. rewrite Ht in E.
  rewrite (bind_Ok _ _ _ _ _ E). unfold unbind, onSeg, modify, bind, get, ret. simpl.
  by rewrite Hm.
Qed.

Lemma run_cancelRemoved w g t :
  0 ≤ tb_expiryTaskId t → is_Some (w_handlers w !! tb_handler t) →
  cancelRemoved (tb_expiryTaskId t, Some (tb_handler t)) (mkState w g) =
  (Ok tt, mkState (dropTimer t 0 0 w) g).
Proof.
  intros Hp [t' Ht]. unfold cancelRemoved. simpl.
  rewrite (proj2 (Z.eqb_neq _ _)) by lia. simpl.
  unfold cancelTask, deleteHandler, bind. simpl. rewrite Ht. unfold set_timers, modify.
  simpl. unfold dropTimer, setTimers. by rewrite !Z.add_0_r.
Qed.

(** ... for the timer of a tombstone that was listed. *)
Lemma run_cancel_listed k e' w g l e t g' :
  m_tombstoneMap g !! k = Some t → tomb_ok w g k l e →
  let w1 := newEntry e' (setTimers (w_tasks w) (w_handlers w) (w_nextHandler w) (-1)
              (- tombstonesize k) w) in
  cancelRemoved (tb_expiryTaskId t, Some (tb_handler t)) (mkState w1 g') =
  (Ok tt, mkState (dropTimer t 0 0 w1) g').
Proof.
  intros Et Hto w1. unfold tomb_ok in Hto. rewrite Et in Hto.
  destruct Hto as (_ & _ & Hh & _ & Hp). apply run_cancelRemoved; [done|].
  eexists. exact Hh.
Qed.

(** The state after a tombstone of [k] was replaced by a new entry. *)
Lemma replace_ok w g k l e t v st :
  world_ok w → idx_ok g → m_map g !! k = Some l → entry_ok w k l e →
  m_tombstoneMap g !! k = Some t → tomb_ok w g k l e → storable v →
  let w1 := setTimers (w_tasks w) (w_handlers w) (w_nextHandler w) (-1)
              (- tombstonesize k) w in
  let w' := dropTimer t 0 0 (newEntry (newImpl k (Some v) st) w1) in
  let g' := set_map (<[k := h_next (w_heap w1)]> (m_map (removedG k g)))
              (removedG k g) in
  step_ok k (mkState w g) (mkState w' g') ∧ live w' g' k = Some v.
Proof.
  intros Hw Hi Hm He Ht Hto Hv w1 w' g'.
  destruct (insert_ok w1 (removedG k g) k v st) as [[Hs1 Hs2 Hs3 Hs4 Hs5] Hl];
    [by apply world_ok_stats|done|apply lookup_delete_eq|apply lookup_delete_eq|done|].
  simpl in *. unfold tomb_ok in Hto. rewrite Ht in Hto.
  destruct Hto as (_ & Hte & Hth & Htt & _).
  assert (wframes k (newEntry (newImpl k (Some v) st) w1) w') as Hf.
  { apply (wframes_dropTimer k t t); try done. intros l0 e0 E0 E1. simplify_eq.
    rewrite heapAt_newEntry_old in E1; [|by apply world_ok_stats|].
    - destruct He as [He Hk _ _ _]. change (heapAt w1 l) with (heapAt w l) in E1.
      congruence.
    - change (heapAt w1 l) with (heapAt w l). destruct He as [-> _ _ _ _].
      by eexists. }
  split; [split|]; simpl.
  - by apply world_ok_dropTimer.
  - revert Hs2. unfold key_ok, tomb_ok. simpl. rewrite lookup_insert_eq.
    intros (e1 & [E1 ? ? ? ?] & H2). exists e1. split; [by split|].
    rewrite lookup_delete_eq in *. done.
  - eapply wframes_trans; [apply wframes_stats|]. eapply wframes_trans; [apply Hs3|].
    exact Hf.
  - intros k' Hne. simpl. by rewrite lookup_insert_ne, !lookup_delete_ne by done.
  - done.
  - done.
Qed.

(** ** The version check *)

Lemma run_checkVersion w g k l e tag d :
  entry_ok w k l e → tagOk w tag →
  ∃ err st env', checkVersion cfg l tag d (mkState w g) =
    (Ok (err, st), mkState (set_env env' w) g) ∧ (tag = None → err = GF_NOERR) ∧
    (d = false → verdict err).
Proof.
  intros [He _ _ [st Hs] _] Ht. unfold checkVersion. rewrite Hcc.
  rewrite (bind_Ok _ _ _ _ _ (run_getVersionStamp w g l e He st Hs)).
  destruct tag as [t|].
  - destruct (Ht t st d eq_refl) as (err & env' & E). exists err, (setVersions t), env'.
    split_and!; [|done|intros ->; by eapply processVersionTag_verdict].
    unfold bind, onEnv, zoom. simpl. unfold processVersionTag in E. by rewrite E.
  - exists GF_NOERR, st, (w_env w). split_and!; [by destruct w|done|by left].
Qed.

Lemma key_ok_env w g k env' : key_ok w g k → key_ok (set_env env' w) g k.
Proof.
  unfold key_ok. destruct (m_map g !! k); [|done].
  intros (e & [] & ?). exists e. by split.
Qed.

(** An operation that stopped at the version check changed nothing. *)
Lemma env_only_ok w g k env' :
  world_ok w → idx_ok g → key_ok w g k →
  step_ok k (mkState w g) (mkState (set_env env' w) g) ∧
  live (set_env env' w) g k = live w g k.
Proof.
  intros [? ?] Hi Hk. split; [|done]. split; simpl; try done;
    [by apply key_ok_env|].
  apply wframes_intro; [by intros k' l e _ []|done].
Qed.

(** Prefixing a step with a change of the environment or a rehash. *)
Lemma step_ok_prefix k w g w' g' g1 env' :
  m_map g1 = m_map g → m_tombstoneMap g1 = m_tombstoneMap g →
  step_ok k (mkState (set_env env' w) g1) (mkState w' g') →
  step_ok k (mkState w g) (mkState w' g').
Proof.
  intros E1 E2 [H1 H2 H3 H4 H5]. split; simpl in *; try done.
  - eapply wframes_trans; [|exact H3].
    apply wframes_intro; [by intros k' l e _ []|done].
  - intros k' Hne. destruct (H4 k' Hne) as [-> ->]. by rewrite E1, E2.
Qed.

(** ** The operations *)

Lemma run_find k w g : find k (mkState w g) = (Ok (m_map g !! k), mkState w g).
Proof. done. Qed.

Lemma isTombstone_true v : isTombstone v = true ↔ v = Some (VToken TOMBSTONE).
Proof. unfold isTombstone. by rewrite bool_decide_eq_true. Qed.

Lemma isTombstone_false v : isTombstone v = false ↔ v ≠ Some (VToken TOMBSTONE).
Proof. unfold isTombstone. by rewrite bool_decide_eq_false. Qed.

(** The tombstone list agrees with the value of the entry. *)
Lemma tomb_ok_value w g k l e :
  tomb_ok w g k l e →
  isTombstone (me_value e) = bool_decide (is_Some (m_tombstoneMap g !! k)).
Proof.
  unfold tomb_ok. destruct (m_tombstoneMap g !! k) as [t|]; simpl.
  - intros (E & _). by apply isTombstone_true.
  - intros E. by apply isTombstone_false.
Qed.

Lemma tomb_ok_env w g k l e env' : tomb_ok w g k l e → tomb_ok (set_env env' w) g k l e.
Proof. done. Qed.

Lemma entry_ok_env w k l e env' : entry_ok w k l e → entry_ok (set_env env' w) k l e.
Proof. by intros []. Qed.

Lemma live_none w g k : m_map g !! k = None → live w g k = None.
Proof. intros E. unfold live. by rewrite E. Qed.

Lemma step_ok_seg k w g g1 s' :
  m_map g1 = m_map g → m_tombstoneMap g1 = m_tombstoneMap g →
  step_ok k (mkState w g1) s' → step_ok k (mkState w g) s'.
Proof.
  intros E1 E2 Hs. destruct s' as [w' g']. eapply (step_ok_prefix k w g w' g' g1 (w_env w));
    [done|done|]. by destruct w.
Qed.

(** The conjuncts of a specification that need no thought. *)
Ltac finish_op :=
  split_and!; try done; try (by left); try (by left; left); try (by right); try (by auto);
  try (intros ?; split_and!; by eauto);
  try (by eapply step_ok_seg); try (by eapply step_ok_prefix); try (by intros []).

Lemma put_spec n k v me old uc dt upd tag w g :
  world_ok w → key_ok w g k → idx_ok g → Z.of_nat (size (m_map g)) < 2 ^ 32 →
  tagOk w tag → storable v →
  ∃ err me' old' upd' w' g',
    put (D:=D) cfg n k (Some v) me old uc dt upd tag None (mkState w g) =
      (Ok (err, me', old', upd', Some v), mkState w' g') ∧
    step_ok k (mkState w g) (mkState w' g') ∧
    (tag = None → err = GF_NOERR) ∧ verdict err ∧
    (err = GF_NOERR → live w' g' k = Some v ∧
       upd' = bool_decide (is_Some (live w g k)) ∧ (upd' = true → old' = live w g k) ∧
       (upd' = false → old' = None ∨ old' = old) ∧ is_Some me') ∧
    (err ≠ GF_NOERR → live w' g' k = live w g k ∧ old' = old).
Proof.
  intros Hw Hk Hi Hs Ht Hv. unfold put.
  destruct (run_rehash w g Hi Hs) as (g1 & Er & E1 & E2 & _ & Hi1).
  rewrite (bind_Ok _ _ _ _ _ Er).
  destruct (key_ok_seg w g g1 k) as [Hk1 El1]; [by rewrite E1|by rewrite E2|].
  specialize (Hk1 Hk). rewrite <- El1.
  rewrite (bind_Ok _ _ _ _ _ (run_find k w g1)).
  unfold key_ok in Hk1. destruct (m_map g1 !! k) as [l|] eqn:Em.
  - destruct Hk1 as (e & He & Hto). pose proof He as [Hl _ Hth _ [Hsome Hd]].
    rewrite (live_entry w g1 k l e Em He).
    rewrite (bind_Ok _ _ _ _ _ (run_getImplPtr w g1 l e Hl Hth)).
    rewrite (bind_Ok _ _ _ _ _ (run_getValueI w g1 l e Hl Hd)).
    destruct (run_checkVersion w g1 k l e tag false He Ht) as (err & st & env' & Ev & Hn & Hvd).
    rewrite (bind_Ok _ _ _ _ _ Ev). cbn [fst snd].
    set (w1 := set_env env' w) in *.
    assert (world_ok w1) as Hw1 by by destruct Hw.
    apply (entry_ok_env _ _ _ _ env') in He. apply (tomb_ok_env _ _ _ _ _ env') in Hto.
    destruct (decide (err = GF_NOERR)) as [->|Hne].
    2: { rewrite bool_decide_eq_false_2 by done. cbn [negb].
      destruct (env_only_ok w g1 k env' Hw Hi1) as [Hstep El].
      { unfold key_ok. rewrite Em. exists e. by destruct He; split. }
      do 6 eexists. split; [done|]. finish_op.
      intros _. by rewrite (live_entry w1 g1 k l e Em He). }
    rewrite bool_decide_eq_true_2 by done. cbn [negb].
    rewrite (tomb_ok_value _ _ _ _ _ Hto).
    destruct (m_tombstoneMap g1 !! k) as [t|] eqn:Et.
    + change (bool_decide (is_Some (Some t))) with true. cbv iota.
      rewrite (bind_Ok _ _ _ _ _ (run_removeWithoutCancel k w1 g1 l t Em Et)).
      rewrite (bind_Ok _ _ _ _ _ (run_putNoEntry cfg Hcc Hfc n k (Some v) me uc dt tag
        (Some st) _ (removedG k g1) (lookup_delete_eq _ _))).
      destruct (replace_ok w1 g1 k l e t v (stampFor tag (Some st)) Hw1 Hi1 Em He Et
        Hto Hv) as [Hstep El].
      cbn [fst snd].
      rewrite (bind_Ok _ _ _ _ _ (run_cancel_listed k _ w1 g1 l e t _ Et Hto)).
      do 6 eexists. split; [done|]. finish_op.
    + change (bool_decide (is_Some None)) with false. cbv iota.
      rewrite (bind_Ok _ _ _ _ _ (run_putForTracked cfg Hcc k (Some v) l e uc st w1 g1
        He Hto)).
      destruct (overwrite_ok w1 g1 k l e v st Hw1 Hi1 Em He Hto Hv) as [Hstep El].
      cbn [fst snd]. rewrite bool_decide_eq_true_2 by done.
      do 6 eexists. split; [done|]. finish_op. intros _. split_and!; try done.
      by intros ?%bool_decide_eq_false_1.
  - rewrite live_none by done.
    rewrite (bind_Ok _ _ _ _ _ (run_putNoEntry cfg Hcc Hfc n k (Some v) me uc dt tag
      None w g1 Em)). cbn [fst snd].
    destruct (insert_ok w g1 k v (stampFor tag None) Hw Hi1 Em Hk1 Hv) as [Hstep El].
    do 6 eexists. split; [done|]. finish_op.
Qed.

Lemma create_spec n k v me old uc dt tag w g :
  world_ok w → key_ok w g k → idx_ok g → Z.of_nat (size (m_map g)) < 2 ^ 32 →
  tagOk w tag → storable v →
  ∃ err me' old' w' g',
    create (D:=D) cfg n k (Some v) me old uc dt tag (mkState w g) =
      (Ok (err, me', old'), mkState w' g') ∧
    step_ok k (mkState w g) (mkState w' g') ∧
    (tag = None → live w g k = None → err = GF_NOERR) ∧
    (is_Some (live w g k) → err = GF_CACHE_ENTRY_EXISTS ∧ old' = live w g k) ∧
    (live w g k = None → verdict err) ∧
    (err = GF_NOERR → live w g k = None ∧ live w' g' k = Some v ∧
       (old = None → old' = None) ∧ is_Some me') ∧
    (err ≠ GF_NOERR → live w' g' k = live w g k).
Proof.
  intros Hw Hk Hi Hs Ht Hv. unfold create.
  destruct (run_rehash w g Hi Hs) as (g1 & Er & E1 & E2 & _ & Hi1).
  rewrite (bind_Ok _ _ _ _ _ Er).
  destruct (key_ok_seg w g g1 k) as [Hk1 El1]; [by rewrite E1|by rewrite E2|].
  specialize (Hk1 Hk). rewrite <- El1.
  rewrite (bind_Ok _ _ _ _ _ (run_find k w g1)). pose proof Hk1 as Hkey.
  unfold key_ok in Hk1. destruct (m_map g1 !! k) as [l|] eqn:Em.
  2: { rewrite live_none by done.
    rewrite (bind_Ok _ _ _ _ _ (run_putNoEntry cfg Hcc Hfc n k (Some v) me uc dt tag
      None w g1 Em)). cbn [fst snd].
    destruct (insert_ok w g1 k v (stampFor tag None) Hw Hi1 Em Hk1 Hv) as [Hstep El].
    do 5 eexists. split; [done|]. finish_op. }
  destruct Hk1 as (e & He & Hto). pose proof He as [Hl _ Hth _ [Hsome Hd]].
  rewrite (live_entry w g1 k l e Em He).
  rewrite (bind_Ok _ _ _ _ _ (run_getImplPtr w g1 l e Hl Hth)).
  rewrite (bind_Ok _ _ _ _ _ (run_getValueI w g1 l e Hl Hd)).
  destruct (bool_decide (me_value e = None) || isTombstone (me_value e)) eqn:Ec.
  2: { apply orb_false_iff in Ec as [Hnn Ec]. rewrite Ec.
    apply bool_decide_eq_false in Hnn.
    do 5 eexists. split; [done|].
    assert (step_ok k (mkState w g1) (mkState w g1)) as Hrefl by by split.
    finish_op.
    intros _. by rewrite (live_entry w g1 k l e Em He), Ec. }
  assert ((if isTombstone (me_value e) then None else me_value e) = None) as ->.
  { apply orb_true_iff in Ec as [E|E]; [|by rewrite E].
    apply bool_decide_eq_true in E. rewrite E. by case_match. }
  destruct (run_checkVersion w g1 k l e tag false He Ht) as (err & st & env' & Ev & Hn & Hvd).
  rewrite (bind_Ok _ _ _ _ _ Ev). cbn [fst snd].
  assert (live w g1 k = None) as Hlive.
  { rewrite (live_entry w g1 k l e Em He). apply orb_true_iff in Ec as [E|E];
      [|by rewrite E]. apply bool_decide_eq_true in E. rewrite E. by case_match. }
  destruct (decide (err = GF_NOERR)) as [->|Hne].
  2: { rewrite bool_decide_eq_false_2 by done. cbn [negb].
    destruct (env_only_ok w g1 k env' Hw Hi1 Hkey) as [Hstep El].
    do 5 eexists. split; [done|]. finish_op. }
  rewrite (bool_decide_eq_true_2 (GF_NOERR = GF_NOERR)) by done. cbn [negb].
  set (w1 := set_env env' w) in *.
  assert (world_ok w1) as Hw1 by by destruct Hw.
  apply (entry_ok_env _ _ _ _ env') in He. apply (tomb_ok_env _ _ _ _ _ env') in Hto.
  destruct (bool_decide (me_value e = None)) eqn:Enull.
  - apply bool_decide_eq_true in Enull.
    destruct (overwrite_ok w1 g1 k l e v st Hw1 Hi1 Em He Hto Hv) as [Hstep El].
    rewrite bind_assoc, (bind_Ok _ _ _ _ _ (run_putForTracked cfg Hcc k (Some v) l e
      uc st w1 g1 He Hto)), bind_ret. cbn [fst snd].
    do 5 eexists. split; [done|]. finish_op.
  - simpl in Ec. rewrite (tomb_ok_value _ _ _ _ _ Hto) in Ec.
    destruct (m_tombstoneMap g1 !! k) as [t|] eqn:Et; [|done].
    destruct (replace_ok w1 g1 k l e t v (stampFor tag (Some st)) Hw1 Hi1 Em He Et
      Hto Hv) as [Hstep El].
    rewrite bind_assoc, (bind_Ok _ _ _ _ _ (run_removeWithoutCancel k w1 g1 l t Em Et)).
    rewrite bind_assoc, (bind_Ok _ _ _ _ _ (run_putNoEntry cfg Hcc Hfc n k (Some v) me
      uc dt tag (Some st) _ (removedG k g1) (lookup_delete_eq _ _))), bind_ret.
    cbn [fst snd]. rewrite (bind_Ok _ _ _ _ _ (run_cancel_listed k _ w1 g1 l e t _ Et Hto)).
    do 5 eexists. split; [done|].
    finish_op.
Qed.

(** Marking the entry of [k] invalid. *)
Lemma markInvalid_ok w g k l e st :
  world_ok w → idx_ok g → m_map g !! k = Some l → entry_ok w k l e →
  tomb_ok w g k l e → m_tombstoneMap g !! k = None →
  let w' := updEntry l (withStamp st (withValue (Some (VToken INVALID)) e)) w in
  step_ok k (mkState w g) (mkState w' g) ∧ live w' g k = Some (VToken INVALID).
Proof.
  intros Hw Hi Hm He Ht Hn w'.
  pose proof (overwrite_ok w g k l e (VToken INVALID) st Hw Hi Hm He Ht) as Ho.
  unfold eraseW, eraseG in Ho. rewrite Hn in Ho. by apply Ho.
Qed.

Lemma invalidate_spec n k me old tag w g :
  world_ok w → key_ok w g k → idx_ok g → tagOk w tag →
  ∃ err me' old' added w' g',
    invalidate (O:=O) cfg n k me old tag (mkState w g) =
      (Ok (err, me', old', added), mkState w' g') ∧
    step_ok k (mkState w g) (mkState w' g') ∧
    (verdict err ∨ err = GF_CACHE_ENTRY_NOT_FOUND) ∧
    (added = true → live w g k = None ∧ err = GF_CACHE_ENTRY_NOT_FOUND ∧
       live w' g' k = Some (VToken INVALID)) ∧
    (err = GF_NOERR → added = false ∧ is_Some (live w g k) ∧
       old' = live w g k ∧ live w' g' k = Some (VToken INVALID)) ∧
    (added = false → err ≠ GF_NOERR → live w' g' k = live w g k).
Proof.
  intros Hw Hk Hi Ht. unfold invalidate.
  rewrite (bind_Ok _ _ _ _ _ (run_find k w g)). pose proof Hk as Hkey.
  unfold key_ok in Hk. destruct (m_map g !! k) as [l|] eqn:Em.
  2: { rewrite Hcc. rewrite live_none by done.
    rewrite (bind_Ok _ _ _ _ _ (run_putNoEntry cfg Hcc Hfc n k (Some (VToken INVALID)) me
      (-1) (-1) tag None w g Em)). cbn [fst snd].
    destruct (insert_ok w g k (VToken INVALID) (stampFor tag None) Hw Hi Em Hk)
      as [Hstep El]; [done|].
    do 6 eexists. split; [done|]. finish_op. }
  destruct Hk as (e & He & Hto). pose proof He as [Hl _ Hth Hst [Hsome Hd]].
  rewrite (live_entry w g k l e Em He).
  destruct (run_checkVersion w g k l e tag false He Ht) as (err & st & env' & Ev & Hn & Hvd).
  rewrite (bind_Ok _ _ _ _ _ Ev). cbn [fst snd].
  destruct (env_only_ok w g k env' Hw Hi Hkey) as [Hstep El].
  rewrite (live_entry w g k l e Em He) in El.
  destruct (decide (err = GF_NOERR)) as [->|Hne].
  2: { rewrite bool_decide_eq_false_2 by done. cbn [negb].
    do 6 eexists. split; [done|]. finish_op. }
  rewrite (bool_decide_eq_true_2 (GF_NOERR = GF_NOERR)) by done. cbn [negb].
  set (w1 := set_env env' w) in *.
  assert (world_ok w1) as Hw1 by by destruct Hw.
  apply (entry_ok_env _ _ _ _ env') in He. apply (tomb_ok_env _ _ _ _ _ env') in Hto.
  assert (heapAt w1 l = Some (Impl e)) as Hl1 by by destruct He.
  rewrite (bind_Ok _ _ _ _ _ (run_getImplPtr w1 g l e Hl1 Hth)).
  rewrite (bind_Ok _ _ _ _ _ (run_getValueI w1 g l e Hl1 Hd)).
  rewrite (tomb_ok_value _ _ _ _ _ Hto) in *.
  destruct (m_tombstoneMap g !! k) as [t|] eqn:Et.
  - change (bool_decide (is_Some (Some t))) with true in *. cbv iota in *.
    do 6 eexists. split; [done|]. finish_op.
  - change (bool_decide (is_Some None)) with false in *. cbv iota in *.
    rewrite (bind_Ok _ _ _ _ _ (run_setValueI w1 g l e Hl1 _)), Hcc.
    assert (heapAt (updEntry l (withValue (Some (VToken INVALID)) e) w1) l =
      Some (Impl (withValue (Some (VToken INVALID)) e))) as Hl2
      by by rewrite heapAt_updEntry, decide_True.
    rewrite (bind_Ok _ _ _ _ _ (run_setVersionStamp _ g l _ Hl2 st Hst)).
    rewrite updEntry_updEntry. unfold segIncrementUpdateCount. rewrite Hcc, bind_ret.
    destruct (markInvalid_ok w1 g k l e st Hw1 Hi Em He Hto Et) as [Hstep' El'].
    do 6 eexists. split; [done|]. finish_op.
Qed.

(** ** Removing *)

Lemma keeps_env w env' : keeps w (set_env env' w).
Proof. apply keeps_intro; [by intros k l e []|done]. Qed.

(** The world after [getExpiryTask]. *)
Definition scheduled (now : Z) w : World K O :=
  setTimers (<[newTaskId (dom (w_tasks w)) := w_nextHandler w]> (w_tasks w))
    (<[w_nextHandler w := mkTombstone None now 0 (w_nextHandler w)]> (w_handlers w))
    (w_nextHandler w + 1) 0 0 w.

Lemma run_getExpiryTask now w g :
  getExpiryTask now (mkState w g) =
  (Ok (w_nextHandler w, newTaskId (dom (w_tasks w))), mkState (scheduled now w) g).
Proof.
  unfold getExpiryTask, scheduled, setTimers, set_timers, modify, bind, get, ret. simpl.
  by rewrite !Z.add_0_r.
Qed.

Lemma newTaskId_None w : w_tasks w !! newTaskId (dom (w_tasks w)) = None.
Proof. apply not_elem_of_dom, newTaskId_fresh. Qed.

Lemma nextHandler_None w : world_ok w → w_handlers w !! w_nextHandler w = None.
Proof.
  intros [_ Hh]. destruct (w_handlers w !! w_nextHandler w) eqn:E; [|done].
  specialize (Hh _ ltac:(eauto)). lia.
Qed.

Lemma keeps_scheduled now w : world_ok w → keeps w (scheduled now w).
Proof.
  intros Hw. apply keeps_intro; [by intros k l e []|].
  intros k l e t _ _ Hh Ht. simpl. rewrite !lookup_insert_ne; [done|..].
  - intros E. by rewrite <- E, newTaskId_None in Ht.
  - intros E. by rewrite <- E, nextHandler_None in Hh.
Qed.

Lemma world_ok_scheduled now w : world_ok w → world_ok (scheduled now w).
Proof.
  intros [Hh Hd]. split; [done|]. intros h. simpl.
  intros [t [[<- _]|[_ Hl]]%lookup_insert_Some]; [lia|].
  specialize (Hd h ltac:(eauto)). lia.
Qed.

(** Cancelling a task that was not used. *)
Lemma run_unschedule now w g env' :
  world_ok w →
  (cancelTask (newTaskId (dom (w_tasks w))) ;! deleteHandler (w_nextHandler w))
    (mkState (set_env env' (scheduled now w)) g) =
  (Ok tt, mkState (set_env env' (setTimers (w_tasks w) (w_handlers w)
    (w_nextHandler w + 1) 0 0 w)) g).
Proof.
  intros Hw. unfold cancelTask, deleteHandler, bind. simpl.
  rewrite lookup_insert_eq. unfold set_timers, modify. simpl.
  rewrite !delete_insert_eq, !delete_id; [done|..].
  - by apply nextHandler_None.
  - apply newTaskId_None.
Qed.

(** The world and segment after [TombstoneList::add]. *)
Definition listedW (k : K) (t : TombstoneEntry) w : World K O :=
  setTimers (w_tasks w) (<[tb_handler t := t]> (w_handlers w)) (w_nextHandler w) 1
    (tombstonesize k) w.

Lemma run_tombstoneAdd k l e h id now w g :
  heapAt w l = Some (Impl e) → me_key e = Some k →
  tombstoneAdd l h id now (mkState w g) =
  (Ok tt, mkState (listedW k (mkTombstone (Some l) now id h) w)
            (setTombs (insert k (mkTombstone (Some l) now id h)) g)).
Proof.
  intros He Hk. unfold tombstoneAdd, setTombstoneEntry. rewrite !bind_assoc, bind_get.
  unfold bind at 1, set_timers, modify. simpl.
  unfold bind at 1. erewrite run_getKeyI; [|exact He]. by rewrite Hk.
Qed.

(** An entry that holds the tombstone token becomes listed under the handler
    and task scheduled for it. *)
Lemma listed_ok now k l e w0 w g h id :
  world_ok w → idx_ok g → m_map g !! k = Some l →
  entry_ok w k l e → me_value e = Some (VToken TOMBSTONE) →
  w_handlers w !! h = Some (mkTombstone None now 0 h) → w_tasks w !! id = Some h →
  0 ≤ id → h < w_nextHandler w → wframes k w0 w →
  let t := mkTombstone (Some l) now id h in
  let w' := listedW k t w in
  let g' := setTombs (insert k t) g in
  world_ok w' ∧ key_ok w' g' k ∧ wframes k w0 w' ∧ sframes k g g' ∧ idx_ok g' ∧
  live w' g' k = None.
Proof.
  intros [Hw1 Hw2] Hi Hm He Hv Hh Hid Hp Hlt Hf t w' g'. split_and!.
  - split; [done|]. intros h0. simpl.
    intros [t0 [[<- _]|[_ Hl]]%lookup_insert_Some]; [done|]. eauto.
  - unfold key_ok. simpl. rewrite Hm. exists e. split; [by destruct He; split|].
    unfold tomb_ok. simpl. rewrite lookup_insert_eq.
    split_and!; simpl; try done; by rewrite ?lookup_insert_eq.
  - eapply wframes_trans; [exact Hf|]. apply wframes_intro; [by intros k' l' e' _ []|].
    intros k' l' e' t' _ _ Hte Hth Htt. simpl. rewrite lookup_insert_ne; [done|].
    simpl. intros E. rewrite <- E, Hh in Hth. injection Hth as Hth. by subst t'.
  - intros k' Hne. simpl. by rewrite lookup_insert_ne.
  - done.
  - unfold live. simpl. rewrite Hm. change (heapAt w' l) with (heapAt w l).
    destruct He as [-> _ _ _ _]. by rewrite Hv.
Qed.

Lemma handlers_erase w g k h :
  (∀ t, m_tombstoneMap g !! k = Some t → tb_handler t ≠ h) →
  w_handlers (eraseW k g w) !! h = w_handlers w !! h.
Proof.
  intros Hne. unfold eraseW. destruct (m_tombstoneMap g !! k) as [t|]; [|done].
  simpl. by rewrite lookup_delete_ne by by apply Hne.
Qed.

Lemma tasks_erase w g k id :
  (∀ t, m_tombstoneMap g !! k = Some t → tb_expiryTaskId t ≠ id) →
  w_tasks (eraseW k g w) !! id = w_tasks w !! id.
Proof.
  intros Hne. unfold eraseW. destruct (m_tombstoneMap g !! k) as [t|]; [|done].
  simpl. by rewrite lookup_delete_ne by by apply Hne.
Qed.

(** Turning the entry of [k] into a listed tombstone. *)
Lemma entomb_ok now env' w g k l e st :
  world_ok w → idx_ok g → m_map g !! k = Some l → entry_ok w k l e →
  tomb_ok w g k l e →
  let h := w_nextHandler w in
  let id := newTaskId (dom (w_tasks w)) in
  let t := mkTombstone (Some l) now id h in
  let w1 := set_env env' (scheduled now w) in
  let w2 := updEntry l (withStamp st (withValue (Some (VToken TOMBSTONE)) e))
              (eraseW k g w1) in
  let w' := listedW k t w2 in
  let g' := setTombs (insert k t) (eraseG k g) in
  step_ok k (mkState w g) (mkState w' g') ∧ live w' g' k = None.
Proof.
  intros Hw Hi Hm He Ht h id t w1 w2 w' g'.
  assert (world_ok w1) as Hw1 by by destruct (world_ok_scheduled now w Hw).
  assert (keeps w w1) as Hk1.
  { intros g0 k0 H0. destruct (keeps_scheduled now w Hw g0 k0 H0) as [H1 E1].
    destruct (keeps_env (scheduled now w) env' g0 k0 H1) as [H2 E2].
    split; [done|]. unfold w1. congruence. }
  assert (entry_ok w1 k l e) as He1 by by destruct He.
  assert (tomb_ok w1 g k l e) as Ht1.
  { destruct (Hk1 g k) as [Hk1' _]; [unfold key_ok; rewrite Hm; eauto|].
    unfold key_ok in Hk1'. rewrite Hm in Hk1'.
    destruct Hk1' as (e' & He' & Ht'). destruct He1, He'. by simplify_eq. }
  assert (heapAt (eraseW k g w1) l = Some (Impl e)) as Hl1
    by by destruct (entry_ok_erase _ g _ _ _ k He1).
  set (e2 := withStamp st (withValue (Some (VToken TOMBSTONE)) e)) in *.
  assert (heapAt w2 l = Some (Impl e2)) as Hl2
    by by unfold w2; rewrite heapAt_updEntry, decide_True.
  destruct He as [Hl Hk Hth Hs Hd].
  destruct (listed_ok now k l e2 w w2 (eraseG k g) h id) as (A1 & A2 & A3 & A4 & A5 & A6).
  - apply world_ok_updEntry; [by apply world_ok_erase|]. rewrite Hl1. by eexists.
  - by apply eraseG_idx.
  - by rewrite eraseG_map.
  - split; [done|done|done|by eexists|]. simpl. split; [by eexists|done].
  - done.
  - change (w_handlers w2) with (w_handlers (eraseW k g w1)).
    rewrite handlers_erase; [simpl; by rewrite lookup_insert_eq|].
    intros t0 E0. unfold tomb_ok in Ht. rewrite E0 in Ht.
    destruct Ht as (_ & _ & Hh0 & _). intros E. unfold h in E.
    by rewrite E, nextHandler_None in Hh0.
  - change (w_tasks w2) with (w_tasks (eraseW k g w1)).
    rewrite tasks_erase; [simpl; by rewrite lookup_insert_eq|].
    intros t0 E0. unfold tomb_ok in Ht. rewrite E0 in Ht.
    destruct Ht as (_ & _ & _ & Ht0 & _). intros E. unfold id in E.
    by rewrite E, newTaskId_None in Ht0.
  - apply newTaskId_pos.
  - unfold w2, eraseW. case_match; simpl; unfold h; lia.
  - eapply wframes_trans; [by apply keeps_wframes|].
    eapply wframes_trans; [by eapply wframes_erase|].
    by eapply wframes_updEntry.
  - split; [|done]. split; simpl; try done.
    eapply sframes_trans; [apply sframes_erase|done].
Qed.

(** Adding a listed tombstone for a key without an entry. *)
Lemma entomb_new_ok now w g k tag :
  world_ok w → idx_ok g → m_map g !! k = None → m_tombstoneMap g !! k = None →
  let h := w_nextHandler w in
  let id := newTaskId (dom (w_tasks w)) in
  let l := h_next (w_heap w) in
  let t := mkTombstone (Some l) now id h in
  let w2 := newEntry (newImpl k (Some (VToken TOMBSTONE)) (setVersions tag))
              (scheduled now w) in
  let w' := listedW k t w2 in
  let g' := setTombs (insert k t) (set_map (<[k := l]> (m_map g)) g) in
  step_ok k (mkState w g) (mkState w' g') ∧ live w' g' k = None.
Proof.
  intros Hw Hi Hm Ht h id l t w2 w' g'.
  pose proof (world_ok_scheduled now w Hw) as Hw1.
  destruct (listed_ok now k l (newImpl k (Some (VToken TOMBSTONE)) (setVersions tag)) w w2
    (set_map (<[k := l]> (m_map g)) g) h id) as (A1 & A2 & A3 & A4 & A5 & A6).
  - by apply world_ok_newEntry.
  - done.
  - apply lookup_insert_eq.
  - split; [apply (heapAt_newEntry_new _ (scheduled now w))|done|done|by eexists|].
    simpl. split; [by eexists|done].
  - done.
  - simpl. by rewrite lookup_insert_eq.
  - simpl. by rewrite lookup_insert_eq.
  - apply newTaskId_pos.
  - simpl. unfold h. lia.
  - eapply wframes_trans; [by apply keeps_wframes, keeps_scheduled|].
    by apply wframes_newEntry.
  - split; [|done]. split; simpl; try done.
    eapply sframes_trans; [|exact A4]. intros k' Hne. simpl.
    by rewrite lookup_insert_ne.
Qed.

(** The world of an operation that scheduled a task and gave it up. *)
Lemma unscheduled_ok k w g env' :
  world_ok w → idx_ok g → key_ok w g k →
  let w' := set_env env' (setTimers (w_tasks w) (w_handlers w) (w_nextHandler w + 1)
              0 0 w) in
  step_ok k (mkState w g) (mkState w' g) ∧ live w' g k = live w g k.
Proof.
  intros [Hh Hd] Hi Hk w'.
  assert (keeps w w') as Hkeep by (apply keeps_intro; [by intros k' l e []|done]).
  destruct (Hkeep g k Hk) as [Hk' El]. split; [|done]. split; simpl; try done.
  - split; [done|]. intros h Hl. simpl. specialize (Hd h Hl). lia.
  - by apply keeps_wframes.
Qed.

(** The part of [remove] that found an entry and passed the version check. *)
Lemma run_entomb now n k l e uc st id h afterRemote me old tag w g :
  m_map g !! k = Some l → entry_ok w k l e → tomb_ok w g k l e →
  stampFor tag (me_stamp e) = st →
  (tag = None ∨ ∃ t, tag = Some t ∧
     processVersionTag (default newVersionStamp (me_stamp e)) tag false (w_env w) =
     (Ok GF_NOERR, w_env w)) →
  removeWhenConcurrencyEnabled (D:=D) cfg n k old me uc tag afterRemote id h now
    (mkState w g) =
  (Ok (mkRemoveOut
         (if isTombstone (me_value e) then
            if afterRemote then GF_NOERR else GF_CACHE_ENTRY_NOT_FOUND
          else GF_NOERR)
         (if isTombstone (me_value e) then None else me_value e) (Some l) true true),
   mkState (listedW k (mkTombstone (Some l) now id h)
              (updEntry l (withStamp st (withValue (Some (VToken TOMBSTONE)) e))
                 (eraseW k g w)))
     (setTombs (insert k (mkTombstone (Some l) now id h)) (eraseG k g))).
Proof.
  intros Hm He Hto Hst Htag. unfold removeWhenConcurrencyEnabled.
  rewrite (bind_Ok _ _ _ _ _ (run_find k w g)), Hm.
  pose proof He as [Hl Hk Hth [s0 Hs0] [Hsome Hd]].
  rewrite (bind_Ok _ _ _ _ _ (run_getVersionStamp w g l e Hl s0 Hs0)).
  assert ((match tag with
           | Some t => let! impl := onHeap (getImplPtr l) in
               let! err := onEnv (processVersionTag s0 (Some t) false) in
               ret (err, setVersions t)
           | None => ret (GF_NOERR, s0) end) (mkState w g) =
          (Ok (GF_NOERR, st), mkState w g)) as Ev.
  { destruct Htag as [->|(t & -> & Ep)].
    - simpl in Hst. rewrite Hs0 in Hst. by rewrite <- Hst.
    - rewrite (bind_Ok _ _ _ _ _ (run_getImplPtr w g l e Hl Hth)).
      rewrite Hs0 in Ep. simpl default in Ep. unfold bind, onEnv, zoom.
      cbn [st_world]. rewrite Ep. simpl in Hst. rewrite <- Hst.
      unfold ret. do 2 f_equal. by destruct w. }
  rewrite (bind_Ok _ _ _ _ _ Ev). cbn [fst snd].
  rewrite (bool_decide_eq_true_2 (GF_NOERR = GF_NOERR)) by done. cbn [negb].
  rewrite (bind_Ok _ _ _ _ _ (run_getImplPtr w g l e Hl Hth)).
  rewrite (bind_Ok _ _ _ _ _ (run_getValueI w g l e Hl Hd)).
  rewrite bool_decide_eq_true_2 by done.
  rewrite (bind_Ok _ _ _ _ _ (run_putForTracked cfg Hcc k _ l e uc st w g He Hto)).
  cbn [fst snd]. rewrite (bool_decide_eq_true_2 (GF_NOERR = GF_NOERR)) by done.
  assert (heapAt (updEntry l (withStamp st (withValue (Some (VToken TOMBSTONE)) e))
    (eraseW k g w)) l = Some (Impl (withStamp st (withValue (Some (VToken TOMBSTONE)) e))))
    as Hl2 by by rewrite heapAt_updEntry, decide_True.
  rewrite bind_assoc, (bind_Ok _ _ _ _ _ (run_tombstoneAdd k l _ h id now _ _ Hl2 Hk)).
  rewrite bind_ret. by destruct (isTombstone (me_value e)).
Qed.

(** What [remove] promises of [k]. *)
Definition removed k tag (afterRemote : bool) w g
    (r : GfErrType * CacheablePtr * option Z * bool) (s' : State K O) : Prop :=
  let '(err, old', _, found') := r in
  step_ok k (mkState w g) s' ∧
  found' = bool_decide (is_Some (m_map g !! k)) ∧
  (verdict err ∨ err = GF_CACHE_ENTRY_NOT_FOUND ∧ afterRemote = false) ∧
  ((tag : option VersionTag) = None → is_Some (live w g k) ∨ afterRemote = true →
   err = GF_NOERR) ∧
  (err = GF_NOERR → live (st_world s') (st_seg s') k = None ∧ old' = live w g k ∧
     (live w g k = None → afterRemote = true)) ∧
  (err ≠ GF_NOERR → live (st_world s') (st_seg s') k = live w g k).

Lemma remove_bound n now k old me uc tag afterRemote found w g l :
  world_ok w → key_ok w g k → idx_ok g → tagOk w tag → m_map g !! k = Some l →
  ∃ err old' me' found' w' g',
    remove (D:=D) cfg n now k old me uc tag afterRemote found (mkState w g) =
      (Ok (err, old', me', found'), mkState w' g') ∧
    removed k tag afterRemote w g (err, old', me', found') (mkState w' g').
Proof.
  intros Hw Hk Hi Ht Em. unfold remove. rewrite Hcc. unfold removed.
  rewrite (bind_Ok _ _ _ _ _ (run_getExpiryTask now w g)). cbn [fst snd].
  set (h := w_nextHandler w). set (id := newTaskId (dom (w_tasks w))).
  pose proof (world_ok_scheduled now w Hw) as Hw0.
  destruct (keeps_scheduled now w Hw g k Hk) as [Hk0 El0].
  pose proof Hk as Hkey. unfold key_ok in Hk, Hk0. rewrite Em in Hk, Hk0 |- *.
  destruct Hk as (e & He & Hto). destruct Hk0 as (e0 & He0 & Hto0).
  assert (e0 = e) as ->.
  { destruct He as [E1 _ _ _ _], He0 as [E2 _ _ _ _].
    change (heapAt (scheduled now w) l) with (heapAt w l) in E2. congruence. }
  rewrite (live_entry w g k l e Em He).
  assert (∃ err env',
      is_Some tag ∧ processVersionTag (default newVersionStamp (me_stamp e)) tag false
        (w_env w) = (Ok err, env') ∨
      tag = None ∧ err = GF_NOERR ∧ env' = w_env w) as (err & env' & Ep).
  { destruct tag as [t|]; [|by eexists _, _; right].
    destruct (Ht t (default newVersionStamp (me_stamp e)) false eq_refl)
      as (err & env' & E). exists err, env'. left. split; [by eexists|done]. }
  destruct (decide (err = GF_NOERR)) as [->|Hne].
  + pose proof (run_entomb now n k l e uc (stampFor tag (me_stamp e)) id h afterRemote
      me old tag (scheduled now w) g Em He0 Hto0 eq_refl) as Hrun.
    assert (tag = None ∨ ∃ t, tag = Some t ∧
      processVersionTag (default newVersionStamp (me_stamp e)) tag false
        (w_env (scheduled now w)) = (Ok GF_NOERR, w_env (scheduled now w))) as Hpre.
    { destruct tag as [t|]; [|by left]. destruct Ep as [[_ Ep]|[? _]]; [|done].
      right. exists t. split; [done|].
      change (w_env (scheduled now w)) with (w_env w). rewrite Ep.
      by apply processVersionTag_noerr in Ep as ->. }
    rewrite (bind_Ok _ _ _ _ _ (Hrun Hpre)).
    cbn [ro_expTaskSet negb ro_err ro_oldValue ro_me ro_isEntryFound].
    rewrite bind_ret.
    destruct (entomb_ok now (w_env w) w g k l e (stampFor tag (me_stamp e)) Hw Hi Em He
      Hto) as [Hstep El].
    assert (set_env (w_env w) (scheduled now w) = scheduled now w) as Eenv by done.
    rewrite Eenv in *. do 6 eexists. split; [done|]. split_and!; try done.
    * destruct (isTombstone (me_value e)), afterRemote; first [by left; left|by right].
    * intros _ Hor. destruct (isTombstone (me_value e)); [|done].
      destruct Hor as [[v Hv]| ->]; done.
    * intros Herr. split_and!; try done.
      destruct (isTombstone (me_value e)); [by destruct afterRemote|].
      intros Hn. destruct He as [_ _ _ _ [[v Hv] _]]. congruence.
    * intros Herr. etransitivity; [exact El|]. destruct (isTombstone (me_value e)); done.
  + destruct Ep as [[[t ->] Ep]|(_ & ? & _)]; [|done].
    pose proof He0 as [Hl _ Hth [s0 Hs0] _].
    unfold removeWhenConcurrencyEnabled.
    rewrite !bind_assoc, (bind_Ok _ _ _ _ _ (run_find k (scheduled now w) g)), Em.
    rewrite !bind_assoc, (bind_Ok _ _ _ _ _ (run_getVersionStamp _ g l e Hl s0 Hs0)).
    rewrite !bind_assoc, (bind_Ok _ _ _ _ _ (run_getImplPtr _ g l e Hl Hth)).
    assert (onEnv (processVersionTag s0 (Some t) false)
      (mkState (scheduled now w) g) =
      (Ok err, mkState (set_env env' (scheduled now w)) g)) as Ev.
    { unfold onEnv, zoom. cbn [st_world]. rewrite Hs0 in Ep. simpl default in Ep.
      change (w_env (scheduled now w)) with (w_env w). by rewrite Ep. }
    rewrite bind_assoc, (bind_Ok _ _ _ _ _ Ev), bind_ret. cbn [fst snd].
    rewrite bool_decide_eq_false_2 by done. cbn [negb]. rewrite bind_ret.
    cbn [ro_expTaskSet negb ro_err ro_oldValue ro_me ro_isEntryFound].
    rewrite (bind_Ok _ _ _ _ _ (run_unschedule now w g env' Hw)).
    destruct (unscheduled_ok k w g env' Hw Hi Hkey) as [Hstep El].
    do 6 eexists. split; [done|]. split_and!; try done.
    { left. by eapply processVersionTag_verdict. }
    intros _. cbn [st_world st_seg]. rewrite El. by rewrite (live_entry w g k l e Em He).
Qed.

Lemma remove_absent n now k old me uc tag afterRemote found w g :
  world_ok w → key_ok w g k → idx_ok g → m_map g !! k = None →
  ∃ err old' me' found' w' g',
    remove (D:=D) cfg n now k old me uc tag afterRemote found (mkState w g) =
      (Ok (err, old', me', found'), mkState w' g') ∧
    removed k tag afterRemote w g (err, old', me', found') (mkState w' g').
Proof.
  intros Hw Hk Hi Em. unfold remove. rewrite Hcc. unfold removed.
  rewrite (bind_Ok _ _ _ _ _ (run_getExpiryTask now w g)). cbn [fst snd].
  set (h := w_nextHandler w). set (id := newTaskId (dom (w_tasks w))).
  pose proof Hk as Hkey. unfold key_ok in Hk. rewrite Em in Hk |- *.
  rewrite live_none by done. unfold removeWhenConcurrencyEnabled.
  rewrite !bind_assoc, (bind_Ok _ _ _ _ _ (run_find k (scheduled now w) g)), Em.
  destruct tag as [t|].
  + destruct (entomb_new_ok now w g k t Hw Hi Em Hk) as [Hstep El].
    rewrite !bind_assoc, (bind_Ok _ _ _ _ _ (run_putNoEntry cfg Hcc Hfc n k
      (Some (VToken TOMBSTONE)) None (-1) 0 (Some t) None (scheduled now w) g Em)).
    set (e := newImpl k (Some (VToken TOMBSTONE)) (stampFor (Some t) None)).
    pose proof (heapAt_newEntry_new e (scheduled now w)) as Hnew.
    cbn [snd]. rewrite !bind_assoc,
      (bind_Ok _ _ _ _ _ (run_getImplPtr _ _ _ e Hnew eq_refl)).
    rewrite !bind_assoc,
      (bind_Ok _ _ _ _ _ (run_tombstoneAdd k _ e h id now _ _ Hnew eq_refl)).
    rewrite !bind_ret.
    cbn [ro_expTaskSet negb ro_err ro_oldValue ro_me ro_isEntryFound].
    rewrite bind_ret.
    do 6 eexists. split; [done|]. split_and!; try done;
      try (by intros _ [[]| ->]); destruct afterRemote; try done;
      first [by left; left|by right].
  + rewrite !bind_assoc, !bind_ret.
    cbn [ro_expTaskSet negb ro_err ro_oldValue ro_me ro_isEntryFound].
    pose proof (run_unschedule now w g (w_env w) Hw) as Hu.
    assert (set_env (w_env w) (scheduled now w) = scheduled now w) as Eenv by done.
    rewrite Eenv in Hu. rewrite (bind_Ok _ _ _ _ _ Hu).
    destruct (unscheduled_ok k w g (w_env w) Hw Hi Hkey) as [Hstep El].
    rewrite (live_none w g k Em) in El.
    do 6 eexists. split; [done|]. split_and!; try done;
      try (by intros _ [[]| ->]); destruct afterRemote; try done;
      first [by left; left|by right].
Qed.

Lemma remove_spec n now k old me uc tag afterRemote found w g :
  world_ok w → key_ok w g k → idx_ok g → tagOk w tag →
  ∃ err old' me' found' w' g',
    remove (D:=D) cfg n now k old me uc tag afterRemote found (mkState w g) =
      (Ok (err, old', me', found'), mkState w' g') ∧
    step_ok k (mkState w g) (mkState w' g') ∧
    found' = bool_decide (is_Some (m_map g !! k)) ∧
    (verdict err ∨ err = GF_CACHE_ENTRY_NOT_FOUND ∧ afterRemote = false) ∧
    (tag = None → is_Some (live w g k) ∨ afterRemote = true → err = GF_NOERR) ∧
    (err = GF_NOERR → live w' g' k = None ∧ old' = live w g k ∧
       (live w g k = None → afterRemote = true)) ∧
    (err ≠ GF_NOERR → live w' g' k = live w g k).
Proof.
  intros Hw Hk Hi Ht. destruct (m_map g !! k) as [l|] eqn:Em; rewrite <- Em.
  - by apply (remove_bound n now k old me uc tag afterRemote found w g l).
  - by apply remove_absent.
Qed.

(** ** Reading *)

Lemma getEntry_spec k w g :
  key_ok w g k →
  ∃ r, getEntry k (mkState w g) = (Ok r, mkState w g) ∧
    snd <$> r = live w g k ∧ (∀ l v, r = Some (l, v) → m_map g !! k = Some l).
Proof.
  intros Hk. unfold getEntry. rewrite (bind_Ok _ _ _ _ _ (run_find k w g)).
  unfold key_ok in Hk. destruct (m_map g !! k) as [l|] eqn:Em.
  2: { exists None. rewrite live_none by done. done. }
  destruct Hk as (e & He & Hto). pose proof He as [Hl _ Hth _ [[v Hv] Hd]].
  rewrite (live_entry w g k l e Em He).
  rewrite (bind_Ok _ _ _ _ _ (run_getImplPtr w g l e Hl Hth)).
  rewrite (bind_Ok _ _ _ _ _ (run_getValueI w g l e Hl Hd)). rewrite Hv.
  destruct (isTombstone (Some v)); [by exists None|].
  exists (Some (l, v)). split_and!; try done. intros ?? [= -> ->]. done.
Qed.

Lemma containsKey_spec k w g :
  key_ok w g k →
  containsKey k (mkState w g) =
  (Ok (bool_decide (is_Some (live w g k))), mkState w g).
Proof.
  intros Hk. unfold containsKey. rewrite (bind_Ok _ _ _ _ _ (run_find k w g)).
  unfold key_ok in Hk. destruct (m_map g !! k) as [l|] eqn:Em.
  2: { by rewrite live_none by done. }
  destruct Hk as (e & He & Hto). pose proof He as [Hl _ Hth _ [[v Hv] Hd]].
  rewrite (live_entry w g k l e Em He).
  rewrite (bind_Ok _ _ _ _ _ (run_getImplPtr w g l e Hl Hth)).
  rewrite (bind_Ok _ _ _ _ _ (run_getValueI w g l e Hl Hd)). rewrite Hv.
  by destruct (isTombstone (Some v)).
Qed.

Lemma segIsTombstone_spec k me w g :
  key_ok w g k →
  ∃ me', segIsTombstone k me (mkState w g) =
    (Ok (GF_NOERR, me', bool_decide (is_Some (m_tombstoneMap g !! k))), mkState w g).
Proof.
  intros Hk. unfold segIsTombstone. rewrite (bind_Ok _ _ _ _ _ (run_find k w g)).
  unfold key_ok in Hk. destruct (m_map g !! k) as [l|] eqn:Em.
  2: { rewrite Hk. by exists me. }
  destruct Hk as (e & He & Hto). pose proof He as [Hl _ Hth _ [[v Hv] Hd]].
  rewrite (bind_Ok _ _ _ _ _ (run_getImplPtr w g l e Hl Hth)).
  rewrite (bind_Ok _ _ _ _ _ (run_getValueI w g l e Hl Hd)).
  unfold tombstoneExists. rewrite !bind_assoc, bind_get, bind_ret. simpl st_seg.
  pose proof (tomb_ok_value _ _ _ _ _ Hto) as Hb. rewrite Hv in *.
  rewrite Hb. cbn [st_seg].
  destruct (bool_decide (is_Some (m_tombstoneMap g !! k))); by eexists.
Qed.

(** ** Removing the actual entry *)

Lemma removeActual_ok w g k :
  world_ok w → idx_ok g → key_ok w g k →
  unguardedRemoveActualEntry k true (mkState w g) =
    (Ok (bool_decide (is_Some (m_map g !! k))),
     mkState (eraseW k g w) (removedG k g)) ∧
  step_ok k (mkState w g) (mkState (eraseW k g w) (removedG k g)) ∧
  live (eraseW k g w) (removedG k g) k = None.
Proof.
  intros Hw Hi Hk. split_and!.
  - unfold unguardedRemoveActualEntry.
    assert (∀ t, m_tombstoneMap g !! k = Some t → is_Some (w_handlers w !! tb_handler t))
      as Hh.
    { intros t Et. unfold key_ok in Hk. destruct (m_map g !! k); [|congruence].
      destruct Hk as (e & _ & Hto). unfold tomb_ok in Hto. rewrite Et in Hto.
      destruct Hto as (_ & _ & Hh & _). by eexists. }
    rewrite (bind_Ok _ _ _ _ _ (run_erase k w g Hh)). fold (eraseG k g).
    unfold unbind, onSeg, modify, bind, get, ret. simpl. rewrite eraseG_map.
    do 2 f_equal. unfold removedG, setTombs, set_map, eraseG.
    destruct (m_tombstoneMap g !! k) eqn:Et; simpl; [done|].
    by rewrite (delete_id (m_tombstoneMap g)).
  - split; simpl.
    + by apply world_ok_erase.
    + unfold key_ok. simpl. by rewrite !lookup_delete_eq.
    + unfold key_ok in Hk. destruct (m_map g !! k).
      * destruct Hk as (e & He & Hto). by eapply wframes_erase.
      * unfold eraseW. by rewrite Hk.
    + intros k' Hne. simpl. by rewrite !lookup_delete_ne.
    + done.
  - apply live_none. simpl. apply lookup_delete_eq.
Qed.

(** ** Whole segments *)

Record seg_ok (s : State K O) : Prop := {
  sk_world : world_ok (st_world s);
  sk_idx : idx_ok (st_seg s);
  sk_keys : ∀ k, key_ok (st_world s) (st_seg s) k
}.

(** What the region sees of the segment. *)
Definition view (s : State K O) (k : K) : CacheablePtr :=
  live (st_world s) (st_seg s) k.

Lemma step_ok_whole k s s' :
  seg_ok s → step_ok k s s' →
  seg_ok s' ∧ ∀ k', k' ≠ k → view s' k' = view s k'.
Proof.
  intros [Hw Hi Hk] [H1 H2 H3 H4 H5].
  assert (∀ k', k' ≠ k → key_ok (st_world s') (st_seg s') k' ∧ view s' k' = view s k')
    as Hother.
  { intros k' Hne. destruct (H3 (st_seg s) k' Hne (Hk k')) as [Hk1 El1].
    destruct (H4 k' Hne) as [E1 E2].
    destruct (key_ok_seg (st_world s') (st_seg s) (st_seg s') k' E1 E2) as [Hk2 El2].
    split; [by apply Hk2|]. unfold view. congruence. }
  split; [|by intros k' Hne; apply Hother]. split; [done|done|].
  intros k'. destruct (decide (k' = k)) as [->|Hne]; [done|by apply Hother].
Qed.

(** What a change of the world leaves of a key, in whatever segment it is. *)
Definition frame_at (k : K) w w' : Prop :=
  ∀ g, key_ok w g k → key_ok w' g k ∧ live w' g k = live w g k.

Lemma frame_at_trans k w1 w2 w3 :
  frame_at k w1 w2 → frame_at k w2 w3 → frame_at k w1 w3.
Proof.
  intros H12 H23 g Hk. destruct (H12 g Hk) as [Hk2 E2]. destruct (H23 g Hk2) as [Hk3 E3].
  split; [done|congruence].
Qed.

Lemma step_ok_frame k k' s s' :
  step_ok k s s' → k' ≠ k → frame_at k' (st_world s) (st_world s').
Proof. intros [_ _ Hf _ _] Hne g. by apply Hf. Qed.

(** Removing a key changes the world only if it is bound. *)
Lemma eraseW_unbound w g k : key_ok w g k → m_map g !! k = None → eraseW k g w = w.
Proof. unfold key_ok, eraseW. intros Hk Hm. rewrite Hm in Hk. by rewrite Hk. Qed.

Lemma removeAll_ok ks s :
  seg_ok s →
  ∃ s', unguardedRemoveAll ks s = (Ok tt, s') ∧ seg_ok s' ∧
    (∀ k, view s' k = if decide (k ∈ ks) then None else view s k) ∧
    (∀ k, m_map (st_seg s') !! k =
          if decide (k ∈ ks) then None else m_map (st_seg s) !! k) ∧
    (∀ k, k ∉ ks ∨ m_map (st_seg s) !! k = None →
          frame_at k (st_world s) (st_world s')).
Proof.
  revert s. induction ks as [|k ks IH]; intros s Hs.
  { exists s. split_and!; try done. }
  destruct s as [w g]. pose proof Hs as [Hw Hi Hk].
  destruct (removeActual_ok w g k Hw Hi (Hk k)) as (E & Hstep & El).
  destruct (step_ok_whole k _ _ Hs Hstep) as [Hs' Hv].
  destruct (IH _ Hs') as (s' & E' & Hs'' & Hv'' & Hm'' & Hf'').
  exists s'. cbn [unguardedRemoveAll]. rewrite (bind_Ok _ _ _ _ _ E).
  split; [done|]. split; [done|]. split; [|split].
  1, 2: intros k'; rewrite ?Hv'', ?Hm'';
    destruct (decide (k' ∈ ks)) as [Hin|Hnin];
    try (by rewrite decide_True by by right);
    (destruct (decide (k' = k)) as [->|Hne];
      [rewrite decide_True by left
      |rewrite decide_False by (rewrite elem_of_cons; naive_solver)]).
  - exact El.
  - by apply Hv.
  - apply lookup_delete_eq.
  - by apply lookup_delete_ne.
  - intros k' Hk'. destruct (decide (k' = k)) as [->|Hne].
    + destruct Hk' as [[]%not_elem_of_cons|Hm]; [done|].
      specialize (Hf'' k). simpl in *. rewrite eraseW_unbound in Hf'' by done.
      apply Hf''. right. apply lookup_delete_eq.
    + eapply frame_at_trans; [by apply (step_ok_frame k k' _ _ Hstep)|].
      apply Hf''. rewrite not_elem_of_cons in Hk'. simpl in *.
      destruct Hk' as [[_ Hk']|Hk']; [by left|right]. by rewrite lookup_delete_ne.
Qed.

(** ** Reaping and expiry *)

(** A tombstone not newer than what the server collected for its member. *)
Definition reapable (gc : gmap Z Z) (s : State K O) (k : K) : Prop :=
  ∃ t l e st v, m_tombstoneMap (st_seg s) !! k = Some t ∧ tb_entry t = Some l ∧
    heapAt (st_world s) l = Some (Impl e) ∧ me_stamp e = Some st ∧
    gc !! vs_memberID st = Some v ∧ getRegionVersion st ≤ v.

(** The entry behind a listed tombstone. *)
Lemma tombstone_entry s k t :
  seg_ok s → m_tombstoneMap (st_seg s) !! k = Some t →
  ∃ l e, m_map (st_seg s) !! k = Some l ∧ tb_entry t = Some l ∧
    entry_ok (st_world s) k l e ∧ tomb_ok (st_world s) (st_seg s) k l e ∧
    view s k = None.
Proof.
  intros [_ _ Hk] Et. specialize (Hk k). unfold key_ok in Hk.
  destruct (m_map (st_seg s) !! k) as [l|] eqn:Em; [|congruence].
  destruct Hk as (e & He & Hto). exists l, e. split_and!; try done.
  - unfold tomb_ok in Hto. rewrite Et in Hto. apply Hto.
  - unfold view. rewrite (live_entry _ _ _ _ _ Em He), (tomb_ok_value _ _ _ _ _ Hto), Et.
    done.
Qed.

Lemma tobeDeleted_ok gc s l :
  seg_ok s → (∀ k t, (k, t) ∈ l → m_tombstoneMap (st_seg s) !! k = Some t) →
  ∃ ks, tobeDeleted gc l s = (Ok ks, s) ∧
    ∀ k, k ∈ ks ↔ (∃ t, (k, t) ∈ l) ∧ reapable gc s k.
Proof.
  intros Hs. destruct s as [w g]. induction l as [|[k t] l IH]; intros Hl.
  { exists []. split; [done|]. intros k. split; [by intros ?%not_elem_of_nil|].
    by intros [[t ?%not_elem_of_nil] _]. }
  destruct IH as (ks & E & Hks). { intros k' t' Hin. apply Hl. by right. }
  pose proof (Hl k t ltac:(left)) as Et.
  destruct (tombstone_entry _ _ _ Hs Et) as (l0 & e & Em & Ete & He & _ & _).
  cbn [tobeDeleted]. rewrite Ete. pose proof He as [Hh _ _ [st Hst] _].
  rewrite (bind_Ok _ _ _ _ _ (run_getVersionStamp w g l0 e Hh st Hst)).
  rewrite (bind_Ok _ _ _ _ _ E).
  assert (reapable gc (mkState w g) k ↔
    ∃ v, gc !! vs_memberID st = Some v ∧ getRegionVersion st ≤ v) as Hre.
  { split.
    - intros (t1 & l1 & e1 & st1 & v & ? & ? & ? & ? & ? & ?). simpl in *.
      assert (st1 = st) as -> by congruence. by exists v.
    - intros (v & ? & ?). by exists t, l0, e, st, v. }
  eexists. split; [done|]. intros k'.
  assert ((∃ t', (k', t') ∈ (k, t) :: l) ↔ k' = k ∨ ∃ t', (k', t') ∈ l) as Hin.
  { setoid_rewrite elem_of_cons. naive_solver. }
  rewrite Hin. destruct (gc !! vs_memberID st) as [v|] eqn:Eg;
    [destruct (Z.leb_spec (getRegionVersion st) v)|];
    rewrite ?elem_of_cons, Hks; naive_solver lia.
Qed.

Lemma reap_versions_ok gc s :
  seg_ok s →
  ∃ s', reapTombstones_versions gc s = (Ok tt, s') ∧ seg_ok s' ∧
    (∀ k, view s' k = view s k) ∧
    (∀ k, (reapable gc s k → m_map (st_seg s') !! k = None) ∧
          (¬ reapable gc s k → m_map (st_seg s') !! k = m_map (st_seg s) !! k)) ∧
    (∀ k, m_map (st_seg s) !! k = None → frame_at k (st_world s) (st_world s')).
Proof.
  intros Hs. unfold reapTombstones_versions. rewrite bind_get.
  destruct (tobeDeleted_ok gc s (map_to_list (m_tombstoneMap (st_seg s))) Hs)
    as (ks & E & Hks). { by intros k t ?%elem_of_map_to_list. }
  rewrite (bind_Ok _ _ _ _ _ E).
  assert (∀ k, k ∈ ks ↔ reapable gc s k) as Hks'.
  { intros k. rewrite Hks. split; [by intros []|]. intros Hr. split; [|done].
    destruct Hr as (t & _ & _ & _ & _ & Ht & _). exists t.
    by apply elem_of_map_to_list. }
  destruct (removeAll_ok ks s Hs) as (s' & E' & Hs' & Hv & Hm & Hf).
  exists s'. split_and!; try done; [|..|by intros k Hk; apply Hf; right].
  - intros k. rewrite Hv. case_decide as Hin; [|done].
    apply Hks' in Hin as (t & _ & _ & _ & _ & Ht & _).
    by destruct (tombstone_entry s k t Hs Ht) as (? & ? & _ & _ & _ & _ & ->).
  - intros k. rewrite Hm. rewrite <- Hks'.
    split; intros; [by rewrite decide_True|by rewrite decide_False].
Qed.

(** The timer of a tombstone fires. *)
Lemma expiry_ok k t now s :
  seg_ok s → m_tombstoneMap (st_seg s) !! k = Some t →
  let timeout := u32 (u32 (cf_tombstoneTimeoutInMSec cfg / 1000) * 1000) in
  ∃ s', handle_timeout cfg (tb_handler t) now s = (Ok tt, s') ∧ seg_ok s' ∧
    (∀ k', view s' k' = view s k') ∧
    (now < tb_creationTime t + timeout → s' = s) ∧
    (tb_creationTime t + timeout ≤ now →
     m_map (st_seg s') !! k = None ∧ m_tombstoneMap (st_seg s') !! k = None ∧
     w_tasks (st_world s') !! tb_expiryTaskId t = None ∧
     w_handlers (st_world s') !! tb_handler t = None) ∧
    step_ok k s s'.
Proof.
  intros Hs Et timeout. destruct s as [w g].
  destruct (tombstone_entry _ _ _ Hs Et) as (l & e & Em & Ete & He & Hto & Hv).
  simpl in *. unfold handle_timeout. rewrite bind_get. cbn [st_world].
  pose proof Hto as Hto'. unfold tomb_ok in Hto'. rewrite Et in Hto'.
  destruct Hto' as (_ & _ & Hh & Htk & _). rewrite Hh, Ete.
  pose proof He as [Hl Hk _ _ _].
  rewrite (bind_Ok _ _ _ _ _ (run_getKeyI w g l e Hl)), Hk. fold timeout.
  destruct (Z.leb_spec 0 (now - tb_creationTime t - timeout)) as [Hle|Hgt].
  2: { exists (mkState w g). split_and!; try done; [lia|].
    destruct Hs. by split; try done. }
  destruct (removeActual_ok w g k) as (_ & Hstep & El); [by destruct Hs..|apply Hs|].
  destruct (step_ok_whole k _ _ Hs Hstep) as [Hs' Hv'].
  exists (mkState (eraseW k g w) (removedG k g)). split_and!; try done.
  - unfold removeActualEntry, unguardedRemoveActualEntry, eraseEntryFromTombstoneList.
    rewrite !bind_assoc, bind_get. cbn [st_seg]. rewrite Et.
    unfold unbind, cancelTask, deleteHandler, addTombstoneStats, set_tombstones, onSeg.
    unfold bind, ret, get, modify. simpl. rewrite Hh. unfold set_timers, modify. simpl.
    unfold eraseW. rewrite Et. done.
  - intros k'. destruct (decide (k' = k)) as [->|Hne]; [|by apply Hv'].
    rewrite Hv. exact El.
  - lia.
  - intros _. simpl. unfold eraseW. rewrite Et. simpl. by rewrite !lookup_delete_eq.
Qed.
End Ops.

Arguments seg_ok {K O _ _} s.
Arguments view {K O _ _} s k.
Arguments reapable {K O _ _} gc s k.
Arguments tagOk {K O} w tag.
Arguments frame_at {K O _ _} k w w'.
