(* ===== verification/SegmentProps.v ===== *)
(** * Properties of a segment of the entries map *)

From S2P Require Import Prelude Membership Version VersionProps MapEntry MapSegment.
From S2P Require Import SegmentInvariant SegmentOps.

Section Props.
Context {K O D : Type} `{EqDecision K, !Countable K}.
Context `{!CacheableKey K, !Application K O D, !TaskIds}.
Implicit Types (s : State K O).

Variable cfg : SegConfig.

(** The configuration of a region with concurrency checks. *)
Definition checked (cfg : SegConfig) : Prop :=
  cf_concurrencyChecksEnabled cfg = true ∧ cf_factoryConcurrencyChecks cfg = true.

(** ** The operations as steps of a state machine *)

Inductive segOp : Type :=
  | OpPut (k : K) (v : Value) (tag : option VersionTag)
  | OpCreate (k : K) (v : Value) (tag : option VersionTag)
  | OpInvalidate (k : K) (tag : option VersionTag)
  | OpRemove (k : K) (now : Z) (tag : option VersionTag) (afterRemote : bool)
  | OpReap (gcVersions : gmap Z Z)
  | OpExpire (handler now : Z).

Definition exec (op : segOp) : M (State K O) GfErrType :=
  match op with
  | OpPut k v tag =>
      let! r := put (D:=D) cfg 0 k (Some v) None None (-1) 0 false tag None in
      ret r.1.1.1.1
  | OpCreate k v tag =>
      let! r := create (D:=D) cfg 0 k (Some v) None None (-1) 0 tag in ret r.1.1
  | OpInvalidate k tag =>
      let! r := invalidate cfg 0 k None None tag in ret r.1.1.1
  | OpRemove k now tag afterRemote =>
      let! r := remove (D:=D) cfg 0 now k None None (-1) tag afterRemote true in
      ret r.1.1.1
  | OpReap gc => reapTombstones_versions gc ;! ret GF_NOERR
  | OpExpire handler now => handle_timeout cfg handler now ;! ret GF_NOERR
  end.

(** When the environment may invoke an operation: values are not the markers of
    the map, tags are membersComparable, the hash table is not beyond its largest
    prime, and a timer fires only while its tombstone is listed. *)
Definition enabled (op : segOp) s : Prop :=
  match op with
  | OpPut _ v tag | OpCreate _ v tag =>
      storable v ∧ tagOk (st_world s) tag ∧
      Z.of_nat (size (m_map (st_seg s))) < 2 ^ 32
  | OpInvalidate _ tag | OpRemove _ _ tag _ => tagOk (st_world s) tag
  | OpReap _ => True
  | OpExpire handler _ =>
      ∃ k t, m_tombstoneMap (st_seg s) !! k = Some t ∧ tb_handler t = handler
  end.

(** ** The abstract map *)

Definition amap : Type := K → option Value.
Definition aset (a : amap) (k : K) (x : option Value) : amap :=
  λ k', if decide (k' = k) then x else a k'.
Definition aeq (a b : amap) : Prop := ∀ k, a k = b k.

(** What an operation that returned [err] may do to the abstract map. *)
Definition absStep (op : segOp) (err : GfErrType) (a a' : amap) : Prop :=
  match op with
  | OpPut k v tag =>
      (err = GF_NOERR ∧ aeq a' (aset a k (Some v))) ∨
      (err ≠ GF_NOERR ∧ tag ≠ None ∧ aeq a' a)
  | OpCreate k v tag =>
      (err = GF_NOERR ∧ a k = None ∧ aeq a' (aset a k (Some v))) ∨
      (err = GF_CACHE_ENTRY_EXISTS ∧ is_Some (a k) ∧ aeq a' a) ∨
      (err ≠ GF_NOERR ∧ a k = None ∧ tag ≠ None ∧ aeq a' a)
  | OpInvalidate k tag =>
      (err = GF_NOERR ∧ is_Some (a k) ∧ aeq a' (aset a k (Some (VToken INVALID)))) ∨
      (err = GF_CACHE_ENTRY_NOT_FOUND ∧ a k = None ∧
       aeq a' (aset a k (Some (VToken INVALID)))) ∨
      (err ≠ GF_NOERR ∧ aeq a' a)
  | OpRemove k _ tag afterRemote =>
      (err = GF_NOERR ∧ (is_Some (a k) ∨ afterRemote = true) ∧ aeq a' (aset a k None)) ∨
      (err ≠ GF_NOERR ∧ (a k = None ∨ tag ≠ None) ∧ aeq a' a)
  | OpReap _ | OpExpire _ _ => err = GF_NOERR ∧ aeq a' a
  end.

#[export] Instance aeq_equivalence : Equivalence aeq.
Proof.
  split; [by intros a k|by intros a b Eab k|].
  by intros a b c Eab Ebc k; rewrite Eab.
Qed.

#[export] Instance aset_proper : Proper (aeq ==> eq ==> eq ==> aeq) aset.
Proof. intros a b E k ? <- x ? <- k'. unfold aset. by case_decide. Qed.

Lemma aset_view s s' k x :
  view s' k = x → (∀ k', k' ≠ k → view s' k' = view s k') →
  aeq (view s') (aset (view s) k x).
Proof. intros E Hne k'. unfold aset. case_decide as Ek; [by subst|by apply Hne]. Qed.

Lemma same_view s s' k :
  view s' k = view s k → (∀ k', k' ≠ k → view s' k' = view s k') →
  aeq (view s') (view s).
Proof. intros E Hne k'. destruct (decide (k' = k)) as [->|]; [done|by apply Hne]. Qed.

Hypothesis Hcfg : checked cfg.

(** One operation. *)
Lemma exec_simulates op s :
  seg_ok s → enabled op s →
  ∃ err s', exec op s = (Ok err, s') ∧ seg_ok s' ∧
    absStep op err (view s) (view s').
Proof.
  destruct Hcfg as [Hcc Hfc]. intros Hs He. destruct s as [w g].
  pose proof Hs as [Hw Hi Hk]. cbn [st_world st_seg] in *.
  destruct op as [k v tag|k v tag|k tag|k now tag afterRemote|gc|h now];
    cbn [exec enabled absStep st_world st_seg] in *.
  - destruct He as (Hv & Ht & Hsz).
    destruct (put_spec cfg Hcc Hfc 0 k v None None (-1) 0 false tag w g Hw (Hk k) Hi Hsz
      Ht Hv) as (err & me & old & upd & w' & g' & E & Hst & Hn & _ & H1 & H2).
    destruct (step_ok_whole k _ _ Hs Hst) as [Hs' Hne].
    exists err, (mkState w' g'). rewrite (bind_Ok _ _ _ _ _ E). split_and!; try done.
    destruct (decide (err = GF_NOERR)) as [->|Herr]; [left|right].
    + split; [done|]. apply aset_view; [by apply H1|done].
    + split_and!; [done|by intros ->; apply Herr, Hn|].
      apply (same_view (mkState w g) (mkState w' g') k); [by apply H2|done].
  - destruct He as (Hv & Ht & Hsz).
    destruct (create_spec cfg Hcc Hfc 0 k v None None (-1) 0 tag w g Hw (Hk k) Hi Hsz
      Ht Hv) as (err & me & old & w' & g' & E & Hst & Hn & Hex & _ & H1 & H2).
    destruct (step_ok_whole k _ _ Hs Hst) as [Hs' Hne].
    exists err, (mkState w' g'). rewrite (bind_Ok _ _ _ _ _ E). split_and!; try done.
    destruct (decide (err = GF_NOERR)) as [->|Herr]; [left|right].
    + split_and!; [done|by apply H1|]. apply aset_view; [by apply H1|done].
    + assert (aeq (view (mkState w' g')) (view (mkState w g))) as Hsame
        by (apply (same_view _ _ k); [by apply H2|done]).
      destruct (view (mkState w g) k) as [v0|] eqn:Ev; [left|right].
      * split_and!; [|by eexists|done]. apply Hex.
        change (is_Some (view (mkState w g) k)). rewrite Ev. by eexists.
      * split_and!; try done. intros ->. by apply Herr, Hn.
  - destruct (invalidate_spec cfg Hcc Hfc 0 k None None tag w g Hw (Hk k) Hi He)
      as (err & me & old & added & w' & g' & E & Hst & _ & Ha & H1 & H2).
    destruct (step_ok_whole k _ _ Hs Hst) as [Hs' Hne].
    exists err, (mkState w' g'). rewrite (bind_Ok _ _ _ _ _ E). split_and!; try done.
    destruct added.
    + destruct (Ha eq_refl) as (El & -> & El'). right; left. split_and!; try done.
      by apply aset_view.
    + destruct (decide (err = GF_NOERR)) as [->|Herr].
      * destruct (H1 eq_refl) as (_ & El & _ & El'). left. split_and!; try done.
        by apply aset_view.
      * right; right. split; [done|]. apply (same_view _ _ k); [by apply H2|done].
  - destruct (remove_spec cfg Hcc Hfc 0 now k None None (-1) tag afterRemote true w g Hw
      (Hk k) Hi He) as (err & old & me & fnd & w' & g' & E & Hst & Hf & _ & Hn & H1 & H2).
    destruct (step_ok_whole k _ _ Hs Hst) as [Hs' Hne].
    exists err, (mkState w' g'). rewrite (bind_Ok _ _ _ _ _ E). split_and!; try done.
    destruct (decide (err = GF_NOERR)) as [->|Herr]; [left|right].
    + destruct (H1 eq_refl) as (El & _ & Hr). split_and!; try done.
      * destruct (view (mkState w g) k) eqn:Ev; [left; by eexists|right; by apply Hr].
      * by apply aset_view.
    + split_and!; [done| |apply (same_view _ _ k); [by apply H2|done]].
      destruct (view (mkState w g) k) as [v0|] eqn:Ev; [right|by left].
      intros ->. apply Herr, Hn; [done|left].
      change (is_Some (view (mkState w g) k)). rewrite Ev. by eexists.
  - destruct (reap_versions_ok gc _ Hs) as (s' & E & Hs' & Hv & _).
    exists GF_NOERR, s'. rewrite (bind_Ok _ _ _ _ _ E). done.
  - destruct He as (k & t & Et & <-).
    destruct (expiry_ok cfg k t now _ Hs Et) as (s' & E & Hs' & Hv & _).
    exists GF_NOERR, s'. rewrite (bind_Ok _ _ _ _ _ E). done.
Qed.

(** ** Runs *)

Inductive runs : State K O → list (segOp * GfErrType) → State K O → Prop :=
  | runs_nil s : runs s [] s
  | runs_cons s op err s1 l s' :
      enabled op s → exec op s = (Ok err, s1) → runs s1 l s' →
      runs s ((op, err) :: l) s'.

Inductive aruns : amap → list (segOp * GfErrType) → amap → Prop :=
  | aruns_nil a a' : aeq a' a → aruns a [] a'
  | aruns_cons a op err a1 l a' :
      absStep op err a a1 → aruns a1 l a' → aruns a ((op, err) :: l) a'.

(** The segment of a new region: [open] on an empty segment. *)
Definition initialState (env : VersionEnv) : State K O :=
  mkState (mkWorld (mkHeap ∅ 0) ∅ 0 ∅ ∅ 0 env 0 0 0) (mkSegment ∅ 0 0 ∅ ∅).

Definition opened (size : Z) (env : VersionEnv) : outcome unit * State K O :=
  open size (initialState env).

Lemma lower_bound_range table val i r :
  lower_bound table val i = Some r → i ≤ r.1 < i + Z.of_nat (length table).
Proof.
  revert i. induction table as [|p table IH]; intros i; simpl; [done|].
  destruct (p <? val); [intros E%IH|intros [= <-]]; simpl; lia.
Qed.

Lemma opened_ok size env s :
  opened size env = (Ok tt, s) → seg_ok s ∧ aeq (view s) (λ _, None).
Proof.
  unfold opened, open, bind, nextLargerPrime.
  destruct (lower_bound g_primeTable size 0) as [[i p]|] eqn:E; [|done].
  apply lower_bound_range in E. intros [= <-]. simpl in *. split; [|done].
  split; simpl.
  - split; unfold heapAt; simpl; intros ? Hx;
      by apply lookup_empty_is_Some in Hx.
  - unfold idx_ok. simpl. lia.
  - intros k. unfold key_ok. simpl. by rewrite !lookup_empty.
Qed.

Lemma absStep_aeq op err a b a' :
  aeq a b → absStep op err a a' → absStep op err b a'.
Proof.
  intros E. destruct op; simpl; try rewrite <- (E k); by rewrite <- E.
Qed.

Lemma aruns_aeq a b l a' : aeq a b → aruns a l a' → aruns b l a'.
Proof.
  intros E Hr. destruct Hr as [a a' E'|a op err a1 l a' Hs Hr].
  - constructor. by rewrite E'.
  - econstructor; [by eapply absStep_aeq|done].
Qed.

Lemma runs_simulate s l s' :
  runs s l s' → seg_ok s → seg_ok s' ∧ aruns (view s) l (view s').
Proof.
  induction 1 as [s|s op err s1 l s' He E Hr IH]; intros Hs.
  - split; [done|]. by constructor.
  - destruct (exec_simulates op s Hs He) as (err' & s1' & E' & Hs1 & Ha).
    rewrite E in E'. simplify_eq. destruct (IH Hs1) as [Hs' Har].
    split; [done|]. by econstructor.
Qed.
End Props.

Arguments segOp K : clear implicits.
Arguments amap K : clear implicits.

(** ** The claims *)

Section Claims.
Context {K O D : Type} `{EqDecision K, !Countable K}.
Context `{!CacheableKey K, !Application K O D, !TaskIds}.
Implicit Types (s : State K O).



(** C23: garbage collection: when the server announces, per member, the region
    versions it has collected, exactly the tombstones not newer than that are
    removed, and nothing the region sees changes. *)
Theorem reap_exact gc s :
  seg_ok s →
  ∃ s', reapTombstones_versions gc s = (Ok tt, s') ∧ seg_ok s' ∧
    (∀ k, view s' k = view s k) ∧
    ∀ k, (reapable gc s k → m_map (st_seg s') !! k = None) ∧
         (¬ reapable gc s k → m_map (st_seg s') !! k = m_map (st_seg s) !! k).
Proof.
  intros Hs. destruct (reap_versions_ok gc s Hs) as (s' & E & Hs' & Hv & Hm & _).
  by exists s'.
Qed.

(** C24: expiry: when the timer of a tombstone fires before its time nothing
    happens; when it fires in time the entry, the tombstone, the task and the
    handler are all gone, and nothing the region sees changes. *)
Theorem tombstone_expiry cfg k t now s :
  seg_ok s → m_tombstoneMap (st_seg s) !! k = Some t →
  let timeout := u32 (u32 (cf_tombstoneTimeoutInMSec cfg / 1000) * 1000) in
  ∃ s', handle_timeout cfg (tb_handler t) now s = (Ok tt, s') ∧ seg_ok s' ∧
    (∀ k', view s' k' = view s k') ∧
    (now < tb_creationTime t + timeout → s' = s) ∧
    (tb_creationTime t + timeout ≤ now →
     m_map (st_seg s') !! k = None ∧ m_tombstoneMap (st_seg s') !! k = None ∧
     w_tasks (st_world s') !! tb_expiryTaskId t = None ∧
     w_handlers (st_world s') !! tb_handler t = None).
Proof.
  intros Hs Et timeout.
  destruct (expiry_ok cfg k t now s Hs Et) as (s' & E & Hs' & Hv & H1 & H2 & _).
  by exists s'.
Qed.

(** C28: the readers show the region's map: [getEntry] returns the entry bound
    to the key with its value, [containsKey] whether there is one; tombstones
    are invisible to both. *)
Theorem readers_agree k s :
  seg_ok s →
  (∃ r, getEntry k s = (Ok r, s) ∧ snd <$> r = view s k ∧
     ∀ l v, r = Some (l, v) → m_map (st_seg s) !! k = Some l) ∧
  containsKey k s = (Ok (bool_decide (is_Some (view s k))), s).
Proof.
  intros [_ _ Hk]. destruct s as [w g].
  split; [by apply getEntry_spec|by apply containsKey_spec].
Qed.

End Claims.

(** ** Runs of a concrete segment *)

(** Tags are membersComparable when the members they number are. *)
Definition membersComparable (l : MemberList) : Prop :=
  ∀ i j a b, getDSMember i l = Some a → getDSMember j l = Some b →
  ∃ c, compareTo (i =? j) a b = Ok c.

Lemma checkForDeltaConflict_returns st sv tv t (e : VersionEnv) :
  membersComparable (ve_memberList e) →
  ∃ err e', checkForDeltaConflict st sv tv t e = (Ok err, e') ∧
    ve_memberList e' = ve_memberList e.
Proof.
  intros Hc. unfold checkForDeltaConflict, bind, get.
  destruct (negb _); [by do 2 eexists|].
  destruct (getDSMember (vs_memberID st) _) as [a|] eqn:Ea; [|by do 2 eexists].
  destruct (getDSMember (vt_previousMemId t) _) as [b|] eqn:Eb; [|by do 2 eexists].
  unfold compareMembers. destruct (Hc _ _ _ _ Eb Ea) as [c ->].
  destruct (negb _); by do 2 eexists.
Qed.

Lemma processVersionTag_returns st t d (e : VersionEnv) :
  membersComparable (ve_memberList e) →
  ∃ err e', processVersionTag st (Some t) d e = (Ok err, e').
Proof.
  intros Hc. unfold processVersionTag, checkForConflict.
  destruct (stampAbsent st); [by do 2 eexists|].
  destruct (tagAbsent t); [by do 2 eexists|].
  destruct (rolledVersions _ _) as [sv tv].
  assert (∃ err e', (if d then checkForDeltaConflict st sv tv t else ret GF_NOERR) e
    = (Ok err, e') ∧ ve_memberList e' = ve_memberList e) as (err & e' & E & El).
  { destruct d; [by apply checkForDeltaConflict_returns|by do 2 eexists]. }
  rewrite (bind_Ok _ _ _ _ _ E). destruct (negb _); [by do 2 eexists|].
  destruct (_ || _); [by do 2 eexists|]. destruct (tv <? sv); [by do 2 eexists|].
  unfold bind, get. rewrite El.
  destruct (getDSMember (vs_memberID st) _) as [a|] eqn:Ea; [|by do 2 eexists].
  destruct (getDSMember (vt_internalMemId t) _) as [b|] eqn:Eb; [|by do 2 eexists].
  unfold compareMembers. destruct (Hc _ _ _ _ Ea Eb) as [c ->].
  destruct (c <? 0); [by do 2 eexists|]. destruct (0 <? c); by do 2 eexists.
Qed.

Lemma tagOk_comparable {K O} (w : World K O) tag :
  membersComparable (ve_memberList (w_env w)) → tagOk w tag.
Proof. intros Hc t st d ->. by apply processVersionTag_returns. Qed.

Lemma sampleMembers_comparable : membersComparable sampleMembers.
Proof.
  intros i j a b Ea Eb.
  assert (∀ n m, getDSMember n sampleMembers = Some m →
    (n = 1 ∧ m = ClientMember (sampleMember 1)) ∨
    (n = 2 ∧ m = ClientMember (sampleMember 2))) as Hm.
  { intros n m. unfold getDSMember.
    change (m_members1 sampleMembers) with
      (<[2 := ClientMember (sampleMember 2)]>
        (<[1 := ClientMember (sampleMember 1)]> ∅ : gmap Z DSMember)).
    rewrite !lookup_insert_Some, lookup_empty. naive_solver. }
  destruct (Hm _ _ Ea) as [[-> ->]|[-> ->]], (Hm _ _ Eb) as [[-> ->]|[-> ->]];
    vm_compute; by eexists.
Qed.

Module Sample.
#[export] Instance sampleKeys : CacheableKey Z := {| hashcode k := k; objectSize _ := 8 |}.

#[export] Instance sampleApp : Application Z Z Z :=
  {| isDelta _ := true; fromDelta d o := (true, o + d); readDisk _ := None |}.

Definition nextId (s : gset Z) : Z := 1 + foldr Z.max 0 (elements s).

Lemma nextId_above s x : x ∈ s → x < nextId s.
Proof.
  rewrite <- elem_of_elements. unfold nextId.
  induction (elements s) as [|y l IH]; [by intros ?%not_elem_of_nil|].
  intros [->|Hx]%elem_of_cons; simpl; [lia|]. specialize (IH Hx). lia.
Qed.

Lemma nextId_fresh s : nextId s ∉ s.
Proof. intros ?%nextId_above. lia. Qed.

Lemma nextId_pos s : 0 ≤ nextId s.
Proof. unfold nextId. induction (elements s); simpl; lia. Qed.

#[export] Instance sampleTasks : TaskIds :=
  {| newTaskId := nextId; newTaskId_fresh := nextId_fresh; newTaskId_pos := nextId_pos |}.

Definition cfg : SegConfig := mkConfig true true false 1000.

Definition start : State Z Z := (opened 10 sampleEnv).2.

(** A put, a destroy and an older destroy on key 7, a put on key 8. *)
Definition history : list (segOp Z * GfErrType) :=
  [(OpPut 7 (VObject 0) (Some (sampleTag 5 1)), GF_NOERR);
   (OpRemove 7 100 (Some (sampleTag 6 2)) false, GF_NOERR);
   (OpRemove 7 100 (Some (sampleTag 4 2)) false,
    GF_CACHE_CONCURRENT_MODIFICATION_EXCEPTION);
   (OpPut 8 (VObject 1) None, GF_NOERR)].

Definition finish : State Z Z :=
  foldl (λ s o, (exec (D:=Z) cfg o.1 s).2) start history.
End Sample.
Import Sample.

Lemma sample_opened : opened (K:=Z) (O:=Z) 10 sampleEnv = (Ok tt, start).
Proof. reflexivity. Qed.

Lemma runs_cons' {K O D} `{Countable K, !CacheableKey K, !Application K O D, !TaskIds}
    c (s : State K O) op err l s' :
  enabled op s → (exec (D:=D) c op s).1 = Ok err →
  runs (D:=D) c (exec (D:=D) c op s).2 l s' → runs (D:=D) c s ((op, err) :: l) s'.
Proof. intros He E. apply runs_cons; [done|]. rewrite <- E. apply surjective_pairing. Qed.

Lemma sample_enabled op (s : State Z Z) :
  ve_memberList (w_env (st_world s)) = sampleMembers →
  Z.of_nat (size (m_map (st_seg s))) < 2 ^ 32 →
  match op with
  | OpPut _ v _ | OpCreate _ v _ => storable v
  | OpExpire _ _ => False
  | _ => True
  end →
  enabled op s.
Proof.
  intros El Hs Hop.
  assert (∀ tag, tagOk (st_world s) tag) as Ht.
  { intros tag. apply tagOk_comparable. rewrite El. apply sampleMembers_comparable. }
  by destruct op; simpl in *.
Qed.

Lemma sample_runs : runs (D:=Z) cfg start history finish.
Proof.
  unfold history, finish. cbn [foldl fst].
  do 4 (apply runs_cons';
    [apply sample_enabled; [vm_compute; reflexivity..|by cbn]|vm_compute; reflexivity|]).
  constructor.
Qed.

Lemma sample_checked : checked cfg.
Proof. by split. Qed.

Lemma sample_ok : seg_ok finish.
Proof.
  destruct (opened_ok 10 sampleEnv start sample_opened) as [Hs _].
  by destruct (runs_simulate cfg sample_checked _ _ _ sample_runs Hs).
Qed.



(** The region version 7 of member 2 has been collected. *)
Lemma reap_exact_witness :
  ∃ s', reapTombstones_versions {[2 := 7]} finish = (Ok tt, s') ∧
    m_map (st_seg s') !! 7 = None.
Proof.
  destruct (reap_exact {[2 := 7]} finish sample_ok) as (s' & E & _ & _ & Hr).
  exists s'. split; [exact E|]. apply (Hr 7). unfold reapable.
  do 5 eexists. split_and!; [vm_compute; reflexivity..|].
  vm_compute. discriminate.
Defined.

Lemma tombstone_expiry_witness :
  ∃ t s', m_tombstoneMap (st_seg finish) !! 7 = Some t ∧
    handle_timeout cfg (tb_handler t) 1100 finish = (Ok tt, s') ∧
    m_map (st_seg s') !! 7 = None.
Proof.
  destruct (m_tombstoneMap (st_seg finish) !! 7) as [t|] eqn:Et;
    [|vm_compute in Et; discriminate].
  destruct (tombstone_expiry cfg 7 t 1100 finish sample_ok Et)
    as (s' & E & _ & _ & _ & Hx).
  exists t, s'. split_and!; [done|done|]. apply Hx.
  vm_compute in Et. injection Et as <-. vm_compute. discriminate.
Defined.

Lemma readers_agree_witness :
  containsKey 7 finish = (Ok false, finish) ∧ containsKey 8 finish = (Ok true, finish).
Proof.
  destruct (readers_agree 7 finish sample_ok) as [_ ->].
  destruct (readers_agree 8 finish sample_ok) as [_ ->].
  split; vm_compute; reflexivity.
Defined.

