(* ===== verification/SegmentFindings.v ===== *)
(** * Corner cases of a segment

    What the operations do where callers may expect something else: keys named
    by the server that are no longer tombstones, clearing, re-creation over a
    tombstone, and regions without concurrency checks. *)

From S2P Require Import Prelude Membership Version VersionProps MapEntry MapSegment.
From S2P Require Import SegmentInvariant SegmentOps SegmentProps.

Section Findings.
Context {K O D : Type} `{EqDecision K, !Countable K}.
Context `{!CacheableKey K, !Application K O D, !TaskIds}.
Implicit Types (s : State K O).

Variable cfg : SegConfig.

(** C29: reaping by key removes every named key from the map, whether its entry
    is a tombstone or has been put again since: a live value disappears with no
    event; other keys keep their values, and the segment stays consistent. *)
Theorem reap_keys_exact ks s :
  seg_ok s →
  ∃ s', reapTombstones_keys ks s = (Ok tt, s') ∧ seg_ok s' ∧
    ∀ k, view s' k = if decide (k ∈ ks) then None else view s k.
Proof.
  intros Hs. destruct (removeAll_ok ks s Hs) as (s' & E & Hs' & Hv & _).
  by exists s'.
Qed.

(** The run of [create] on a tombstone, without a tag. *)
Lemma run_create_tombstone n k v me old uc dt w g l e t :
  checked cfg → idx_ok g → Z.of_nat (size (m_map g)) < 2 ^ 32 →
  m_map g !! k = Some l → m_tombstoneMap g !! k = Some t →
  entry_ok w k l e → tomb_ok w g k l e →
  ∃ st g1, m_map g1 = m_map g ∧ m_tombstoneMap g1 = m_tombstoneMap g ∧ idx_ok g1 ∧
    create (D:=D) cfg n k (Some v) me old uc dt None (mkState w g) =
    (Ok (GF_NOERR, Some l, None),
     mkState
       (dropTimer t 0 0 (newEntry (newImpl k (Some v) st)
          (setTimers (w_tasks w) (w_handlers w) (w_nextHandler w) (-1)
             (- tombstonesize k) w)))
       (set_map (<[k := h_next (w_heap w)]> (m_map (removedG k g1))) (removedG k g1))).
Proof.
  intros [Hcc Hfc] Hi Hsz Hm Et He Hto.
  destruct (run_rehash w g Hi Hsz) as (g1 & Er & E1 & E2 & _ & Hi1).
  rewrite <- E1 in Hm. rewrite <- E2 in Et.
  pose proof He as [Hl _ Hth [st Hst] [Hsome Hd]].
  assert (tomb_ok w g1 k l e) as Hto1 by (unfold tomb_ok in *; by rewrite E2).
  pose proof (tomb_ok_value _ _ _ _ _ Hto1) as Htv. rewrite Et in Htv.
  exists (stampFor None (Some st)), g1. split_and!; try done.
  unfold create. rewrite (bind_Ok _ _ _ _ _ Er).
  rewrite (bind_Ok _ _ _ _ _ (run_find k w g1)), Hm.
  rewrite (bind_Ok _ _ _ _ _ (run_getImplPtr w g1 l e Hl Hth)).
  rewrite (bind_Ok _ _ _ _ _ (run_getValueI w g1 l e Hl Hd)), Htv.
  change (bool_decide (is_Some (Some t))) with true. rewrite orb_true_r.
  unfold checkVersion. rewrite Hcc.
  rewrite bind_assoc, (bind_Ok _ _ _ _ _ (run_getVersionStamp w g1 l e Hl st Hst)).
  rewrite bind_ret. cbn [fst snd]. apply isTombstone_true in Htv as ->.
  rewrite (bool_decide_eq_true_2 (GF_NOERR = GF_NOERR)) by done. cbn [negb].
  rewrite bool_decide_eq_false_2 by done.
  rewrite bind_assoc, (bind_Ok _ _ _ _ _ (run_removeWithoutCancel k _ g1 l t Hm Et)).
  rewrite bind_assoc, (bind_Ok _ _ _ _ _ (run_putNoEntry cfg Hcc Hfc n k (Some v) me
    uc dt None (Some st) _ (removedG k g1) (lookup_delete_eq _ _))), bind_ret.
  cbn [fst snd].
  by rewrite (bind_Ok _ _ _ _ _ (run_cancel_listed k _ _ g1 l e t _ Et Hto1)).
Qed.

(** [create] over a tombstone stores the value in a new entry, but the
    entry it hands back is the removed one, which still holds the tombstone. *)
Theorem create_returns_tombstone n k v me old uc dt l s :
  checked cfg → seg_ok s → storable v →
  Z.of_nat (size (m_map (st_seg s))) < 2 ^ 32 →
  m_map (st_seg s) !! k = Some l → is_Some (m_tombstoneMap (st_seg s) !! k) →
  ∃ s' e l',
    create (D:=D) cfg n k (Some v) me old uc dt None s =
      (Ok (GF_NOERR, Some l, None), s') ∧
    heapAt (st_world s') l = Some (Impl e) ∧ me_value e = Some (VToken TOMBSTONE) ∧
    getEntry k s' = (Ok (Some (l', v)), s') ∧ l' ≠ l.
Proof.
  intros Hc Hs Hv Hsz Hm [t Et]. destruct s as [w g].
  pose proof Hs as [Hw Hi Hk]. specialize (Hk k). simpl in *. unfold key_ok in Hk.
  rewrite Hm in Hk. destruct Hk as (e & He & Hto).
  destruct (run_create_tombstone n k v me old uc dt w g l e t Hc Hi Hsz Hm Et He Hto)
    as (st & g1 & E1 & E2 & Hi1 & E).
  assert (tomb_ok w g1 k l e) as Hto1 by (unfold tomb_ok in *; by rewrite E2).
  rewrite <- E1 in Hm. rewrite <- E2 in Et.
  destruct (replace_ok w g1 k l e t v st Hw Hi1 Hm He Et Hto1 Hv) as [Hstep El].
  destruct (getEntry_spec k _ _ (so_key _ _ _ Hstep)) as (r & Eg & Ev & Hb).
  cbn [st_world st_seg] in *. rewrite El in Ev.
  destruct r as [[l' v']|]; [|done]. injection Ev as ->.
  eexists _, e, l'. split; [exact E|].
  pose proof He as [Hl _ _ _ _]. pose proof (wo_heap _ Hw l ltac:(by eexists)) as Hlt.
  split_and!; [|by apply isTombstone_true; rewrite (tomb_ok_value _ _ _ _ _ Hto1), Et
    |exact Eg|].
  - simpl. unfold heapAt in *. simpl. by rewrite lookup_insert_ne by lia.
  - specialize (Hb _ _ eq_refl). simpl in Hb. rewrite lookup_insert_eq in Hb.
    injection Hb as <-. lia.
Qed.

(** Clearing the map leaves the tombstone list and its timers: a key that
    is put again after the clear loses its value when the old timer fires. *)
Theorem clear_keeps_timers n k v me old uc dt upd t now s :
  checked cfg → seg_ok s → storable v →
  m_tombstoneMap (st_seg s) !! k = Some t →
  tb_creationTime t + u32 (u32 (cf_tombstoneTimeoutInMSec cfg / 1000) * 1000) ≤ now →
  ∃ s1 me' old' upd' s2 s3,
    clear s = (Ok tt, s1) ∧
    put (D:=D) cfg n k (Some v) me old uc dt upd None None s1 =
      (Ok (GF_NOERR, me', old', upd', Some v), s2) ∧
    containsKey k s2 = (Ok true, s2) ∧
    handle_timeout cfg (tb_handler t) now s2 = (Ok tt, s3) ∧
    containsKey k s3 = (Ok false, s3).
Proof.
  intros [Hcc Hfc] Hs Hv Et Hnow. destruct s as [w g].
  destruct (tombstone_entry _ _ _ Hs Et) as (l & e & _ & Ete & He & Hto & _).
  pose proof Hs as [Hw Hi _]. simpl in *. unfold tomb_ok in Hto. rewrite Et in Hto.
  destruct Hto as (_ & _ & Hh & _).
  pose proof He as [Hl Hkey _ _ _]. pose proof (wo_heap _ Hw l ltac:(by eexists)) as Hlt.
  destruct (run_rehash w (set_map ∅ g)) as (g1 & Er & E1 & E2 & _ & Hi1); [done..|].
  simpl in E1, E2.
  assert (m_map g1 !! k = None) as Hm1 by (by rewrite E1).
  eexists _, _, _, _, _, _. split; [reflexivity|]. split.
  { unfold put. rewrite (bind_Ok _ _ _ _ _ Er).
    rewrite (bind_Ok _ _ _ _ _ (run_find k w g1)), Hm1.
    by rewrite (bind_Ok _ _ _ _ _ (run_putNoEntry cfg Hcc Hfc n k (Some v) me uc dt None
      None w g1 Hm1)). }
  pose proof (heapAt_newEntry_new (newImpl k (Some v) (stampFor None None)) w) as Hnew.
  set (w2 := newEntry _ w) in *. set (g2 := set_map _ g1).
  assert (m_map g2 !! k = Some (h_next (w_heap w))) as Hm2 by apply lookup_insert_eq.
  assert (heapAt w2 l = Some (Impl e)) as Hl2
    by (unfold w2; by rewrite heapAt_newEntry_old by (done || by eexists)).
  split_and!.
  - unfold containsKey. rewrite (bind_Ok _ _ _ _ _ (run_find k w2 g2)), Hm2.
    rewrite (bind_Ok _ _ _ _ _ (run_getImplPtr w2 g2 _ _ Hnew eq_refl)).
    destruct Hv as [Hvt Hvd].
    rewrite (bind_Ok _ _ _ _ _ (run_getValueI w2 g2 _ _ Hnew ltac:(simpl; congruence))).
    unfold isTombstone. simpl. by rewrite bool_decide_eq_false_2 by congruence.
  - unfold handle_timeout. rewrite bind_get. cbn [st_world].
    change (w_handlers w2) with (w_handlers w). rewrite Hh, Ete.
    rewrite (bind_Ok _ _ _ _ _ (run_getKeyI w2 g2 l e Hl2)), Hkey.
    rewrite (proj2 (Z.leb_le 0 _)) by lia.
    unfold removeActualEntry, unguardedRemoveActualEntry, eraseEntryFromTombstoneList.
    rewrite !bind_assoc, bind_get. cbn [st_seg].
    change (m_tombstoneMap g2) with (m_tombstoneMap g1). rewrite E2, Et.
    unfold unbind, cancelTask, deleteHandler, addTombstoneStats, set_tombstones, onSeg.
    unfold bind, ret, get, modify. simpl. rewrite Hh. unfold set_timers, modify. simpl.
    reflexivity.
  - unfold containsKey, bind, find, get, ret. simpl. by rewrite lookup_delete_eq.
Qed.

(** C33: without concurrency checks [remove] unbinds the key before it compares
    the update count: it reports that the entry was updated meanwhile, returns
    neither the entry nor its value, and the key is gone all the same. *)
Theorem remove_unbinds_on_conflict n now k old me uc tag afterRemote found l e s :
  cf_concurrencyChecksEnabled cfg = false →
  m_map (st_seg s) !! k = Some l → heapAt (st_world s) l = Some (Impl e) →
  0 ≤ uc → uc ≠ me_updates e →
  ∃ s', remove (D:=D) cfg n now k old me uc tag afterRemote found s =
      (Ok (GF_CACHE_ENTRY_UPDATED, old, me, found), s') ∧
    m_map (st_seg s') !! k = None.
Proof.
  intros Hc Hm Hl Hu Hne. destruct s as [w g]. simpl in *.
  unfold remove. rewrite Hc. unfold unbind, bind, get, onSeg, modify, ret. simpl.
  rewrite Hm. unfold onHeap, zoom, getUpdateCount, bind, load, ret. simpl.
  unfold heapAt in Hl. rewrite Hl. simpl.
  rewrite (proj2 (Z.leb_le 0 uc)), (proj2 (Z.eqb_neq uc (me_updates e))) by done.
  eexists. split; [reflexivity|]. simpl. apply lookup_delete_eq.
Qed.

(** One step up the ladder of [MapEntryT] classes. *)
Lemma run_addTracker w (g : Segment K) l e :
  heapAt w l = Some (Impl e) → me_trackers e < GF_TRACK_MAX →
  onHeap (addTracker l) (mkState w g) =
  (Ok (None, me_updates e),
   mkState (updEntry (O:=O) l (placementNew e (me_trackers e + 1) (me_updates e)) w) g).
Proof.
  intros Hl Ht. unfold onHeap, zoom, addTracker. cbn [st_world].
  rewrite (bind_Ok _ _ _ _ _ (run_load w l e Hl)).
  by rewrite (proj2 (Z.eqb_neq _ GF_TRACK_MAX)) by lia.
Qed.

Lemma run_incrementUpdateCount w (g : Segment K) l e :
  heapAt w l = Some (Impl e) → 0 < me_trackers e → me_updates e < GF_UPDATE_MAX →
  onHeap (incrementUpdateCount l) (mkState w g) =
  (Ok (None, me_updates e + 1),
   mkState (updEntry (O:=O) l (placementNew e (me_trackers e) (me_updates e + 1)) w) g).
Proof.
  intros Hl Ht Hu. unfold onHeap, zoom, incrementUpdateCount. cbn [st_world].
  rewrite (bind_Ok _ _ _ _ _ (run_load w l e Hl)).
  rewrite (proj2 (Z.eqb_neq _ GF_UPDATE_MAX)) by lia.
  by rewrite (proj2 (Z.eqb_neq _ 0)) by lia.
Qed.

Lemma run_getEntry_reset w g k l (e : MapEntryImpl K) n u :
  m_map g !! k = Some l →
  getEntry k (mkState (updEntry (O:=O) l (placementNew e n u) w) g) =
  (Throw BadWeakPtr, mkState (updEntry l (placementNew e n u) w) g).
Proof.
  intros Hm. unfold getEntry. rewrite (bind_Ok _ _ _ _ _ (run_find k _ g)), Hm.
  unfold bind, onHeap, zoom, getImplPtr, load, bind. simpl.
  by rewrite lookup_insert_eq.
Qed.

(** C34: without concurrency checks, tracking an entry constructs the next
    class of the ladder over the object, which resets its value, its key and
    the reference [shared_from_this] needs: reading the entry throws. *)
Theorem tracking_resets_entry k old incUpdate l e s :
  cf_concurrencyChecksEnabled cfg = false →
  m_map (st_seg s) !! k = Some l → heapAt (st_world s) l = Some (Impl e) →
  0 ≤ me_trackers e < GF_TRACK_MAX → 0 ≤ me_updates e < GF_UPDATE_MAX →
  ∃ count old' s' e',
    addTrackerForEntry cfg k old false false incUpdate s = (Ok (count, old'), s') ∧
    count = me_updates e + (if incUpdate then 1 else 0) ∧
    heapAt (st_world s') l = Some (Impl e') ∧
    me_trackers e' = me_trackers e + 1 ∧ me_updates e' = count ∧
    me_value e' = None ∧ me_key e' = None ∧
    getEntry k s' = (Throw BadWeakPtr, s').
Proof.
  intros Hc Hm Hl Ht Hu. destruct s as [w g]. simpl in *.
  unfold addTrackerForEntry. rewrite Hc.
  rewrite (bind_Ok _ _ _ _ _ (run_find k w g)), Hm.
  assert (onHeap (getValue l) (mkState w g) =
    (Ok (if isDestroyed (me_value e) then None else me_value e), mkState w g)) as Eg.
  { apply (run_read w g l e Hl). unfold getValue. rewrite (bind_Ok _ _ _ _ _ (run_load w l e Hl)).
    unfold getValueI. by rewrite (bind_Ok _ _ _ _ _ (run_loadImpl w l e Hl)). }
  rewrite (bind_Ok _ _ _ _ _ Eg), bind_assoc.
  rewrite (bind_Ok _ _ _ _ _ (run_addTracker w g l e Hl ltac:(lia))).
  destruct incUpdate.
  - set (e1 := placementNew e _ _). set (w1 := updEntry l e1 w).
    assert (heapAt w1 l = Some (Impl e1)) as Hl1
      by (unfold w1; rewrite heapAt_updEntry; by rewrite decide_True).
    rewrite bind_assoc, (bind_Ok _ _ _ _ _ (run_incrementUpdateCount w1 g l e1 Hl1
      ltac:(simpl; lia) ltac:(simpl; lia))).
    eexists _, _, _, _. split; [reflexivity|]. simpl. rewrite heapAt_updEntry.
    rewrite decide_True by done. split_and!; try done. by apply run_getEntry_reset.
  - eexists _, _, _, _. split; [reflexivity|]. simpl. rewrite heapAt_updEntry.
    rewrite decide_True by done. split_and!; try done; [simpl; lia..|].
    by apply run_getEntry_reset.
Qed.
End Findings.

(** ** Witnesses *)

Import Sample.

Lemma reap_keys_exact_witness :
  view finish 8 = Some (VObject 1) ∧
  ∃ s', reapTombstones_keys [8] finish = (Ok tt, s') ∧ view s' 8 = None.
Proof.
  split; [vm_compute; reflexivity|].
  destruct (reap_keys_exact [8] finish sample_ok) as (s' & E & _ & Hv).
  exists s'. split; [exact E|]. rewrite Hv. reflexivity.
Defined.

Lemma create_returns_tombstone_witness :
  ∃ l s' e l',
    create (D:=Z) cfg 0 7 (Some (VObject 3)) None None (-1) 0 None finish =
      (Ok (GF_NOERR, Some l, None), s') ∧
    heapAt (st_world s') l = Some (Impl e) ∧ me_value e = Some (VToken TOMBSTONE) ∧
    getEntry 7 s' = (Ok (Some (l', VObject 3)), s') ∧ l' ≠ l.
Proof.
  eexists. apply (create_returns_tombstone (D:=Z) cfg 0 7 (VObject 3) None None (-1) 0);
    [apply sample_checked|apply sample_ok|by split|vm_compute; reflexivity
    |vm_compute; reflexivity|vm_compute; by eexists].
Defined.

Lemma clear_keeps_timers_witness :
  ∃ t s1 me' old' upd' s2 s3,
    m_tombstoneMap (st_seg finish) !! 7 = Some t ∧
    clear finish = (Ok tt, s1) ∧
    put (D:=Z) cfg 0 7 (Some (VObject 3)) None None (-1) 0 false None None s1 =
      (Ok (GF_NOERR, me', old', upd', Some (VObject 3)), s2) ∧
    containsKey 7 s2 = (Ok true, s2) ∧
    handle_timeout cfg (tb_handler t) 1100 s2 = (Ok tt, s3) ∧
    containsKey 7 s3 = (Ok false, s3).
Proof.
  destruct (m_tombstoneMap (st_seg finish) !! 7) as [t|] eqn:Et;
    [|vm_compute in Et; discriminate].
  destruct (clear_keeps_timers (D:=Z) cfg 0 7 (VObject 3) None None (-1) 0 false t 1100
    finish) as (s1 & me' & old' & upd' & s2 & s3 & E);
    [apply sample_checked|apply sample_ok|by split|exact Et| |].
  - vm_compute in Et. injection Et as <-. vm_compute. discriminate.
  - exists t, s1, me', old', upd', s2, s3. split; [done|exact E].
Defined.

(** A region without concurrency checks, with one entry. *)
Definition cfgOff : SegConfig := mkConfig false false false 1000.
Definition one : State Z Z :=
  (put (D:=Z) cfgOff 0 7 (Some (VObject 0)) None None (-1) 0 false None None start).2.

Lemma remove_unbinds_on_conflict_witness :
  ∃ s', remove (D:=Z) cfgOff 0 0 7 None None 3 None false true one =
      (Ok (GF_CACHE_ENTRY_UPDATED, None, None, true), s') ∧
    m_map (st_seg s') !! 7 = None.
Proof.
  eapply (remove_unbinds_on_conflict (D:=Z) cfgOff 0 0 7 None None 3 None false true);
    [reflexivity|vm_compute; reflexivity|vm_compute; reflexivity|lia|].
  vm_compute. discriminate.
Defined.

Lemma tracking_resets_entry_witness :
  ∃ count old' s' e',
    addTrackerForEntry cfgOff 7 None false false true one = (Ok (count, old'), s') ∧
    count = 0 + 1 ∧ heapAt (st_world s') 0 = Some (Impl e') ∧
    me_trackers e' = 0 + 1 ∧ me_updates e' = count ∧
    me_value e' = None ∧ me_key e' = None ∧
    getEntry 7 s' = (Throw BadWeakPtr, s').
Proof.
  apply (tracking_resets_entry cfgOff 7 None true 0
    (mkImpl (Some (VObject 0)) (Some 7) None 0 0 true) one);
    [reflexivity|vm_compute; reflexivity|vm_compute; reflexivity|..];
    vm_compute; by split.
Defined.
