(* ===== verification/ConcurrentEntriesMap.v ===== *)
(** * The entries map of a region

    Models ConcurrentEntriesMap.cpp/.hpp: a prime number of segments, each with
    its own lock, a key's segment chosen by its hash code, and an atomic count
    of the entries.  The segments share the heap, the timers, the version
    environment and the statistics ([World]).  An operation locks one segment,
    so it is one step on that segment followed by the update of the count. *)

From S2P Require Import Prelude Membership Version MapEntry MapSegment.

Section ConcurrentEntriesMap.
Context {K O D : Type} `{EqDecision K, !Countable K}.
Context `{!CacheableKey K, !Application K O D, !TaskIds}.

Record EntriesMap := mkEntriesMap {
  em_world : World K O;
  m_concurrency : Z;
  m_segments : list (Segment K);
  m_size : Z;
  m_numDestroyTrackers : Z
}.

Definition set_size (n : Z) (c : EntriesMap) : EntriesMap :=
  mkEntriesMap (em_world c) (m_concurrency c) (m_segments c) (u32 n)
    (m_numDestroyTrackers c).

Definition set_trackers (n : Z) (c : EntriesMap) : EntriesMap :=
  mkEntriesMap (em_world c) (m_concurrency c) (m_segments c) (m_size c) (i32 n).

(** [++m_size] and [--m_size] *)
Definition addSize (n : Z) : M EntriesMap unit :=
  modify (λ c, set_size (m_size c + n) c).

(** The constructor's choice of the number of segments. *)
Definition concurrencyFor {S} (concurrency : Z) : M S Z :=
  let maxConcurrency := u8 getMaxPrimeForConcurrency in
  if maxConcurrency <? concurrency then ret maxConcurrency
  else let! p := nextLargerPrimeForConcurrency concurrency in ret (u8 p).

(** [ConcurrentEntriesMap(entryFactory, checks, region, concurrency)] *)
Definition newEntriesMap (concurrency : Z) (w : World K O) : outcome EntriesMap :=
  match concurrencyFor concurrency tt with
  | (Ok p, _) => Ok (mkEntriesMap w p [] 0 0)
  | (Throw e, _) => Throw e
  | (UB, _) => UB
  end.

Definition segmentIdx (concurrency : Z) (key : K) : Z :=
  u32 (hashcode key) mod concurrency.

(** Run an operation of the segment with the given index. *)
Definition onIndex {A} (i : nat) (m : M (State K O) A) : M EntriesMap A := λ c,
  match m_segments c !! i with
  | None => (UB, c)
  | Some g =>
      let (r, s) := m (mkState (em_world c) g) in
      (r, mkEntriesMap (st_world s) (m_concurrency c)
            (<[i := st_seg s]> (m_segments c)) (m_size c) (m_numDestroyTrackers c))
  end.

Definition onSegmentFor {A} (key : K) (m : M (State K O) A) : M EntriesMap A :=
  let! c := get in
  onIndex (Z.to_nat (segmentIdx (m_concurrency c) key)) m.

(** [for (index = i; index < i + n; ++index) m_segments[index].m()] *)
Fixpoint forSegments {A} (i n : nat) (m : M (State K O) A) : M EntriesMap (list A) :=
  match n with
  | 0%nat => ret []
  | S n' =>
      let! a := onIndex i m in
      let! rest := forSegments (S i) n' m in
      ret (a :: rest)
  end.

Definition forAllSegments {A} (m : M (State K O) A) : M EntriesMap (list A) :=
  let! c := get in forSegments 0 (Z.to_nat (m_concurrency c)) m.

Definition newSegment : Segment K := mkSegment ∅ 0 0 ∅ ∅.

Definition em_open (initialCapacity : Z) : M EntriesMap unit :=
  let! c := get in
  let segSize := u32 (1 + u32 (initialCapacity - 1) / m_concurrency c) in
  modify (λ c, mkEntriesMap (em_world c) (m_concurrency c)
    (replicate (Z.to_nat (m_concurrency c)) newSegment) (m_size c)
    (m_numDestroyTrackers c)) ;!
  forAllSegments (MapSegment.open segSize) ;! ret tt.

Definition em_clear : M EntriesMap unit :=
  forAllSegments clear ;! modify (set_size 0).

Variable cfg : SegConfig.

(** [create]: the error, [me] and [oldValue]. *)
Definition em_create (key : K) (newValue : CacheablePtr) (me : option Z)
    (oldValue : CacheablePtr) (updateCount destroyTracker : Z)
    (versionTag : option VersionTag)
    : M EntriesMap (GfErrType * option Z * CacheablePtr) :=
  let! c := get in
  let! r := onSegmentFor key (create (D:=D) cfg (m_numDestroyTrackers c) key newValue
              me oldValue updateCount destroyTracker versionTag) in
  (if bool_decide (r.1.1 = GF_NOERR) && bool_decide (r.2 = None) then addSize 1
   else ret tt) ;!
  ret r.

(** [invalidate]: the error, [me] and [oldValue]. *)
Definition em_invalidate (key : K) (me : option Z) (oldValue : CacheablePtr)
    (versionTag : option VersionTag)
    : M EntriesMap (GfErrType * option Z * CacheablePtr) :=
  let! c := get in
  let! r := onSegmentFor key (invalidate cfg (m_numDestroyTrackers c) key me oldValue
              versionTag) in
  (if r.2 : bool then addSize 1 else ret tt) ;!
  ret r.1.

(** [put]: the error, [me], [oldValue], [isUpdate] and [newValue]. *)
Definition em_put (key : K) (newValue : CacheablePtr) (me : option Z)
    (oldValue : CacheablePtr) (updateCount destroyTracker : Z)
    (versionTag : option VersionTag) (isUpdate : bool) (delta : option D)
    : M EntriesMap (GfErrType * option Z * CacheablePtr * bool * CacheablePtr) :=
  let! c := get in
  let! r := onSegmentFor key (put cfg (m_numDestroyTrackers c) key newValue me
              oldValue updateCount destroyTracker isUpdate versionTag delta) in
  let '(err, _, _, isUpdate, _) := r in
  if negb (bool_decide (err = GF_NOERR)) then ret r
  else (if isUpdate then ret tt else addSize 1) ;! ret r.

(** [get] and [getEntry] *)
Definition em_getEntry (key : K) : M EntriesMap (option (Z * Value)) :=
  onSegmentFor key (getEntry key).

(** [remove]: the error, the old value and [me]. *)
Definition em_remove (currTime : Z) (key : K) (result : CacheablePtr)
    (me : option Z) (updateCount : Z) (versionTag : option VersionTag)
    (afterRemote : bool) : M EntriesMap (GfErrType * CacheablePtr * option Z) :=
  let! c := get in
  let! r := onSegmentFor key (remove (D:=D) cfg (m_numDestroyTrackers c) currTime key
              result me updateCount versionTag afterRemote true) in
  let '(err, result, me, isEntryFound) := r in
  (if bool_decide (err = GF_NOERR) && isEntryFound then addSize (-1) else ret tt) ;!
  ret (err, result, me).

Definition em_containsKey (key : K) : M EntriesMap bool :=
  onSegmentFor key (containsKey key).

Definition em_keys : M EntriesMap (list K) :=
  let! r := forAllSegments keys in ret (concat r).

Definition em_entries : M EntriesMap (list (option K * CacheablePtr)) :=
  let! r := forAllSegments entries in ret (concat r).

Definition em_values : M EntriesMap (list CacheablePtr) :=
  let! r := forAllSegments (values (D:=D)) in ret (concat r).

Definition em_size : M EntriesMap Z :=
  let! c := get in ret (m_size c).

(** The functions [addTrackerForEntry], [removeTrackerForEntry],
    [addTrackerForAllEntries] and [removeDestroyTracking] do nothing when
    concurrency checks are enabled. *)
Definition em_addTrackerForEntry (key : K) (oldValue : CacheablePtr)
    (addIfAbsent failIfPresent incUpdateCount : bool)
    : M EntriesMap (Z * CacheablePtr) :=
  if cf_concurrencyChecksEnabled cfg then ret (-1, oldValue)
  else onSegmentFor key (addTrackerForEntry cfg key oldValue addIfAbsent
         failIfPresent incUpdateCount).

Definition em_removeTrackerForEntry (key : K) : M EntriesMap unit :=
  if cf_concurrencyChecksEnabled cfg then ret tt
  else onSegmentFor key (removeTrackerForEntry cfg key).

Fixpoint trackSegments (i n : nat) (updateCounterMap : gmap K Z)
    : M EntriesMap (gmap K Z) :=
  match n with
  | 0%nat => ret updateCounterMap
  | S n' =>
      let! m := onIndex i (addTrackerForAllEntries cfg updateCounterMap) in
      trackSegments (S i) n' m
  end.

Definition em_addTrackerForAllEntries (updateCounterMap : gmap K Z)
    (addDestroyTracking : bool) : M EntriesMap (Z * gmap K Z) :=
  if cf_concurrencyChecksEnabled cfg then ret (-1, updateCounterMap)
  else
    let! c := get in
    let! m := trackSegments 0 (Z.to_nat (m_concurrency c)) updateCounterMap in
    if addDestroyTracking then
      modify (λ c, set_trackers (m_numDestroyTrackers c + 1) c) ;!
      let! c := get in
      ret (m_numDestroyTrackers c, m)
    else ret (0, m).

Definition em_removeDestroyTracking : M EntriesMap unit :=
  if cf_concurrencyChecksEnabled cfg then ret tt
  else
    modify (λ c, set_trackers (m_numDestroyTrackers c - 1) c) ;!
    let! c := get in
    if m_numDestroyTrackers c =? 0 then
      forAllSegments (removeDestroyTracking cfg) ;! ret tt
    else ret tt.

Definition totalSegmentRehashes : M EntriesMap Z :=
  let! c := get in
  let! r := forAllSegments (let! s := get in ret (m_rehashCount (st_seg s))) in
  ret (foldl (λ a b, u32 (a + b)) 0 r).

Definition em_reapTombstones_versions (gcVersions : gmap Z Z) : M EntriesMap unit :=
  forAllSegments (reapTombstones_versions gcVersions) ;! ret tt.

Definition em_reapTombstones_keys (removedKeys : list K) : M EntriesMap unit :=
  forAllSegments (reapTombstones_keys removedKeys) ;! ret tt.

Definition em_isTombstone (key : K) (me : option Z)
    : M EntriesMap (GfErrType * option Z * bool) :=
  onSegmentFor key (segIsTombstone key me).

(** The timer of a tombstone of segment [i] fires. *)
Definition em_handle_timeout (i : nat) (handler now : Z) : M EntriesMap unit :=
  onIndex i (handle_timeout cfg handler now).
End ConcurrentEntriesMap.

Arguments EntriesMap K O {_ _}.
