(* ===== verification/EntriesMapProps.v ===== *)
(** * Properties of the entries map

    The invariant of the map: every segment is consistent, a key is bound only
    in the segment its hash code selects, and the count agrees with the keys the
    region sees.  The operations of the segments are used through [step_ok] and
    [frame_at]: what they do to their key and what they leave of all others. *)

From S2P Require Import Prelude Membership Version VersionProps MapEntry MapSegment.
From S2P Require Import SegmentInvariant SegmentOps SegmentProps SegmentFindings.
From S2P Require Import ConcurrentEntriesMap.

Section Invariant.
Context {K O D : Type} `{EqDecision K, !Countable K}.
Context `{!CacheableKey K, !Application K O D, !TaskIds}.
Implicit Types (c : EntriesMap K O) (k : K).

Definition indexOf c k : nat := Z.to_nat (segmentIdx (m_concurrency c) k).

Definition cview c k : CacheablePtr :=
  match m_segments c !! indexOf c k with
  | Some g => live (em_world c) g k
  | None => None
  end.

Record map_ok c : Prop := {
  mo_count : m_concurrency c = Z.of_nat (length (m_segments c));
  mo_pos : 0 < m_concurrency c;
  mo_world : world_ok (em_world c);
  mo_segments : ∀ i g, m_segments c !! i = Some g → seg_ok (mkState (em_world c) g);
  mo_routed : ∀ i g k,
    m_segments c !! i = Some g → is_Some (m_map g !! k) → indexOf c k = i
}.

Lemma indexOf_segment c k : map_ok c → ∃ g, m_segments c !! indexOf c k = Some g.
Proof.
  intros [Hc Hp _ _ _]. apply lookup_lt_is_Some. unfold indexOf, segmentIdx.
  pose proof (Z.mod_pos_bound (u32 (hashcode k)) (m_concurrency c) Hp). lia.
Qed.

(** Everything but the world and the segments. *)
Definition sameMeta c c' : Prop :=
  m_concurrency c' = m_concurrency c ∧ m_size c' = m_size c ∧
  m_numDestroyTrackers c' = m_numDestroyTrackers c.

Lemma unbound_frame (w w' : World K O) g k :
  m_map g !! k = None → key_ok w g k → key_ok w' g k ∧ live w' g k = live w g k.
Proof. intros Hm. unfold key_ok, live. by rewrite Hm. Qed.

(** An operation of one segment that respects the keys of the others. *)
Lemma onIndex_ok {A} i (m : M (State K O) A) a s' c g :
  map_ok c → m_segments c !! i = Some g → m (mkState (em_world c) g) = (Ok a, s') →
  seg_ok s' → (∀ k, is_Some (m_map (st_seg s') !! k) → indexOf c k = i) →
  (∀ k, indexOf c k ≠ i → frame_at k (em_world c) (st_world s')) →
  ∃ c', onIndex i m c = (Ok a, c') ∧ map_ok c' ∧ sameMeta c c' ∧
    m_segments c' = <[i := st_seg s']> (m_segments c) ∧ em_world c' = st_world s' ∧
    ∀ k, cview c' k = if decide (indexOf c k = i) then view s' k else cview c k.
Proof.
  intros Hc Hg E Hs' Hr Hf. pose proof Hc as [Hlen Hp Hw Hsegs Hroute].
  assert (i < length (m_segments c))%nat as Hi by (by eapply lookup_lt_Some).
  assert (∀ j g' k, j ≠ i → m_segments c !! j = Some g' →
    key_ok (st_world s') g' k ∧ live (st_world s') g' k = live (em_world c) g' k)
    as Hother.
  { intros j g' k Hj Hg'. destruct (Hsegs j g' Hg') as [_ _ Hk]. specialize (Hk k).
    destruct (m_map g' !! k) as [l|] eqn:Em.
    - apply Hf; [|done]. rewrite (Hroute j g' k); [done|done|by rewrite Em].
    - by apply (unbound_frame (em_world c)). }
  eexists. split_and!; [unfold onIndex; rewrite Hg, E; reflexivity|..]; try done.
  - split; simpl; [by rewrite length_insert|done|by destruct Hs'|..].
    + intros j g' Hj. apply list_lookup_insert_Some in Hj as [(<- & <- & _)|[Hne Hj]];
        [by destruct s'|].
      destruct Hs' as [Hws _ _]. destruct (Hsegs j g' Hj) as [_ Hi' _]. split; [done..|].
      intros k. by apply (Hother j g' k).
    + intros j g' k Hj Hk. apply list_lookup_insert_Some in Hj as [(<- & <- & _)|[Hne Hj]];
        [by apply Hr|by apply (Hroute j g' k)].
  - intros k. unfold cview, indexOf. simpl. fold (indexOf c k).
    case_decide as Ek.
    + rewrite Ek, list_lookup_insert_eq by done. done.
    + rewrite list_lookup_insert_ne by done.
      destruct (m_segments c !! indexOf c k) as [g'|] eqn:Eg; [|done].
      by apply (Hother (indexOf c k)).
Qed.

(** An operation on one key. *)
Lemma onSegmentFor_ok {A} k (m : M (State K O) A) a g s' c :
  map_ok c → m_segments c !! indexOf c k = Some g →
  m (mkState (em_world c) g) = (Ok a, s') → step_ok k (mkState (em_world c) g) s' →
  ∃ c', onSegmentFor k m c = (Ok a, c') ∧ map_ok c' ∧ sameMeta c c' ∧
    em_world c' = st_world s' ∧ cview c' k = view s' k ∧
    ∀ k', k' ≠ k → cview c' k' = cview c k'.
Proof.
  intros Hc Hg E Hstep. pose proof (mo_segments c Hc _ _ Hg) as Hs.
  destruct (step_ok_whole k _ _ Hs Hstep) as [Hs' Hv].
  pose proof Hstep as [_ _ Hwf Hsf _].
  destruct (onIndex_ok (indexOf c k) m a s' c g Hc Hg E Hs')
    as (c' & E' & Hc' & Hm & _ & Hw' & Hcv).
  - intros k' Hk'. destruct (decide (k' = k)) as [->|Hne]; [done|].
    apply (mo_routed c Hc _ g); [done|]. destruct (Hsf k' Hne) as [E1 _].
    simpl in E1. by rewrite <- E1.
  - intros k' Hk'. apply (step_ok_frame k k' _ _ Hstep). congruence.
  - exists c'. split_and!; try done.
    + rewrite Hcv. by rewrite decide_True.
    + intros k' Hne. rewrite Hcv. case_decide as Ek; [|done].
      rewrite (Hv k' Hne). unfold cview. by rewrite Ek, Hg.
Qed.

(** An operation that only reads its segment. *)
Lemma onSegmentFor_read {A} k (m : M (State K O) A) a g c :
  m_segments c !! indexOf c k = Some g →
  m (mkState (em_world c) g) = (Ok a, mkState (em_world c) g) →
  onSegmentFor k m c = (Ok a, c).
Proof.
  intros Hg E. unfold onSegmentFor. rewrite bind_get. fold (indexOf c k).
  unfold onIndex. rewrite Hg, E. simpl. rewrite list_insert_id by done. by destruct c.
Qed.

(** ** The keys the region sees *)

Definition liveKeys (w : World K O) (g : Segment K) : gset K :=
  filter (λ k, is_Some (live w g k)) (dom (m_map g)).

Definition liveSet c : gset K := ⋃ (liveKeys (em_world c) <$> m_segments c).

Lemma live_bound (w : World K O) g k : is_Some (live w g k) → is_Some (m_map g !! k).
Proof. unfold live. destruct (m_map g !! k); [by eexists|by intros []]. Qed.

Lemma elem_of_liveKeys (w : World K O) g k :
  k ∈ liveKeys w g ↔ is_Some (live w g k).
Proof.
  unfold liveKeys. rewrite elem_of_filter, elem_of_dom.
  split; [by intros []|]. intros Hl. split; [done|by eapply live_bound].
Qed.

Lemma elem_of_liveSet c k : map_ok c → k ∈ liveSet c ↔ is_Some (cview c k).
Proof.
  intros Hc. unfold liveSet. rewrite elem_of_union_list. unfold cview. split.
  - intros (X & HX & Hk). apply list_elem_of_fmap in HX as (g & -> & Hg).
    apply elem_of_liveKeys in Hk. apply list_elem_of_lookup in Hg as [i Hg].
    rewrite (mo_routed c Hc i g k Hg) by (by eapply live_bound). by rewrite Hg.
  - destruct (m_segments c !! indexOf c k) as [g|] eqn:Eg; [|by intros []].
    intros Hl. exists (liveKeys (em_world c) g). split.
    + apply list_elem_of_fmap. exists g. split; [done|].
      by eapply list_elem_of_lookup_2.
    + by apply elem_of_liveKeys.
Qed.

(** The count of the map. *)
Definition counted c : Prop := m_size c = u32 (Z.of_nat (size (liveSet c))).

Lemma counted_empty c :
  map_ok c → (∀ k, cview c k = None) → m_size c = 0 → counted c.
Proof.
  intros Hc Hv Hs. unfold counted. rewrite Hs.
  assert (liveSet c = ∅) as ->; [|by rewrite size_empty].
  apply set_eq. intros k. rewrite elem_of_liveSet, Hv by done.
  split; [by intros []|set_solver].
Qed.

(** How the count of live keys follows the view at one key. *)
Definition liveDelta (before after : CacheablePtr) : Z :=
  match before, after with
  | None, Some _ => 1
  | Some _, None => -1
  | _, _ => 0
  end.

Lemma size_liveSet c c' k :
  map_ok c → map_ok c' → (∀ k', k' ≠ k → cview c' k' = cview c k') →
  Z.of_nat (size (liveSet c')) =
  Z.of_nat (size (liveSet c)) + liveDelta (cview c k) (cview c' k).
Proof.
  intros Hc Hc' Hne.
  assert (∀ k', k' ≠ k → k' ∈ liveSet c' ↔ k' ∈ liveSet c) as Hin.
  { intros k' Hk. by rewrite !elem_of_liveSet, Hne by done. }
  pose proof (elem_of_liveSet c k Hc) as Hk. pose proof (elem_of_liveSet c' k Hc') as Hk'.
  assert (∀ X Y : gset K, k ∈ X → k ∉ Y → (∀ k', k' ≠ k → k' ∈ X ↔ k' ∈ Y) →
    size X = S (size Y)) as Hadd.
  { intros X Y HX HY HXY. assert (X = {[k]} ∪ Y) as ->.
    { apply set_eq. intros x. destruct (decide (x = k)); set_solver. }
    rewrite size_union, size_singleton by set_solver. lia. }
  destruct (cview c k) as [v|], (cview c' k) as [v'|]; simpl.
  - assert (liveSet c' = liveSet c) as ->; [|lia]. apply set_eq. intros x.
    destruct (decide (x = k)) as [->|]; [|by apply Hin]. rewrite Hk, Hk'.
    split; by eexists.
  - rewrite (Hadd (liveSet c) (liveSet c')); [lia|..].
    + apply Hk. by eexists.
    + rewrite Hk'. apply is_Some_None.
    + intros k' Hne'. by rewrite Hin.
  - rewrite (Hadd (liveSet c') (liveSet c)); [lia|..|done].
    + apply Hk'. by eexists.
    + rewrite Hk. apply is_Some_None.
  - assert (liveSet c' = liveSet c) as ->; [|lia]. apply set_eq. intros x.
    destruct (decide (x = k)) as [->|]; [|by apply Hin]. by rewrite Hk, Hk'.
Qed.

(** The update of the count at the end of an operation on [k]. *)
Lemma count_ok c c' k (b : bool) n :
  map_ok c → map_ok c' → sameMeta c c' → (∀ k', k' ≠ k → cview c' k' = cview c k') →
  ∃ c2, (if b then addSize n else ret tt) c' = (Ok tt, c2) ∧ map_ok c2 ∧
    (∀ k', cview c2 k' = cview c' k') ∧ em_world c2 = em_world c' ∧
    (counted c → liveDelta (cview c k) (cview c' k) = (if b then n else 0) → counted c2).
Proof.
  intros Hc Hc' (Em & Es & Et) Hne.
  pose proof (size_liveSet c c' k Hc Hc' Hne) as Hsz. unfold counted in *.
  destruct b; (eexists; split; [reflexivity|]; split_and!; try done).
  - by destruct Hc'.
  - intros Hn Hd. change (liveSet (set_size (m_size c' + n) c')) with (liveSet c').
    cbn [m_size set_size]. rewrite Es, Hn, Hsz, Hd. unfold u32, uwrap.
    by rewrite Zplus_mod_idemp_l.
  - intros Hn Hd. rewrite Es, Hn, Hsz, Hd. f_equal. lia.
Qed.
End Invariant.

Arguments map_ok {K O _ _ _} c.

(** ** The operations as steps *)

Section Steps.
Context {K O D : Type} `{EqDecision K, !Countable K}.
Context `{!CacheableKey K, !Application K O D, !TaskIds}.
Implicit Types (c : EntriesMap K O) (k : K).

Variable cfg : SegConfig.

(** An operation; for the expiry of a timer, on the segment [i] it belongs to. *)
Definition mapExec (i : nat) (op : segOp K) : M (EntriesMap K O) GfErrType :=
  match op with
  | OpPut k v tag =>
      let! r := em_put (D:=D) cfg k (Some v) None None (-1) 0 tag false None in
      ret r.1.1.1.1
  | OpCreate k v tag =>
      let! r := em_create (D:=D) cfg k (Some v) None None (-1) 0 tag in ret r.1.1
  | OpInvalidate k tag =>
      let! r := em_invalidate cfg k None None tag in ret r.1.1
  | OpRemove k now tag afterRemote =>
      let! r := em_remove (D:=D) cfg now k None None (-1) tag afterRemote in ret r.1.1
  | OpReap gc => em_reapTombstones_versions gc ;! ret GF_NOERR
  | OpExpire handler now => em_handle_timeout cfg i handler now ;! ret GF_NOERR
  end.

Definition smallEnough c k : Prop := ∀ g,
  m_segments c !! indexOf c k = Some g → Z.of_nat (size (m_map g)) < 2 ^ 32.

(** When the environment may invoke an operation; a destroy that follows a
    remote one must not meet a tombstone. *)
Definition mapEnabled (i : nat) (op : segOp K) c : Prop :=
  match op with
  | OpPut k v tag | OpCreate k v tag =>
      storable v ∧ tagOk (em_world c) tag ∧ smallEnough c k
  | OpInvalidate _ tag => tagOk (em_world c) tag
  | OpRemove k _ tag afterRemote =>
      tagOk (em_world c) tag ∧
      (afterRemote = true → ∀ g, m_segments c !! indexOf c k = Some g →
         m_tombstoneMap g !! k = None)
  | OpReap _ => True
  | OpExpire handler _ =>
      ∃ g k t, m_segments c !! i = Some g ∧ m_tombstoneMap g !! k = Some t ∧
        tb_handler t = handler
  end.

Hypothesis Hcfg : checked cfg.

(** The state after one operation. *)
Definition stepped c c' (op : segOp K) (err : GfErrType) : Prop :=
  map_ok c' ∧ counted c' ∧ absStep op err (cview c) (cview c').

Lemma aset_cview c c' k x :
  cview c' k = x → (∀ k', k' ≠ k → cview c' k' = cview c k') →
  aeq (cview c') (aset (cview c) k x).
Proof. intros E Hne k'. unfold aset. case_decide as Ek; [by subst|by apply Hne]. Qed.

Lemma same_cview c c' k :
  cview c' k = cview c k → (∀ k', k' ≠ k → cview c' k' = cview c k') →
  aeq (cview c') (cview c).
Proof. intros E Hne k'. destruct (decide (k' = k)) as [->|]; [done|by apply Hne]. Qed.

Lemma cview_live c k g :
  m_segments c !! indexOf c k = Some g → cview c k = live (em_world c) g k.
Proof. intros Hg. unfold cview. by rewrite Hg. Qed.

(** The map after an operation on [k]. *)
Definition touched k c c' : Prop :=
  map_ok c' ∧ ∀ k', k' ≠ k → cview c' k' = cview c k'.

(** An operation on the segment of [k], followed by the update of the count. *)
Lemma counted_op {A} k (m : M (State K O) A) a g s' c (b : bool) n :
  map_ok c → m_segments c !! indexOf c k = Some g →
  m (mkState (em_world c) g) = (Ok a, s') → step_ok k (mkState (em_world c) g) s' →
  ∃ c1 c2, onSegmentFor k m c = (Ok a, c1) ∧
    (if b then addSize n else ret tt) c1 = (Ok tt, c2) ∧ touched k c c2 ∧
    cview c2 k = live (st_world s') (st_seg s') k ∧
    (counted c → liveDelta (cview c k) (cview c2 k) = (if b then n else 0) → counted c2).
Proof.
  intros Hc Hg E Hst.
  destruct (onSegmentFor_ok k _ _ g _ c Hc Hg E Hst)
    as (c1 & E1 & Hc1 & Hm & _ & Hv1 & Hne).
  destruct (count_ok c c1 k b n Hc Hc1 Hm Hne) as (c2 & E2 & Hc2 & Hv2 & _ & Hn2).
  exists c1, c2. split_and!; try done.
  - split; [done|]. intros k' Hk. rewrite Hv2. by apply Hne.
  - by rewrite Hv2.
  - intros Hn. rewrite Hv2. by apply Hn2.
Qed.

Lemma em_put_ok c k v me old uc dt upd tag :
  map_ok c → storable v → tagOk (em_world c) tag → smallEnough c k →
  ∃ err me' old' upd' c',
    em_put (D:=D) cfg k (Some v) me old uc dt tag upd None c =
      (Ok (err, me', old', upd', Some v), c') ∧
    touched k c c' ∧ (counted c → counted c') ∧
    (tag = None → err = GF_NOERR) ∧ verdict err ∧
    (err = GF_NOERR → cview c' k = Some v ∧
       upd' = bool_decide (is_Some (cview c k)) ∧ (upd' = true → old' = cview c k) ∧
       (upd' = false → old' = None ∨ old' = old) ∧ is_Some me') ∧
    (err ≠ GF_NOERR → cview c' k = cview c k ∧ old' = old).
Proof.
  destruct Hcfg as [Hcc Hfc]. intros Hc Hv Ht Hsz.
  destruct (indexOf_segment c k Hc) as [g Hg]. specialize (Hsz g Hg).
  destruct (mo_segments c Hc _ g Hg) as [Hw Hi Hk].
  destruct (put_spec (D:=D) cfg Hcc Hfc (m_numDestroyTrackers c) k v me old uc dt upd
    tag _ g Hw (Hk k) Hi Hsz Ht Hv)
    as (err & me' & old' & upd' & w' & g' & E & Hst & Hno & Hvd & H1 & H2).
  destruct (counted_op k _ _ g _ c (bool_decide (err = GF_NOERR) && negb upd') 1 Hc Hg E
    Hst) as (c1 & c2 & E1 & E2 & Ht2 & Hv2 & Hn2).
  cbn [st_world st_seg] in *. rewrite <- (cview_live c k g Hg), <- Hv2 in H1, H2.
  exists err, me', old', upd', c2. split_and!; try done.
  - unfold em_put. rewrite bind_get, (bind_Ok _ _ _ _ _ E1).
    destruct (bool_decide (err = GF_NOERR)); simpl in *; [|by injection E2 as <-].
    destruct upd'; simpl in E2; by rewrite (bind_Ok _ _ _ _ _ E2).
  - intros Hn. apply Hn2; [done|]. destruct (decide (err = GF_NOERR)) as [Herr|Herr].
    + rewrite bool_decide_eq_true_2 by done.
      destruct (H1 Herr) as (-> & -> & _). by destruct (cview c k).
    + rewrite bool_decide_eq_false_2, (proj1 (H2 Herr)) by done. by destruct (cview c k).
Qed.

Lemma put_step c i k v tag :
  map_ok c → counted c → mapEnabled i (OpPut k v tag) c →
  ∃ err c', mapExec i (OpPut k v tag) c = (Ok err, c') ∧
    stepped c c' (OpPut k v tag) err.
Proof.
  intros Hc Hn (Hv & Ht & Hsz).
  destruct (em_put_ok c k v None None (-1) 0 false tag Hc Hv Ht Hsz)
    as (err & me & old & upd & c2 & E & [Hc2 Hne] & Hn2 & Hno & _ & H1 & H2).
  exists err, c2. cbn [mapExec]. rewrite (bind_Ok _ _ _ _ _ E).
  split; [done|split_and!; [done|by apply Hn2|]].
  simpl. destruct (decide (err = GF_NOERR)) as [->|Herr]; [left|right].
  - split; [done|]. apply aset_cview; [|done]. by apply H1.
  - split_and!; [done|by intros ->; apply Herr, Hno|].
    apply (same_cview c c2 k); [|done]. by apply H2.
Qed.

Lemma em_create_ok c k v me uc dt tag :
  map_ok c → storable v → tagOk (em_world c) tag → smallEnough c k →
  ∃ err me' old' c',
    em_create (D:=D) cfg k (Some v) me None uc dt tag c = (Ok (err, me', old'), c') ∧
    touched k c c' ∧ (counted c → counted c') ∧
    (tag = None → cview c k = None → err = GF_NOERR) ∧
    (is_Some (cview c k) → err = GF_CACHE_ENTRY_EXISTS ∧ old' = cview c k) ∧
    (cview c k = None → verdict err) ∧
    (err = GF_NOERR → cview c k = None ∧ cview c' k = Some v ∧ old' = None ∧
       is_Some me') ∧
    (err ≠ GF_NOERR → cview c' k = cview c k).
Proof.
  destruct Hcfg as [Hcc Hfc]. intros Hc Hv Ht Hsz.
  destruct (indexOf_segment c k Hc) as [g Hg]. specialize (Hsz g Hg).
  destruct (mo_segments c Hc _ g Hg) as [Hw Hi Hk].
  destruct (create_spec (D:=D) cfg Hcc Hfc (m_numDestroyTrackers c) k v me None uc dt
    tag _ g Hw (Hk k) Hi Hsz Ht Hv)
    as (err & me' & old' & w' & g' & E & Hst & Hno & Hex & Hvd & H1 & H2).
  destruct (counted_op k _ _ g _ c (bool_decide (err = GF_NOERR) && bool_decide (old' = None))
    1 Hc Hg E Hst) as (c1 & c2 & E1 & E2 & Ht2 & Hv2 & Hn2).
  cbn [st_world st_seg] in *.
  rewrite <- (cview_live c k g Hg) in Hno, Hex, Hvd, H1, H2. rewrite <- Hv2 in H1, H2.
  exists err, me', old', c2. split_and!; try done.
  - unfold em_create. rewrite bind_get, (bind_Ok _ _ _ _ _ E1).
    by rewrite (bind_Ok _ _ _ _ _ E2).
  - intros Hn. apply Hn2; [done|]. destruct (decide (err = GF_NOERR)) as [Herr|Herr].
    + destruct (H1 Herr) as (-> & -> & Hold & _). rewrite (Hold eq_refl).
      by rewrite bool_decide_eq_true_2.
    + rewrite bool_decide_eq_false_2, (H2 Herr) by done. by destruct (cview c k).
  - intros Herr. destruct (H1 Herr) as (? & ? & Hold & ?). split_and!; try done.
    by apply Hold.
Qed.

Lemma create_step c i k v tag :
  map_ok c → counted c → mapEnabled i (OpCreate k v tag) c →
  ∃ err c', mapExec i (OpCreate k v tag) c = (Ok err, c') ∧
    stepped c c' (OpCreate k v tag) err.
Proof.
  intros Hc Hn (Hv & Ht & Hsz).
  destruct (em_create_ok c k v None (-1) 0 tag Hc Hv Ht Hsz)
    as (err & me & old & c2 & E & [Hc2 Hne] & Hn2 & Hno & Hex & _ & H1 & H2).
  exists err, c2. cbn [mapExec]. rewrite (bind_Ok _ _ _ _ _ E).
  split; [done|split_and!; [done|by apply Hn2|]].
  simpl. destruct (decide (err = GF_NOERR)) as [->|Herr]; [left|right].
  - destruct (H1 eq_refl) as (Eb & Ea & _). split_and!; [done|done|].
    by apply aset_cview.
  - assert (aeq (cview c2) (cview c)) as Hs
      by (apply (same_cview _ _ k); [by apply H2|done]).
    destruct (cview c k) as [v0|]; [left|right].
    + split_and!; [|by eexists|done]. apply Hex. by eexists.
    + split_and!; try done. intros ->. by apply Herr, Hno.
Qed.

Lemma em_invalidate_ok c k me old tag :
  map_ok c → tagOk (em_world c) tag →
  ∃ err me' old' (added : bool) c',
    em_invalidate cfg k me old tag c = (Ok (err, me', old'), c') ∧
    touched k c c' ∧ (counted c → counted c') ∧
    (verdict err ∨ err = GF_CACHE_ENTRY_NOT_FOUND) ∧
    (added = true → cview c k = None ∧ err = GF_CACHE_ENTRY_NOT_FOUND ∧
       cview c' k = Some (VToken INVALID)) ∧
    (err = GF_NOERR → added = false ∧ is_Some (cview c k) ∧
       old' = cview c k ∧ cview c' k = Some (VToken INVALID)) ∧
    (added = false → err ≠ GF_NOERR → cview c' k = cview c k).
Proof.
  destruct Hcfg as [Hcc Hfc]. intros Hc Ht.
  destruct (indexOf_segment c k Hc) as [g Hg].
  destruct (mo_segments c Hc _ g Hg) as [Hw Hi Hk].
  destruct (invalidate_spec cfg Hcc Hfc (m_numDestroyTrackers c) k me old tag _ g Hw
    (Hk k) Hi Ht) as (err & me' & old' & added & w' & g' & E & Hst & Hvd & Ha & H1 & H2).
  destruct (counted_op k _ _ g _ c added 1 Hc Hg E Hst)
    as (c1 & c2 & E1 & E2 & Ht2 & Hv2 & Hn2).
  cbn [st_world st_seg] in *. rewrite <- (cview_live c k g Hg), <- Hv2 in Ha, H1, H2.
  exists err, me', old', added, c2. split_and!; try done.
  - unfold em_invalidate. rewrite bind_get, (bind_Ok _ _ _ _ _ E1).
    by rewrite (bind_Ok _ _ _ _ _ E2).
  - intros Hn. apply Hn2; [done|].
    destruct added; [by destruct (Ha eq_refl) as (-> & _ & ->)|].
    destruct (decide (err = GF_NOERR)) as [Herr|Herr].
    + by destruct (H1 Herr) as (_ & [v ->] & _ & ->).
    + rewrite (H2 eq_refl Herr). by destruct (cview c k).
Qed.

Lemma invalidate_step c i k tag :
  map_ok c → counted c → mapEnabled i (OpInvalidate k tag) c →
  ∃ err c', mapExec i (OpInvalidate k tag) c = (Ok err, c') ∧
    stepped c c' (OpInvalidate k tag) err.
Proof.
  intros Hc Hn Ht. destruct (em_invalidate_ok c k None None tag Hc Ht)
    as (err & me & old & added & c2 & E & [Hc2 Hne] & Hn2 & _ & Ha & H1 & H2).
  exists err, c2. cbn [mapExec]. rewrite (bind_Ok _ _ _ _ _ E).
  split; [done|split_and!; [done|by apply Hn2|]]. simpl. destruct added.
  - destruct (Ha eq_refl) as (Eb & -> & Ea). right; left. split_and!; try done.
    by apply aset_cview.
  - destruct (decide (err = GF_NOERR)) as [->|Herr].
    + destruct (H1 eq_refl) as (_ & Eb & _ & Ea). left. split_and!; try done.
      by apply aset_cview.
    + right; right. split; [done|]. apply (same_cview _ _ k); [by apply H2|done].
Qed.

(** A key without a tombstone is bound exactly when the region sees a value. *)
Lemma bound_live c k g :
  map_ok c → m_segments c !! indexOf c k = Some g → m_tombstoneMap g !! k = None →
  is_Some (m_map g !! k) → is_Some (cview c k).
Proof.
  intros Hc Hg Hr [l Em]. rewrite (cview_live c k g Hg).
  destruct (mo_segments c Hc _ g Hg) as [_ _ Hk]. specialize (Hk k).
  unfold key_ok in Hk. cbn [st_world st_seg] in Hk. rewrite Em in Hk.
  destruct Hk as (e & He & Hto). rewrite (live_entry _ _ _ _ _ Em He).
  rewrite (tomb_ok_value _ _ _ _ _ Hto), Hr. by destruct He as [_ _ _ _ [Hv _]].
Qed.

Lemma em_remove_ok c k now old me uc tag afterRemote :
  map_ok c → tagOk (em_world c) tag →
  ∃ err old' me' c',
    em_remove (D:=D) cfg now k old me uc tag afterRemote c = (Ok (err, old', me'), c') ∧
    touched k c c' ∧
    ((afterRemote = true → ∀ g, m_segments c !! indexOf c k = Some g →
        m_tombstoneMap g !! k = None) → counted c → counted c') ∧
    (verdict err ∨ err = GF_CACHE_ENTRY_NOT_FOUND ∧ afterRemote = false) ∧
    (tag = None → is_Some (cview c k) ∨ afterRemote = true → err = GF_NOERR) ∧
    (err = GF_NOERR → cview c' k = None ∧ old' = cview c k ∧
       (cview c k = None → afterRemote = true)) ∧
    (err ≠ GF_NOERR → cview c' k = cview c k).
Proof.
  destruct Hcfg as [Hcc Hfc]. intros Hc Ht.
  destruct (indexOf_segment c k Hc) as [g Hg].
  destruct (mo_segments c Hc _ g Hg) as [Hw Hi Hk].
  destruct (remove_spec (D:=D) cfg Hcc Hfc (m_numDestroyTrackers c) now k old me uc tag
    afterRemote true _ g Hw (Hk k) Hi Ht)
    as (err & old' & me' & fnd & w' & g' & E & Hst & Hf & Hvd & Hno & H1 & H2).
  destruct (counted_op k _ _ g _ c (bool_decide (err = GF_NOERR) && fnd) (-1) Hc Hg E Hst)
    as (c1 & c2 & E1 & E2 & Ht2 & Hv2 & Hn2).
  cbn [st_world st_seg] in *. rewrite <- (cview_live c k g Hg) in Hno, H1, H2.
  rewrite <- Hv2 in H1, H2.
  exists err, old', me', c2. split_and!; try done.
  - unfold em_remove. rewrite bind_get, (bind_Ok _ _ _ _ _ E1).
    by rewrite (bind_Ok _ _ _ _ _ E2).
  - intros Hr Hn. apply Hn2; [done|]. destruct (decide (err = GF_NOERR)) as [Herr|Herr].
    2: { rewrite bool_decide_eq_false_2, (H2 Herr) by done. by destruct (cview c k). }
    rewrite bool_decide_eq_true_2 by done. destruct (H1 Herr) as (-> & _ & Har).
    assert (fnd = bool_decide (is_Some (cview c k))) as ->.
    { rewrite Hf. apply bool_decide_ext. split.
      - intros Hb. destruct (cview c k) eqn:Ev; [by eexists|].
        rewrite <- Ev. by eapply bound_live; eauto.
      - rewrite (cview_live c k g Hg). apply live_bound. }
    by destruct (cview c k).
Qed.

Lemma remove_step c i k now tag afterRemote :
  map_ok c → counted c → mapEnabled i (OpRemove k now tag afterRemote) c →
  ∃ err c', mapExec i (OpRemove k now tag afterRemote) c = (Ok err, c') ∧
    stepped c c' (OpRemove k now tag afterRemote) err.
Proof.
  intros Hc Hn [Ht Hr].
  destruct (em_remove_ok c k now None None (-1) tag afterRemote Hc Ht)
    as (err & old & me & c2 & E & [Hc2 Hne] & Hn2 & _ & Hno & H1 & H2).
  exists err, c2. cbn [mapExec]. rewrite (bind_Ok _ _ _ _ _ E).
  split; [done|split_and!; [done|by apply Hn2|]].
  simpl. destruct (decide (err = GF_NOERR)) as [->|Herr]; [left|right].
  - destruct (H1 eq_refl) as (El & _ & Hr'). split_and!; try done.
    + destruct (cview c k) eqn:Ev; [left; by eexists|right; by apply Hr'].
    + by apply aset_cview.
  - split_and!; [done| |apply (same_cview _ _ k); [by apply H2|done]].
    destruct (cview c k) as [v0|] eqn:Ev; [right|by left].
    intros ->. apply Herr, Hno; [done|left; by eexists].
Qed.

Lemma expire_step c i handler now :
  map_ok c → counted c → mapEnabled i (OpExpire handler now) c →
  ∃ err c', mapExec i (OpExpire handler now) c = (Ok err, c') ∧
    stepped c c' (OpExpire handler now) err.
Proof.
  intros Hc Hn (g & k & t & Hg & Et & <-).
  pose proof (mo_segments c Hc i g Hg) as Hs.
  destruct (expiry_ok cfg k t now _ Hs Et) as (s' & E & _ & Hv & _ & _ & Hst).
  assert (indexOf c k = i) as <-.
  { destruct (tombstone_entry _ _ _ Hs Et) as (l & _ & Hm & _).
    apply (mo_routed c Hc i g); [done|by eexists]. }
  destruct (onSegmentFor_ok k _ _ g _ c Hc Hg E Hst)
    as (c1 & E1 & Hc1 & Hm & _ & Hv1 & Hne).
  assert (cview c1 k = cview c k) as Hk.
  { rewrite Hv1, Hv. unfold cview. by rewrite Hg. }
  destruct (count_ok c c1 k false 0 Hc Hc1 Hm Hne) as (c2 & [= <-] & _ & _ & _ & Hn2).
  assert (counted c1) by (apply Hn2; [done|rewrite Hk; by destruct (cview c k)]).
  exists GF_NOERR, c1. split; [|split_and!; try done].
  - cbn [mapExec]. unfold em_handle_timeout. unfold onSegmentFor in E1.
    rewrite bind_get in E1. by rewrite (bind_Ok _ _ _ _ _ E1).
  - split; [done|]. by apply (same_cview _ _ k).
Qed.
End Steps.

(** ** Loops over the segments *)

Section Loops.
Context {K O D : Type} `{EqDecision K, !Countable K}.
Context `{!CacheableKey K, !Application K O D, !TaskIds}.
Implicit Types (c : EntriesMap K O) (k : K).

(** An operation of a whole segment that binds no new key and respects the keys
    it does not bind; [F] is what it does to the view. *)
Definition wide {A} (m : M (State K O) A) (F : K → CacheablePtr → CacheablePtr) : Prop :=
  ∀ s, seg_ok s → ∃ a s', m s = (Ok a, s') ∧ seg_ok s' ∧
    (∀ k, view s' k = F k (view s k)) ∧
    (∀ k, m_map (st_seg s) !! k = None → m_map (st_seg s') !! k = None) ∧
    (∀ k, m_map (st_seg s) !! k = None → frame_at k (st_world s) (st_world s')).

Lemma forSegments_ok {A} (m : M (State K O) A) F i n c :
  map_ok c → wide m F → (i + n ≤ length (m_segments c))%nat →
  ∃ l c', forSegments i n m c = (Ok l, c') ∧ map_ok c' ∧ sameMeta c c' ∧
    ∀ k, cview c' k = if decide (i ≤ indexOf c k < i + n)%nat then F k (cview c k)
                      else cview c k.
Proof.
  intros Hc Hm. revert i c Hc. induction n as [|n IH]; intros i c Hc Hn.
  { exists [], c. split_and!; try done. intros k. rewrite decide_False by lia. done. }
  destruct (lookup_lt_is_Some_2 (m_segments c) i ltac:(lia)) as [g Hg].
  destruct (Hm _ (mo_segments c Hc i g Hg)) as (a & s' & E & Hs' & Hv & Hb & Hf).
  assert (∀ k, indexOf c k ≠ i → m_map g !! k = None) as Hun.
  { intros k Hk. apply eq_None_not_Some. intros Hs. apply Hk.
    by apply (mo_routed c Hc i g). }
  destruct (onIndex_ok i m a s' c g Hc Hg E Hs')
    as (c1 & E1 & Hc1 & (Em & Ez & Et) & Hsegs & _ & Hv1).
  { intros k Hk. apply dec_stable. intros Hne. apply Hun, Hb in Hne.
    rewrite Hne in Hk. by apply is_Some_None in Hk. }
  { intros k Hk. by apply Hf, Hun. }
  destruct (IH (S i) c1 Hc1) as (l & c2 & E2 & Hc2 & (Em2 & Ez2 & Et2) & Hv2).
  { rewrite Hsegs, length_insert. lia. }
  exists (a :: l), c2. split; [|split; [done|split]].
  2: { unfold sameMeta. split_and!; congruence. }
  - cbn [forSegments]. rewrite (bind_Ok _ _ _ _ _ E1). by rewrite (bind_Ok _ _ _ _ _ E2).
  - intros k. rewrite Hv2, Hv1.
    assert (indexOf c1 k = indexOf c k) as -> by (unfold indexOf; by rewrite Em).
    repeat case_decide; try lia; try done. rewrite Hv. f_equal.
    unfold cview. replace (indexOf c k) with i by lia. by rewrite Hg.
Qed.

Lemma forAllSegments_ok {A} (m : M (State K O) A) F c :
  map_ok c → wide m F →
  ∃ l c', forAllSegments m c = (Ok l, c') ∧ map_ok c' ∧ sameMeta c c' ∧
    ∀ k, cview c' k = F k (cview c k).
Proof.
  intros Hc Hm. pose proof (mo_count c Hc) as Hn.
  destruct (forSegments_ok m F 0 (Z.to_nat (m_concurrency c)) c Hc Hm ltac:(lia))
    as (l & c' & E & Hc' & Hmeta & Hv).
  exists l, c'. split_and!; try done. intros k. rewrite Hv, decide_True; [done|].
  destruct (indexOf_segment c k Hc) as [g Hg%lookup_lt_Some]. lia.
Qed.

Lemma wide_reap_versions gc : wide (reapTombstones_versions (K:=K) (O:=O) gc) (λ _ v, v).
Proof.
  intros s Hs. destruct (reap_versions_ok gc s Hs) as (s' & E & Hs' & Hv & Hm & Hf).
  exists tt, s'. split_and!; try done. intros k Hk. destruct (Hm k) as [_ Hm2].
  rewrite Hm2; [done|]. intros (t & l & e & st & v & Et & _).
  destruct (tombstone_entry _ _ _ Hs Et) as (? & ? & ? & _). congruence.
Qed.

Lemma wide_reap_keys ks :
  wide (reapTombstones_keys (K:=K) (O:=O) ks) (λ k v, if decide (k ∈ ks) then None else v).
Proof.
  intros s Hs. destruct (removeAll_ok ks s Hs) as (s' & E & Hs' & Hv & Hm & Hf).
  exists tt, s'. split_and!; try done.
  - intros k Hk. rewrite Hm. by case_decide.
  - intros k Hk. apply Hf. by right.
Qed.

Lemma lower_bound_total table val i :
  lower_bound table val i = None → Forall (λ p, p < val) table.
Proof.
  revert i. induction table as [|p table IH]; intros i; simpl; [done|].
  destruct (Z.ltb_spec p val); [|done]. intros E%IH. by constructor.
Qed.

Definition openedSegment (r : Z) : Segment K := mkSegment ∅ r 0 ∅ ∅.

Lemma forSegments_open r p size n0 n w conc sz tr :
  lower_bound g_primeTable size 0 = Some (r, p) →
  ∃ l, forSegments n0 n (MapSegment.open (O:=O) size)
    (mkEntriesMap w conc (replicate n0 (openedSegment r) ++ replicate n newSegment) sz tr)
  = (Ok l, mkEntriesMap w conc (replicate (n0 + n) (openedSegment r)) sz tr).
Proof.
  intros Hr. revert n0. induction n as [|n IH]; intros n0.
  { exists []. simpl. by rewrite Nat.add_0_r, app_nil_r. }
  destruct (IH (S n0)) as [l E]. exists (tt :: l). cbn [forSegments].
  assert (onIndex n0 (MapSegment.open size)
    (mkEntriesMap w conc (replicate n0 (openedSegment r) ++ replicate (S n) newSegment) sz tr)
    = (Ok tt, mkEntriesMap w conc
        (replicate (S n0) (openedSegment r) ++ replicate n newSegment) sz tr)) as E1.
  { unfold onIndex. simpl. rewrite lookup_app_r by (by rewrite length_replicate).
    rewrite length_replicate, Nat.sub_diag. simpl.
    unfold MapSegment.open, nextLargerPrime, bind, onSeg, modify, ret. rewrite Hr. simpl.
    do 2 f_equal. rewrite insert_app_r_alt by (by rewrite length_replicate).
    rewrite length_replicate, Nat.sub_diag. simpl.
    rewrite app_comm_cons. change (openedSegment r :: replicate n0 (openedSegment r))
      with (replicate (S n0) (openedSegment r)).
    by rewrite replicate_S_end, <- app_assoc. }
  rewrite (bind_Ok _ _ _ _ _ E1), (bind_Ok _ _ _ _ _ E). simpl.
  by rewrite Nat.add_succ_r.
Qed.
End Loops.

(** ** Opening *)

Section Opening.
Context {K O D : Type} `{EqDecision K, !Countable K}.
Context `{!CacheableKey K, !Application K O D, !TaskIds}.
Implicit Types (c : EntriesMap K O) (k : K).

(** The map of a new region. *)
Definition mapOpened (concurrency capacity : Z) (env : VersionEnv)
    : outcome (EntriesMap K O) :=
  match newEntriesMap concurrency (st_world (initialState (K:=K) (O:=O) env)) with
  | Ok c =>
      match em_open capacity c with
      | (Ok _, c') => Ok c'
      | (Throw e, _) => Throw e
      | (UB, _) => UB
      end
  | r => r
  end.

Definition isPrime (p : Z) : bool :=
  (1 <? p) && forallb (λ d, negb (p mod d =? 0)) (seqZ 2 (p - 2)).

Definition concurrencyOk (n : Z) : bool :=
  match concurrencyFor n tt with
  | (Ok p, _) =>
      isPrime p && (1 <? p) && (p <=? 251) && ((n <=? p) || (p =? 251)) &&
      forallb (λ q, negb (isPrime q)) (seqZ n (p - n))
  | _ => false
  end.

Lemma concurrencyFor_ok n :
  0 ≤ n < 256 → ∃ p, (∀ S (s : S), concurrencyFor n s = (Ok p, s)) ∧ 1 < p ≤ 251 ∧
    isPrime p = true ∧ (n ≤ 251 → n ≤ p) ∧
    ∀ q, n ≤ q < p → isPrime q = false.
Proof.
  intros Hn.
  assert (concurrencyOk n = true) as H0.
  { apply (forallb_range concurrencyOk 256); [vm_compute; reflexivity|done]. }
  unfold concurrencyOk in H0.
  destruct (concurrencyFor n tt) as [[p| |] []] eqn:E; [|done..].
  rewrite !andb_true_iff, Z.ltb_lt, Z.leb_le, orb_true_iff, Z.leb_le, Z.eqb_eq in H0.
  destruct H0 as ((((Hp & H1) & H2) & H3) & H4).
  exists p. split_and!; try done; try lia.
  - intros S s. unfold concurrencyFor in *. destruct (_ <? n).
    + by injection E as ->.
    + unfold nextLargerPrimeForConcurrency in *.
      destruct (lower_bound _ n 0) as [[i q]|]; [|done]. by injection E as <-.
  - intros q Hq. rewrite forallb_forall in H4. apply negb_true_iff, H4.
    apply list_elem_of_In, elem_of_seqZ. lia.
Qed.

Lemma mapOpened_ok concurrency capacity env :
  0 ≤ concurrency < 256 → 0 ≤ capacity < 2 ^ 32 →
  ∃ c, mapOpened concurrency capacity env = Ok c ∧ map_ok c ∧ counted c ∧
    aeq (cview c) (λ _, None) ∧ m_size c = 0 ∧
    concurrencyFor concurrency tt = (Ok (m_concurrency c), tt).
Proof.
  intros Hn Hcap. destruct (concurrencyFor_ok concurrency Hn) as (p & E & Hp & _).
  unfold mapOpened, newEntriesMap. rewrite E. unfold em_open.
  rewrite bind_get. cbn [m_concurrency].
  set (size := u32 _).
  assert (size ≤ 3221225473) as Hs.
  { unfold size. assert (0 ≤ u32 (capacity - 1) / p ≤ 2147483647).
    { pose proof (uwrap_range 32 (capacity - 1) ltac:(lia)).
      unfold u32. split; [apply Z.div_pos; lia|].
      change 2147483647 with (4294967295 / 2).
      transitivity (4294967295 / p); [apply Z.div_le_mono; lia|].
      apply Z.div_le_compat_l; lia. }
    unfold u32 at 1. rewrite uwrap_id; unfold in_u; lia. }
  destruct (lower_bound g_primeTable size 0) as [[r q]|] eqn:El.
  2: { apply lower_bound_total in El. exfalso.
    apply Forall_lookup_1 with (i := 26%nat) (x := 3221225473) in El;
      [simpl in El; lia|done]. }
  destruct (forSegments_open r q size 0 (Z.to_nat p) (st_world (initialState (K:=K) (O:=O) env))
    p 0 0 El) as [l Eo].
  simpl in Eo. unfold bind at 1, modify. cbn [em_world m_concurrency m_size
    m_numDestroyTrackers].
  unfold forAllSegments. unfold bind, get. simpl. rewrite Eo.
  assert (seg_ok (mkState (st_world (initialState (K:=K) (O:=O) env)) (openedSegment r)))
    as Hseg.
  { apply (opened_ok size env). unfold opened, MapSegment.open, bind, nextLargerPrime.
    by rewrite El. }
  assert (∀ i g, replicate (Z.to_nat p) (openedSegment (K:=K) r) !! i = Some g →
    g = openedSegment r) as Hrep by (by intros i g [? _]%lookup_replicate).
  unfold ret. match goal with |- ∃ c, Ok ?c0 = _ ∧ _ => set (c1 := c0) end.
  assert (map_ok c1) as Hc1.
  { split; simpl; [rewrite length_replicate; lia|lia|by destruct Hseg|..].
    + intros i g Hg%Hrep. by subst.
    + intros i g k Hg%Hrep Hk. subst. simpl in Hk. rewrite lookup_empty in Hk.
      by apply is_Some_None in Hk. }
  assert (aeq (cview c1) (λ _, None)) as Hv.
  { intros k. unfold cview, c1. cbn [m_segments em_world]. case_match eqn:Hg; [|done].
    by apply Hrep in Hg as ->. }
  exists c1. split_and!; try done. by apply counted_empty.
Qed.
End Opening.

(** ** Runs *)

Section Runs.
Context {K O D : Type} `{EqDecision K, !Countable K}.
Context `{!CacheableKey K, !Application K O D, !TaskIds}.
Implicit Types (c : EntriesMap K O) (k : K).

Variable cfg : SegConfig.

Lemma reap_step c i gc :
  map_ok c → counted c →
  ∃ c', mapExec (D:=D) cfg i (OpReap gc) c = (Ok GF_NOERR, c') ∧
    stepped c c' (OpReap gc) GF_NOERR.
Proof.
  intros Hc Hn. destruct (forAllSegments_ok _ _ c Hc (wide_reap_versions gc))
    as (l & c' & E & Hc' & (_ & Es & _) & Hv).
  exists c'. split; [|split_and!; try done].
  - cbn [mapExec]. unfold em_reapTombstones_versions.
    by rewrite bind_assoc, (bind_Ok _ _ _ _ _ E).
  - unfold counted in *. rewrite Es, Hn. do 3 f_equal. apply set_eq. intros k.
    by rewrite !elem_of_liveSet, Hv by done.
Qed.

Lemma mapExec_simulates c i op :
  checked cfg → map_ok c → counted c → mapEnabled i op c →
  ∃ err c', mapExec (D:=D) cfg i op c = (Ok err, c') ∧ stepped c c' op err.
Proof.
  intros Hcfg Hc Hn He. destruct op as [k v tag|k v tag|k tag|k now tag ar|gc|h now].
  - by apply put_step.
  - by apply create_step.
  - by apply invalidate_step.
  - by apply remove_step.
  - destruct (reap_step c i gc Hc Hn) as (c' & E & Hs). by exists GF_NOERR, c'.
  - by apply expire_step.
Qed.

Inductive mapRuns : EntriesMap K O → list (segOp K * GfErrType) → EntriesMap K O → Prop :=
  | mapRuns_nil c : mapRuns c [] c
  | mapRuns_cons c i op err c1 l c' :
      mapEnabled i op c → mapExec (D:=D) cfg i op c = (Ok err, c1) → mapRuns c1 l c' →
      mapRuns c ((op, err) :: l) c'.

Lemma mapRuns_simulate c l c' :
  checked cfg → mapRuns c l c' → map_ok c → counted c →
  map_ok c' ∧ counted c' ∧ aruns (cview c) l (cview c').
Proof.
  intros Hcfg. induction 1 as [c|c i op err c1 l c' He E Hr IH]; intros Hc Hn.
  - split_and!; [done|done|]. by constructor.
  - destruct (mapExec_simulates c i op Hcfg Hc Hn He) as (err' & c1' & E' & Hc1 & Hn1 & Ha).
    rewrite E in E'. simplify_eq. destruct (IH Hc1 Hn1) as (Hc' & Hn' & Har).
    split_and!; [done|done|]. by econstructor.
Qed.

(** ** Listing the keys *)

Lemma keys_body w g k l :
  key_ok w g k → m_map g !! k = Some l →
  (let! impl := onHeap (O:=O) (getImplPtr l) in
   let! value := onHeap (getValueI impl) in
   ret (if isTombstone value then None else Some k)) (mkState w g) =
  (Ok (if decide (is_Some (live w g k)) then Some k else None), mkState w g).
Proof.
  intros Hk Hm. unfold key_ok in Hk. rewrite Hm in Hk. destruct Hk as (e & He & Hto).
  rewrite (live_entry w g k l e Hm He). destruct He as [Hl _ Hth _ [[v Hv] Hd]].
  rewrite (bind_Ok _ _ _ _ _ (run_getImplPtr w g l e Hl Hth)).
  rewrite (bind_Ok _ _ _ _ _ (run_getValueI w g l e Hl Hd)). rewrite Hv.
  destruct (isTombstone (Some v)); [by rewrite decide_False by by intros []|].
  by rewrite decide_True by by eexists.
Qed.

Lemma keys_loop w g l :
  (∀ k, key_ok w g k) → (∀ k a, (k, a) ∈ l → m_map g !! k = Some a) → NoDup l.*1 →
  ∃ ks, forEach (A:=K) l (λ k e,
      let! impl := onHeap (O:=O) (getImplPtr e) in
      let! value := onHeap (getValueI impl) in
      ret (if isTombstone value then None else Some k)) (mkState w g) =
    (Ok ks, mkState w g) ∧ NoDup ks ∧
    ∀ k, k ∈ ks ↔ k ∈ l.*1 ∧ is_Some (live w g k).
Proof.
  intros Hk. induction l as [|[k a] l IH]; intros Hl Hnd.
  { exists []. split; [done|]. split; [constructor|]. set_solver. }
  apply NoDup_cons in Hnd as [Hni Hnd].
  destruct IH as (ks & E & Hks & Hin); [by intros k' a' ?; apply Hl; right|done|].
  cbn [forEach].
  rewrite (bind_Ok _ _ _ _ _ (keys_body w g k a (Hk k) (Hl k a ltac:(left)))).
  rewrite (bind_Ok _ _ _ _ _ E). eexists. split; [done|].
  cbn [fmap list_fmap fst] in *. case_decide as Hlive.
  - split; [constructor; [by intros [? _]%Hin|done]|].
    intros k'. rewrite !elem_of_cons, Hin. naive_solver.
  - split; [done|]. intros k'. rewrite !elem_of_cons, Hin. naive_solver.
Qed.

Lemma keys_ok w g :
  seg_ok (mkState w g) →
  ∃ ks, keys (mkState w g) = (Ok ks, mkState w g) ∧ NoDup ks ∧
    ∀ k, k ∈ ks ↔ is_Some (live (O:=O) w g k).
Proof.
  intros [_ _ Hk]. unfold keys, overMap. rewrite bind_get.
  destruct (keys_loop w g (map_to_list (m_map g)) Hk) as (ks & E & Hnd & Hin).
  - by intros k a ?%elem_of_map_to_list.
  - apply NoDup_fst_map_to_list.
  - exists ks. split_and!; try done. intros k. rewrite Hin. split; [by intros []|].
    intros Hl. split; [|done]. destruct (live_bound w g k Hl) as [a Ha].
    apply list_elem_of_fmap. exists (k, a). split; [done|]. by apply elem_of_map_to_list.
Qed.

Lemma forSegments_keys c i n :
  map_ok c → (i + n ≤ length (m_segments c))%nat →
  ∃ kss, forSegments i n keys c = (Ok kss, c) ∧ NoDup (concat kss) ∧
    ∀ k, k ∈ concat kss ↔ (i ≤ indexOf c k < i + n)%nat ∧ is_Some (cview c k).
Proof.
  intros Hc. revert i. induction n as [|n IH]; intros i Hn.
  { exists []. split; [done|]. split; [constructor|]. intros k. simpl.
    split; [by intros ?%not_elem_of_nil|lia]. }
  destruct (IH (S i) ltac:(lia)) as (kss & E & Hnd & Hin).
  destruct (lookup_lt_is_Some_2 (m_segments c) i ltac:(lia)) as [g Hg].
  destruct (keys_ok _ _ (mo_segments c Hc i g Hg)) as (ks & Ek & Hkd & Hki).
  assert (onIndex i keys c = (Ok ks, c)) as E1.
  { unfold onIndex. rewrite Hg, Ek. simpl. rewrite list_insert_id by done. by destruct c. }
  assert (∀ k, k ∈ ks ↔ indexOf c k = i ∧ is_Some (cview c k)) as Hki'.
  { intros k. rewrite Hki. split.
    - intros Hl. assert (indexOf c k = i) as Ei
        by (apply (mo_routed c Hc i g); [done|by eapply live_bound]).
      split; [done|]. unfold cview. by rewrite Ei, Hg.
    - intros [Ei Hl]. unfold cview in Hl. by rewrite Ei, Hg in Hl. }
  exists (ks :: kss). split_and!.
  - cbn [forSegments]. rewrite (bind_Ok _ _ _ _ _ E1). by rewrite (bind_Ok _ _ _ _ _ E).
  - simpl. apply NoDup_app. split_and!; [done| |done].
    intros k [Ei _]%Hki' [Hlt _]%Hin. lia.
  - intros k. simpl. rewrite elem_of_app, Hki', Hin. split.
    + intros [[? ?]|[? ?]]; (split; [lia|done]).
    + intros [? ?]. destruct (decide (indexOf c k = i)); [by left|right].
      split; [lia|done].
Qed.

Lemma em_keys_ok c :
  map_ok c →
  ∃ ks, em_keys c = (Ok ks, c) ∧ NoDup ks ∧ (∀ k, k ∈ ks ↔ is_Some (cview c k)) ∧
    length ks = size (liveSet c).
Proof.
  intros Hc. pose proof (mo_count c Hc) as Hlen.
  destruct (forSegments_keys c 0 (Z.to_nat (m_concurrency c)) Hc ltac:(lia))
    as (kss & E & Hnd & Hin).
  assert (∀ k, k ∈ concat kss ↔ is_Some (cview c k)) as Hin'.
  { intros k. rewrite Hin. split; [by intros []|]. intros Hs. split; [|done].
    destruct (indexOf_segment c k Hc) as [g Hg%lookup_lt_Some]. lia. }
  exists (concat kss). split_and!; [|done|done|].
  - unfold em_keys, forAllSegments. rewrite bind_assoc, bind_get.
    by rewrite (bind_Ok _ _ _ _ _ E).
  - rewrite <- (size_list_to_set (C:=gset K)) by done. f_equal. apply set_eq. intros k.
    by rewrite elem_of_list_to_set, Hin', elem_of_liveSet.
Qed.
End Runs.

(** ** The claims *)

Section Claims.
Context {K O D : Type} `{EqDecision K, !Countable K}.
Context `{!CacheableKey K, !Application K O D, !TaskIds}.
Implicit Types (c : EntriesMap K O) (k : K).

Variable cfg : SegConfig.

(** C26: a map can be constructed and opened with any 8-bit concurrency level and
    any 32-bit capacity: the number of segments is the smallest prime not below
    the level, at most 251, no segment's table is too large for the prime table,
    and the map is empty. *)
Theorem entries_map_opens concurrency capacity env :
  0 ≤ concurrency < 256 → 0 ≤ capacity < 2 ^ 32 →
  ∃ c, mapOpened (K:=K) (O:=O) concurrency capacity env = Ok c ∧
    (length (m_segments c) = Z.to_nat (m_concurrency c)) ∧
    isPrime (m_concurrency c) = true ∧ m_concurrency c ≤ 251 ∧
    (concurrency ≤ 251 → concurrency ≤ m_concurrency c) ∧
    (∀ q, concurrency ≤ q < m_concurrency c → isPrime q = false) ∧
    (∀ k, em_containsKey k c = (Ok false, c)) ∧ em_size c = (Ok 0, c).
Proof.
  intros Hn Hcap. destruct (mapOpened_ok (K:=K) (O:=O) concurrency capacity env Hn Hcap)
    as (c & E & Hc & _ & Hv & Hs & Ec).
  destruct (concurrencyFor_ok concurrency Hn) as (p & Ep & Hp & Hpr & Hle & Hmin).
  rewrite Ep in Ec. injection Ec as ->. exists c.
  pose proof (mo_count c Hc). split_and!; try done; try lia.
  - intros k. destruct (indexOf_segment c k Hc) as [g Hg].
    destruct (mo_segments c Hc _ g Hg) as [_ _ Hk].
    apply (onSegmentFor_read k _ _ g); [done|].
    rewrite (containsKey_spec k (em_world c) g (Hk k)).
    rewrite <- (cview_live c k g Hg), (Hv k). done.
  - unfold em_size. by rewrite bind_get, Hs.
Qed.



(** Reaping by key takes keys out of the map without counting them: the
    contents lose every named key while [size()] stays what it was. *)
Theorem reap_keys_uncounted ks c :
  map_ok c →
  ∃ c', em_reapTombstones_keys ks c = (Ok tt, c') ∧ map_ok c' ∧
    (∀ k, cview c' k = if decide (k ∈ ks) then None else cview c k) ∧
    em_size c' = (Ok (m_size c), c').
Proof.
  intros Hc. destruct (forAllSegments_ok _ _ c Hc (wide_reap_keys ks))
    as (l & c' & E & Hc' & (_ & Es & _) & Hv).
  exists c'. split_and!; try done.
  - unfold em_reapTombstones_keys. by rewrite (bind_Ok _ _ _ _ _ E).
  - unfold em_size. by rewrite bind_get, Es.
Qed.

(** A destroy that follows a remote one and meets a tombstone reports
    success with the entry found, so the count goes down by one although the
    region saw no value: [size()] no longer counts the keys. *)
Theorem remove_tombstone_miscounts now k g c :
  checked cfg → map_ok c → counted c → m_segments c !! indexOf c k = Some g →
  is_Some (m_tombstoneMap g !! k) →
  ∃ me c', em_remove (D:=D) cfg now k None None (-1) None true c =
      (Ok (GF_NOERR, None, me), c') ∧
    (∀ k', cview c' k' = cview c k') ∧
    em_size c' = (Ok (u32 (Z.of_nat (size (liveSet c)) - 1)), c').
Proof.
  intros [Hcc Hfc] Hc Hn Hg [t Et].
  pose proof (mo_segments c Hc _ g Hg) as Hs. pose proof Hs as [Hw Hi Hk].
  destruct (tombstone_entry _ _ _ Hs Et) as (l & e & Em & _ & _ & _ & Hv).
  unfold view in Hv. simpl in Hv, Em.
  destruct (remove_spec (D:=D) cfg Hcc Hfc (m_numDestroyTrackers c) now k None None (-1)
    None true true _ g Hw (Hk k) Hi ltac:(done))
    as (err & old & me & fnd & w' & g' & E & Hst & Hf & _ & Hno & H1 & _).
  cbn [st_world st_seg] in *.
  rewrite Em in Hf. specialize (Hno eq_refl ltac:(by right)). subst err fnd.
  destruct (H1 eq_refl) as (Hv' & Hold & _). rewrite Hv in Hold. subst old.
  destruct (onSegmentFor_ok k _ _ g _ c Hc Hg E Hst)
    as (c1 & E1 & Hc1 & (_ & Es & _) & _ & Hv1 & Hne).
  exists me, (set_size (m_size c1 + -1) c1). split_and!.
  - unfold em_remove. rewrite bind_get. by rewrite (bind_Ok _ _ _ _ _ E1).
  - intros k'. change (cview c1 k' = cview c k').
    destruct (decide (k' = k)) as [->|]; [|by apply Hne].
    rewrite Hv1. unfold view. simpl. rewrite Hv'. unfold cview. by rewrite Hg.
  - unfold em_size. rewrite bind_get. cbn [m_size set_size]. do 2 f_equal.
    rewrite Es, Hn. unfold u32, uwrap. by rewrite Zplus_mod_idemp_l.
Qed.
End Claims.

(** ** Witnesses: a map of three segments that performs the sample history *)

Import Sample.

Definition mapStart : EntriesMap Z Z :=
  match mapOpened 3 100 sampleEnv with
  | Ok c => c
  | _ => mkEntriesMap (st_world start) 0 [] 0 0
  end.

Definition mapFinish : EntriesMap Z Z :=
  foldl (λ c o, (mapExec (D:=Z) cfg 0 o.1 c).2) mapStart history.

Lemma mapStart_opened : mapOpened 3 100 sampleEnv = Ok mapStart.
Proof. reflexivity. Qed.

Lemma mapRuns_cons' (c : EntriesMap Z Z) i op err l c' :
  mapEnabled i op c → (mapExec (D:=Z) cfg i op c).1 = Ok err →
  mapRuns (D:=Z) cfg (mapExec (D:=Z) cfg i op c).2 l c' →
  mapRuns (D:=Z) cfg c ((op, err) :: l) c'.
Proof.
  intros He E. apply (mapRuns_cons _ _ i); [done|]. rewrite <- E.
  apply surjective_pairing.
Qed.

Lemma sample_mapEnabled i op (c : EntriesMap Z Z) :
  ve_memberList (w_env (em_world c)) = sampleMembers →
  match op with
  | OpPut k v _ | OpCreate k v _ => storable v ∧ smallEnough c k
  | OpExpire _ _ => False
  | OpRemove _ _ _ afterRemote => afterRemote = false
  | _ => True
  end →
  mapEnabled i op c.
Proof.
  intros El Hop.
  assert (∀ tag, tagOk (em_world c) tag) as Ht.
  { intros tag. apply tagOk_comparable. rewrite El. apply sampleMembers_comparable. }
  destruct op; simpl in *; try done; [naive_solver..|]. by split; [|rewrite Hop].
Qed.

Lemma sample_mapRuns : mapRuns (D:=Z) cfg mapStart history mapFinish.
Proof.
  unfold history, mapFinish. cbn [foldl fst].
  do 4 (apply (mapRuns_cons' _ 0);
    [apply sample_mapEnabled; [vm_compute; reflexivity|];
     first [reflexivity
           |split; [by split|]; intros g Hg; vm_compute in Hg; injection Hg as <-;
            vm_compute; reflexivity]
    |vm_compute; reflexivity|]).
  constructor.
Qed.

Lemma Ok_inj {A} (a b : A) : Ok a = Ok b → a = b.
Proof. by intros [=]. Qed.

Lemma sample_map_ok : map_ok mapFinish ∧ counted mapFinish.
Proof.
  destruct (mapOpened_ok (K:=Z) (O:=Z) 3 100 sampleEnv ltac:(lia) ltac:(lia))
    as (c & E & Hc & Hn & _).
  rewrite mapStart_opened in E. apply Ok_inj in E. rewrite <- E in Hc, Hn.
  destruct (mapRuns_simulate cfg mapStart history mapFinish sample_checked sample_mapRuns
    Hc Hn) as (H1 & H2 & _). split; [exact H1|exact H2].
Qed.

Lemma entries_map_opens_witness :
  ∃ c, mapOpened (K:=Z) (O:=Z) 16 5000 sampleEnv = Ok c ∧ 16 ≤ m_concurrency c.
Proof.
  destruct (entries_map_opens (K:=Z) (O:=Z) 16 5000 sampleEnv ltac:(lia) ltac:(lia))
    as (c & E & _ & _ & _ & H16 & _).
  exists c. split; [exact E|]. apply H16. lia.
Defined.



Lemma reap_keys_uncounted_witness :
  ∃ c', em_reapTombstones_keys [8] mapFinish = (Ok tt, c') ∧ cview c' 8 = None ∧
    em_size c' = (Ok 1, c').
Proof.
  destruct (reap_keys_uncounted [8] mapFinish (proj1 sample_map_ok))
    as (c' & E & _ & Hv & Hs).
  exists c'. split_and!; [exact E|by rewrite Hv|exact Hs].
Defined.

Lemma remove_tombstone_miscounts_witness :
  ∃ me c', em_remove (D:=Z) cfg 200 7 None None (-1) None true mapFinish =
      (Ok (GF_NOERR, None, me), c') ∧ em_size c' = (Ok 0, c') ∧
    cview c' 8 = Some (VObject 1).
Proof.
  destruct (m_segments mapFinish !! indexOf mapFinish 7) as [g|] eqn:Eg;
    [|vm_compute in Eg; discriminate].
  destruct (remove_tombstone_miscounts (D:=Z) cfg 200 7 g mapFinish)
    as (me & c' & E & Hv & Hs);
    [apply sample_checked|apply sample_map_ok|apply sample_map_ok|exact Eg| |].
  - vm_compute in Eg. injection Eg as <-. vm_compute. by eexists.
  - exists me, c'. split; [exact E|]. rewrite Hv. split; [|vm_compute; reflexivity].
    rewrite Hs. do 2 f_equal.
Defined.
