(* ===== verification/EventId.v ===== *)
(** * Event ids and the detection of duplicate notifications

    Models EventId.cpp/.hpp, EventSource.cpp, EventIdMap.cpp/.hpp and the part
    of ThinClientRedundancyManager.cpp that uses them ([checkDupAndAdd],
    [doPeriodicAck]): the ids a client thread gives its operations, their wire
    form, and the map from event sources to the last event received from them,
    with which a client drops events that redundant servers send twice.

    The clock is an argument ([now], microseconds).  [ACE::hash_pjw] only
    chooses buckets and does not appear; the map is a list of nodes, because
    its equality is not reflexive on sources without a member. *)

From S2P Require Import Prelude DataOutput DataInput Codec.

(** ** Event ids *)

Record EventId := mkEventId {
  m_eidMem : list Z;
  m_eidMemLen : Z;
  m_eidThr : Z;
  m_eidSeq : Z;
  m_bucketId : Z;
  m_breadcrumbCounter : Z
}.

(** The size of [m_eidMem]. *)
Definition EID_MEM_SIZE : Z := 512.

(** [memcpy(m_eidMem, src, ...)]: the bytes behind the copied ones stay. *)
Definition copyMem {S} (dst src : list Z) : M S (list Z) :=
  if Z.of_nat (length src) <=? EID_MEM_SIZE
  then ret (src ++ drop (length src) dst)
  else undefined.

(** [EventId(memId, memIdLen, thr, seq)]; [uninit] is what the array held. *)
Definition EventId_create (uninit memId : list Z) (memIdLen thr seq : Z)
    : outcome EventId :=
  if memIdLen <=? Z.of_nat (length memId) then
    match copyMem (S:=unit) uninit (take (Z.to_nat memIdLen) memId) tt with
    | (Ok mem, _) => Ok (mkEventId mem (i32 memIdLen) thr seq (-1) 0)
    | _ => UB
    end
  else UB.

(** The counters of a thread: [s_eidThrId] numbers the threads. *)
Record EventIdTSS := mkTSS { m_eidThrTSS : Z; m_eidSeqTSS : Z }.

Definition newEventIdTSS (s_eidThrId : Z) : EventIdTSS * Z :=
  (mkTSS (i64 (s_eidThrId + 1)) 0, i64 (s_eidThrId + 1)).

Definition getAndIncEidSeq : M EventIdTSS Z := λ t,
  if m_eidSeqTSS t + 1 <? 2 ^ 63
  then (Ok (m_eidSeqTSS t), mkTSS (m_eidThrTSS t) (m_eidSeqTSS t + 1))
  else (UB, t).

Definition getSeqNum (t : EventIdTSS) : Z := m_eidSeqTSS t - 1.

Fixpoint reserve (n : nat) : M EventIdTSS unit :=
  match n with
  | O => ret tt
  | S n' => getAndIncEidSeq ;! reserve n'
  end.

(** [EventId(doInit, reserveSize, fullValueAfterDeltaFail)] *)
Definition newEventId (uninit : list Z) (doInit : bool) (reserveSize : Z)
    (fullValueAfterDeltaFail : bool) : M EventIdTSS EventId :=
  let init thr seq := mkEventId uninit 0 thr seq (-1) 0 in
  if negb doInit then ret (init 0 0)
  else
    let! e :=
      if fullValueAfterDeltaFail then
        let! t := get in ret (init (m_eidThrTSS t) (getSeqNum t))
      else
        let! seq := getAndIncEidSeq in
        let! t := get in ret (init (m_eidThrTSS t) seq) in
    reserve (Z.to_nat reserveSize) ;!
    ret e.

Section Wire.
Context `{Allocator}.

Definition EventId_toData (e : EventId) : M DataOutput unit :=
  writeBytes (Some (m_eidMem e)) (m_eidMemLen e) ;!
  writeArrayLen 18 ;!
  write_u8 3 ;!
  writeInt_i64 (m_eidThr e) ;!
  write_u8 3 ;!
  writeInt_i64 (m_eidSeq e) ;!
  writeInt_i32 (m_bucketId e) ;!
  write_i8 (m_breadcrumbCounter e).

(** [writeIdsData] *)
Definition writeIdsData (e : EventId) : M DataOutput unit :=
  writeInt_i32 18 ;!
  write_u8 0 ;!
  write_u8 3 ;!
  writeInt_i64 (m_eidThr e) ;!
  write_u8 3 ;!
  writeInt_i64 (m_eidSeq e).
End Wire.

(** [getEventIdData]: a number in the width its code names. *)
Definition getEventIdData (numberCode : Z) : M DataInput Z :=
  if numberCode =? 0 then read_i8
  else if numberCode =? 1 then readInt_i16
  else if numberCode =? 2 then readInt_i32
  else if numberCode =? 3 then readInt_i64
  else ret 0.

(** [fromData]: the length becomes a [uint32_t] and nothing compares it with
    the size of the array. *)
Definition EventId_fromData (e : EventId) : M DataInput EventId :=
  let! eidMemLen := readArrayLen in
  let! bytes := readBytesOnly (u32 eidMemLen) in
  let! eidMem := copyMem (m_eidMem e) bytes in
  let! arrayLen := readArrayLen in
  let! numberCode := read_u8 in
  let! eidThr := getEventIdData (i8 numberCode) in
  let! numberCode := read_u8 in
  let! eidSeq := getEventIdData (i8 numberCode) in
  let! bucketId := readInt_i32 in
  let! breadcrumbCounter := read_i8 in
  ret (mkEventId eidMem eidMemLen eidThr eidSeq bucketId breadcrumbCounter).

(** ** Event sources *)

(** The bytes of an [int64_t] in the order of the machine, least significant
    first. *)
Fixpoint leBytes (n : nat) (v : Z) : list Z :=
  match n with
  | O => []
  | S n' => v mod 256 :: leBytes n' (v / 256)
  end.

Record EventSource := mkEventSource {
  m_srcId : option (list Z);
  m_srcIdLen : Z;
  m_thrId : Z
}.

(** [EventSource(memId, memIdLen, thrId)], with a [memId] that is not null. *)
Definition newEventSource (memId : list Z) (memIdLen thrId : Z)
    : outcome EventSource :=
  if memIdLen <=? 0 then Ok (mkEventSource None 0 (-1))
  else if memIdLen <=? Z.of_nat (length memId) then
    Ok (mkEventSource
          (Some (take (Z.to_nat memIdLen) memId ++ leBytes 8 (u64 thrId)))
          (i32 (memIdLen + 8)) thrId)
  else UB.

(** [operator==]: sources without a member are equal to nothing. *)
Definition srcEq (a b : EventSource) : bool :=
  match m_srcId a, m_srcId b with
  | Some x, Some y => (m_srcIdLen a =? m_srcIdLen b) && bool_decide (x = y)
  | _, _ => false
  end.

(** [getMemIdLen], in [size_t] and then [int32_t]. *)
Definition src_getMemIdLen (s : EventSource) : Z := i32 (m_srcIdLen s - 8).

(** ** The map of last events *)

Record EventSequence := mkEventSequence {
  m_seqNum : Z;
  m_acked : bool;
  m_deadline : Z
}.

Definition newEventSequence (now seqNum : Z) : EventSequence :=
  mkEventSequence seqNum false now.

Definition seq_touch (now ageSecs : Z) (v : EventSequence) : EventSequence :=
  mkEventSequence (m_seqNum v) (m_acked v) (now + ageSecs * 1000000).

Definition setAcked (b : bool) (v : EventSequence) : EventSequence :=
  mkEventSequence (m_seqNum v) b (m_deadline v).

(** [value <= entry] *)
Definition seq_le (a b : EventSequence) : bool := m_seqNum a <=? m_seqNum b.

Definition EventIdMapEntry : Type := EventSource * EventSequence.

Record EventIdMap := mkEventIdMap {
  m_expiry : Z;
  m_nodes : list EventIdMapEntry
}.

Definition set_nodes (l : list EventIdMapEntry) (m : EventIdMap) : EventIdMap :=
  mkEventIdMap (m_expiry m) l.

(** [std::unordered_map]: [find], [m_map[key] = value] and [erase]. *)
Fixpoint node_find (key : EventSource) (l : list EventIdMapEntry)
    : option EventSequence :=
  match l with
  | [] => None
  | (k, v) :: l' => if srcEq k key then Some v else node_find key l'
  end.

Fixpoint node_assign (key : EventSource) (value : EventSequence)
    (l : list EventIdMapEntry) : list EventIdMapEntry :=
  match l with
  | [] => [(key, value)]
  | (k, v) :: l' =>
      if srcEq k key then (k, value) :: l' else (k, v) :: node_assign key value l'
  end.

Definition node_erase (key : EventSource) (l : list EventIdMapEntry)
    : list EventIdMapEntry :=
  filter (λ n, srcEq n.1 key = false) l.

Definition eid_clear (m : EventIdMap) : EventIdMap := set_nodes [] m.

(** [EventIdMap::make] *)
Definition eid_make (now : Z) (eventid : EventId) : outcome EventIdMapEntry :=
  match newEventSource (m_eidMem eventid) (m_eidMemLen eventid) (m_eidThr eventid) with
  | Ok sid => Ok (sid, newEventSequence now (m_eidSeq eventid))
  | Throw e => Throw e
  | UB => UB
  end.

Definition isDuplicate (key : EventSource) (value : EventSequence) (m : EventIdMap)
    : bool :=
  match node_find key (m_nodes m) with
  | Some old => seq_le value old
  | None => false
  end.

Definition eid_put (now : Z) (key : EventSource) (value : EventSequence)
    (onlynew : bool) (m : EventIdMap) : bool * EventIdMap :=
  let value := seq_touch now (m_expiry m) value in
  match node_find key (m_nodes m) with
  | Some old =>
      if onlynew && seq_le value old then (false, m)
      else (true, set_nodes (node_assign key value (m_nodes m)) m)
  | None => (true, set_nodes (node_assign key value (m_nodes m)) m)
  end.

Definition eid_touch (now : Z) (key : EventSource) (m : EventIdMap)
    : bool * EventIdMap :=
  match node_find key (m_nodes m) with
  | Some v => (true, set_nodes (node_assign key (seq_touch now (m_expiry m) v)
                                  (m_nodes m)) m)
  | None => (false, m)
  end.

Definition eid_remove (key : EventSource) (m : EventIdMap) : bool * EventIdMap :=
  match node_find key (m_nodes m) with
  | Some _ => (true, set_nodes (node_erase key (m_nodes m)) m)
  | None => (false, m)
  end.

(** [getUnAcked]: the entries not yet acknowledged, whose flags it sets. *)
Definition getUnAcked (m : EventIdMap) : list EventIdMapEntry * EventIdMap :=
  ((λ n, (n.1, setAcked true n.2)) <$>
     filter (λ n : EventIdMapEntry, m_acked n.2 = false) (m_nodes m),
   set_nodes ((λ n, (n.1, setAcked true n.2)) <$> m_nodes m) m).

Definition clearAckedFlags (entries : list EventIdMapEntry) (m : EventIdMap)
    : Z * EventIdMap :=
  foldl (λ r item,
    match node_find item.1 (m_nodes r.2) with
    | Some v => (u32 (r.1 + 1),
                 set_nodes (node_assign item.1 (setAcked false v) (m_nodes r.2)) r.2)
    | None => r
    end) (0, m) entries.

(** [expire]: the number of entries whose deadline has passed. *)
Definition eid_expire (now : Z) (onlyacked : bool) (m : EventIdMap)
    : Z * EventIdMap :=
  let entries := filter (λ n : EventIdMapEntry,
    negb (onlyacked && negb (m_acked n.2)) && (m_deadline n.2 <? now) = true)
    (m_nodes m) in
  (u32 (Z.of_nat (length entries)),
   foldl (λ m e, set_nodes (node_erase e.1 (m_nodes m)) m) m entries).

(** ** The redundancy manager *)

Record Redundancy := mkRedundancy {
  m_eventidmap : EventIdMap;
  m_nextAck : Z;
  m_nextAckInc : Z;
  m_HAenabled : bool
}.

Definition set_eventidmap (m : EventIdMap) (r : Redundancy) : Redundancy :=
  mkRedundancy m (m_nextAck r) (m_nextAckInc r) (m_HAenabled r).

(** [checkDupAndAdd]: true when the event is new. *)
Definition checkDupAndAdd (now : Z) (eventid : EventId) : M Redundancy bool := λ r,
  match eid_make now eventid with
  | Ok (key, value) =>
      let (b, m) := eid_put now key value true (m_eventidmap r) in
      (Ok b, set_eventidmap m r)
  | Throw e => (Throw e, r)
  | UB => (UB, r)
  end.

(** The three critical sections of [doPeriodicAck]: collecting what to
    acknowledge, handling the reply ([acked]), and expiring. *)
Definition ackBegin (now : Z) (r : Redundancy)
    : option (list EventIdMapEntry) * Redundancy :=
  if m_HAenabled r && (m_nextAck r <? now) then
    let (entries, m) := getUnAcked (m_eventidmap r) in
    (Some entries, mkRedundancy m (m_nextAck r + m_nextAckInc r) (m_nextAckInc r)
                     (m_HAenabled r))
  else (None, r).

Definition ackEnd (entries : list EventIdMapEntry) (acked : bool) (r : Redundancy)
    : Redundancy :=
  if (0 <? Z.of_nat (length entries)) && negb acked
  then set_eventidmap (clearAckedFlags entries (m_eventidmap r)).2 r
  else r.

Definition ackExpire (now : Z) (r : Redundancy) : Redundancy :=
  set_eventidmap (eid_expire now (m_HAenabled r) (m_eventidmap r)).2 r.

(** [doPeriodicAck] without interference; [reply] is the server's answer to
    the message with the entries. *)
Definition doPeriodicAck (now : Z) (reply : list EventIdMapEntry → bool)
    (r : Redundancy) : Redundancy :=
  match ackBegin now r with
  | (Some entries, r1) => ackExpire now (ackEnd entries (reply entries) r1)
  | (None, r1) => ackExpire now r1
  end.
