(* ===== verification/EventIdProps.v ===== *)
(** * Properties of event ids and of duplicate detection *)

From S2P Require Import Prelude DataOutput DataInput Codec SerializationProps EventId.

(** ** Sources *)

Lemma length_leBytes n v : length (leBytes n v) = n.
Proof. revert v. induction n; intros; simpl; [done|]. by rewrite IHn. Qed.

Lemma leBytes_inj n v w :
  in_u (8 * Z.of_nat n) v → in_u (8 * Z.of_nat n) w →
  leBytes n v = leBytes n w → v = w.
Proof.
  revert v w. induction n as [|n IH]; intros v w Hv Hw; simpl.
  { unfold in_u in *. simpl in *. lia. }
  intros [= E1 E2]. apply IH in E2.
  - rewrite (Z.div_mod v 256), (Z.div_mod w 256) by lia. by rewrite E1, E2.
  - replace (8 * Z.of_nat n) with (8 * Z.of_nat (S n) - 8) by lia.
    apply in_u_div; [lia|done].
  - replace (8 * Z.of_nat n) with (8 * Z.of_nat (S n) - 8) by lia.
    apply in_u_div; [lia|done].
Qed.

(** The length of a source is that of its bytes, so that equality compares the
    bytes. *)
Definition src_wf (s : EventSource) : Prop :=
  ∀ x, m_srcId s = Some x → m_srcIdLen s = i32 (Z.of_nat (length x)).

Lemma newEventSource_wf memId len thr s :
  newEventSource memId len thr = Ok s → src_wf s.
Proof.
  unfold newEventSource. destruct (Z.leb_spec len 0); [by intros [= <-] x|].
  destruct (Z.leb_spec len (Z.of_nat (length memId))); [|done].
  pose proof (length_leBytes 8 (u64 thr)) as Hb.
  set (b := leBytes 8 (u64 thr)) in *. clearbody b.
  intros [= <-] x [= <-]. simpl m_srcIdLen. f_equal.
  rewrite length_app, Hb, length_take. lia.
Qed.

Lemma srcEq_true a b :
  src_wf a → src_wf b →
  srcEq a b = true ↔ is_Some (m_srcId a) ∧ m_srcId a = m_srcId b.
Proof.
  intros Ha Hb. unfold srcEq. destruct (m_srcId a) as [x|] eqn:Ea.
  2: { split; [done|]. by intros [[] _]. }
  destruct (m_srcId b) as [y|] eqn:Eb; [|split; [done|by intros [_ ?]]].
  rewrite (Ha x Ea), (Hb y Eb), andb_true_iff, Z.eqb_eq, bool_decide_eq_true.
  split; [intros [_ ->]; split; [by eexists|done]|].
  intros [_ [= ->]]. done.
Qed.

(** ** The nodes of the map *)

Implicit Type l : list EventIdMapEntry.

(** The last event of the source with the bytes [x]. *)
Fixpoint seqOf (x : list Z) (l : list EventIdMapEntry) : option EventSequence :=
  match l with
  | [] => None
  | (k, v) :: l' => if bool_decide (m_srcId k = Some x) then Some v else seqOf x l'
  end.

Record nodes_wf (l : list EventIdMapEntry) : Prop := {
  nw_src : Forall (λ n, src_wf n.1) l;
  nw_unique : NoDup (omap (λ n, m_srcId n.1) l)
}.

Lemma seqOf_Some x l v :
  seqOf x l = Some v → ∃ k, (k, v) ∈ l ∧ m_srcId k = Some x.
Proof.
  induction l as [|[k w] l IH]; simpl; [done|]. case_bool_decide as E.
  - intros [= ->]. exists k. split; [by left|done].
  - intros (k' & ? & ?)%IH. exists k'. split; [by right|done].
Qed.

Lemma elem_of_sources x l :
  x ∈ omap (λ n : EventIdMapEntry, m_srcId n.1) l ↔ ∃ k v, (k, v) ∈ l ∧ m_srcId k = Some x.
Proof.
  rewrite list_elem_of_omap. split; [intros ([k v] & ? & ?)|intros (k & v & ? & ?)]; eauto.
Qed.

Lemma nodes_wf_cons k v l :
  nodes_wf ((k, v) :: l) ↔
  src_wf k ∧ nodes_wf l ∧ ∀ x k' v', m_srcId k = Some x → (k', v') ∈ l → m_srcId k' ≠ Some x.
Proof.
  split.
  - intros [Hs Hn]. apply Forall_cons in Hs as [Hk Hs]. simpl in *.
    destruct (m_srcId k) as [x|] eqn:Ek.
    + apply NoDup_cons in Hn as [Hx Hn]. split_and!; [done|by split|].
      intros ? k' v' [= <-] Hin E. apply Hx, elem_of_sources. eauto.
    + split_and!; [done|by split|done].
  - intros (Hk & [Hs Hn] & Hx). split; [by constructor|]. simpl in *.
    destruct (m_srcId k) as [x|] eqn:Ek; [|done]. constructor; [|done].
    intros (k' & v' & Hin & E)%elem_of_sources. by eapply Hx.
Qed.

Lemma seqOf_elem x l k v :
  nodes_wf l → (k, v) ∈ l → m_srcId k = Some x → seqOf x l = Some v.
Proof.
  induction l as [|[k' v'] l IH]; [by intros _ ?%not_elem_of_nil|].
  intros (_ & Hl & Hx)%nodes_wf_cons Hin E. simpl.
  apply elem_of_cons in Hin as [[= <- <-]|Hin].
  - by rewrite bool_decide_eq_true_2.
  - rewrite bool_decide_eq_false_2; [by apply IH|]. intros E'. by eapply Hx.
Qed.

Lemma node_find_seqOf key l :
  src_wf key → nodes_wf l →
  node_find key l = match m_srcId key with Some x => seqOf x l | None => None end.
Proof.
  intros Hkey. induction l as [|[k v] l IH]; [by destruct (m_srcId key)|].
  intros (Hk & Hl & _)%nodes_wf_cons. simpl. rewrite (IH Hl).
  pose proof (srcEq_true k key Hk Hkey) as He. destruct (m_srcId key) as [x|].
  - case_bool_decide as Ek.
    + rewrite (proj2 He); [done|]. rewrite Ek. split; [by eexists|done].
    + destruct (srcEq k key); [|done]. by destruct (proj1 He eq_refl).
  - destruct (srcEq k key); [|done]. by destruct (proj1 He eq_refl) as [[? ?] ?]; simplify_eq.
Qed.

Lemma elem_of_node_assign key v l k w :
  (k, w) ∈ node_assign key v l → (k = key ∨ ∃ w', (k, w') ∈ l).
Proof.
  induction l as [|[k' w'] l IH]; simpl.
  - intros [= -> ->]%list_elem_of_singleton. by left.
  - destruct (srcEq k' key); intros [[= -> ->]|Hin]%elem_of_cons.
    + right. exists w'. by left.
    + right. exists w. by right.
    + right. exists w'. by left.
    + apply IH in Hin as [->|[w'' ?]]; [by left|right]. exists w''. by right.
Qed.

Lemma node_assign_spec key v l :
  src_wf key → nodes_wf l →
  nodes_wf (node_assign key v l) ∧
  ∀ y, seqOf y (node_assign key v l) =
       if bool_decide (m_srcId key = Some y) then Some v else seqOf y l.
Proof.
  intros Hkey. induction l as [|[k w] l IH].
  { intros _. split; [|done]. apply nodes_wf_cons. split_and!; [done| |].
    - split; constructor.
    - by intros ? ? ? _ ?%not_elem_of_nil. }
  intros (Hk & Hl & Hx)%nodes_wf_cons. destruct (IH Hl) as [Hwf Hseq]. simpl.
  pose proof (srcEq_true k key Hk Hkey) as He.
  destruct (srcEq k key) eqn:E.
  - destruct (proj1 He eq_refl) as [_ Ek]. split; [by apply nodes_wf_cons|].
    intros y. simpl. rewrite Ek. by case_bool_decide.
  - split.
    + apply nodes_wf_cons. split_and!; [done|done|]. intros x k' v' Ek Hin E'.
      apply elem_of_node_assign in Hin as [->|[w' Hin]]; [|by eapply Hx].
      assert (false = true) by (apply He; rewrite Ek, E'; split; [by eexists|done]). done.
    + intros y. simpl. rewrite Hseq. do 2 case_bool_decide; try done.
      assert (false = true); [|done]. apply He. split; [by eexists|congruence].
Qed.

Lemma elem_of_node_erase key l n :
  n ∈ node_erase key l ↔ n ∈ l ∧ srcEq n.1 key = false.
Proof. unfold node_erase. rewrite list_elem_of_filter. naive_solver. Qed.

Lemma node_erase_spec key l :
  src_wf key → nodes_wf l →
  nodes_wf (node_erase key l) ∧
  ∀ y, seqOf y (node_erase key l) =
       if bool_decide (m_srcId key = Some y) then None else seqOf y l.
Proof.
  intros Hkey. induction l as [|[k w] l IH].
  { intros _. split; [split; constructor|]. intros y. by case_bool_decide. }
  intros (Hk & Hl & Hx)%nodes_wf_cons. destruct (IH Hl) as [Hwf Hseq].
  pose proof (srcEq_true k key Hk Hkey) as He.
  unfold node_erase. rewrite filter_cons. simpl. case_decide as E.
  - fold (node_erase key l). split.
    + apply nodes_wf_cons. split_and!; [done|done|].
      intros x k' v' Ek [Hin _]%elem_of_node_erase. by eapply Hx.
    + intros y. simpl. rewrite Hseq. do 2 case_bool_decide; try done.
      rewrite E in He. assert (false = true); [|done]. apply He.
      split; [by eexists|congruence].
  - fold (node_erase key l). split; [done|]. intros y. rewrite Hseq.
    destruct (srcEq k key); [|done]. destruct (proj1 He eq_refl) as [_ Ek].
    simpl. rewrite Ek. by case_bool_decide.
Qed.

Definition sources l : list (list Z) := omap (λ n : EventIdMapEntry, m_srcId n.1) l.

Arguments sources : simpl never.

Lemma elem_of_sources_cons x k v l :
  x ∈ sources ((k, v) :: l) ↔ m_srcId k = Some x ∨ x ∈ sources l.
Proof.
  unfold sources. simpl. destruct (m_srcId k) as [y|]; [rewrite elem_of_cons|]; naive_solver.
Qed.

Lemma nodes_wf_fmap (f : EventSequence → EventSequence) l :
  nodes_wf l →
  nodes_wf ((λ n, (n.1, f n.2)) <$> l) ∧
  ∀ x, seqOf x ((λ n, (n.1, f n.2)) <$> l) = f <$> seqOf x l.
Proof.
  induction l as [|[k v] l IH]; intros Hl; [by split|].
  apply nodes_wf_cons in Hl as (Hk & Hl & Hx). destruct (IH Hl) as [Hwf Hseq].
  rewrite fmap_cons. simpl. split.
  - apply nodes_wf_cons. split_and!; [done|done|]. intros x k' v' Ek Hin.
    apply list_elem_of_fmap in Hin as ([k0 v0] & [= -> ->] & Hin). by eapply Hx.
  - intros x. rewrite Hseq. by case_bool_decide.
Qed.

Lemma nodes_wf_src l k v : nodes_wf l → (k, v) ∈ l → src_wf k.
Proof. intros [Hs _] Hin. exact (proj1 (Forall_forall _ _) Hs (k, v) Hin). Qed.

Lemma getUnAcked_spec m :
  nodes_wf (m_nodes m) →
  let (es, m') := getUnAcked m in
  nodes_wf (m_nodes m') ∧ Forall (λ n, src_wf n.1) es ∧
  (∀ x, seqOf x (m_nodes m') = setAcked true <$> seqOf x (m_nodes m)) ∧
  ∀ x v, seqOf x (m_nodes m) = Some v → m_acked v = false →
    ∃ k, (k, setAcked true v) ∈ es ∧ m_srcId k = Some x.
Proof.
  intros Hm. simpl. destruct (nodes_wf_fmap (setAcked true) _ Hm) as [Hwf Hseq].
  split_and!; [done| |done|].
  - apply Forall_fmap, Forall_forall. intros [k v] [_ Hin]%list_elem_of_filter.
    by apply (nodes_wf_src (m_nodes m) k v).
  - intros x v E Ha. apply seqOf_Some in E as (k & Hin & Ek). exists k. split; [|done].
    apply list_elem_of_fmap. exists (k, v). split; [done|].
    by apply list_elem_of_filter.
Qed.

Lemma clearAcked_spec es m :
  nodes_wf (m_nodes m) → Forall (λ n, src_wf n.1) es →
  let m' := (clearAckedFlags es m).2 in
  nodes_wf (m_nodes m') ∧
  ∀ x, seqOf x (m_nodes m') =
       if decide (x ∈ sources es) then setAcked false <$> seqOf x (m_nodes m)
       else seqOf x (m_nodes m).
Proof.
  unfold clearAckedFlags. generalize 0. revert m.
  induction es as [|[k v] es IH]; intros m n Hm Hes; [by split|].
  apply Forall_cons in Hes as [Hk Hes]. simpl in *.
  rewrite (node_find_seqOf k _ Hk Hm).
  destruct (m_srcId k) as [x|] eqn:Ek.
  2: { destruct (IH m n Hm Hes) as [Hwf Hseq]. split; [done|]. intros y. rewrite Hseq.
       apply decide_ext. rewrite elem_of_sources_cons, Ek. naive_solver. }
  destruct (seqOf x (m_nodes m)) as [w|] eqn:Ew.
  - destruct (node_assign_spec k (setAcked false w) _ Hk Hm) as [Hm1 Hs1].
    destruct (IH (set_nodes (node_assign k (setAcked false w) (m_nodes m)) m)
      (u32 (n + 1)) Hm1 Hes) as [Hwf Hseq].
    split; [done|]. intros y. rewrite Hseq. simpl. rewrite Hs1, Ek.
    destruct (decide (y = x)) as [->|Hne].
    + rewrite bool_decide_eq_true_2, Ew by done.
      rewrite (decide_True (P:=x ∈ sources ((k, v) :: es)))
        by (apply elem_of_sources_cons; by left).
      by destruct (decide (x ∈ sources es)).
    + rewrite bool_decide_eq_false_2 by congruence. apply decide_ext.
      rewrite elem_of_sources_cons, Ek. naive_solver.
  - destruct (IH m n Hm Hes) as [Hwf Hseq]. split; [done|]. intros y. rewrite Hseq.
    destruct (decide (y = x)) as [->|Hne].
    + rewrite Ew. by destruct (decide (x ∈ sources es)),
        (decide (x ∈ sources ((k, v) :: es))).
    + apply decide_ext. rewrite elem_of_sources_cons, Ek. naive_solver.
Qed.

(** Whether [expire] drops an entry. *)
Definition overdue (now : Z) (onlyacked : bool) (v : EventSequence) : bool :=
  negb (onlyacked && negb (m_acked v)) && (m_deadline v <? now).

Lemma eraseAll_spec es m :
  nodes_wf (m_nodes m) → Forall (λ n : EventIdMapEntry, src_wf n.1) es →
  let m' := foldl (λ m e, set_nodes (node_erase e.1 (m_nodes m)) m) m es in
  nodes_wf (m_nodes m') ∧ m_expiry m' = m_expiry m ∧
  ∀ x, seqOf x (m_nodes m') =
       if decide (x ∈ sources es) then None else seqOf x (m_nodes m).
Proof.
  revert m. induction es as [|[k v] es IH]; intros m Hm Hes; [by split|].
  apply Forall_cons in Hes as [Hk Hes]. simpl.
  destruct (node_erase_spec k _ Hk Hm) as [Hm1 Hs1].
  destruct (IH (set_nodes (node_erase k (m_nodes m)) m) Hm1 Hes) as (Hwf & He & Hseq).
  split; [done|]. split; [done|]. intros y. rewrite Hseq. simpl. rewrite Hs1.
  case_bool_decide as Ek.
  - rewrite (decide_True (P:=y ∈ sources ((k, v) :: es)))
      by (apply elem_of_sources_cons; by left).
    by destruct (decide (y ∈ sources es)).
  - apply decide_ext. rewrite elem_of_sources_cons. naive_solver.
Qed.

Lemma expire_spec now onlyacked m :
  nodes_wf (m_nodes m) →
  let m' := (eid_expire now onlyacked m).2 in
  nodes_wf (m_nodes m') ∧
  ∀ x, seqOf x (m_nodes m') =
       match seqOf x (m_nodes m) with
       | Some v => if overdue now onlyacked v then None else Some v
       | None => None
       end.
Proof.
  intros Hm. unfold eid_expire. simpl. set (es := filter _ _).
  assert (∀ k v, (k, v) ∈ es ↔ overdue now onlyacked v = true ∧ (k, v) ∈ m_nodes m) as Hes.
  { intros k v. unfold es. by rewrite list_elem_of_filter. }
  destruct (eraseAll_spec es m Hm) as (Hwf & _ & Hseq).
  { apply Forall_forall. intros [k v] [_ Hin]%Hes.
    by apply (nodes_wf_src (m_nodes m) k v). }
  split; [done|]. intros x. rewrite Hseq. case_decide as Hin.
  - apply elem_of_sources in Hin as (k & v & [Ho Hin]%Hes & Ek).
    by rewrite (seqOf_elem x _ k v Hm Hin Ek), Ho.
  - destruct (seqOf x (m_nodes m)) as [v|] eqn:E; [|done].
    destruct (overdue now onlyacked v) eqn:Ho; [|done].
    exfalso. apply Hin, elem_of_sources. apply seqOf_Some in E as (k & Hk & Ek).
    exists k, v. split; [by apply Hes|done].
Qed.

(** ** The receiver of notifications, interleaved with the acknowledger

    Notifications arrive at any time; the one acknowledging thread goes through
    the critical sections of [doPeriodicAck].  A ghost log records which events
    were delivered, which ones a server confirmed the acknowledgement of, and
    which ones were the last of their source when the source was expired. *)

Definition eventKey : Type := list Z * Z.

Definition idOf (n : EventIdMapEntry) : option eventKey :=
  (λ x, (x, m_seqNum n.2)) <$> m_srcId n.1.

Record ackLog := mkAckLog {
  delivered : list eventKey;
  confirmed : list eventKey;
  forgotten : list eventKey
}.

Inductive ackPhase : Type :=
  | AckIdle
  | AckWaiting (entries : list EventIdMapEntry)
  | AckExpiring.

Definition ackState : Type := Redundancy * ackPhase * ackLog.

Definition logDelivery (now : Z) (eid : EventId) (b : bool) (g : ackLog) : ackLog :=
  match eid_make now eid with
  | Ok n => if b then mkAckLog (option_list (idOf n) ++ delivered g) (confirmed g) (forgotten g)
            else g
  | _ => g
  end.

Definition logReply (es : list EventIdMapEntry) (ok : bool) (g : ackLog) : ackLog :=
  if ok then mkAckLog (delivered g) (omap idOf es ++ confirmed g) (forgotten g) else g.

Definition logExpiry (now : Z) (r : Redundancy) (g : ackLog) : ackLog :=
  mkAckLog (delivered g) (confirmed g)
    (omap idOf (filter (λ n : EventIdMapEntry, overdue now (m_HAenabled r) n.2 = true)
                  (m_nodes (m_eventidmap r))) ++ forgotten g).

Inductive ackStep : ackState → ackState → Prop :=
  | step_notify now eid b r r' ph g :
      checkDupAndAdd now eid r = (Ok b, r') →
      ackStep (r, ph, g) (r', ph, logDelivery now eid b g)
  | step_begin now es r r' g :
      ackBegin now r = (Some es, r') →
      ackStep (r, AckIdle, g) (r', AckWaiting es, g)
  | step_skip now r g :
      (ackBegin now r).1 = None →
      ackStep (r, AckIdle, g) (r, AckExpiring, g)
  | step_reply es ok r g :
      ackStep (r, AckWaiting es, g) (ackEnd es ok r, AckExpiring, logReply es ok g)
  | step_expire now r g :
      ackStep (r, AckExpiring, g) (ackExpire now r, AckIdle, logExpiry now r g).

(** A manager that has received nothing. *)
Definition ackInitial (expiry nextAck nextAckInc : Z) (ha : bool) : ackState :=
  (mkRedundancy (mkEventIdMap expiry []) nextAck nextAckInc ha, AckIdle,
   mkAckLog [] [] []).

Definition ackReachable (s : ackState) : Prop :=
  ∃ expiry nextAck inc ha, rtc ackStep (ackInitial expiry nextAck inc ha) s.

Definition lastOf (r : Redundancy) (x : list Z) : option EventSequence :=
  seqOf x (m_nodes (m_eventidmap r)).

Definition pending (ph : ackPhase) (e : eventKey) : Prop :=
  match ph with AckWaiting es => e ∈ omap idOf es | _ => False end.

Record ackInv (r : Redundancy) (ph : ackPhase) (g : ackLog) : Prop := {
  ai_nodes : nodes_wf (m_nodes (m_eventidmap r));
  ai_last x v : lastOf r x = Some v → (x, m_seqNum v) ∈ delivered g;
  ai_delivered x q : (x, q) ∈ delivered g →
    (∃ v, lastOf r x = Some v ∧ q ≤ m_seqNum v) ∨
    ∃ f, q ≤ f ∧ (x, f) ∈ forgotten g;
  ai_acked x v : lastOf r x = Some v → m_acked v = true →
    (x, m_seqNum v) ∈ confirmed g ∨ pending ph (x, m_seqNum v);
  ai_forgotten : m_HAenabled r = true → forgotten g ⊆ confirmed g;
  ai_entries es : ph = AckWaiting es → Forall (λ n, src_wf n.1) es
}.

Lemma elem_of_ids x q l :
  (x, q) ∈ omap idOf l ↔ ∃ k v, (k, v) ∈ l ∧ m_srcId k = Some x ∧ m_seqNum v = q.
Proof.
  rewrite list_elem_of_omap. unfold idOf. split.
  - intros ([k v] & Hin & E). simpl in E. destruct (m_srcId k) as [y|] eqn:Ek; [|done].
    injection E as <- <-. by exists k, v.
  - intros (k & v & Hin & Ek & <-). exists (k, v). split; [done|]. simpl. by rewrite Ek.
Qed.

(** [put] of the event [eid] into well-formed nodes. *)
Lemma checkDupAndAdd_spec now eid r b r' :
  nodes_wf (m_nodes (m_eventidmap r)) →
  checkDupAndAdd now eid r = (Ok b, r') →
  ∃ k, eid_make now eid = Ok (k, newEventSequence now (m_eidSeq eid)) ∧ src_wf k ∧
    nodes_wf (m_nodes (m_eventidmap r')) ∧ m_HAenabled r' = m_HAenabled r ∧
    b = match m_srcId k with
        | Some x => match lastOf r x with
                    | Some v => m_seqNum v <? m_eidSeq eid
                    | None => true
                    end
        | None => true
        end ∧
    ∀ y, lastOf r' y =
      if b && bool_decide (m_srcId k = Some y)
      then Some (seq_touch now (m_expiry (m_eventidmap r))
                   (newEventSequence now (m_eidSeq eid)))
      else lastOf r y.
Proof.
  intros Hwf. unfold checkDupAndAdd, eid_make, lastOf.
  destruct (newEventSource _ _ _) as [k| |] eqn:Ek; [|done..].
  apply newEventSource_wf in Ek. intros E. exists k.
  destruct (node_assign_spec k (seq_touch now (m_expiry (m_eventidmap r))
    (newEventSequence now (m_eidSeq eid))) _ Ek Hwf) as [Hwf' Hseq].
  unfold eid_put in E. rewrite (node_find_seqOf k _ Ek Hwf) in E.
  destruct (m_srcId k) as [x|] eqn:Ex.
  - destruct (seqOf x (m_nodes (m_eventidmap r))) as [v|] eqn:Ev.
    + unfold seq_le in E. simpl in E.
      destruct (Z.leb_spec (m_eidSeq eid) (m_seqNum v)) as [Hle|Hlt]; injection E as <- <-.
      * rewrite (proj2 (Z.ltb_ge _ _)) by done. by split_and!.
      * rewrite (proj2 (Z.ltb_lt _ _)) by done. by split_and!.
    + injection E as <- <-. by split_and!.
  - injection E as <- <-. by split_and!.
Qed.

Lemma ackInv_notify now eid b r r' ph g :
  ackInv r ph g → checkDupAndAdd now eid r = (Ok b, r') →
  ackInv r' ph (logDelivery now eid b g).
Proof.
  intros [Hwf Hlast Hdel Hack Hfor Hes] Hc.
  destruct (checkDupAndAdd_spec _ _ _ _ _ Hwf Hc) as (k & Hm & Hk & Hwf' & HHA & Hb & Hr').
  unfold logDelivery. rewrite Hm. destruct b; simpl in Hr'.
  2: { split; [done|..]; intros *; rewrite ?Hr', ?HHA; eauto. }
  split; simpl; [done|..|by rewrite HHA|done].
  - intros x v. rewrite Hr'. unfold idOf. simpl. case_bool_decide as E.
    + intros [= <-]. rewrite E. simpl. by left.
    + intros Hv%Hlast. by apply elem_of_app; right.
  - intros x q Hin. rewrite Hr'. apply elem_of_app in Hin as [Hin|Hin].
    + unfold idOf in Hin. simpl in Hin. destruct (m_srcId k) as [y|]; [|by apply elem_of_nil in Hin].
      apply list_elem_of_singleton in Hin as [= -> ->].
      rewrite bool_decide_eq_true_2 by done. left. eexists. split; [done|]. simpl. lia.
    + destruct (Hdel _ _ Hin) as [(v & Ev & Hq)|Hf]; [|by right].
      case_bool_decide as E; [|left; by exists v].
      left. eexists. split; [done|]. simpl. rewrite E, Ev in Hb. lia.
  - intros x v. rewrite Hr'. case_bool_decide as E; [by intros [= <-]|]. apply Hack.
Qed.

Lemma ackInv_begin now es r r' g :
  ackInv r AckIdle g → ackBegin now r = (Some es, r') → ackInv r' (AckWaiting es) g.
Proof.
  intros [Hwf Hlast Hdel Hack Hfor Hes]. unfold ackBegin.
  destruct (m_HAenabled r && _); [|done].
  pose proof (getUnAcked_spec _ Hwf) as Hu.
  destruct (getUnAcked (m_eventidmap r)) as [es' m']. intros [= -> <-].
  destruct Hu as (Hwf' & Hsrc & Hseq & Hes'). unfold lastOf in *.
  split; simpl; [done|..|done|by intros ? [= <-]].
  - intros x v E. unfold lastOf in E. simpl in E. rewrite Hseq in E.
    apply fmap_Some in E as (w & Ew & ->). exact (Hlast x w Ew).
  - intros x q [(v & Ev & Hq)|Hf]%Hdel; [left|by right].
    exists (setAcked true v). unfold lastOf. simpl. by rewrite Hseq, Ev.
  - intros x v E _. unfold lastOf in E. simpl in E. rewrite Hseq in E.
    apply fmap_Some in E as (w & Ew & ->). simpl.
    destruct (m_acked w) eqn:Ha.
    + left. by destruct (Hack x w Ew Ha).
    + right. destruct (Hes' x w Ew Ha) as (k & Hin & Ek).
      apply elem_of_ids. by exists k, (setAcked true w).
Qed.

(** Clearing flags changes neither the sequence numbers nor the sources. *)
Lemma ackEnd_spec (es : list EventIdMapEntry) ok r :
  nodes_wf (m_nodes (m_eventidmap r)) → Forall (λ n : EventIdMapEntry, src_wf n.1) es →
  nodes_wf (m_nodes (m_eventidmap (ackEnd es ok r))) ∧
  m_HAenabled (ackEnd es ok r) = m_HAenabled r ∧
  ∀ x, lastOf (ackEnd es ok r) x =
    if negb ok && bool_decide (x ∈ sources es) then setAcked false <$> lastOf r x
    else lastOf r x.
Proof.
  intros Hwf Hes. unfold ackEnd. destruct ok; [rewrite andb_false_r; done|].
  destruct (Z.ltb_spec 0 (Z.of_nat (length es))) as [Hl|Hl]; simpl.
  - destruct (clearAcked_spec es _ Hwf Hes) as [Hwf' Hseq]. split; [exact Hwf'|].
    split; [reflexivity|].
    intros x. unfold lastOf. simpl. rewrite Hseq. by case_bool_decide; case_decide.
  - destruct es; [|simpl in Hl; lia]. split; [done|]. split; [done|]. intros x.
    by rewrite bool_decide_eq_false_2 by (unfold sources; apply not_elem_of_nil).
Qed.

Lemma ids_sources x q es : (x, q) ∈ omap idOf es → x ∈ sources es.
Proof. intros (k & v & Hin & Ek & _)%elem_of_ids. apply elem_of_sources. eauto. Qed.

Lemma ackInv_reply es ok r g :
  ackInv r (AckWaiting es) g → ackInv (ackEnd es ok r) AckExpiring (logReply es ok g).
Proof.
  intros [Hwf Hlast Hdel Hack Hfor Hes]. specialize (Hes es eq_refl).
  destruct (ackEnd_spec es ok r Hwf Hes) as (Hwf' & HHA & Hr'). destruct ok; simpl in Hr'.
  - split; simpl; [done|..|done].
    + intros x v. rewrite Hr'. apply Hlast.
    + intros x q. rewrite Hr'. apply Hdel.
    + intros x v. rewrite Hr'. intros Hv Ha. left. apply elem_of_app.
      destruct (Hack x v Hv Ha); auto.
    + rewrite HHA. intros Hha e Hin. apply elem_of_app. right. by apply Hfor.
  - split; simpl; [done|..|by rewrite HHA|done].
    + intros x v. rewrite Hr'. case_bool_decide; [|apply Hlast].
      intros (w & Ew & ->)%fmap_Some. exact (Hlast x w Ew).
    + intros x q [(v & Ev & Hq)|Hf]%Hdel; [left|by right]. rewrite Hr', Ev.
      case_bool_decide; eexists; by split.
    + intros x v. rewrite Hr'. case_bool_decide as Hin; intros Hv Ha.
      * by apply fmap_Some in Hv as (w & _ & ->).
      * destruct (Hack x v Hv Ha) as [?|Hp]; [by left|]. by apply ids_sources in Hp.
Qed.

Lemma ackInv_expire now r g :
  ackInv r AckExpiring g → ackInv (ackExpire now r) AckIdle (logExpiry now r g).
Proof.
  intros [Hwf Hlast Hdel Hack Hfor Hes].
  destruct (expire_spec now (m_HAenabled r) _ Hwf) as [Hwf' Hseq].
  assert (∀ x, lastOf (ackExpire now r) x = match lastOf r x with
       | Some v => if overdue now (m_HAenabled r) v then None else Some v
       | None => None end) as Hr' by exact Hseq.
  assert (∀ x v, lastOf (ackExpire now r) x = Some v → lastOf r x = Some v) as Hsub.
  { intros x v. rewrite Hr'. destruct (lastOf r x) as [w|]; [|done].
    by destruct (overdue now (m_HAenabled r) w). }
  split; [done|..|done].
  - intros x v Hv%Hsub. by apply Hlast.
  - intros x q [(v & Ev & Hq)|(f & ? & Hf)]%Hdel.
    + destruct (overdue now (m_HAenabled r) v) eqn:Ho.
      * right. exists (m_seqNum v). split; [done|]. apply elem_of_app. left.
        apply elem_of_ids. apply seqOf_Some in Ev as (k & Hin & Ek). exists k, v.
        split_and!; [by apply list_elem_of_filter|done..].
      * left. exists v. by rewrite Hr', Ev, Ho.
    + right. exists f. split; [done|]. by apply elem_of_app; right.
  - intros x v Hv%Hsub Ha. by destruct (Hack x v Hv Ha); [left|].
  - simpl. intros HHA [x q] [Hin|Hin]%elem_of_app; [|by apply Hfor].
    apply elem_of_ids in Hin as (k & v & [Ho Hin]%list_elem_of_filter & Ek & <-).
    simpl in Ho. pose proof (seqOf_elem x _ k v Hwf Hin Ek) as Ev.
    unfold overdue in Ho. rewrite HHA in Ho. simpl in Ho.
    destruct (m_acked v) eqn:Ha; [|done]. by destruct (Hack x v Ev Ha).
Qed.

Lemma ackInv_reachable r ph g : ackReachable (r, ph, g) → ackInv r ph g.
Proof.
  intros (e & n & i & ha & Hs).
  change (ackInv (r, ph, g).1.1 (r, ph, g).1.2 (r, ph, g).2). revert Hs.
  generalize (r, ph, g). apply (rtc_ind_r (λ s : ackState, ackInv s.1.1 s.1.2 s.2)).
  - split; try done.
    + by split; constructor.
    + by intros ? ? ?%elem_of_nil.
  - intros s s' _ Hstep IH. destruct Hstep; simpl in *.
    + by eapply ackInv_notify.
    + by eapply ackInv_begin.
    + destruct IH. by split.
    + by apply ackInv_reply.
    + by apply ackInv_expire.
Qed.

(** ** Claims *)

(** The source an event id names, when it names one. *)
Definition sourceOf (eid : EventId) : option (list Z) :=
  match newEventSource (m_eidMem eid) (m_eidMemLen eid) (m_eidThr eid) with
  | Ok k => m_srcId k
  | _ => None
  end.

(** C5: Duplicate detection under interleaving with the acknowledger.  In
    every reachable state, an event [checkDupAndAdd] refuses is one that was
    delivered or is older than one delivered from the same source; and it
    accepts an event a second time only after the map forgot a last event of
    the source at least as new, which with HA enabled it does only after a
    server confirmed the acknowledgement of that event. *)
Theorem notifications_delivered_once r ph g now eid b r' x :
  ackReachable (r, ph, g) →
  sourceOf eid = Some x →
  checkDupAndAdd now eid r = (Ok b, r') →
  (b = false → ∃ q, m_eidSeq eid ≤ q ∧ (x, q) ∈ delivered g) ∧
  (b = true → (x, m_eidSeq eid) ∈ delivered g →
   ∃ f, m_eidSeq eid ≤ f ∧ (x, f) ∈ forgotten g ∧
        (m_HAenabled r = true → (x, f) ∈ confirmed g)).
Proof.
  intros [Hwf Hlast Hdel _ Hfor _]%ackInv_reachable Hx Hc.
  destruct (checkDupAndAdd_spec _ _ _ _ _ Hwf Hc) as (k & Hm & _ & _ & _ & Hb & _).
  assert (m_srcId k = Some x) as Ek.
  { revert Hm Hx. unfold eid_make, sourceOf. destruct (newEventSource _ _ _); [|done..].
    by intros [= ->]. }
  rewrite Ek in Hb. split; intros ->.
  - destruct (lastOf r x) as [v|] eqn:Ev; [|done]. exists (m_seqNum v).
    split; [|by apply Hlast]. symmetry in Hb. by apply Z.ltb_ge in Hb.
  - intros [(v & Ev & Hq)|(f & Hq & Hf)]%Hdel.
    + rewrite Ev in Hb. symmetry in Hb. apply Z.ltb_lt in Hb. lia.
    + exists f. split_and!; [done..|]. intros HHA. by apply Hfor.
Qed.

(** C16: Acknowledgement is live.  From every reachable state in which the
    acknowledger is idle, HA is enabled and the acknowledgement is due, one
    run of [doPeriodicAck] that the server confirms is a sequence of its
    steps, after which the last event of every source the map held has been
    confirmed. *)
Theorem periodicAck_acknowledges_all r g now :
  ackReachable (r, AckIdle, g) →
  m_HAenabled r = true → m_nextAck r < now →
  ∃ g', rtc ackStep (r, AckIdle, g) (doPeriodicAck now (λ _, true) r, AckIdle, g') ∧
    ∀ x v, lastOf r x = Some v → (x, m_seqNum v) ∈ confirmed g'.
Proof.
  intros Hi%ackInv_reachable HHA Hdue. unfold doPeriodicAck.
  assert (∃ es r1, ackBegin now r = (Some es, r1) ∧
    ∀ x, lastOf r1 x = setAcked true <$> lastOf r x) as (es & r1 & Eb & Hr1).
  { unfold ackBegin. rewrite HHA, (proj2 (Z.ltb_lt _ _)) by done. simpl.
    eexists _, _. split; [reflexivity|].
    exact (proj2 (nodes_wf_fmap (setAcked true) _ (ai_nodes _ _ _ Hi))). }
  rewrite Eb. pose proof (ackInv_begin _ _ _ _ _ Hi Eb) as H1.
  exists (logExpiry now (ackEnd es true r1) (logReply es true g)). split.
  - eapply rtc_l; [by eapply step_begin|]. eapply rtc_l; [by apply step_reply|].
    apply rtc_once, step_expire.
  - intros x v Hv. simpl. apply elem_of_app.
    destruct (ai_acked _ _ _ H1 x (setAcked true v)) as [?|?].
    + by rewrite Hr1, Hv.
    + done.
    + by right.
    + by left.
Qed.

(** ** The wire form of an event id *)

(** What an id says: the bytes of the array behind the length do not count. *)
Definition eventIdView (e : EventId) : list Z * Z * Z * Z * Z :=
  (take (Z.to_nat (m_eidMemLen e)) (m_eidMem e), m_eidThr e, m_eidSeq e,
   m_bucketId e, m_breadcrumbCounter e).

Record eventId_ok (e : EventId) : Prop := {
  eo_size : Z.of_nat (length (m_eidMem e)) = EID_MEM_SIZE;
  eo_bytes : Forall (in_u 8) (m_eidMem e);
  eo_len : 0 ≤ m_eidMemLen e ≤ EID_MEM_SIZE;
  eo_thr : in_s 64 (m_eidThr e);
  eo_seq : in_s 64 (m_eidSeq e);
  eo_bucket : in_s 32 (m_bucketId e);
  eo_crumb : in_s 8 (m_breadcrumbCounter e)
}.

Definition eventIdBytes (e : EventId) : list Z :=
  bytesBytes (Some (m_eidMem e)) (m_eidMemLen e) ++ arrayLenBytes 18 ++
  [3] ++ be 8 (m_eidThr e) ++ [3] ++ be 8 (m_eidSeq e) ++
  be 4 (m_bucketId e) ++ [m_breadcrumbCounter e mod 256].

Section EventIdWire.
Context `{Allocator}.

Lemma appends_EventId e :
  eventId_ok e → appends (EventId_toData e) (eventIdBytes e).
Proof.
  intros [Hs Hb Hl _ _ _ _]. unfold EventId_toData, eventIdBytes.
  unfold EID_MEM_SIZE in *. apply appends_bind.
  { apply appends_writeBytes; [lia|unfold maxMessage; lia]. }
  apply appends_bind; [apply appends_writeArrayLen|].
  apply appends_bind; [apply (appends_write_u8 3)|].
  apply appends_bind; [apply appends_writeInt_i64|].
  apply appends_bind; [apply (appends_write_u8 3)|].
  apply appends_bind; [apply appends_writeInt_i64|].
  apply appends_bind; [apply appends_writeInt_i32|apply appends_write_i8].
Qed.

(** The id [fromData] makes of [e] in an object that was [e0]. *)
Definition readInto (e0 e : EventId) : EventId :=
  mkEventId (take (Z.to_nat (m_eidMemLen e)) (m_eidMem e) ++
             drop (Z.to_nat (m_eidMemLen e)) (m_eidMem e0))
    (m_eidMemLen e) (m_eidThr e) (m_eidSeq e) (m_bucketId e) (m_breadcrumbCounter e).

Lemma readInto_view e0 e : eventId_ok e → eventIdView (readInto e0 e) = eventIdView e.
Proof.
  intros [Hs _ Hl _ _ _ _]. unfold eventIdView. simpl.
  do 4 f_equal. rewrite take_app_le by (rewrite length_take; lia).
  by rewrite take_take, Nat.min_id.
Qed.

Lemma reads_EventId e0 e :
  eventId_ok e → reads (EventId_fromData e0) (eventIdBytes e) (readInto e0 e).
Proof.
  intros [Hs Hb Hl Ht Hq Hk Hc]. unfold EventId_fromData, eventIdBytes, bytesBytes.
  unfold EID_MEM_SIZE in *. rewrite (proj2 (Z.leb_le _ _)) by lia.
  set (bs := take (Z.to_nat (m_eidMemLen e)) (m_eidMem e)).
  assert (Z.of_nat (length bs) = m_eidMemLen e) as Hbs
    by (unfold bs; rewrite length_take; lia).
  rewrite fmap_u8_id by (by apply Forall_take).
  rewrite <- app_assoc. eapply reads_bind; [apply reads_arrayLen; lia|]. cbv beta.
  eapply reads_bind; [apply reads_bytesOnly|].
  { unfold u32. rewrite uwrap_id; [done|split; lia]. }
  eapply (reads_bind _ _ [] _ (bs ++ drop (length bs) (m_eidMem e0))).
  { unfold copyMem, EID_MEM_SIZE. rewrite (proj2 (Z.leb_le _ _)) by lia. apply reads_ret. }
  eapply (reads_bind _ _ (arrayLenBytes 18)); [apply reads_arrayLen; lia|]. cbv beta.
  eapply (reads_bind _ _ [3] _ 3); [apply reads_byte|].
  eapply reads_bind; [by apply reads_i64|]. cbv beta.
  eapply (reads_bind _ _ [3] _ 3); [apply reads_byte|].
  eapply reads_bind; [by apply reads_i64|].
  eapply reads_bind; [by apply reads_i32|]. cbv beta.
  eapply reads_map; [by apply reads_i8|]. unfold readInto. fold bs.
  by rewrite <- Hbs, Nat2Z.id.
Qed.

(** C17: An event id survives the wire: what [toData] writes, [fromData]
    reads back into any object, with the same member, thread, sequence
    number, bucket and breadcrumb counter, and consumes all of it. *)
Theorem eventId_roundtrip e e0 o :
  eventId_ok e → do_wf o →
  do_buf o + Z.of_nat (length (eventIdBytes e)) ≤ maxMessage →
  ∃ o' e', EventId_toData e o = (Ok tt, o') ∧ do_wf o' ∧
    getBuffer o' = written o ++ eventIdBytes e ∧
    let i := mkDataInput (getBuffer o') (do_buf o) (getBufferLength o') in
    EventId_fromData e0 i = (Ok e', seek (getBufferLength o') i) ∧
    eventIdView e' = eventIdView e.
Proof.
  intros He Hw Hmax.
  destruct (written_reads_back _ _ _ _ o (appends_EventId e He) (reads_EventId e0 e He) Hw Hmax)
    as (o' & Ew & Hw' & Hg & Hr).
  exists o', (readInto e0 e). split_and!; [done..|]. split; [done|]. by apply readInto_view.
Qed.
End EventIdWire.

(** A member longer than the array makes [fromData] write behind it. *)
Theorem eventId_fromData_overflow e n bs i :
  EID_MEM_SIZE < n < 2 ^ 31 → Z.of_nat (length bs) = n → di_wf i →
  (∃ rest, unread i = arrayLenBytes n ++ bs ++ rest) →
  (EventId_fromData e i).1 = UB.
Proof.
  intros Hn Hbs Hi [rest Hu]. unfold EID_MEM_SIZE in *.
  assert (reads (let! n := readArrayLen in let! b := readBytesOnly (u32 n) in ret (n, b))
    (arrayLenBytes n ++ bs) (n, bs)) as Hr.
  { eapply reads_bind; [apply reads_arrayLen; lia|]. cbv beta.
    apply (reads_pure _ (pair n)), reads_bytesOnly.
    unfold u32. rewrite uwrap_id; [done|split; lia]. }
  rewrite app_assoc in Hu. specialize (Hr i rest Hi Hu). revert Hr.
  unfold EventId_fromData, bind, ret. destruct (readArrayLen i) as [[m| |] i1]; [|done..].
  destruct (readBytesOnly (u32 m) i1) as [[b| |] i2]; [|done..]. intros [= -> -> _].
  unfold copyMem, EID_MEM_SIZE. rewrite (proj2 (Z.leb_gt _ _)) by lia. done.
Qed.

(** ** The properties at concrete inputs *)

#[local] Instance eventAllocator : Allocator := {| fresh := λ _, 0 |}.

Definition sampleEid (seq : Z) : EventId := mkEventId [7; 8] 2 1 seq (-1) 0.
Definition sampleSource : list Z := [7; 8; 1; 0; 0; 0; 0; 0; 0; 0].
Definition sampleR0 : Redundancy := (ackInitial 100 0 10 true).1.1.
Definition sampleR1 : Redundancy := (checkDupAndAdd 5 (sampleEid 3) sampleR0).2.
Definition sampleLog : ackLog := mkAckLog [(sampleSource, 3)] [] [].

Lemma sample_reachable : ackReachable (sampleR1, AckIdle, sampleLog).
Proof.
  exists 100, 0, 10, true. apply rtc_once.
  apply (step_notify 5 (sampleEid 3) true sampleR0 sampleR1 AckIdle). vm_compute. reflexivity.
Qed.

(** The event that was delivered is refused when it comes again. *)
Lemma notifications_delivered_once_witness :
  (checkDupAndAdd 6 (sampleEid 3) sampleR1).1 = Ok false ∧
  ∃ q, 3 ≤ q ∧ (sampleSource, q) ∈ delivered sampleLog.
Proof.
  split; [vm_compute; reflexivity|].
  apply (notifications_delivered_once sampleR1 AckIdle sampleLog 6 (sampleEid 3) false
    (checkDupAndAdd 6 (sampleEid 3) sampleR1).2 sampleSource sample_reachable);
    vm_compute; reflexivity.
Defined.

Lemma periodicAck_acknowledges_all_witness :
  ∃ g', rtc ackStep (sampleR1, AckIdle, sampleLog)
          (doPeriodicAck 20 (λ _, true) sampleR1, AckIdle, g') ∧
    ∀ x v, lastOf sampleR1 x = Some v → (x, m_seqNum v) ∈ confirmed g'.
Proof.
  apply (periodicAck_acknowledges_all sampleR1 sampleLog 20 sample_reachable);
    vm_compute; reflexivity.
Defined.

(** An id whose array is filled behind its member. *)
Definition sampleWireEid : EventId :=
  mkEventId ([7; 8] ++ replicate 510 0) 2 1 3 (-1) 0.

Lemma sampleWireEid_ok : eventId_ok sampleWireEid.
Proof.
  assert (Forall (in_u 8) (m_eidMem sampleWireEid)).
  { apply Forall_app_2; [|apply Forall_replicate; by vm_compute].
    repeat constructor; by vm_compute. }
  by split; [vm_compute|..]; vm_compute.
Qed.

Lemma eventId_roundtrip_witness :
  ∃ o' e', EventId_toData sampleWireEid (outputAt 3) = (Ok tt, o') ∧ do_wf o' ∧
    getBuffer o' = written (outputAt 3) ++ eventIdBytes sampleWireEid ∧
    let i := mkDataInput (getBuffer o') (do_buf (outputAt 3)) (getBufferLength o') in
    EventId_fromData (sampleEid 9) i = (Ok e', seek (getBufferLength o') i) ∧
    eventIdView e' = eventIdView sampleWireEid.
Proof.
  apply (eventId_roundtrip sampleWireEid (sampleEid 9) (outputAt 3) sampleWireEid_ok).
  - apply outputAt_wf. lia.
  - vm_compute. discriminate.
Defined.
