(* ===== verification/LRUList.v ===== *)
(** * The list of entries in eviction order

    Models LRUList.cpp/.hpp: a linked list of entries, each with the bits
    "recently used" and "evicted", from which eviction takes entries the way a
    clock does.  The list always has a node: the first is an evicted sentinel
    at the start, and later the node of the last entry that was taken.

    The nodes are a list of entry locations, the head first.  The properties of
    an entry stay when tracking reconstructs it in place ([noInit]), so they
    are kept by location.  Appending and taking the head hold the locks of the
    list, so each is one step; the loop of [getLRUEntry] is such steps in
    sequence. *)

From S2P Require Import Prelude.

Definition RECENTLY_USED_BITS : Z := 1.
Definition EVICTED_BITS : Z := 2.

Section LRUList.
(** What the persistence manager keeps with an entry. *)
Context {P : Type}.

Record LRUEntryProperties := mkProps {
  m_bits : Z;
  m_persistenceInfo : option P
}.

Definition newProps : LRUEntryProperties := mkProps 0 None.

Definition setRecentlyUsed (p : LRUEntryProperties) : LRUEntryProperties :=
  mkProps (Z.lor (m_bits p) RECENTLY_USED_BITS) (m_persistenceInfo p).
Definition clearRecentlyUsed (p : LRUEntryProperties) : LRUEntryProperties :=
  mkProps (Z.ldiff (m_bits p) RECENTLY_USED_BITS) (m_persistenceInfo p).
Definition testRecentlyUsed (p : LRUEntryProperties) : bool :=
  Z.land (m_bits p) RECENTLY_USED_BITS =? RECENTLY_USED_BITS.
Definition testEvicted (p : LRUEntryProperties) : bool :=
  Z.land (m_bits p) EVICTED_BITS =? EVICTED_BITS.
Definition setEvicted (p : LRUEntryProperties) : LRUEntryProperties :=
  mkProps (Z.lor (m_bits p) EVICTED_BITS) (m_persistenceInfo p).
Definition clearEvicted (p : LRUEntryProperties) : LRUEntryProperties :=
  mkProps (Z.ldiff (m_bits p) EVICTED_BITS) (m_persistenceInfo p).
Definition setPersistenceInfo (i : option P) (p : LRUEntryProperties)
    : LRUEntryProperties := mkProps (m_bits p) i.

Record LRUList := mkLRUList {
  l_nodes : list Z;
  l_props : gmap Z LRUEntryProperties
}.

Definition propsOf (e : Z) (s : LRUList) : LRUEntryProperties :=
  default newProps (l_props s !! e).

(** [entry->getLRUProperties().f()] *)
Definition onProps (e : Z) (f : LRUEntryProperties → LRUEntryProperties)
    : M LRUList unit :=
  modify (λ s, mkLRUList (l_nodes s) (<[e := f (propsOf e s)]> (l_props s))).

Definition getProps (e : Z) : M LRUList LRUEntryProperties :=
  let! s := get in ret (propsOf e s).

(** The constructor, with the location of the entry it creates. *)
Definition newLRUList (headEntry : Z) : LRUList :=
  mkLRUList [headEntry] {[ headEntry := setEvicted newProps ]}.

Definition appendEntry (entry : Z) : M LRUList unit :=
  modify (λ s, mkLRUList (l_nodes s ++ [entry]) (l_props s)).

(** [appendNode]: the node taken from the head becomes the tail. *)
Definition appendNode (aNode : Z) : M LRUList unit := appendEntry aNode.

(** [getHeadNode]: the node and [isLast]. *)
Definition getHeadNode : M LRUList (option Z * bool) :=
  let! s := get in
  match l_nodes s with
  | [] => undefined
  | [result] =>
      let! p := getProps result in
      if testEvicted p then ret (None, true)
      else onProps result setEvicted ;! ret (Some result, true)
  | result :: nextNode =>
      put (mkLRUList nextNode (l_props s)) ;! ret (Some result, false)
  end.

(** The loop of [getLRUEntry]; [None] when the fuel is used up. *)
Fixpoint getLRUEntry_loop (fuel : nat) : M LRUList (option (option Z)) :=
  match fuel with
  | 0%nat => ret None
  | S fuel =>
      let! h := getHeadNode in
      match h with
      | (None, _) => ret (Some None)
      | (Some result, true) => ret (Some (Some result))
      | (Some result, false) =>
          let! lruProps := getProps result in
          if negb (testEvicted lruProps) then
            if testRecentlyUsed lruProps then
              onProps result clearRecentlyUsed ;!
              appendNode result ;!
              getLRUEntry_loop fuel
            else ret (Some (Some result))
          else getLRUEntry_loop fuel
      end
  end.

(** Every node is dropped, taken, or put back once. *)
Definition getLRUEntry : M LRUList (option Z) :=
  let! s := get in
  let! r := getLRUEntry_loop (2 * length (l_nodes s)) in
  match r with
  | Some result => ret result
  | None => undefined
  end.
End LRUList.

Arguments LRUEntryProperties P : clear implicits.
Arguments LRUList P : clear implicits.

(** ** Bits *)

Lemma land_pow2_testbit a n : 0 ≤ n → (Z.land a (2 ^ n) =? 2 ^ n) = Z.testbit a n.
Proof.
  intros Hn. assert (Z.land a (2 ^ n) = if Z.testbit a n then 2 ^ n else 0) as ->.
  { apply Z.bits_inj'. intros i Hi. rewrite Z.land_spec, Z.pow2_bits_eqb by done.
    destruct (Z.eqb_spec n i) as [<-|Hne]; [|rewrite andb_false_r].
    - destruct (Z.testbit a n); [by rewrite Z.pow2_bits_true|by rewrite Z.bits_0].
    - destruct (Z.testbit a n); [by rewrite Z.pow2_bits_false|by rewrite Z.bits_0]. }
  destruct (Z.testbit a n); [by apply Z.eqb_refl|].
  apply Z.eqb_neq. pose proof (Z.pow_pos_nonneg 2 n). lia.
Qed.

Ltac unfold_bits :=
  unfold setEvicted, clearEvicted, setRecentlyUsed, clearRecentlyUsed,
    EVICTED_BITS, RECENTLY_USED_BITS; cbn [m_bits].
Ltac simpl_bits :=
  change (Z.testbit 1 0) with true; change (Z.testbit 1 1) with false;
  change (Z.testbit 2 0) with false; change (Z.testbit 2 1) with true;
  cbn [negb].

Section Bits.
Context {P : Type}.
Implicit Types p : LRUEntryProperties P.

Lemma recentlyUsed_bit p : testRecentlyUsed p = Z.testbit (m_bits p) 0.
Proof. apply (land_pow2_testbit _ 0). done. Qed.

Lemma evicted_bit p : testEvicted p = Z.testbit (m_bits p) 1.
Proof. apply (land_pow2_testbit _ 1). done. Qed.

(** Each setter changes its own bit only. *)
Lemma test_setEvicted p :
  testEvicted (setEvicted p) = true ∧
  testRecentlyUsed (setEvicted p) = testRecentlyUsed p.
Proof.
  rewrite !recentlyUsed_bit, evicted_bit. unfold_bits; rewrite ?Z.lor_spec; simpl_bits.
  by rewrite orb_true_r, orb_false_r.
Qed.

Lemma test_clearEvicted p :
  testEvicted (clearEvicted p) = false ∧
  testRecentlyUsed (clearEvicted p) = testRecentlyUsed p.
Proof.
  rewrite !recentlyUsed_bit, evicted_bit. unfold_bits; rewrite ?Z.ldiff_spec; simpl_bits.
  by rewrite andb_false_r, andb_true_r.
Qed.

Lemma test_setRecentlyUsed p :
  testRecentlyUsed (setRecentlyUsed p) = true ∧
  testEvicted (setRecentlyUsed p) = testEvicted p.
Proof.
  rewrite !evicted_bit, recentlyUsed_bit. unfold_bits; rewrite ?Z.lor_spec; simpl_bits.
  by rewrite orb_true_r, orb_false_r.
Qed.

Lemma test_clearRecentlyUsed p :
  testRecentlyUsed (clearRecentlyUsed p) = false ∧
  testEvicted (clearRecentlyUsed p) = testEvicted p.
Proof.
  rewrite !evicted_bit, recentlyUsed_bit. unfold_bits; rewrite ?Z.ldiff_spec; simpl_bits.
  by rewrite andb_false_r, andb_true_r.
Qed.
End Bits.
