(* ===== verification/LRUListProps.v ===== *)
(** * Taking the least recently used entry

    The loop of [getLRUEntry] terminates and refines an abstract clock: a queue
    of the entries that are not evicted, each with its "recently used" flag. *)

From S2P Require Import Prelude LRUList.

(** ** The abstract clock *)

Definition clockQueue : Type := list (Z * bool).

Definition spare (q : clockQueue) : clockQueue := (λ x, (x.1, false)) <$> q.

(** Take the first entry that is not recently used; those before it lose the
    flag and go to the end.  When all are recently used, the first one goes. *)
Definition clockFrom (acc q : clockQueue) : option (Z * clockQueue) :=
  match list_find (λ x : Z * bool, x.2 = false) q with
  | Some (i, (e, _)) => Some (e, drop (S i) q ++ acc ++ spare (take i q))
  | None =>
      match acc ++ spare q with
      | [] => None
      | (e, _) :: q' => Some (e, q')
      end
  end.

Definition clockEvict (q : clockQueue) : option (Z * clockQueue) := clockFrom [] q.

Lemma clockFrom_used acc e q :
  clockFrom acc ((e, true) :: q) = clockFrom (acc ++ [(e, false)]) q.
Proof.
  unfold clockFrom. cbn [list_find]. rewrite decide_False by done.
  destruct (list_find _ q) as [[i [e' b]]|]; simpl; by rewrite <- app_assoc.
Qed.

Lemma clockFrom_unused acc e q :
  clockFrom acc ((e, false) :: q) = Some (e, q ++ acc).
Proof. unfold clockFrom. cbn [list_find]. rewrite decide_True by done.
  by rewrite app_nil_r. Qed.

Section LRUList.
Context {P : Type}.
Implicit Types s : LRUList P.

(** ** Abstraction *)

Definition liveIn s (l : list Z) : clockQueue :=
  omap (λ e, if testEvicted (propsOf e s) then None
             else Some (e, testRecentlyUsed (propsOf e s))) l.

Definition liveQueue s : clockQueue := liveIn s (l_nodes s).

Record lru_wf s : Prop := {
  lw_nonempty : l_nodes s ≠ [];
  lw_nodup : NoDup (l_nodes s)
}.

Lemma liveIn_cons s e l :
  liveIn s (e :: l) =
  (if testEvicted (propsOf e s) then [] else [(e, testRecentlyUsed (propsOf e s))]) ++
  liveIn s l.
Proof. unfold liveIn. simpl. by destruct (testEvicted (propsOf e s)). Qed.

Lemma liveIn_app s l1 l2 : liveIn s (l1 ++ l2) = liveIn s l1 ++ liveIn s l2.
Proof. apply omap_app. Qed.

(** Entries whose properties agree look the same. *)
Lemma liveIn_ext s s' l :
  (∀ e, e ∈ l → propsOf e s' = propsOf e s) → liveIn s' l = liveIn s l.
Proof.
  induction l as [|e l IH]; intros Hp; [done|].
  rewrite !liveIn_cons, Hp by (by left). f_equal. apply IH. intros. apply Hp. by right.
Qed.

Lemma propsOf_other s e e' f l :
  e ≠ e' → propsOf e' (mkLRUList l (<[e := f (propsOf e s)]> (l_props s))) = propsOf e' s.
Proof. intros. unfold propsOf. simpl. by rewrite lookup_insert_ne. Qed.

Lemma propsOf_same s e f l :
  propsOf e (mkLRUList l (<[e := f (propsOf e s)]> (l_props s))) = f (propsOf e s).
Proof. unfold propsOf. simpl. by rewrite lookup_insert_eq. Qed.

(** ** The loop *)

(** What a run of the loop leaves: the clock's answer. *)
Definition implementsClock (q : option (Z * clockQueue)) (r : option Z) s' : Prop :=
  match q with
  | None => r = None ∧ liveQueue s' = []
  | Some (e, q') => r = Some e ∧ liveQueue s' = q'
  end.

(** The rest of the state: entries and properties the loop does not touch. *)
Record lruFrame s s' : Prop := {
  lf_nodes : l_nodes s' ⊆ l_nodes s;
  lf_props e : e ∉ l_nodes s → propsOf e s' = propsOf e s;
  lf_info e : m_persistenceInfo (propsOf e s') = m_persistenceInfo (propsOf e s)
}.

Lemma getHeadNode_last s e :
  l_nodes s = [e] →
  getHeadNode s =
    if testEvicted (propsOf e s) then (Ok (None, true), s)
    else (Ok (Some e, true),
          mkLRUList [e] (<[e := setEvicted (propsOf e s)]> (l_props s))).
Proof.
  intros E. unfold getHeadNode, getProps. rewrite bind_get, E, bind_assoc, bind_get.
  rewrite bind_ret. destruct (testEvicted (propsOf e s)); [done|].
  unfold onProps, bind, modify, ret. by rewrite E.
Qed.

Lemma getHeadNode_next s e e' l :
  l_nodes s = e :: e' :: l →
  getHeadNode s = (Ok (Some e, false), mkLRUList (e' :: l) (l_props s)).
Proof. intros E. unfold getHeadNode. by rewrite bind_get, E. Qed.

Lemma liveIn_last_evicted s e f l :
  testEvicted (f (propsOf e s)) = true →
  liveIn (mkLRUList l (<[e := f (propsOf e s)]> (l_props s))) [e] = [].
Proof. intros E. unfold liveIn. simpl. by rewrite propsOf_same, E. Qed.

Lemma loop_last s e fuel :
  l_nodes s = [e] →
  ∃ r s', getLRUEntry_loop (S fuel) s = (Ok (Some r), s') ∧ lru_wf s' ∧ lruFrame s s' ∧
    implementsClock (clockEvict (liveIn s [e])) r s'.
Proof.
  intros E. simpl. unfold bind at 1. rewrite (getHeadNode_last s e E). unfold liveIn. simpl.
  destruct (testEvicted (propsOf e s)) eqn:Ev.
  - exists None, s. split; [done|]. split_and!; [|by split|].
    + split; rewrite E; [done|apply NoDup_singleton].
    + split; [done|]. unfold liveQueue, liveIn. rewrite E. simpl. by rewrite Ev.
  - eexists (Some e), _. split; [reflexivity|]. split_and!.
    + split; simpl; [done|apply NoDup_singleton].
    + split; simpl.
      * by rewrite E.
      * intros e' Hne. apply propsOf_other. rewrite E in Hne. set_solver.
      * intros e'. destruct (decide (e = e')) as [<-|]; [by rewrite propsOf_same|].
        by rewrite propsOf_other.
    + assert (clockEvict [(e, testRecentlyUsed (propsOf e s))] = Some (e, [])) as ->
        by (by destruct (testRecentlyUsed (propsOf e s))).
      split; [done|]. apply liveIn_last_evicted, test_setEvicted.
Qed.

Lemma lruFrame_trans s s1 s2 : lruFrame s s1 → lruFrame s1 s2 → lruFrame s s2.
Proof.
  intros [Hn Hp Hi] [Hn' Hp' Hi']. split.
  - by etransitivity.
  - intros e He. rewrite Hp' by (intros ?; by apply He, Hn). by apply Hp.
  - intros e. by rewrite Hi'.
Qed.

(** Neither evicted nor recently used. *)
Definition idle s (e : Z) : Prop :=
  testEvicted (propsOf e s) = false ∧ testRecentlyUsed (propsOf e s) = false.

(** One turn of the loop on a head with a successor. *)
Lemma loop_step s e e' l fuel :
  l_nodes s = e :: e' :: l →
  getLRUEntry_loop (S fuel) s =
    if testEvicted (propsOf e s) then
      getLRUEntry_loop fuel (mkLRUList (e' :: l) (l_props s))
    else if testRecentlyUsed (propsOf e s) then
      getLRUEntry_loop fuel
        (mkLRUList (e' :: l ++ [e]) (<[e := clearRecentlyUsed (propsOf e s)]> (l_props s)))
    else (Ok (Some (Some e)), mkLRUList (e' :: l) (l_props s)).
Proof.
  intros E. simpl. unfold bind at 1. rewrite (getHeadNode_next s e e' l E).
  unfold getProps. rewrite bind_assoc, bind_get, bind_ret.
  change (propsOf e (mkLRUList (e' :: l) (l_props s))) with (propsOf e s).
  destruct (testEvicted (propsOf e s)); [done|]. simpl.
  by destruct (testRecentlyUsed (propsOf e s)).
Qed.

Lemma dropHead_spec s e e' l :
  l_nodes s = e :: e' :: l → NoDup (e :: e' :: l) →
  let s1 := mkLRUList (e' :: l) (l_props s) in lru_wf s1 ∧ lruFrame s s1.
Proof.
  intros E [_ Hnd]%NoDup_cons. split; [by split|].
  split; simpl; [rewrite E; by apply list_subseteq_cons|done..].
Qed.

Lemma putBack_spec s e e' l :
  l_nodes s = e :: e' :: l → NoDup (e :: e' :: l) → testEvicted (propsOf e s) = false →
  let s1 := mkLRUList (e' :: l ++ [e])
              (<[e := clearRecentlyUsed (propsOf e s)]> (l_props s)) in
  lru_wf s1 ∧ lruFrame s s1 ∧ idle s1 e ∧
  ∀ x, x ∈ e' :: l → propsOf x s1 = propsOf x s.
Proof.
  intros E [Hin Hnd]%NoDup_cons Hev s1. split_and!.
  - split; [done|]. apply (NoDup_app (e' :: l) [e]). split_and!; [done| |].
    + by intros x Hx ->%list_elem_of_singleton.
    + apply NoDup_singleton.
  - split; unfold s1; simpl.
    + rewrite E. set_solver.
    + intros x Hx. apply propsOf_other. rewrite E in Hx. set_solver.
    + intros x. destruct (decide (e = x)) as [<-|]; [by rewrite propsOf_same|].
      by rewrite propsOf_other.
  - unfold idle, s1. rewrite propsOf_same.
    by destruct (test_clearRecentlyUsed (propsOf e s)) as [-> ->].
  - intros x Hx. apply propsOf_other. by intros ->.
Qed.

Lemma loop_clock rest : ∀ fuel passed s,
  l_nodes s = rest ++ passed → lru_wf s → Forall (idle s) passed →
  (length rest < fuel)%nat →
  ∃ r s', getLRUEntry_loop fuel s = (Ok (Some r), s') ∧ lru_wf s' ∧ lruFrame s s' ∧
    implementsClock (clockFrom (liveIn s passed) (liveIn s rest)) r s'.
Proof.
  induction rest as [|e rest IH]; intros fuel passed s E [Hne Hnd] Hp Hf;
    (destruct fuel as [|fuel]; [simpl in Hf; lia|]); simpl app in E; rewrite E in Hnd.
  - destruct passed as [|e [|e' l]]; [done| |]; apply Forall_cons in Hp as [[Hev Hru] Hp].
    + destruct (loop_last s e fuel E) as (r & s' & El & Hw & Hfr & Hc).
      exists r, s'. split_and!; [done..|]. revert Hc. rewrite liveIn_cons, Hev, Hru. done.
    + rewrite (loop_step s e e' l fuel E), Hev, Hru.
      destruct (dropHead_spec s e e' l E Hnd) as [Hw Hfr]. eexists (Some e), _.
      split_and!; [done..|]. rewrite liveIn_cons, Hev, Hru. split; [done|].
      change (spare (liveIn s [])) with (@nil (Z * bool)). by rewrite app_nil_r.
  - destruct (rest ++ passed) as [|e' l] eqn:Er.
    { apply app_nil in Er as [-> ->].
      destruct (loop_last s e fuel E) as (r & s' & El & Hw & Hfr & Hc). by exists r, s'. }
    rewrite (loop_step s e e' l fuel E), liveIn_cons. simpl in Hf.
    destruct (dropHead_spec s e e' l E Hnd) as [Hw1 Hfr1].
    destruct (testEvicted (propsOf e s)) eqn:Hev;
      [|destruct (testRecentlyUsed (propsOf e s)) eqn:Hru].
    + destruct (IH fuel passed (mkLRUList (e' :: l) (l_props s)))
        as (r & s' & El & Hw & Hfr & Hc); [done..|lia|].
      exists r, s'. split_and!; [done..| |exact Hc]. by eapply lruFrame_trans.
    + destruct (putBack_spec s e e' l E Hnd Hev) as (Hw2 & Hfr2 & Hidle & Hs1).
      set (s1 := mkLRUList _ (<[e := _]> _)) in *. rewrite <- Er in Hs1.
      destruct (IH fuel (passed ++ [e]) s1) as (r & s' & El & Hw & Hfr & Hc).
      { unfold s1. simpl. by rewrite app_assoc, Er. }
      { done. }
      { apply Forall_app. split; [|by constructor]. apply Forall_forall. intros x Hx.
        unfold idle. rewrite Hs1 by set_solver. by apply (proj1 (Forall_forall _ _) Hp). }
      { lia. }
      exists r, s'. split_and!; [done..|by eapply lruFrame_trans|].
      cbn [app]. rewrite clockFrom_used. revert Hc.
      rewrite liveIn_app, (liveIn_ext s s1 passed), (liveIn_ext s s1 rest)
        by (intros; apply Hs1; set_solver).
      rewrite liveIn_cons. by destruct Hidle as [-> ->].
    + eexists (Some e), _. split_and!; [done..|]. cbn [app]. rewrite clockFrom_unused.
      split; [done|]. unfold liveQueue. cbn [l_nodes].
      rewrite <- liveIn_app, Er. by apply liveIn_ext.
Qed.

(** ** Lists in which entries may repeat

    Eviction terminates on every list; the measure counts the nodes, and one
    more while there is an entry to take. *)

Definition lruMeasure s : nat :=
  length (l_nodes s) + (if decide (liveQueue s = []) then 0 else 1).

Lemma liveIn_nil s l :
  liveIn s l = [] ↔ ∀ e, e ∈ l → testEvicted (propsOf e s) = true.
Proof.
  induction l as [|x l IH]; [split; [by intros _ e ?%elem_of_nil|done]|].
  rewrite liveIn_cons. destruct (testEvicted (propsOf x s)) eqn:Ex; simpl.
  - rewrite IH. split; [|by intros H e He; apply H; right].
    by intros H e [->|He]%elem_of_cons; [|apply H].
  - split; [done|]. intros H. rewrite H in Ex; [done|by left].
Qed.

Lemma lruMeasure_mono s s' :
  l_nodes s' = l_nodes s →
  (∀ e, testEvicted (propsOf e s) = true → testEvicted (propsOf e s') = true) →
  (lruMeasure s' ≤ lruMeasure s)%nat.
Proof.
  intros Hn He. unfold lruMeasure, liveQueue. rewrite Hn.
  destruct (decide (liveIn s (l_nodes s) = [])) as [E|]; [|destruct (decide _); lia].
  rewrite decide_True; [done|]. rewrite liveIn_nil in E |- *. auto.
Qed.

(** What the loop does to any list. *)
Record takes s (r : option Z) s' : Prop := {
  tk_nonempty : l_nodes s' ≠ [];
  tk_nodes : l_nodes s' ⊆ l_nodes s;
  tk_evicted e : testEvicted (propsOf e s) = true → testEvicted (propsOf e s') = true;
  tk_other e : r ≠ Some e → testEvicted (propsOf e s') = testEvicted (propsOf e s);
  tk_info e : m_persistenceInfo (propsOf e s') = m_persistenceInfo (propsOf e s);
  tk_result : match r with
              | None => liveQueue s' = []
              | Some e => e ∈ l_nodes s ∧ testEvicted (propsOf e s) = false ∧
                          (length (l_nodes s') < length (l_nodes s) ∨
                           length (l_nodes s') = 1 ∧ liveQueue s' = [])%nat
              end
}.

(** A turn that puts a node back or drops it, and the turns that follow. *)
Lemma takes_after s s1 r s' :
  l_nodes s1 ⊆ l_nodes s → (length (l_nodes s1) ≤ length (l_nodes s))%nat →
  (∀ e, testEvicted (propsOf e s1) = testEvicted (propsOf e s)) →
  (∀ e, m_persistenceInfo (propsOf e s1) = m_persistenceInfo (propsOf e s)) →
  takes s1 r s' → takes s r s'.
Proof.
  intros Hn Hl He Hi [? Hn' Hev Ho Hinf Hr]. split; [done|..].
  - by etransitivity.
  - intros e. rewrite <- He. apply Hev.
  - intros e. rewrite <- He. apply Ho.
  - intros e. by rewrite Hinf.
  - destruct r as [e|]; [|done]. destruct Hr as (Hin & Hx & Hd).
    rewrite <- He. split_and!; [by apply Hn|done|]. destruct Hd; [left; lia|by right].
Qed.

Lemma loop_last_takes s e fuel :
  l_nodes s = [e] →
  ∃ r s', getLRUEntry_loop (S fuel) s = (Ok (Some r), s') ∧ takes s r s'.
Proof.
  intros E. simpl. unfold bind at 1. rewrite (getHeadNode_last s e E).
  destruct (testEvicted (propsOf e s)) eqn:Ev.
  - exists None, s. split; [done|]. split; try done; [by rewrite E|].
    unfold liveQueue. by rewrite E, liveIn_cons, Ev.
  - eexists (Some e), _. split; [reflexivity|].
    assert (∀ x, e ≠ x → propsOf x (mkLRUList [e]
      (<[e:=setEvicted (propsOf e s)]> (l_props s))) = propsOf x s) as Hx
      by (intros; by apply propsOf_other).
    split; simpl; [done|by rewrite E|..].
    + intros x. destruct (decide (e = x)) as [<-|]; [|by rewrite Hx].
      intros _. rewrite propsOf_same. apply test_setEvicted.
    + intros x Hne. rewrite Hx; [done|]. by intros ->.
    + intros x. destruct (decide (e = x)) as [<-|]; [by rewrite propsOf_same|by rewrite Hx].
    + rewrite E. split_and!; [by left|done|]. right. split; [done|].
      apply liveIn_last_evicted, test_setEvicted.
Qed.

Lemma loop_takes rest : ∀ fuel passed s,
  l_nodes s = rest ++ passed → l_nodes s ≠ [] → Forall (idle s) passed →
  (length rest < fuel)%nat →
  ∃ r s', getLRUEntry_loop fuel s = (Ok (Some r), s') ∧ takes s r s'.
Proof.
  induction rest as [|e rest IH]; intros fuel passed s E Hne Hp Hf;
    (destruct fuel as [|fuel]; [simpl in Hf; lia|]); simpl app in E.
  - destruct passed as [|e [|e' l]]; [done|by eapply loop_last_takes|].
    apply Forall_cons in Hp as [[Hev Hru] Hp].
    rewrite (loop_step s e e' l fuel E), Hev, Hru. eexists (Some e), _. split; [done|].
    split; simpl; [done|rewrite E; by apply list_subseteq_cons|done..|].
    rewrite E. split_and!; [by left|done|]. simpl. lia.
  - destruct (rest ++ passed) as [|e' l] eqn:Er; [by eapply loop_last_takes|].
    rewrite (loop_step s e e' l fuel E). simpl in Hf.
    destruct (testEvicted (propsOf e s)) eqn:Hev;
      [|destruct (testRecentlyUsed (propsOf e s)) eqn:Hru].
    + destruct (IH fuel passed (mkLRUList (e' :: l) (l_props s))) as (r & s' & El & Ht);
        [done..|lia|].
      exists r, s'. split; [done|]. eapply takes_after; [..|done]; simpl; try done.
      * rewrite E. by apply list_subseteq_cons.
      * rewrite E. simpl. lia.
    + set (s1 := mkLRUList _ (<[e := _]> _)).
      assert (∀ x, propsOf x s1 = if decide (e = x) then clearRecentlyUsed (propsOf x s)
        else propsOf x s) as Hs1.
      { intros x. unfold s1. case_decide as Hx; [subst x; apply propsOf_same|].
        by apply propsOf_other. }
      assert (∀ x, testEvicted (propsOf x s1) = testEvicted (propsOf x s)) as Hev1.
      { intros x. rewrite Hs1. case_decide; [apply test_clearRecentlyUsed|done]. }
      destruct (IH fuel (passed ++ [e]) s1) as (r & s' & El & Ht).
      { unfold s1. simpl. by rewrite app_assoc, Er. }
      { done. }
      { apply Forall_app. split.
        - eapply Forall_impl; [done|]. intros x [Hx1 Hx2]. split; [by rewrite Hev1|].
          rewrite Hs1. case_decide; [apply test_clearRecentlyUsed|done].
        - apply Forall_singleton. split; [by rewrite Hev1|]. rewrite Hs1, decide_True by done.
          apply test_clearRecentlyUsed. }
      { lia. }
      exists r, s'. split; [done|]. eapply takes_after; [..|done]; try done.
      * rewrite E. unfold s1. simpl. set_solver.
      * rewrite E. unfold s1. simpl. rewrite length_app. simpl. lia.
      * intros x. rewrite Hs1. by case_decide.
    + eexists (Some e), _. split; [done|].
      split; simpl; [done|rewrite E; by apply list_subseteq_cons|done..|].
      rewrite E. split_and!; [by left|done|]. simpl. lia.
Qed.

Lemma getLRUEntry_takes s :
  l_nodes s ≠ [] → ∃ r s', getLRUEntry s = (Ok r, s') ∧ takes s r s'.
Proof.
  intros Hne.
  destruct (loop_takes (l_nodes s) (2 * length (l_nodes s)) [] s) as (r & s' & E & Ht).
  - by rewrite app_nil_r.
  - done.
  - constructor.
  - destruct (l_nodes s); [done|]. simpl. lia.
  - exists r, s'. split; [|done]. unfold getLRUEntry. rewrite bind_get.
    by rewrite (bind_Ok _ _ _ _ _ E).
Qed.

Lemma takes_measure s e s' : takes s (Some e) s' → (lruMeasure s' < lruMeasure s)%nat.
Proof.
  intros [Hne _ _ _ _ (Hin & Hev & Hd)]. unfold lruMeasure.
  assert (liveQueue s ≠ []) as Hl.
  { unfold liveQueue. apply list_elem_of_split in Hin as (l1 & l2 & ->).
    rewrite liveIn_app, liveIn_cons, Hev. by destruct (liveIn s l1). }
  rewrite (decide_False (P:=liveQueue s = [])) by done.
  destruct Hd as [?|[? Hq]].
  - destruct (decide (liveQueue s' = [])); lia.
  - rewrite decide_True by done. destruct (l_nodes s); simpl in *; [by apply elem_of_nil in Hin|].
    lia.
Qed.

(** ** Appending *)

Lemma appendEntry_live s e :
  lru_wf s → e ∉ l_nodes s → testEvicted (propsOf e s) = false →
  ∃ s', appendEntry e s = (Ok tt, s') ∧ lru_wf s' ∧
    liveQueue s' = liveQueue s ++ [(e, testRecentlyUsed (propsOf e s))].
Proof.
  intros [Hne Hnd] Hin Hev. eexists. split; [done|]. split.
  - split; simpl; [by destruct (l_nodes s)|]. apply NoDup_app. split_and!; [done| |].
    + by intros x Hx ->%list_elem_of_singleton.
    + apply NoDup_singleton.
  - unfold liveQueue. simpl. rewrite liveIn_app, (liveIn_cons _ e []).
    change (propsOf e (mkLRUList (l_nodes s ++ [e]) (l_props s))) with (propsOf e s).
    rewrite Hev. by rewrite (liveIn_ext s).
Qed.

(** ** Claims *)

End LRUList.

(** ** The property at a concrete input *)

(** Four entries behind the sentinel 0: 1 is recently used, 2 was evicted. *)
Definition sampleLRU : LRUList unit :=
  mkLRUList [0; 1; 2; 3; 4]
    {[ 0 := mkProps 2 None; 1 := mkProps 1 None; 2 := mkProps 2 None ]}.


(** The entry that was taken last stays in the list as its sentinel.  When it
    is read back from disk, [LRUEntriesMap::get] clears its evicted bit and
    appends it again: it is in the list twice, and loses its second chance to
    an entry that was never used. *)
Example reappended_entry_loses_second_chance :
  let s0 : LRUList unit := mkLRUList [7] ∅ in
  let s1 := (getLRUEntry s0).2 in
  let s2 := (onProps 7 clearEvicted s1).2 in
  let s3 := (appendEntry 7 s2).2 in
  let s4 := (onProps 7 setRecentlyUsed s3).2 in
  let s5 := (appendEntry 8 s4).2 in
  (getLRUEntry s0).1 = Ok (Some 7) ∧ l_nodes s3 = [7; 7] ∧
  testRecentlyUsed (propsOf 7 s5) = true ∧ testRecentlyUsed (propsOf 8 s5) = false ∧
  (getLRUEntry s5).1 = Ok (Some 7).
Proof. vm_compute. done. Qed.
