(* ===== verification/LRUEntriesMap.v ===== *)
(** * The entries map with eviction

    Models LRUEntriesMap.cpp/.hpp, the eviction actions of LRUAction.cpp that do
    not call back into a region, and [MapSegment::getFromDisc]: the entries map
    that, above a limit, destroys entries or moves their values to disk in the
    order of the LRU list.

    The persistence manager is the application's: a class with a state of its
    own.  The queue of the eviction controller is part of the state.  The mutex
    of a segment is taken by [put] and [get] when the action overflows to disk;
    unlocking it when it is not held is undefined. *)

From S2P Require Import Prelude Membership Version MapEntry MapSegment.
From S2P Require Import ConcurrentEntriesMap LRUList.

(** [PersistenceManager]: [P] is what [persistenceInfo] points to, [Disk]
    the state of the disk; [None] and [false] are exceptions. *)
Class PersistenceManager (K P Disk : Type) := {
  pm_write : K → Value → option P → Disk → option (option P) * Disk;
  pm_read : K → option P → Disk → option CacheablePtr;
  pm_destroy : K → option P → Disk → bool * Disk
}.

(** What the application's objects provide. *)
Class Objects (O D : Type) := {
  obj_isDelta : O → bool;
  obj_fromDelta : D → O → bool * O;
  obj_size : O → Z
}.

Inductive ActionType : Type :=
  | INVALIDATE | LOCAL_INVALIDATE | DESTROY | LOCAL_DESTROY | INVALID_ACTION
  | OVERFLOW_TO_DISK.

#[global] Instance ActionType_eq_dec : EqDecision ActionType.
Proof. solve_decision. Defined.

(** [sizeof(m_value)] of a token. *)
Definition tokenSize : Z := 4.

Section LRUEntriesMap.
Context {K O D P Disk : Type} `{EqDecision K, !Countable K}.
Context `{!CacheableKey K, !Objects O D, !PersistenceManager K P Disk, !TaskIds}.

Record LRUMap := mkLRUMap {
  lm_map : EntriesMap K O;
  lm_lru : LRUList P;
  lm_disk : Disk;
  m_limit : Z;
  m_validEntries : Z;
  m_currentMapSize : Z;
  lm_heapInfo : option (list Z);
  lm_overflows : Z;
  lm_retrieves : Z
}.

Definition set_lmap (c : EntriesMap K O) (s : LRUMap) : LRUMap :=
  mkLRUMap c (lm_lru s) (lm_disk s) (m_limit s) (m_validEntries s)
    (m_currentMapSize s) (lm_heapInfo s) (lm_overflows s) (lm_retrieves s).

Definition set_lru (l : LRUList P) (s : LRUMap) : LRUMap :=
  mkLRUMap (lm_map s) l (lm_disk s) (m_limit s) (m_validEntries s)
    (m_currentMapSize s) (lm_heapInfo s) (lm_overflows s) (lm_retrieves s).

Definition set_disk (d : Disk) (s : LRUMap) : LRUMap :=
  mkLRUMap (lm_map s) (lm_lru s) d (m_limit s) (m_validEntries s)
    (m_currentMapSize s) (lm_heapInfo s) (lm_overflows s) (lm_retrieves s).

Definition adjustLimit (limit : Z) (s : LRUMap) : LRUMap :=
  mkLRUMap (lm_map s) (lm_lru s) (lm_disk s) limit (m_validEntries s)
    (m_currentMapSize s) (lm_heapInfo s) (lm_overflows s) (lm_retrieves s).

(** [++m_validEntries] and [--m_validEntries] *)
Definition addValid (n : Z) : M LRUMap unit := modify (λ s,
  mkLRUMap (lm_map s) (lm_lru s) (lm_disk s) (m_limit s) (u32 (m_validEntries s + n))
    (m_currentMapSize s) (lm_heapInfo s) (lm_overflows s) (lm_retrieves s)).

Definition incOverflows : M LRUMap unit := modify (λ s,
  mkLRUMap (lm_map s) (lm_lru s) (lm_disk s) (m_limit s) (m_validEntries s)
    (m_currentMapSize s) (lm_heapInfo s) (lm_overflows s + 1) (lm_retrieves s)).

Definition incRetrieves : M LRUMap unit := modify (λ s,
  mkLRUMap (lm_map s) (lm_lru s) (lm_disk s) (m_limit s) (m_validEntries s)
    (m_currentMapSize s) (lm_heapInfo s) (lm_overflows s) (lm_retrieves s + 1)).

Definition onLRU {A} : M (LRUList P) A → M LRUMap A := zoom lm_lru set_lru.
Definition onEntries {A} : M (EntriesMap K O) A → M LRUMap A := zoom lm_map set_lmap.

(** ** The disk *)

(** The entry of a key: what [getImplPtr] gives for its binding. *)
Definition implOf (s : LRUMap) (key : K) : option Z :=
  let c := lm_map s in
  match m_segments c !! Z.to_nat (segmentIdx (m_concurrency c) key) with
  | None => None
  | Some g =>
      match m_map g !! key with
      | None => None
      | Some l =>
          match h_entries (w_heap (em_world c)) !! l with
          | Some (Impl _) => Some l
          | Some (Tracked m_entry _ _) => Some m_entry
          | None => None
          end
      end
  end.

(** [getFromDisk]: an exception gives a null pointer. *)
Definition getFromDisk (key : K) (me : Z) (s : LRUMap) : CacheablePtr :=
  match pm_read key (m_persistenceInfo (propsOf me (lm_lru s))) (lm_disk s) with
  | Some v => v
  | None => None
  end.

(** What the segments see of the application in a state: [getFromDisc] asks
    the map for the value of the entry. *)
Definition appAt (s : LRUMap) : Application K O D := {|
  isDelta := obj_isDelta;
  fromDelta := obj_fromDelta;
  readDisk := λ key, match implOf s key with
                     | Some me => getFromDisk key me s
                     | None => None
                     end
|}.

Definition onSegment {A} (key : K) (m : Application K O D → M (State K O) A)
    : M LRUMap A :=
  let! s := get in onEntries (onSegmentFor key (m (appAt s))).

Definition getPersistenceInfo (me : Z) : M LRUMap (option P) :=
  let! s := get in ret (m_persistenceInfo (propsOf me (lm_lru s))).

(** [m_pmPtr->read] and [m_pmPtr->destroy] where no exception is caught. *)
Definition pmRead (key : K) (info : option P) : M LRUMap CacheablePtr :=
  let! s := get in
  match pm_read key info (lm_disk s) with
  | Some v => ret v
  | None => throw DiskException
  end.

Definition pmDestroy (key : K) (info : option P) : M LRUMap unit :=
  let! s := get in
  let (ok, d) := pm_destroy key info (lm_disk s) in
  modify (set_disk d) ;!
  if ok then ret tt else throw DiskException.

(** Fetch an overflowed value and delete it from disk. *)
Definition fetchAndDestroy (key : K) (me : Z) : M LRUMap CacheablePtr :=
  let! info := getPersistenceInfo me in
  let! v := pmRead key info in
  (match v with Some _ => pmDestroy key info | None => ret tt end) ;!
  ret v.

(** ** Sizes *)

(** [objectSize()] of the target of a pointer; null is undefined. *)
Definition valueSize (p : CacheablePtr) : M LRUMap Z :=
  let! s := get in
  match p with
  | None => undefined
  | Some (VToken _) => ret tokenSize
  | Some (VObject l) =>
      match w_objects (em_world (lm_map s)) !! l with
      | Some o => ret (u32 (obj_size o))
      | None => undefined
      end
  end.

(** The size of an old value, or of the pointer when there is none. *)
Definition oldSize (p : CacheablePtr) : M LRUMap Z :=
  match p with Some _ => valueSize p | None => ret SIZEOF_PTR end.

Definition hasController : M LRUMap bool :=
  let! s := get in ret (match lm_heapInfo s with Some _ => true | None => false end).

(** [updateMapSize], with [EvictionController::updateRegionHeapInfo]. *)
Definition updateMapSize (n : Z) : M LRUMap unit := modify (λ s,
  match lm_heapInfo s with
  | Some q =>
      mkLRUMap (lm_map s) (lm_lru s) (lm_disk s) (m_limit s) (m_validEntries s)
        (i64 (m_currentMapSize s + n)) (Some (q ++ [n])) (lm_overflows s)
        (lm_retrieves s)
  | None => s
  end).

Variable cfg : SegConfig.

Definition trackers : M LRUMap Z :=
  let! s := get in ret (m_numDestroyTrackers (lm_map s)).

(** ** Removing *)

(** [remove]: the error, [result] and [me]. *)
Definition lru_remove (now : Z) (key : K) (result : CacheablePtr) (me : option Z)
    (updateCount : Z) (versionTag : option VersionTag) (afterRemote : bool)
    : M LRUMap (GfErrType * CacheablePtr * option Z) :=
  let! n := trackers in
  let! r := onSegment key (λ app, remove (D:=D) (Application0:=app) cfg n now key result
              me updateCount versionTag afterRemote true) in
  let '(err, result, me, isEntryFound) := r in
  match bool_decide (err = GF_NOERR), result, me with
  | true, Some _, Some e =>
      onLRU (onProps e setEvicted) ;!
      (if isEntryFound : bool then onEntries (addSize (-1)) else ret tt) ;!
      (if isToken result then ret tt else addValid (-1)) ;!
      let! result := if isOverflowed result then fetchAndDestroy key e else ret result in
      let! c := hasController in
      (if c : bool then
         let! v := valueSize result in
         updateMapSize (- (u32 (objectSize key) + v))
       else ret tt) ;!
      ret (err, result, me)
  | _, _, _ => ret (err, result, me)
  end.

(** ** Actions *)

(** Run an operation on the heap that the segments share. *)
Definition onMapHeap {A} (m : M (Heap K) A) : M LRUMap A :=
  onEntries (λ c,
    let w := em_world c in
    let (r, h) := m (w_heap w) in
    (r, mkEntriesMap (mkWorld h (w_objects w) (w_nextObject w) (w_tasks w)
          (w_handlers w) (w_nextHandler w) (w_env w) (w_processedDeltas w)
          (w_tombstoneCount w) (w_tombstoneSize w)) (m_concurrency c)
          (m_segments c) (m_size c) (m_numDestroyTrackers c))).

(** [LRUAction]: what eviction does with an entry. *)
Record LRUAction := mkAction {
  act_type : ActionType;
  act_overflows : bool;
  act_evict : Z → M LRUMap bool
}.

(** [TestMapAction], which a map without a region uses. *)
Definition TestMapAction (now : Z) : LRUAction :=
  mkAction LOCAL_DESTROY false (λ mePtr,
    let! key := onMapHeap (getKeyI mePtr) in
    match key with
    | None => undefined
    | Some key =>
        let! r := lru_remove now key None None 0 None false in
        ret (bool_decide (r.1.1 = GF_NOERR))
    end).

(** [LRUOverFlowToDiskAction]: [objectSize()] is a [uint32_t], and so is the
    difference that is added to the size of the map. *)
Definition LRUOverFlowToDiskAction (regionDestroyed : bool) : LRUAction :=
  mkAction OVERFLOW_TO_DISK true (λ mePtr,
    if regionDestroyed then ret false
    else
      let! key := onMapHeap (getKeyI mePtr) in
      let! value := onMapHeap (getValueI mePtr) in
      match value, key with
      | None, _ => throw FatalInternalException
      | _, None => undefined
      | Some v, Some key =>
          let! persistenceInfo := getPersistenceInfo mePtr in
          let! s := get in
          match pm_write key v persistenceInfo (lm_disk s) with
          | (None, d) => modify (set_disk d) ;! ret false
          | (Some info, d) =>
              modify (set_disk d) ;!
              (match persistenceInfo with
               | None => onLRU (onProps mePtr (setPersistenceInfo info))
               | Some _ => ret tt
               end) ;!
              incOverflows ;!
              onMapHeap (setValueI mePtr (Some (VToken OVERFLOWED))) ;!
              let! size := valueSize value in
              updateMapSize (u32 (tokenSize - size)) ;!
              ret true
          end
      end).

Variable m_heapLRUEnabled : bool.
Variable m_action : option LRUAction.

(** ** Eviction *)

Definition mustEvict (s : LRUMap) : bool :=
  match m_action with
  | None => false
  | Some a =>
      if act_overflows a then m_limit s <? m_validEntries s
      else if m_heapLRUEnabled && (m_limit s =? 0) then false
      else m_limit s <? m_size (lm_map s)
  end.

Definition evictionHelper : M LRUMap GfErrType :=
  let! lruEntryPtr := onLRU getLRUEntry in
  match lruEntryPtr with
  | None => ret GF_ENOENT
  | Some e =>
      match m_action with
      | None => undefined
      | Some a =>
          let! isEvictDone := act_evict a e in
          (if act_overflows a && isEvictDone
           then addValid (-1) ;! onLRU (onProps e setEvicted) else ret tt) ;!
          ret (if isEvictDone then GF_NOERR else GF_DISKFULL)
      end
  end.

(** The loop of [processLRU()]; [None] when the fuel is used up. *)
Fixpoint processLRU_loop (fuel : nat) (canEvict : GfErrType)
    : M LRUMap (option GfErrType) :=
  let! s := get in
  if bool_decide (canEvict = GF_NOERR) && mustEvict s then
    match fuel with
    | 0%nat => ret None
    | S fuel => let! canEvict := evictionHelper in processLRU_loop fuel canEvict
    end
  else ret (Some canEvict).

(** A turn takes a node from the list or makes the last one the sentinel. *)
Definition processLRU : M LRUMap GfErrType :=
  let! s := get in
  let! r := processLRU_loop (2 + length (l_nodes (lm_lru s))) GF_NOERR in
  match r with
  | Some err => ret err
  | None => undefined
  end.

(** [processLRU(numEntriesToEvict)], for the eviction controller. *)
Fixpoint processLRU_n (n : nat) : M LRUMap unit :=
  match n with
  | 0%nat => ret tt
  | S n =>
      let! s := get in
      if (0 <? m_validEntries s) && (0 <? m_size (lm_map s)) then
        evictionHelper ;! processLRU_n n
      else ret tt
  end.

(** ** Operations *)

Definition lru_clear : M LRUMap unit :=
  let! s := get in
  updateMapSize (-1 * m_currentMapSize s) ;!
  onEntries em_clear.

(** [create]: the error, [me] and [oldValue]. *)
Definition lru_create (key : K) (newValue : CacheablePtr) (me : option Z)
    (oldValue : CacheablePtr) (updateCount destroyTracker : Z)
    (versionTag : option VersionTag)
    : M LRUMap (GfErrType * option Z * CacheablePtr) :=
  let! n := trackers in
  let! r := onSegment key (λ app, create (D:=D) cfg n key newValue me oldValue
              updateCount destroyTracker versionTag) in
  let '(err, me, oldValue) := r in
  if negb (bool_decide (err = GF_NOERR)) then ret (err, me, oldValue)
  else
    (if isToken newValue then ret tt else addValid 1) ;!
    (if isInvalid oldValue then ret tt else onEntries (addSize 1)) ;!
    let! found := onSegment key (λ _, getEntry key) in
    match found with
    | None => ret (err, me, oldValue)
    | Some (mePtr, _) =>
        onLRU (appendEntry mePtr) ;!
        let! c := hasController in
        (if c : bool then
           let! newSize := valueSize newValue in
           let! old := oldSize oldValue in
           updateMapSize (newSize + u32 (objectSize key) - old)
         else ret tt) ;!
        let! err := processLRU in
        ret (err, Some mePtr, oldValue)
    end.

(** [invalidate]: the error, [me] and [oldValue]. *)
Definition lru_invalidate (key : K) (me : option Z) (oldValue : CacheablePtr)
    (versionTag : option VersionTag)
    : M LRUMap (GfErrType * option Z * CacheablePtr) :=
  let! n := trackers in
  let! r := onSegment key (λ app, invalidate cfg n key me oldValue versionTag) in
  let '(err, me, oldValue, isTokenAdded) := r in
  (if isTokenAdded : bool then onEntries (addSize 1) else ret tt) ;!
  if negb (bool_decide (err = GF_NOERR)) then ret (err, me, oldValue)
  else
    let isOldValueToken := isToken oldValue in
    let! oldValue :=
      if isOverflowed oldValue then
        match me with Some e => fetchAndDestroy key e | None => undefined end
      else ret oldValue in
    (if isOldValueToken then ret tt
     else
       match me with
       | None => undefined
       | Some e =>
           addValid (-1) ;!
           onLRU (onProps e setEvicted) ;!
           let! old := oldSize oldValue in
           let newSize := tokenSize - old in
           let! c := hasController in
           if c && negb (newSize =? 0) then updateMapSize newSize else ret tt
       end) ;!
    ret (err, me, oldValue).

Definition overflowsToDisk : bool :=
  match m_action with
  | Some a => bool_decide (act_type a = OVERFLOW_TO_DISK)
  | None => false
  end.

(** [put]: the error, [me], [oldValue] and [isUpdate].  A segment that is not
    locked is released at an overflowed value. *)
Definition lru_put (key : K) (newValue : CacheablePtr) (me : option Z)
    (oldValue : CacheablePtr) (updateCount destroyTracker : Z)
    (versionTag : option VersionTag) (isUpdate : bool) (delta : option D)
    : M LRUMap (GfErrType * option Z * CacheablePtr * bool) :=
  let! n := trackers in
  let! r := onSegment key (λ app, put (Application0:=app) cfg n key newValue me oldValue
              updateCount destroyTracker isUpdate versionTag delta) in
  let '(err, me, oldValue, isUpdate, newValue) := r in
  if negb (bool_decide (err = GF_NOERR)) then ret (err, me, oldValue, isUpdate)
  else
    let isOldValueToken := isToken oldValue in
    let! oldValue :=
      if isOverflowed oldValue then
        if overflowsToDisk then
          match me with Some e => fetchAndDestroy key e | None => undefined end
        else undefined
      else ret oldValue in
    (if isToken newValue && negb isOldValueToken then addValid (-1) else ret tt) ;!
    (if negb (isToken newValue) && isOldValueToken then addValid 1 else ret tt) ;!
    let! me :=
      if negb isUpdate then
        onEntries (addSize 1) ;!
        addValid 1 ;!
        let! found := onSegment key (λ _, getEntry key) in
        match found with
        | None => undefined
        | Some (mePtr, _) => onLRU (appendEntry mePtr) ;! ret (Some mePtr)
        end
      else if negb (isToken newValue) && isOldValueToken then
        let! found := onSegment key (λ _, getEntry key) in
        match found with
        | None => undefined
        | Some (mePtr, _) =>
            onLRU (onProps mePtr clearEvicted) ;!
            let! impl := onMapHeap (getImplPtr mePtr) in
            onLRU (appendEntry impl) ;!
            ret (Some mePtr)
        end
      else ret me in
    let! c := hasController in
    (if c : bool then
       let! newSize := valueSize newValue in
       if negb isUpdate then updateMapSize (newSize + u32 (objectSize key))
       else let! old := oldSize oldValue in updateMapSize (newSize - old)
     else ret tt) ;!
    let! err := processLRU in
    ret (err, me, oldValue, isUpdate).

(** [get]: the result, [returnPtr] and [me]. *)
Definition lru_get (key : K) (me : option Z)
    : M LRUMap (bool * CacheablePtr * option Z) :=
  let! found := onSegment key (λ _, getEntry key) in
  match found with
  | None => ret (false, None, me)
  | Some (mePtr, returnPtr) =>
      if isOverflowed (Some returnPtr) then
        let! persistenceInfo := getPersistenceInfo mePtr in
        let! s := get in
        match pm_read key persistenceInfo (lm_disk s) with
        | None => ret (false, Some returnPtr, me)
        | Some tmpObj =>
            incRetrieves ;!
            let! n := trackers in
            let! r := onSegment key (λ app, put (Application0:=app) cfg n key tmpObj
                        (Some mePtr) None 0 0 false None None) in
            let '(err, me', _, _, _) := r in
            (if bool_decide (err = GF_NOERR) then
               addValid 1 ;!
               onLRU (onProps mePtr clearEvicted) ;!
               onLRU (appendEntry mePtr)
             else ret tt) ;!
            let! c := hasController in
            (if c : bool then
               match tmpObj with
               | Some _ =>
                   let! v := valueSize tmpObj in updateMapSize (u32 (v - tokenSize))
               | None => updateMapSize SIZEOF_PTR
               end
             else ret tt) ;!
            onLRU (onProps mePtr setRecentlyUsed) ;!
            let! err := processLRU in
            ret (bool_decide (err = GF_NOERR), tmpObj, me')
        end
      else
        onLRU (onProps mePtr setRecentlyUsed) ;!
        ret (true, Some returnPtr, Some mePtr)
  end.
End LRUEntriesMap.

Arguments LRUMap K O P Disk {_ _}.
Arguments LRUAction K O P Disk {_ _}.
