(* ===== verification/LRUMapProps.v ===== *)
(** * Properties of eviction *)

From S2P Require Import Prelude Membership Version MapEntry MapSegment.
From S2P Require Import SegmentInvariant ConcurrentEntriesMap LRUList LRUListProps LRUEntriesMap.

Section Eviction.
Context {K O D P Disk : Type} `{EqDecision K, !Countable K}.
Context `{!CacheableKey K, !Objects O D, !PersistenceManager K P Disk, !TaskIds}.
Implicit Types s : LRUMap K O P Disk.

Definition worldOf s : World K O := em_world (lm_map s).

(** The entry at [e] is an object with a key and a value that is not null. *)
Definition entryOn s (e : Z) (k : K) (v : Value) : Prop :=
  ∃ impl, heapAt (worldOf s) e = Some (Impl impl) ∧ me_key impl = Some k ∧
    me_value impl = Some v ∧ v ≠ VToken DESTROYED.

(** [objectSize()] can be called on the value. *)
Definition sizeOf s (v : Value) : option Z :=
  match v with
  | VToken _ => Some tokenSize
  | VObject l => (λ o, u32 (obj_size o)) <$> w_objects (worldOf s) !! l
  end.

(** Everything eviction may take from the list is there to be written. *)
Record overflow_ok s : Prop := {
  oo_nonempty : l_nodes (lm_lru s) ≠ [];
  oo_entries e : e ∈ l_nodes (lm_lru s) → testEvicted (propsOf e (lm_lru s)) = false →
    ∃ k v, entryOn s e k v ∧ is_Some (sizeOf s v)
}.

Lemma onMapHeap_read {A} (m : M (Heap K) A) a s :
  m (w_heap (worldOf s)) = (Ok a, w_heap (worldOf s)) →
  onMapHeap m s = (Ok a, s).
Proof.
  destruct s as [[[] ? ? ? ?] ? ? ? ? ? ? ? ?]. unfold worldOf, onMapHeap, onEntries, zoom.
  simpl. by intros ->.
Qed.

Lemma run_keyValue s e k v :
  entryOn s e k v →
  onMapHeap (getKeyI e) s = (Ok (Some k), s) ∧
  onMapHeap (getValueI e) s = (Ok (Some v), s).
Proof.
  intros (impl & Eh & Ek & Ev & Hv). unfold heapAt in Eh.
  split; apply onMapHeap_read; unfold getKeyI, getValueI, loadImpl, load, bind; rewrite Eh.
  - by rewrite <- Ek.
  - unfold isDestroyed, ret. rewrite Ev, bool_decide_eq_false_2; congruence.
Qed.

Lemma run_valueSize s v n : sizeOf s v = Some n → valueSize (D:=D) (Some v) s = (Ok n, s).
Proof.
  unfold valueSize, sizeOf, worldOf. rewrite bind_get. destruct v as [t|l]; simpl.
  - by intros [= <-].
  - destruct (w_objects _ !! l); [by intros [= <-]|done].
Qed.

(** Write [OVERFLOWED] into the entry. *)
Definition markOverflowed (e : Z) (impl : MapEntryImpl K) s : LRUMap K O P Disk :=
  let c := lm_map s in
  set_lmap (mkEntriesMap (updEntry e (withValue (Some (VToken OVERFLOWED)) impl)
                            (em_world c)) (m_concurrency c) (m_segments c) (m_size c)
              (m_numDestroyTrackers c)) s.

Lemma run_markOverflowed s e impl :
  heapAt (worldOf s) e = Some (Impl impl) →
  onMapHeap (setValueI e (Some (VToken OVERFLOWED))) s = (Ok tt, markOverflowed e impl s).
Proof.
  intros Eh. unfold onMapHeap, onEntries, zoom, setValueI, loadImpl, load, bind.
  unfold heapAt, worldOf in Eh. by rewrite Eh.
Qed.

Definition infoOf s (e : Z) : option P := m_persistenceInfo (propsOf e (lm_lru s)).

(** What a successful write to disk makes of the state. *)
Definition overflowed (e : Z) (impl : MapEntryImpl K) (info : option P) (d : Disk)
    (size : Z) s : LRUMap K O P Disk :=
  let s1 := set_disk d s in
  let s2 := match infoOf s e with
            | None => (onLRU (onProps e (setPersistenceInfo info)) s1).2
            | Some _ => s1
            end in
  (updateMapSize (u32 (tokenSize - size)) (markOverflowed e impl (incOverflows s2).2)).2.

Lemma run_evict s e k v impl size :
  heapAt (worldOf s) e = Some (Impl impl) → me_key impl = Some k →
  me_value impl = Some v → v ≠ VToken DESTROYED → sizeOf s v = Some size →
  act_evict (LRUOverFlowToDiskAction (D:=D) false) e s =
    match pm_write k v (infoOf s e) (lm_disk s) with
    | (None, d) => (Ok false, set_disk d s)
    | (Some info, d) => (Ok true, overflowed e impl info d size s)
    end.
Proof.
  intros Eh Ek Ev Hv Es. simpl.
  destruct (run_keyValue s e k v) as [Rk Rv]; [by exists impl|].
  rewrite (bind_Ok _ _ _ _ _ Rk), (bind_Ok _ _ _ _ _ Rv).
  unfold getPersistenceInfo. rewrite bind_assoc, bind_get, bind_ret, bind_get.
  fold (infoOf s e). destruct (pm_write k v (infoOf s e) (lm_disk s)) as [[info|] d]; [|done].
  unfold overflowed. rewrite (bind_Ok _ _ _ tt (set_disk d s)) by done. cbv zeta.
  set (s2 := match infoOf s e with Some _ => set_disk d s | None => _.2 end).
  rewrite (bind_Ok _ _ _ tt s2).
  2: { unfold s2. by destruct (infoOf s e). }
  assert (worldOf s2 = worldOf s) as Ew by (unfold s2; by destruct (infoOf s e)).
  rewrite (bind_Ok _ _ s2 tt (incOverflows s2).2) by done.
  rewrite (bind_Ok _ _ _ _ _ (run_markOverflowed (incOverflows s2).2 e impl
    ltac:(unfold worldOf in *; simpl; by rewrite Ew))).
  rewrite (bind_Ok _ _ _ size (markOverflowed e impl (incOverflows s2).2)).
  - done.
  - apply run_valueSize. rewrite <- Es. unfold sizeOf, worldOf in *.
    destruct v as [t|l]; [done|]. simpl. by rewrite Ew.
Qed.

Lemma updateMapSize_other n s :
  let s' := (updateMapSize n s).2 in
  lm_lru s' = lm_lru s ∧ lm_map s' = lm_map s ∧ lm_disk s' = lm_disk s ∧
  m_limit s' = m_limit s ∧ m_validEntries s' = m_validEntries s ∧
  lm_overflows s' = lm_overflows s.
Proof. unfold updateMapSize, modify. simpl. by destruct (lm_heapInfo s). Qed.

(** The rest of the map after a write. *)
Lemma overflowed_spec e impl info d size s :
  let s' := overflowed e impl info d size s in
  l_nodes (lm_lru s') = l_nodes (lm_lru s) ∧
  (∀ x, m_bits (propsOf x (lm_lru s')) = m_bits (propsOf x (lm_lru s))) ∧
  (∀ x, infoOf s' x = if decide (x = e) then match infoOf s e with
                                             | Some i => Some i
                                             | None => info
                                             end
                      else infoOf s x) ∧
  worldOf s' = updEntry e (withValue (Some (VToken OVERFLOWED)) impl) (worldOf s) ∧
  lm_disk s' = d ∧ m_limit s' = m_limit s ∧ m_validEntries s' = m_validEntries s ∧
  lm_overflows s' = lm_overflows s + 1.
Proof.
  intros s'. unfold s', overflowed, worldOf, infoOf. cbv zeta.
  destruct (updateMapSize_other (u32 (tokenSize - size)) (markOverflowed e impl (incOverflows
    match m_persistenceInfo (propsOf e (lm_lru s)) with
    | Some _ => set_disk d s
    | None => (onLRU (onProps e (setPersistenceInfo info)) (set_disk d s)).2
    end).2)) as (-> & -> & -> & -> & -> & ->).
  destruct (m_persistenceInfo (propsOf e (lm_lru s))) as [i|] eqn:Ei; simpl.
  - split_and!; try done. intros x. by case_decide as Hx; [subst x|].
  - split_and!; try done; intros x; case_decide as Hx || destruct (decide (x = e)) as [Hx|Hx].
    all: try (subst x; unfold propsOf; simpl; by rewrite lookup_insert_eq).
    all: unfold propsOf; simpl; by rewrite lookup_insert_ne.
Qed.

Lemma overflowed_map e impl info d size s :
  let c := lm_map s in
  lm_map (overflowed e impl info d size s) =
  mkEntriesMap (updEntry e (withValue (Some (VToken OVERFLOWED)) impl) (em_world c))
    (m_concurrency c) (m_segments c) (m_size c) (m_numDestroyTrackers c).
Proof.
  unfold overflowed. cbv zeta.
  set (s2 := match infoOf s e with Some _ => set_disk d s | None => _.2 end).
  destruct (updateMapSize_other (u32 (tokenSize - size))
    (markOverflowed e impl (incOverflows s2).2)) as (_ & -> & _).
  unfold s2. by destruct (infoOf s e).
Qed.

(** ** Overflow to disk *)

Lemma overflow_ok_sub s s' :
  overflow_ok s → l_nodes (lm_lru s') ≠ [] → l_nodes (lm_lru s') ⊆ l_nodes (lm_lru s) →
  (∀ e, testEvicted (propsOf e (lm_lru s)) = true →
        testEvicted (propsOf e (lm_lru s')) = true) →
  worldOf s' = worldOf s → overflow_ok s'.
Proof.
  intros [_ He] Hne Hn Hev Hw. split; [done|]. intros e Hin Hf.
  destruct (He e) as (k & v & Hk & Hs).
  - by apply Hn.
  - destruct (testEvicted (propsOf e (lm_lru s))) eqn:E; [|done].
    by rewrite (Hev e E) in Hf.
  - exists k, v. unfold entryOn, sizeOf in *. by rewrite Hw.
Qed.

Lemma overflow_ok_overflowed e impl info d size s :
  overflow_ok s → is_Some (me_key impl) →
  overflow_ok (overflowed e impl info d size s).
Proof.
  intros [Hne He] [k0 Ek].
  destruct (overflowed_spec e impl info d size s) as (Hn & Hb & _ & Hw & _).
  set (s' := overflowed e impl info d size s) in *. split; [by rewrite Hn|].
  intros x. rewrite Hn. unfold testEvicted. rewrite Hb. intros Hin Hx.
  destruct (He x Hin Hx) as (k & v & (i & Eh & Hk) & Hs).
  destruct (decide (x = e)) as [->|Hne'].
  - exists k0, (VToken OVERFLOWED). split; [|by eexists].
    eexists. rewrite Hw, heapAt_updEntry, decide_True by done. split; [done|].
    split_and!; [by rewrite <- Ek|done..].
  - exists k, v. split.
    + exists i. rewrite Hw, heapAt_updEntry, decide_False by done. by split.
    + unfold sizeOf in *. by rewrite Hw.
Qed.

Variables (cfg : SegConfig) (m_heapLRUEnabled regionDestroyed : bool).

Notation overflowAction := (LRUOverFlowToDiskAction (D:=D) regionDestroyed).
Notation helper := (evictionHelper (Some overflowAction)).

(** A reason for an eviction not to happen. *)
Definition diskFails : Prop :=
  regionDestroyed = true ∨ ∃ (k : K) v (i : option P) (d d' : Disk), pm_write k v i d = (None, d').

Definition helperResult s (err : GfErrType) s' : Prop :=
  overflow_ok s' ∧ m_limit s' = m_limit s ∧
  match err with
  | GF_NOERR => (lruMeasure (lm_lru s') < lruMeasure (lm_lru s))%nat ∧
      m_validEntries s' = u32 (m_validEntries s - 1) ∧
      lm_overflows s' = lm_overflows s + 1
  | GF_ENOENT => liveQueue (lm_lru s') = [] ∧
      m_validEntries s' = m_validEntries s ∧ lm_overflows s' = lm_overflows s
  | GF_DISKFULL => diskFails ∧
      m_validEntries s' = m_validEntries s ∧ lm_overflows s' = lm_overflows s
  | _ => False
  end.

Lemma takes_overflow_ok s r l :
  overflow_ok s → takes (lm_lru s) r l → overflow_ok (set_lru l s).
Proof. intros Hs [Hne Hn Hev _ _ _]. by eapply overflow_ok_sub. Qed.

(** After a successful write: one entry less, marked as evicted. *)
Definition evictedEntry (e : Z) s : LRUMap K O P Disk :=
  (onLRU (onProps e setEvicted) (addValid (-1) s).2).2.

Lemma evictedEntry_spec e s :
  l_nodes (lm_lru (evictedEntry e s)) = l_nodes (lm_lru s) ∧
  (∀ x, testEvicted (propsOf x (lm_lru s)) = true →
        testEvicted (propsOf x (lm_lru (evictedEntry e s))) = true) ∧
  worldOf (evictedEntry e s) = worldOf s.
Proof.
  split_and!; try done. intros x Hx. unfold evictedEntry. simpl.
  destruct (decide (e = x)) as [<-|].
  - rewrite (propsOf_same (lm_lru s)). apply test_setEvicted.
  - by rewrite (propsOf_other (lm_lru s)).
Qed.

Lemma helper_overflow s :
  overflow_ok s → ∃ err s', helper s = (Ok err, s') ∧ helperResult s err s'.
Proof.
  intros Hs. destruct (getLRUEntry_takes (lm_lru s) (oo_nonempty _ Hs)) as (r & l & El & Ht).
  unfold evictionHelper. rewrite (bind_Ok _ _ s r (set_lru l s)).
  2: { unfold onLRU, zoom. by rewrite El. }
  pose proof (takes_overflow_ok s r l Hs Ht) as Hs1. destruct r as [e|].
  2: { eexists _, _. split; [reflexivity|]. split; [done|]. split; [done|].
       split; [exact (tk_result _ _ _ Ht)|done]. }
  destruct (tk_result _ _ _ Ht) as (Hin & Hev & _).
  destruct (oo_entries _ Hs e Hin Hev) as (k & v & (impl & Eh & Ek & Ev & Hv) & [size Es]).
  destruct regionDestroyed eqn:Ed.
  { eexists _, _. split; [reflexivity|]. split; [done|]. split; [done|].
    split; [by left|done]. }
  pose proof (run_evict (set_lru l s) e k v impl size Eh Ek Ev Hv Es) as Re.
  destruct (pm_write k v (infoOf (set_lru l s) e) (lm_disk (set_lru l s))) as [[info|] d] eqn:Ew;
    rewrite (bind_Ok _ _ _ _ _ Re).
  2: { eexists _, _. split; [reflexivity|]. split; [|split; [done|]].
       - by apply (overflow_ok_sub (set_lru l s)); [|exact (tk_nonempty _ _ _ Ht)|..].
       - split; [|done]. right. eauto 10. }
  set (s2 := overflowed e impl info d size (set_lru l s)) in *.
  assert (overflow_ok s2) as Hs2 by (apply overflow_ok_overflowed; [done|by eexists]).
  destruct (overflowed_spec e impl info d size (set_lru l s))
    as (Hn & Hb & _ & _ & _ & Hlim & Hval & Hover).
  destruct (evictedEntry_spec e s2) as (Hn3 & Hev3 & Hw3).
  exists GF_NOERR, (evictedEntry e s2). split; [done|]. split; [|split].
  - apply (overflow_ok_sub s2); [done|by rewrite Hn3; apply oo_nonempty|by rewrite Hn3|done..].
  - exact Hlim.
  - split_and!; [| |exact Hover].
    2: { change (u32 (m_validEntries s2 - 1) = u32 (m_validEntries s - 1)).
         unfold s2. by rewrite Hval. }
    apply Nat.le_lt_trans with (lruMeasure l); [|by eapply takes_measure].
    etransitivity; [by apply (lruMeasure_mono (lm_lru s2))|].
    apply lruMeasure_mono; [done|]. intros x. unfold testEvicted. by rewrite Hb.
Qed.

(** ** Claims *)

(** What [processLRU] achieves. *)
Definition processResult s (err : GfErrType) s' : Prop :=
  overflow_ok s' ∧ m_limit s' = m_limit s ∧
  m_validEntries s' = u32 (m_validEntries s - (lm_overflows s' - lm_overflows s)) ∧
  match err with
  | GF_NOERR => m_validEntries s' ≤ m_limit s'
  | GF_ENOENT => liveQueue (lm_lru s') = []
  | GF_DISKFULL => diskFails
  | _ => False
  end.

Lemma u32_sub a b : u32 (u32 a - b) = u32 (a - b).
Proof. unfold u32, uwrap. by rewrite Zminus_mod_idemp_l. Qed.

Lemma processLRU_loop_overflow fuel : ∀ s,
  overflow_ok s → in_u 32 (m_validEntries s) → (lruMeasure (lm_lru s) < fuel)%nat →
  ∃ err s', processLRU_loop m_heapLRUEnabled (Some overflowAction) fuel GF_NOERR s =
      (Ok (Some err), s') ∧ processResult s err s'.
Proof.
  induction fuel as [|fuel IH]; intros s Hs Hv Hf; [lia|].
  cbn [processLRU_loop]. rewrite bind_get, bool_decide_eq_true_2 by done. cbn [andb].
  unfold mustEvict at 1. cbn [act_overflows LRUOverFlowToDiskAction].
  destruct (Z.ltb_spec (m_limit s) (m_validEntries s)) as [Hlt|Hle].
  2: { exists GF_NOERR, s. split; [done|]. unfold processResult. split_and!; [done..| |done].
       rewrite Z.sub_diag, Z.sub_0_r. symmetry. by apply uwrap_id. }
  destruct (helper_overflow s Hs) as (err & s1 & E & Hs1 & Hlim & Hr).
  rewrite (bind_Ok _ _ _ _ _ E). destruct (decide (err = GF_NOERR)) as [->|Hne].
  - destruct Hr as (Hm & Hval & Ho).
    destruct (IH s1 Hs1) as (err & s2 & E2 & Hs2 & Hlim2 & Hval2 & Hr2).
    + rewrite Hval. by apply uwrap_range.
    + lia.
    + exists err, s2. split; [done|]. split_and!; [done|by rewrite Hlim2| |done].
      rewrite Hval2, Hval, u32_sub. f_equal. lia.
  - assert (processLRU_loop m_heapLRUEnabled (Some overflowAction) fuel err s1 =
      (Ok (Some err), s1)) as ->.
    { destruct fuel; simpl; rewrite bind_get, bool_decide_eq_false_2 by done; done. }
    exists err, s1. split; [done|].
    assert (∀ n, n = m_validEntries s → n = u32 (m_validEntries s - 0)) as Hu
      by (intros n ->; rewrite Z.sub_0_r; symmetry; by apply uwrap_id).
    destruct err; try done; destruct Hr as (Hx & Hval & Ho);
      (split; [done|]; split; [done|]; split; [|done]; rewrite Ho, Z.sub_diag; by apply Hu).
Qed.


(** The account of memory grows when a value leaves memory: the difference of
    two [uint32_t] sizes wraps around before it is added. *)
Theorem overflow_grows_account s e k v impl size info d q :
  heapAt (worldOf s) e = Some (Impl impl) → me_key impl = Some k →
  me_value impl = Some v → v ≠ VToken DESTROYED → sizeOf s v = Some size →
  tokenSize < size < 2 ^ 32 → lm_heapInfo s = Some q →
  pm_write k v (infoOf s e) (lm_disk s) = (Some info, d) →
  ∃ s', act_evict (LRUOverFlowToDiskAction (D:=D) false) e s = (Ok true, s') ∧
    lm_heapInfo s' = Some (q ++ [2 ^ 32 + tokenSize - size]) ∧
    m_currentMapSize s' = i64 (m_currentMapSize s + (2 ^ 32 + tokenSize - size)).
Proof.
  intros Eh Ek Ev Hv Es Hsz Hq Hw.
  rewrite (run_evict s e k v impl size Eh Ek Ev Hv Es), Hw. eexists. split; [done|].
  assert (u32 (tokenSize - size) = 2 ^ 32 + tokenSize - size) as Eu.
  { unfold u32, uwrap, tokenSize in *. symmetry. apply (Z.mod_unique _ _ (-1)); lia. }
  unfold overflowed, updateMapSize, modify. cbv zeta. rewrite Eu.
  destruct (infoOf s e); simpl; by rewrite Hq.
Qed.
End Eviction.
