(* ===== verification/OverflowProps.v ===== *)
(** * Values that were moved to disk come back *)

From S2P Require Import Prelude Membership Version MapEntry MapSegment.
From S2P Require Import SegmentInvariant SegmentOps SegmentProps ConcurrentEntriesMap EntriesMapProps.
From S2P Require Import LRUList LRUListProps LRUEntriesMap LRUMapProps.

(** What the interface promises of an implementation: [read] gives the value
    that was written last, under the information [write] left with the entry. *)
Class PersistenceLaws (K P Disk : Type) `{!PersistenceManager K P Disk} : Prop :=
  pm_read_write (k : K) v (i i' : option P) (d d' : Disk) :
    pm_write k v i d = (Some i', d') →
    pm_read k (match i with Some _ => i | None => i' end) d' = Some (Some v).

Section Put.
Context {K O D : Type} `{EqDecision K, !Countable K}.
Context `{!CacheableKey K, !Application K O D, !TaskIds}.
Variable cfg : SegConfig.
Hypothesis Hcc : cf_concurrencyChecksEnabled cfg = true.

(** [put] on a bound key that is not a tombstone overwrites the entry in place. *)
Lemma run_put_bound n k v me old uc dt upd (w : World K O) g l e st :
  idx_ok g → Z.of_nat (size (m_map g)) < 2 ^ 32 →
  m_map g !! k = Some l → entry_ok w k l e → tomb_ok w g k l e →
  me_value e ≠ Some (VToken TOMBSTONE) → me_stamp e = Some st →
  ∃ g1, put (D:=D) cfg n k (Some v) me old uc dt upd None None (mkState w g) =
    (Ok (GF_NOERR, Some l, me_value e, true, Some v),
     mkState (updEntry l (withStamp st (withValue (Some v) e)) w) g1) ∧
    m_map g1 = m_map g.
Proof.
  intros Hi Hs Em He Hto Hnt Est.
  destruct (run_rehash w g Hi Hs) as (g1 & Er & E1 & E2 & _ & Hi1).
  unfold put. rewrite (bind_Ok _ _ _ _ _ Er), (bind_Ok _ _ _ _ _ (run_find k w g1)).
  rewrite E1, Em. pose proof He as [Hl _ Hth _ [Hsome Hd]].
  rewrite (bind_Ok _ _ _ _ _ (run_getImplPtr w g1 l e Hl Hth)).
  rewrite (bind_Ok _ _ _ _ _ (run_getValueI w g1 l e Hl Hd)).
  unfold checkVersion. rewrite Hcc, bind_assoc.
  rewrite (bind_Ok _ _ _ _ _ (run_getVersionStamp w g1 l e Hl st Est)), bind_ret.
  cbn [fst snd]. rewrite bool_decide_eq_true_2 by done. cbn [negb].
  rewrite (proj2 (isTombstone_false _)) by done.
  assert (tomb_ok w g1 k l e) as Hto1 by (unfold tomb_ok in *; by rewrite E2).
  rewrite (bind_Ok _ _ _ _ _ (run_putForTracked cfg Hcc k (Some v) l e uc st w g1 He Hto1)).
  assert (m_tombstoneMap g1 !! k = None) as Ht.
  { unfold tomb_ok in Hto1. destruct (m_tombstoneMap g1 !! k); [by destruct Hto1|done]. }
  cbn [fst snd]. rewrite bool_decide_eq_true_2, bool_decide_eq_true_2 by done.
  unfold eraseW, eraseG. rewrite Ht. by exists g1.
Qed.
End Put.

Section Overflow.
Context {K O D P Disk : Type} `{EqDecision K, !Countable K}.
Context `{!CacheableKey K, !Objects O D, !PersistenceManager K P Disk, !TaskIds}.
Context `{!PersistenceLaws K P Disk}.
Implicit Types s : LRUMap K O P Disk.
Variables (cfg : SegConfig) (m_heapLRUEnabled : bool).
Hypothesis Hcc : cf_concurrencyChecksEnabled cfg = true.

Notation overflowAction := (LRUOverFlowToDiskAction (D:=D) false).

(** The key is bound to the entry [impl] at [e]. *)
Record bound s (k : K) (g : Segment K) (e : Z) (impl : MapEntryImpl K) : Prop := {
  bd_segment : m_segments (lm_map s) !! indexOf (lm_map s) k = Some g;
  bd_map : m_map g !! k = Some e;
  bd_entry : entry_ok (worldOf s) k e impl;
  bd_tomb : tomb_ok (worldOf s) g k e impl;
  bd_value : me_value impl ≠ Some (VToken TOMBSTONE);
  bd_idx : idx_ok g;
  bd_small : Z.of_nat (size (m_map g)) < 2 ^ 32
}.

Lemma onSegment_read {A} k (m : Application K O D → M (State K O) A) a g s :
  m_segments (lm_map s) !! indexOf (lm_map s) k = Some g →
  m (appAt s) (mkState (worldOf s) g) = (Ok a, mkState (worldOf s) g) →
  onSegment k m s = (Ok a, s).
Proof.
  intros Hg E. unfold onSegment. rewrite bind_get. unfold onEntries, zoom.
  rewrite (onSegmentFor_read k _ a g (lm_map s) Hg E). by destruct s.
Qed.

Lemma run_getEntry s k g e impl v :
  bound s k g e impl → me_value impl = Some v →
  onSegment (D:=D) k (λ _, getEntry k) s = (Ok (Some (e, v)), s).
Proof.
  intros [Hg Hm He _ Hv _ _] Ev. apply (onSegment_read k _ _ g s Hg). unfold getEntry.
  pose proof He as [Hl _ Hth _ [_ Hd]].
  rewrite (bind_Ok _ _ _ _ _ (run_find k (worldOf s) g)), Hm.
  rewrite (bind_Ok _ _ _ _ _ (run_getImplPtr _ g e impl Hl Hth)).
  rewrite (bind_Ok _ _ _ _ _ (run_getValueI _ g e impl Hl Hd)), Ev.
  rewrite (proj2 (isTombstone_false _)) by congruence. done.
Qed.

(** The segment after a [put] through the map. *)
Lemma run_segment_put s k g e impl v st n me :
  bound s k g e impl → me_stamp impl = Some st →
  ∃ c', onSegment k (λ app, put (Application0:=app) cfg n k (Some v) me None 0 0 false None None) s =
      (Ok (GF_NOERR, Some e, me_value impl, true, Some v), set_lmap c' s) ∧
    em_world c' = updEntry e (withStamp st (withValue (Some v) impl)) (worldOf s).
Proof.
  intros [Hg Hm He Ht Hv Hi Hs] Est.
  destruct (run_put_bound (D:=D) (Application0:=appAt s) cfg Hcc n k v me None 0 0 false
    (worldOf s) g e impl st Hi Hs Hm He Ht Hv Est) as (g1 & E & _).
  eexists. split.
  - unfold onSegment. rewrite bind_get. unfold onEntries, zoom, onSegmentFor.
    rewrite bind_get. fold (indexOf (lm_map s) k). unfold onIndex. rewrite Hg.
    unfold worldOf in E. rewrite E. reflexivity.
  - done.
Qed.

Lemma bound_overflowed s k g e impl info d size :
  bound s k g e impl →
  bound (evictedEntry e (overflowed e impl info d size s)) k g e
    (withValue (Some (VToken OVERFLOWED)) impl).
Proof.
  intros [Hg Hm [Hl Hk Hth Hst [Hsome Hd]] Ht Hv Hi Hs].
  pose proof (overflowed_map e impl info d size s) as E. cbv zeta in E.
  unfold evictedEntry. split; try done.
  - unfold indexOf. simpl. by rewrite E.
  - unfold worldOf. simpl. rewrite E. split; try done.
    unfold worldOf. simpl. by rewrite heapAt_updEntry, decide_True.
  - unfold tomb_ok in *. destruct (m_tombstoneMap g !! k); [by destruct Ht|done].
Qed.

(** Changes to one entry that keeps a value. *)
Lemma overflow_ok_entry s s' e k v :
  overflow_ok s → l_nodes (lm_lru s') ≠ [] →
  (∀ x, x ≠ e → x ∈ l_nodes (lm_lru s') → x ∈ l_nodes (lm_lru s)) →
  (∀ x, x ≠ e → propsOf x (lm_lru s') = propsOf x (lm_lru s)) →
  (∀ x, x ≠ e → heapAt (worldOf s') x = heapAt (worldOf s) x) →
  w_objects (worldOf s') = w_objects (worldOf s) →
  entryOn s' e k v → is_Some (sizeOf s' v) → overflow_ok s'.
Proof.
  intros [_ He] Hne Hn Hp Hh Ho Hon Hsz. split; [done|]. intros x Hin Hev.
  destruct (decide (x = e)) as [->|Hx]; [by exists k, v|].
  rewrite Hp in Hev by done. destruct (He x (Hn x Hx Hin) Hev) as (k' & v' & Hon' & Hsz').
  exists k', v'. unfold entryOn, sizeOf in *. by rewrite Hh, Ho.
Qed.

(** The state [get] leaves to [processLRU], after the value is back. *)
Definition retrieved (e : Z) (size : Z) (c : EntriesMap K O) s : LRUMap K O P Disk :=
  let s1 := (addValid 1 (set_lmap c (incRetrieves s).2)).2 in
  let s2 := (onLRU (appendEntry e) (onLRU (onProps e clearEvicted) s1).2).2 in
  let s3 := (updateMapSize (u32 (size - tokenSize)) s2).2 in
  (onLRU (onProps e setRecentlyUsed) s3).2.

Lemma retrieved_ok s e k v size c impl st :
  overflow_ok s → em_world c = updEntry e (withStamp st (withValue (Some v) impl)) (worldOf s) →
  me_key impl = Some k → v ≠ VToken DESTROYED → is_Some (sizeOf s v) →
  overflow_ok (retrieved e size c s) ∧ in_u 32 (m_validEntries (retrieved e size c s)).
Proof.
  intros Hs Hc Hk Hv Hsz. unfold retrieved. cbv zeta. set (s2 := (onLRU (appendEntry e) _).2).
  destruct (updateMapSize_other (u32 (size - tokenSize)) s2) as (El & Em & _ & _ & Ev & _).
  set (s3 := (updateMapSize (u32 (size - tokenSize)) s2).2) in *. clearbody s3. split.
  - assert (w_objects (worldOf s3) = w_objects (worldOf s)) as Ho
      by (unfold worldOf; rewrite Em; simpl; by rewrite Hc).
    apply (overflow_ok_entry s _ e k v Hs).
    + unfold onLRU, onProps, zoom, modify. simpl. rewrite El. simpl.
      by destruct (l_nodes (lm_lru s)).
    + intros x Hx. simpl. rewrite El. simpl. rewrite elem_of_app, list_elem_of_singleton.
      naive_solver.
    + intros x Hx. simpl. rewrite (propsOf_other (lm_lru s3)) by done. rewrite El.
      by apply (propsOf_other (lm_lru s)).
    + intros x Hx. unfold worldOf. simpl. rewrite Em. simpl.
      by rewrite Hc, heapAt_updEntry, decide_False.
    + exact Ho.
    + eexists. unfold worldOf. simpl. rewrite Em. simpl.
      rewrite Hc, heapAt_updEntry, decide_True by done. done.
    + revert Hsz. unfold sizeOf. destruct v; [done|].
      change (worldOf (onLRU (onProps e setRecentlyUsed) s3).2) with (worldOf s3).
      by rewrite Ho.
  - simpl. rewrite Ev. by apply uwrap_range.
Qed.

(** Reading the key of an overflowed entry. *)
Lemma run_get_overflowed s k g e impl v size :
  bound s k g e impl → me_value impl = Some (VToken OVERFLOWED) →
  v ≠ VToken DESTROYED → sizeOf s v = Some size → overflow_ok s →
  pm_read k (infoOf s e) (lm_disk s) = Some (Some v) →
  ∃ b s', lru_get (D:=D) cfg m_heapLRUEnabled (Some overflowAction) k None s =
    (Ok (b, Some v, Some e), s').
Proof.
  intros Hb Ev Hv Es Hs Hr. unfold lru_get.
  rewrite (bind_Ok _ _ _ _ _ (run_getEntry s k g e impl _ Hb Ev)).
  change (isOverflowed (Some (VToken OVERFLOWED))) with true. cbv iota.
  unfold getPersistenceInfo. rewrite bind_assoc, bind_get, bind_ret, bind_get.
  fold (infoOf s e). rewrite Hr.
  set (s0 := (incRetrieves s).2). rewrite (bind_Ok _ _ s tt s0) by done.
  unfold trackers. rewrite bind_assoc, bind_get, bind_ret.
  pose proof (bd_entry _ _ _ _ _ Hb) as [_ Hk _ [st Est] _].
  destruct (run_segment_put s0 k g e impl v st (m_numDestroyTrackers (lm_map s0)) (Some e))
    as (c & Ep & Ec); [by destruct Hb; split|done|].
  rewrite (bind_Ok _ _ _ _ _ Ep). cbv beta iota.
  rewrite bool_decide_eq_true_2 by done. cbv iota.
  set (s1 := (addValid 1 (set_lmap c s0)).2).
  set (s2 := (onLRU (appendEntry e) (onLRU (onProps e clearEvicted) s1).2).2).
  rewrite (bind_Ok _ _ (set_lmap c s0) tt s2) by done.
  assert (sizeOf s2 v = Some size) as Es2.
  { rewrite <- Es. unfold sizeOf. destruct v as [t|l]; [done|].
    change (worldOf s2) with (em_world c). by rewrite Ec. }
  unfold hasController. rewrite bind_assoc, bind_get, bind_ret.
  set (s3 := (updateMapSize (u32 (size - tokenSize)) s2).2).
  rewrite (bind_Ok _ _ s2 tt s3).
  2: { unfold s3. destruct (lm_heapInfo s2) eqn:Eq.
       - by rewrite (bind_Ok _ _ _ _ _ (run_valueSize s2 v size Es2)).
       - unfold updateMapSize, modify. by rewrite Eq. }
  rewrite (bind_Ok _ _ s3 tt (retrieved e size c s)) by done.
  destruct (retrieved_ok s e k v size c impl st Hs Ec Hk Hv) as [Hok Hin]; [by eexists|].
  destruct (processLRU_loop_overflow m_heapLRUEnabled false
    (2 + length (l_nodes (lm_lru (retrieved e size c s)))) _ Hok Hin) as (err & s' & E & _).
  { unfold lruMeasure. destruct (decide _); lia. }
  assert (processLRU m_heapLRUEnabled (Some overflowAction) (retrieved e size c s) =
    (Ok err, s')) as Epr.
  { unfold processLRU. rewrite bind_get. by rewrite (bind_Ok _ _ _ _ _ E). }
  rewrite (bind_Ok _ _ _ _ _ Epr). by eexists _, _.
Qed.

Lemma live_updEntry_other (w : World K O) g k k' e impl x :
  key_ok w g k' → heapAt w e = Some (Impl impl) → me_key impl = Some k → k' ≠ k →
  live (updEntry e x w) g k' = live w g k'.
Proof.
  intros Hk Hl Hkey Hne. unfold live, key_ok in *.
  destruct (m_map g !! k') as [l|]; [|done]. destruct Hk as (e' & [Hl' Hk' _ _ _] & _).
  rewrite heapAt_updEntry, decide_False; [done|]. intros ->. congruence.
Qed.

End Overflow.

(** ** The properties at concrete inputs *)

Import Sample.

#[local] Instance sampleObjects : Objects Z Z :=
  {| obj_isDelta _ := false; obj_fromDelta d o := (false, o); obj_size _ := 100 |}.

(** A disk that is a map from keys to values. *)
#[local] Instance sampleDisk : PersistenceManager Z unit (gmap Z Value) := {|
  pm_write k v _ d := (Some (Some tt), <[k := v]> d);
  pm_read k _ d := Some (d !! k);
  pm_destroy k _ d := (true, delete k d)
|}.

#[local] Instance sampleDisk_laws : PersistenceLaws Z unit (gmap Z Value).
Proof. intros k v i i' d d' [= _ <-]. simpl. by rewrite lookup_insert_eq. Qed.

Definition withObjects (objs : gmap Z Z) (c : EntriesMap Z Z) : EntriesMap Z Z :=
  let w := em_world c in
  mkEntriesMap (mkWorld (w_heap w) objs (w_nextObject w) (w_tasks w) (w_handlers w)
    (w_nextHandler w) (w_env w) (w_processedDeltas w) (w_tombstoneCount w)
    (w_tombstoneSize w)) (m_concurrency c) (m_segments c) (m_size c)
    (m_numDestroyTrackers c).

(** Key 8 of the sample map holds object 1, in the entry at 1; one value is in
    memory and none is allowed. *)
Definition sampleMap : EntriesMap Z Z := withObjects {[ 1 := 0 ]} mapFinish.
Definition sampleLRUMap : LRUMap Z Z unit (gmap Z Value) :=
  mkLRUMap sampleMap (mkLRUList [-1; 1] {[ -1 := mkProps 2 None ]}) ∅ 0 1 0 (Some []) 0 0.
Definition sampleSegment : Segment Z :=
  default newSegment (m_segments sampleMap !! indexOf sampleMap 8).
Definition sampleImpl : MapEntryImpl Z :=
  match heapAt (em_world sampleMap) 1 with
  | Some (Impl e) => e
  | _ => mkImpl None None None 0 0 false
  end.

Lemma map_ok_withObjects objs c : map_ok c → map_ok (withObjects objs c).
Proof.
  intros [Hc Hp [Hh Hhd] Hs Hr]. split; [exact Hc|exact Hp|..].
  - split; [exact Hh|exact Hhd].
  - intros i g Hg. destruct (Hs i g Hg) as [_ Hi Hk].
    split; [split; [exact Hh|exact Hhd]|exact Hi|]. intros k.
    refine (proj1 (keeps_intro (em_world c) _ _ _ g k (Hk k))); [by intros ? ? ? []|done].
  - exact Hr.
Qed.

Lemma sampleMap_ok : map_ok sampleMap.
Proof. apply map_ok_withObjects, sample_map_ok. Qed.

Lemma Impl_inj (a b : MapEntryImpl Z) : Some (Impl a) = Some (Impl b) → a = b.
Proof. by intros [= ->]. Qed.

Lemma sampleLRU_bound : bound sampleLRUMap 8 sampleSegment 1 sampleImpl.
Proof.
  assert (m_segments sampleMap !! indexOf sampleMap 8 = Some sampleSegment) as Hg
    by (vm_compute; reflexivity).
  assert (m_map sampleSegment !! 8 = Some 1) as Hm by (vm_compute; reflexivity).
  destruct (mo_segments _ sampleMap_ok _ _ Hg) as [_ Hi Hk]. specialize (Hk 8).
  unfold key_ok in Hk. cbn [st_seg st_world] in Hk. rewrite Hm in Hk.
  destruct Hk as (e & He & Ht).
  assert (e = sampleImpl) as ->.
  { apply Impl_inj. etransitivity; [symmetry; exact (eo_heap _ _ _ _ He)|].
    vm_compute. reflexivity. }
  split; [exact Hg|exact Hm|exact He|exact Ht| |exact Hi|].
  - vm_compute. discriminate.
  - vm_compute. reflexivity.
Qed.

Lemma sampleLRU_ok : overflow_ok sampleLRUMap.
Proof.
  pose proof sampleLRU_bound as [_ _ [Hl Hk _ _ _] _ _ _ _]. split; [done|].
  intros e. cbn [sampleLRUMap lm_lru l_nodes].
  intros [->|[->|[]%elem_of_nil]%elem_of_cons]%elem_of_cons Hev; [done|].
  exists 8, (VObject 1). split; [|vm_compute; by eexists].
  exists sampleImpl. split; [exact Hl|]. split; [exact Hk|]. split; [vm_compute; reflexivity|done].
Qed.


