(* ===== verification/LocalRegion.v ===== *)
(** * The operations of a region

    Models LocalRegion.cpp: [updateNoThrow] with the action classes for put,
    create, destroy, remove and invalidate, its variant for transactions,
    [getNoThrow], [putLocal], [invalidateLocal], [localClearNoThrow] and the
    calls of writers, loaders and listeners.

    The region's own collaborators are interfaces.  [EntriesMapOps] is the
    abstract class of EntriesMap.hpp.  [Peers] stands for the virtual
    [..._remote] functions, which ThinClientRegion overrides with messages to a
    server, and for the application's callbacks; each may throw.  What a region
    does to the outside, and in which order, is recorded in a trace of
    effects. *)

From S2P Require Import Prelude Membership Version MapEntry.

(** ** Flags of an event *)

Record CacheEventFlags := mkFlags { m_flags : Z }.

Definition NORMAL : CacheEventFlags := mkFlags 1.
Definition LOCAL : CacheEventFlags := mkFlags 2.
Definition NOTIFICATION : CacheEventFlags := mkFlags 4.
Definition NOTIFICATION_UPDATE : CacheEventFlags := mkFlags 8.
Definition EVICTION : CacheEventFlags := mkFlags 16.
Definition EXPIRATION : CacheEventFlags := mkFlags 32.
Definition CACHE_CLOSE : CacheEventFlags := mkFlags 64.
Definition NOCACHEWRITER : CacheEventFlags := mkFlags 128.

Definition flags_or (a b : CacheEventFlags) : CacheEventFlags :=
  mkFlags (Z.lor (m_flags a) (m_flags b)).

Definition anyFlag (mask : Z) (f : CacheEventFlags) : bool :=
  negb (Z.land (m_flags f) mask =? 0).

Definition isNormal : CacheEventFlags → bool := anyFlag 1.
Definition isLocal : CacheEventFlags → bool := anyFlag 2.
Definition isNotification : CacheEventFlags → bool := anyFlag 4.
Definition isNotificationUpdate : CacheEventFlags → bool := anyFlag 8.
Definition isEvictOrExpire : CacheEventFlags → bool := anyFlag 48.
Definition invokeCacheWriter (f : CacheEventFlags) : bool := negb (anyFlag 180 f).

(** ** Interfaces *)

(** EntriesMap.hpp.  [remove] reads the clock for the tombstone it leaves. *)
Class EntriesMapOps (E K D : Type) := {
  map_put : K → CacheablePtr → option Z → CacheablePtr → Z → Z → option VersionTag →
    bool → option D → M E (GfErrType * option Z * CacheablePtr * bool * CacheablePtr);
  map_create : K → CacheablePtr → option Z → CacheablePtr → Z → Z →
    option VersionTag → M E (GfErrType * option Z * CacheablePtr);
  map_invalidate : K → option Z → CacheablePtr → option VersionTag →
    M E (GfErrType * option Z * CacheablePtr);
  map_remove : Z → K → CacheablePtr → option Z → Z → option VersionTag → bool →
    M E (GfErrType * CacheablePtr * option Z);
  map_get : K → M E (option (Z * Value));
  map_getEntry : K → M E (option (Z * Value));
  map_containsKey : K → M E bool;
  map_clear : M E unit;
  map_size : M E Z;
  map_addTracker : K → CacheablePtr → bool → bool → bool → M E (Z * CacheablePtr);
  map_removeTracker : K → M E unit
}.

(** A [UserDataPtr] is passed through. *)
Notation UserDataPtr := (option Z).

Inductive WriterCall : Type := beforeCreate | beforeUpdate | beforeDestroy.
Inductive ListenerCall : Type :=
  | afterCreate | afterUpdate | afterDestroy | afterInvalidate.

Section Events.
Context {K : Type}.

Record EntryEvent := mkEntryEvent {
  ev_key : K;
  ev_oldValue : CacheablePtr;
  ev_newValue : CacheablePtr;
  ev_aCallbackArgument : UserDataPtr;
  ev_remoteOrigin : bool
}.

(** The [..._remote] functions. *)
Inductive RemoteCall : Type :=
  | getNoThrow_remote (key : K)
  | putNoThrow_remote (key : K) (value : CacheablePtr)
  | createNoThrow_remote (key : K) (value : CacheablePtr)
  | destroyNoThrow_remote (key : K)
  | removeNoThrow_remote (key : K) (value : CacheablePtr)
  | removeNoThrowEX_remote (key : K)
  | invalidateNoThrow_remote (key : K)
  | getNoThrow_FullObject (eventId : option Z).

(** Counters of [RegionStats] and [CachePerfStats]. *)
Inductive Stat : Type :=
  | Gets | Hits | Misses | Puts | Creates | Destroys | Clears
  | FailureOnDeltaReceived | DeltaReceived
  | LoaderCallsCompleted | WriterCallsCompleted | ListenerCallsCompleted
  | Entries (n : Z) | CacheEntries (n : Z).

Inductive Effect : Type :=
  | Remote (c : RemoteCall) (aCallbackArgument : UserDataPtr)
  | Writer (c : WriterCall) (e : EntryEvent)
  | WriterRegionClear (aCallbackArgument : UserDataPtr)
  | Listener (c : ListenerCall) (e : EntryEvent)
  | ListenerRegionClear (aCallbackArgument : UserDataPtr)
  | Loader (key : K) (aCallbackArgument : UserDataPtr)
  | Inc (s : Stat)
  | TouchRegion (modified : bool)
  | TouchEntry (entry : Z) (modified : bool)
  | RegisterExpiry (entry : Z)
  | Cleanup (entry : Z) (f : CacheEventFlags)
  | TxDirty.
End Events.
Arguments EntryEvent : clear implicits.
Arguments RemoteCall : clear implicits.
Arguments Effect : clear implicits.

(** The server and the application, with a state of their own.  A remote call
    may set the value and the version tag its caller passes by reference. *)
Class Peers (X K : Type) := {
  p_remote : RemoteCall K → UserDataPtr → CacheablePtr → option VersionTag →
    M X (GfErrType * CacheablePtr * option VersionTag);
  p_writer : WriterCall → EntryEvent K → M X bool;
  p_writerRegionClear : UserDataPtr → M X bool;
  p_listener : ListenerCall → EntryEvent K → M X unit;
  p_listenerRegionClear : UserDataPtr → M X unit;
  p_load : K → UserDataPtr → M X CacheablePtr;
  (** [classId()], [typeId()] and the bytes [toData] writes. *)
  p_classId : Value → Z;
  p_typeId : Value → Z;
  p_toData : Value → list Z
}.

Record RegionConfig := mkRegionConfig {
  rc_cachingEnabled : bool;
  rc_concurrencyChecksEnabled : bool;
  rc_writer : bool;
  rc_listener : bool;
  rc_loader : bool;
  (** [typeid( *this) == typeid(LocalRegion)] *)
  rc_isLocalRegion : bool;
  rc_regionExpiryEnabled : bool;
  rc_entryExpiryEnabled : bool;
  (** [getProcessedMarker()] *)
  rc_processedMarker : bool
}.

Section LocalRegion.
Context {E X K D : Type} `{!EntriesMapOps E K D, !Peers X K}.
Variable cfg : RegionConfig.

Record Region := mkRegion {
  m_entries : E;
  r_peers : X;
  r_trace : list (Effect K);
  m_destroyPending : bool;
  m_released : bool;
  (** The transaction of the thread and whether it is dirty. *)
  r_txState : option bool;
  (** Entries with an expiry task. *)
  r_expiryTasks : gset Z;
  r_now : Z
}.

Definition onEntries {A} : M E A → M Region A :=
  zoom m_entries (λ e r, mkRegion e (r_peers r) (r_trace r) (m_destroyPending r) (m_released r)
    (r_txState r) (r_expiryTasks r) (r_now r)).

Definition onPeers {A} : M X A → M Region A :=
  zoom r_peers (λ x r, mkRegion (m_entries r) x (r_trace r) (m_destroyPending r) (m_released r)
    (r_txState r) (r_expiryTasks r) (r_now r)).

Definition emit (e : Effect K) : M Region unit := modify (λ r,
  mkRegion (m_entries r) (r_peers r) (r_trace r ++ [e]) (m_destroyPending r) (m_released r)
    (r_txState r) (r_expiryTasks r) (r_now r)).

Definition inc (s : Stat) : M Region unit := emit (Inc s).

(** [try { m } catch (...) { handler }] *)
Definition catching {A} (m handler : M Region A) : M Region A := λ r,
  match m r with
  | (Throw _, r') => handler r'
  | res => res
  end.

Definition remote (c : RemoteCall K) (arg : UserDataPtr) (value : CacheablePtr)
    (versionTag : option VersionTag)
    : M Region (GfErrType * CacheablePtr * option VersionTag) :=
  emit (Remote c arg) ;! onPeers (p_remote c arg value versionTag).

(** ** Times *)

(** The parent region is touched too. *)
Definition updateAccessAndModifiedTime (modified : bool) : M Region unit :=
  if rc_regionExpiryEnabled cfg then emit (TouchRegion modified) else ret tt.

Definition updateAccessAndModifiedTimeForEntry (ptr : option Z) (modified : bool)
    : M Region unit :=
  match ptr with
  | Some e => if rc_entryExpiryEnabled cfg then emit (TouchEntry e modified) else ret tt
  | None => ret tt
  end.

Definition registerEntryExpiryTask (entry : Z) : M Region unit :=
  emit (RegisterExpiry entry) ;!
  modify (λ r, mkRegion (m_entries r) (r_peers r) (r_trace r) (m_destroyPending r) (m_released r)
    (r_txState r) ({[entry]} ∪ r_expiryTasks r) (r_now r)).

(** ** Callbacks *)

Definition noToken (oldValue : CacheablePtr) : CacheablePtr :=
  if isInvalid oldValue then None else oldValue.

Inductive EntryEventType : Type :=
  | BEFORE_CREATE | BEFORE_UPDATE | BEFORE_INVALIDATE | BEFORE_DESTROY
  | AFTER_CREATE | AFTER_UPDATE | AFTER_INVALIDATE | AFTER_DESTROY.

(** The result and [oldValue]. *)
Definition invokeCacheWriterForEntryEvent (key : K) (oldValue newValue : CacheablePtr)
    (arg : UserDataPtr) (eventFlags : CacheEventFlags) (type : EntryEventType)
    : M Region (bool * CacheablePtr) :=
  if rc_writer cfg then
    let oldValue := noToken oldValue in
    let event := mkEntryEvent key oldValue newValue arg (isNotification eventFlags) in
    let call c :=
      catching (emit (Writer c event) ;!
                let! b := onPeers (p_writer c event) in
                inc WriterCallsCompleted ;!
                ret (b, oldValue))
               (ret (false, oldValue)) in
    match type with
    | BEFORE_UPDATE =>
        match oldValue with
        | Some _ => call beforeUpdate
        | None => call beforeCreate
        end
    | BEFORE_CREATE => call beforeCreate
    | BEFORE_DESTROY => call beforeDestroy
    | _ => ret (true, oldValue)
    end
  else ret (true, oldValue).

Definition invokeCacheListenerForEntryEvent (key : K) (oldValue newValue : CacheablePtr)
    (arg : UserDataPtr) (eventFlags : CacheEventFlags) (type : EntryEventType)
    (isLocal : bool) : M Region (GfErrType * CacheablePtr) :=
  if rc_listener cfg then
    let oldValue := noToken oldValue in
    let event := mkEntryEvent key oldValue newValue arg (isNotification eventFlags) in
    let call c :=
      catching (emit (Listener c event) ;!
                onPeers (p_listener c event) ;!
                inc ListenerCallsCompleted ;!
                ret (GF_NOERR, oldValue))
               (ret (GF_CACHE_LISTENER_EXCEPTION, oldValue)) in
    match type with
    | AFTER_UPDATE =>
        if bool_decide (is_Some oldValue) || isNotificationUpdate eventFlags || isLocal
        then call afterUpdate
        else call afterCreate
    | AFTER_CREATE => call afterCreate
    | AFTER_DESTROY => call afterDestroy
    | AFTER_INVALIDATE => call afterInvalidate
    | _ => ret (GF_NOERR, oldValue)
    end
  else ret (GF_NOERR, oldValue).

(** ** Local changes *)

(** [getEntry(key, valuePtr)] *)
Definition getEntry (key : K) : M Region CacheablePtr :=
  let! r := get in
  if m_destroyPending r then throw RegionDestroyedException
  else if rc_cachingEnabled cfg then
    let! e := onEntries (map_getEntry key) in ret (snd <$> e)
  else ret None.

(** The second half of a put whose delta could not be applied: the complete
    object is fetched from the server.  The error, [entry], [oldValue],
    [isUpdate] and [value]. *)
Definition putFullObject (key : K) (value : CacheablePtr) (entry : option Z)
    (oldValue : CacheablePtr) (updateCount destroyTracker : Z)
    (versionTag : option VersionTag) (isUpdate : bool) (eventId : option Z)
    : M Region (GfErrType * option Z * CacheablePtr * bool * CacheablePtr) :=
  inc FailureOnDeltaReceived ;!
  let! f := remote (getNoThrow_FullObject eventId) None value None in
  let '(err, newValue1, versionTag1) := f in
  if bool_decide (err = GF_NOERR) && bool_decide (is_Some newValue1) then
    onEntries (map_put (D:=D) key newValue1 entry oldValue updateCount destroyTracker
      (match versionTag1 with Some t => Some t | None => versionTag end) isUpdate None)
  else ret (err, entry, oldValue, isUpdate, newValue1).

(** [putLocal]: the error, [value] and [oldValue]. *)
Definition putLocal (isCreate : bool) (key : K) (value oldValue : CacheablePtr)
    (cachingEnabled : bool) (updateCount destroyTracker : Z)
    (versionTag : option VersionTag) (delta : option D) (eventId : option Z)
    : M Region (GfErrType * CacheablePtr * CacheablePtr) :=
  let! r :=
    if cachingEnabled then
      let! r :=
        if isCreate then
          let! c := onEntries (map_create (D:=D) key value None oldValue updateCount
                      destroyTracker versionTag) in
          ret (c.1.1, c.1.2, c.2, false, value)
        else
          let! p := onEntries (map_put key value None oldValue updateCount
                      destroyTracker versionTag true delta) in
          let! p :=
            if bool_decide (p.1.1.1.1 = GF_INVALID_DELTA) then
              let '(_, entry, oldValue, isUpdate, value) := p in
              putFullObject key value entry oldValue updateCount destroyTracker
                versionTag isUpdate eventId
            else ret p in
          (if bool_decide (is_Some delta) && bool_decide (p.1.1.1.1 = GF_NOERR)
           then inc DeltaReceived else ret tt) ;!
          ret p in
      let '(err, entry, oldValue, isUpdate, value) := r in
      if negb (bool_decide (err = GF_NOERR)) then ret r
      else
        (if rc_entryExpiryEnabled cfg then
           match entry with
           | None => undefined
           | Some e =>
               let! s := get in
               if isUpdate && bool_decide (e ∈ r_expiryTasks s)
               then updateAccessAndModifiedTimeForEntry entry true
               else registerEntryExpiryTask e
           end
         else ret tt) ;!
        updateAccessAndModifiedTime true ;!
        ret r
    else ret (GF_NOERR, None, oldValue, negb isCreate, value) in
  let '(err, _, oldValue, isUpdate, value) := r in
  if negb (bool_decide (err = GF_NOERR)) then ret (err, value, oldValue)
  else
    (if isUpdate : bool then inc Puts
     else
       (if cachingEnabled then
          let! n := onEntries (map_size (D:=D)) in
          inc (Entries n) ;! inc (CacheEntries 1)
        else ret tt) ;!
       inc Creates) ;!
    ret (err, value, oldValue).

Definition invalidateLocal (key : K) (eventFlags : CacheEventFlags)
    (versionTag : option VersionTag) : M Region GfErrType :=
  let! r := get in
  if m_destroyPending r then ret GF_CACHE_REGION_DESTROYED_EXCEPTION
  else if negb (isNotification eventFlags) || rc_processedMarker cfg then
    if rc_cachingEnabled cfg then
      let touch :=
        (if isEvictOrExpire eventFlags then ret tt
         else updateAccessAndModifiedTime true) ;!
        ret GF_NOERR in
      let! i := onEntries (map_invalidate (D:=D) key None None versionTag) in
      let err := i.1.1 in
      if bool_decide (err = GF_NOERR) then touch
      else if bool_decide (err = GF_CACHE_CONCURRENT_MODIFICATION_EXCEPTION)
      then ret GF_NOERR
      else if negb (isNotification eventFlags) ||
              negb (bool_decide (err = GF_CACHE_ENTRY_NOT_FOUND)) then ret err
      else touch
    else ret GF_NOERR
  else
    (if rc_cachingEnabled cfg then onEntries (map_getEntry key) ;! ret tt
     else ret tt) ;!
    ret GF_NOERR.

(** The part that destroy and remove share: the error and [oldValue]. *)
Definition removeEntry (key : K) (oldValue : CacheablePtr) (cachingEnabled : bool)
    (eventFlags : CacheEventFlags) (updateCount : Z) (versionTag : option VersionTag)
    (afterRemote : bool) : M Region (GfErrType * CacheablePtr) :=
  let done oldValue := inc Destroys ;! ret (GF_NOERR, oldValue) in
  if cachingEnabled then
    let! s := get in
    let! r := onEntries (map_remove (D:=D) (r_now s) key oldValue None updateCount
                versionTag afterRemote) in
    let '(err, oldValue, entry) := r in
    if negb (bool_decide (err = GF_NOERR)) then
      ret (if isNotification eventFlags then GF_NOERR else err, oldValue)
    else
      (if bool_decide (is_Some oldValue) then
         (match entry with Some e => emit (Cleanup e eventFlags) | None => ret tt end) ;!
         (if isEvictOrExpire eventFlags then ret tt
          else updateAccessAndModifiedTime true) ;!
         let! n := onEntries (map_size (D:=D)) in
         inc (Entries n) ;! inc (CacheEntries (-1))
       else ret tt) ;!
      done oldValue
  else done oldValue.

(** ** The action classes *)

Inductive Action : Type :=
  | PutActions | PutActionsTx | CreateActions | DestroyActions | RemoveActions
  | RemoveActionsEx | InvalidateActions.

Definition s_beforeEventType (a : Action) : EntryEventType :=
  match a with
  | PutActions | PutActionsTx => BEFORE_UPDATE
  | CreateActions => BEFORE_CREATE
  | DestroyActions | RemoveActions | RemoveActionsEx => BEFORE_DESTROY
  | InvalidateActions => BEFORE_INVALIDATE
  end.

Definition s_afterEventType (a : Action) : EntryEventType :=
  match a with
  | PutActions | PutActionsTx => AFTER_UPDATE
  | CreateActions => AFTER_CREATE
  | DestroyActions | RemoveActions | RemoveActionsEx => AFTER_DESTROY
  | InvalidateActions => AFTER_INVALIDATE
  end.

Definition s_addIfAbsent (a : Action) : bool := true.
Definition s_failIfPresent (a : Action) : bool :=
  match a with CreateActions => true | _ => false end.

Definition checkArgs (a : Action) (key : option K) (value : CacheablePtr)
    (delta : option D) : GfErrType :=
  match key with
  | None => GF_CACHE_ILLEGAL_ARGUMENT_EXCEPTION
  | Some _ =>
      match a, value, delta with
      | PutActions, None, None => GF_CACHE_ILLEGAL_ARGUMENT_EXCEPTION
      | _, _, _ => GF_NOERR
      end
  end.

(** [getCallbackOldValue]: the value, if there is an entry. *)
Definition getCallbackOldValue (a : Action) (cachingEnabled : bool) (key : K)
    (oldValue : CacheablePtr) : M Region CacheablePtr :=
  match a with
  | CreateActions => ret oldValue
  | _ =>
      if cachingEnabled then
        let! e := onEntries (map_getEntry key) in
        ret (match e with Some (_, v) => Some v | None => oldValue end)
      else ret oldValue
  end.

(** Two objects of one class that write the same bytes. *)
Definition sameObject (v w : Value) : bool :=
  (p_classId v =? p_classId w) && (p_typeId v =? p_typeId w) &&
  bool_decide (p_toData v = p_toData w).

(** [remoteUpdate]: the error, the version tag and [m_ServerResponse]. *)
Definition remoteUpdate (a : Action) (key : K) (value : CacheablePtr)
    (arg : UserDataPtr) (versionTag : option VersionTag)
    : M Region (GfErrType * option VersionTag * GfErrType) :=
  let call c :=
    let! r := remote c arg None versionTag in ret (r.1.1, r.2, r.1.1) in
  match a with
  | PutActions | PutActionsTx => call (putNoThrow_remote key value)
  | CreateActions => call (createNoThrow_remote key value)
  | DestroyActions => call (destroyNoThrow_remote key)
  | InvalidateActions => call (invalidateNoThrow_remote key)
  | RemoveActionsEx => call (removeNoThrowEX_remote key)
  | RemoveActions =>
      if rc_cachingEnabled cfg then
        let! valuePtr := getEntry key in
        let differs := ret (GF_ENOENT, versionTag, GF_ENOENT) in
        match valuePtr, value with
        | Some v, Some w =>
            if sameObject v w then call (removeNoThrow_remote key value) else differs
        | _, _ =>
            if bool_decide (valuePtr = None) || isInvalid valuePtr
            then call (removeNoThrow_remote key value)
            else differs
        end
      else call (removeNoThrow_remote key value)
  end.

Definition removeTracking (key : K) (updateCount : Z) : M Region unit :=
  if (0 <=? updateCount) && negb (rc_concurrencyChecksEnabled cfg)
  then onEntries (map_removeTracker (D:=D) key) else ret tt.

(** [localUpdate]: the error, [value] and [oldValue]. *)
Definition localUpdate (a : Action) (m_ServerResponse : GfErrType) (key : K)
    (value oldValue : CacheablePtr) (cachingEnabled : bool)
    (eventFlags : CacheEventFlags) (updateCount : Z) (versionTag : option VersionTag)
    (delta : option D) (eventId : option Z) (afterRemote : bool)
    : M Region (GfErrType * CacheablePtr * CacheablePtr) :=
  let remove :=
    let! r := removeEntry key oldValue cachingEnabled eventFlags updateCount versionTag
                afterRemote in
    ret (r.1, value, r.2) in
  match a with
  | PutActions | PutActionsTx =>
      putLocal false key value oldValue cachingEnabled updateCount 0 versionTag delta
        eventId
  | CreateActions =>
      putLocal true key value oldValue cachingEnabled updateCount 0 versionTag None None
  | DestroyActions | RemoveActionsEx => remove
  | RemoveActions =>
      if cachingEnabled then
        let! valuePtr := getEntry key in
        match valuePtr, value with
        | Some v, Some w =>
            if sameObject v w then remove else ret (GF_ENOENT, value, oldValue)
        | _, None =>
            if negb (isInvalid valuePtr) || bool_decide (valuePtr = None) then
              removeTracking key updateCount ;!
              ret (if bool_decide (m_ServerResponse = GF_NOERR) &&
                      bool_decide (valuePtr = None) then GF_NOERR else GF_ENOENT,
                   value, oldValue)
            else remove
        | None, Some _ =>
            if bool_decide (m_ServerResponse = GF_NOERR) then remove
            else ret (GF_ENOENT, value, oldValue)
        end
      else remove
  | InvalidateActions =>
      let! err := invalidateLocal key eventFlags versionTag in
      ret (err, value, oldValue)
  end.

(** ** Updates *)

(** [txState->setDirty()] *)
Definition setDirty : M Region unit :=
  emit TxDirty ;!
  modify (λ r, mkRegion (m_entries r) (r_peers r) (r_trace r) (m_destroyPending r) (m_released r)
    (Some true) (r_expiryTasks r) (r_now r)).

Definition isLocalOp (eventFlags : option CacheEventFlags) : bool :=
  rc_isLocalRegion cfg || match eventFlags with Some f => isLocal f | None => false end.

(** The local update and the listener: the part of [updateNoThrow] that follows
    the remote update. *)
Definition applyUpdate (a : Action) (m_ServerResponse : GfErrType) (key : K)
    (value : CacheablePtr) (arg : UserDataPtr) (oldValue : CacheablePtr)
    (updateCount : Z) (eventFlags : CacheEventFlags) (versionTag : option VersionTag)
    (delta : option D) (eventId : option Z) (remoteOpDone : bool)
    : M Region (GfErrType * CacheablePtr) :=
  let cachingEnabled := rc_cachingEnabled cfg in
  let listener value oldValue :=
    invokeCacheListenerForEntryEvent key oldValue value arg eventFlags
      (s_afterEventType a) false in
  if negb (isNotification eventFlags) || rc_processedMarker cfg then
    let! l := localUpdate a m_ServerResponse key value oldValue cachingEnabled eventFlags
                updateCount versionTag delta eventId remoteOpDone in
    let '(err, value, oldValue) := l in
    if bool_decide (err = GF_CACHE_ENTRY_UPDATED) then listener value oldValue
    else if bool_decide (err = GF_CACHE_CONCURRENT_MODIFICATION_EXCEPTION)
    then ret (GF_NOERR, oldValue)
    else if bool_decide (err = GF_INVALID_DELTA) then
      inc FailureOnDeltaReceived ;!
      let! f := remote (getNoThrow_FullObject eventId) None value None in
      let '(err, newValue1, versionTag1) := f in
      if bool_decide (err = GF_NOERR) && bool_decide (is_Some newValue1) then
        let! p := onEntries (map_put (D:=D) key newValue1 None oldValue updateCount 0
          (match versionTag1 with Some t => Some t | None => versionTag end) true None) in
        let '(err, _, oldValue, _, value) := p in
        if bool_decide (err = GF_CACHE_CONCURRENT_MODIFICATION_EXCEPTION)
        then ret (GF_NOERR, oldValue)
        else if negb (bool_decide (err = GF_NOERR)) then ret (err, oldValue)
        else listener value oldValue
      else listener newValue1 oldValue
    else if negb (bool_decide (err = GF_NOERR)) then ret (err, oldValue)
    else listener value oldValue
  else
    let! oldValue := getCallbackOldValue a cachingEnabled key oldValue in
    removeTracking key updateCount ;!
    listener value oldValue.

(** [updateNoThrow<TAction>]: the error and [oldValue]. *)
Definition updateNoThrow (a : Action) (key : option K) (value : CacheablePtr)
    (arg : UserDataPtr) (oldValue : CacheablePtr) (updateCount : Z)
    (eventFlags : CacheEventFlags) (versionTag : option VersionTag)
    (delta : option D) (eventId : option Z) : M Region (GfErrType * CacheablePtr) :=
  let args := checkArgs a key value delta in
  match key with
  | None => ret (args, oldValue)
  | Some key =>
  if negb (bool_decide (args = GF_NOERR)) then ret (args, oldValue)
  else
  let! r := get in
  if m_destroyPending r then ret (GF_CACHE_REGION_DESTROYED_EXCEPTION, oldValue)
  else
  match r_txState r with
  | Some _ =>
      if isLocalOp (Some eventFlags) then ret (GF_NOTSUP, oldValue)
      else
        let! u := remoteUpdate a key value arg versionTag in
        (if bool_decide (u.1.1 = GF_NOERR) then setDirty else ret tt) ;!
        ret (u.1.1, oldValue)
  | None =>
  let cachingEnabled := rc_cachingEnabled cfg in
  let! w :=
    if rc_writer cfg && invokeCacheWriter eventFlags then
      let! oldValue := getCallbackOldValue a cachingEnabled key oldValue in
      invokeCacheWriterForEntryEvent key oldValue value arg eventFlags
        (s_beforeEventType a)
    else ret (true, oldValue) in
  let (approved, oldValue) := w in
  if negb approved then ret (GF_CACHEWRITER_ERROR, oldValue)
  else if negb (isLocal eventFlags) && negb (isNotification eventFlags) then
    let! t :=
      if cachingEnabled && (updateCount <? 0) && negb (rc_concurrencyChecksEnabled cfg)
      then onEntries (map_addTracker (D:=D) key oldValue (s_addIfAbsent a)
             (s_failIfPresent a) true)
      else ret (updateCount, oldValue) in
    let (updateCount', oldValue) := t in
    if cachingEnabled && (updateCount <? 0) && negb (rc_concurrencyChecksEnabled cfg) &&
       (updateCount' <? 0) && bool_decide (is_Some oldValue)
    then ret (GF_CACHE_ENTRY_EXISTS, oldValue)
    else
      let! u := remoteUpdate a key value arg versionTag in
      let '(err, versionTag, response) := u in
      if negb (bool_decide (err = GF_NOERR)) then
        removeTracking key updateCount' ;! ret (err, oldValue)
      else applyUpdate a response key value arg oldValue updateCount' eventFlags
             versionTag delta eventId true
  else applyUpdate a GF_ENOENT key value arg oldValue updateCount eventFlags versionTag
         delta eventId false
  end
  end.

(** [updateNoThrowTX<TAction>] *)
Definition updateNoThrowTX (a : Action) (key : option K) (value : CacheablePtr)
    (arg : UserDataPtr) (oldValue : CacheablePtr) (updateCount : Z)
    (eventFlags : CacheEventFlags) (versionTag : option VersionTag)
    (delta : option D) (eventId : option Z) : M Region (GfErrType * CacheablePtr) :=
  let args := checkArgs a key value delta in
  match key with
  | None => ret (args, oldValue)
  | Some key =>
  if negb (bool_decide (args = GF_NOERR)) then ret (args, oldValue)
  else
  let! r := get in
  if m_destroyPending r then ret (GF_CACHE_REGION_DESTROYED_EXCEPTION, oldValue)
  else
  let cachingEnabled := rc_cachingEnabled cfg in
  let listener value oldValue :=
    invokeCacheListenerForEntryEvent key oldValue value arg eventFlags
      (s_afterEventType a) false in
  if negb (isNotification eventFlags) || rc_processedMarker cfg then
    let! l := localUpdate a GF_ENOENT key value oldValue cachingEnabled eventFlags
                updateCount versionTag delta eventId false in
    let '(err, value, oldValue) := l in
    if bool_decide (err = GF_CACHE_ENTRY_UPDATED) ||
       bool_decide (err = GF_CACHE_ENTRY_NOT_FOUND) ||
       bool_decide (err = GF_NOERR)
    then listener value oldValue
    else ret (err, oldValue)
  else
    let! oldValue := getCallbackOldValue a cachingEnabled key oldValue in
    removeTracking key updateCount ;!
    listener value oldValue
  end.

(** ** The entry points of the operations *)

Definition putNoThrow (key : option K) (value : CacheablePtr) (arg : UserDataPtr)
    (oldValue : CacheablePtr) (updateCount : Z) (eventFlags : CacheEventFlags)
    (versionTag : option VersionTag) (delta : option D) (eventId : option Z) :=
  updateNoThrow PutActions key value arg oldValue updateCount eventFlags versionTag
    delta eventId.

Definition putNoThrowTX (key : option K) (value : CacheablePtr) (arg : UserDataPtr)
    (oldValue : CacheablePtr) (updateCount : Z) (eventFlags : CacheEventFlags)
    (versionTag : option VersionTag) (delta : option D) (eventId : option Z) :=
  updateNoThrowTX PutActionsTx key value arg oldValue updateCount eventFlags versionTag
    delta eventId.

Definition withoutOldValue (m : M Region (GfErrType * CacheablePtr))
    : M Region GfErrType := let! r := m in ret r.1.

Definition createNoThrow (key : option K) (value : CacheablePtr) (arg : UserDataPtr)
    (updateCount : Z) (eventFlags : CacheEventFlags) (versionTag : option VersionTag) :=
  withoutOldValue (updateNoThrow CreateActions key value arg None updateCount eventFlags
    versionTag None None).

Definition destroyNoThrow (key : option K) (arg : UserDataPtr) (updateCount : Z)
    (eventFlags : CacheEventFlags) (versionTag : option VersionTag) :=
  withoutOldValue (updateNoThrow DestroyActions key None arg None updateCount eventFlags
    versionTag None None).

Definition destroyNoThrowTX (key : option K) (arg : UserDataPtr) (updateCount : Z)
    (eventFlags : CacheEventFlags) (versionTag : option VersionTag) :=
  withoutOldValue (updateNoThrowTX DestroyActions key None arg None updateCount
    eventFlags versionTag None None).

Definition removeNoThrow (key : option K) (value : CacheablePtr) (arg : UserDataPtr)
    (updateCount : Z) (eventFlags : CacheEventFlags) (versionTag : option VersionTag) :=
  withoutOldValue (updateNoThrow RemoveActions key value arg None updateCount eventFlags
    versionTag None None).

Definition removeNoThrowEx (key : option K) (arg : UserDataPtr) (updateCount : Z)
    (eventFlags : CacheEventFlags) (versionTag : option VersionTag) :=
  withoutOldValue (updateNoThrow RemoveActionsEx key None arg None updateCount eventFlags
    versionTag None None).

Definition invalidateNoThrow (key : option K) (arg : UserDataPtr) (updateCount : Z)
    (eventFlags : CacheEventFlags) (versionTag : option VersionTag) :=
  withoutOldValue (updateNoThrow InvalidateActions key None arg None updateCount
    eventFlags versionTag None None).

Definition invalidateNoThrowTX (key : option K) (arg : UserDataPtr) (updateCount : Z)
    (eventFlags : CacheEventFlags) (versionTag : option VersionTag) :=
  withoutOldValue (updateNoThrowTX InvalidateActions key None arg None updateCount
    eventFlags versionTag None None).

(** ** Reading *)

Definition isToken (v : CacheablePtr) : bool := isInvalid v || isTombstone v.
Definition hideToken (v : CacheablePtr) : CacheablePtr := if isToken v then None else v.

(** The loader, if the server had no value: the error, the value and whether it
    was invoked. *)
Definition loadMissing (key : K) (arg : UserDataPtr) (err : GfErrType)
    (value : CacheablePtr) : M Region (GfErrType * CacheablePtr * bool) :=
  if (bool_decide (value = None) || isToken value) && rc_loader cfg then
    catching (emit (Loader key arg) ;!
              let! v := onPeers (p_load key arg) in
              inc LoaderCallsCompleted ;!
              ret (err, v, true))
             (ret (GF_CACHE_LOADER_EXCEPTION, value, true))
  else ret (err, value, false).

(** The part of [getNoThrow] after a miss; [isLocal] says whether there was an
    entry and [localValue] what it held.  The error, [value] and [updateCount]
    as the tracking guard sees it. *)
Definition fetchMissing (key : K) (arg : UserDataPtr) (isLocal : bool)
    (localValue value : CacheablePtr) (updateCount : Z)
    : M Region (GfErrType * CacheablePtr * Z) :=
  let cachingEnabled := rc_cachingEnabled cfg in
  updateAccessAndModifiedTime false ;!
  inc Misses ;!
  let! g := remote (getNoThrow_remote key) arg value None in
  let '(err, value, versionTag) := g in
  let! l := loadMissing key arg err value in
  let '(err, value, isLoaderInvoked) := l in
  if isLoaderInvoked && negb (bool_decide (err = GF_NOERR)) then
    ret (err, value, updateCount)
  else
    let finish err value oldValue updateCount :=
      let value := hideToken value in
      if negb isLoaderInvoked && bool_decide (err = GF_NOERR) && bool_decide (is_Some value)
      then
        let! i := invokeCacheListenerForEntryEvent key oldValue value arg NORMAL
                    AFTER_UPDATE isLocal in
        ret (i.1, value, updateCount)
      else ret (err, value, updateCount) in
    if bool_decide (is_Some value) && cachingEnabled &&
       negb (isTombstone value &&
             (bool_decide (localValue = None) || isInvalid localValue)) then
      let! p := putLocal false key value None cachingEnabled updateCount 0 versionTag None
                  None in
      let '(err, value, oldValue) := p in
      if bool_decide (err = GF_CACHE_CONCURRENT_MODIFICATION_EXCEPTION)
      then ret (GF_NOERR, hideToken value, updateCount)
      else if negb (bool_decide (err = GF_NOERR)) then
        finish GF_NOERR
          (if bool_decide (is_Some oldValue) && negb (isInvalid oldValue) then oldValue
           else value) oldValue (-1)
      else finish err value oldValue (-1)
    else finish err value None updateCount.

(** [getNoThrow]: the error and [value]; tracking is removed on every way out. *)
Definition getNoThrow (key : option K) (arg : UserDataPtr)
    : M Region (GfErrType * CacheablePtr) :=
  let! r := get in
  if m_destroyPending r then ret (GF_CACHE_REGION_DESTROYED_EXCEPTION, None)
  else
  match key with
  | None => ret (GF_CACHE_ILLEGAL_ARGUMENT_EXCEPTION, None)
  | Some key =>
  match r_txState r with
  | Some _ =>
      if isLocalOp None then ret (GF_NOTSUP, None)
      else
        let! g := remote (getNoThrow_remote key) arg None None in
        (if bool_decide (g.1.1 = GF_NOERR) then setDirty else ret tt) ;!
        ret (g.1.1, hideToken g.1.2)
  | None =>
  inc Gets ;!
  let miss isLocal localValue value updateCount :=
    let! f := fetchMissing key arg isLocal localValue value updateCount in
    removeTracking key f.2 ;!
    ret f.1 in
  if rc_cachingEnabled cfg then
    let! e := onEntries (map_get key) in
    match e with
    | Some (me, v) =>
        if isInvalid (Some v) then
          let! t := if rc_concurrencyChecksEnabled cfg then ret (-1, None)
                    else onEntries (map_addTracker (D:=D) key None true false false) in
          miss true (Some v) t.2 t.1
        else
          inc Hits ;!
          updateAccessAndModifiedTimeForEntry (Some me) false ;!
          updateAccessAndModifiedTime false ;!
          ret (GF_NOERR, Some v)
    | None =>
        let! t := if rc_concurrencyChecksEnabled cfg then ret (-1, None)
                  else onEntries (map_addTracker (D:=D) key None true false false) in
        miss false None t.2 t.1
    end
  else miss false None None (-1)
  end
  end.

Definition containsKey_internal (key : K) : M Region bool :=
  if rc_cachingEnabled cfg then onEntries (map_containsKey key) else ret false.

Definition containsValueForKey_local (key : K) : M Region bool :=
  let! r := get in
  if m_destroyPending r then throw RegionDestroyedException
  else if rc_cachingEnabled cfg then
    let! e := onEntries (map_getEntry key) in
    ret (match e with Some (_, v) => negb (isInvalid (Some v)) | None => false end)
  else ret false.

(** ** Clearing *)

Definition localClearNoThrow (arg : UserDataPtr) (eventFlags : CacheEventFlags)
    : M Region GfErrType :=
  inc Clears ;!
  let! r := get in
  if m_released r || m_destroyPending r then ret GF_NOERR
  else
    let! approved :=
      if rc_writer cfg then
        catching (emit (WriterRegionClear arg) ;!
                  let! b := onPeers (p_writerRegionClear arg) in
                  inc WriterCallsCompleted ;!
                  ret b)
                 (ret false)
      else ret true in
    if negb approved then ret GF_CACHEWRITER_ERROR
    else
      (if rc_cachingEnabled cfg then onEntries map_clear else ret tt) ;!
      if isNormal eventFlags || negb (rc_listener cfg) then ret GF_NOERR
      else
        catching (emit (ListenerRegionClear arg) ;!
                  onPeers (p_listenerRegionClear arg) ;!
                  inc ListenerCallsCompleted ;!
                  ret GF_NOERR)
                 (ret GF_CACHE_LISTENER_EXCEPTION).
End LocalRegion.

Arguments Region E X K : clear implicits.
