(* ===== verification/RegionSpec.v ===== *)
(** * What a region promises

    [EntriesMapLaws] is what LocalRegion.cpp relies on in the map of its
    entries; ConcurrentEntriesMap discharges it in RegionProps.v.  [updates] is
    the protocol of an update: the application's writer is asked first, then the
    server, then the cache is changed and the listener told. *)

From S2P Require Import Prelude Membership Version MapEntry SegmentInvariant SegmentOps.
From S2P Require Import LocalRegion.

(** ** The map of the entries *)

Class EntriesMapLaws (E K D : Type) `{!EntriesMapOps E K D} := {
  em_inv : E → Prop;
  (** The value the region sees under a key. *)
  sees : E → K → CacheablePtr;
  (** There is room for the key, and version tags can be compared. *)
  fits : E → K → Prop;
  law_put c k v me old uc dt tag upd :
    em_inv c → fits c k → storable v →
    ∃ err me' old' upd' c',
      map_put k (Some v) me old uc dt tag upd None c =
        (Ok (err, me', old', upd', Some v), c') ∧
      em_inv c' ∧ (∀ k', k' ≠ k → sees c' k' = sees c k') ∧
      (tag = None → err = GF_NOERR) ∧ verdict err ∧
      (err = GF_NOERR → sees c' k = Some v ∧
         upd' = bool_decide (is_Some (sees c k)) ∧ (upd' = true → old' = sees c k) ∧
         (upd' = false → old' = None ∨ old' = old) ∧ is_Some me') ∧
      (err ≠ GF_NOERR → sees c' k = sees c k ∧ old' = old);
  law_create c k v me uc dt tag :
    em_inv c → fits c k → storable v →
    ∃ err me' old' c',
      map_create (D:=D) k (Some v) me None uc dt tag c = (Ok (err, me', old'), c') ∧
      em_inv c' ∧ (∀ k', k' ≠ k → sees c' k' = sees c k') ∧
      (tag = None → sees c k = None → err = GF_NOERR) ∧
      (is_Some (sees c k) → err = GF_CACHE_ENTRY_EXISTS ∧ old' = sees c k) ∧
      (sees c k = None → verdict err) ∧
      (err = GF_NOERR → sees c k = None ∧ sees c' k = Some v ∧ old' = None ∧
         is_Some me') ∧
      (err ≠ GF_NOERR → sees c' k = sees c k);
  law_remove now c k old me uc tag afterRemote :
    em_inv c → fits c k →
    ∃ err old' me' c',
      map_remove (D:=D) now k old me uc tag afterRemote c = (Ok (err, old', me'), c') ∧
      em_inv c' ∧ (∀ k', k' ≠ k → sees c' k' = sees c k') ∧
      (verdict err ∨ err = GF_CACHE_ENTRY_NOT_FOUND ∧ afterRemote = false) ∧
      (tag = None → is_Some (sees c k) ∨ afterRemote = true → err = GF_NOERR) ∧
      (err = GF_NOERR → sees c' k = None ∧ old' = sees c k ∧
         (sees c k = None → afterRemote = true)) ∧
      (err ≠ GF_NOERR → sees c' k = sees c k);
  law_invalidate c k me old tag :
    em_inv c → fits c k →
    ∃ err me' old' (added : bool) c',
      map_invalidate (D:=D) k me old tag c = (Ok (err, me', old'), c') ∧
      em_inv c' ∧ (∀ k', k' ≠ k → sees c' k' = sees c k') ∧
      (verdict err ∨ err = GF_CACHE_ENTRY_NOT_FOUND) ∧
      (added = true → sees c k = None ∧ err = GF_CACHE_ENTRY_NOT_FOUND ∧
         sees c' k = Some (VToken INVALID)) ∧
      (err = GF_NOERR → added = false ∧ is_Some (sees c k) ∧ old' = sees c k ∧
         sees c' k = Some (VToken INVALID)) ∧
      (added = false → err ≠ GF_NOERR → sees c' k = sees c k);
  law_getEntry c k :
    em_inv c → ∃ e, map_getEntry (D:=D) k c = (Ok e, c) ∧ snd <$> e = sees c k;
  law_get c k :
    em_inv c → ∃ e, map_get (D:=D) k c = (Ok e, c) ∧ snd <$> e = sees c k;
  law_sees c k v : em_inv c → sees c k = Some v → storable v;
  law_size c : ∃ n, map_size (D:=D) c = (Ok n, c)
}.

(** The remote functions report errors by code, and the application's callbacks
    return or throw. *)
Class PeersLaws (X K : Type) `{!Peers X K} := {
  law_remote c arg value tag x : ∃ a x', p_remote c arg value tag x = (Ok a, x');
  law_writer c e x : (p_writer c e x).1 ≠ UB;
  law_listener c e x : (p_listener c e x).1 ≠ UB;
  law_load k arg x : (p_load k arg x).1 ≠ UB;
  (** The marker of a destroyed entry never leaves the map. *)
  law_fetched k arg x err v t x' :
    p_remote (getNoThrow_remote k) arg None None x = (Ok (err, v, t), x') →
    isDestroyed v = false;
  law_loaded k arg x v x' : p_load k arg x = (Ok v, x') → isDestroyed v = false
}.

(** ** The protocol of an update *)

Section Protocol.
Context {X K : Type} `{!Peers X K}.
Variable cfg : RegionConfig.
Implicit Types (x : X) (k : K).

(** Calls that leave the region. *)
Definition isCall (e : Effect K) : bool :=
  match e with
  | Remote _ _ | Writer _ _ | WriterRegionClear _ | Listener _ _
  | ListenerRegionClear _ | Loader _ _ => true
  | _ => false
  end.

Definition calls (trace : list (Effect K)) : list (Effect K) := List.filter isCall trace.

(** The callback an update leads to. *)
Definition writerCall (a : Action) (old : CacheablePtr) : WriterCall :=
  match a with
  | PutActions | PutActionsTx => if old then beforeUpdate else beforeCreate
  | CreateActions => beforeCreate
  | _ => beforeDestroy
  end.

Definition listenerCall (a : Action) (f : CacheEventFlags) (old : CacheablePtr)
    : ListenerCall :=
  match a with
  | PutActions | PutActionsTx =>
      if bool_decide (is_Some old) || isNotificationUpdate f then afterUpdate
      else afterCreate
  | CreateActions => afterCreate
  | InvalidateActions => afterInvalidate
  | _ => afterDestroy
  end.

Definition remoteCall (a : Action) (k : K) (value : CacheablePtr) : RemoteCall K :=
  match a with
  | PutActions | PutActionsTx => putNoThrow_remote k value
  | CreateActions => createNoThrow_remote k value
  | DestroyActions => destroyNoThrow_remote k
  | RemoveActions => removeNoThrow_remote k value
  | RemoveActionsEx => removeNoThrowEX_remote k
  | InvalidateActions => invalidateNoThrow_remote k
  end.

(** What the region sees after the update. *)
Definition resultOf (a : Action) (value : CacheablePtr) : CacheablePtr :=
  match a with
  | PutActions | PutActionsTx | CreateActions => value
  | InvalidateActions => Some (VToken INVALID)
  | _ => None
  end.

(** A writer that throws has not approved. *)
Definition writerAnswer (c : WriterCall) (e : EntryEvent K) x : bool * X :=
  match p_writer c e x with
  | (Ok b, x') => (b, x')
  | (_, x') => (false, x')
  end.

Definition listenerAnswer (c : ListenerCall) (e : EntryEvent K) x : GfErrType * X :=
  match p_listener c e x with
  | (Ok _, x') => (GF_NOERR, x')
  | (_, x') => (GF_CACHE_LISTENER_EXCEPTION, x')
  end.

(** The old value a callback is told: a create does not look it up for the
    writer. *)
Definition writerEvent (a : Action) k (before value : CacheablePtr) arg f : EntryEvent K :=
  mkEntryEvent k (match a with CreateActions => None | _ => noToken before end) value arg
    (isNotification f).

Definition listenerEvent k (before value : CacheablePtr) arg f : EntryEvent K :=
  mkEntryEvent k (noToken before) value arg (isNotification f).

(** The writer's answer and the calls made for it. *)
Definition asked (a : Action) k (before value : CacheablePtr) arg f x
    : bool * X * list (Effect K) :=
  if rc_writer cfg && invokeCacheWriter f then
    let e := writerEvent a k before value arg f in
    (writerAnswer (writerCall a (ev_oldValue e)) e x,
     [Writer (writerCall a (ev_oldValue e)) e])
  else (true, x, []).

(** The listener's answer and the calls made for it. *)
Definition told (a : Action) k (before value : CacheablePtr) arg f x
    : GfErrType * X * list (Effect K) :=
  if rc_listener cfg then
    let e := listenerEvent k before value arg f in
    (listenerAnswer (listenerCall a f (noToken before)) e x,
     [Listener (listenerCall a f (noToken before)) e])
  else (GF_NOERR, x, []).

(** [updates a k value arg f tag before x err after x' es]: an update of [k]
    that the region saw as [before], with the outside in state [x], returns
    [err], leaves the region seeing [after] and the outside in [x'], and has made
    the calls [es]. *)
Inductive updates (a : Action) k (value : CacheablePtr) arg f (tag : option VersionTag)
    (before : CacheablePtr) x
    : GfErrType → CacheablePtr → X → list (Effect K) → Prop :=
  | update_vetoed x1 W :
      asked a k before value arg f x = (false, x1, W) →
      updates a k value arg f tag before x GF_CACHEWRITER_ERROR before x1 W
  | update_refused x1 W err v t x2 :
      asked a k before value arg f x = (true, x1, W) →
      p_remote (remoteCall a k value) arg None tag x1 = (Ok (err, v, t), x2) →
      err ≠ GF_NOERR →
      updates a k value arg f tag before x err before x2
        (W ++ [Remote (remoteCall a k value) arg])
  | update_stale x1 W v t x2 err :
      asked a k before value arg f x = (true, x1, W) →
      p_remote (remoteCall a k value) arg None tag x1 = (Ok (GF_NOERR, v, Some t), x2) →
      err = GF_NOERR ∨ err = GF_CACHE_ILLEGAL_STATE_EXCEPTION →
      updates a k value arg f tag before x err before x2
        (W ++ [Remote (remoteCall a k value) arg])
  | update_exists x1 W v t x2 :
      asked a k before value arg f x = (true, x1, W) →
      p_remote (remoteCall a k value) arg None tag x1 = (Ok (GF_NOERR, v, t), x2) →
      a = CreateActions → is_Some before →
      updates a k value arg f tag before x GF_CACHE_ENTRY_EXISTS before x2
        (W ++ [Remote (remoteCall a k value) arg])
  | update_applied x1 W v t x2 err x3 L :
      asked a k before value arg f x = (true, x1, W) →
      p_remote (remoteCall a k value) arg None tag x1 = (Ok (GF_NOERR, v, t), x2) →
      (a = CreateActions → before = None) →
      told a k before value arg f x2 = (err, x3, L) →
      updates a k value arg f tag before x err (resultOf a value) x3
        (W ++ [Remote (remoteCall a k value) arg] ++ L).

(** ** The protocol of a read *)

(** The loader is asked for what the server does not have: the error, the value,
    whether it was asked, the outside and the calls made. *)
Definition loaded k arg (err : GfErrType) (v : CacheablePtr) x
    : GfErrType * CacheablePtr * bool * X * list (Effect K) :=
  if (bool_decide (v = None) || isToken v) && rc_loader cfg then
    match p_load k arg x with
    | (Ok w, x') => (err, w, true, x', [Loader k arg])
    | (_, x') => (GF_CACHE_LOADER_EXCEPTION, v, true, x', [Loader k arg])
    end
  else (err, v, false, x, []).

(** What a miss brings, with the version tag of the server. *)
Definition fetched k arg x
    : GfErrType * CacheablePtr * option VersionTag * bool * X * list (Effect K) :=
  match p_remote (getNoThrow_remote k) arg None None x with
  | (Ok (err, v, t), x1) =>
      let '(err', v', b, x2, es) := loaded k arg err v x1 in
      (err', v', t, b, x2, Remote (getNoThrow_remote k) arg :: es)
  | (_, x1) => (GF_NOERR, None, None, false, x1, [])
  end.

(** The listener after a value came from the server: an entry that was invalid is
    updated. *)
Definition toldRead k (before value : CacheablePtr) arg x
    : GfErrType * X * list (Effect K) :=
  if rc_listener cfg then
    let l := if before then afterUpdate else afterCreate in
    let e := mkEntryEvent k None value arg false in
    (listenerAnswer l e x, [Listener l e])
  else (GF_NOERR, x, []).

(** [reads k arg before x err result after x' es] *)
Inductive reads k arg (before : CacheablePtr) x
    : GfErrType → CacheablePtr → CacheablePtr → X → list (Effect K) → Prop :=
  | read_hit v :
      before = Some v → v ≠ VToken INVALID →
      reads k arg before x GF_NOERR (Some v) before x []
  | read_notLoaded err v t x1 es :
      before = None ∨ isInvalid before = true →
      fetched k arg x = (err, v, t, true, x1, es) → err ≠ GF_NOERR →
      reads k arg before x err v before x1 es
  | read_absent err v t b x1 es :
      before = None ∨ isInvalid before = true →
      fetched k arg x = (err, v, t, b, x1, es) → (b = true → err = GF_NOERR) →
      v = None ∨ isTombstone v = true →
      reads k arg before x err None before x1 es
  | read_loaded v t x1 es :
      before = None ∨ isInvalid before = true →
      fetched k arg x = (GF_NOERR, Some v, t, true, x1, es) → storable v →
      reads k arg before x GF_NOERR (hideToken (Some v)) (Some v) x1 es
  | read_invalid err t x1 es :
      before = None ∨ isInvalid before = true →
      fetched k arg x = (err, Some (VToken INVALID), t, false, x1, es) →
      reads k arg before x GF_NOERR None (Some (VToken INVALID)) x1 es
  | read_stored err v t x1 es err' x2 L :
      before = None ∨ isInvalid before = true →
      fetched k arg x = (err, Some v, t, false, x1, es) → storable v →
      v ≠ VToken INVALID → toldRead k before (Some v) arg x1 = (err', x2, L) →
      reads k arg before x err' (Some v) (Some v) x2 (es ++ L)
  | read_stale err v t b x1 es :
      before = None ∨ isInvalid before = true →
      fetched k arg x = (err, Some v, Some t, b, x1, es) → storable v →
      reads k arg before x GF_NOERR (hideToken (Some v)) before x1 es
  | read_unordered err v t x1 es err' x2 L :
      before = None ∨ isInvalid before = true →
      fetched k arg x = (err, Some v, Some t, false, x1, es) → storable v →
      v ≠ VToken INVALID → toldRead k before (Some v) arg x1 = (err', x2, L) →
      reads k arg before x err' (Some v) before x2 (es ++ L).
End Protocol.
