(* ===== verification/RegionProps.v ===== *)
(** * Properties of the operations of a region

    The operations of LocalRegion.v against the interfaces of RegionSpec.v. *)

From S2P Require Import Prelude Membership Version MapEntry SegmentInvariant SegmentOps.
From S2P Require Import LocalRegion RegionSpec.

(** ** Runs *)

Section Runs.
Context {E X K D : Type} `{!EntriesMapOps E K D, !Peers X K}.
Context `{!EntriesMapLaws E K D, !PeersLaws X K}.
Variable cfg : RegionConfig.
Implicit Types (c : E) (x : X) (k : K) (r : Region E X K) (tr : list (Effect K)).

(** A live region outside a transaction: its entries, the outside, the trace and
    the entries with an expiry task; [rel] and [now] do not change. *)
Variables (rel : bool) (now : Z).
Definition R c x tr (tasks : gset Z) : Region E X K :=
  mkRegion c x tr false rel None tasks now.

Lemma calls_app (l1 l2 : list (Effect K)) : calls (l1 ++ l2) = calls l1 ++ calls l2.
Proof. apply List.filter_app. Qed.

(** A run that makes no call and changes neither the entries nor the outside. *)
Definition quiet {A} (m : M (Region E X K) A) (a : A) : Prop :=
  ∀ c x tr tasks, ∃ tr' tasks',
    m (R c x tr tasks) = (Ok a, R c x tr' tasks') ∧ calls tr' = calls tr.

Lemma quiet_ret {A} (a : A) : quiet (ret a) a.
Proof. intros c x tr tasks. by exists tr, tasks. Qed.

Lemma quiet_emit e : isCall e = false → quiet (emit e) tt.
Proof.
  intros He c x tr tasks. exists (tr ++ [e]), tasks. split; [done|].
  rewrite calls_app. simpl. rewrite He. by rewrite app_nil_r.
Qed.

Lemma quiet_bind {A B} (m : M (Region E X K) A) (f : A → M (Region E X K) B) a b :
  quiet m a → quiet (f a) b → quiet (bind m f) b.
Proof.
  intros Hm Hf c x tr tasks. destruct (Hm c x tr tasks) as (tr1 & t1 & E1 & C1).
  destruct (Hf c x tr1 t1) as (tr2 & t2 & E2 & C2).
  exists tr2, t2. rewrite (bind_Ok _ _ _ _ _ E1). split; [done|congruence].
Qed.

Lemma quiet_size : ∀ (f : Z → M (Region E X K) unit),
  (∀ n, quiet (f n) tt) → quiet (bind (onEntries (map_size (D:=D))) f) tt.
Proof.
  intros f Hf c x tr tasks. destruct (law_size (D:=D) c) as [n En].
  destruct (Hf n c x tr tasks) as (tr' & t' & E' & C').
  exists tr', t'. split; [|done]. unfold bind, onEntries, zoom. simpl. by rewrite En.
Qed.

Lemma quiet_inc s : quiet (inc s) tt.
Proof. by apply quiet_emit. Qed.

Lemma quiet_touch b : quiet (updateAccessAndModifiedTime cfg b) tt.
Proof.
  unfold updateAccessAndModifiedTime. case_match; [by apply quiet_emit|apply quiet_ret].
Qed.

Lemma quiet_touchEntry e b : quiet (updateAccessAndModifiedTimeForEntry cfg e b) tt.
Proof.
  unfold updateAccessAndModifiedTimeForEntry.
  destruct e; [case_match; [by apply quiet_emit|]|]; apply quiet_ret.
Qed.

Lemma quiet_register e : quiet (registerEntryExpiryTask e) tt.
Proof.
  unfold registerEntryExpiryTask. eapply quiet_bind; [by apply quiet_emit|].
  intros c x tr tasks. by eexists _, _.
Qed.

(** The expiry task after a put. *)
Lemma quiet_expiry (upd : bool) e :
  quiet (let! s := get in
         if upd && bool_decide (e ∈ r_expiryTasks s)
         then updateAccessAndModifiedTimeForEntry cfg (Some e) true
         else registerEntryExpiryTask e) tt.
Proof.
  intros c x tr tasks. rewrite bind_get. case_match; [apply quiet_touchEntry|].
  apply quiet_register.
Qed.

Lemma run_onEntries {A} (m : M E A) a c c' x tr tasks :
  m c = (Ok a, c') → onEntries m (R c x tr tasks) = (Ok a, R c' x tr tasks).
Proof. intros E1. unfold onEntries, zoom. simpl. by rewrite E1. Qed.

(** ** Callbacks *)

Lemma run_writerCall w e (old : CacheablePtr) c x tr tasks :
  ∃ tr',
    catching (emit (Writer w e) ;!
              let! b := onPeers (p_writer w e) in
              inc WriterCallsCompleted ;! ret (b, old))
             (ret (false, old)) (R c x tr tasks) =
      (Ok ((writerAnswer w e x).1, old), R c (writerAnswer w e x).2 tr' tasks) ∧
    calls tr' = calls tr ++ [Writer w e].
Proof.
  pose proof (law_writer w e x) as Hub. unfold writerAnswer, catching, bind, onPeers, zoom.
  simpl. destruct (p_writer w e x) as [[b| |] x']; simpl in *; [| |done].
  - eexists. split; [done|]. by rewrite !calls_app, app_nil_r.
  - eexists. split; [done|]. by rewrite calls_app.
Qed.

Lemma run_listenerCall l e (old : CacheablePtr) c x tr tasks :
  ∃ tr',
    catching (emit (Listener l e) ;!
              onPeers (p_listener l e) ;!
              inc ListenerCallsCompleted ;! ret (GF_NOERR, old))
             (ret (GF_CACHE_LISTENER_EXCEPTION, old)) (R c x tr tasks) =
      (Ok ((listenerAnswer l e x).1, old), R c (listenerAnswer l e x).2 tr' tasks) ∧
    calls tr' = calls tr ++ [Listener l e].
Proof.
  pose proof (law_listener l e x) as Hub.
  unfold listenerAnswer, catching, bind, onPeers, zoom.
  simpl. destruct (p_listener l e x) as [[b| |] x']; simpl in *; [| |done].
  - eexists. split; [done|]. by rewrite !calls_app, app_nil_r.
  - eexists. split; [done|]. by rewrite calls_app.
Qed.

Lemma noToken_idemp v : noToken (noToken v) = noToken v.
Proof. unfold noToken. destruct (isInvalid v) eqn:E1; [done|by rewrite E1]. Qed.

(** What the callbacks are told of the value before. *)
Definition lookedUp (a : Action) (before old : CacheablePtr) : CacheablePtr :=
  match a with
  | CreateActions => old
  | _ => match before with Some v => Some v | None => old end
  end.

Lemma lookedUp_noToken a before :
  noToken (lookedUp a before None) =
  match a with CreateActions => None | _ => noToken before end.
Proof. by destruct a, before. Qed.

Lemma run_getCallbackOldValue a k old c x tr tasks :
  em_inv c →
  getCallbackOldValue a true k old (R c x tr tasks) =
  (Ok (lookedUp a (sees c k) old), R c x tr tasks).
Proof.
  intros Hc. unfold getCallbackOldValue, lookedUp.
  destruct (law_getEntry (D:=D) c k Hc) as (e & Ee & <-).
  destruct a; [..|done| | | |];
    rewrite (bind_Ok _ _ _ _ _ (run_onEntries _ _ _ _ x tr tasks Ee));
    by destruct e as [[]|].
Qed.

(** The question to the writer in [updateNoThrow]. *)
Lemma run_writer a k value arg f c x tr tasks :
  em_inv c → a ≠ InvalidateActions →
  let '(b, x', W) := asked cfg a k (sees c k) value arg f x in
  ∃ tr' old',
    (if rc_writer cfg && invokeCacheWriter f then
       let! oldValue := getCallbackOldValue a true k None in
       invokeCacheWriterForEntryEvent cfg k oldValue value arg f (s_beforeEventType a)
     else ret (true, None)) (R c x tr tasks) =
      (Ok (b, old'), R c x' tr' tasks) ∧ calls tr' = calls tr ++ W ∧
    (old' = None ∨ a ≠ CreateActions ∧ old' = noToken (sees c k)).
Proof.
  intros Hc Ha. unfold asked. destruct (rc_writer cfg) eqn:Ew; simpl.
  2: { exists tr, None. rewrite app_nil_r. by auto. }
  destruct (invokeCacheWriter f); simpl.
  2: { exists tr, None. rewrite app_nil_r. by auto. }
  rewrite (bind_Ok _ _ _ _ _ (run_getCallbackOldValue a k None c x tr tasks Hc)).
  set (e := writerEvent a k (sees c k) value arg f).
  destruct (run_writerCall (writerCall a (ev_oldValue e)) e (ev_oldValue e) c x tr tasks)
    as (tr' & Er & Hcalls).
  rewrite (surjective_pairing (writerAnswer (writerCall a (ev_oldValue e)) e x)).
  exists tr', (ev_oldValue e). split_and!; [|done|].
  - rewrite <- Er. unfold invokeCacheWriterForEntryEvent. rewrite Ew.
    assert (noToken (lookedUp a (sees c k) None) = ev_oldValue e) as ->.
    { apply lookedUp_noToken. }
    unfold e, writerEvent. destruct a; try done; simpl; by destruct (noToken _).
  - unfold e. destruct a; simpl; auto.
Qed.

(** The call of the listener. *)
Lemma run_listener a k (old before value : CacheablePtr) arg f c x tr tasks :
  noToken old = noToken before →
  let '(err, x', L) := told cfg a k before value arg f x in
  ∃ tr' old',
    invokeCacheListenerForEntryEvent cfg k old value arg f (s_afterEventType a) false
      (R c x tr tasks) = (Ok (err, old'), R c x' tr' tasks) ∧
    calls tr' = calls tr ++ L.
Proof.
  intros Hold. unfold told, invokeCacheListenerForEntryEvent. rewrite Hold.
  destruct (rc_listener cfg); [|exists tr, old; by rewrite app_nil_r].
  set (l := listenerCall a f (noToken before)). set (e := listenerEvent k before value arg f).
  destruct (run_listenerCall l e (noToken before) c x tr tasks) as (tr' & Er & Hcalls).
  rewrite (surjective_pairing (listenerAnswer l e x)).
  exists tr', (noToken before). split; [|done]. rewrite <- Er. unfold l, e, listenerEvent.
  destruct a; try done; simpl; rewrite orb_false_r; by case_match.
Qed.

(** ** Local changes *)

Definition changed k c c' : Prop :=
  em_inv c' ∧ ∀ k', k' ≠ k → sees c' k' = sees c k'.

(** The updates whose protocol is uniform, and the values they take. *)
Definition wellFormed (a : Action) (value : CacheablePtr) : Prop :=
  match a with
  | PutActions | CreateActions => ∃ v, value = Some v ∧ storable v
  | DestroyActions | RemoveActionsEx => True
  | _ => False
  end.

(** The old value the caller passes. *)
Definition knownOld (a : Action) (before old : CacheablePtr) : Prop :=
  old = None ∨ a ≠ CreateActions ∧ old = noToken before.

(** What a local update that follows a remote one may report. *)
Inductive localResult (a : Action) (value : CacheablePtr) (tag : option VersionTag)
    (before : CacheablePtr) : GfErrType → CacheablePtr → CacheablePtr → Prop :=
  | local_applied old' :
      (a = CreateActions → before = None) → noToken old' = noToken before →
      localResult a value tag before GF_NOERR (resultOf a value) old'
  | local_stale old' err :
      is_Some tag → verdict err → err ≠ GF_NOERR →
      (a = PutActions → knownOld a before old') →
      localResult a value tag before err before old'
  | local_exists old' :
      a = CreateActions → is_Some before →
      localResult a value tag before GF_CACHE_ENTRY_EXISTS before old'.

Lemma stale_tag (tag : option VersionTag) err :
  (tag = None → err = GF_NOERR) → err ≠ GF_NOERR → is_Some tag.
Proof. destruct tag; [by eexists|]. intros H ?. by specialize (H eq_refl). Qed.

(** The bookkeeping of [putLocal] after the map took the value. *)
Lemma quiet_bookkeeping {A} (upd : bool) (me : option Z) (b : A) :
  is_Some me →
  quiet ((if rc_entryExpiryEnabled cfg then
            match me with
            | None => undefined
            | Some e =>
                let! s := get in
                if upd && bool_decide (e ∈ r_expiryTasks s)
                then updateAccessAndModifiedTimeForEntry cfg me true
                else registerEntryExpiryTask e
            end
          else ret tt) ;!
         updateAccessAndModifiedTime cfg true ;! ret b) b.
Proof.
  intros [e ->]. eapply quiet_bind.
  - case_match; [apply quiet_expiry|apply quiet_ret].
  - eapply quiet_bind; [apply quiet_touch|apply quiet_ret].
Qed.

Lemma quiet_counters {A} (upd : bool) (b : A) :
  quiet ((if upd then inc Puts
          else (let! n := onEntries (map_size (D:=D)) in
                inc (Entries n) ;! inc (CacheEntries 1)) ;! inc Creates) ;! ret b) b.
Proof.
  eapply quiet_bind; [|apply quiet_ret]. destruct upd; [apply quiet_inc|].
  eapply quiet_bind; [|apply quiet_inc]. apply quiet_size. intros n.
  eapply quiet_bind; apply quiet_inc.
Qed.

Lemma run_putLocal_put k v old uc tag eid c x tr tasks :
  em_inv c → fits c k → storable v → knownOld PutActions (sees c k) old →
  ∃ err old' c' tr' tasks',
    putLocal (D:=D) cfg false k (Some v) old true uc 0 tag None eid (R c x tr tasks) =
      (Ok (err, Some v, old'), R c' x tr' tasks') ∧
    calls tr' = calls tr ∧ changed k c c' ∧
    localResult PutActions (Some v) tag (sees c k) err (sees c' k) old'.
Proof.
  intros Hc Hf Hv Hold.
  destruct (law_put (D:=D) c k v None old uc 0 tag true Hc Hf Hv)
    as (err & me & old' & upd & c' & Ep & Hc' & Hne & Htag & Hvd & H1 & H2).
  unfold putLocal. rewrite !bind_assoc.
  rewrite (bind_Ok _ _ _ _ _ (run_onEntries _ _ _ _ x tr tasks Ep)). cbn [fst].
  rewrite (bool_decide_eq_false_2 (err = GF_INVALID_DELTA))
    by (destruct Hvd as [->|[->| ->]]; done).
  cbv iota. change (bool_decide (is_Some (None : option D))) with false. cbn [andb].
  rewrite !bind_assoc, bind_ret. rewrite !bind_assoc, bind_ret, bind_ret. cbn [fst snd].
  destruct (decide (err = GF_NOERR)) as [->|Herr].
  - rewrite bool_decide_eq_true_2 by done. cbn [negb].
    destruct (H1 eq_refl) as (Es & Hu & Ho & Hn & Hme).
    destruct (quiet_bookkeeping upd me (GF_NOERR, me, old', upd, Some v) Hme c' x tr tasks)
      as (tr1 & t1 & E1 & C1).
    rewrite (bind_Ok _ _ _ _ _ E1). cbv beta iota. rewrite bool_decide_eq_true_2 by done. cbn [negb].
    destruct (quiet_counters upd (GF_NOERR, Some v, old') c' x tr1 t1)
      as (tr2 & t2 & E2 & C2).
    exists GF_NOERR, old', c', tr2, t2. split_and!; [exact E2|congruence|done|].
    rewrite Es. apply local_applied; [done|].
    destruct upd; [by rewrite Ho|]. symmetry in Hu. apply bool_decide_eq_false in Hu.
    destruct (sees c k) eqn:Ek; [by destruct Hu; eexists|].
    destruct (Hn eq_refl) as [->| ->]; [done|]. by destruct Hold as [->|[_ ->]].
  - rewrite bool_decide_eq_false_2 by done. cbn [negb]. rewrite bind_ret.
    rewrite bool_decide_eq_false_2 by done. cbn [negb].
    destruct (H2 Herr) as [Es ->].
    do 5 eexists. split_and!; [done|done|done|]. rewrite Es.
    apply local_stale; [by eapply stale_tag|done..].
Qed.

Lemma run_putLocal_create k v uc tag c x tr tasks :
  em_inv c → fits c k → storable v →
  ∃ err old' c' tr' tasks',
    putLocal (D:=D) cfg true k (Some v) None true uc 0 tag None None (R c x tr tasks) =
      (Ok (err, Some v, old'), R c' x tr' tasks') ∧
    calls tr' = calls tr ∧ changed k c c' ∧
    localResult CreateActions (Some v) tag (sees c k) err (sees c' k) old'.
Proof.
  intros Hc Hf Hv. destruct (law_create (D:=D) c k v None uc 0 tag Hc Hf Hv)
    as (err & me & old' & c' & Ep & Hc' & Hne & Htag & Hex & Hvd & H1 & H2).
  unfold putLocal. rewrite !bind_assoc.
  rewrite (bind_Ok _ _ _ _ _ (run_onEntries _ _ _ _ x tr tasks Ep)), bind_ret. cbn [fst snd].
  destruct (decide (err = GF_NOERR)) as [->|Herr].
  - rewrite bool_decide_eq_true_2 by done. cbn [negb].
    destruct (H1 eq_refl) as (Eb & Es & -> & Hme).
    destruct (quiet_bookkeeping false me (GF_NOERR, me, (None : CacheablePtr), false, Some v)
      Hme c' x tr tasks) as (tr1 & t1 & E1 & C1).
    rewrite (bind_Ok _ _ _ _ _ E1). cbv beta iota. rewrite bool_decide_eq_true_2 by done. cbn [negb].
    destruct (quiet_counters false (GF_NOERR, Some v, (None : CacheablePtr)) c' x tr1 t1)
      as (tr2 & t2 & E2 & C2).
    exists GF_NOERR, None, c', tr2, t2. split_and!; [exact E2|congruence|done|].
    rewrite Es. apply local_applied; [done|by rewrite Eb].
  - rewrite bool_decide_eq_false_2 by done. cbn [negb]. rewrite bind_ret.
    rewrite bool_decide_eq_false_2 by done. cbn [negb].
    do 5 eexists. split_and!; [done|done|done|]. rewrite (H2 Herr).
    destruct (sees c k) as [v0|] eqn:Ek.
    + destruct (Hex ltac:(by eexists)) as [-> _]. apply local_exists; [done|by eexists].
    + apply local_stale; [|by apply Hvd|done|done].
      eapply stale_tag; [|done]. intros ->. by apply Htag.
Qed.

(** Destroying after the server has. *)
Lemma run_removeEntry a k old uc f tag c x tr tasks :
  em_inv c → fits c k → a = DestroyActions ∨ a = RemoveActionsEx → isNotification f = false →
  ∃ err old' c' tr' tasks',
    removeEntry (D:=D) cfg k old true f uc tag true (R c x tr tasks) =
      (Ok (err, old'), R c' x tr' tasks') ∧
    calls tr' = calls tr ∧ changed k c c' ∧
    ∀ value, localResult a value tag (sees c k) err (sees c' k) old'.
Proof.
  intros Hc Hf Ha Hnf. destruct (law_remove (D:=D) now c k old None uc tag true Hc Hf)
    as (err & old' & me & c' & Er & Hc' & Hne & Hvd & Htag & H1 & H2).
  unfold removeEntry. rewrite bind_get. cbn [r_now R].
  rewrite (bind_Ok _ _ _ _ _ (run_onEntries _ _ _ _ x tr tasks Er)).
  destruct (decide (err = GF_NOERR)) as [->|Herr].
  - rewrite bool_decide_eq_true_2 by done. cbn [negb].
    destruct (H1 eq_refl) as (Es & -> & _).
    assert (quiet ((if bool_decide (is_Some (sees c k)) then
        (match me with Some e => emit (Cleanup e f) | None => ret tt end) ;!
        (if isEvictOrExpire f then ret tt else updateAccessAndModifiedTime cfg true) ;!
        let! n := onEntries (map_size (D:=D)) in
        inc (Entries n) ;! inc (CacheEntries (-1))
      else ret tt) ;! inc Destroys ;! ret (GF_NOERR, sees c k)) (GF_NOERR, sees c k)) as Hq.
    { eapply quiet_bind; [|eapply quiet_bind; [apply quiet_inc|apply quiet_ret]].
      case_match; [|apply quiet_ret].
      eapply quiet_bind; [destruct me; [by apply quiet_emit|apply quiet_ret]|].
      eapply quiet_bind; [case_match; [apply quiet_ret|apply quiet_touch]|].
      apply quiet_size. intros n. eapply quiet_bind; apply quiet_inc. }
    destruct (Hq c' x tr tasks) as (tr' & t' & E' & C').
    exists GF_NOERR, (sees c k), c', tr', t'. split_and!; [exact E'|done|done|].
    intros value. rewrite Es. pose proof (local_applied a value tag (sees c k) (sees c k)) as Hl.
    destruct Ha as [->| ->]; by apply Hl.
  - rewrite bool_decide_eq_false_2, Hnf by done. cbn [negb].
    do 5 eexists. split_and!; [done|done|done|]. intros value. rewrite (H2 Herr).
    apply local_stale; [|by destruct Hvd as [?|[_ ?]]|done|].
    { eapply stale_tag; [|done]. intros ->. apply Htag; auto. }
    by destruct Ha as [->| ->].
Qed.

Lemma run_localUpdate a response k value old f uc tag eid c x tr tasks :
  em_inv c → fits c k → wellFormed a value → isNotification f = false →
  knownOld a (sees c k) old →
  ∃ err old' c' tr' tasks',
    localUpdate (D:=D) cfg a response k value old true f uc tag None eid true
      (R c x tr tasks) = (Ok (err, value, old'), R c' x tr' tasks') ∧
    calls tr' = calls tr ∧ changed k c c' ∧
    localResult a value tag (sees c k) err (sees c' k) old'.
Proof.
  intros Hc Hf Ha Hnf Hold. unfold localUpdate.
  destruct a; try done.
  - destruct Ha as (v & -> & Hv). by apply run_putLocal_put.
  - destruct Ha as (v & -> & Hv). destruct Hold as [->|[? _]]; [|done].
    by apply run_putLocal_create.
  - destruct (run_removeEntry DestroyActions k old uc f tag c x tr tasks Hc Hf)
      as (err & old' & c' & tr' & t' & E' & HC & Hch & Hl); [by left|done|].
    exists err, old', c', tr', t'. rewrite (bind_Ok _ _ _ _ _ E'). by split_and!.
  - destruct (run_removeEntry RemoveActionsEx k old uc f tag c x tr tasks Hc Hf)
      as (err & old' & c' & tr' & t' & E' & HC & Hch & Hl); [by right|done|].
    exists err, old', c', tr', t'. rewrite (bind_Ok _ _ _ _ _ E'). by split_and!.
Qed.

(** ** The whole update *)

Hypothesis Hcaching : rc_cachingEnabled cfg = true.
Hypothesis Hchecks : rc_concurrencyChecksEnabled cfg = true.

(** The local update and the listener, after the remote update. *)
Lemma run_applyUpdate a response k value arg old f uc tag eid c x tr tasks :
  em_inv c → fits c k → wellFormed a value → isNotification f = false →
  knownOld a (sees c k) old →
  ∃ err old' c' x' tr' tasks' L,
    applyUpdate (D:=D) cfg a response k value arg old uc f tag None eid true
      (R c x tr tasks) = (Ok (err, old'), R c' x' tr' tasks') ∧
    calls tr' = calls tr ++ L ∧ changed k c c' ∧
    (sees c' k = resultOf a value ∧ (a = CreateActions → sees c k = None) ∧
       told cfg a k (sees c k) value arg f x = (err, x', L) ∨
     sees c' k = sees c k ∧ x' = x ∧ L = [] ∧
       (is_Some tag ∧ (err = GF_NOERR ∨ err = GF_CACHE_ILLEGAL_STATE_EXCEPTION) ∨
        a = CreateActions ∧ is_Some (sees c k) ∧ err = GF_CACHE_ENTRY_EXISTS)).
Proof.
  intros Hc Hf Ha Hnf Hold. unfold applyUpdate. rewrite Hnf, Hcaching. cbn [negb orb].
  destruct (run_localUpdate a response k value old f uc tag eid c x tr tasks Hc Hf Ha Hnf
    Hold) as (err & old1 & c' & tr1 & t1 & E1 & C1 & Hch & Hl).
  rewrite (bind_Ok _ _ _ _ _ E1). cbv beta iota. remember (sees c' k) as after eqn:Ea.
  destruct Hl as [old2 Hcr Ho|old2 err Ht Hvd He _|old2 Hcr Hb].
  - cbv beta iota delta [bool_decide decide_rel]. simpl.
    pose proof (run_listener a k old2 (sees c k) value arg f c' x tr1 t1 Ho) as Hlis.
    destruct (told cfg a k (sees c k) value arg f x) as [[err x'] L].
    destruct Hlis as (tr2 & old3 & E2 & C2).
    exists err, old3, c', x', tr2, t1, L. split_and!; [exact E2|congruence|done|]. left. by split_and!.
  - destruct Hvd as [->|[->| ->]]; [done|..]; cbv beta iota delta [bool_decide decide_rel]; simpl;
      (do 7 eexists; split; [done|]; split; [by rewrite app_nil_r|]; split; [done|]; right;
       split_and!; [done..|]; left; auto).
  - do 7 eexists. split; [done|]. split; [by rewrite app_nil_r|]. split; [done|]. right.
    split_and!; [done..|]. right. auto.
Qed.

Lemma run_remoteUpdate a k value arg tag c x tr tasks err v t x' :
  wellFormed a value →
  p_remote (remoteCall a k value) arg None tag x = (Ok (err, v, t), x') →
  remoteUpdate (D:=D) cfg a k value arg tag (R c x tr tasks) =
  (Ok (err, t, err), R c x' (tr ++ [Remote (remoteCall a k value) arg]) tasks).
Proof.
  intros Ha Ep. unfold remoteUpdate.
  destruct a; try done; unfold remote, bind, onPeers, zoom; simpl in *; by rewrite Ep.
Qed.

(** An update by the application of a region without a server error carries out
    [updates]. *)
Lemma run_updateNoThrow a k value arg uc f tag eid c x tr tasks :
  em_inv c → fits c k → wellFormed a value →
  isNotification f = false → isLocal f = false →
  ∃ err old' c' x' tr' tasks' es,
    updateNoThrow (D:=D) cfg a (Some k) value arg None uc f tag None eid
      (R c x tr tasks) = (Ok (err, old'), R c' x' tr' tasks') ∧
    calls tr' = calls tr ++ es ∧ changed k c c' ∧
    updates cfg a k value arg f tag (sees c k) x err (sees c' k) x' es.
Proof.
  intros Hc Hf Ha Hnf Hlf. unfold updateNoThrow.
  assert (checkArgs (D:=D) a (Some k) value None = GF_NOERR) as ->.
  { destruct a; try done. by destruct Ha as (v & -> & _). }
  rewrite bool_decide_eq_true_2 by done. cbn [negb]. rewrite bind_get.
  cbn [m_destroyPending r_txState R]. rewrite Hcaching.
  assert (a ≠ InvalidateActions) as Hni by (by destruct a).
  pose proof (run_writer a k value arg f c x tr tasks Hc Hni) as Hw.
  destruct (asked cfg a k (sees c k) value arg f x) as [[b x1] W] eqn:Easked.
  destruct Hw as (tr1 & old1 & E1 & C1 & Hold1). rewrite (bind_Ok _ _ _ _ _ E1).
  cbv beta iota. destruct b; cbn [negb].
  2: { do 7 eexists. split; [done|]. split; [done|]. split; [done|].
    by eapply update_vetoed. }
  rewrite Hlf, Hnf, Hchecks. cbn [negb andb]. rewrite !andb_false_r, bind_ret.
  cbv beta iota. cbn [andb].
  destruct (law_remote (remoteCall a k value) arg None tag x1) as ([[err v] t] & x2 & Ep).
  rewrite (bind_Ok _ _ _ _ _ (run_remoteUpdate a k value arg tag c x1 tr1 tasks _ _ _ _ Ha Ep)).
  cbv beta iota. assert (calls (tr1 ++ [Remote (remoteCall a k value) arg]) =
    calls tr ++ W ++ [Remote (remoteCall a k value) arg]) as C2
    by (by rewrite calls_app, C1, <- app_assoc).
  destruct (decide (err = GF_NOERR)) as [->|Herr].
  - rewrite bool_decide_eq_true_2 by done. cbn [negb].
    destruct (run_applyUpdate a GF_NOERR k value arg old1 f uc t eid c x2
      (tr1 ++ [Remote (remoteCall a k value) arg]) tasks Hc Hf Ha Hnf Hold1)
      as (err & old' & c' & x' & tr' & t' & L & E3 & C3 & Hch & Hcase).
    do 7 eexists. split; [exact E3|]. split; [rewrite C3, C2, <- app_assoc; done|].
    split; [done|].
    destruct Hcase as [(-> & Hcr & Ht)|(-> & -> & -> & [[[t0 ->] He]|(Hcr & Hb & ->)])].
    + rewrite <- app_assoc. by eapply update_applied.
    + rewrite app_nil_r. by eapply update_stale.
    + rewrite app_nil_r. by eapply update_exists.
  - rewrite bool_decide_eq_false_2 by done. cbn [negb]. unfold removeTracking.
    rewrite Hchecks, andb_false_r, bind_ret.
    do 7 eexists. split; [done|]. split; [exact C2|]. split; [done|].
    by eapply update_refused.
Qed.

(** ** Reading *)

Lemma isToken_missing (v : CacheablePtr) :
  isInvalid v = true → v = Some (VToken INVALID).
Proof. unfold isInvalid. apply bool_decide_eq_true. Qed.

Lemma noToken_missing before :
  before = None ∨ isInvalid before = true → noToken before = None.
Proof. intros [->|E1]; [done|]. unfold noToken. by rewrite E1. Qed.

Lemma storable_fetched v :
  isDestroyed (Some v) = false → isTombstone (Some v) = false → storable v.
Proof.
  unfold isDestroyed, isTombstone.
  rewrite !bool_decide_eq_false. intros H1 H2. split; congruence.
Qed.

(** The server and the loader. *)
Lemma run_loadMissing k arg err v c x tr tasks :
  isDestroyed v = false →
  let '(err', v', b, x', es) := loaded cfg k arg err v x in
  isDestroyed v' = false ∧
  ∃ tr', loadMissing cfg k arg err v (R c x tr tasks) = (Ok (err', v', b), R c x' tr' tasks) ∧
    calls tr' = calls tr ++ es.
Proof.
  intros Hd. unfold loaded, loadMissing.
  destruct (_ && rc_loader cfg).
  2: { split; [done|]. exists tr. by rewrite app_nil_r. }
  pose proof (law_load k arg x) as Hub.
  unfold catching, inc, emit, modify, onPeers, zoom, ret, bind. simpl.
  destruct (p_load k arg x) as [[w| |] x2] eqn:El; [| |done]; (split; [|eexists; split; [done|]]).
  - by eapply law_loaded.
  - simpl. by rewrite !calls_app, app_nil_r.
  - done.
  - simpl. by rewrite calls_app.
Qed.

Lemma run_fetch k arg c x tr tasks :
  let '(err, v, t, b, x', es) := fetched cfg k arg x in
  isDestroyed v = false ∧
  ∃ err0 v0 x1 tr1 tr2,
    remote (getNoThrow_remote k) arg None None (R c x tr tasks) =
      (Ok (err0, v0, t), R c x1 tr1 tasks) ∧
    loadMissing cfg k arg err0 v0 (R c x1 tr1 tasks) = (Ok (err, v, b), R c x' tr2 tasks) ∧
    calls tr2 = calls tr ++ es.
Proof.
  unfold fetched.
  destruct (law_remote (getNoThrow_remote k) arg None None x) as ([[err0 v0] t] & x1 & Ep).
  rewrite Ep. set (tr1 := tr ++ [Remote (getNoThrow_remote k) arg]).
  pose proof (run_loadMissing k arg err0 v0 c x1 tr1 tasks
    (law_fetched k arg x err0 v0 t x1 Ep)) as Hl.
  destruct (loaded cfg k arg err0 v0 x1) as [[[[err v] b] x'] es].
  destruct Hl as (Hd & tr2 & El & Hcalls). split; [done|].
  exists err0, v0, x1, tr1, tr2. split_and!; [|exact El|].
  - unfold remote, bind, onPeers, zoom. simpl. by rewrite Ep.
  - rewrite Hcalls. unfold tr1. by rewrite calls_app, <- app_assoc.
Qed.

(** The listener of a read. *)
Lemma run_toldRead k (before value old : CacheablePtr) arg c x tr tasks :
  noToken old = None →
  let '(err, x', L) := toldRead cfg k before value arg x in
  ∃ tr' old',
    invokeCacheListenerForEntryEvent cfg k old value arg NORMAL AFTER_UPDATE
      (bool_decide (is_Some before)) (R c x tr tasks) = (Ok (err, old'), R c x' tr' tasks) ∧
    calls tr' = calls tr ++ L.
Proof.
  intros Hold. unfold toldRead, invokeCacheListenerForEntryEvent. rewrite Hold.
  destruct (rc_listener cfg); [|exists tr, old; by rewrite app_nil_r].
  set (l := if before then afterUpdate else afterCreate).
  set (e := mkEntryEvent k None value arg false).
  destruct (run_listenerCall l e None c x tr tasks) as (tr' & Er & Hcalls).
  rewrite (surjective_pairing (listenerAnswer l e x)).
  exists tr', None. split; [|done]. rewrite <- Er. unfold l, e. by destruct before.
Qed.

Definition missing (before : CacheablePtr) : Prop :=
  before = None ∨ isInvalid before = true.

Lemma hideToken_object v :
  isInvalid (Some v) = false → isTombstone (Some v) = false → hideToken (Some v) = Some v.
Proof. intros E1 E2. unfold hideToken, LocalRegion.isToken. by rewrite E1, E2. Qed.

(** The end of [getNoThrow] once a value was found. *)
Lemma run_finishRead k arg (before old : CacheablePtr) v (b : bool) c x tr tasks :
  noToken old = None → isTombstone (Some v) = false →
  ∃ err x' tr' L,
    (if negb b && true && bool_decide (is_Some (hideToken (Some v))) then
       let! i := invokeCacheListenerForEntryEvent cfg k old (hideToken (Some v)) arg NORMAL
                   AFTER_UPDATE (bool_decide (is_Some before)) in
       ret (i.1, hideToken (Some v), -1)
     else ret (GF_NOERR, hideToken (Some v), -1)) (R c x tr tasks) =
      (Ok (err, hideToken (Some v), -1), R c x' tr' tasks) ∧
    calls tr' = calls tr ++ L ∧
    ((b = true ∨ v = VToken INVALID) ∧ err = GF_NOERR ∧ x' = x ∧ L = [] ∨
     b = false ∧ v ≠ VToken INVALID ∧ toldRead cfg k before (Some v) arg x = (err, x', L)).
Proof.
  intros Hold Ht. destruct (decide (b = true ∨ v = VToken INVALID)) as [Hq|Hq].
  - assert (negb b && true && bool_decide (is_Some (hideToken (Some v))) = false) as ->.
    { destruct Hq as [->| ->]; [done|]. by rewrite andb_false_r. }
    exists GF_NOERR, x, tr, []. rewrite app_nil_r. split_and!; [done|done|by left].
  - apply Decidable.not_or in Hq as [Hb Hv]. apply not_true_iff_false in Hb as ->.
    rewrite hideToken_object; [|unfold isInvalid; rewrite bool_decide_eq_false_2; congruence|done].
    rewrite bool_decide_eq_true_2 by by eexists. cbn [negb andb].
    pose proof (run_toldRead k before (Some v) old arg c x tr tasks Hold) as Hl.
    destruct (toldRead cfg k before (Some v) arg x) as [[err x'] L].
    destruct Hl as (tr' & old' & El & Hcalls). rewrite (bind_Ok _ _ _ _ _ El).
    exists err, x', tr', L. split_and!; [done|done|by right].
Qed.

Lemma run_fetchMissing k arg c x tr tasks :
  em_inv c → fits c k → missing (sees c k) →
  ∃ err v uc c' x' tr' tasks' es,
    fetchMissing (D:=D) cfg k arg (bool_decide (is_Some (sees c k))) (sees c k) None (-1)
      (R c x tr tasks) = (Ok (err, v, uc), R c' x' tr' tasks') ∧
    calls tr' = calls tr ++ es ∧ changed k c c' ∧
    reads cfg k arg (sees c k) x err v (sees c' k) x' es.
Proof.
  intros Hc Hf Hmiss. unfold fetchMissing.
  destruct (quiet_touch false c x tr tasks) as (tr1 & t1 & E1 & C1).
  rewrite (bind_Ok _ _ _ _ _ E1).
  destruct (quiet_inc Misses c x tr1 t1) as (tr2 & t2 & E2 & C2).
  rewrite (bind_Ok _ _ _ _ _ E2). rewrite C1 in C2.
  pose proof (run_fetch k arg c x tr2 t2) as Hfetch.
  destruct (fetched cfg k arg x) as [[[[[err v] t] b] x1] es] eqn:Ef.
  destruct Hfetch as (Hd & err0 & v0 & x0 & tr3 & tr4 & E3 & E4 & C4). rewrite C2 in C4.
  rewrite (bind_Ok _ _ _ _ _ E3). cbv beta iota. rewrite (bind_Ok _ _ _ _ _ E4). cbv beta iota.
  destruct (b && negb (bool_decide (err = GF_NOERR))) eqn:Eb.
  { apply andb_true_iff in Eb as [-> Eb]. apply negb_true_iff, bool_decide_eq_false in Eb.
    do 8 eexists. split; [done|]. split; [exact C4|]. split; [done|]. by eapply read_notLoaded. }
  assert (b = true → err = GF_NOERR) as Hb.
  { intros ->. simpl in Eb. by apply negb_false_iff, bool_decide_eq_true in Eb. }
  rewrite Hcaching. assert (bool_decide (sees c k = None) || isInvalid (sees c k) = true) as ->.
  { destruct Hmiss as [->|Hm]; [done|]. rewrite Hm. apply orb_true_r. }
  rewrite !andb_true_r.
  destruct (decide (v = None ∨ isTombstone v = true)) as [Habs|Hpres].
  { cbv beta zeta. replace (bool_decide (is_Some v) && negb (isTombstone v)) with false
      by (destruct Habs as [->|Ht]; [done|rewrite Ht; by rewrite andb_false_r]).
    replace (hideToken v) with (None : CacheablePtr)
      by (destruct Habs as [->|Ht]; [done|]; unfold hideToken, LocalRegion.isToken;
          rewrite Ht; by rewrite orb_true_r).
    change (bool_decide (is_Some (None : CacheablePtr))) with false.
    rewrite andb_false_r. cbv iota.
    do 8 eexists. split; [done|]. split; [exact C4|]. split; [done|]. by eapply read_absent. }
  destruct v as [v|]; [|by destruct Hpres; left].
  assert (isTombstone (Some v) = false) as Ht
    by (destruct (isTombstone (Some v)) eqn:Et; [by destruct Hpres; right|done]).
  rewrite Ht. cbn [negb andb]. rewrite bool_decide_eq_true_2 by by eexists. cbn [andb].
  pose proof (storable_fetched v Hd Ht) as Hv.
  destruct (run_putLocal_put k v None (-1) t None c x1 tr4 t2 Hc Hf Hv ltac:(by left))
    as (err5 & old5 & c' & tr5 & t5 & E5 & C5 & Hch & Hl). rewrite C4 in C5.
  rewrite (bind_Ok _ _ _ _ _ E5). cbv beta iota.
  remember (sees c' k) as after eqn:Ea.
  assert (noToken (sees c k) = None) as Hno by by apply noToken_missing.
  cbv beta zeta.
  destruct Hl as [old2 _ Ho|old2 err6 Htag Hvd He Hko|]; [| |done].
  - change (bool_decide (GF_NOERR = GF_CACHE_CONCURRENT_MODIFICATION_EXCEPTION)) with false.
    change (bool_decide (GF_NOERR = GF_NOERR)) with true. cbn [negb]. cbv iota.
    rewrite Hno in Ho.
    destruct (run_finishRead k arg (sees c k) old2 v b c' x1 tr5 t5 Ho Ht)
      as (err7 & x7 & tr7 & L & E7 & C7 & Hcase). rewrite C5 in C7.
    do 8 eexists. split; [exact E7|]. split; [rewrite C7, <- app_assoc; done|].
    split; [done|]. rewrite <- Ea. simpl.
    destruct Hcase as [(Hq & -> & -> & ->)|(-> & Hvi & Htold)]; [rewrite app_nil_r|].
    + destruct b; [|destruct Hq as [?| ->]; [done|by eapply read_invalid]].
      rewrite (Hb eq_refl) in Ef. by eapply read_loaded.
    + rewrite hideToken_object;
        [|unfold isInvalid; rewrite bool_decide_eq_false_2; congruence|done].
      by eapply read_stored.
  - destruct Htag as [t0 ->]. destruct Hvd as [->|[->| ->]]; [done|..].
    + do 8 eexists. split; [done|]. split; [exact C5|]. split; [done|].
      rewrite <- Ea. by eapply read_stale.
    + assert (old2 = None) as -> by (destruct (Hko eq_refl) as [?|[_ ?]]; congruence).
      change (bool_decide (GF_CACHE_ILLEGAL_STATE_EXCEPTION =
        GF_CACHE_CONCURRENT_MODIFICATION_EXCEPTION)) with false.
      change (bool_decide (GF_CACHE_ILLEGAL_STATE_EXCEPTION = GF_NOERR)) with false.
      change (bool_decide (is_Some (None : CacheablePtr))) with false.
      change (bool_decide (GF_NOERR = GF_NOERR)) with true. cbn [negb andb]. cbv iota.
      destruct (run_finishRead k arg (sees c k) None v b c' x1 tr5 t5 eq_refl Ht)
        as (err7 & x7 & tr7 & L & E7 & C7 & Hcase). rewrite C5 in C7.
      rewrite andb_true_r in E7. do 8 eexists. split; [exact E7|]. split; [rewrite C7, <- app_assoc; done|].
      split; [done|]. rewrite <- Ea.
      destruct Hcase as [(Hq & -> & -> & ->)|(-> & Hvi & Htold)].
      * rewrite app_nil_r. by eapply read_stale.
      * rewrite hideToken_object;
          [|unfold isInvalid; rewrite bool_decide_eq_false_2; congruence|done].
        by eapply read_unordered.
Qed.

Lemma run_getNoThrow k arg c x tr tasks :
  em_inv c → fits c k →
  ∃ err v c' x' tr' tasks' es,
    getNoThrow (D:=D) cfg (Some k) arg (R c x tr tasks) = (Ok (err, v), R c' x' tr' tasks') ∧
    calls tr' = calls tr ++ es ∧ changed k c c' ∧
    reads cfg k arg (sees c k) x err v (sees c' k) x' es.
Proof.
  intros Hc Hf. unfold getNoThrow. rewrite bind_get. cbn [m_destroyPending r_txState R].
  destruct (quiet_inc Gets c x tr tasks) as (tr1 & t1 & E1 & C1).
  rewrite (bind_Ok _ _ _ _ _ E1), Hcaching, Hchecks.
  destruct (law_get (D:=D) c k Hc) as (e & Ee & Hs).
  rewrite (bind_Ok _ _ _ _ _ (run_onEntries _ _ _ _ x tr1 t1 Ee)).
  assert (∀ l lv, bool_decide (is_Some (sees c k)) = l → sees c k = lv → missing (sees c k) →
    ∃ err v c' x' tr' tasks' es,
      (let! t := ret (-1, (None : CacheablePtr)) in
       let! f := fetchMissing (D:=D) cfg k arg l lv t.2 t.1 in
       removeTracking (D:=D) cfg k f.2 ;! ret f.1) (R c x tr1 t1) =
        (Ok (err, v), R c' x' tr' tasks') ∧
      calls tr' = calls tr ++ es ∧ changed k c c' ∧
      reads cfg k arg (sees c k) x err v (sees c' k) x' es) as Hgo.
  { intros l lv <- <- Hm. rewrite bind_ret. cbn [fst snd].
    destruct (run_fetchMissing k arg c x tr1 t1 Hc Hf Hm)
      as (err & v & uc & c' & x' & tr' & t' & es & E2 & C2 & Hch & Hr).
    rewrite (bind_Ok _ _ _ _ _ E2). unfold removeTracking.
    rewrite Hchecks, andb_false_r, bind_ret.
    do 7 eexists. split; [done|]. split; [rewrite C2, C1; done|]. done. }
  destruct e as [[me v]|]; simpl in Hs.
  - destruct (isInvalid (Some v)) eqn:Ei.
    { apply Hgo; rewrite <- Hs; [done|done|by right]. }
    assert (quiet (inc Hits ;! updateAccessAndModifiedTimeForEntry cfg (Some me) false ;!
      updateAccessAndModifiedTime cfg false ;! ret (GF_NOERR, Some v)) (GF_NOERR, Some v)) as Hq.
    { eapply quiet_bind; [apply quiet_inc|]. eapply quiet_bind; [apply quiet_touchEntry|].
      eapply quiet_bind; [apply quiet_touch|apply quiet_ret]. }
    destruct (Hq c x tr1 t1) as (tr2 & t2 & E2 & C2).
    exists GF_NOERR, (Some v), c, x, tr2, t2, [].
    split; [exact E2|]. split; [rewrite C2, C1, app_nil_r; done|]. split; [done|].
    apply read_hit; [done|]. unfold isInvalid in Ei. apply bool_decide_eq_false in Ei.
    congruence.
  - apply Hgo; rewrite <- Hs; [done|done|by left].
Qed.
End Runs.

(** ** What an operation of the application does *)

Section Claims.
Context {E X K D : Type} `{!EntriesMapOps E K D, !Peers X K}.
Context `{!EntriesMapLaws E K D, !PeersLaws X K}.
Implicit Types (r : Region E X K) (k : K).

(** A region that is in use, outside a transaction. *)
Definition active cfg r : Prop :=
  rc_cachingEnabled cfg = true ∧ rc_concurrencyChecksEnabled cfg = true ∧
  m_destroyPending r = false ∧ r_txState r = None ∧ em_inv (m_entries r).

(** From [r] to [r'] only [k] changed, and [es] was called. *)
Record stepTo k es r r' : Prop := {
  st_inv : em_inv (m_entries r');
  st_others : ∀ k', k' ≠ k → sees (m_entries r') k' = sees (m_entries r) k';
  st_calls : calls (r_trace r') = calls (r_trace r) ++ es;
  st_live : m_destroyPending r' = m_destroyPending r ∧ r_txState r' = r_txState r
}.

Lemma active_R cfg r :
  active cfg r → r = R (m_released r) (r_now r) (m_entries r) (r_peers r) (r_trace r)
    (r_expiryTasks r).
Proof. destruct r. intros (_ & _ & Hd & Ht & _). simpl in *. by subst. Qed.

Lemma active_step cfg k es r r' : active cfg r → stepTo k es r r' → active cfg r'.
Proof. intros (? & ? & ? & ? & ?) [? _ _ [Hd Ht]]. unfold active. by rewrite Hd, Ht. Qed.

(** C1: *)
Theorem update_protocol cfg a k value arg uc f tag eid r :
  active cfg r → fits (m_entries r) k → wellFormed a value →
  isNotification f = false → isLocal f = false →
  ∃ err old r' es,
    updateNoThrow (D:=D) cfg a (Some k) value arg None uc f tag None eid r =
      (Ok (err, old), r') ∧
    stepTo k es r r' ∧
    updates cfg a k value arg f tag (sees (m_entries r) k) (r_peers r) err
      (sees (m_entries r') k) (r_peers r') es.
Proof.
  intros Ha Hf Hw Hn Hl. pose proof Ha as (Hcache & Hchecks & Hd & Htx & Hc).
  destruct (run_updateNoThrow (D:=D) cfg (m_released r) (r_now r) Hcache Hchecks a k value
    arg uc f tag eid (m_entries r) (r_peers r) (r_trace r) (r_expiryTasks r) Hc Hf Hw Hn Hl)
    as (err & old & c' & x' & tr' & t' & es & E1 & C1 & [Hc' Hne] & Hu).
  rewrite <- (active_R cfg r Ha) in E1. do 4 eexists. split; [exact E1|]. split; [|done].
  split; simpl; auto.
Qed.

(** C2: *)
Theorem read_protocol cfg k arg r :
  active cfg r → fits (m_entries r) k →
  ∃ err v r' es,
    getNoThrow (D:=D) cfg (Some k) arg r = (Ok (err, v), r') ∧
    stepTo k es r r' ∧
    reads cfg k arg (sees (m_entries r) k) (r_peers r) err v (sees (m_entries r') k)
      (r_peers r') es.
Proof.
  intros Ha Hf. pose proof Ha as (Hcache & Hchecks & Hd & Htx & Hc).
  destruct (run_getNoThrow (D:=D) cfg (m_released r) (r_now r) Hcache Hchecks k arg
    (m_entries r) (r_peers r) (r_trace r) (r_expiryTasks r) Hc Hf)
    as (err & v & c' & x' & tr' & t' & es & E1 & C1 & [Hc' Hne] & Hu).
  rewrite <- (active_R cfg r Ha) in E1. do 4 eexists. split; [exact E1|]. split; [|done].
  split; simpl; auto.
Qed.
End Claims.
