(* ===== verification/EvictionController.v ===== *)
(** * The heap eviction controller

    Models EvictionController.cpp/.hpp, EvictionThread.cpp, IntQueue.hpp and
    [LocalRegion::evict]: regions report how much their entries grew or shrank;
    one thread adds the reports up and, above the limit, orders a percentage of
    every region to be evicted; another carries the orders out.

    The two threads communicate through queues, so a report or an order is one
    step.  Signed overflow is undefined, conversions to [int32_t] truncate. *)

From S2P Require Import Prelude.

(** [IntQueue]: [put] at the front, [get] from the back, 0 when empty. *)
Definition queue_put (v : Z) (q : list Z) : list Z := v :: q.

Definition queue_get (q : list Z) : Z * list Z :=
  match last q with
  | Some v => (v, removelast q)
  | None => (0, q)
  end.

Record EvictionController := mkController {
  m_maxHeapSize : Z;
  m_heapSizeDelta : Z;
  m_currentHeapSize : Z;
  ec_queue : list Z;
  ec_orders : list Z;
  m_regions : list string;
  ec_pending : Z
}.

(** The constructor: the limit is given in megabytes, in [size_t]. *)
Definition newEvictionController (maxHeapSize heapSizeDelta : Z) : EvictionController :=
  mkController (i64 (u64 (maxHeapSize * 1024 * 1024))) heapSizeDelta 0 [] [] [] 0.

Definition set_heap_size (n p : Z) (c : EvictionController) : EvictionController :=
  mkController (m_maxHeapSize c) (m_heapSizeDelta c) n (ec_queue c) (ec_orders c)
    (m_regions c) p.

Definition set_queue (q : list Z) (c : EvictionController) : EvictionController :=
  mkController (m_maxHeapSize c) (m_heapSizeDelta c) (m_currentHeapSize c) q
    (ec_orders c) (m_regions c) (ec_pending c).

Definition set_orders (q : list Z) (c : EvictionController) : EvictionController :=
  mkController (m_maxHeapSize c) (m_heapSizeDelta c) (m_currentHeapSize c) (ec_queue c)
    q (m_regions c) (ec_pending c).

Definition set_regions (l : list string) (c : EvictionController) : EvictionController :=
  mkController (m_maxHeapSize c) (m_heapSizeDelta c) (m_currentHeapSize c) (ec_queue c)
    (ec_orders c) l (ec_pending c).

Definition updateRegionHeapInfo (info : Z) (c : EvictionController) : EvictionController :=
  set_queue (queue_put info (ec_queue c)) c.

Definition orderEvictions (percentage : Z) (c : EvictionController) : EvictionController :=
  set_orders (queue_put percentage (ec_orders c)) c.

(** Arithmetic on [int64_t]. *)
Definition int64 {S} (n : Z) : M S Z :=
  if (- 2 ^ 63 <=? n) && (n <? 2 ^ 63) then ret n else undefined.

Definition divides64 {S} (a b : Z) : M S Z :=
  if b =? 0 then undefined else int64 (Z.quot a b).

(** The percentage over the limit, rounded up. *)
Definition overPercentage {S} (sizeOverflow m_maxHeapSize : Z) : M S Z :=
  let! n := int64 (sizeOverflow * 100) in
  let! q := divides64 n m_maxHeapSize in
  let fractionalOverflow := if 0 <? Z.rem n m_maxHeapSize then 1 else 0 in
  let! p := int64 (i32 q + fractionalOverflow) in
  if p <? 2 ^ 31 then ret p else undefined.

(** [processHeapInfo], with [pendingEvictions] as part of the state. *)
Definition processHeapInfo (readInfo : Z) : M EvictionController unit :=
  let! c := get in
  let! size := int64 (m_currentHeapSize c + readInfo) in
  modify (set_heap_size size (ec_pending c)) ;!
  if (readInfo <? 0) && (0 <? ec_pending c) then
    let! p := int64 (ec_pending c + readInfo) in
    modify (set_heap_size size (if p <? 0 then 0 else p))
  else
    let! sizeToCompare := int64 (size - ec_pending c) in
    if m_maxHeapSize c <? sizeToCompare then
      let! sizeOverflow := int64 (sizeToCompare - m_maxHeapSize c) in
      let! percentage := overPercentage sizeOverflow (m_maxHeapSize c) in
      let! sum := int64 (percentage + m_heapSizeDelta c) in
      let evictionPercentage := i32 sum in
      let! bytes := int64 (sizeToCompare * evictionPercentage) in
      let bytesToEvict := i32 (Z.quot bytes 100) in
      let! p := int64 (ec_pending c + bytesToEvict) in
      modify (set_heap_size size p) ;!
      modify (orderEvictions
        (if 100 <? evictionPercentage then 100 else evictionPercentage))
    else ret tt.

(** A turn of [svc]: a report of 0, or none, is skipped. *)
Definition controllerTurn : M EvictionController unit :=
  let! c := get in
  let (readInfo, q) := queue_get (ec_queue c) in
  modify (set_queue q) ;!
  if readInfo =? 0 then ret tt else processHeapInfo readInfo.

Definition registerRegion (name : string) (c : EvictionController) : EvictionController :=
  set_regions (m_regions c ++ [name]) c.

(** [deregisterRegion] erases the first region of that name. *)
Fixpoint erase_first (name : string) (l : list string) : list string :=
  match l with
  | [] => []
  | str :: l' => if bool_decide (str = name) then l' else str :: erase_first name l'
  end.

Definition deregisterRegion (name : string) (c : EvictionController) : EvictionController :=
  set_regions (erase_first name (m_regions c)) c.

(** [processEvictions] of the eviction thread with [EvictionController::evict]:
    the percentage and the regions that evict it. *)
Definition processEvictions : M EvictionController (option (Z * list string)) :=
  let! c := get in
  let (v, q) := queue_get (ec_orders c) in
  modify (set_orders q) ;!
  let percentageToEvict := i32 v in
  ret (if percentageToEvict =? 0 then None else Some (percentageToEvict, m_regions c)).

(** [LocalRegion::evict]: how many entries a percentage of a region is, in
    [int32_t]. *)
Definition entriesToEvict {S} (percentage size : Z) : M S Z :=
  let size := i32 size in
  let n := percentage * size in
  if (- 2 ^ 31 <=? n) && (n <? 2 ^ 31) then ret (Z.quot n 100) else undefined.

(** ** Properties *)

Lemma int64_ok {S} n (s : S) : - 2 ^ 63 ≤ n < 2 ^ 63 → int64 n s = (Ok n, s).
Proof.
  intros Hn. unfold int64. rewrite (proj2 (Z.leb_le _ _)), (proj2 (Z.ltb_lt _ _)) by lia.
  done.
Qed.

(** Rounding up a quotient of non-negative numbers. *)
Lemma ceil_spec n m :
  0 ≤ n → 0 < m →
  let q := Z.quot n m + (if 0 <? Z.rem n m then 1 else 0) in
  n ≤ q * m ∧ (0 < n → 1 ≤ q).
Proof.
  intros Hn Hm. cbv zeta. pose proof (Z.quot_rem' n m) as E.
  pose proof (Z.rem_bound_pos n m Hn Hm) as Hr.
  pose proof (Z.quot_pos n m Hn Hm) as Hq.
  destruct (Z.ltb_spec 0 (Z.rem n m)); split; nia.
Qed.

Lemma overPercentage_ok {S} over max (s : S) :
  0 < over → 0 < max → over * 100 < 2 ^ 31 * max → over * 100 < 2 ^ 63 →
  Z.quot (over * 100) max < 2 ^ 31 - 1 →
  ∃ p, overPercentage over max s = (Ok p, s) ∧ 1 ≤ p ≤ Z.quot (over * 100) max + 1 ∧
    over * 100 ≤ p * max.
Proof.
  intros Ho Hm H1 H2 H3. unfold overPercentage.
  rewrite (bind_Ok _ _ _ _ _ (int64_ok (over * 100) s ltac:(lia))).
  destruct (ceil_spec (over * 100) max) as [Hc Hc1]; [lia..|]. specialize (Hc1 ltac:(lia)).
  pose proof (Z.quot_pos (over * 100) max ltac:(lia) ltac:(lia)) as Hq.
  set (q := Z.quot (over * 100) max) in *.
  rewrite (bind_Ok _ _ _ q s).
  2: { unfold divides64. rewrite (proj2 (Z.eqb_neq _ _)) by lia. apply int64_ok. lia. }
  unfold i32. rewrite swrap_id by (unfold in_s; lia).
  set (p := q + _) in *. assert (p < 2 ^ 31) by (unfold p; destruct (0 <? _); lia).
  rewrite (bind_Ok _ _ _ _ _ (int64_ok p s ltac:(lia))), (proj2 (Z.ltb_lt _ _)) by done.
  exists p. split_and!; try done. unfold p. destruct (0 <? _); lia.
Qed.

(** Amounts of memory the arithmetic is meant for: below 16 TB, and a heap not
    more than a thousand times the limit. *)
Record heap_sane (c : EvictionController) (readInfo : Z) : Prop := {
  hs_max : 0 < m_maxHeapSize c < 2 ^ 44;
  hs_delta : 0 ≤ m_heapSizeDelta c ≤ 100;
  hs_current : - 2 ^ 44 < m_currentHeapSize c < 2 ^ 44;
  hs_info : - 2 ^ 44 < readInfo < 2 ^ 44;
  hs_pending : - 2 ^ 44 < ec_pending c < 2 ^ 44;
  hs_compare : m_currentHeapSize c + readInfo - ec_pending c < 2 ^ 44 ∧
    m_currentHeapSize c + readInfo - ec_pending c ≤ 1000 * m_maxHeapSize c
}.

(** The branch of [processHeapInfo] above the limit. *)
Lemma over_limit c size (sizeToCompare : Z) :
  0 < m_maxHeapSize c < 2 ^ 44 → 0 ≤ m_heapSizeDelta c ≤ 100 →
  - 2 ^ 44 < ec_pending c < 2 ^ 44 →
  m_maxHeapSize c < sizeToCompare < 2 ^ 44 → sizeToCompare ≤ 1000 * m_maxHeapSize c →
  ∃ p evictionPercentage,
    (let! percentage := overPercentage (sizeToCompare - m_maxHeapSize c) (m_maxHeapSize c) in
     let! sum := int64 (percentage + m_heapSizeDelta c) in
     let evictionPercentage := i32 sum in
     let! bytes := int64 (sizeToCompare * evictionPercentage) in
     let bytesToEvict := i32 (Z.quot bytes 100) in
     let! p := int64 (ec_pending c + bytesToEvict) in
     modify (set_heap_size size p) ;!
     modify (orderEvictions
       (if 100 <? evictionPercentage then 100 else evictionPercentage)))
      (set_heap_size size (ec_pending c) c) =
    (Ok tt, orderEvictions (if 100 <? evictionPercentage then 100 else evictionPercentage)
              (set_heap_size size p c)) ∧
    1 ≤ evictionPercentage ∧
    (sizeToCompare - m_maxHeapSize c) * 100 ≤ evictionPercentage * m_maxHeapSize c.
Proof.
  intros Hm Hd Hp Hs Hs'. remember (sizeToCompare - m_maxHeapSize c) as over eqn:Eo.
  assert (Z.quot (over * 100) (m_maxHeapSize c) ≤ 99900)
    by (apply Z.quot_le_upper_bound; lia).
  destruct (overPercentage_ok over (m_maxHeapSize c) (set_heap_size size (ec_pending c) c))
    as (pct & E & H1 & H3); [lia..|].
  exists (ec_pending c + i32 (Z.quot (sizeToCompare * (pct + m_heapSizeDelta c)) 100)),
    (pct + m_heapSizeDelta c).
  rewrite (bind_Ok _ _ _ _ _ E), (bind_Ok _ _ _ _ _ (int64_ok (pct + m_heapSizeDelta c) _ ltac:(lia))).
  cbv zeta.
  assert (i32 (pct + m_heapSizeDelta c) = pct + m_heapSizeDelta c) as ->
    by (apply swrap_id; unfold in_s; lia).
  rewrite (bind_Ok _ _ _ _ _ (int64_ok (sizeToCompare * (pct + m_heapSizeDelta c)) _ ltac:(nia))).
  pose proof (swrap_range 32 (Z.quot (sizeToCompare * (pct + m_heapSizeDelta c)) 100)
    ltac:(lia)) as Hb. unfold in_s in Hb. unfold i32.
  set (b := swrap 32 (Z.quot (sizeToCompare * (pct + m_heapSizeDelta c)) 100)) in *.
  rewrite (bind_Ok _ _ _ _ _ (int64_ok (ec_pending c + b) _ ltac:(lia))).
  split; [done|]. split; [lia|nia].
Qed.

(** ** Claims *)


(** The amount ordered is kept in an [int32_t]: with a limit of 20 GB and the
    default delta of 10 percent, one report that exceeds the limit leaves a
    negative amount pending. *)
Example pending_overflows :
  let c := newEvictionController 20480 10 in
  let c' := (processHeapInfo (20 * 2 ^ 30 + 1) c).2 in
  ec_orders c' = [11] ∧ ec_pending c' < 0.
Proof. vm_compute. done. Qed.

