(* ===== verification/Cacheable.v ===== *)
(** * The built-in value classes and their serialization

    Models CacheableBuiltins.hpp, CacheableKeys.hpp, Serializer.hpp,
    CacheableString.cpp, CacheableFileName.cpp, CacheableDate.cpp,
    CacheableObjectArray.cpp and SerializationRegistry.hpp/.cpp: the objects an
    application stores, their wire form behind a type id, and the recursive
    reader that dispatches on it.

    Floating-point values are their bit patterns.  A hash container is the list
    of its elements in some order; reading inserts them in the order of the
    wire.  The depth of the recursion is bounded by fuel: running out of it
    stands for running out of stack. *)

From S2P Require Import Prelude DataOutput DataInput Codec.

(** ** Classes and type ids *)

(** The instances of [CacheableKeyType], and [CacheableDate]. *)
Inductive KeyKind : Type :=
  | CacheableBoolean | CacheableByte | CacheableDouble | CacheableFloat
  | CacheableInt16 | CacheableInt32 | CacheableInt64 | CacheableWideChar
  | CacheableDate.

(** The instances of [CacheableArrayType] with elements that are not objects. *)
Inductive ArrayKind : Type :=
  | BooleanArray | CharArray | CacheableBytes | CacheableDoubleArray
  | CacheableFloatArray | CacheableInt16Array | CacheableInt32Array
  | CacheableInt64Array.

(** The instances of [CacheableContainerType]. *)
Inductive VectorKind : Type :=
  | CacheableVector | CacheableArrayList | CacheableLinkedList | CacheableStack.
Inductive MapKind : Type :=
  | CacheableHashMap | CacheableHashTable | CacheableIdentityHashMap.
Inductive SetKind : Type := CacheableHashSet | CacheableLinkedHashSet.

#[global] Instance KeyKind_eq_dec : EqDecision KeyKind.
Proof. solve_decision. Defined.

(** [GeodeTypeIds::IdValues] *)
Definition keyId (k : KeyKind) : Z :=
  match k with
  | CacheableBoolean => 53 | CacheableWideChar => 54 | CacheableByte => 55
  | CacheableInt16 => 56 | CacheableInt32 => 57 | CacheableInt64 => 58
  | CacheableFloat => 59 | CacheableDouble => 60 | CacheableDate => 61
  end.

Definition arrayId (k : ArrayKind) : Z :=
  match k with
  | BooleanArray => 26 | CharArray => 27 | CacheableBytes => 46
  | CacheableInt16Array => 47 | CacheableInt32Array => 48
  | CacheableInt64Array => 49 | CacheableFloatArray => 50
  | CacheableDoubleArray => 51
  end.

Definition vectorId (k : VectorKind) : Z :=
  match k with
  | CacheableLinkedList => 10 | CacheableArrayList => 65 | CacheableVector => 71
  | CacheableStack => 74
  end.

Definition mapId (k : MapKind) : Z :=
  match k with
  | CacheableHashMap => 67 | CacheableHashTable => 70
  | CacheableIdentityHashMap => 72
  end.

Definition setId (k : SetKind) : Z :=
  match k with CacheableHashSet => 66 | CacheableLinkedHashSet => 73 end.

Definition id_CacheableObjectArray : Z := 52.
Definition id_CacheableFileName : Z := 63.
Definition id_CacheableStringArray : Z := 64.

(** [GeodeTypeIdsImpl::IdValues] *)
Definition id_FixedIDByte : Z := 1.
Definition id_FixedIDShort : Z := 2.
Definition id_FixedIDInt : Z := 3.
Definition id_CacheableUserData4 : Z := 37.
Definition id_CacheableUserData2 : Z := 38.
Definition id_CacheableUserData : Z := 39.
Definition id_Class : Z := 43.

(** The types of [CacheableString]. *)
Notation GF_STRING := id_CacheableASCIIString.
Notation GF_STRING_HUGE := id_CacheableASCIIStringHuge.
Notation GF_WIDESTRING := id_CacheableString.
Notation GF_WIDESTRING_HUGE := id_CacheableStringHuge.

(** Registered classes this file does not model: those of the application and
    those with fixed ids.  [other_find fixed compId] is the reader the type map
    gives for an id. *)
Class OtherTypes (U : Type) `{Allocator} := {
  other_classId : U → Z;
  other_isKey : U → bool;
  other_hash : U → Z;
  other_eq : U → U → bool;
  other_eqForeign : U → Z → bool;
  other_toData : U → M DataOutput unit;
  other_find : bool → Z → option (M DataInput U)
}.

Section Cacheable.
Context {U : Type} `{!Allocator, !OtherTypes U}.

Inductive Serializable : Type :=
  | NullV
  | KeyV (k : KeyKind) (m_value : Z)
  | StringV (m_type : Z) (m_str : option (list Z))
  | FileNameV (m_type : Z) (m_str : option (list Z))
  | ArrayV (k : ArrayKind) (m_value : option (list Z)) (m_length : Z)
  | StringArrayV (m_value : option (list Serializable)) (m_length : Z)
  | VectorV (k : VectorKind) (l : list Serializable)
  | MapV (k : MapKind) (l : list (Serializable * Serializable))
  | SetV (k : SetKind) (l : list Serializable)
  | ObjectArrayV (l : list Serializable)
  | UserV (u : U).

(** [Serializable::typeId] of an application class. *)
Definition userTypeId (classId : Z) : Z :=
  if (classId <=? 127) && (-128 <=? classId) then id_CacheableUserData
  else if (classId <=? 32767) && (-32768 <=? classId) then id_CacheableUserData2
  else id_CacheableUserData4.

(** [typeId]; a null pointer has the id that is written for it. *)
Definition typeId (obj : Serializable) : Z :=
  match obj with
  | NullV => id_NullObj
  | KeyV k _ => keyId k
  | StringV m_type _ => m_type
  | FileNameV _ _ => id_CacheableFileName
  | ArrayV k _ _ => arrayId k
  | StringArrayV _ _ => id_CacheableStringArray
  | VectorV k _ => vectorId k
  | MapV k _ => mapId k
  | SetV k _ => setId k
  | ObjectArrayV _ => id_CacheableObjectArray
  | UserV u => userTypeId (other_classId u)
  end.

(** ** Writing *)

(** A value of a [CacheableKeyType]: [serializer::writeObject]. *)
Definition writeKey (k : KeyKind) (v : Z) : M DataOutput unit :=
  match k with
  | CacheableBoolean => writeBoolean (negb (v =? 0))
  | CacheableByte => write_u8 v
  | CacheableDouble => writeDouble v
  | CacheableFloat => writeFloat v
  | CacheableInt16 => writeInt_i16 v
  | CacheableInt32 => writeInt_i32 v
  | CacheableInt64 | CacheableDate => writeInt_i64 v
  | CacheableWideChar => writeInt_i16 (i16 v)
  end.

(** The element type of an array. *)
Definition elementKind (k : ArrayKind) : KeyKind :=
  match k with
  | BooleanArray => CacheableBoolean
  | CharArray => CacheableWideChar
  | CacheableBytes => CacheableByte
  | CacheableDoubleArray => CacheableDouble
  | CacheableFloatArray => CacheableFloat
  | CacheableInt16Array => CacheableInt16
  | CacheableInt32Array => CacheableInt32
  | CacheableInt64Array => CacheableInt64
  end.

(** [CacheableString::toData]; the memory ends in a null character. *)
Definition string_toData (m_type : Z) (m_str : option (list Z)) : M DataOutput unit :=
  let mem := match m_str with Some s => cstring s | None => None end in
  let m_len := match m_str with Some s => Z.of_nat (length s) | None => 0 end in
  if m_type =? GF_STRING then writeASCII mem m_len
  else if m_type =? GF_WIDESTRING then writeUTF_wchar mem m_len
  else if m_type =? GF_STRING_HUGE then writeASCIIHuge mem m_len
  else if m_type =? GF_WIDESTRING_HUGE then writeUTFHuge_wchar mem m_len
  else ret tt.

(** [for (...) f(element)] *)
Definition seqM {S A} (f : A → M S unit) : list A → M S unit :=
  fix go l :=
    match l with
    | [] => ret tt
    | a :: l' => f a ;! go l'
    end.

(** [while (array < endArray) f( *array++)] *)
Definition seqN {S A} (f : A → M S unit) : list A → nat → M S unit :=
  fix go l n :=
    match n, l with
    | 0%nat, _ => ret tt
    | S n', a :: l' => f a ;! go l' n'
    | S _, [] => undefined
    end.

(** The template [writeObject(output, array, len)]. *)
Definition writeArray {A} (f : A → M DataOutput unit) (array : option (list A))
    (len : Z) : M DataOutput unit :=
  match array with
  | None => write_i8 (-1)
  | Some l => writeArrayLen len ;! seqN f l (Z.to_nat len)
  end.

(** The head of an object: its type id, and its class id if the application
    defined it.  None of these classes has a fixed id, so that [DSFID] takes the
    default branch. *)
Definition writeHead (obj : Serializable) : M DataOutput unit :=
  write_i8 (typeId obj) ;!
  match obj with
  | UserV u =>
      let classId := other_classId u in
      if userTypeId classId =? id_CacheableUserData then write_i8 (i8 classId)
      else if userTypeId classId =? id_CacheableUserData2
      then writeInt_i16 (i16 classId)
      else writeInt_i32 classId
  | _ => ret tt
  end.

Definition javaObject : list Z :=
  [106; 97; 118; 97; 46; 108; 97; 110; 103; 46; 79; 98; 106; 101; 99; 116].

(** [toData], for which children are written with their heads. *)
Fixpoint toData (obj : Serializable) : M DataOutput unit :=
  match obj with
  | NullV => ret tt
  | KeyV k v => writeKey k v
  | StringV m_type m_str => string_toData m_type m_str
  | FileNameV m_type m_str => write_i8 m_type ;! string_toData m_type m_str
  | ArrayV CacheableBytes m_value m_length => writeBytes m_value m_length
  | ArrayV k m_value m_length => writeArray (writeKey (elementKind k)) m_value m_length
  | StringArrayV m_value m_length =>
      writeArray (λ c, writeHead c ;! toData c) m_value m_length
  | VectorV _ l | SetV _ l =>
      writeArrayLen (i32 (Z.of_nat (length l))) ;!
      seqM (λ c, writeHead c ;! toData c) l
  | MapV _ l =>
      writeArrayLen (i32 (Z.of_nat (length l))) ;!
      seqM (λ c, (writeHead c.1 ;! toData c.1) ;! (writeHead c.2 ;! toData c.2)) l
  | ObjectArrayV l =>
      writeArrayLen (i32 (Z.of_nat (length l))) ;!
      write_i8 id_Class ;!
      write_i8 id_CacheableASCIIString ;!
      writeASCII (cstring javaObject) 0 ;!
      seqM (λ c, writeHead c ;! toData c) l
  | UserV u => other_toData u
  end.

(** [SerializationRegistry::serialize] of a whole object ([isDelta] is false). *)
Definition serialize (obj : Serializable) : M DataOutput unit :=
  writeHead obj ;! toData obj.

(** ** Keys *)

Definition isCString (m_type : Z) : bool :=
  (m_type =? GF_STRING) || (m_type =? GF_STRING_HUGE).
Definition isWideString (m_type : Z) : bool :=
  (m_type =? GF_WIDESTRING) || (m_type =? GF_WIDESTRING_HUGE).

(** A character as the arithmetic sees it: [char] is signed. *)
Definition charVal (m_type c : Z) : Z := if isCString m_type then i8 c else c.

Definition string_hashcode (m_type : Z) (m_str : option (list Z)) : Z :=
  match m_str with
  | None => 0
  | Some s => foldl (λ h c, i32 (31 * h + charVal m_type c)) 0 s
  end.

(** [compareStrings] on strings of one length stops at a null character. *)
Fixpoint compareStrings (s1 s2 : list Z) : bool :=
  match s1, s2 with
  | [], _ => true
  | wc :: s1', c2 :: s2' =>
      if wc =? 0 then true else if wc =? c2 then compareStrings s1' s2' else false
  | wc :: _, [] => wc =? 0
  end.

(** Bit patterns of zeroes and of numbers that equal nothing. *)
Definition isNaN (expBits manBits v : Z) : bool :=
  (Z.land (Z.shiftr v manBits) (Z.ones expBits) =? Z.ones expBits) &&
  negb (Z.land v (Z.ones manBits) =? 0).
Definition isZero (expBits manBits v : Z) : bool :=
  Z.land v (Z.ones (expBits + manBits)) =? 0.
Definition ieeeEq (expBits manBits x y : Z) : bool :=
  negb (isNaN expBits manBits x) && negb (isNaN expBits manBits y) &&
  ((x =? y) || isZero expBits manBits x && isZero expBits manBits y).

(** [serializer::equals] *)
Definition keyEquals (k : KeyKind) (x y : Z) : bool :=
  match k with
  | CacheableFloat => ieeeEq 8 23 x y
  | CacheableDouble => ieeeEq 11 52 x y
  | _ => x =? y
  end.

Definition hash64 (v : Z) : Z := i32 (Z.lxor (u32 v) (u32 (Z.shiftr v 32))).

(** [serializer::hashcode] *)
Definition key_hashcode (k : KeyKind) (v : Z) : Z :=
  match k with
  | CacheableBoolean => if v =? 0 then 1237 else 1231
  | CacheableInt64 | CacheableDouble | CacheableDate => hash64 v
  | _ => i32 v
  end.

(** [CacheableKey::hashcode]; a null pointer cannot be hashed. *)
Definition hashcode (key : Serializable) : outcome Z :=
  match key with
  | KeyV k v => Ok (key_hashcode k v)
  | StringV m_type m_str => Ok (string_hashcode m_type m_str)
  | FileNameV m_type m_str => Ok (i32 (Z.lxor (string_hashcode m_type m_str) 1234321))
  | UserV u => Ok (other_hash u)
  | _ => UB
  end.

(** [CacheableString::operator==]; of two file names, both are compared as wide
    strings, which memory of [char]s is not. *)
Definition stringEq (thisType m_type : Z) (m_str : option (list Z))
    (otherType m_type' : Z) (m_str' : option (list Z)) : outcome bool :=
  let stringType t := isCString t || isWideString t in
  if negb (thisType =? otherType) && (negb (stringType thisType) || negb (stringType otherType))
  then Ok false
  else
    let len s := match s with Some s => Z.of_nat (length s) | None => 0 end in
    if negb (len m_str =? len m_str') then Ok false
    else
      match m_str with
      | None => Ok true
      | Some s =>
          let s' := default [] m_str' in
          if stringType thisType || (isWideString m_type && isWideString m_type')
          then Ok (compareStrings (charVal m_type <$> s) (charVal m_type' <$> s'))
          else UB
      end.

(** [CacheableKey::operator==] *)
Definition keyEq (a b : Serializable) : outcome bool :=
  match a, b with
  | KeyV k v, KeyV k' v' => Ok (bool_decide (k = k') && keyEquals k v v')
  | StringV t s, StringV t' s' => stringEq t t s t' t' s'
  | StringV t s, FileNameV t' s' => stringEq t t s id_CacheableFileName t' s'
  | FileNameV t s, StringV t' s' => stringEq id_CacheableFileName t s t' t' s'
  | FileNameV t s, FileNameV t' s' =>
      stringEq id_CacheableFileName t s id_CacheableFileName t' s'
  | UserV u, UserV u' => Ok (other_eq u u')
  | UserV u, (KeyV _ _ | StringV _ _ | FileNameV _ _) => Ok (other_eqForeign u (typeId b))
  | (KeyV _ _ | StringV _ _ | FileNameV _ _), UserV _
  | KeyV _ _, (StringV _ _ | FileNameV _ _)
  | (StringV _ _ | FileNameV _ _), KeyV _ _ => Ok false
  | _, _ => UB
  end.

(** ** Reading *)

Definition readKey (k : KeyKind) : M DataInput Z :=
  match k with
  | CacheableBoolean => let! b := readBoolean in ret (if b : bool then 1 else 0)
  | CacheableByte => read_u8
  | CacheableDouble => readDouble
  | CacheableFloat => readFloat
  | CacheableInt16 | CacheableWideChar => readInt_i16
  | CacheableInt32 => readInt_i32
  | CacheableInt64 | CacheableDate => readInt_i64
  end.

(** [CacheableString::fromData] on an object of the given type: its [m_str]. *)
Definition string_fromData (m_type : Z) : M DataInput (option (list Z)) :=
  if m_type =? GF_STRING then let! s := readASCII in ret (Some s)
  else if m_type =? GF_WIDESTRING then let! s := readUTF_wchar in ret (Some s)
  else if m_type =? GF_STRING_HUGE then let! s := readASCIIHuge in ret (Some s)
  else if m_type =? GF_WIDESTRING_HUGE then let! s := readUTFHuge_wchar in ret (Some s)
  else ret None.

(** What the factories of the type map create, in the order they are bound. *)
Inductive Blank : Type :=
  | BKey (k : KeyKind) | BString (m_type : Z) | BFileName | BArray (k : ArrayKind)
  | BStringArray | BVector (k : VectorKind) | BMap (k : MapKind) | BSet (k : SetKind)
  | BObjectArray.

Definition blankId (b : Blank) : Z :=
  match b with
  | BKey k => keyId k
  | BString m_type => m_type
  | BFileName => id_CacheableFileName
  | BArray k => arrayId k
  | BStringArray => id_CacheableStringArray
  | BVector k => vectorId k
  | BMap k => mapId k
  | BSet k => setId k
  | BObjectArray => id_CacheableObjectArray
  end.

(** [TheTypeMap::setup] *)
Definition builtins : list Blank :=
  [BKey CacheableByte; BKey CacheableBoolean; BArray BooleanArray;
   BArray CacheableBytes; BKey CacheableFloat; BArray CacheableFloatArray;
   BKey CacheableDouble; BArray CacheableDoubleArray; BKey CacheableDate; BFileName;
   BMap CacheableHashMap; BSet CacheableHashSet; BMap CacheableHashTable;
   BMap CacheableIdentityHashMap; BSet CacheableLinkedHashSet; BKey CacheableInt16;
   BArray CacheableInt16Array; BKey CacheableInt32; BArray CacheableInt32Array;
   BKey CacheableInt64; BArray CacheableInt64Array; BObjectArray; BString GF_STRING;
   BString GF_STRING_HUGE; BString GF_WIDESTRING; BString GF_WIDESTRING_HUGE;
   BStringArray; BVector CacheableVector; BVector CacheableArrayList;
   BVector CacheableLinkedList; BVector CacheableStack; BKey CacheableWideChar;
   BArray CharArray].

Fixpoint findBlank (compId : Z) (l : list Blank) : option Blank :=
  match l with
  | [] => None
  | b :: l' => if blankId b =? compId then Some b else findBlank compId l'
  end.

(** [std::dynamic_pointer_cast] to [CacheableKey] and to [CacheableString]. *)
Definition asKey (obj : Serializable) : Serializable :=
  match obj with
  | KeyV _ _ | StringV _ _ | FileNameV _ _ => obj
  | UserV u => if other_isKey u then obj else NullV
  | _ => NullV
  end.

Definition asString (obj : Serializable) : Serializable :=
  match obj with StringV _ _ | FileNameV _ _ => obj | _ => NullV end.

(** [emplace] and [insert]: an element with an equal key stays; the key is
    hashed, which a null pointer does not survive. *)
Fixpoint findKey {A} (key : Serializable) (keyOf : A → Serializable) (l : list A)
    : outcome bool :=
  match l with
  | [] => Ok false
  | a :: l' =>
      match keyEq (keyOf a) key with
      | Ok true => Ok true
      | Ok false => findKey key keyOf l'
      | Throw e => Throw e
      | UB => UB
      end
  end.

Definition emplace {S A} (keyOf : A → Serializable) (a : A) (l : list A) : M S (list A) :=
  match hashcode (keyOf a), findKey (keyOf a) keyOf l with
  | Ok _, Ok present => ret (if present then l else l ++ [a])
  | Throw e, _ | _, Throw e => throw e
  | _, _ => undefined
  end.

(** [for (index = 0; index < n; index++) acc = body(acc)] *)
Fixpoint repeatInto {S A} (n : nat) (body : A → M S A) (acc : A) : M S A :=
  match n with
  | 0%nat => ret acc
  | S n' => let! acc := body acc in repeatInto n' body acc
  end.

(** [fromData] of a new object; [readObject] reads a child. *)
Definition fromData (readObject : M DataInput Serializable) (b : Blank)
    : M DataInput Serializable :=
  match b with
  | BKey k => let! v := readKey k in ret (KeyV k v)
  | BString m_type => let! s := string_fromData m_type in ret (StringV m_type s)
  | BFileName =>
      let! m_type := read_i8 in
      let! s := string_fromData m_type in
      ret (FileNameV m_type s)
  | BArray CacheableBytes =>
      let! r := readBytes in ret (ArrayV CacheableBytes r.1 r.2)
  | BArray k =>
      let! r := readObjectArray (readKey (elementKind k)) in ret (ArrayV k r.1 r.2)
  | BStringArray =>
      let! r := readObjectArray (let! o := readObject in ret (asString o)) in
      ret (StringArrayV r.1 r.2)
  | BVector k =>
      let! len := readArrayLen in
      let! l := repeatRead (Z.to_nat len) readObject in
      ret (VectorV k l)
  | BMap k =>
      let! len := readArrayLen in
      if len <? 0 then throw LengthError
      else
        let! l := repeatInto (Z.to_nat len) (λ l,
          let! key := readObject in
          let! val := readObject in
          emplace fst (asKey key, val) l) [] in
        ret (MapV k l)
  | BSet k =>
      let! len := readArrayLen in
      let! l := repeatInto (Z.to_nat len) (λ l,
        let! key := readObject in emplace id (asKey key) l) [] in
      ret (SetV k l)
  | BObjectArray =>
      let! len := readArrayLen in
      if len <? 0 then ret (ObjectArrayV [])
      else
        read_i8 ;!
        read_i8 ;!
        let! classLen := readInt_u16 in
        di_advanceCursor classLen ;!
        let! l := repeatRead (Z.to_nat len) readObject in
        ret (ObjectArrayV l)
  end.

(** The id an object is registered under: [compId] and whether it is fixed. *)
Definition readCompId (currentTypeId : Z) : M DataInput (bool * Z) :=
  let user classId := (false, Z.lor currentTypeId (Z.shiftl classId 32)) in
  if currentTypeId =? id_CacheableUserData then
    let! classId := read_i8 in ret (user classId)
  else if currentTypeId =? id_CacheableUserData2 then
    let! classId := readInt_i16 in ret (user classId)
  else if currentTypeId =? id_CacheableUserData4 then
    let! classId := readInt_i32 in ret (user classId)
  else if currentTypeId =? id_FixedIDByte then
    let! fixedId := read_i8 in ret (true, fixedId)
  else if currentTypeId =? id_FixedIDShort then
    let! fixedId := readInt_i16 in ret (true, fixedId)
  else if currentTypeId =? id_FixedIDInt then
    let! fixedId := readInt_i32 in ret (true, fixedId)
  else ret (false, currentTypeId).

(** [SerializationRegistry::deserialize] *)
Fixpoint deserialize (fuel : nat) : M DataInput Serializable :=
  match fuel with
  | 0%nat => undefined
  | S fuel =>
      let! currentTypeId := read_i8 in
      if currentTypeId =? id_NullObj then ret NullV
      else if currentTypeId =? id_CacheableNullString then ret (StringV GF_STRING None)
      else
        let! c := readCompId currentTypeId in
        let (findinternal, compId) := c in
        match (if findinternal : bool then None else findBlank compId builtins),
              other_find findinternal compId with
        | Some b, _ => fromData (deserialize fuel) b
        | None, Some read => let! u := read in ret (UserV u)
        | None, None => throw IllegalStateException
        end
  end.
End Cacheable.

Arguments Serializable U : clear implicits.
