(* ===== verification/CacheableWire.v ===== *)
(** * The wire form of the value classes

    The encoding [serialize] produces, the values it is defined for and what the
    reader makes of them.  [wire_writes] and [wire_reads] are the two halves of
    the round trip of Cacheable.v: the first by induction on the value, the
    second by induction with fuel for its nesting. *)

From S2P Require Import Prelude DataOutput DataInput Codec Cacheable.

(** The wire form of the classes that are not modelled, and the objects it is
    for. *)
Class OtherWire (U : Type) := {
  other_enc : U → list Z;
  other_dom : U → Prop
}.

(** Their laws: an object writes its wire form, and the reader registered under
    its class id reads it back. *)
Class OtherCodec (U : Type) `{!Allocator, !OtherTypes U, !OtherWire U} : Prop := {
  other_class u : other_dom u → in_s 32 (other_classId u);
  other_writes u : other_dom u → appends (other_toData u) (other_enc u);
  other_reads u : other_dom u → ∃ r,
    other_find false (Z.lor (userTypeId (other_classId u))
                        (Z.shiftl (other_classId u) 32)) = Some r ∧
    reads r (other_enc u) u
}.

Section Nested.
Context {U : Type}.
Implicit Types v : Serializable U.

(** Induction that reaches the elements of containers. *)
Section Induction.
Variable P : Serializable U → Prop.
Hypothesis PNull : P NullV.
Hypothesis PKey : ∀ k x, P (KeyV k x).
Hypothesis PString : ∀ t s, P (StringV t s).
Hypothesis PFileName : ∀ t s, P (FileNameV t s).
Hypothesis PArray : ∀ k a n, P (ArrayV k a n).
Hypothesis PStringArrayNull : ∀ n, P (StringArrayV None n).
Hypothesis PStringArray : ∀ l n, Forall P l → P (StringArrayV (Some l) n).
Hypothesis PVector : ∀ k l, Forall P l → P (VectorV k l).
Hypothesis PMap : ∀ k l, Forall (λ c, P c.1 ∧ P c.2) l → P (MapV k l).
Hypothesis PSet : ∀ k l, Forall P l → P (SetV k l).
Hypothesis PObjectArray : ∀ l, Forall P l → P (ObjectArrayV l).
Hypothesis PUser : ∀ u, P (UserV u).

Fixpoint Serializable_nested_ind v : P v :=
  let each := fix each (l : list (Serializable U)) : Forall P l :=
    match l with
    | [] => Forall_nil_2 P
    | c :: l' => Forall_cons_2 P c l' (Serializable_nested_ind c) (each l')
    end in
  let pairs := fix pairs (l : list (Serializable U * Serializable U))
      : Forall (λ c, P c.1 ∧ P c.2) l :=
    match l with
    | [] => Forall_nil_2 _
    | c :: l' => Forall_cons_2 _ c l'
        (conj (Serializable_nested_ind c.1) (Serializable_nested_ind c.2)) (pairs l')
    end in
  match v with
  | NullV => PNull
  | KeyV k x => PKey k x
  | StringV t s => PString t s
  | FileNameV t s => PFileName t s
  | ArrayV k a n => PArray k a n
  | StringArrayV None n => PStringArrayNull n
  | StringArrayV (Some l) n => PStringArray l n (each l)
  | VectorV k l => PVector k l (each l)
  | MapV k l => PMap k l (pairs l)
  | SetV k l => PSet k l (each l)
  | ObjectArrayV l => PObjectArray l (each l)
  | UserV u => PUser u
  end.
End Induction.

(** How deep the reader recurses. *)
Fixpoint depth v : nat :=
  let deepest := foldr (λ c n, max (depth c) n) 0%nat in
  match v with
  | StringArrayV (Some l) _ | VectorV _ l | SetV _ l | ObjectArrayV l =>
      S (deepest l)
  | MapV _ l => S (foldr (λ c n, max (max (depth c.1) (depth c.2)) n) 0%nat l)
  | _ => 1%nat
  end.

Lemma depth_children {A} (f : A → nat) l :
  Forall (λ c, f c ≤ foldr (λ c n, max (f c) n) 0 l)%nat l.
Proof.
  induction l as [|c l IH]; constructor; simpl; [lia|].
  eapply Forall_impl; [exact IH|]. simpl. lia.
Qed.
End Nested.

Section Wire.
Context {U : Type} `{!Allocator, !OtherTypes U, !OtherWire U, !OtherCodec U}.
Implicit Types v : Serializable U.

(** ** The values *)

(** The values of a C++ type, floating-point numbers as bit patterns. *)
Definition keyRange (k : KeyKind) (x : Z) : Prop :=
  match k with
  | CacheableBoolean => 0 ≤ x ≤ 1
  | CacheableByte => in_u 8 x
  | CacheableDouble => in_u 64 x
  | CacheableFloat => in_u 32 x
  | CacheableInt16 => in_s 16 x
  | CacheableInt32 => in_s 32 x
  | CacheableInt64 | CacheableDate => in_s 64 x
  | CacheableWideChar => in_u 16 x
  end.

(** The characters fit the type, and the string the length field of its form. *)
Definition stringRange (m_type : Z) (s : list Z) : Prop :=
  if m_type =? GF_STRING then Forall (in_u 8) s ∧ Z.of_nat (length s) ≤ 65535
  else if m_type =? GF_WIDESTRING then
    Forall (in_u 16) s ∧ Z.of_nat (length (flat_map utf_wchar s)) ≤ 65535
  else if m_type =? GF_STRING_HUGE then
    Forall (in_u 8) s ∧ Z.of_nat (length s) < 2 ^ 31
  else Forall (in_u 16) s ∧ Z.of_nat (length s) < 2 ^ 31.

Definition isString (m_type : Z) : bool := isCString m_type || isWideString m_type.

Definition isKeyV v : Prop :=
  match v with
  | KeyV _ _ | StringV _ _ | FileNameV _ _ => True
  | UserV u => other_isKey u = true
  | _ => False
  end.

Definition isStringV v : Prop :=
  match v with NullV | StringV _ _ | FileNameV _ _ => True | _ => False end.

Definition allP {A} (P : A → Prop) : list A → Prop :=
  fix go l := match l with [] => True | a :: l' => P a ∧ go l' end.

Lemma allP_Forall {A} (P : A → Prop) l : allP P l ↔ Forall P l.
Proof. induction l; simpl; rewrite ?Forall_nil, ?Forall_cons; naive_solver. Qed.

Definition shortList {A} (l : list A) : Prop := Z.of_nat (length l) < 2 ^ 31.

(** Objects as their classes build them: an array is null with length 0 or -1,
    or has the elements its length says; the keys of a map or a set are distinct
    objects of a key class. *)
Fixpoint wellTyped v : Prop :=
  match v with
  | NullV => True
  | KeyV k x => keyRange k x
  | StringV m_type m_str => isString m_type ∧ stringRange m_type (default [] m_str)
  | FileNameV m_type m_str =>
      in_s 8 m_type ∧
      if isString m_type then stringRange m_type (default [] m_str) else m_str = None
  | ArrayV k None n => n = 0 ∨ n = -1
  | ArrayV k (Some l) n =>
      n = Z.of_nat (length l) ∧ n ≤ maxMessage ∧ Forall (keyRange (elementKind k)) l
  | StringArrayV None n => n = 0 ∨ n = -1
  | StringArrayV (Some l) n =>
      n = Z.of_nat (length l) ∧ shortList l ∧
      allP (λ c, isStringV c ∧ wellTyped c) l
  | VectorV _ l | ObjectArrayV l => shortList l ∧ allP wellTyped l
  | MapV _ l =>
      shortList l ∧ allP (λ c, (isKeyV c.1 ∧ wellTyped c.1) ∧ wellTyped c.2) l ∧
      ForallOrdPairs (λ a b, keyEq a b = Ok false) (fst <$> l)
  | SetV _ l =>
      shortList l ∧ allP (λ c, isKeyV c ∧ wellTyped c) l ∧
      ForallOrdPairs (λ a b, keyEq a b = Ok false) l
  | UserV u => other_dom u
  end.

(** What comes back: a wide character is sign-extended, a null string is empty,
    and a null array that is not of bytes has length -1. *)
Definition keyAfterWire (k : KeyKind) (x : Z) : Z :=
  match k with CacheableWideChar => i16 x | _ => x end.

Definition arrayAfterWire {A} (isBytes : bool) (a : option (list A)) (n : Z)
    : option (list A) * Z :=
  match a with
  | None => (None, if isBytes then n else -1)
  | Some [] => (None, 0)
  | Some l => (Some l, n)
  end.

Definition isBytes (k : ArrayKind) : bool :=
  match k with CacheableBytes => true | _ => false end.

Fixpoint afterWire v : Serializable U :=
  match v with
  | NullV => NullV
  | KeyV k x => KeyV k (keyAfterWire k x)
  | StringV m_type m_str => StringV m_type (Some (default [] m_str))
  | FileNameV m_type m_str =>
      FileNameV m_type (if isString m_type then Some (default [] m_str) else None)
  | ArrayV k a n =>
      let r := arrayAfterWire (isBytes k) a n in
      ArrayV k (map (keyAfterWire (elementKind k)) <$> r.1) r.2
  | StringArrayV None n => StringArrayV None (-1)
  | StringArrayV (Some l) n =>
      let r := arrayAfterWire false (Some (map afterWire l)) n in StringArrayV r.1 r.2
  | VectorV k l => VectorV k (map afterWire l)
  | MapV k l => MapV k (map (λ c, (afterWire c.1, afterWire c.2)) l)
  | SetV k l => SetV k (map afterWire l)
  | ObjectArrayV l => ObjectArrayV (map afterWire l)
  | UserV u => UserV u
  end.

(** ** The encoding *)

Definition keyWire (k : KeyKind) (x : Z) : list Z :=
  match k with
  | CacheableBoolean | CacheableByte => [x mod 256]
  | CacheableInt16 | CacheableWideChar => be 2 x
  | CacheableFloat | CacheableInt32 => be 4 x
  | CacheableDouble | CacheableInt64 | CacheableDate => be 8 x
  end.

Definition stringWire (m_type : Z) (s : list Z) : list Z :=
  if m_type =? GF_STRING then be 2 (Z.of_nat (length s)) ++ s
  else if m_type =? GF_WIDESTRING then
    be 2 (Z.of_nat (length (flat_map utf_wchar s))) ++ flat_map utf_wchar s
  else if m_type =? GF_STRING_HUGE then be 4 (Z.of_nat (length s)) ++ s
  else if m_type =? GF_WIDESTRING_HUGE then
    be 4 (Z.of_nat (length s)) ++ flat_map wcharPair s
  else [].

Definition listWire {A} (f : A → list Z) (l : list A) : list Z :=
  arrayLenBytes (Z.of_nat (length l)) ++ flat_map f l.

Definition arrayWire {A} (isBytes : bool) (f : A → list Z) (a : option (list A))
    (n : Z) : list Z :=
  match a with
  | None => if isBytes && (0 <=? n) then [0] else [255]
  | Some l => listWire f l
  end.

Definition headWire v : list Z :=
  typeId v ::
  match v with
  | UserV u =>
      let classId := other_classId u in
      if userTypeId classId =? id_CacheableUserData then [classId mod 256]
      else if userTypeId classId =? id_CacheableUserData2 then be 2 classId
      else be 4 classId
  | _ => []
  end.

Fixpoint wire v : list Z :=
  headWire v ++
  match v with
  | NullV => []
  | KeyV k x => keyWire k x
  | StringV m_type m_str => stringWire m_type (default [] m_str)
  | FileNameV m_type m_str => m_type mod 256 :: stringWire m_type (default [] m_str)
  | ArrayV k a n => arrayWire (isBytes k) (keyWire (elementKind k)) a n
  | StringArrayV a n => arrayWire false wire a n
  | VectorV _ l | SetV _ l => listWire wire l
  | MapV _ l => listWire (λ c, wire c.1 ++ wire c.2) l
  | ObjectArrayV l =>
      arrayLenBytes (Z.of_nat (length l)) ++
      ([43] ++ [87] ++ (be 2 16 ++ javaObject)) ++ flat_map wire l
  | UserV u => other_enc u
  end.

(** ** Writing *)

Lemma be_swrap n w x :
  0 < w → w = 8 * Z.of_nat n → be n (swrap w x) = be n x.
Proof.
  intros Hw Hn. rewrite <- (be_uwrap n w (swrap w x)), <- (be_uwrap n w x) by done.
  f_equal. unfold uwrap, swrap. rewrite Zminus_mod_idemp_l. f_equal. lia.
Qed.

Lemma key_writes k x : keyRange k x → appends (writeKey k x) (keyWire k x).
Proof.
  destruct k; cbn [keyRange writeKey keyWire]; intros Hx.
  - assert (x = 0 ∨ x = 1) as [-> | ->] by lia;
      [apply (appends_writeBoolean false)|apply (appends_writeBoolean true)].
  - apply appends_write_u8.
  - apply appends_writeInt_u64.
  - apply appends_writeInt_u32.
  - apply appends_writeInt_i16.
  - apply appends_writeInt_i32.
  - apply appends_writeInt_i64.
  - unfold i16. rewrite <- (be_swrap 2 16 x) by lia. apply appends_writeInt_i16.
  - apply appends_writeInt_i64.
Qed.

Lemma key_reads k x :
  keyRange k x → reads (readKey k) (keyWire k x) (keyAfterWire k x).
Proof.
  destruct k; cbn [keyRange keyWire readKey keyAfterWire]; intros Hx.
  - assert (x = 0 ∨ x = 1) as [-> | ->] by lia.
    + by eapply (reads_map _ _ _ false); [apply (reads_boolean false)|].
    + by eapply (reads_map _ _ _ true); [apply (reads_boolean true)|].
  - by apply reads_u8.
  - apply reads_check; [rewrite length_be; lia|lia|]. by apply reads_u64.
  - apply reads_check; [rewrite length_be; lia|lia|]. by apply reads_u32.
  - by apply reads_i16.
  - by apply reads_i32.
  - by apply reads_i64.
  - unfold i16. rewrite <- (be_swrap 2 16 x) by lia.
    apply reads_i16, swrap_range. lia.
  - by apply reads_i64.
Qed.

Lemma isString_cases m_type :
  isString m_type → m_type = GF_STRING ∨ m_type = GF_WIDESTRING ∨
    m_type = GF_STRING_HUGE ∨ m_type = GF_WIDESTRING_HUGE.
Proof.
  unfold isString, isCString, isWideString. intros H0.
  apply Is_true_true in H0. rewrite !orb_true_iff, !Z.eqb_eq in H0. tauto.
Qed.

(** A null string is written as an empty one. *)
Lemma string_writes m_type m_str :
  isString m_type → stringRange m_type (default [] m_str) →
  appends (string_toData m_type m_str) (stringWire m_type (default [] m_str)).
Proof.
  intros Ht. destruct (isString_cases _ Ht) as [->|[->|[->| ->]]];
    destruct m_str as [s|]; cbn; intros Hs.
  - by apply (codec_writes (WireCodec := codec_ASCII)).
  - apply appends_writeInt_u16.
  - by apply (codec_writes (WireCodec := codec_UTF_wchar)).
  - apply appends_writeInt_u16.
  - by apply (codec_writes (WireCodec := codec_ASCIIHuge)).
  - apply appends_writeInt_u32.
  - by apply (codec_writes (WireCodec := codec_UTFHuge_wchar)).
  - apply appends_writeInt_u32.
Qed.

Lemma string_reads m_type s :
  isString m_type → stringRange m_type s →
  reads (string_fromData m_type) (stringWire m_type s) (Some s).
Proof.
  intros Ht. destruct (isString_cases _ Ht) as [->|[->|[->| ->]]]; cbn; intros Hs;
    apply (reads_pure _ Some).
  - by apply (codec_reads (WireCodec := codec_ASCII)).
  - by apply (codec_reads (WireCodec := codec_UTF_wchar)).
  - by apply (codec_reads (WireCodec := codec_ASCIIHuge)).
  - by apply (codec_reads (WireCodec := codec_UTFHuge_wchar)).
Qed.

Lemma seqM_writes {A} (f : A → M DataOutput unit) (g : A → list Z) l :
  Forall (λ a, appends (f a) (g a)) l → appends (seqM f l) (flat_map g l).
Proof.
  induction 1; simpl; [apply appends_ret|]. by apply appends_bind.
Qed.

Lemma seqN_writes {A} (f : A → M DataOutput unit) (g : A → list Z) l :
  Forall (λ a, appends (f a) (g a)) l →
  appends (seqN f l (length l)) (flat_map g l).
Proof.
  induction 1; simpl; [apply appends_ret|]. by apply appends_bind.
Qed.

(** A container: its length, then its elements. *)
Lemma list_writes {A} (f : A → M DataOutput unit) (g : A → list Z) l :
  shortList l → Forall (λ a, appends (f a) (g a)) l →
  appends (writeArrayLen (i32 (Z.of_nat (length l))) ;! seqM f l) (listWire g l).
Proof.
  unfold shortList, i32. intros Hl Hf. rewrite swrap_id by (unfold in_s; simpl; lia).
  apply appends_bind; [apply appends_writeArrayLen|by apply seqM_writes].
Qed.

Lemma array_writes {A} (f : A → M DataOutput unit) (g : A → list Z) l :
  Forall (λ a, appends (f a) (g a)) l →
  appends (writeArray f (Some l) (Z.of_nat (length l))) (listWire g l).
Proof.
  intros Hf. simpl. rewrite Nat2Z.id.
  apply appends_bind; [apply appends_writeArrayLen|by apply seqN_writes].
Qed.

Lemma bytes_wire l : Forall (in_u 8) l → flat_map (keyWire CacheableByte) l = l.
Proof.
  induction 1 as [|b l Hb Hl IH]; simpl in *; [done|].
  rewrite Z.mod_small by done. by f_equal.
Qed.

Lemma bytes_writes l n :
  Forall (in_u 8) l → n = Z.of_nat (length l) → n ≤ maxMessage →
  appends (writeBytes (Some l) n) (listWire (keyWire CacheableByte) l).
Proof.
  intros Hl -> Hn. pose proof (appends_writeBytes l _ (Z.le_refl _) Hn) as Hw.
  unfold bytesBytes, listWire in *. rewrite (proj2 (Z.leb_le _ _)) in Hw by lia.
  by rewrite Nat2Z.id, firstn_all, fmap_u8_id in Hw; [rewrite bytes_wire|].
Qed.

Lemma nullBytes_writes n :
  n = 0 ∨ n = -1 → appends (writeBytes None n) (arrayWire true (keyWire CacheableByte) None n).
Proof.
  intros [-> | ->]; [|apply (appends_write_i8 (-1))].
  apply (appends_reserved 5 (writeArrayLen 0) (ret tt) [0] []);
    [apply appends_writeArrayLen|apply stores_ret|simpl; lia].
Qed.

Lemma nullArray_writes {A} (f : A → M DataOutput unit) n :
  appends (writeArray f None n) [255].
Proof. apply (appends_write_i8 (-1)). Qed.

(** The elements of an array are written one by one, or copied if bytes. *)
Lemma primitives_write k a n :
  wellTyped (ArrayV k a n) →
  appends (toData (ArrayV k a n)) (arrayWire (isBytes k) (keyWire (elementKind k)) a n).
Proof.
  intros Hv. destruct (isBytes k) eqn:Ek.
  { destruct k; try done. destruct a as [l|]; cbn [wellTyped toData arrayWire] in *.
    - destruct Hv as (-> & Hn & Hl). by apply bytes_writes.
    - by apply nullBytes_writes. }
  assert (toData (ArrayV k a n) = writeArray (writeKey (elementKind k)) a n) as ->
    by (by destruct k).
  destruct a as [l|]; [|apply nullArray_writes].
  destruct Hv as (-> & Hn & Hl). apply array_writes.
  eapply Forall_impl; [exact Hl|]. apply key_writes.
Qed.

Lemma userTypeId_cases classId :
  in_s 32 classId →
  (userTypeId classId = 39 ∧ in_s 8 classId) ∨
  (userTypeId classId = 38 ∧ in_s 16 classId) ∨ userTypeId classId = 37.
Proof.
  unfold userTypeId, in_s. intros Hc.
  destruct ((classId <=? 127) && (-128 <=? classId)) eqn:E1; [left|right].
  { rewrite andb_true_iff, !Z.leb_le in E1. split; [done|simpl; lia]. }
  destruct ((classId <=? 32767) && (-32768 <=? classId)) eqn:E2; [left|by right].
  rewrite andb_true_iff, !Z.leb_le in E2. split; [done|simpl; lia].
Qed.

Lemma typeId_byte v : wellTyped v → 0 ≤ typeId v < 128.
Proof.
  destruct v as [|k x|t s|t s|k a n|a n|k l|k l|k l|l|u]; cbn [typeId wellTyped];
    intros Hv; try (destruct k; simpl; lia);
    try (unfold id_NullObj, id_CacheableFileName, id_CacheableStringArray,
      id_CacheableObjectArray; lia).
  - destruct Hv as [Ht _]. destruct (isString_cases _ Ht) as [->|[->|[->| ->]]];
      split; done.
  - destruct (userTypeId_cases _ (other_class u Hv)) as [[-> _]|[[-> _]| ->]]; lia.
Qed.

Lemma head_writes v : wellTyped v → appends (writeHead v) (headWire v).
Proof.
  intros Hv. pose proof (typeId_byte v Hv) as Ht.
  apply (appends_bind (write_i8 _) _ [_]).
  { rewrite <- (Z.mod_small (typeId v) 256) at 2 by lia. apply appends_write_i8. }
  destruct v; try apply appends_ret. cbv beta iota zeta.
  destruct (userTypeId_cases _ (other_class u Hv)) as [[-> _]|[[-> _]| ->]]; cbn -[be].
  - unfold i8. pose proof (be_swrap 1 8 (other_classId u)) as E. simpl in E.
    rewrite <- E by done. apply appends_write_i8.
  - unfold i16. rewrite <- (be_swrap 2 16) by done. apply appends_writeInt_i16.
  - apply appends_writeInt_i32.
Qed.

Lemma Forall_impl_allP {A} (P Q : A → Prop) l :
  allP P l → Forall (λ a, P a → Q a) l → Forall Q l.
Proof.
  rewrite allP_Forall. intros HP HPQ.
  eapply Forall_impl; [exact (proj2 (Forall_and _ _) (conj HP HPQ))|].
  intros a [Ha Hi]. by apply Hi.
Qed.

Lemma wire_writes v : wellTyped v → appends (serialize v) (wire v).
Proof.
  induction v as [|k x|t s|t s|k a n|n|l n IH|k l IH|k l IH|k l IH|l IH|u]
    using Serializable_nested_ind; intros Hv; cbn [wire];
    (apply (appends_bind (writeHead _) (toData _)); [by apply head_writes|]);
    cbn [toData wellTyped] in *.
  - apply appends_ret.
  - by apply key_writes.
  - destruct Hv. by apply string_writes.
  - destruct Hv as [Ht Hs]. apply (appends_bind (write_i8 t) _ [_]);
      [apply appends_write_i8|].
    destruct (isString t) eqn:E; [apply string_writes; [by rewrite E|done]|].
    unfold isString, isCString, isWideString in E.
    rewrite !orb_false_iff in E. destruct E as [[E1 E2] [E3 E4]].
    unfold string_toData, stringWire. rewrite E1, E2, E3, E4. apply appends_ret.
  - by apply primitives_write.
  - apply nullArray_writes.
  - destruct Hv as (-> & Hl & Hc). apply array_writes.
    eapply Forall_impl_allP; [done|]. eapply Forall_impl; [done|].
    intros c Hw [_ ?]. by apply Hw.
  - destruct Hv as [Hl Hc]. apply list_writes; [done|].
    by eapply Forall_impl_allP.
  - destruct Hv as (Hl & Hc & _). apply list_writes; [done|].
    eapply Forall_impl_allP; [done|]. eapply Forall_impl; [done|].
    intros c [H1 H2] [[_ ?] ?]. apply appends_bind; [by apply H1|by apply H2].
  - destruct Hv as (Hl & Hc & _). apply list_writes; [done|].
    eapply Forall_impl_allP; [done|]. eapply Forall_impl; [done|].
    intros c Hw [_ ?]. by apply Hw.
  - destruct Hv as [Hl Hc]. unfold shortList in Hl.
    unfold i32. rewrite swrap_id by (unfold in_s; simpl; lia).
    apply appends_bind; [apply appends_writeArrayLen|]. rewrite <- !app_assoc.
    apply (appends_bind (write_i8 _) _ [43]); [apply (appends_write_i8 43)|].
    apply (appends_bind (write_i8 _) _ [87]); [apply (appends_write_i8 87)|].
    rewrite app_assoc. apply appends_bind.
    + apply (appends_writeASCII _ 0 javaObject); [|simpl; lia].
      exists []. left. repeat constructor; done.
    + apply seqM_writes. by eapply Forall_impl_allP.
  - by apply other_writes.
Qed.
End Wire.
