(* ===== verification/CacheableRead.v ===== *)
(** * Reading the value classes back

    The reader's half of the round trip: the dispatch on type ids, the arrays and
    containers, and [wire_reads], by induction on the value with fuel for its
    nesting. *)

From S2P Require Import Prelude DataOutput DataInput Codec Cacheable CacheableWire.

Section Reading.
Context {U : Type} `{!Allocator, !OtherTypes U, !OtherWire U, !OtherCodec U}.
Implicit Types v : Serializable U.

(** ** Dispatch on the type id *)

Lemma reads_typeId t : 0 ≤ t < 128 → reads read_i8 [t] t.
Proof.
  intros Ht. rewrite <- (Z.mod_small t 256) at 1 by lia.
  apply reads_i8. split; simpl; lia.
Qed.

Definition dispatched (b : Blank) : bool :=
  (0 <=? blankId b) && (blankId b <? 128) &&
  forallb (λ t, negb (blankId b =? t))
    [id_NullObj; id_CacheableNullString; id_CacheableUserData; id_CacheableUserData2;
     id_CacheableUserData4; id_FixedIDByte; id_FixedIDShort; id_FixedIDInt].

Lemma builtins_dispatched b : In b builtins → dispatched b = true.
Proof.
  intros Hb. assert (forallb dispatched builtins = true) as Hall by (vm_compute; done).
  rewrite forallb_forall in Hall. by apply Hall.
Qed.

Lemma findBlank_builtins b : In b builtins → findBlank (blankId b) builtins = Some b.
Proof.
  intros Hb. repeat (destruct Hb as [<-|Hb]; [vm_compute; done|]). destruct Hb.
Qed.

Lemma reads_builtin fuel b bs v :
  In b builtins → reads (fromData (deserialize fuel) b) bs v →
  reads (deserialize (S fuel)) (blankId b :: bs) v.
Proof.
  intros Hb Hr. pose proof (builtins_dispatched b Hb) as Hd.
  unfold dispatched in Hd. rewrite !andb_true_iff in Hd. destruct Hd as [[H1 H2] Hd].
  cbn [forallb] in Hd. rewrite !andb_true_iff, !negb_true_iff in Hd.
  destruct Hd as (E1 & E2 & E3 & E4 & E5 & E6 & E7 & E8 & _).
  cbn [deserialize]. apply (reads_bind _ _ [blankId b] bs (blankId b)).
  { apply reads_typeId. lia. }
  cbv beta. rewrite E1, E2. unfold readCompId. rewrite E3, E4, E5, E6, E7, E8.
  apply (reads_bind _ _ [] bs (false, blankId b)); [apply reads_ret|].
  cbv beta iota. by rewrite findBlank_builtins by done.
Qed.
(** An application's class id is not taken for a built-in one. *)
Lemma lor_userId t classId : 37 ≤ t ≤ 39 →
  Z.lor t (Z.shiftl classId 32) = classId * 2 ^ 32 + t.
Proof. intros Ht. rewrite Z.lor_comm. apply lor_shiftl_low; lia. Qed.

Lemma findBlank_user t classId :
  37 ≤ t ≤ 39 → findBlank (classId * 2 ^ 32 + t) builtins = None.
Proof.
  intros Ht.
  assert (forallb (λ b, (0 <=? blankId b) && (blankId b <? 128) &&
    negb (blankId b =? 37) && negb (blankId b =? 38) && negb (blankId b =? 39))
    builtins = true) as Hall by (vm_compute; done).
  generalize dependent builtins. intros l Hall. induction l as [|b l IH]; [done|].
  cbn [forallb findBlank] in *. rewrite !andb_true_iff, !negb_true_iff in Hall.
  destruct Hall as [[[[[H1 H2] H3] H4] H5] Hl].
  rewrite (proj2 (Z.eqb_neq _ _)) by lia. by apply IH.
Qed.

Lemma user_reads fuel u :
  other_dom u → reads (deserialize (S fuel)) (wire (UserV u)) (UserV u).
Proof.
  intros Hu. pose proof (other_class u Hu) as Hc.
  destruct (other_reads u Hu) as (r & Hf & Hr).
  assert (37 ≤ userTypeId (other_classId u) ≤ 39) as Ht
    by (destruct (userTypeId_cases _ Hc) as [[-> _]|[[-> _]| ->]]; lia).
  rewrite lor_userId in Hf by done. cbn [wire]. unfold headWire. cbn [typeId].
  set (t := userTypeId (other_classId u)) in *.
  rewrite <- app_comm_cons. cbn [deserialize].
  apply (reads_bind _ _ [t] _ t); [apply reads_typeId; lia|].
  cbv beta. unfold id_NullObj, id_CacheableNullString.
  rewrite !(proj2 (Z.eqb_neq t _)) by lia.
  eapply (reads_bind _ _ _ _ (false, Z.lor t (Z.shiftl (other_classId u) 32))).
  - cbv zeta. unfold readCompId, t, id_CacheableUserData, id_CacheableUserData2,
      id_CacheableUserData4.
    destruct (userTypeId_cases _ Hc) as [[-> ?]|[[-> ?]| ->]]; cbn -[be Z.lor Z.shiftl];
      apply (reads_pure _ (λ c, (false, Z.lor _ (Z.shiftl c 32)))).
    + by apply reads_i8.
    + by apply reads_i16.
    + by apply reads_i32.
  - cbv beta iota. rewrite lor_userId, findBlank_user, Hf by done.
    by apply (reads_pure _ UserV).
Qed.

(** ** Arrays and containers *)

Lemma repeat_reads {A} (rd : M DataInput A) (g : A → list Z) (after : A → A) l :
  Forall (λ a, reads rd (g a) (after a)) l →
  reads (repeatRead (length l) rd) (flat_map g l) (map after l).
Proof.
  induction 1 as [|a l Ha Hl IH]; [apply reads_ret|].
  eapply reads_bind; [exact Ha|]. cbv beta. by apply (reads_pure _ (cons (after a))).
Qed.

Lemma array_reads {A} (rd : M DataInput A) (g : A → list Z) (after : A → A) l n :
  n = Z.of_nat (length l) → n < 2 ^ 31 →
  Forall (λ a, reads rd (g a) (after a)) l →
  reads (readObjectArray rd) (listWire g l)
    (match l with [] => None | _ => Some (map after l) end, n).
Proof.
  intros -> Hn Hl. unfold readObjectArray, listWire.
  eapply reads_bind; [apply reads_arrayLen; lia|]. cbv beta.
  destruct l as [|a l]; [apply reads_ret|].
  rewrite (proj2 (Z.ltb_lt _ _)) by (simpl; lia). rewrite Nat2Z.id.
  apply (reads_pure _ (λ l, (Some l, _))). by apply repeat_reads.
Qed.

(** Elements that are not equal to an earlier one all go into the container. *)
Lemma repeatInto_reads {A B} (R : A → A → Prop) (body : list A → M DataInput (list A))
    (g : B → list Z) (after : B → A) l : ∀ acc,
  Forall (λ c, ∀ acc, Forall (λ a, R a (after c)) acc →
    reads (body acc) (g c) (acc ++ [after c])) l →
  ForallOrdPairs R (map after l) →
  Forall (λ c, Forall (λ a, R a (after c)) acc) l →
  reads (repeatInto (length l) body acc) (flat_map g l) (acc ++ map after l).
Proof.
  induction l as [|c l IH]; intros acc Hb Ho Hc; simpl.
  { rewrite app_nil_r. apply reads_ret. }
  apply Forall_cons in Hb as [Hb1 Hb]. apply Forall_cons in Hc as [Hc1 Hc].
  inversion Ho as [|? ? Ho1 Ho2]; subst.
  eapply reads_bind; [by apply Hb1|]. cbv beta.
  replace (acc ++ after c :: map after l) with ((acc ++ [after c]) ++ map after l)
    by (by rewrite <- app_assoc).
  apply IH; [done..|]. rewrite List.Forall_map in Ho1.
  eapply Forall_impl; [exact (proj2 (Forall_and _ _) (conj Hc Ho1))|].
  intros d [Hd1 Hd2]. apply Forall_app_2; [done|]. by constructor.
Qed.

Lemma findKey_fresh {A} (key : Serializable U) (keyOf : A → Serializable U) l :
  Forall (λ a, keyEq (keyOf a) key = Ok false) l → findKey key keyOf l = Ok false.
Proof. induction 1 as [|a l Ha Hl IH]; simpl; [done|]. by rewrite Ha. Qed.

Lemma emplace_fresh {A} (keyOf : A → Serializable U) (a : A) l :
  isKeyV (keyOf a) → Forall (λ b, keyEq (keyOf b) (keyOf a) = Ok false) l →
  emplace (S := DataInput) keyOf a l = ret (l ++ [a]).
Proof.
  intros Hk Hl. unfold emplace. rewrite (findKey_fresh _ _ _ Hl).
  by destruct (keyOf a).
Qed.

(** ** Keys stay distinct *)

Lemma stringEq_default a t s b t' s' r r' :
  default [] r = default [] s → default [] r' = default [] s' →
  (r = None → s = None) →
  stringEq a t s b t' s' = Ok false → stringEq a t r b t' r' = Ok false.
Proof.
  intros E E' Hn. unfold stringEq.
  assert (∀ x : option (list Z), match x with Some l => Z.of_nat (length l) | None => 0 end
    = Z.of_nat (length (default [] x))) as Hlen by (by intros []).
  rewrite !Hlen, E, E'. case_match; [done|]. case_match; [done|].
  destruct r as [r|]; [|by rewrite (Hn eq_refl)].
  destruct s as [s|]; [|done]. simpl in *. by subst.
Qed.

Lemma keyEquals_afterWire k x y :
  keyRange k x → keyRange k y → keyEquals k x y = false →
  keyEquals k (keyAfterWire k x) (keyAfterWire k y) = false.
Proof.
  destruct k; try done. simpl. rewrite !Z.eqb_neq. intros Hx Hy Hn E. apply Hn.
  clear Hn. width_lia.
Qed.

Lemma keyEq_afterWire v w :
  wellTyped v → wellTyped w → keyEq v w = Ok false →
  keyEq (afterWire v) (afterWire w) = Ok false.
Proof.
  intros Hv Hw.
  destruct v as [|k x|t s|t s| | | | | | |u]; destruct w as [|k' x'|t' s'|t' s'| | | | | | |u'];
    cbn [keyEq afterWire wellTyped] in *; try done;
    try (repeat match goal with |- context [isString ?b] => destruct (isString b) end;
      apply stringEq_default; naive_solver).
  intros [= E]. case_bool_decide; [subst k'|done]. simpl in *. f_equal.
  by apply keyEquals_afterWire.
Qed.

Lemma asKey_afterWire v : isKeyV v → asKey (afterWire v) = afterWire v ∧ isKeyV (afterWire v).
Proof. destruct v; try done. simpl. by intros ->. Qed.

Lemma asString_afterWire v : isStringV v → asString (afterWire v) = afterWire v.
Proof. by destruct v. Qed.

Lemma keys_stay_distinct {A} (key : A → Serializable U) (l : list A) :
  Forall (λ a, wellTyped (key a)) l →
  ForallOrdPairs (λ a b, keyEq a b = Ok false) (map key l) →
  ForallOrdPairs (λ a b, keyEq a b = Ok false) (map (λ a, afterWire (key a)) l).
Proof.
  induction 1 as [|a l Ha Hl IH]; intros Ho; [constructor|].
  inversion Ho as [|? ? Ho1 Ho2]; subst. constructor; [|by apply IH].
  change (Forall (λ w, keyEq (afterWire (key a)) w = Ok false)
    (map (λ b, afterWire (key b)) l)).
  rewrite List.Forall_map in *.
  eapply Forall_impl; [exact (proj2 (Forall_and _ _) (conj Hl Ho1))|].
  intros b [Hb E]. by apply keyEq_afterWire.
Qed.

(** ** Reading *)

Lemma children_readable {A} (f : A → nat) (l : list A) (P : A → Prop)
    (Q : nat → A → Prop) fuel :
  Forall (λ c, ∀ fuel, (f c ≤ fuel)%nat → P c → Q fuel c) l →
  (S (foldr (λ c n, max (f c) n) 0 l) ≤ S fuel)%nat → Forall P l → Forall (Q fuel) l.
Proof.
  intros Hl Hf HP. pose proof (depth_children f l) as Hd.
  rewrite Forall_forall in *. intros c Hc.
  apply (Hl c Hc fuel); [|by apply HP]. specialize (Hd c Hc). lia.
Qed.

Lemma advance_reads bs : reads (di_advanceCursor (Z.of_nat (length bs))) bs tt.
Proof. intros i rest Hw E. done. Qed.

Lemma nullArray_reads {A} (rd : M DataInput A) :
  reads (readObjectArray rd) [255] (None, -1).
Proof.
  apply (reads_bind _ _ [255] [] (-1)); [|apply reads_ret].
  apply (reads_arrayLen (-1)). lia.
Qed.

Lemma nullBytes_reads n :
  n = 0 ∨ n = -1 →
  reads readBytes (arrayWire true (keyWire CacheableByte) None n) (None, n).
Proof.
  intros [-> | ->].
  - apply (reads_bind _ _ [0] [] 0); [|apply reads_ret]. by apply (reads_arrayLen 0).
  - apply (reads_bind _ _ [255] [] (-1)); [|apply reads_ret]. by apply (reads_arrayLen (-1)).
Qed.

Lemma map_id' {A} (f : A → A) l : (∀ a, f a = a) → map f l = l.
Proof. intros Hf. induction l; simpl; [done|]. by rewrite Hf, IHl. Qed.

Lemma primitives_read rd k a n :
  wellTyped (ArrayV (U := U) k a n) →
  reads (fromData rd (BArray k))
    (arrayWire (isBytes k) (keyWire (elementKind k)) a n) (afterWire (ArrayV k a n)).
Proof.
  intros Hv. cbn [wellTyped] in Hv. destruct (isBytes k) eqn:Ek.
  - destruct k; try done. cbn [fromData].
    eapply reads_map with (v := match a with None => (None, n) | Some [] => (None, n)
      | Some l => (Some l, n) end).
    + destruct a as [l|]; [|by apply nullBytes_reads].
      destruct Hv as (-> & Hn & Hl). unfold arrayWire, listWire. cbn [elementKind].
      rewrite bytes_wire by done.
      pose proof (reads_bytes l ltac:(unfold maxMessage in Hn; lia)) as Hr.
      by destruct l.
    + destruct a as [[|b l]|]; try done.
      * by destruct Hv as (-> & _).
      * cbn -[map]. by rewrite map_id'.
  - assert (fromData rd (BArray k) = let! r := readObjectArray (readKey (elementKind k)) in
      ret (ArrayV k r.1 r.2)) as -> by (by destruct k).
    destruct a as [l|].
    + destruct Hv as (-> & Hn & Hl).
      eapply reads_map.
      * apply array_reads with (after := keyAfterWire (elementKind k)); [done| |].
        { unfold maxMessage in Hn. lia. }
        eapply Forall_impl; [exact Hl|]. apply key_reads.
      * cbn [afterWire]. rewrite Ek. by destruct l.
    + eapply reads_map; [apply nullArray_reads|]. cbn [afterWire]. by rewrite Ek.
Qed.

Lemma stringArray_reads l n fuel :
  n = Z.of_nat (length l) → shortList l →
  Forall (λ c, isStringV c ∧ reads (deserialize fuel) (wire c) (afterWire c)) l →
  reads (fromData (deserialize fuel) BStringArray) (listWire wire l)
    (afterWire (StringArrayV (Some l) n)).
Proof.
  intros -> Hl Hc. unfold shortList in Hl. cbn [fromData].
  eapply reads_map.
  - apply array_reads with (after := afterWire); [done..|].
    eapply Forall_impl; [exact Hc|]. intros c [Hs Hr]. cbv beta.
    eapply reads_map; [exact Hr|]. by apply asString_afterWire.
  - by destruct l.
Qed.

Lemma ForallOrdPairs_map {A B} (R : B → B → Prop) (f : A → B) l :
  ForallOrdPairs R (map f l) → ForallOrdPairs (λ a b, R (f a) (f b)) l.
Proof.
  induction l as [|a l IH]; simpl; intros Ho; [constructor|].
  inversion Ho as [|? ? Ho1 Ho2]; subst. constructor; [|by apply IH].
  by rewrite List.Forall_map in Ho1.
Qed.

Lemma map_reads k l fuel :
  wellTyped (MapV k l) →
  Forall (λ c, reads (deserialize fuel) (wire c.1) (afterWire c.1) ∧
               reads (deserialize fuel) (wire c.2) (afterWire c.2)) l →
  reads (fromData (deserialize fuel) (BMap k))
    (listWire (λ c, wire c.1 ++ wire c.2) l) (afterWire (MapV k l)).
Proof.
  cbn [wellTyped]. rewrite allP_Forall. unfold shortList. intros (Hl & Hw & Ho) Hc.
  cbn [fromData]. eapply reads_bind; [apply reads_arrayLen; lia|]. cbv beta.
  rewrite (proj2 (Z.ltb_ge _ _)), Nat2Z.id by lia.
  apply (reads_pure _ (MapV k)).
  apply (repeatInto_reads (λ a b, keyEq a.1 b.1 = Ok false) _ _
    (λ c, (afterWire c.1, afterWire c.2)) l []).
  - eapply Forall_impl; [exact (proj2 (Forall_and _ _) (conj Hw Hc))|].
    intros c [[[Hk _] _] [H1 H2]] acc Hacc.
    eapply reads_bind; [exact H1|]. cbv beta.
    rewrite <- (app_nil_r (wire c.2)). eapply reads_bind; [exact H2|]. cbv beta.
    destruct (asKey_afterWire _ Hk) as [-> Hk']. rewrite emplace_fresh by done.
    apply reads_ret.
  - apply (ForallOrdPairs_map (λ a b, keyEq a b = Ok false) fst).
    rewrite map_map. apply (keys_stay_distinct fst); [|exact Ho].
    eapply Forall_impl; [exact Hw|]. by intros c [[_ ?] _].
  - by apply Forall_true.
Qed.

Lemma set_reads k l fuel :
  wellTyped (SetV k l) →
  Forall (λ c, reads (deserialize fuel) (wire c) (afterWire c)) l →
  reads (fromData (deserialize fuel) (BSet k)) (listWire wire l) (afterWire (SetV k l)).
Proof.
  cbn [wellTyped]. rewrite allP_Forall. unfold shortList. intros (Hl & Hw & Ho) Hc.
  cbn [fromData]. eapply reads_bind; [apply reads_arrayLen; lia|]. cbv beta.
  rewrite Nat2Z.id by lia. apply (reads_pure _ (SetV k)).
  apply (repeatInto_reads (λ a b, keyEq a b = Ok false) _ _ afterWire l []).
  - eapply Forall_impl; [exact (proj2 (Forall_and _ _) (conj Hw Hc))|].
    intros c [[Hk _] H1] acc Hacc.
    rewrite <- (app_nil_r (wire c)). eapply reads_bind; [exact H1|]. cbv beta.
    destruct (asKey_afterWire _ Hk) as [-> Hk']. rewrite emplace_fresh by done.
    apply reads_ret.
  - apply (keys_stay_distinct id); [|by rewrite map_id'].
    eapply Forall_impl; [exact Hw|]. by intros c [_ ?].
  - by apply Forall_true.
Qed.

Lemma objectArray_reads l fuel :
  shortList l → Forall (λ c, reads (deserialize fuel) (wire c) (afterWire c)) l →
  reads (fromData (deserialize fuel) BObjectArray)
    (arrayLenBytes (Z.of_nat (length l)) ++
     ([43] ++ [87] ++ (be 2 16 ++ javaObject)) ++ flat_map wire l)
    (ObjectArrayV (map afterWire l)).
Proof.
  unfold shortList. intros Hl Hc. cbn [fromData].
  eapply reads_bind; [apply reads_arrayLen; lia|]. cbv beta.
  rewrite (proj2 (Z.ltb_ge _ _)), Nat2Z.id by lia. rewrite <- !app_assoc.
  apply (reads_bind _ _ [43] _ 43); [by apply reads_typeId|].
  apply (reads_bind _ _ [87] _ 87); [by apply reads_typeId|].
  eapply reads_bind; [by apply (reads_u16 16)|].
  eapply reads_bind; [apply (advance_reads javaObject)|].
  by apply (reads_pure _ ObjectArrayV), repeat_reads.
Qed.

Ltac in_builtins := simpl; repeat (first [left; reflexivity|right]).

(** With fuel for the nesting every well-typed object is read. *)
Lemma wire_reads v : ∀ fuel,
  (depth v ≤ fuel)%nat → wellTyped v → reads (deserialize fuel) (wire v) (afterWire v).
Proof.
  induction v as [|k x|t s|t s|k a n|n|l n IH|k l IH|k l IH|k l IH|l IH|u]
    using Serializable_nested_ind; intros [|fuel] Hd Hv;
    cbn [depth] in Hd; try lia; [..|by apply user_reads]; cbn [wire afterWire].
  - apply (reads_bind _ _ [41] [] 41); [by apply reads_typeId|apply reads_ret].
  - apply (reads_builtin fuel (BKey k)); [destruct k; in_builtins|].
    by apply (reads_pure _ (KeyV k)), key_reads.
  - destruct Hv as [Ht Hs]. apply (reads_builtin fuel (BString t)).
    { destruct (isString_cases _ Ht) as [->|[->|[->| ->]]]; in_builtins. }
    by apply (reads_pure _ (StringV t)), string_reads.
  - destruct Hv as [Ht Hs]. apply (reads_builtin fuel BFileName); [in_builtins|].
    apply (reads_bind _ _ [_] _ t); [by apply reads_i8|].
    apply (reads_pure _ (FileNameV t)). destruct (isString t) eqn:E.
    { apply string_reads; [by rewrite E|done]. }
    unfold isString, isCString, isWideString in E.
    rewrite !orb_false_iff in E. destruct E as [[E1 E2] [E3 E4]].
    unfold string_fromData, stringWire. rewrite E1, E2, E3, E4. apply reads_ret.
  - apply (reads_builtin fuel (BArray k)); [destruct k; in_builtins|].
    by apply primitives_read.
  - apply (reads_builtin fuel BStringArray); [in_builtins|].
    eapply reads_map; [apply nullArray_reads|done].
  - destruct Hv as (Hn & Hl & Hc). apply (reads_builtin fuel BStringArray); [in_builtins|].
    apply stringArray_reads; [done..|]. rewrite allP_Forall in Hc.
    apply (children_readable depth l _ (λ fuel c, isStringV c ∧
      reads (deserialize fuel) (wire c) (afterWire c)) fuel) in Hc; [done| |done].
    eapply Forall_impl; [exact IH|]. naive_solver.
  - destruct Hv as [Hl Hc]. apply (reads_builtin fuel (BVector k)); [destruct k; in_builtins|].
    unfold shortList in Hl. eapply reads_bind; [apply reads_arrayLen; lia|].
    rewrite Nat2Z.id. apply (reads_pure _ (VectorV k)), repeat_reads.
    rewrite allP_Forall in Hc.
    by eapply (children_readable depth l _ (λ fuel c,
      reads (deserialize fuel) (wire c) (afterWire c))).
  - apply (reads_builtin fuel (BMap k)); [destruct k; in_builtins|].
    apply map_reads; [done|]. destruct Hv as (_ & Hc & _). rewrite allP_Forall in Hc.
    eapply (children_readable (λ c, max (depth c.1) (depth c.2)) l _ (λ fuel c,
      reads (deserialize fuel) (wire c.1) (afterWire c.1) ∧
      reads (deserialize fuel) (wire c.2) (afterWire c.2))); [|exact Hd|exact Hc].
    eapply Forall_impl; [exact IH|]. intros c [H1 H2] f Hf [[_ ?] ?]. split; [apply H1|apply H2]; (done || lia).
  - apply (reads_builtin fuel (BSet k)); [destruct k; in_builtins|].
    apply set_reads; [done|]. destruct Hv as (_ & Hc & _). rewrite allP_Forall in Hc.
    eapply (children_readable depth l _ (λ fuel c,
      reads (deserialize fuel) (wire c) (afterWire c))); [|exact Hd|exact Hc].
    eapply Forall_impl; [exact IH|]. naive_solver.
  - destruct Hv as [Hl Hc]. apply (reads_builtin fuel BObjectArray); [in_builtins|].
    apply objectArray_reads; [done|]. rewrite allP_Forall in Hc.
    by eapply (children_readable depth l _ (λ fuel c,
      reads (deserialize fuel) (wire c) (afterWire c))).
Qed.
End Reading.
