(* ===== verification/CacheableProps.v ===== *)
(** * Value classes: the theorems on round trip and keys

    [cacheable_roundtrip]: every well-typed object graph is written and read
    back, whatever its nesting.  [equal_keys_hash_alike]: the contract between
    [operator==] and [hashcode] on which hash containers and the entries map
    rely, with the keys that break it. *)

From S2P Require Import Prelude DataOutput DataInput Codec SerializationProps.
From S2P Require Import Cacheable CacheableWire CacheableRead.

(** Keys of application classes honour the contract of [CacheableKey] and equal
    no built-in key. *)
Class OtherKeys (U : Type) `{!Allocator, !OtherTypes U} : Prop := {
  other_eq_hash u u' : other_eq u u' = true → other_hash u = other_hash u';
  other_eq_foreign u t : other_eqForeign u t = false
}.

Section Theorems.
Context {U : Type} `{!Allocator, !OtherTypes U, !OtherWire U}.
Implicit Types v : Serializable U.

(** ** Values the wire keeps as they are *)

Definition narrow (k : KeyKind) (x : Z) : Prop := k = CacheableWideChar → x < 32768.

Fixpoint faithful v : Prop :=
  match v with
  | NullV | UserV _ => True
  | KeyV k x => narrow k x
  | StringV _ m_str => m_str ≠ None
  | FileNameV m_type m_str => isString m_type → m_str ≠ None
  | ArrayV k None n => isBytes k = true ∨ n = -1
  | ArrayV k (Some l) _ => l ≠ [] ∧ Forall (narrow (elementKind k)) l
  | StringArrayV None n => n = -1
  | StringArrayV (Some l) _ => l ≠ [] ∧ allP faithful l
  | VectorV _ l | SetV _ l | ObjectArrayV l => allP faithful l
  | MapV _ l => allP (λ c, faithful c.1 ∧ faithful c.2) l
  end.

Lemma narrow_kept k x : keyRange k x → narrow k x → keyAfterWire k x = x.
Proof.
  destruct k; try done. unfold narrow. simpl. intros Hx Hn.
  specialize (Hn eq_refl). apply swrap_id; [done|]. unfold in_u, in_s in *. simpl in *. lia.
Qed.

Lemma map_kept {A} (f : A → A) (P Q : A → Prop) l :
  Forall (λ a, P a → Q a → f a = a) l → allP P l → allP Q l → map f l = l.
Proof.
  induction 1 as [|a l Ha Hl IH]; simpl; [done|]. intros [? ?] [? ?].
  by rewrite Ha, IH.
Qed.

Lemma faithful_kept v : wellTyped v → faithful v → afterWire v = v.
Proof.
  induction v as [|k x|t s|t s|k [l|] n|n|l n IH|k l IH|k l IH|k l IH|l IH|u]
    using Serializable_nested_ind; cbn [wellTyped faithful afterWire]; try done.
  - intros. by rewrite narrow_kept.
  - by destruct s.
  - intros [_ Hs] Hf. destruct (isString t); [|by rewrite Hs].
    destruct s; [done|]. by destruct (Hf I).
  - intros (-> & _ & Hr) [Hne Hf]. rewrite <- allP_Forall in *.
    destruct l as [|a l]; [done|]. cbn [arrayAfterWire fst snd]. f_equal.
    cbn [fmap option_fmap option_map]. f_equal.
    eapply map_kept; [|exact Hr|exact Hf]. apply Forall_true. apply narrow_kept.
  - intros Hn [->|Hf]; [done|]. cbn. by rewrite Hf; destruct (isBytes k).
  - by intros _ ->.
  - intros (-> & Hl & Hc) [Hne Hf]. destruct l as [|a l]; [done|].
    cbn [arrayAfterWire map fst snd]. do 2 f_equal.
    apply (map_kept afterWire (λ c, isStringV c ∧ wellTyped c) _ (a :: l)) in Hf;
      [done| |exact Hc].
    eapply Forall_impl; [exact IH|]. naive_solver.
  - intros [_ Hc] Hf. f_equal. by eapply map_kept.
  - intros (_ & Hc & _) Hf. f_equal. eapply map_kept; [|exact Hc|exact Hf].
    eapply Forall_impl; [exact IH|]. intros [a b] [H1 H2] [[_ ?] ?] [? ?]. simpl in *.
    f_equal; [by apply H1|by apply H2].
  - intros (_ & Hc & _) Hf. f_equal. eapply map_kept; [|exact Hc|exact Hf].
    eapply Forall_impl; [exact IH|]. naive_solver.
  - intros [_ Hc] Hf. f_equal. by eapply map_kept.
Qed.

(** C6: An object graph, serialized in any well-formed output, is appended to
    what was written; [deserialize], with fuel for its nesting, reads it back and
    stops at its end.  What comes back is the value itself unless it holds a wide
    character above 0x7fff, a null string, or a null or empty array. *)
Theorem cacheable_roundtrip `{!OtherCodec U} v fuel o :
  wellTyped v → (depth v ≤ fuel)%nat → do_wf o →
  do_buf o + Z.of_nat (length (wire v)) ≤ maxMessage →
  (∃ o', serialize v o = (Ok tt, o') ∧ do_wf o' ∧
    getBuffer o' = written o ++ wire v ∧
    let i := mkDataInput (getBuffer o') (do_buf o) (getBufferLength o') in
    deserialize fuel i = (Ok (afterWire v), seek (getBufferLength o') i)) ∧
  (faithful v → afterWire v = v).
Proof.
  intros Hv Hf Ho Hmax. split; [|by apply faithful_kept].
  apply written_reads_back; [by apply wire_writes|by apply wire_reads|done|done].
Qed.

(** ** Keys *)

(** Not a negative zero, not a string with a null character. *)
Definition hashable v : Prop :=
  match v with
  | KeyV CacheableFloat x => x ≠ 2 ^ 31
  | KeyV CacheableDouble x => x ≠ 2 ^ 63
  | StringV _ m_str | FileNameV _ m_str => Forall (λ c, c ≠ 0) (default [] m_str)
  | _ => True
  end.

Lemma isZero_val e m x :
  0 ≤ e → 0 ≤ m → 0 ≤ x < 2 ^ (e + m + 1) → isZero e m x = true → x = 0 ∨ x = 2 ^ (e + m).
Proof.
  intros He Hm Hx. unfold isZero. rewrite Z.eqb_eq, Z.land_ones by lia. intros Hz.
  rewrite Z.pow_add_r in Hx by lia. change (2 ^ 1) with 2 in Hx.
  assert (0 < 2 ^ (e + m)) as Hp by (apply Z.pow_pos_nonneg; lia).
  pose proof (Z.div_mod x (2 ^ (e + m)) ltac:(lia)) as Hd. rewrite Hz in Hd.
  assert (0 ≤ x / 2 ^ (e + m) < 2) by (split; [apply Z.div_pos; lia|
    apply Z.div_lt_upper_bound; lia]).
  assert (x / 2 ^ (e + m) = 0 ∨ x / 2 ^ (e + m) = 1) as [E|E] by lia;
    rewrite E in Hd; lia.
Qed.

Lemma ieeeEq_same e m x y :
  0 ≤ e → 0 ≤ m → 0 ≤ x < 2 ^ (e + m + 1) → 0 ≤ y < 2 ^ (e + m + 1) →
  x ≠ 2 ^ (e + m) → y ≠ 2 ^ (e + m) → ieeeEq e m x y = true → x = y.
Proof.
  intros He Hm Hx Hy Nx Ny. unfold ieeeEq.
  rewrite !andb_true_iff, orb_true_iff, andb_true_iff, Z.eqb_eq.
  intros [_ [E|[E1 E2]]]; [done|].
  destruct (isZero_val e m x) as [->|]; [done..| |done].
  by destruct (isZero_val e m y) as [->|].
Qed.

Lemma keyEquals_same k x y :
  keyRange k x → keyRange k y → hashable (KeyV k x) → hashable (KeyV k y) →
  keyEquals k x y = true → x = y.
Proof.
  destruct k; cbn [keyRange hashable keyEquals]; intros Hx Hy Nx Ny;
    try (intros E; by apply Z.eqb_eq).
  - by apply (ieeeEq_same 11 52).
  - by apply (ieeeEq_same 8 23).
Qed.

Lemma compareStrings_same s s' :
  length s = length s' → Forall (λ c, c ≠ 0) s → compareStrings s s' = true → s = s'.
Proof.
  revert s'. induction s as [|c s IH]; intros [|c' s']; simpl; try done.
  intros [= Hl] Hn. apply Forall_cons in Hn as [Hc Hn].
  rewrite (proj2 (Z.eqb_neq _ _)) by done.
  destruct (Z.eqb_spec c c') as [->|]; [|done]. intros E. f_equal. by apply IH.
Qed.

Lemma string_hashcode_chars t s :
  string_hashcode t s = foldl (λ h c, i32 (31 * h + c)) 0 (charVal t <$> default [] s).
Proof.
  destruct s as [s|]; [|done]. simpl. generalize 0 as h.
  induction s as [|c s IH]; intros h; simpl; [done|]. apply IH.
Qed.

Lemma charVal_nonzero t s :
  (isCString t = true → Forall (in_u 8) s) → Forall (λ c, c ≠ 0) s →
  Forall (λ c, c ≠ 0) (charVal t <$> s).
Proof.
  unfold charVal. intros Hr Hn. rewrite Forall_fmap.
  destruct (isCString t); [|done]. specialize (Hr eq_refl).
  eapply Forall_impl; [exact (proj2 (Forall_and _ _) (conj Hr Hn))|].
  intros c [Hc Hz] E. apply Hz. clear Hz. simpl in E. width_lia.
Qed.

Lemma stringEq_hash a t s b t' s' :
  (isCString t = true → Forall (in_u 8) (default [] s)) →
  Forall (λ c, c ≠ 0) (default [] s) →
  stringEq a t s b t' s' = Ok true → string_hashcode t s = string_hashcode t' s'.
Proof.
  intros Hr Hn. rewrite !string_hashcode_chars. unfold stringEq.
  case_match; [done|]. case_match eqn:El; [done|].
  apply negb_false_iff, Z.eqb_eq in El.
  assert (length (default [] s) = length (default [] s')) as Hl
    by (destruct s, s'; simpl in *; lia).
  destruct s as [s|]; simpl in *.
  - destruct (isCString a || isWideString a || isWideString t && isWideString t');
      [|done]. intros [= E].
    f_equal. apply compareStrings_same; [by rewrite !length_fmap| |done].
    by apply charVal_nonzero.
  - by destruct s' as [[|]|].
Qed.

Lemma stringRange_bytes t s :
  stringRange t s → isCString t = true → Forall (in_u 8) s.
Proof.
  unfold stringRange, isCString. rewrite orb_true_iff, !Z.eqb_eq.
  by intros Hr [->| ->]; destruct Hr.
Qed.

(** C30: Equal keys have equal hash codes, for keys that are neither negative
    zeroes nor strings with a null character. *)
Theorem equal_keys_hash_alike `{!OtherKeys U} v w :
  wellTyped v → wellTyped w → hashable v → hashable w → keyEq v w = Ok true →
  ∃ h, hashcode v = Ok h ∧ hashcode w = Ok h.
Proof.
  intros Hv Hw Nv Nw.
  destruct v as [|k x|t s|t s| | | | | | |u]; destruct w as [|k' x'|t' s'|t' s'| | | | | | |u'];
    cbn [keyEq wellTyped hashable hashcode] in *; try done.
  - case_bool_decide as Hk; [subst k'|done]. intros [= E].
    apply keyEquals_same in E as ->; eauto.
  - intros E. destruct Hv as [_ Hs]. apply stringEq_hash in E as ->; eauto.
    intros. by eapply stringRange_bytes.
  - destruct Hv as [Ht _]. by destruct (isString_cases _ Ht) as [->|[->|[->| ->]]].
  - destruct Hw as [Ht _]. by destruct (isString_cases _ Ht) as [->|[->|[->| ->]]].
  - intros E. destruct Hv as [_ Hs]. apply stringEq_hash in E as ->; eauto.
    intros Ht. unfold isString in Hs. rewrite Ht in Hs.
    by apply (stringRange_bytes t).
  - by rewrite other_eq_foreign.
  - by rewrite other_eq_foreign.
  - by rewrite other_eq_foreign.
  - intros [= E]. rewrite (other_eq_hash _ _ E). eauto.
Qed.
End Theorems.

(** ** Where the contract and the round trip fail *)

Section Findings.
Context `{Allocator}.

(** No application classes. *)
#[local] Instance noTypes : OtherTypes Empty_set := {
  other_classId u := match u with end;
  other_isKey u := match u with end;
  other_hash u := match u with end;
  other_eq u _ := match u with end;
  other_eqForeign u _ := match u with end;
  other_toData u := match u with end;
  other_find _ _ := None
}.

(** 0.0 and -0.0 are equal keys with different hash codes. *)
Example zeroes_hash_apart :
  keyEq (U := Empty_set) (KeyV CacheableDouble 0) (KeyV CacheableDouble (2 ^ 63)) = Ok true ∧
  hashcode (U := Empty_set) (KeyV CacheableDouble 0) = Ok 0 ∧
  hashcode (U := Empty_set) (KeyV CacheableDouble (2 ^ 63)) = Ok (- 2 ^ 31).
Proof. vm_compute. done. Qed.

(** Strings that agree up to a null character are equal, whatever follows it. *)
Example nul_strings_hash_apart :
  keyEq (U := Empty_set) (StringV GF_STRING (Some [65; 0; 66]))
    (StringV GF_STRING (Some [65; 0; 67])) = Ok true ∧
  hashcode (U := Empty_set) (StringV GF_STRING (Some [65; 0; 66])) ≠
  hashcode (U := Empty_set) (StringV GF_STRING (Some [65; 0; 67])).
Proof. vm_compute. done. Qed.

(** Two file names of [char]s are compared as if they were wide strings. *)
Example fileNames_compared_wide :
  keyEq (U := Empty_set) (FileNameV GF_STRING (Some [97; 46; 99]))
    (FileNameV GF_STRING (Some [97; 46; 99])) = UB.
Proof. done. Qed.
End Findings.

(** ** The properties at concrete inputs *)

#[local] Existing Instance zeroAllocator.

(** An application with one class, of class id 300, that holds an integer. *)
#[local] Instance sampleTypes : OtherTypes Z := {
  other_classId _ := 300;
  other_isKey _ := true;
  other_hash := i32;
  other_eq := Z.eqb;
  other_eqForeign _ _ := false;
  other_toData := writeInt_i32;
  other_find fixed compId :=
    if negb fixed && (compId =? 300 * 2 ^ 32 + 38) then Some readInt_i32 else None
}.

#[local] Instance sampleWire : OtherWire Z := {| other_enc := be 4; other_dom := in_s 32 |}.

#[local] Instance sampleCodec : OtherCodec Z.
Proof.
  split; intros u Hu.
  - split; done.
  - apply appends_writeInt_i32.
  - exists readInt_i32. split; [done|]. by apply reads_i32.
Qed.

#[local] Instance sampleKeys : OtherKeys Z.
Proof. split; [by intros u u' ->%Z.eqb_eq|done]. Qed.

(** A map from keys of four classes to a vector, an object array, a wide
    character and a null array. *)
Definition sampleGraph : Serializable Z :=
  MapV CacheableHashMap
    [(KeyV CacheableInt32 7, VectorV CacheableArrayList
       [NullV; StringV GF_WIDESTRING (Some [8364; 72]); UserV (-5)]);
     (StringV GF_STRING (Some [97; 98]), ObjectArrayV [SetV CacheableHashSet
       [KeyV CacheableBoolean 1; KeyV CacheableBoolean 0]]);
     (UserV 9, KeyV CacheableWideChar 65535);
     (FileNameV GF_WIDESTRING (Some [47]), ArrayV CacheableInt32Array None 0)].

Lemma sampleGraph_typed : wellTyped sampleGraph.
Proof.
  repeat (split || constructor); simpl; try (unfold in_u, in_s); try lia;
    repeat constructor; unfold in_u; try lia; vm_compute; done.
Qed.

Lemma cacheable_roundtrip_witness :
  ∃ o', serialize sampleGraph (outputAt 3) = (Ok tt, o') ∧ do_wf o' ∧
    getBuffer o' = written (outputAt 3) ++ wire sampleGraph ∧
    let i := mkDataInput (getBuffer o') (do_buf (outputAt 3)) (getBufferLength o') in
    deserialize 4 i = (Ok (afterWire sampleGraph), seek (getBufferLength o') i).
Proof.
  apply (cacheable_roundtrip sampleGraph 4 (outputAt 3)).
  - apply sampleGraph_typed.
  - vm_compute. lia.
  - apply outputAt_wf; lia.
  - vm_compute. discriminate.
Defined.

Lemma equal_keys_hash_alike_witness :
  ∃ h, hashcode (StringV (U := Z) GF_STRING (Some [97; 98])) = Ok h ∧
       hashcode (StringV (U := Z) GF_WIDESTRING_HUGE (Some [97; 98])) = Ok h.
Proof.
  apply (equal_keys_hash_alike (StringV GF_STRING (Some [97; 98]))
    (StringV GF_WIDESTRING_HUGE (Some [97; 98])));
    [split; [done|split; [repeat constructor; unfold in_u; lia|simpl; lia]]..
    |repeat constructor; lia|repeat constructor; lia|reflexivity].
Defined.

(** An empty array of anything but bytes comes back with the length -1, and a
    wide character above 0x7fff as a negative number. *)
Example empty_array_length :
  let (_, o) := serialize (VectorV CacheableVector
    [ArrayV CacheableInt32Array None 0; KeyV CacheableWideChar 65535]) (outputAt 0) in
  (deserialize 2 (mkDataInput (getBuffer o) 0 (getBufferLength o))).1 =
  Ok (VectorV (U := Z) CacheableVector
    [ArrayV CacheableInt32Array None (-1); KeyV CacheableWideChar (-1)]).
Proof. vm_compute. reflexivity. Qed.
