(* ===== verification/CacheableType.v ===== *)
(** * Whatever is received is well typed

    A program logic for the readers ([yields r P]: every value [r] returns
    satisfies [P], on a buffer of bytes) and its use for the value classes:
    [deserialize_typed] says that an object read from arbitrary bytes has values
    of its C++ types, arrays of the length they report, strings where strings are
    promised and containers with distinct keys. *)

From S2P Require Import Prelude DataOutput DataInput Codec SerializationProps.
From S2P Require Import Cacheable CacheableWire CacheableRead CacheableProps.

(** ** Postconditions of readers *)

Definition isBuffer (i : DataInput) : Prop := Forall (in_u 8) (di_head i).

Definition yields {A} (r : M DataInput A) (P : A → Prop) : Prop := ∀ i a i',
  isBuffer i → r i = (Ok a, i') → P a ∧ isBuffer i'.

Lemma yields_ret {A} (a : A) (P : A → Prop) : P a → yields (ret a) P.
Proof. intros Ha i a' i' Hi [= <- <-]. done. Qed.

Lemma yields_throw {A} (P : A → Prop) e : yields (throw e) P.
Proof. intros i a i' _ [=]. Qed.

Lemma yields_undefined {A} (P : A → Prop) : yields undefined P.
Proof. intros i a i' _ [=]. Qed.

Lemma yields_bind {A B} (m : M DataInput A) (k : A → M DataInput B) P Q :
  yields m P → (∀ a, P a → yields (k a) Q) → yields (bind m k) Q.
Proof.
  intros Hm Hk i b i' Hi E. apply bind_inv_Ok in E as (a & i1 & E1 & E2).
  destruct (Hm _ _ _ Hi E1) as [Ha Hi1]. by apply (Hk a Ha i1).
Qed.

Lemma yields_weaken {A} (r : M DataInput A) (P Q : A → Prop) :
  yields r P → (∀ a, P a → Q a) → yields r Q.
Proof. intros Hr HPQ i a i' Hi E. destruct (Hr _ _ _ Hi E). auto. Qed.

Lemma yields_pure {A B} (m : M DataInput A) (f : A → B) P Q :
  yields m P → (∀ a, P a → Q (f a)) → yields (let! x := m in ret (f x)) Q.
Proof. intros Hm HPQ. eapply yields_bind; [done|]. intros a Ha. by apply yields_ret, HPQ. Qed.

Lemma yields_check {A} n (r : M DataInput A) P : yields r P → yields (checkBufferSize n ;! r) P.
Proof.
  intros Hr i a i' Hi E. apply bind_inv_Ok in E as ([] & i1 & E1 & E2).
  unfold checkBufferSize in E1. case_match; [done|]. injection E1 as <-. by eapply Hr.
Qed.

Lemma yields_any {A} (r : M DataInput A) (P : A → Prop) : yields r P → yields r (λ _, True).
Proof. intros Hr. by eapply yields_weaken. Qed.

(** ** Bytes and integers *)

Lemma in_u_lor w a b : 0 < w → in_u w a → in_u w b → in_u w (Z.lor a b).
Proof.
  unfold in_u. intros Hw Ha Hb. split; [apply Z.lor_nonneg; lia|].
  destruct (Z.eq_dec a 0) as [->|]; [rewrite Z.lor_0_l; lia|].
  destruct (Z.eq_dec b 0) as [->|]; [rewrite Z.lor_0_r; lia|].
  assert (0 < Z.lor a b).
  { pose proof (proj2 (Z.lor_nonneg a b) ltac:(lia)).
    destruct (Z.eq_dec (Z.lor a b) 0) as [E|]; [|lia].
    apply Z.lor_eq_0_iff in E. lia. }
  apply Z.log2_lt_pow2; [done|]. rewrite Z.log2_lor by lia.
  apply Z.max_lub_lt; apply Z.log2_lt_pow2; lia.
Qed.

Lemma in_u_land_ones a n w : 0 ≤ n ≤ w → in_u w (Z.land a (2 ^ n - 1)).
Proof.
  intros Hn. rewrite land_ones' by lia. unfold in_u.
  pose proof (Z.mod_pos_bound a (2 ^ n) ltac:(apply Z.pow_pos_nonneg; lia)).
  assert (2 ^ n ≤ 2 ^ w) by (apply Z.pow_le_mono_r; lia). lia.
Qed.

Lemma in_u_shiftl a n w : 0 ≤ n ≤ w → in_u (w - n) a → in_u w (Z.shiftl a n).
Proof.
  unfold in_u. intros Hn Ha. rewrite Z.shiftl_mul_pow2 by lia.
  replace (2 ^ w) with (2 ^ (w - n) * 2 ^ n)
    by (rewrite <- Z.pow_add_r by lia; f_equal; lia).
  pose proof (Z.pow_pos_nonneg 2 n). nia.
Qed.

Lemma yields_fetch : yields fetch (in_u 8).
Proof.
  intros i b i' Hi. unfold fetch. repeat case_match; try done.
  intros [= <- <-]. split; [|done]. by eapply Forall_lookup_1.
Qed.

Lemma yields_shift_in w tmp :
  8 ≤ w → yields (shift_in tmp (uwrap w)) (in_u w).
Proof.
  intros Hw. eapply yields_pure; [apply yields_fetch|]. intros b Hb.
  apply in_u_lor; [lia|apply uwrap_range; lia|]. eapply in_u_weaken; [|exact Hb]. lia.
Qed.

Ltac yields_step :=
  first [ apply yields_check
        | by apply yields_shift_in
        | eapply yields_bind; [by eapply yields_shift_in|intros ? ?]
        | eapply yields_bind; [apply yields_fetch|intros ? ?] ].

Lemma yields_u8 : yields read_u8 (in_u 8).
Proof. apply yields_check, yields_fetch. Qed.

Lemma yields_i8 : yields read_i8 (in_s 8).
Proof.
  apply yields_check. eapply yields_pure; [apply yields_fetch|]. intros. by apply swrap_range.
Qed.

Lemma yields_boolean : yields readBoolean (λ _, True).
Proof. apply yields_check. eapply yields_pure; [apply yields_fetch|done]. Qed.

Lemma yields_u16 : yields readInt_u16 (in_u 16).
Proof. unfold readInt_u16. repeat yields_step. apply yields_ret, uwrap_range. lia. Qed.

Lemma yields_u32 : yields readInt_u32 (in_u 32).
Proof. unfold readInt_u32. repeat yields_step. Qed.

Lemma yields_u64 : yields (readInt_u64 true) (in_u 64).
Proof. unfold readInt_u64. repeat yields_step. Qed.

Lemma yields_signed w n (r : M DataInput Z) P :
  0 < w → yields r P →
  yields (checkBufferSize n ;! let! v := r in ret (swrap w v)) (in_s w).
Proof.
  intros Hw Hr. apply yields_check. eapply yields_pure; [done|].
  intros. by apply swrap_range.
Qed.

Lemma yields_arrayLen : yields readArrayLen (in_s 32).
Proof.
  eapply yields_bind; [apply yields_u8|]. intros c Hc. unfold in_u in Hc.
  repeat case_match; try apply yields_throw; try (apply yields_ret; split; simpl in *; lia).
  - eapply yields_weaken; [apply yields_u16|]. unfold in_u, in_s. simpl. lia.
  - eapply yields_pure; [apply yields_u32|]. intros. by apply swrap_range.
Qed.

Lemma yields_repeat {A} n (body : M DataInput A) P :
  yields body P → yields (repeatRead n body) (λ l, Forall P l ∧ length l = n).
Proof.
  intros Hb. induction n as [|n IH]; [by apply yields_ret|].
  eapply yields_bind; [done|]. intros a Ha. eapply yields_pure; [exact IH|].
  intros l [Hl <-]. split; [by constructor|done].
Qed.

Lemma yields_fetchN n :
  0 ≤ n → yields (fetchN n) (λ l, Forall (in_u 8) l ∧ n = Z.of_nat (length l)).
Proof.
  intros Hn i l i' Hi. unfold fetchN. case_match eqn:E; [|done]. intros [= <- <-].
  apply andb_true_iff in E as [E1 E2]. split; [|done].
  split; [by apply Forall_take, Forall_drop|]. rewrite length_take, length_drop. lia.
Qed.

Lemma yields_bytesOnly n : yields (readBytesOnly n) (Forall (in_u 8)).
Proof.
  unfold readBytesOnly. case_match eqn:E; [|by apply yields_ret].
  apply yields_check. eapply yields_weaken; [apply yields_fetchN; lia|]. by intros l [? _].
Qed.

(** What the two array readers return: nothing, or as many elements as said. *)
Definition arrayTyped {A} (P : A → Prop) (r : option (list A) * Z) : Prop :=
  match r.1 with
  | None => - 2 ^ 31 ≤ r.2 ≤ 0
  | Some l => r.2 = Z.of_nat (length l) ∧ 0 < r.2 < 2 ^ 31 ∧ Forall P l
  end.

Lemma yields_bytes : yields readBytes (arrayTyped (in_u 8)).
Proof.
  eapply yields_bind; [apply yields_arrayLen|]. intros n Hn. unfold in_s in Hn. simpl in Hn.
  destruct (Z.ltb_spec 0 n).
  - apply yields_check. eapply yields_pure; [apply yields_fetchN; lia|].
    intros l [Hl E]. unfold arrayTyped. simpl. split_and!; (done || lia).
  - apply yields_ret. unfold arrayTyped. simpl. lia.
Qed.

Lemma yields_objectArray {A} (r : M DataInput A) P :
  yields r P → yields (readObjectArray r) (arrayTyped P).
Proof.
  intros Hr. eapply yields_bind; [apply yields_arrayLen|]. intros n Hn.
  unfold in_s in Hn. simpl in Hn. destruct (Z.ltb_spec 0 n).
  - eapply yields_pure; [by apply yields_repeat|].
    intros l [Hl E]. unfold arrayTyped. simpl. split_and!; (done || lia).
  - apply yields_ret. unfold arrayTyped. simpl. lia.
Qed.

(** ** Strings *)

Lemma yields_decodeChar : yields decodeChar_wchar (in_u 16).
Proof.
  assert (∀ a n w, 0 ≤ n ≤ w → in_u w (Z.land a (2 ^ n - 1))) as Hland
    by (intros; by apply in_u_land_ones).
  eapply yields_bind; [apply yields_fetch|]. intros b Hb. cbv zeta.
  change 63 with (2 ^ 6 - 1). change 31 with (2 ^ 5 - 1). change 15 with (2 ^ 4 - 1).
  change 127 with (2 ^ 7 - 1).
  case_match; [|case_match]; repeat yields_step; apply yields_ret;
    repeat (apply in_u_lor; [lia|..]);
    try (apply in_u_shiftl; [lia|]); apply Hland; lia.
Qed.

Lemma yields_UTF : yields readUTF_wchar (Forall (in_u 16)).
Proof.
  eapply yields_bind; [apply yields_u16|]. intros n Hn. apply yields_check.
  intros i l i' Hi. rewrite bind_get. case_match; [|done].
  intros E. destruct (yields_repeat _ _ _ yields_decodeChar _ _ _ Hi E) as [[? _] ?]. done.
Qed.

Lemma yields_UTFHuge : yields readUTFHuge_wchar (Forall (in_u 16)).
Proof.
  eapply yields_bind; [apply yields_u32|]. intros n Hn.
  eapply yields_weaken; [apply (yields_repeat _ _ (in_u 16))|by intros l [? _]].
  eapply yields_bind; [apply yields_u8|]. intros h Hh.
  eapply yields_bind; [apply yields_u8|]. intros b Hb.
  unfold storeChar. case_match; [|apply yields_undefined].
  apply yields_ret, in_u_lor; [lia|..].
  - by apply in_u_shiftl.
  - eapply in_u_weaken; [|exact Hb]. lia.
Qed.

Lemma yields_ASCII : yields readASCII (Forall (in_u 8)).
Proof.
  eapply yields_bind; [apply yields_u16|]. intros n Hn. apply yields_check, yields_bytesOnly.
Qed.

Lemma yields_ASCIIHuge : yields readASCIIHuge (Forall (in_u 8)).
Proof.
  eapply yields_bind; [apply yields_u32|]. intros n Hn.
  eapply yields_bind; [apply yields_bytesOnly|]. intros l Hl.
  case_match; [by apply yields_ret|apply yields_undefined].
Qed.

(** ** Objects *)

(** The laws of the readers that are not modelled. *)
Class OtherReaders (U : Type) `{!Allocator, !OtherTypes U, !OtherWire U} : Prop :=
  other_yields fixed compId r : other_find fixed compId = Some r → yields r other_dom.

Section Typed.
Context {U : Type} `{!Allocator, !OtherTypes U, !OtherWire U, !OtherReaders U}.
Implicit Types v : Serializable U.

Definition receivedKey (k : KeyKind) (x : Z) : Prop :=
  match k with CacheableWideChar => in_s 16 x | _ => keyRange k x end.

Definition receivedString (m_type : Z) (m_str : option (list Z)) : Prop :=
  match m_str with
  | None => True
  | Some s => isString m_type ∧ Forall (in_u (if isCString m_type then 8 else 16)) s
  end.

(** The keys of a container, in the order they were put there. *)
Definition distinctKeys (keys : list (Serializable U)) : Prop :=
  Forall isKeyV keys ∧ ForallOrdPairs (λ a b, keyEq a b = Ok false) keys.

Fixpoint received v : Prop :=
  match v with
  | NullV => True
  | KeyV k x => receivedKey k x
  | StringV m_type m_str => isString m_type ∧ receivedString m_type m_str
  | FileNameV m_type m_str => in_s 8 m_type ∧ receivedString m_type m_str
  | ArrayV k a n => arrayTyped (receivedKey (elementKind k)) (a, n)
  | StringArrayV None n => - 2 ^ 31 ≤ n ≤ 0
  | StringArrayV (Some l) n =>
      n = Z.of_nat (length l) ∧ 0 < n < 2 ^ 31 ∧ allP (λ c, isStringV c ∧ received c) l
  | VectorV _ l | ObjectArrayV l => shortList l ∧ allP received l
  | MapV _ l => shortList l ∧ distinctKeys (map fst l) ∧
      allP (λ c, received c.1 ∧ received c.2) l
  | SetV _ l => shortList l ∧ distinctKeys l ∧ allP received l
  | UserV u => other_dom u
  end.

Lemma yields_key k : yields (readKey k) (receivedKey k).
Proof.
  destruct k; simpl.
  - eapply yields_pure; [apply yields_boolean|]. intros []; simpl; lia.
  - apply yields_u8.
  - apply yields_check, yields_u64.
  - apply yields_check, yields_u32.
  - eapply yields_signed; [lia|apply yields_u16].
  - eapply yields_signed; [lia|apply yields_u32].
  - eapply yields_signed; [lia|apply yields_u64].
  - eapply yields_signed; [lia|apply yields_u16].
  - eapply yields_signed; [lia|apply yields_u64].
Qed.

Lemma yields_string m_type :
  yields (string_fromData m_type) (receivedString m_type).
Proof.
  unfold string_fromData, receivedString.
  destruct (Z.eqb_spec m_type GF_STRING) as [->|N1].
  { eapply yields_pure; [apply yields_ASCII|]. done. }
  destruct (Z.eqb_spec m_type GF_WIDESTRING) as [->|N2].
  { eapply yields_pure; [apply yields_UTF|]. done. }
  destruct (Z.eqb_spec m_type GF_STRING_HUGE) as [->|N3].
  { eapply yields_pure; [apply yields_ASCIIHuge|]. done. }
  destruct (Z.eqb_spec m_type GF_WIDESTRING_HUGE) as [->|N4].
  { eapply yields_pure; [apply yields_UTFHuge|]. done. }
  by apply yields_ret.
Qed.

(** A loop that fills a container keeps an invariant and adds one element at
    most each time. *)
Lemma yields_repeatInto {A} (P : list A → Prop) (body : list A → M DataInput (list A)) :
  (∀ l, P l → yields (body l) (λ l', P l' ∧ (length l' ≤ S (length l))%nat)) →
  ∀ n l, P l → yields (repeatInto n body l) (λ l', P l' ∧ (length l' ≤ n + length l)%nat).
Proof.
  intros Hb n. induction n as [|n IH]; intros l Hl; [by apply yields_ret|].
  eapply yields_bind; [by apply Hb|]. intros l1 [H1 Hn].
  eapply yields_weaken; [by apply IH|]. intros l2 [H2 Hn2]. split; [done|lia].
Qed.

Lemma ForallOrdPairs_snoc {A} (R : A → A → Prop) l a :
  ForallOrdPairs R l → Forall (λ b, R b a) l → ForallOrdPairs R (l ++ [a]).
Proof.
  induction 1 as [|b l Hb Hl IH]; simpl; intros Ha.
  { constructor; [constructor|constructor]. }
  apply Forall_cons in Ha as [Ha1 Ha]. constructor; [|by apply IH].
  apply Forall_app_2; [done|]. by constructor.
Qed.

Lemma findKey_false {A} key (keyOf : A → Serializable U) l :
  findKey key keyOf l = Ok false → Forall (λ a, keyEq (keyOf a) key = Ok false) l.
Proof.
  induction l as [|a l IH]; simpl; [constructor|]. intros E.
  destruct (keyEq (keyOf a) key) as [[]| |] eqn:Ek; try done. constructor; [done|by apply IH].
Qed.

(** [emplace] keeps the keys distinct. *)
Lemma yields_emplace {A} (keyOf : A → Serializable U) (Q : A → Prop) a l :
  (∀ h, hashcode (keyOf a) = Ok h → isKeyV (keyOf a)) → Q a →
  distinctKeys (map keyOf l) → Forall Q l →
  yields (emplace keyOf a l) (λ l', (distinctKeys (map keyOf l') ∧ Forall Q l') ∧
    (length l' ≤ S (length l))%nat).
Proof.
  intros Hh Ha Hd Hl. unfold emplace.
  destruct (hashcode (keyOf a)) as [h| |]; destruct (findKey (keyOf a) keyOf l) as [p| |] eqn:E;
    try apply yields_undefined; try apply yields_throw.
  apply yields_ret. destruct p; [split; [done|lia]|]. destruct Hd as [Hk Ho].
  rewrite length_app, map_app. simpl. split_and!; [split|..|lia].
  - apply Forall_app_2; [done|]. constructor; [by eapply Hh|constructor].
  - apply ForallOrdPairs_snoc; [done|]. rewrite List.Forall_map. by apply findKey_false.
  - apply Forall_app_2; [done|]. by constructor.
Qed.

Lemma received_asKey v : received v → received (asKey v).
Proof. destruct v; simpl; try done. by case_match. Qed.

Lemma asKey_hashed v h : hashcode (asKey v) = Ok h → isKeyV (asKey v).
Proof. destruct v; simpl; try done. by case_match; simpl. Qed.

Lemma asString_received v : received v → isStringV (asString v) ∧ received (asString v).
Proof. by destruct v. Qed.

Lemma yields_list (rd : M DataInput (Serializable U)) n :
  in_s 32 n → yields rd received →
  yields (repeatRead (Z.to_nat n) rd) (λ l, shortList l ∧ allP received l).
Proof.
  intros Hn Hr. eapply yields_weaken; [by apply yields_repeat|]. intros l [Hl E].
  rewrite allP_Forall. split; [|done]. unfold shortList, in_s in *. simpl in *. lia.
Qed.

Lemma yields_advance n : yields (di_advanceCursor n) (λ _, True).
Proof. intros i [] i' Hi [= <-]. done. Qed.

Lemma yields_primitives rd k : yields (fromData (U := U) rd (BArray k)) received.
Proof.
  destruct (isBytes k) eqn:Ek.
  - destruct k; try done. eapply yields_pure; [apply yields_bytes|]. by intros [a n].
  - assert (fromData rd (BArray k) = let! r := readObjectArray (readKey (elementKind k)) in
      ret (ArrayV k r.1 r.2)) as -> by (by destruct k).
    eapply yields_pure; [apply yields_objectArray, yields_key|]. by intros [a n].
Qed.

Lemma yields_stringArray rd :
  yields rd received → yields (fromData rd BStringArray) received.
Proof.
  intros Hr. eapply yields_pure.
  - apply (yields_objectArray _ (λ c, isStringV c ∧ received c)).
    eapply yields_pure; [exact Hr|]. apply asString_received.
  - intros [[l|] n]; unfold arrayTyped; cbn [received fst snd]; [|done]. by rewrite allP_Forall.
Qed.

Lemma distinctKeys_nil : distinctKeys [].
Proof. split; constructor. Qed.

Lemma yields_map rd k :
  yields rd received → yields (fromData rd (BMap k)) received.
Proof.
  intros Hr. eapply yields_bind; [apply yields_arrayLen|]. intros n Hn.
  case_match; [apply yields_throw|]. eapply yields_pure.
  - eapply (yields_repeatInto (λ l, distinctKeys (map fst l) ∧
      Forall (λ c, received c.1 ∧ received c.2) l)); [|split; [apply distinctKeys_nil|done]].
    intros l [Hd Hl]. eapply yields_bind; [exact Hr|]. intros key Hkey.
    eapply yields_bind; [exact Hr|]. intros val Hval.
    apply yields_emplace; [apply asKey_hashed|by split; [apply received_asKey|]|done|done].
  - intros l [[Hd Hl] Hlen]. cbn [received]. rewrite allP_Forall. split_and!; [|done..].
    unfold shortList, in_s in *. simpl in *. lia.
Qed.

Lemma yields_set rd k :
  yields rd received → yields (fromData rd (BSet k)) received.
Proof.
  intros Hr. eapply yields_bind; [apply yields_arrayLen|]. intros n Hn. eapply yields_pure.
  - eapply (yields_repeatInto (λ l, distinctKeys (map id l) ∧ Forall received l));
      [|split; [apply distinctKeys_nil|done]].
    intros l [Hd Hl]. eapply yields_bind; [exact Hr|]. intros key Hkey.
    apply yields_emplace; [apply asKey_hashed|by apply received_asKey|done|done].
  - intros l [[Hd Hl] Hlen]. cbn [received]. rewrite allP_Forall.
    rewrite map_id in Hd. split_and!; [|done..].
    unfold shortList, in_s in *. simpl in *. lia.
Qed.

(** Each class reads an object of its type, if its children are. *)
Lemma yields_fromData rd b :
  In b builtins → yields rd received → yields (fromData rd b) received.
Proof.
  intros Hb Hr. destruct b as [k|t| |k| |k|k|k|]; cbn [fromData].
  - eapply yields_pure; [apply yields_key|done].
  - eapply yields_pure; [apply yields_string|]. intros s Hs. split; [|done].
    repeat (destruct Hb as [Hb|Hb]; [first [discriminate Hb|injection Hb as <-; done]|]).
    destruct Hb.
  - eapply yields_bind; [apply yields_i8|]. intros t Ht.
    eapply yields_pure; [apply yields_string|done].
  - exact (yields_primitives rd k).
  - by apply yields_stringArray.
  - eapply yields_bind; [apply yields_arrayLen|]. intros n Hn.
    eapply yields_pure; [by apply yields_list|done].
  - by apply yields_map.
  - by apply yields_set.
  - eapply yields_bind; [apply yields_arrayLen|]. intros n Hn.
    case_match; [by apply yields_ret|].
    eapply yields_bind; [apply yields_i8|]. intros _ _.
    eapply yields_bind; [apply yields_i8|]. intros _ _.
    eapply yields_bind; [apply yields_u16|]. intros c _.
    eapply yields_bind; [apply yields_advance|]. intros _ _.
    eapply yields_pure; [by apply yields_list|done].
Qed.

Lemma yields_compId t : yields (readCompId t) (λ _, True).
Proof.
  unfold readCompId. repeat case_match; try (by apply yields_ret);
    (eapply yields_bind;
      [first [apply yields_i8|eapply yields_signed; [lia|apply yields_u16]
        |eapply yields_signed; [lia|apply yields_u32]]|];
     intros; by apply yields_ret).
Qed.

Lemma findBlank_In c l b : findBlank c l = Some b → In b l.
Proof.
  induction l as [|b' l IH]; simpl; [done|]. case_match; [intros [= ->]; by left|].
  intros. right. by apply IH.
Qed.

Lemma yields_deserialize fuel : yields (deserialize fuel) received.
Proof.
  induction fuel as [|fuel IH]; [apply yields_undefined|]. cbn [deserialize].
  eapply yields_bind; [apply yields_i8|]. intros t _.
  case_match; [by apply yields_ret|]. case_match; [by apply yields_ret|].
  eapply yields_bind; [apply yields_compId|]. intros [fixed c] _.
  destruct (if fixed then None else findBlank c builtins) as [b|] eqn:Eb.
  - apply yields_fromData; [|exact IH]. destruct fixed; [done|]. by eapply findBlank_In.
  - destruct (other_find fixed c) as [r|] eqn:Ef; [|apply yields_throw].
    eapply yields_pure; [by eapply other_yields|done].
Qed.

End Typed.

(** ** The property at a concrete input *)

#[local] Existing Instance zeroAllocator.
#[local] Existing Instance sampleTypes.
#[local] Existing Instance sampleWire.

#[local] Instance sampleReaders : OtherReaders Z.
Proof.
  intros fixed c r. simpl. case_match; [|done]. intros [= <-].
  eapply yields_signed; [lia|apply yields_u32].
Qed.

(** A set of three elements of which two are equal. *)
Definition setBytes : list Z := [66; 3; 57; 0; 0; 0; 7; 55; 9; 57; 0; 0; 0; 7].

